(* ===== verification/_CoqProject ===== *)
-Q . S2P
Prelude.v
Text.v
Coding.v
Crc32.v
Entry.v
Memtable.v
Wal.v
Manifest.v
Bloom.v
BlockCache.v
SSTableWriter.v
SSTable.v
MergeIterator.v
Version.v
Compaction.v
Levels.v
Db.v
Recovery.v
Directory.v
Background.v
Worker.v
Round.v
Store.v
Readers.v
Monitor.v
Crash.v
GroupCommit.v
WriteQueue.v
Cli.v
Torture.v
Engine.v
Stats.v
Random.v
Bench.v
