(* ===== verification/Prelude.v ===== *)
(** * A verification of KeystoneDB

    KeystoneDB is an embedded key-value store: a log-structured merge tree
    with a write-ahead log, a skip-list memtable, table files on seven levels,
    a manifest, a block cache, snapshots and a background compaction.  This
    library translates the C++ of src/src, src/include/keystone and the
    programs in src/cmd, src/tools and src/bench into executable definitions and
    proves what makes them correct.  Every file requires only ones above it in
    this list.

    ** Parts of the program and the files that model them

    - [Prelude]: bytes, machine widths ([u32], [u64]), the outcome type
      [result] ([Ok], [Throw], [Undefined] for undefined behaviour), byte-string
      order, the hint database [keystone], the lemmas the components share.
    - [Text]: numbers and text as the standard library reads and prints them.
    - [Coding] (src/src/coding.h): little-endian integers, [write_fully],
      [read_fully], [durable_sync].  The operating system is the class [Posix]
      (each call returns what the system did); [PosixOk] says the calls succeed.
      A [File] has its bytes, how many of them are durable, and what it held
      before truncations that have not been synced; [crash_file] is what a crash
      may leave of it: a prefix with at least the durable bytes, or the same of
      an older content.
    - [Crc32] (crc32.cpp): the table and the loop; the reference is the
      polynomial remainder bit by bit.
    - [Entry] (memtable.h): a version of a key; [lookup_ref], the answer a
      reader at a snapshot must get from a list of versions.
    - [Memtable] (memtable.cpp, memtable.h): the skip list as a store of nodes
      with forward pointers per level; coin tosses are arguments.
    - [Wal] (wal.cpp), [Manifest] (manifest.cpp): the two append-only files.
    - [Bloom] (bloom.cpp), [BlockCache] (block_cache.cpp): the filter; the
      cache, whose two critical sections are atomic steps of a transition system.
    - [SSTableWriter], [SSTable] (sstable.cpp): writing and reading table files;
      reads run in the monad [cached], which threads the block cache.
    - [MergeIterator] (merge_iterator.cpp): the k-way merge over the class of
      sources; [std::priority_queue] is the class [PriorityQueue] with the law
      that [pop] removes a greatest element.
    - [Version] (version.h, db.cpp): the levels, the read path over them, the
      choice of a compaction.
    - [Compaction] (db.cpp): which versions a compaction keeps, how it cuts
      them into files, and the version its commit makes.
    - [Levels]: which jobs [pick_compaction] may choose so that a commit keeps
      the levels in order; the commit replaces inputs by survivors.
    - [Db] (db.h, db.cpp): the state of the database and its operations: the
      write of a batch, flush, snapshots, point reads and scans, in a state and
      error monad.  The contract is [Spec], a finite map with a copy per
      snapshot; [refines] relates the two.
    - [Recovery] (db.cpp, [DB::open]): opening a directory, and which state a
      crash between two calls leaves.  A [Disk] holds the files with what of
      them is durable, and [open] keeps that: it syncs neither the log it
      replays nor the cut of its torn end.  [durable] relates a database and its
      files in every sync mode; the [Journal] says which writes the tables hold
      and which of them only the log, and whether all are on the medium
      ([j_settled]); [durably_refined] is [refined] with all of them there.
    - [Directory] (db.cpp, sstable.cpp): the names of the files, and the scan of
      the directory that turns them into table numbers.  Other files may be
      there as long as none of them reads as the number of a table
      ([dir_holds]).
    - [Background] (db.cpp, [DB::compaction_loop], [DB::compact]): the compaction
      thread as a state machine.  It holds the lock while it picks and while it
      commits, so it makes one step at a time ([worker_step]) and everything
      else may happen in between.
    - [Worker]: the invariant of the thread beside its clients, and that each
      of its steps is invisible.
    - [Round]: a whole round of the thread, and [compact], which waits for it.
    - [Store]: schedules of client calls, thread steps and polls of [compact];
      lives of a store, in any sync mode, with crashes and reopenings, and
      whether all writes of a life are on the medium; the end of a process
      ([db_close], for [~DB]), in which the thread ends its round.
    - [Readers] (db.cpp, [DB::get_impl], [DB::scan_impl]; sstable.cpp, [~SSTable]):
      readers as threads that hold the lock only for their first section and then
      work on the version they took, one table at a time; the file of a replaced
      table is unlinked when the last reader of it is gone.
    - [Monitor] (db.cpp): the lock and the condition variable on which the thread
      and the callers of [compact] sleep, with [notify_one] and [notify_all] as
      the code has them, and the destructor.
    - [Crash]: crashes and errors inside a write or a flush.
    - [GroupCommit] (db.cpp, [DB::write]): the queue of writers.  Each caller is
      a state machine; the leader numbers a batch under one lock and commits it
      under another.  A call is known by the address of its request, which a
      later call may get again.
    - [WriteQueue] (db.cpp, [write_cv_]): the condition variable of that queue,
      with the set of its sleepers.
    - [Cli] (cmd/keystone/main.cpp): the command line, with the compaction
      thread at work between the commands.
    - [Torture] (tools/torture.cpp): the crash test and its verification.
    - [Engine] (bench/bench.cpp): the interface of the benchmark as a class of
      operations with its laws, the database behind it, and SQLite behind it.
      SQLite is not part of the sources: its C interface is the class [Sqlite],
      and [SqliteOk] its documented behaviour, for calls made the way the
      documentation asks for and no others.
    - [Stats]: latencies and percentiles; a [double] is a number of [SpecFloat]
      with IEEE rounding, [std::nth_element] a class with what the standard says
      of it; the printing of doubles.
    - [Random]: [std::mt19937] bit by bit; the distribution and the shuffle are
      a class.
    - [Bench]: the workloads on any engine, the threads of the concurrent one as
      state machines under any schedule, arguments, [main], the table and the
      file of results; the temporary directories and the path of the results on a
      class of file-system calls.

    ** What the theorems show

    - The store with all its threads: [group_commit_simulation],
      [group_commit_trace] (each write takes effect at once between its call and
      its return, whatever runs in between), [concurrent_simulation] (the
      compaction thread cannot be seen), [store_consistent] (levels, tables,
      cache, memtable, snapshots and counters fit together),
      [group_commit_progress] (writers do not deadlock), [no_sleeping_leader] and
      [writes_return] (nobody sleeps through its turn, and every write returns),
      [batch_one_fsync] (a batch costs one sync);
      [concurrent_reads_trace] and [reads_linearizable] (a read answers as if it
      had run at its locked section, whatever runs beside the rest of it).
    - Durability: [store_across_crashes], [crash_recovery], [crash_in_write],
      [crash_in_flush] (nothing that was on the medium is lost, wherever the
      crash comes: between calls, between steps of the thread, inside a write
      with [EveryWrite] and the flush behind it, or inside a flush);
      [crash_keeps_prefix] (without a sync for every write a crash leaves a
      prefix of the writes, which lacks at most those in the log).  A write with
      a sync puts everything before it on the medium; closing and opening do
      not.  A crash may undo a truncation of the log; while some write is not on
      the medium the theorems assume that it does not, and
      [undone_truncation_hides_write] shows what happens if it does.  Inside
      calls the syncs that the system reports are taken to be real ([syncs]).
      Further,
      [held_files_stay] (the file of a table that a reader holds is not
      unlinked) and [crash_with_readers] (files that wait for their readers do no
      harm after a crash);
      [scan_finds_disk] (the names of the files lead back to the tables).
    - The compaction thread: [round_terminates], [compact_returns],
      [compaction_preserves_reads], [snapshot_free_job]; [no_lost_wakeup] (it
      never sleeps through a request) and [destructor_joins] (it can be stopped
      at any time).
    - The programs on top: [session_output] for the command line,
      [torture_write_extends] and [torture_verifies_after_crash] for the crash
      test; for the benchmark [engines_agree] (both engines answer as a map
      does), [write_workloads_once], [read_workloads_answered] (the workloads
      measure what their names say), [percentiles_correct], [results_file] and
      [directories_cleaned] (no directory of a store is left behind).
    - The components against their references: the skip list and sorted
      insertion, point reads and iterators of table files and the list of
      entries, the merge and the newest visible versions, the cache and an LRU
      list, the table-driven checksum and the polynomial remainder; the memory
      of the skip list ([memtable_delete_correct]).
    - Formats: round trips of log, manifest, filter and table file; torn tails;
      detection of corruption.
    - Behaviour that differs from what the code means to do: [compact_spins] and
      [compact_tombstones_stuck] ([compact] does not return),
      [failed_commit_blocks_writers] with [reused_request_releases] (the queue
      after an exception), [snapshot_sees_later_write],
      [undone_truncation_hides_write],
      [forced_single_file_hides_write], [compaction_splits_versions],
      [torn_manifest_loses_write], [wal_oversize_lost],
      [stray_name_hides_table], [unchecked_arguments], [results_in_root], and versions of one key
      split over two blocks, unreadable blocks and empty keys in their files.

    ** Bounds and fuel

    Loops that are not structural take fuel.  The theorems never assume that
    the fuel suffices: the operations compute it from their input (the number
    of nodes for the skip list, file lengths for replay, entry counts for
    iterators and merges) and the theorems state that the result is [Ok].
    Integers wrap at their width where the code lets them wrap; signed overflow,
    a null dereference and a division by zero are [Undefined].  The conditions
    of use ([call_safe], [action_safe]) bound sizes (2^60 bytes per table file,
    64 MiB per key and value, 2^31 table files, 2^64 writes) and exclude the
    known defects: [keys_separate] that the versions of one key are split over
    two blocks, [job_safe] that a job splits them over two files, rewrites a
    single file to level 0 or meets an empty key, and [gaction_safe] that a
    snapshot is taken between the numbering and the commit of a batch.
    [snapshot_free_job] shows that most of [job_safe] holds by itself when no
    snapshot is live.  The conditions are decidable, and the witnesses decide
    them on concrete schedules.

    ** Not modelled

    Data races on fields that are read without their lock (the memtable in
    [maybe_flush], the log in [wal_fsync_count], the counter in [get_snapshot]
    beyond its value) and threads inside a critical section.  A step of a reader
    is one table of level 0 or one level of a [get], one source or one entry of a
    scan; the accesses to the cache inside a step are not interleaved with those
    of others.  The two condition variables are modelled in [Monitor] and
    [WriteQueue] and are their predicates elsewhere; the delay of an unlink by
    readers is modelled in [Readers], and elsewhere nobody reads while a version
    is replaced.  What the system keeps of a directory after a
    crash beyond installed files: an installed name and an unlinked one stay so.
    Crashes inside a step of the compaction thread.  In the command line and
    behind the benchmark's interface the thread makes its steps between two
    calls.  The threads of the benchmark call the engines as if a call were atomic, which
    [group_commit_simulation] shows of the database and the mutex of
    [SqliteEngine] ensures for the other one.  The messages of the command line
    and the crash test to the error stream. *)

From Stdlib Require Export ZArith Lia Bool.
From Stdlib Require Export Strings.Byte.
From stdpp Require Export base tactics list gmap numbers option sorting strings.

#[global] Set Default Proof Using "Type".
#[export] Set Default Goal Selector "!".

Declare Scope keystone_scope.
Delimit Scope keystone_scope with ks.
Local Open Scope Z_scope.

(** * Machine integers *)

(** [static_cast<uint8_t>]: the low eight bits. *)
Definition u8 (z : Z) : byte :=
  default Byte.x00 (Byte.of_N (Z.to_N (z mod 2 ^ 8))).

(** The promotion of a [uint8_t] to a wider unsigned type. *)
Definition ub (b : byte) : Z := Z.of_N (Byte.to_N b).

(** Wrap-around of [uint32_t], [uint64_t] (and of the 64-bit [size_t]). *)
Definition u32 (z : Z) : Z := z mod 2 ^ 32.
Definition u64 (z : Z) : Z := z mod 2 ^ 64.

(** [static_cast<int>]: two's complement on 32 bits. *)
Definition i32 (z : Z) : Z := (z + 2 ^ 31) mod 2 ^ 32 - 2 ^ 31.

(** [UINT64_MAX]. *)
Definition u64_max : Z := 2 ^ 64 - 1.

Abbreviation bytes := (list byte).

(** The length of a byte string as the code computes with it. *)
Definition blen (b : bytes) : Z := Z.of_nat (length b).

(** * Outcomes of code that can throw or leave the defined behaviour of C++ *)

Inductive result (A : Type) : Type :=
| Ok (a : A)
| Throw (msg : string)
| Undefined.
Arguments Ok {A} a.
Arguments Throw {A} msg.
Arguments Undefined {A}.

#[export] Instance result_ret : MRet result := λ A a, Ok a.
#[export] Instance result_bind : MBind result := λ A B f m,
  match m with
  | Ok a => f a
  | Throw msg => Throw msg
  | Undefined => Undefined
  end.

(** * The order of [std::string::compare]: lexicographic on unsigned bytes *)

Fixpoint bytes_compare (a b : bytes) : comparison :=
  match a, b with
  | [], [] => Eq
  | [], _ :: _ => Lt
  | _ :: _, [] => Gt
  | x :: a', y :: b' =>
      match Z.compare (ub x) (ub y) with
      | Eq => bytes_compare a' b'
      | c => c
      end
  end.

Definition bytes_ltb (a b : bytes) : bool :=
  match bytes_compare a b with Lt => true | _ => false end.

Definition bytes_leb (a b : bytes) : bool :=
  match bytes_compare a b with Gt => false | _ => true end.

Definition bytes_eqb (a b : bytes) : bool :=
  match bytes_compare a b with Eq => true | _ => false end.

Definition key_lt (a b : bytes) : Prop := bytes_compare a b = Lt.
Definition key_le (a b : bytes) : Prop := bytes_compare a b ≠ Gt.

Notation "a <? b" := (bytes_ltb a b) : keystone_scope.
Notation "a <=? b" := (bytes_leb a b) : keystone_scope.
Notation "a =? b" := (bytes_eqb a b) : keystone_scope.

(** A byte string written as an ASCII literal. *)
Definition bs (s : string) : bytes := String.list_byte_of_string s.

(** * Tactics and hint databases of the development *)

Create HintDb keystone.
Create Rewrite HintDb ks_len.

(** Case analysis on the scrutinee of the first match or if of the goal. *)
Ltac case_goal :=
  match goal with
  | |- context [match ?x with _ => _ end] => destruct x eqn:?
  end.

(** Turn the boolean tests of the code into propositions. *)
Ltac bool_hyps :=
  repeat match goal with
  | H : (_ && _) = true |- _ => apply andb_prop in H as [? ?]
  | H : (_ && _) = false |- _ => apply andb_false_iff in H
  | H : (_ || _) = false |- _ => apply orb_false_elim in H as [? ?]
  | H : (_ || _) = true |- _ => apply orb_prop in H
  | H : negb _ = true |- _ => apply negb_true_iff in H
  | H : negb _ = false |- _ => apply negb_false_iff in H
  | H : Z.ltb _ _ = true |- _ => apply Z.ltb_lt in H
  | H : Z.ltb _ _ = false |- _ => apply Z.ltb_ge in H
  | H : Z.leb _ _ = true |- _ => apply Z.leb_le in H
  | H : Z.leb _ _ = false |- _ => apply Z.leb_gt in H
  | H : Z.eqb _ _ = true |- _ => apply Z.eqb_eq in H
  | H : Z.eqb _ _ = false |- _ => apply Z.eqb_neq in H
  | H : Nat.ltb _ _ = true |- _ => apply Nat.ltb_lt in H
  | H : Nat.ltb _ _ = false |- _ => apply Nat.ltb_ge in H
  | H : Nat.leb _ _ = true |- _ => apply Nat.leb_le in H
  | H : Nat.leb _ _ = false |- _ => apply Nat.leb_gt in H
  | H : Nat.eqb _ _ = true |- _ => apply Nat.eqb_eq in H
  | H : Nat.eqb _ _ = false |- _ => apply Nat.eqb_neq in H
  | H : bool_decide _ = true |- _ => apply bool_decide_eq_true in H
  | H : bool_decide _ = false |- _ => apply bool_decide_eq_false in H
  end.

(** Arithmetic on lengths: rewrite the lengths of appended, dropped and
    taken lists, then [lia]. *)
Ltac len_lia := autorewrite with ks_len in *; cbn [length] in *; lia.

(** * Lemmas on bytes and machine integers *)

Lemma ub_range b : 0 ≤ ub b < 2 ^ 8.
Proof. unfold ub. pose proof (Byte.to_N_bounded b). lia. Qed.

Lemma ub_u8 z : ub (u8 z) = z mod 2 ^ 8.
Proof.
  unfold ub, u8. pose proof (Z.mod_pos_bound z (2 ^ 8) ltac:(lia)).
  destruct (Byte.of_N _) as [b|] eqn:E; simpl.
  - apply Byte.to_of_N in E. rewrite E. lia.
  - apply Byte.of_N_None_iff in E. lia.
Qed.

Lemma ub_inj a b : ub a = ub b → a = b.
Proof.
  unfold ub. intros E%N2Z.inj.
  pose proof (Byte.of_to_N a) as Ha. rewrite E in Ha.
  rewrite (Byte.of_to_N b) in Ha. congruence.
Qed.

Lemma u8_ub b : u8 (ub b) = b.
Proof. apply ub_inj. rewrite ub_u8. apply Z.mod_small, ub_range. Qed.

#[export] Instance byte_eq_dec : EqDecision byte := Byte.byte_eq_dec.

#[export] Program Instance byte_countable : Countable byte :=
  inj_countable Byte.to_N Byte.of_N _.
Next Obligation. intros b. apply Byte.of_to_N. Qed.

Lemma u32_range z : 0 ≤ u32 z < 2 ^ 32.
Proof. apply Z.mod_pos_bound. lia. Qed.

Lemma u64_range z : 0 ≤ u64 z < 2 ^ 64.
Proof. apply Z.mod_pos_bound. lia. Qed.

Lemma u32_small z : 0 ≤ z < 2 ^ 32 → u32 z = z.
Proof. apply Z.mod_small. Qed.

Lemma u64_small z : 0 ≤ z < 2 ^ 64 → u64 z = z.
Proof. apply Z.mod_small. Qed.

Lemma i32_small z : 0 ≤ z < 2 ^ 31 → i32 z = z.
Proof. intros. unfold i32. rewrite Z.mod_small; lia. Qed.

Lemma i32_u32 z : i32 (u32 z) = i32 z.
Proof. unfold i32, u32. by rewrite Zplus_mod_idemp_l. Qed.

Lemma prefix_full {A} (p l : list A) : p `prefix_of` l → (length l ≤ length p)%nat → p = l.
Proof.
  intros [q ->]. rewrite length_app. destruct q; [by rewrite app_nil_r|simpl; lia].
Qed.

Lemma blen_nonneg b : 0 ≤ blen b.
Proof. unfold blen. lia. Qed.

Lemma blen_app a b : blen (a ++ b) = blen a + blen b.
Proof. unfold blen. rewrite length_app. lia. Qed.

#[export] Hint Rewrite @length_app @length_drop @length_take @length_map @length_fmap
  @length_replicate @length_insert @length_rev @length_cons @length_nil : ks_len.
#[export] Hint Rewrite blen_app : ks_len.

(** * Lemmas on the key order *)

Lemma bytes_compare_refl a : bytes_compare a a = Eq.
Proof. induction a; simpl; [done|]. by rewrite Z.compare_refl. Qed.

Lemma bytes_compare_eq a b : bytes_compare a b = Eq ↔ a = b.
Proof.
  split; [|intros ->; apply bytes_compare_refl].
  revert b. induction a as [|x a IH]; intros [|y b]; simpl; try done.
  destruct (Z.compare_spec (ub x) (ub y)) as [E| |]; try done.
  intros. f_equal; [by apply ub_inj|by apply IH].
Qed.

Lemma bytes_compare_antisym a b : bytes_compare b a = CompOpp (bytes_compare a b).
Proof.
  revert b. induction a as [|x a IH]; intros [|y b]; simpl; try done.
  rewrite (Z.compare_antisym (ub x) (ub y)).
  destruct (Z.compare (ub x) (ub y)); simpl; auto.
Qed.

Lemma key_lt_trans a b c : key_lt a b → key_lt b c → key_lt a c.
Proof.
  unfold key_lt. revert b c.
  induction a as [|x a IH]; intros [|y b] [|z c]; simpl; try done.
  destruct (Z.compare_spec (ub x) (ub y)) as [E1|L1|];
  destruct (Z.compare_spec (ub y) (ub z)) as [E2|L2|]; intros H1 H2; try done.
  - rewrite E1, E2, Z.compare_refl. eauto.
  - rewrite E1, (proj2 (Z.compare_lt_iff _ _)); done.
  - rewrite <- E2, (proj2 (Z.compare_lt_iff _ _)); done.
  - rewrite (proj2 (Z.compare_lt_iff _ _)); [done|lia].
Qed.

Lemma key_lt_irrefl a : ¬ key_lt a a.
Proof. unfold key_lt. rewrite bytes_compare_refl. done. Qed.

#[export] Instance key_lt_strict : StrictOrder key_lt.
Proof.
  split; [intros a; apply key_lt_irrefl|intros a b c; apply key_lt_trans].
Qed.

Lemma key_lt_trichotomy a b : key_lt a b ∨ a = b ∨ key_lt b a.
Proof.
  unfold key_lt. rewrite (bytes_compare_antisym a b), <- bytes_compare_eq.
  destruct (bytes_compare a b); auto.
Qed.

Lemma key_le_lteq a b : key_le a b ↔ key_lt a b ∨ a = b.
Proof.
  unfold key_le, key_lt. rewrite <- bytes_compare_eq.
  destruct (bytes_compare a b); naive_solver.
Qed.

Lemma key_lt_nle a b : key_lt a b ↔ ¬ key_le b a.
Proof.
  unfold key_le, key_lt. rewrite (bytes_compare_antisym a b).
  destruct (bytes_compare a b); naive_solver.
Qed.

Lemma key_le_refl a : key_le a a.
Proof. apply key_le_lteq. by right. Qed.

Lemma key_le_lt_trans a b c : key_le a b → key_lt b c → key_lt a c.
Proof. rewrite key_le_lteq. intros [?| ->]; eauto using key_lt_trans. Qed.

Lemma key_lt_le_trans a b c : key_lt a b → key_le b c → key_lt a c.
Proof. rewrite key_le_lteq. intros ? [?| <-]; eauto using key_lt_trans. Qed.

Lemma key_le_trans a b c : key_le a b → key_le b c → key_le a c.
Proof.
  rewrite !key_le_lteq. intros [?| ->] [?| <-]; eauto using key_lt_trans.
Qed.

Lemma key_lt_le a b : key_lt a b → key_le a b.
Proof. rewrite key_le_lteq. auto. Qed.

Lemma key_lt_ne a b : key_lt a b → a ≠ b.
Proof. intros H ->. by apply key_lt_irrefl in H. Qed.

Lemma key_lt_asym a b : key_lt a b → key_lt b a → False.
Proof. intros H1 H2. eapply key_lt_irrefl, key_lt_trans; eauto. Qed.

Lemma key_le_antisym a b : key_le a b → key_le b a → a = b.
Proof.
  rewrite !key_le_lteq. intros [H|H] [H'|H']; try done.
  by destruct (key_lt_asym a b).
Qed.

Lemma bytes_ltb_lt a b : bytes_ltb a b = true ↔ key_lt a b.
Proof. unfold bytes_ltb, key_lt. destruct (bytes_compare a b); naive_solver. Qed.

Lemma bytes_ltb_ge a b : bytes_ltb a b = false ↔ key_le b a.
Proof.
  unfold bytes_ltb, key_le. rewrite (bytes_compare_antisym a b).
  destruct (bytes_compare a b); naive_solver.
Qed.

Lemma bytes_leb_le a b : bytes_leb a b = true ↔ key_le a b.
Proof. unfold bytes_leb, key_le. destruct (bytes_compare a b); naive_solver. Qed.

Lemma bytes_leb_gt a b : bytes_leb a b = false ↔ key_lt b a.
Proof.
  unfold bytes_leb, key_lt. rewrite (bytes_compare_antisym a b).
  destruct (bytes_compare a b); naive_solver.
Qed.

Lemma bytes_eqb_eq a b : bytes_eqb a b = true ↔ a = b.
Proof.
  unfold bytes_eqb. rewrite <- bytes_compare_eq.
  destruct (bytes_compare a b); naive_solver.
Qed.

Lemma bytes_eqb_neq a b : bytes_eqb a b = false ↔ a ≠ b.
Proof. rewrite <- bytes_eqb_eq. destruct (bytes_eqb a b); naive_solver. Qed.

Lemma bytes_eqb_refl a : bytes_eqb a a = true.
Proof. by apply bytes_eqb_eq. Qed.

#[export] Instance key_lt_dec a b : Decision (key_lt a b).
Proof. unfold key_lt. apply _. Defined.

#[export] Instance key_le_dec a b : Decision (key_le a b).
Proof. unfold key_le. apply _. Defined.

#[export] Hint Resolve key_le_refl key_lt_le : keystone.
#[export] Hint Resolve key_lt_trans key_le_lt_trans key_lt_le_trans key_le_trans : keystone.

(** Boolean key comparisons of the code as propositions. *)
Ltac key_hyps :=
  repeat match goal with
  | H : bytes_ltb _ _ = true |- _ => apply bytes_ltb_lt in H
  | H : bytes_ltb _ _ = false |- _ => apply bytes_ltb_ge in H
  | H : bytes_leb _ _ = true |- _ => apply bytes_leb_le in H
  | H : bytes_leb _ _ = false |- _ => apply bytes_leb_gt in H
  | H : bytes_eqb _ _ = true |- _ => apply bytes_eqb_eq in H
  | H : bytes_eqb _ _ = false |- _ => apply bytes_eqb_neq in H
  end; bool_hyps.

(** * Lemmas on lists *)

Lemma take_app_exact {A} (l k : list A) n : n = length l → take n (l ++ k) = l.
Proof. intros ->. apply take_app_length. Qed.

Lemma drop_app_exact {A} (l k : list A) n : n = length l → drop n (l ++ k) = k.
Proof. intros ->. apply drop_app_length. Qed.

Lemma elem_of_take_1 {A} (x : A) n l : x ∈ take n l → x ∈ l.
Proof. intros (i & Hi & _)%elem_of_take. by eapply list_elem_of_lookup_2. Qed.

Lemma StronglySorted_take {A} (R : relation A) n l : StronglySorted R l → StronglySorted R (take n l).
Proof. rewrite <- (take_drop n l) at 1. apply StronglySorted_app_1_l. Qed.

Lemma filter_filter_andb {A} (f g : A → bool) l :
  List.filter g (List.filter f l) = List.filter (λ x, f x && g x) l.
Proof.
  induction l as [|x l IH]; simpl; [done|]. destruct (f x); simpl; [destruct (g x)|]; by rewrite IH.
Qed.

Lemma filter_none {A} (f : A → bool) l : (∀ x, x ∈ l → f x = false) → List.filter f l = [].
Proof.
  induction l as [|x l IH]; simpl; intros H; [done|]. rewrite H by (by left).
  apply IH. intros. apply H. by right.
Qed.

Lemma filter_all {A} (f : A → bool) l : (∀ x, x ∈ l → f x = true) → List.filter f l = l.
Proof.
  induction l as [|x l IH]; simpl; intros H; [done|]. rewrite H by (by left).
  f_equal. apply IH. intros. apply H. by right.
Qed.

Lemma elem_of_filterb {A} (f : A → bool) l x : x ∈ List.filter f l ↔ x ∈ l ∧ f x = true.
Proof. rewrite !list_elem_of_In. apply filter_In. Qed.

Lemma filter_split {A} (f : A → bool) l :
  l ≡ₚ List.filter (λ x, negb (f x)) l ++ List.filter f l.
Proof.
  induction l as [|x l IH]; [done|]. simpl. destruct (f x); simpl.
  - rewrite IH at 1. apply Permutation_middle.
  - by rewrite IH at 1.
Qed.

(** A prefix of [a ++ b] that is at least as long as [a] starts with [a]. *)
Lemma prefix_app_cut {A} (p a b : list A) :
  p `prefix_of` a ++ b → (length a ≤ length p)%nat →
  ∃ p', p = a ++ p' ∧ p' `prefix_of` b.
Proof.
  intros [q Hq] Hl. exists (drop (length a) p).
  assert (p = a ++ drop (length a) p) as E.
  { rewrite <- (take_drop (length a) p) at 1. f_equal.
    etrans; [|apply (take_app_length a b)]. rewrite Hq. by rewrite take_app_le by lia. }
  split; [done|]. exists q. rewrite E, <- (assoc_L (++)) in Hq. by apply app_inv_head in Hq.
Qed.

Lemma blen_replicate n b : 0 ≤ n → blen (replicate (Z.to_nat n) b) = n.
Proof. intros. unfold blen. rewrite length_replicate. lia. Qed.

Lemma mjoin_cons {A} (x : list A) l : mjoin (x :: l) = x ++ mjoin l.
Proof. done. Qed.

Lemma Forall_mjoin {A} (P : A → Prop) ls : Forall P (mjoin ls) ↔ Forall (Forall P) ls.
Proof.
  induction ls as [|l ls IH]; [by split; constructor|].
  by rewrite mjoin_cons, Forall_app, IH, Forall_cons.
Qed.

(** The concatenation of reordered lists is a reordering. *)
#[export] Instance mjoin_perm {A} : Proper (Permutation ==> Permutation) (@mjoin list _ A).
Proof.
  induction 1 as [|x l k _ IH|x y l|l k m _ IH1 _ IH2]; rewrite ?mjoin_cons; [done| | |].
  - by rewrite IH.
  - by rewrite !(assoc_L (++)), (Permutation_app_comm x y).
  - by etrans.
Qed.

Lemma find_app {A} (f : A → bool) l k :
  List.find f (l ++ k) = match List.find f l with Some x => Some x | None => List.find f k end.
Proof. induction l as [|y l IH]; simpl; [done|]. by destruct (f y). Qed.

(** ** Lists with distinct projections *)

Lemma filter_split_perm {A} (f : A → bool) l :
  List.filter f l ++ List.filter (λ x, negb (f x)) l ≡ₚ l.
Proof.
  induction l as [|x l IH]; simpl; [done|]. destruct (f x); simpl.
  - by rewrite IH.
  - by rewrite <- Permutation_middle, IH.
Qed.

Lemma NoDup_fmap_elem {A B} (f : A → B) l a b :
  NoDup (f <$> l) → a ∈ l → b ∈ l → f a = f b → a = b.
Proof.
  intros Hnd (i & Hi)%list_elem_of_lookup (j & Hj)%list_elem_of_lookup E.
  assert (i = j) as ->; [|congruence].
  apply (NoDup_lookup _ _ _ (f a) Hnd); rewrite list_lookup_fmap; [by rewrite Hi|].
  rewrite Hj. simpl. congruence.
Qed.

Lemma find_proj {A B} `{EqDecision B} (f : A → B) l e :
  NoDup (f <$> l) → e ∈ l → List.find (λ x, bool_decide (f x = f e)) l = Some e.
Proof.
  induction l as [|x l IH]; [intros _ H; by apply elem_of_nil in H|].
  rewrite fmap_cons, NoDup_cons, elem_of_cons. intros [Hx Hnd] Hin. simpl.
  destruct (bool_decide_reflect (f x = f e)) as [E|].
  - destruct Hin as [->|Hin]; [done|]. exfalso. apply Hx. rewrite E.
    by apply list_elem_of_fmap_2.
  - destruct Hin as [->|Hin]; [done|]. auto.
Qed.

Lemma filter_proj {A B} `{EqDecision B} (f : A → B) l e :
  NoDup (f <$> l) → e ∈ l → List.filter (λ x, bool_decide (f x = f e)) l = [e].
Proof.
  induction l as [|x l IH]; [intros _ H; by apply elem_of_nil in H|].
  rewrite fmap_cons, NoDup_cons, elem_of_cons. intros [Hx Hnd] Hin. simpl.
  assert (∀ y, y ∈ l → f x ≠ f y) as Hne.
  { intros y Hy E. apply Hx. rewrite E. by apply list_elem_of_fmap_2. }
  destruct Hin as [->|Hin].
  - rewrite bool_decide_eq_true_2 by done. f_equal. apply filter_none.
    intros y Hy. apply bool_decide_eq_false. by apply not_eq_sym, Hne.
  - rewrite bool_decide_eq_false_2 by auto. auto.
Qed.

Lemma find_proj_Some {A B} `{EqDecision B} (f : A → B) l k e :
  List.find (λ x, bool_decide (f x = k)) l = Some e → e ∈ l ∧ f e = k.
Proof. intros [? ?%bool_decide_eq_true]%find_some. by rewrite list_elem_of_In. Qed.

Lemma find_proj_None {A B} `{EqDecision B} (f : A → B) l k :
  List.find (λ x, bool_decide (f x = k)) l = None ↔ k ∉ (f <$> l).
Proof.
  split.
  - intros Hf (e & -> & He)%list_elem_of_fmap. rewrite list_elem_of_In in He.
    pose proof (find_none _ _ Hf e He) as Hn. cbv beta in Hn.
    by rewrite bool_decide_eq_true_2 in Hn.
  - intros Hk. destruct (List.find _ l) as [e|] eqn:E; [|done].
    apply find_proj_Some in E as [He <-]. exfalso. apply Hk. by apply list_elem_of_fmap_2.
Qed.

(** Finding by a distinct projection does not depend on the order. *)
Lemma find_proj_perm {A B} `{EqDecision B} (f : A → B) l l' k :
  NoDup (f <$> l) → l ≡ₚ l' →
  List.find (λ x, bool_decide (f x = k)) l = List.find (λ x, bool_decide (f x = k)) l'.
Proof.
  intros Hnd Hp. destruct (List.find _ l) as [e|] eqn:E; symmetry.
  - apply find_proj_Some in E as [He <-]. apply find_proj; [by rewrite <- Hp|by rewrite <- Hp].
  - rewrite find_proj_None in E |- *. by rewrite <- Hp.
Qed.

(** ** Sorted lists *)

Lemma sorted_lookup {A} (R : relation A) l i j x y :
  StronglySorted R l → l !! i = Some x → l !! j = Some y → (i < j)%nat → R x y.
Proof.
  intros Hs. revert i j. induction Hs as [|a l Hs IH Ha]; intros i j Hi Hj Hlt; [done|].
  destruct j as [|j]; [lia|]. simpl in Hj. destruct i as [|i]; simpl in Hi.
  - simplify_eq. rewrite Forall_forall in Ha. apply Ha. by eapply list_elem_of_lookup_2.
  - apply (IH i j); [done|done|lia].
Qed.

(** A strictly sorted list is the only sorted arrangement of its elements. *)
Lemma sorted_perm_unique {A} (R S : relation A) l l' :
  (∀ x y, R x y → ¬ S y x) → StronglySorted R l → StronglySorted S l' → l' ≡ₚ l → l' = l.
Proof.
  intros HRS Hl. revert l'. induction Hl as [|x l Hl IH Hx]; intros l' Hl' Hp.
  { by apply Permutation_nil_r in Hp. }
  destruct l' as [|y l']; [by apply Permutation_nil_l in Hp|].
  apply StronglySorted_inv in Hl' as [Hl' Hy]. rewrite Forall_forall in Hx, Hy.
  assert (y = x) as ->.
  { assert (x ∈ y :: l') as Hx' by (rewrite Hp; by left).
    assert (y ∈ x :: l) as Hy' by (rewrite <- Hp; by left).
    apply elem_of_cons in Hx' as [->|Hx']; [done|]. apply elem_of_cons in Hy' as [->|Hy']; [done|].
    destruct (HRS x y); auto. }
  f_equal. apply IH; [done|]. by apply Permutation_cons_inv in Hp.
Qed.

(** ** Insertion sort *)

Section InsertionSort.
Context {A} (ltb : A → A → bool) (R : relation A).
Hypotheses (Htrue : ∀ x y, ltb x y = true → R x y) (Hfalse : ∀ x y, ltb x y = false → R y x)
  (Htrans : ∀ x y z, R x y → R y z → R x z).

Fixpoint insertb (x : A) (l : list A) : list A :=
  match l with
  | [] => [x]
  | y :: l' => if ltb x y then x :: l else y :: insertb x l'
  end.

Lemma insertb_perm x l : insertb x l ≡ₚ x :: l.
Proof using Type.
  induction l as [|y l IH]; simpl; [done|]. destruct (ltb x y); [done|]. rewrite IH.
  apply Permutation_swap.
Qed.

Lemma insertb_sorted x l : StronglySorted R l → StronglySorted R (insertb x l).
Proof using Htrue Hfalse Htrans.
  induction 1 as [|y l Hl IH Hy]; simpl; [by repeat constructor|]. destruct (ltb x y) eqn:E.
  - constructor; [by constructor|]. constructor; [auto|]. eapply Forall_impl; [exact Hy|]. eauto.
  - constructor; [done|]. rewrite insertb_perm. constructor; auto.
Qed.

Lemma sortb_spec l :
  StronglySorted R (fold_right insertb [] l) ∧ fold_right insertb [] l ≡ₚ l.
Proof using Htrue Hfalse Htrans.
  induction l as [|x l [IHs IHp]]; simpl; [by split; constructor|].
  split; [by apply insertb_sorted|]. by rewrite insertb_perm, IHp.
Qed.

End InsertionSort.
