(* ===== verification/Text.v ===== *)
(** Numbers and text as the standard library reads and prints them: what
    src/src/db.cpp uses for the names of table files, and the programs for
    their input, their keys and their arguments. *)

From S2P Require Import Prelude.
Local Open Scope Z_scope.

(** * Definitions *)

(** ** Lines and words *)

(** [isspace] in the "C" locale. *)
Definition is_space (b : byte) : bool :=
  bool_decide (b ∈ [x20; x09; x0a; x0b; x0c; x0d]%byte).

(** The pieces [std::getline] returns one after the other; a last piece without
    a delimiter counts if there is something in it. *)
Fixpoint pieces_from (delim : byte) (cur : bytes) (input : bytes) : list bytes :=
  match input with
  | [] => if bool_decide (cur = []) then [] else [cur]
  | b :: input' =>
      if bool_decide (b = delim) then cur :: pieces_from delim [] input'
      else pieces_from delim (cur ++ [b]) input'
  end.

Definition pieces (delim : byte) (input : bytes) : list bytes := pieces_from delim [] input.

(** ** Printing numbers *)

Definition digit (n : Z) : byte := u8 (48 + n).

(** [%d] of a number that is not negative; [fuel] bounds the digits. *)
Fixpoint decimal_loop (fuel : nat) (n : Z) : bytes :=
  match fuel with
  | O => []
  | S fuel' => (if n <? 10 then [] else decimal_loop fuel' (n / 10)) ++ [digit (n mod 10)]
  end.

(** An [int] has at most ten digits. *)
Definition decimal (n : Z) : bytes := decimal_loop 10 n.

(** [%0<width>d] *)
Definition padded (width : nat) (n : Z) : bytes :=
  let s := decimal n in replicate (width - length s) (digit 0) ++ s.

(** ** Reading numbers *)

Definition is_digit (b : byte) : bool := (48 <=? ub b) && (ub b <=? 57).

Definition digit_value (b : byte) : Z := ub b - 48.

Definition decimal_value (s : bytes) : Z := fold_left (λ n b, 10 * n + digit_value b) s 0.

Fixpoint drop_spaces (s : bytes) : bytes :=
  match s with b :: s' => if is_space b then drop_spaces s' else s | [] => [] end.

Fixpoint take_digits (s : bytes) : bytes :=
  match s with b :: s' => if is_digit b then b :: take_digits s' else [] | [] => [] end.

(** [strtol] with base 10: white space, a sign and digits; what follows is
    ignored.  [None] when there are no digits. *)
Definition strtol (s : bytes) : option Z :=
  let s1 := drop_spaces s in
  let signed := match s1 with
    | b :: s2 => if bool_decide (b = x2d%byte) then (true, s2)
                 else if bool_decide (b = x2b%byte) then (false, s2) else (false, s1)
    | [] => (false, s1)
    end in
  match take_digits signed.2 with
  | [] => None
  | ds => Some (if signed.1 then - decimal_value ds else decimal_value ds)
  end.

Definition is_int (n : Z) : bool := (- 2 ^ 31 <=? n) && (n <? 2 ^ 31).

(** [std::stoi]; [None] is an exception. *)
Definition stoi (s : bytes) : option Z :=
  n ← strtol s; if is_int n then Some n else None.

(** [std::atoi]: no error is reported, and a number that is no [int] is
    undefined. *)
Definition atoi (s : bytes) : result Z :=
  let n := default 0 (strtol s) in if is_int n then Ok n else Undefined.

(** * Lemmas *)

(** ** Numbers are printed without ambiguity *)

Lemma decimal_value_snoc s b : decimal_value (s ++ [b]) = 10 * decimal_value s + digit_value b.
Proof. unfold decimal_value. by rewrite fold_left_app. Qed.

Lemma digit_value_digit n : 0 ≤ n < 10 → digit_value (digit n) = n.
Proof. intros Hn. unfold digit_value, digit. rewrite ub_u8, Z.mod_small; lia. Qed.

Lemma decimal_loop_value fuel n :
  0 ≤ n < 10 ^ Z.of_nat fuel → decimal_value (decimal_loop fuel n) = n.
Proof.
  revert n. induction fuel as [|fuel IH]; intros n Hn; cbn [decimal_loop].
  { simpl in Hn. unfold decimal_value. simpl. lia. }
  rewrite decimal_value_snoc, digit_value_digit by (pose proof (Z.mod_pos_bound n 10); lia).
  destruct (Z.ltb_spec n 10).
  - unfold decimal_value. cbn [fold_left]. rewrite Z.mod_small; lia.
  - rewrite IH; [pose proof (Z.div_mod n 10); lia|]. rewrite Nat2Z.inj_succ, Z.pow_succ_r in Hn by lia.
    split; [apply Z.div_pos; lia|apply Z.div_lt_upper_bound; lia].
Qed.

Lemma decimal_value_zeros k s : decimal_value (replicate k (digit 0) ++ s) = decimal_value s.
Proof.
  unfold decimal_value. rewrite fold_left_app. f_equal. induction k as [|k IH]; [done|].
  cbn [replicate fold_left]. by rewrite digit_value_digit.
Qed.

Lemma padded_value width n : 0 ≤ n < 2 ^ 31 → decimal_value (padded width n) = n.
Proof.
  intros Hn. unfold padded, decimal. rewrite decimal_value_zeros. apply decimal_loop_value. simpl. lia.
Qed.

Lemma padded_inj width i j :
  0 ≤ i < 2 ^ 31 → 0 ≤ j < 2 ^ 31 → padded width i = padded width j → i = j.
Proof. intros Hi Hj E%(f_equal decimal_value). by rewrite !padded_value in E. Qed.

Lemma decimal_loop_length fuel n : (length (decimal_loop fuel n) ≤ fuel)%nat.
Proof.
  revert n. induction fuel as [|fuel IH]; intros n; cbn [decimal_loop]; [done|]. rewrite length_app. simpl.
  destruct (n <? 10); simpl; [lia|]. specialize (IH (n / 10)). lia.
Qed.

Lemma padded_length width n : (length (padded width n) ≤ width `max` 10)%nat.
Proof.
  unfold padded, decimal. rewrite length_app, length_replicate.
  pose proof (decimal_loop_length 10 n). lia.
Qed.

Lemma padded_width width n : (10 ≤ width)%nat → length (padded width n) = width.
Proof.
  unfold padded, decimal. rewrite length_app, length_replicate.
  pose proof (decimal_loop_length 10 n). lia.
Qed.

Lemma is_digit_digit n : 0 ≤ n < 10 → is_digit (digit n) = true.
Proof.
  intros Hn. unfold is_digit, digit. rewrite ub_u8, Z.mod_small by lia.
  apply andb_true_intro. split; lia.
Qed.

Lemma padded_digits width n : 0 ≤ n → Forall (λ b, is_digit b = true) (padded width n).
Proof.
  intros Hn. unfold padded. apply Forall_app. split; [by apply Forall_replicate, is_digit_digit|].
  unfold decimal. generalize 10%nat. intros fuel. revert n Hn.
  induction fuel as [|fuel IH]; intros n Hn; [constructor|]. apply Forall_app. split.
  - destruct (n <? 10); [constructor|]. apply IH, Z.div_pos; lia.
  - constructor; [|constructor]. apply is_digit_digit. pose proof (Z.mod_pos_bound n 10). lia.
Qed.

Lemma padded_nonempty width n : padded width n ≠ [].
Proof. unfold padded, decimal. cbn [decimal_loop]. by intros [_ [_ ?]%app_eq_nil]%app_eq_nil. Qed.

(** ** ... and read back *)

Lemma take_digits_all s rest :
  Forall (λ b, is_digit b = true) s →
  match rest with b :: _ => is_digit b = false | [] => True end → take_digits (s ++ rest) = s.
Proof.
  intros Hs Hr. induction Hs as [|b s Hb _ IH]; simpl.
  - destruct rest as [|b rest]; simpl; [done|]. by rewrite Hr.
  - by rewrite Hb, IH.
Qed.

(** No digit is white space or a sign. *)
Lemma digit_plain b :
  is_digit b = true → is_space b = false ∧ b ≠ x2d%byte ∧ b ≠ x2b%byte.
Proof. by destruct b; vm_compute. Qed.

Lemma strtol_digits s rest :
  Forall (λ b, is_digit b = true) s → s ≠ [] →
  match rest with b :: _ => is_digit b = false | [] => True end →
  strtol (s ++ rest) = Some (decimal_value s).
Proof.
  intros Hs Hne Hr. destruct s as [|b s]; [done|].
  pose proof (take_digits_all (b :: s) rest Hs Hr) as Et. apply Forall_cons in Hs as [Hb _].
  destruct (digit_plain b Hb) as (Hsp & Hm & Hp). unfold strtol.
  change (drop_spaces ((b :: s) ++ rest)) with (if is_space b then drop_spaces (s ++ rest) else b :: s ++ rest).
  rewrite Hsp, (bool_decide_eq_false_2 _ Hm), (bool_decide_eq_false_2 _ Hp). cbn [fst snd].
  change (b :: s ++ rest) with ((b :: s) ++ rest). by rewrite Et.
Qed.

Lemma strtol_padded width n rest :
  0 ≤ n < 2 ^ 31 → match rest with b :: _ => is_digit b = false | [] => True end →
  strtol (padded width n ++ rest) = Some n.
Proof.
  intros Hn Hr. rewrite strtol_digits; [by rewrite padded_value|apply padded_digits; lia|
    apply padded_nonempty|done].
Qed.

Lemma is_int_nonneg n : 0 ≤ n < 2 ^ 31 → is_int n = true.
Proof. intros Hn. unfold is_int. apply andb_true_intro. split; lia. Qed.

Lemma stoi_padded width n : 0 ≤ n < 2 ^ 31 → stoi (padded width n) = Some n.
Proof.
  intros Hn. unfold stoi. rewrite <- (app_nil_r (padded width n)), strtol_padded by done. simpl.
  by rewrite is_int_nonneg.
Qed.

Lemma atoi_decimal n : 0 ≤ n < 2 ^ 31 → atoi (decimal n) = Ok n.
Proof.
  intros Hn. change (decimal n) with (padded 0 n). unfold atoi.
  rewrite <- (app_nil_r (padded 0 n)), strtol_padded by done. cbn [default].
  by rewrite is_int_nonneg.
Qed.

(** ** Numbers of the same width are in the order of their texts *)

Lemma decimal_value_cons b s :
  decimal_value (b :: s) = digit_value b * 10 ^ Z.of_nat (length s) + decimal_value s.
Proof.
  induction s as [|c s IH] using rev_ind; [unfold decimal_value; simpl; lia|].
  rewrite app_comm_cons, !decimal_value_snoc, IH, length_app. simpl length.
  rewrite Nat2Z.inj_add, Z.pow_add_r by lia. change (10 ^ Z.of_nat 1) with 10. ring.
Qed.

Lemma decimal_value_bound s :
  Forall (λ b, is_digit b = true) s → 0 ≤ decimal_value s < 10 ^ Z.of_nat (length s).
Proof.
  induction 1 as [|b s Hb Hs IH]; [by vm_compute|]. rewrite decimal_value_cons. cbn [length].
  rewrite Nat2Z.inj_succ, Z.pow_succ_r by lia. unfold is_digit in Hb. unfold digit_value. bool_hyps. nia.
Qed.

Lemma digits_order s t :
  length s = length t → Forall (λ b, is_digit b = true) s → Forall (λ b, is_digit b = true) t →
  decimal_value s < decimal_value t → key_lt s t.
Proof.
  intros Hl Hs. revert t Hl. induction Hs as [|b s Hb Hs IH]; intros [|c t] Hl Ht Hlt; try done.
  apply Forall_cons in Ht as [Hc Ht]. injection Hl as Hl. rewrite !decimal_value_cons, Hl in Hlt.
  pose proof (decimal_value_bound s Hs). pose proof (decimal_value_bound t Ht). rewrite Hl in *.
  unfold key_lt. cbn [bytes_compare]. unfold digit_value in Hlt.
  destruct (Z.compare_spec (ub b) (ub c)) as [E|E|E]; [|done|nia].
  apply IH; [done|done|]. rewrite E in Hlt. lia.
Qed.

Lemma padded_order width i j :
  (10 ≤ width)%nat → 0 ≤ i → i < j → j < 2 ^ 31 → key_lt (padded width i) (padded width j).
Proof.
  intros Hw Hi Hij Hj. apply digits_order; [by rewrite !padded_width|apply padded_digits; lia..|].
  rewrite !padded_value; lia.
Qed.
