(* ===== verification/Coding.v ===== *)
(** Little-endian encoding ([keystone::coding]) and the retrying I/O loops
    ([keystone::io]) of src/src/coding.h.

    The operating system is the class [Posix]: what one [read], [write],
    [pread] or [fdatasync] call returns is a parameter, and [PosixOk] states
    the documented behaviour the recovery paths rely on.  A file is its bytes
    together with the length known to have reached the medium. *)

From S2P Require Import Prelude.
Local Open Scope Z_scope.

(** * Definitions *)

Definition put_u32_le (v : Z) : bytes :=
  [u8 v; u8 (Z.shiftr v 8); u8 (Z.shiftr v 16); u8 (Z.shiftr v 24)].

Definition put_u64_le (v : Z) : bytes :=
  [u8 v; u8 (Z.shiftr v 8); u8 (Z.shiftr v 16); u8 (Z.shiftr v 24);
   u8 (Z.shiftr v 32); u8 (Z.shiftr v 40); u8 (Z.shiftr v 48); u8 (Z.shiftr v 56)].

(** [buf[i]] read as an unsigned integer. *)
Definition byte_at (buf : bytes) (i : nat) : Z := ub (nth i buf Byte.x00).

Definition get_u32_le (buf : bytes) : Z :=
  Z.lor (Z.lor (Z.lor (byte_at buf 0)
    (Z.shiftl (byte_at buf 1) 8))
    (Z.shiftl (byte_at buf 2) 16))
    (Z.shiftl (byte_at buf 3) 24).

Definition get_u64_le (buf : bytes) : Z :=
  Z.lor (Z.lor (Z.lor (Z.lor (Z.lor (Z.lor (Z.lor (byte_at buf 0)
    (Z.shiftl (byte_at buf 1) 8))
    (Z.shiftl (byte_at buf 2) 16))
    (Z.shiftl (byte_at buf 3) 24))
    (Z.shiftl (byte_at buf 4) 32))
    (Z.shiftl (byte_at buf 5) 40))
    (Z.shiftl (byte_at buf 6) 48))
    (Z.shiftl (byte_at buf 7) 56).

(** ** The operating system *)

(** What one [::write] call does: it stores a number of bytes, is
    interrupted ([EINTR]), or fails. *)
Inductive write_outcome : Type :=
| Written (n : nat)
| Interrupted
| WriteError (errno : string).

(** - [sys_read rest n]: the return value of [::read] when [rest] is what
      lies after the file offset;
    - [sys_write file buf]: the outcomes of the successive [::write] calls
      issued to append [buf] to [file];
    - [sys_pread file n off]: the return value of [::pread];
    - [sys_sync file]: whether [::fdatasync] reached the medium;
    - [sys_rename file]: whether [::rename] of a file succeeds;
    - [sys_resize file]: whether [resize_file] of a file succeeds. *)
Class Posix := {
  sys_read : bytes → Z → Z;
  sys_write : bytes → bytes → list write_outcome;
  sys_pread : bytes → Z → Z → Z;
  sys_sync : bytes → bool;
  sys_rename : bytes → bool;
  sys_resize : bytes → bool;
}.

(** A file that is appended to and truncated: its bytes, how many of them are
    on the medium, and what it was before truncations that may not have reached
    the medium: its bytes and how many of them were there. *)
Record File := mkFileAfter {
  f_data : bytes;
  f_synced : nat;
  f_older : list (bytes * nat);
}.

Abbreviation mkFile data n := (mkFileAfter data n []).

(** How a call of [write_fully] ends: it returns, throws, is still inside
    the loop when the outcomes of the system calls run out, or has been told
    that more bytes were written than it asked for. *)
Inductive io_status : Type :=
| IoDone
| IoThrown (msg : string)
| IoPending
| IoUndefined.

Fixpoint write_loop (outcomes : list write_outcome) (file buf : bytes)
  : bytes * io_status :=
  match buf with
  | [] => (file, IoDone)
  | _ =>
      match outcomes with
      | [] => (file, IoPending)
      | Interrupted :: os => write_loop os file buf
      | WriteError e :: _ => (file, IoThrown ("write failed: " +:+ e))
      | Written n :: os =>
          if (n <=? length buf)%nat
          then write_loop os (file ++ take n buf) (drop n buf)
          else (file, IoUndefined)
      end
  end.

Section Io.
Context `{Posix}.

Definition write_fully (f : File) (buf : bytes) : File * io_status :=
  let r := write_loop (sys_write (f_data f) buf) (f_data f) buf in
  ({| f_data := r.1; f_synced := f_synced f; f_older := f_older f |}, r.2).

(** [read_fully]: the loop runs at most [count] times, since every round
    that does not return reads at least one byte. *)
Fixpoint read_loop (fuel : nat) (rest : bytes) (count : nat) (acc : bytes)
  : option (bytes * bytes) :=
  match count with
  | O => Some (acc, rest)
  | S _ =>
      match fuel with
      | O => None
      | S fuel' =>
          let n := sys_read rest (Z.of_nat count) in
          if n <=? 0 then None
          else read_loop fuel' (drop (Z.to_nat n) rest)
                 (count - Z.to_nat n) (acc ++ take (Z.to_nat n) rest)
      end
  end.

Definition read_fully (rest : bytes) (count : nat) : option (bytes * bytes) :=
  read_loop count rest count [].

(** The [#else] branch of [durable_sync]: the return value is ignored. *)
Definition durable_sync (f : File) : File :=
  if sys_sync (f_data f)
  then mkFile (f_data f) (length (f_data f))
  else f.

End Io.

(** The effect of [resize_file]: nothing of it is synced, so the medium may
    keep the file as it was. *)
Definition truncate (f : File) (n : nat) : File := {|
  f_data := take n (f_data f) ++ replicate (n - length (f_data f)) Byte.x00;
  f_synced := f_synced f `min` n;
  f_older := (f_data f, f_synced f) :: f_older f;
|}.

(** [::pread] into a buffer of [n] bytes: the bytes read. *)
Definition pread_bytes `{Posix} (file : bytes) (n off : Z) : bytes :=
  take (Z.to_nat (sys_pread file n off)) (drop (Z.to_nat off) file).

(** The documented behaviour the code relies on. *)
Class PosixOk `{Posix} : Prop := {
  sys_read_eof n : 0 < n → sys_read [] n = 0;
  sys_read_some rest n : rest ≠ [] → 0 < n →
    1 ≤ sys_read rest n ≤ Z.min n (blen rest);
  sys_pread_exact file n off : 0 ≤ n → 0 ≤ off →
    sys_pread file n off = Z.min n (Z.max 0 (blen file - off));
  sys_write_done file buf : (write_loop (sys_write file buf) file buf).2 = IoDone;
  sys_sync_ok file : sys_sync file = true;
  sys_rename_ok file : sys_rename file = true;
  sys_resize_ok file : sys_resize file = true;
}.

(** What can be left of bytes of which the first [n] are on the medium: these
    survive, and any part of what was appended after them. *)
Definition crash_part (data : bytes) (n : nat) (after : bytes) : Prop :=
  after `prefix_of` data ∧ (n ≤ length after)%nat.

(** The contents a crash can leave, of the file as it is or as it was before a
    truncation that was not synced. *)
Definition crash_file (f : File) (after : bytes) : Prop :=
  crash_part (f_data f) (f_synced f) after ∨ Exists (λ o, crash_part o.1 o.2 after) (f_older f).

#[export] Instance crash_part_dec data n after : Decision (crash_part data n after).
Proof. unfold crash_part. apply _. Defined.

#[export] Instance crash_file_dec f after : Decision (crash_file f after).
Proof. unfold crash_file. apply _. Defined.

(** All of the file is on the medium. *)
Definition synced (f : File) : Prop := f_synced f = length (f_data f) ∧ f_older f = [].

(** ** A concrete system, for evaluation: reads and writes of at most
    [chunk + 1] bytes per call. *)

Fixpoint chunked_writes (chunk fuel len : nat) : list write_outcome :=
  match fuel with
  | O => []
  | S fuel' =>
      Interrupted :: Written (S chunk `min` len)
        :: chunked_writes chunk fuel' (len - S chunk `min` len)
  end.

Definition chunked_posix (chunk : nat) : Posix := {|
  sys_read rest n := Z.min (Z.min n (blen rest)) (Z.of_nat (S chunk));
  sys_write file buf := chunked_writes chunk (length buf) (length buf);
  sys_pread file n off := Z.min n (Z.max 0 (blen file - off));
  sys_sync _ := true;
  sys_rename _ := true;
  sys_resize _ := true;
|}.

(** * Lemmas: encoding *)

(** Bitwise proof of an equation between integers built from shifted bytes:
    decide in which byte the bit lies, then simplify every term. *)
Ltac byte_cases i :=
  destruct (Z.lt_ge_cases i 8); [|destruct (Z.lt_ge_cases i 16);
  [|destruct (Z.lt_ge_cases i 24); [|destruct (Z.lt_ge_cases i 32);
  [|destruct (Z.lt_ge_cases i 40); [|destruct (Z.lt_ge_cases i 48);
  [|destruct (Z.lt_ge_cases i 56); [|destruct (Z.lt_ge_cases i 64)]]]]]]].

Ltac bits_simpl :=
  repeat match goal with
  | |- context [Z.testbit (Z.lor _ _) _] => rewrite Z.lor_spec
  | |- context [Z.testbit (Z.shiftl _ _) _] => rewrite Z.shiftl_spec by lia
  | |- context [Z.testbit ?a ?j] => rewrite (Z.testbit_neg_r a j) by lia
  | |- context [Z.testbit (?a mod _) _] => rewrite Z.testbit_mod_pow2 by lia
  | |- context [Z.testbit (Z.shiftr _ _) _] => rewrite Z.shiftr_spec by lia
  | |- context [?a <? ?b] =>
      first [ rewrite (proj2 (Z.ltb_lt a b)) by lia
            | rewrite (proj2 (Z.ltb_ge a b)) by lia ]
  end;
  rewrite ?andb_false_l, ?andb_true_l, ?orb_false_l, ?orb_false_r.

Ltac le_bits :=
  apply Z.bits_inj'; let i := fresh "i" in intros i ?;
  byte_cases i; bits_simpl; try (f_equal; lia); try done.

Lemma length_put_u32_le v : length (put_u32_le v) = 4%nat.
Proof. done. Qed.

Lemma length_put_u64_le v : length (put_u64_le v) = 8%nat.
Proof. done. Qed.

Lemma blen_put_u32_le v : blen (put_u32_le v) = 4.
Proof. done. Qed.

Lemma blen_put_u64_le v : blen (put_u64_le v) = 8.
Proof. done. Qed.

#[export] Hint Rewrite length_put_u32_le length_put_u64_le : ks_len.
#[export] Hint Rewrite blen_put_u32_le blen_put_u64_le : ks_len.

Lemma get_put_u32_le v rest : get_u32_le (put_u32_le v ++ rest) = u32 v.
Proof.
  unfold get_u32_le, byte_at, put_u32_le, u32; simpl app; simpl nth.
  rewrite !ub_u8. le_bits.
Qed.

Lemma get_put_u32_le' v : get_u32_le (put_u32_le v) = u32 v.
Proof. rewrite <- (app_nil_r (put_u32_le v)). apply get_put_u32_le. Qed.

Lemma get_put_u64_le v rest : get_u64_le (put_u64_le v ++ rest) = u64 v.
Proof.
  unfold get_u64_le, byte_at, put_u64_le, u64; simpl app; simpl nth.
  rewrite !ub_u8. le_bits.
Qed.

Lemma get_u32_le_app (a b : bytes) : (4 ≤ length a)%nat → get_u32_le (a ++ b) = get_u32_le a.
Proof.
  intros. unfold get_u32_le, byte_at. by rewrite !app_nth1 by lia.
Qed.

Lemma get_u64_le_app (a b : bytes) : (8 ≤ length a)%nat → get_u64_le (a ++ b) = get_u64_le a.
Proof.
  intros. unfold get_u64_le, byte_at. by rewrite !app_nth1 by lia.
Qed.

Lemma shiftl_ub b k : Z.shiftl (ub b) k = Z.shiftl (ub b mod 2 ^ 8) k.
Proof. by rewrite (Z.mod_small (ub b)) by apply ub_range. Qed.

Lemma get_u32_le_range buf : 0 ≤ get_u32_le buf < 2 ^ 32.
Proof.
  assert (get_u32_le buf = get_u32_le buf mod 2 ^ 32) as ->; [|apply u32_range].
  unfold get_u32_le, byte_at.
  rewrite <- (Z.mod_small (ub (nth 0 buf _)) (2 ^ 8)) by apply ub_range.
  rewrite !shiftl_ub. le_bits.
Qed.

Lemma get_u64_le_range buf : 0 ≤ get_u64_le buf < 2 ^ 64.
Proof.
  assert (get_u64_le buf = get_u64_le buf mod 2 ^ 64) as ->; [|apply u64_range].
  unfold get_u64_le, byte_at.
  rewrite <- (Z.mod_small (ub (nth 0 buf _)) (2 ^ 8)) by apply ub_range.
  rewrite !shiftl_ub. le_bits.
Qed.

(** Decoding then encoding four bytes gives them back. *)
Lemma put_get_u32_le (b : bytes) : length b = 4%nat → put_u32_le (get_u32_le b) = b.
Proof.
  intros Hl. destruct b as [|b0 [|b1 [|b2 [|b3 [|]]]]]; try done.
  unfold put_u32_le, get_u32_le, byte_at; simpl nth.
  rewrite <- (Z.mod_small (ub b0) (2 ^ 8)) by apply ub_range. rewrite !shiftl_ub.
  repeat f_equal; apply ub_inj; rewrite ub_u8;
    match goal with
    | |- _ = ub ?b => rewrite <- (Z.mod_small (ub b) (2 ^ 8)) at 2 by apply ub_range
    end; le_bits.
Qed.

(** * Lemmas: the I/O loops *)

Lemma write_loop_prefix os file buf :
  ∃ p, p `prefix_of` buf ∧ (write_loop os file buf).1 = file ++ p ∧
    ((write_loop os file buf).2 = IoDone ↔ p = buf).
Proof.
  revert file buf. induction os as [|o os IH]; intros file [|b buf]; simpl.
  1-3: by exists []; rewrite app_nil_r; split_and!; [apply prefix_nil| |].
  destruct o as [n| |e]; [|apply IH|].
  2: by exists []; rewrite app_nil_r; split_and!; [apply prefix_nil| |].
  destruct (n <=? S (length buf))%nat eqn:Hn.
  2: by exists []; rewrite app_nil_r; split_and!; [apply prefix_nil| |].
  destruct (IH (file ++ take n (b :: buf)) (drop n (b :: buf))) as (p & [k Hk] & Hf & Hd).
  exists (take n (b :: buf) ++ p). rewrite Hf, Hd, (assoc_L (++)).
  split_and!; [|done|].
  - exists k. by rewrite <- (assoc_L (++)), <- Hk, take_drop.
  - split; [intros ->; apply take_drop|]. intros E.
    rewrite <- (take_drop n (b :: buf)) in E at 2. by apply app_inv_head in E.
Qed.

Lemma read_loop_spec `{PosixOk} fuel rest count acc :
  (count ≤ fuel)%nat →
  read_loop fuel rest count acc =
    if (count <=? length rest)%nat
    then Some (acc ++ take count rest, drop count rest) else None.
Proof.
  revert rest count acc. induction fuel as [|fuel IH]; intros rest count acc Hf.
  { destruct count; [|lia]. simpl. by rewrite app_nil_r, drop_0. }
  destruct count as [|count]; [simpl; by rewrite app_nil_r, drop_0|].
  cbn [read_loop].
  destruct (decide (rest = [])) as [->|Hne]; [by rewrite sys_read_eof by lia|].
  pose proof (sys_read_some rest (Z.of_nat (S count)) Hne ltac:(lia)) as Hr.
  set (n := sys_read rest (Z.of_nat (S count))) in *. unfold blen in Hr.
  rewrite (proj2 (Z.leb_gt n 0)) by lia.
  assert (∃ m, Z.to_nat n = S m) as [m Hm] by (exists (Z.to_nat n - 1)%nat; lia).
  rewrite Hm, IH by lia. rewrite length_drop, <- (assoc_L (++)), drop_drop.
  rewrite take_take_drop.
  destruct rest as [|b rest]; [done|]. cbn [length] in *.
  replace (S m + (S count - S m))%nat with (S count) by lia.
  destruct (Nat.leb_spec (S count - S m) (S (length rest) - S m)),
    (Nat.leb_spec (S count) (S (length rest))); try lia; done.
Qed.

(** [read_fully] succeeds exactly when enough bytes remain, whatever the
    sizes of the reads the system grants. *)
Lemma read_fully_spec `{PosixOk} rest count :
  read_fully rest count =
    if (count <=? length rest)%nat then Some (take count rest, drop count rest) else None.
Proof. unfold read_fully. by rewrite read_loop_spec by lia. Qed.

Lemma read_fully_app `{PosixOk} (a b : bytes) n :
  n = length a → read_fully (a ++ b) n = Some (a, b).
Proof.
  intros ->. rewrite read_fully_spec, length_app.
  rewrite (proj2 (Nat.leb_le _ _)) by lia.
  by rewrite take_app_length, drop_app_length.
Qed.

Lemma read_fully_short `{PosixOk} (rest : bytes) n :
  (length rest < n)%nat → read_fully rest n = None.
Proof. intros. rewrite read_fully_spec, (proj2 (Nat.leb_gt _ _)) by lia. done. Qed.

Lemma write_fully_prefix `{Posix} f buf :
  ∃ p, p `prefix_of` buf ∧ f_data (write_fully f buf).1 = f_data f ++ p ∧
    ((write_fully f buf).2 = IoDone ↔ p = buf).
Proof. apply write_loop_prefix. Qed.

Lemma write_fully_ok `{PosixOk} f buf :
  write_fully f buf =
    ({| f_data := f_data f ++ buf; f_synced := f_synced f; f_older := f_older f |}, IoDone).
Proof.
  destruct (write_fully_prefix f buf) as (p & _ & Hf & Hd).
  pose proof (sys_write_done (f_data f) buf) as Hok.
  unfold write_fully in *; simpl in *.
  destruct (write_loop (sys_write (f_data f) buf) (f_data f) buf) as [d st]; simpl in *.
  subst st. destruct Hd as [Hd _]. by rewrite Hf, Hd.
Qed.

Lemma durable_sync_ok `{PosixOk} f :
  durable_sync f = mkFile (f_data f) (length (f_data f)).
Proof. unfold durable_sync. by rewrite sys_sync_ok. Qed.

Lemma crash_synced f after : synced f → crash_file f after → after = f_data f.
Proof.
  intros [Hs Ho] [[Hp Hl]|Hx]; [apply prefix_full; [done|lia]|]. rewrite Ho in Hx. by inversion Hx.
Qed.

Lemma pread_bytes_ok `{PosixOk} (pre mid post : bytes) n off :
  n = blen mid → off = blen pre →
  sys_pread (pre ++ mid ++ post) n off = n ∧
  pread_bytes (pre ++ mid ++ post) n off = mid.
Proof.
  intros -> ->. unfold pread_bytes.
  assert (sys_pread (pre ++ mid ++ post) (blen mid) (blen pre) = blen mid) as E.
  { rewrite sys_pread_exact by apply blen_nonneg. autorewrite with ks_len.
    pose proof (blen_nonneg post). pose proof (blen_nonneg mid). lia. }
  split; [done|]. rewrite E. unfold blen. rewrite !Nat2Z.id.
  by rewrite drop_app_length, take_app_length.
Qed.

(** The concrete system meets the laws: [PosixOk] is satisfiable. *)
Lemma chunked_writes_done chunk fuel file buf :
  (length buf ≤ fuel)%nat →
  (write_loop (chunked_writes chunk fuel (length buf)) file buf).2 = IoDone.
Proof.
  revert file buf. induction fuel as [|fuel IH]; intros file buf Hf.
  { by destruct buf; simpl in *; [|lia]. }
  destruct buf as [|b buf]; [done|]. cbn -[Nat.min take drop Nat.sub].
  rewrite (proj2 (Nat.leb_le _ _)) by lia.
  set (k := (S chunk `min` S (length buf))%nat).
  replace (S (length buf) - k)%nat with (length (drop k (b :: buf))) by len_lia.
  apply IH. len_lia.
Qed.

#[export] Instance chunked_posix_ok chunk : @PosixOk (chunked_posix chunk).
Proof.
  split; simpl; intros; try done.
  - unfold blen; simpl. lia.
  - destruct rest; [done|]. unfold blen; simpl length. lia.
  - by apply chunked_writes_done.
Qed.

(** A read that succeeds still does, with the same result, when the file is
    longer. *)
Lemma read_fully_extend `{PosixOk} rest n a b q :
  read_fully rest n = Some (a, b) → read_fully (rest ++ q) n = Some (a, b ++ q).
Proof.
  rewrite !read_fully_spec. destruct (Nat.leb_spec n (length rest)) as [Hn|]; [|done].
  intros [= <- <-]. rewrite length_app, (proj2 (Nat.leb_le _ _)) by lia.
  by rewrite take_app_le, drop_app_le by lia.
Qed.
