(* ===== verification/Crc32.v ===== *)
(** The table-driven CRC-32 of src/src/crc32.cpp, its bit-by-bit reference,
    and what the checksum detects. *)

From S2P Require Import Prelude Coding.
Local Open Scope Z_scope.

(** * Definitions *)

(** One step of the inner loop of [Table::Table]. *)
Definition crc_bit (c : Z) : Z :=
  if Z.odd c then Z.lxor 0xEDB88320 (Z.shiftr c 1) else Z.shiftr c 1.

(** [entries[i]]: eight steps from [c = i]. *)
Definition table_entry (i : Z) : Z := Nat.iter 8 crc_bit i.

(** The constructor [Table::Table], evaluated at compile time ([constexpr]). *)
Definition Table : list Z :=
  Eval vm_compute in map (λ i, table_entry (Z.of_nat i)) (seq 0 256).

Definition kTable (i : Z) : Z := nth (Z.to_nat i) Table 0.

(** The body of the loop of [crc32]. *)
Definition crc32_step (crc : Z) (b : byte) : Z :=
  Z.lxor (kTable (Z.land (Z.lxor crc (ub b)) 0xFF)) (Z.shiftr crc 8).

Definition crc32_loop (crc : Z) (data : bytes) : Z := fold_left crc32_step data crc.

Definition crc32 (data : bytes) : Z :=
  Z.lxor (crc32_loop 0xFFFFFFFF data) 0xFFFFFFFF.

(** Reference: the reflected CRC-32 one bit at a time, with no table. *)
Definition crc32_ref (data : bytes) : Z :=
  Z.lxor (fold_left (λ c b, Nat.iter 8 crc_bit (Z.lxor c (ub b))) data 0xFFFFFFFF)
    0xFFFFFFFF.

(** * Lemmas *)

(** ** Bits *)

Definition is32 (z : Z) : Prop := 0 ≤ z < 2 ^ 32.

Lemma is32_bits z : is32 z ↔ 0 ≤ z ∧ ∀ i, 32 ≤ i → Z.testbit z i = false.
Proof.
  unfold is32. split.
  - intros [H1 H2]. split; [done|]. intros i Hi.
    rewrite <- (Z.mod_small z (2 ^ 32)) by lia.
    rewrite Z.testbit_mod_pow2 by lia. by rewrite (proj2 (Z.ltb_ge _ _)) by lia.
  - intros [H1 H2]. assert (z = z mod 2 ^ 32) as ->; [|apply u32_range].
    apply Z.bits_inj'. intros i Hi. rewrite Z.testbit_mod_pow2 by lia.
    destruct (Z.ltb_spec i 32); [done|]. by apply H2.
Qed.

Lemma is32_lxor a b : is32 a → is32 b → is32 (Z.lxor a b).
Proof.
  rewrite !is32_bits. intros [? Ha] [? Hb]. split; [by apply Z.lxor_nonneg|].
  intros i Hi. by rewrite Z.lxor_spec, Ha, Hb.
Qed.

Lemma is32_shiftr a n : 0 ≤ n → is32 a → is32 (Z.shiftr a n).
Proof.
  rewrite !is32_bits. intros ? [? Ha]. split; [by apply Z.shiftr_nonneg|].
  intros i Hi. rewrite Z.shiftr_spec by lia. apply Ha. lia.
Qed.

Lemma is32_ub b : is32 (ub b).
Proof. pose proof (ub_range b). unfold is32. lia. Qed.

Lemma is32_crc_bit c : is32 c → is32 (crc_bit c).
Proof.
  intros. unfold crc_bit. destruct (Z.odd c);
    [apply is32_lxor; [by split|]|]; by apply is32_shiftr.
Qed.

Lemma is32_iter n c : is32 c → is32 (Nat.iter n crc_bit c).
Proof. intros. induction n; simpl; [done|]. by apply is32_crc_bit. Qed.

(** [crc_bit] is linear over exclusive or. *)
Lemma crc_bit_lxor a b : crc_bit (Z.lxor a b) = Z.lxor (crc_bit a) (crc_bit b).
Proof.
  unfold crc_bit. rewrite <- !Z.bit0_odd, Z.lxor_spec, Z.shiftr_lxor.
  destruct (Z.testbit a 0), (Z.testbit b 0); cbn [xorb];
    apply Z.bits_inj'; intros i Hi; rewrite ?Z.lxor_spec;
    set (p := Z.testbit 0xEDB88320 i); set (x := Z.testbit (Z.shiftr a 1) i);
    set (y := Z.testbit (Z.shiftr b 1) i); by destruct p, x, y.
Qed.

Lemma iter_crc_bit_lxor n a b :
  Nat.iter n crc_bit (Z.lxor a b) = Z.lxor (Nat.iter n crc_bit a) (Nat.iter n crc_bit b).
Proof. induction n as [|n IH]; simpl; [done|]. by rewrite IH, crc_bit_lxor. Qed.

(** A register whose low bits are zero is only shifted. *)
Lemma iter_crc_bit_shiftl n x : Nat.iter n crc_bit (Z.shiftl x (Z.of_nat n)) = x.
Proof.
  revert x. induction n as [|n IH]; intros x; [by rewrite Z.shiftl_0_r|].
  rewrite Nat.iter_succ_r. rewrite <- (IH x) at 2. f_equal.
  unfold crc_bit. rewrite Nat2Z.inj_succ, <- Z.bit0_odd.
  rewrite Z.shiftl_spec_low by lia.
  rewrite Z.shiftr_shiftl_l by lia. f_equal. lia.
Qed.

(** The polynomial has its top bit set, so the bit shifted out can be told
    from the result: a step loses nothing. *)
Lemma crc_bit_inj a b : is32 a → is32 b → crc_bit a = crc_bit b → a = b.
Proof.
  rewrite !is32_bits. intros [_ Ha] [_ Hb] E.
  assert (Z.testbit a 0 = Z.testbit b 0 ∧ Z.shiftr a 1 = Z.shiftr b 1) as [E0 E1].
  { pose proof (f_equal (λ z, Z.testbit z 31) E) as E31. revert E E31.
    unfold crc_bit. rewrite <- !Z.bit0_odd.
    destruct (Z.testbit a 0), (Z.testbit b 0);
      rewrite ?Z.lxor_spec, ?Z.shiftr_spec, ?(Ha (31 + 1)), ?(Hb (31 + 1)) by lia;
      intros E E31; try done.
    apply (f_equal (Z.lxor 0xEDB88320)) in E.
    by rewrite <- !Z.lxor_assoc, Z.lxor_nilpotent, !Z.lxor_0_l in E. }
  apply Z.bits_inj'. intros i Hi. destruct (decide (i = 0)) as [->|]; [done|].
  pose proof (f_equal (λ z, Z.testbit z (i - 1)) E1) as Ei. cbv beta in Ei.
  rewrite !Z.shiftr_spec in Ei by lia. by replace (i - 1 + 1) with i in Ei by lia.
Qed.

Lemma iter_crc_bit_inj n a b :
  is32 a → is32 b → Nat.iter n crc_bit a = Nat.iter n crc_bit b → a = b.
Proof.
  intros Ha Hb. induction n as [|n IH]; simpl; [done|].
  intros E. apply IH, crc_bit_inj; auto using is32_iter.
Qed.

(** ** The table *)

Lemma kTable_entry i : 0 ≤ i < 256 → kTable i = table_entry i.
Proof.
  intros Hi. assert (forallb (λ j, kTable (Z.of_nat j) =? table_entry (Z.of_nat j))
    (seq 0 256) = true) as Hall by (vm_compute; reflexivity).
  rewrite forallb_forall in Hall. specialize (Hall (Z.to_nat i)).
  rewrite Z2Nat.id in Hall by lia. apply Z.eqb_eq, Hall, in_seq. lia.
Qed.

Lemma split_low_byte c :
  c = Z.lxor (Z.land c 0xFF) (Z.shiftl (Z.shiftr c 8) 8).
Proof.
  apply Z.bits_inj'. intros i Hi. rewrite Z.lxor_spec, Z.land_spec.
  change 0xFF with (Z.ones 8). rewrite Z.shiftl_spec by lia.
  destruct (Z.lt_ge_cases i 8).
  - rewrite Z.ones_spec_low, (Z.testbit_neg_r _ (i - 8)) by lia.
    by rewrite andb_true_r, xorb_false_r.
  - rewrite Z.ones_spec_high, Z.shiftr_spec by lia.
    rewrite andb_false_r, xorb_false_l. f_equal. lia.
Qed.

(** The table step is eight bit steps. *)
Lemma crc32_step_bits crc b :
  crc32_step crc b = Nat.iter 8 crc_bit (Z.lxor crc (ub b)).
Proof.
  unfold crc32_step. set (x := Z.lxor crc (ub b)).
  assert (Z.shiftr crc 8 = Z.shiftr x 8) as ->.
  { unfold x. rewrite Z.shiftr_lxor, (Z.shiftr_div_pow2 (ub b)) by lia.
    rewrite (Z.div_small (ub b)) by apply ub_range. by rewrite Z.lxor_0_r. }
  rewrite kTable_entry.
  - unfold table_entry. rewrite (split_low_byte x) at 3.
    rewrite iter_crc_bit_lxor. f_equal. change 8%Z with (Z.of_nat 8) at 3.
    by rewrite iter_crc_bit_shiftl.
  - change 0xFF with (Z.ones 8). rewrite Z.land_ones by lia.
    apply Z.mod_pos_bound. lia.
Qed.

Lemma is32_crc32_loop c data : is32 c → is32 (crc32_loop c data).
Proof.
  unfold crc32_loop. revert c. induction data as [|b data IH]; intros c Hc; simpl; [done|].
  apply IH. rewrite crc32_step_bits. apply is32_iter, is32_lxor; [done|apply is32_ub].
Qed.

Lemma crc32_range data : is32 (crc32 data).
Proof. apply is32_lxor; [apply is32_crc32_loop|]; by split. Qed.

Lemma crc32_u32 data : u32 (crc32 data) = crc32 data.
Proof. apply u32_small, crc32_range. Qed.

Lemma crc32_loop_app c a b : crc32_loop c (a ++ b) = crc32_loop (crc32_loop c a) b.
Proof. apply fold_left_app. Qed.

Lemma crc32_loop_inj a b data :
  is32 a → is32 b → crc32_loop a data = crc32_loop b data → a = b.
Proof.
  revert a b. induction data as [|x data IH]; intros a b Ha Hb; [done|].
  cbn. intros E. apply IH in E.
  2,3: rewrite crc32_step_bits; apply is32_iter, is32_lxor; auto using is32_ub.
  rewrite !crc32_step_bits in E. apply iter_crc_bit_inj in E; auto using is32_lxor, is32_ub.
  apply (f_equal (λ z, Z.lxor z (ub x))) in E.
  by rewrite !Z.lxor_assoc, Z.lxor_nilpotent, !Z.lxor_0_r in E.
Qed.

(** ** Bursts *)

(** The bytes of a burst as one little-endian integer. *)
Fixpoint le_value (x : bytes) : Z :=
  match x with
  | [] => 0
  | b :: x' => Z.lxor (ub b) (Z.shiftl (le_value x') 8)
  end.

(** At most four bytes fed to the register act as one integer. *)
Lemma crc32_loop_le c x :
  crc32_loop c x = Nat.iter (8 * length x) crc_bit (Z.lxor c (le_value x)).
Proof.
  revert c. induction x as [|b x IH]; intros c.
  { simpl. by rewrite Z.lxor_0_r. }
  unfold crc32_loop in *. cbn [fold_left le_value]. rewrite IH, crc32_step_bits.
  cbn [length]. replace (8 * S (length x))%nat with (8 * length x + 8)%nat by lia.
  rewrite Nat.iter_add. f_equal.
  rewrite <- Z.lxor_assoc, (iter_crc_bit_lxor 8 (Z.lxor c (ub b))).
  f_equal. change 8%Z with (Z.of_nat 8). by rewrite iter_crc_bit_shiftl.
Qed.

Lemma le_value_bits x i : 0 ≤ i →
  Z.testbit (le_value x) i =
    Z.testbit (ub (nth (Z.to_nat (i / 8)) x Byte.x00)) (i mod 8).
Proof.
  revert i. induction x as [|b x IH]; intros i Hi.
  { cbn [le_value nth]. destruct (Z.to_nat _); by rewrite !Z.bits_0. }
  cbn [le_value]. rewrite Z.lxor_spec, Z.shiftl_spec by lia.
  destruct (Z.lt_ge_cases i 8).
  - rewrite (Z.testbit_neg_r _ (i - 8)), xorb_false_r by lia.
    by rewrite Z.div_small, Z.mod_small by lia.
  - rewrite IH by lia.
    replace (Z.to_nat (i / 8)) with (S (Z.to_nat ((i - 8) / 8))).
    2:{ replace i with ((i - 8) + 1 * 8) at 2 by lia. rewrite Z.div_add by lia.
        pose proof (Z.div_pos (i - 8) 8). lia. }
    replace (i mod 8) with ((i - 8) mod 8).
    2:{ replace i with ((i - 8) + 1 * 8) at 2 by lia. by rewrite Z.mod_add by lia. }
    cbn [nth].
    rewrite <- (Z.mod_small (ub b) (2 ^ 8)) by apply ub_range.
    rewrite Z.testbit_mod_pow2 by lia.
    by rewrite (proj2 (Z.ltb_ge _ _)), andb_false_l, xorb_false_l by lia.
Qed.

Lemma le_value_inj x y : length x = length y → le_value x = le_value y → x = y.
Proof.
  revert y. induction x as [|b x IH]; intros [|b' y] Hl E; try done.
  cbn [le_value] in E.
  assert (ub b = ub b') as Eb.
  { apply Z.bits_inj'. intros i Hi. destruct (Z.lt_ge_cases i 8).
    - apply (f_equal (λ z, Z.testbit z i)) in E. rewrite !Z.lxor_spec in E.
      by rewrite !Z.shiftl_spec_low, !xorb_false_r in E by lia.
    - rewrite <- (Z.mod_small (ub b) (2 ^ 8)), <- (Z.mod_small (ub b') (2 ^ 8))
        by apply ub_range.
      rewrite !Z.testbit_mod_pow2 by lia.
      by rewrite (proj2 (Z.ltb_ge _ _)) by lia. }
  f_equal; [by apply ub_inj|]. apply IH; [simpl in Hl; lia|].
  rewrite Eb in E. apply (f_equal (Z.lxor (ub b'))) in E.
  rewrite <- !Z.lxor_assoc, Z.lxor_nilpotent, !Z.lxor_0_l in E.
  apply (f_equal (λ z, Z.shiftr z 8)) in E.
  by rewrite !Z.shiftr_shiftl_l, !Z.shiftl_0_r in E by lia.
Qed.

Lemma le_value_is32 x : (length x ≤ 4)%nat → is32 (le_value x).
Proof.
  intros Hl. apply is32_bits. split.
  - clear Hl. induction x; simpl; [done|]. apply Z.lxor_nonneg.
    rewrite Z.shiftl_nonneg. pose proof (ub_range a). lia.
  - intros i Hi. rewrite le_value_bits by lia. rewrite nth_overflow; [apply Z.bits_0|].
    assert (4 ≤ i / 8) by (apply Z.div_le_lower_bound; lia). lia.
Qed.

(** Four consecutive bytes are determined by the checksum and the rest. *)
Lemma crc32_burst_inj (pre x y post : bytes) :
  length x = length y → (length x ≤ 4)%nat →
  crc32 (pre ++ x ++ post) = crc32 (pre ++ y ++ post) → x = y.
Proof.
  intros Hl H4 E. unfold crc32 in E.
  apply (f_equal (λ z, Z.lxor z 0xFFFFFFFF)) in E.
  rewrite !Z.lxor_assoc, Z.lxor_nilpotent, !Z.lxor_0_r, !crc32_loop_app in E.
  set (c := crc32_loop 0xFFFFFFFF pre) in *.
  assert (is32 c) as Hc by (apply is32_crc32_loop; by split).
  apply crc32_loop_inj in E; [|by apply is32_crc32_loop..].
  rewrite !crc32_loop_le, Hl in E.
  apply iter_crc_bit_inj in E; [|apply is32_lxor; [done|apply le_value_is32; lia]..].
  apply (f_equal (Z.lxor c)) in E.
  rewrite <- !Z.lxor_assoc, Z.lxor_nilpotent, !Z.lxor_0_l in E.
  by apply le_value_inj.
Qed.

(** * Properties *)

(** C31. The table-driven loop computes the bit-by-bit CRC-32 of the
    reflected polynomial 0xEDB88320 on every input. *)
Theorem crc32_table_correct data : crc32 data = crc32_ref data.
Proof.
  unfold crc32, crc32_ref, crc32_loop. f_equal. generalize 0xFFFFFFFF.
  induction data as [|b data IH]; intros c; [done|].
  cbn [fold_left]. by rewrite <- IH, crc32_step_bits.
Qed.

(** Any change confined to four consecutive bytes (a burst of at
    most 32 bits, in particular any single flipped bit or byte) changes the
    checksum. *)
Theorem crc32_detects_burst (pre x y post : bytes) :
  length x = length y → (length x ≤ 4)%nat → x ≠ y →
  crc32 (pre ++ x ++ post) ≠ crc32 (pre ++ y ++ post).
Proof. intros Hl H4 Hne E. by apply crc32_burst_inj in E. Qed.

Lemma crc32_detects_burst_witness :
  crc32 (bs "wal" ++ bs "abcd" ++ bs "tail") ≠ crc32 (bs "wal" ++ bs "abXd" ++ bs "tail").
Proof.
  apply (crc32_detects_burst (bs "wal") (bs "abcd") (bs "abXd") (bs "tail"));
    [reflexivity|vm_compute; lia|vm_compute; discriminate].
Defined.

(** The published check value of CRC-32. *)
Example crc32_check_value : crc32 (bs "123456789") = 0xCBF43926.
Proof. vm_compute. reflexivity. Qed.
