(* ===== verification/Entry.v ===== *)
(** Versioned entries and the reference meaning of a read.

    [Memtable::Entry], [SSTable::Entry] and [MergeEntry] all carry a key, a
    value, a tombstone flag and a sequence number; they are the one record
    [Entry].  A read at sequence number [s] means: of the versions of the key
    whose number is at most [s], the one with the highest number. *)

From S2P Require Import Prelude.
Local Open Scope Z_scope.

(** * Definitions *)

Record Entry := mkEntry {
  e_key : bytes;
  e_value : bytes;
  e_tombstone : bool;
  e_seq : Z;
}.

#[export] Instance Entry_eq_dec : EqDecision Entry.
Proof. solve_decision. Defined.

(** The outcome of a point lookup: [Memtable::Status] with its out-parameter
    and [SSTable::LookupResult]. *)
Inductive LookupResult : Type :=
| NotFound
| Found (v : bytes)
| Deleted.

#[export] Instance LookupResult_eq_dec : EqDecision LookupResult.
Proof. solve_decision. Defined.

(** [Memtable::key_less]: key ascending, then sequence number descending. *)
Definition key_less (n : Entry) (k : bytes) (s : Z) : bool :=
  match bytes_compare (e_key n) k with
  | Lt => true
  | Gt => false
  | Eq => s <? e_seq n
  end.

(** The strict order in which every component lists versions. *)
Definition ent_lt (a b : Entry) : Prop :=
  key_lt (e_key a) (e_key b) ∨ e_key a = e_key b ∧ e_seq b < e_seq a.

Definition ent_le (a b : Entry) : Prop := ¬ ent_lt b a.

(** [e] is a version of [k] that a reader at [s] may see. *)
Definition visible (k : bytes) (s : Z) (e : Entry) : bool :=
  bytes_eqb (e_key e) k && (e_seq e <=? s).

(** Reference: the visible version with the highest sequence number. *)
Fixpoint newest (k : bytes) (s : Z) (es : list Entry) : option Entry :=
  match es with
  | [] => None
  | e :: es' =>
      if visible k s e then
        match newest k s es' with
        | Some e' => if e_seq e <? e_seq e' then Some e' else Some e
        | None => Some e
        end
      else newest k s es'
  end.

(** What a reader is told about a version. *)
Definition answer (o : option Entry) : LookupResult :=
  match o with
  | None => NotFound
  | Some e => if e_tombstone e then Deleted else Found (e_value e)
  end.

(** Reference lookup over any collection of versions. *)
Definition lookup_ref (es : list Entry) (k : bytes) (s : Z) : LookupResult :=
  answer (newest k s es).

(** Two entries with the same key and number are the same version. *)
Definition versions_unique (es : list Entry) : Prop :=
  ∀ a b, a ∈ es → b ∈ es → e_key a = e_key b → e_seq a = e_seq b → a = b.

(** Insertion in front of the first entry that is not [key_less]. *)
Fixpoint insert_entry (e : Entry) (es : list Entry) : list Entry :=
  match es with
  | [] => [e]
  | x :: es' =>
      if key_less x (e_key e) (e_seq e) then x :: insert_entry e es' else e :: es
  end.

Abbreviation sorted_entries := (StronglySorted ent_le).

(** * Lemmas *)

Lemma key_less_spec n k s :
  key_less n k s = true ↔ key_lt (e_key n) k ∨ e_key n = k ∧ s < e_seq n.
Proof.
  unfold key_less, key_lt. rewrite <- bytes_compare_eq.
  destruct (bytes_compare (e_key n) k); rewrite ?Z.ltb_lt; naive_solver.
Qed.

Lemma key_less_false n k s :
  key_less n k s = false ↔ key_lt k (e_key n) ∨ e_key n = k ∧ e_seq n ≤ s.
Proof.
  unfold key_less, key_lt. rewrite (bytes_compare_antisym (e_key n) k), <- bytes_compare_eq.
  destruct (bytes_compare (e_key n) k); simpl; rewrite ?Z.ltb_ge; naive_solver.
Qed.

Lemma key_less_ent_lt x e : key_less x (e_key e) (e_seq e) = true ↔ ent_lt x e.
Proof. rewrite key_less_spec. unfold ent_lt. done. Qed.

Lemma ent_lt_trans a b c : ent_lt a b → ent_lt b c → ent_lt a c.
Proof.
  unfold ent_lt. intros [?|[E ?]] [?|[E' ?]].
  - left. eauto with keystone.
  - left. by rewrite <- E'.
  - left. by rewrite E.
  - right. rewrite E, E'. split; [done|lia].
Qed.

Lemma ent_lt_irrefl a : ¬ ent_lt a a.
Proof. unfold ent_lt. intros [H|[_ H]]; [by apply key_lt_irrefl in H|lia]. Qed.

#[export] Instance ent_lt_strict : StrictOrder ent_lt.
Proof. split; [intros a; apply ent_lt_irrefl|intros a b c; apply ent_lt_trans]. Qed.

Lemma ent_le_cases a b :
  ent_le a b ↔ key_lt (e_key a) (e_key b) ∨ e_key a = e_key b ∧ e_seq b ≤ e_seq a.
Proof.
  unfold ent_le, ent_lt. split.
  - intros H. destruct (key_lt_trichotomy (e_key a) (e_key b)) as [?|[E|?]]; [by left| |].
    + right. split; [done|]. destruct (Z.le_gt_cases (e_seq b) (e_seq a)); [done|].
      exfalso. apply H. right. split; [done|lia].
    + exfalso. apply H. by left.
  - intros [?|[E ?]] [?|[E' ?]].
    + by eapply key_lt_asym.
    + apply (key_lt_irrefl (e_key a)). by rewrite <- E' at 2.
    + apply (key_lt_irrefl (e_key a)). by rewrite E at 1.
    + lia.
Qed.

Lemma ent_lt_le a b : ent_lt a b → ent_le a b.
Proof. intros H H'. by apply (ent_lt_irrefl a), (ent_lt_trans a b a). Qed.

Lemma ent_le_refl a : ent_le a a.
Proof. apply ent_lt_irrefl. Qed.

Lemma ent_le_trans a b c : ent_le a b → ent_le b c → ent_le a c.
Proof.
  rewrite !ent_le_cases. intros [?|[E ?]] [?|[E' ?]].
  - left. eauto with keystone.
  - left. by rewrite <- E'.
  - left. by rewrite E.
  - right. rewrite E, E'. split; [done|lia].
Qed.

#[export] Instance ent_le_preorder : PreOrder ent_le.
Proof. split; [intros a; apply ent_le_refl|intros a b c; apply ent_le_trans]. Qed.

Lemma ent_le_total a b : ent_le a b ∨ ent_le b a.
Proof.
  rewrite !ent_le_cases. destruct (key_lt_trichotomy (e_key a) (e_key b)) as [?|[E|?]]; auto.
  rewrite E. destruct (Z.le_ge_cases (e_seq a) (e_seq b)); auto.
Qed.

Lemma ent_lt_le_trans a b c : ent_lt a b → ent_le b c → ent_lt a c.
Proof.
  rewrite ent_le_cases. unfold ent_lt. intros [?|[E ?]] [?|[E' ?]].
  - left. eauto with keystone.
  - left. by rewrite <- E'.
  - left. by rewrite E.
  - right. rewrite E, E'. split; [done|lia].
Qed.

Lemma ent_le_lt_trans a b c : ent_le a b → ent_lt b c → ent_lt a c.
Proof.
  rewrite ent_le_cases. unfold ent_lt. intros [?|[E ?]] [?|[E' ?]].
  - left. eauto with keystone.
  - left. by rewrite <- E'.
  - left. by rewrite E.
  - right. rewrite E, E'. split; [done|lia].
Qed.

Lemma ent_le_key a b : ent_le a b → key_le (e_key a) (e_key b).
Proof. rewrite ent_le_cases, key_le_lteq. naive_solver. Qed.

#[export] Hint Resolve ent_lt_le ent_le_key ent_le_trans ent_lt_trans : keystone.

Lemma visible_spec k s e : visible k s e = true ↔ e_key e = k ∧ e_seq e ≤ s.
Proof. unfold visible. rewrite andb_true_iff, bytes_eqb_eq, Z.leb_le. done. Qed.

Lemma visible_false k s e : visible k s e = false ↔ e_key e ≠ k ∨ s < e_seq e.
Proof. unfold visible. rewrite andb_false_iff, bytes_eqb_neq, Z.leb_gt. done. Qed.

(** ** The reference lookup *)

Lemma newest_Some k s es e :
  newest k s es = Some e →
  e ∈ es ∧ visible k s e = true ∧
  ∀ e', e' ∈ es → visible k s e' = true → e_seq e' ≤ e_seq e.
Proof.
  revert e. induction es as [|x es IH]; intros e; simpl; [done|].
  destruct (visible k s x) eqn:Vx.
  - destruct (newest k s es) as [y|] eqn:E.
    + destruct (IH y eq_refl) as (Hin & Hv & Hm).
      destruct (e_seq x <? e_seq y) eqn:L; intros [= <-]; bool_hyps.
      * split_and!; [by right|done|]. intros e' [->|?]%elem_of_cons ?; [lia|auto].
      * split_and!; [by left|done|].
        intros e' [->|?]%elem_of_cons ?; [lia|]. specialize (Hm e'). naive_solver lia.
    + intros [= <-]. split_and!; [by left|done|].
      intros e' [->|Hin]%elem_of_cons Hv; [lia|]. exfalso. clear IH Vx. revert E.
      induction es as [|z es IH]; [by apply elem_of_nil in Hin|]. simpl.
      apply elem_of_cons in Hin as [->|Hin].
      * rewrite Hv. by destruct (newest k s es); [case_match|].
      * destruct (visible k s z); [by destruct (newest k s es); [case_match|]|]. auto.
  - intros E. destruct (IH e E) as (? & ? & Hm). split_and!; [by right|done|].
    intros e' [->|?]%elem_of_cons ?; [congruence|auto].
Qed.

Lemma newest_None k s es :
  newest k s es = None ↔ ∀ e, e ∈ es → visible k s e = false.
Proof.
  split.
  - induction es as [|x es IH]; simpl; [intros _ e He; by apply elem_of_nil in He|].
    destruct (visible k s x) eqn:V; [by destruct (newest k s es); [case_match|]|].
    intros E e [->|?]%elem_of_cons; auto.
  - induction es as [|x es IH]; simpl; intros H; [done|].
    rewrite (H x) by (by left). apply IH. intros. apply H. by right.
Qed.

(** On a collection where a version number identifies the version, [newest]
    is determined by the set of entries. *)
Lemma newest_intro k s es e :
  versions_unique es → e ∈ es → visible k s e = true →
  (∀ e', e' ∈ es → visible k s e' = true → e_seq e' ≤ e_seq e) →
  newest k s es = Some e.
Proof.
  intros Hu Hin Hv Hmax. destruct (newest k s es) as [y|] eqn:E.
  - apply newest_Some in E as (Hy & Hvy & Hm). f_equal.
    pose proof (proj1 (visible_spec _ _ _) Hv) as [? _].
    pose proof (proj1 (visible_spec _ _ _) Hvy) as [? _].
    apply Hu; [done|done|congruence|].
    specialize (Hm e Hin Hv). specialize (Hmax y Hy Hvy). lia.
  - rewrite newest_None in E. specialize (E e Hin). congruence.
Qed.

Lemma newest_ext k s es es' :
  versions_unique es' → (∀ e, visible k s e = true → e ∈ es ↔ e ∈ es') →
  newest k s es = newest k s es'.
Proof.
  intros Hu Heq. destruct (newest k s es) as [e|] eqn:E; symmetry.
  - apply newest_Some in E as (Hin & Hv & Hm). apply newest_intro; [done| |done|].
    + by apply Heq.
    + intros e' He' Hv'. apply Hm; [by apply Heq|done].
  - apply newest_None. rewrite newest_None in E. intros e He.
    destruct (visible k s e) eqn:V; [|done]. rewrite <- V. apply E. by apply Heq.
Qed.

Lemma newest_permutation k s es es' :
  versions_unique es' → es ≡ₚ es' → newest k s es = newest k s es'.
Proof. intros ? Hp. apply newest_ext; [done|]. intros. by rewrite Hp. Qed.

(** In version order the first visible entry is the newest. *)
Lemma newest_sorted k s es :
  sorted_entries es → newest k s es = List.find (visible k s) es.
Proof.
  induction 1 as [|x es Hs IH Hx]; simpl; [done|].
  destruct (visible k s x) eqn:V; [|done].
  destruct (newest k s es) as [y|] eqn:E; [|done].
  apply newest_Some in E as (Hin & Hv & _).
  rewrite Forall_forall in Hx. specialize (Hx y).
  specialize (Hx Hin). apply visible_spec in V as [Vx ?]. apply visible_spec in Hv as [Vy ?].
  rewrite ent_le_cases, Vx, Vy in Hx. destruct Hx as [Hx|[_ ?]].
  - by apply key_lt_irrefl in Hx.
  - by rewrite (proj2 (Z.ltb_ge _ _)) by lia.
Qed.

(** [newest] of an append: the later of the two. *)
Lemma newest_app_r k s a b :
  (∀ e, e ∈ a → visible k s e = false) → newest k s (a ++ b) = newest k s b.
Proof.
  induction a as [|x a IH]; simpl; intros H; [done|].
  rewrite H by (by left). apply IH. intros. apply H. by right.
Qed.

Lemma newest_app_none k s a b :
  (∀ e, e ∈ b → visible k s e = false) → newest k s (a ++ b) = newest k s a.
Proof.
  intros Hb. induction a as [|x a IH]; simpl; [by apply newest_None|].
  destruct (visible k s x); by rewrite IH.
Qed.

Lemma newest_app_l k s a b e :
  newest k s a = Some e →
  (∀ e', e' ∈ b → visible k s e' = true → e_seq e' < e_seq e) →
  newest k s (a ++ b) = Some e.
Proof.
  revert e. induction a as [|x a IH]; simpl; [done|]. intros e Hn Hb.
  destruct (visible k s x) eqn:V; [|auto].
  destruct (newest k s a) as [y|] eqn:E.
  - destruct (e_seq x <? e_seq y) eqn:L; injection Hn as <-.
    + rewrite (IH y) by done. by rewrite L.
    + bool_hyps. destruct (newest k s (a ++ b)) as [z|] eqn:Ez; [|done].
      rewrite (proj2 (Z.ltb_ge _ _)); [done|].
      apply newest_Some in Ez as (Hz & Vz & _).
      apply newest_Some in E as (_ & _ & Hm).
      apply elem_of_app in Hz as [Hz|Hz]; [specialize (Hm z)|specialize (Hb z)];
        naive_solver lia.
  - injection Hn as <-. rewrite newest_app_r.
    2:{ by apply newest_None. }
    destruct (newest k s b) as [z|] eqn:Ez; [|done].
    apply newest_Some in Ez as (Hz & Vz & _). specialize (Hb z Hz Vz).
    by rewrite (proj2 (Z.ltb_ge _ _)) by lia.
Qed.

(** ** Sorted insertion *)

Lemma insert_entry_perm e es : insert_entry e es ≡ₚ e :: es.
Proof.
  induction es as [|x es IH]; simpl; [done|]. destruct (key_less _ _ _); [|done].
  rewrite IH. apply Permutation_swap.
Qed.

Lemma insert_entry_sorted e es : sorted_entries es → sorted_entries (insert_entry e es).
Proof.
  induction 1 as [|x es Hs IH Hx]; simpl; [by repeat constructor|].
  destruct (key_less x (e_key e) (e_seq e)) eqn:L.
  - constructor; [done|]. rewrite insert_entry_perm. constructor; [|done].
    by apply ent_lt_le, key_less_ent_lt.
  - assert (ent_le e x) by (intros ?%key_less_ent_lt; congruence).
    constructor; [by constructor|]. constructor; [done|].
    eapply Forall_impl; [done|]. intros. eauto with keystone.
Qed.

(** Splitting at the insertion point. *)
Lemma insert_entry_app e l r :
  Forall (λ x, key_less x (e_key e) (e_seq e) = true) l →
  head r = None ∨ (∃ x, head r = Some x ∧ key_less x (e_key e) (e_seq e) = false) →
  insert_entry e (l ++ r) = l ++ e :: r.
Proof.
  induction 1 as [|x l Hx Hl IH]; simpl; intros Hr.
  - destruct r as [|y r]; [done|]. simpl. destruct Hr as [?|(x & [= <-] & ->)]; done.
  - by rewrite Hx, IH.
Qed.

Lemma versions_unique_perm es es' : es ≡ₚ es' → versions_unique es → versions_unique es'.
Proof. intros Hp Hu a b. rewrite <- Hp. apply Hu. Qed.

Lemma versions_unique_sub es es' :
  (∀ e, e ∈ es' → e ∈ es) → versions_unique es → versions_unique es'.
Proof. intros Hs Hu a b Ha Hb. apply Hu; auto. Qed.

(** Adding a version with a number above every other one. *)
Lemma versions_unique_fresh e es :
  versions_unique es → (∀ x, x ∈ es → e_seq x < e_seq e) → versions_unique (e :: es).
Proof.
  intros Hu Hf a b [->|Ha]%elem_of_cons [->|Hb]%elem_of_cons Hk Hs; [done| | |by apply Hu].
  - specialize (Hf _ Hb). lia.
  - specialize (Hf _ Ha). lia.
Qed.

(** Distinct (key, number) pairs identify versions; the test is decidable. *)
Lemma versions_unique_nodup es :
  NoDup ((λ e, (e_key e, e_seq e)) <$> es) → versions_unique es.
Proof.
  intros Hnd a b (i & Hi)%list_elem_of_lookup (j & Hj)%list_elem_of_lookup Hk Hs.
  enough (i = j) by congruence.
  eapply NoDup_lookup; [apply Hnd| |]; rewrite list_lookup_fmap.
  - by rewrite Hi.
  - rewrite Hj. simpl. by rewrite Hk, Hs.
Qed.
