(* ===== verification/Memtable.v ===== *)
(** The skiplist of src/include/keystone/memtable.h and src/src/memtable.cpp.

    Nodes live in a heap and point to each other through [forward], as in the
    source: an address is an index into [heap], the head node has address 0,
    and a pointer is an [option nat].  Reading or writing outside a node or
    its [forward] vector is [Undefined], and so is running out of fuel, so a
    theorem that an operation is [Ok] covers both.  The coin tosses of
    [random_level] are an argument of the operations that draw them. *)

From S2P Require Import Prelude Entry.
Local Open Scope nat_scope.

(** * Definitions *)

Record Node := mkNode { n_entry : Entry; forward : list (option nat) }.

Record Memtable := mkMemtable {
  heap : list Node;
  max_height_ : nat;
  current_height_ : nat;
  approx_bytes_ : Z;
}.

Definition head_ : nat := 0.
Definition kNodeOverhead : Z := 64.

Definition Memtable_new (max_height : nat) : Memtable := {|
  heap := [mkNode (mkEntry [] [] false 0) (replicate max_height None)];
  max_height_ := max_height;
  current_height_ := 1;
  approx_bytes_ := 0;
|}.

(** [random_level]: one toss per round, at most [max_height_ - 1] of them. *)
Fixpoint random_level (max_height lvl : nat) (coins : list bool) : nat :=
  if lvl <? max_height then
    match coins with
    | true :: coins' => random_level max_height (S lvl) coins'
    | _ => lvl
    end
  else lvl.

(** [x->forward[i]] *)
Definition fwd (h : list Node) (x i : nat) : option (option nat) :=
  nd ← h !! x; forward nd !! i.

(** [x->forward[i] = p] *)
Definition set_fwd (h : list Node) (x i : nat) (p : option nat) : result (list Node) :=
  match h !! x with
  | Some nd =>
      if i <? length (forward nd)
      then Ok (<[x := mkNode (n_entry nd) (<[i := p]> (forward nd))]> h)
      else Undefined
  | None => Undefined
  end.

(** The inner [while] of a search: move right on level [i] while the next
    node is smaller than the target. *)
Fixpoint walk (fuel : nat) (h : list Node) (less : Entry → bool) (i x : nat)
  : result nat :=
  match fwd h x i with
  | None => Undefined
  | Some None => Ok x
  | Some (Some y) =>
      match h !! y with
      | None => Undefined
      | Some nd =>
          if less (n_entry nd) then
            match fuel with
            | O => Undefined
            | S fuel' => walk fuel' h less i y
            end
          else Ok x
      end
  end.

(** The outer [for] of a search, from level [lv - 1] down to 0, recording
    the last node of each level in [update]. *)
Fixpoint search (h : list Node) (less : Entry → bool) (lv x : nat) (update : list nat)
  : result (nat * list nat) :=
  match lv with
  | O => Ok (x, update)
  | S i =>
      x' ← walk (length h) h less i x;
      search h less i x' (<[i := x']> update)
  end.

(** The splice loop, for [i] up to [i + n]. *)
Fixpoint link (h : list Node) (update : list nat) (node i n : nat) : result (list Node) :=
  match n with
  | O => Ok h
  | S n' =>
      match update !! i with
      | None => Undefined
      | Some u =>
          match fwd h u i with
          | None => Undefined
          | Some p =>
              h1 ← set_fwd h node i p;
              h2 ← set_fwd h1 u i (Some node);
              link h2 update node (S i) n'
          end
      end
  end.

(** The common body of [put] and [del]. *)
Definition insert_node (m : Memtable) (e : Entry) (size : Z) (coins : list bool)
  : result Memtable :=
  xu ← search (heap m) (λ n, key_less n (e_key e) (e_seq e)) (current_height_ m) head_
         (replicate (max_height_ m) head_);
  let lvl := random_level (max_height_ m) 1 coins in
  let height := if current_height_ m <? lvl then lvl else current_height_ m in
  let node := length (heap m) in
  h ← link (heap m ++ [mkNode e (replicate lvl None)]) xu.2 node 0 lvl;
  Ok {| heap := h; max_height_ := max_height_ m; current_height_ := height;
        approx_bytes_ := u64 (approx_bytes_ m + size) |}.

Definition put (m : Memtable) (key value : bytes) (s : Z) (coins : list bool)
  : result Memtable :=
  insert_node m (mkEntry key value false s) (blen key + blen value + kNodeOverhead) coins.

Definition del (m : Memtable) (key : bytes) (s : Z) (coins : list bool)
  : result Memtable :=
  insert_node m (mkEntry key [] true s) (blen key + kNodeOverhead) coins.

(** The first node not smaller than [(key, s)]: the search shared by
    [lookup], [lower_bound] and [raw_lower_bound]. *)
Definition seek_ge (m : Memtable) (key : bytes) (s : Z) : result (option nat) :=
  xu ← search (heap m) (λ n, key_less n key s) (current_height_ m) head_
         (replicate (max_height_ m) head_);
  match fwd (heap m) xu.1 0 with
  | None => Undefined
  | Some p => Ok p
  end.

Definition lookup (m : Memtable) (key : bytes) (snapshot_seq : Z) : result LookupResult :=
  p ← seek_ge m key snapshot_seq;
  match p with
  | None => Ok NotFound
  | Some x =>
      match heap m !! x with
      | None => Undefined
      | Some nd =>
          if negb (bytes_eqb (e_key (n_entry nd)) key) then Ok NotFound
          else if e_tombstone (n_entry nd) then Ok Deleted
          else Ok (Found (e_value (n_entry nd)))
      end
  end.

Definition approx_bytes (m : Memtable) : Z := approx_bytes_ m.

(** ** Iterators: a position is a node pointer. *)

Definition raw_begin (m : Memtable) : result (option nat) :=
  match fwd (heap m) head_ 0 with None => Undefined | Some p => Ok p end.

Definition raw_lower_bound (m : Memtable) (key : bytes) : result (option nat) :=
  seek_ge m key u64_max.

(** [RawIterator::operator++] *)
Definition raw_next (m : Memtable) (x : nat) : result (option nat) :=
  match fwd (heap m) x 0 with None => Undefined | Some p => Ok p end.

(** [*it] *)
Definition deref (m : Memtable) (x : nat) : result Entry :=
  match heap m !! x with None => Undefined | Some nd => Ok (n_entry nd) end.

(** A loop from [it] to [raw_end()], collecting the entries while [keep]
    accepts them. *)
Fixpoint raw_loop (fuel : nat) (m : Memtable) (keep : Entry → bool) (it : option nat)
  : result (list Entry) :=
  match it with
  | None => Ok []
  | Some x =>
      match fuel with
      | O => Undefined
      | S fuel' =>
          e ← deref m x;
          if keep e then
            it' ← raw_next m x;
            es ← raw_loop fuel' m keep it';
            Ok (e :: es)
          else Ok []
      end
  end.

Definition raw_entries (m : Memtable) : result (list Entry) :=
  it ← raw_begin m; raw_loop (length (heap m)) m (λ _, true) it.

(** [Iterator::operator++]: skip the remaining versions of the key. *)
Fixpoint skip_versions (fuel : nat) (m : Memtable) (cur : bytes) (x : nat)
  : result (option nat) :=
  it ← raw_next m x;
  match it with
  | None => Ok None
  | Some y =>
      e ← deref m y;
      if bytes_eqb (e_key e) cur then
        match fuel with O => Undefined | S fuel' => skip_versions fuel' m cur y end
      else Ok (Some y)
  end.

(** A loop over the default iterator. *)
Fixpoint iter_loop (fuel : nat) (m : Memtable) (it : option nat) : result (list Entry) :=
  match it with
  | None => Ok []
  | Some x =>
      match fuel with
      | O => Undefined
      | S fuel' =>
          e ← deref m x;
          it' ← skip_versions (length (heap m)) m (e_key e) x;
          es ← iter_loop fuel' m it';
          Ok (e :: es)
      end
  end.

Definition begin_ (m : Memtable) : result (option nat) :=
  match fwd (heap m) head_ 0 with None => Undefined | Some p => Ok p end.

Definition lower_bound (m : Memtable) (key : bytes) : result (option nat) :=
  seek_ge m key u64_max.

(** The loops from [begin()] and from [lower_bound(key)] to [end()]. *)
Definition iter_entries (m : Memtable) : result (list Entry) :=
  it ← begin_ m; iter_loop (length (heap m)) m it.

Definition iter_from (m : Memtable) (key : bytes) : result (list Entry) :=
  it ← lower_bound m key; iter_loop (length (heap m)) m it.

(** ** The destructor *)

(** A freed address holds [None]: reading it or freeing it again is
    undefined. *)
Fixpoint delete_loop (fuel : nat) (h : list (option Node)) (n : option nat)
  : result (list (option Node)) :=
  match n with
  | None => Ok h
  | Some x =>
      match fuel, h !! x with
      | S fuel', Some (Some nd) =>
          match forward nd !! 0 with
          | Some next => delete_loop fuel' (<[x := None]> h) next
          | None => Undefined
          end
      | _, _ => Undefined
      end
  end.

Definition Memtable_delete (m : Memtable) : result (list (option Node)) :=
  delete_loop (length (heap m)) (Some <$> heap m) (Some head_).

(** ** The skiplist invariant *)

Definition height (h : list Node) (x : nat) : nat :=
  match h !! x with Some nd => length (forward nd) | None => 0 end.

Definition entry_of (h : list Node) (x : nat) : Entry :=
  match h !! x with Some nd => n_entry nd | None => mkEntry [] [] false 0 end.

(** The first address of [l] that takes part in level [i]. *)
Fixpoint next_at (h : list Node) (i : nat) (l : list nat) : option nat :=
  match l with
  | [] => None
  | x :: l' => if i <? height h x then Some x else next_at h i l'
  end.

(** The last one, [d] if there is none. *)
Fixpoint last_at (h : list Node) (i d : nat) (l : list nat) : nat :=
  match l with
  | [] => d
  | x :: l' => last_at h i (if i <? height h x then x else d) l'
  end.

(** Level [i] links exactly the nodes of [l] that are high enough, in the
    order of [l]. *)
Fixpoint linked (h : list Node) (i : nat) (l : list nat) : Prop :=
  match l with
  | [] => True
  | x :: l' => (i < height h x → fwd h x i = Some (next_at h i l')) ∧ linked h i l'
  end.

(** [ns] lists the addresses of the nodes in order. *)
Record skiplist (m : Memtable) (ns : list nat) : Prop := {
  sk_max : 1 ≤ max_height_ m;
  sk_cur : 1 ≤ current_height_ m ≤ max_height_ m;
  sk_perm : head_ :: ns ≡ₚ List.seq 0 (length (heap m));
  sk_head : height (heap m) head_ = max_height_ m;
  sk_heights : Forall (λ x, 1 ≤ height (heap m) x ≤ current_height_ m) ns;
  sk_linked : ∀ i, linked (heap m) i (head_ :: ns);
  sk_sorted : sorted_entries (entry_of (heap m) <$> ns);
}.

(** The table represents this list of versions. *)
Definition represents (m : Memtable) (es : list Entry) : Prop :=
  ∃ ns, skiplist m ns ∧ es = (entry_of (heap m) <$> ns).

(** ** Reference loops and histories *)

(** The loop of a scan: from the lower bound of [start] until a key above
    [stop]. *)
Definition raw_range (m : Memtable) (start stop : bytes) : result (list Entry) :=
  it ← raw_lower_bound m start;
  raw_loop (length (heap m)) m (λ e, bytes_leb (e_key e) stop) it.

(** The longest prefix on which the loop goes on. *)
Fixpoint take_while (keep : Entry → bool) (es : list Entry) : list Entry :=
  match es with
  | [] => []
  | e :: es' => if keep e then e :: take_while keep es' else []
  end.

(** The first version of each key, [prev] being the key before. *)
Fixpoint first_versions (prev : option bytes) (es : list Entry) : list Entry :=
  match es with
  | [] => []
  | e :: es' =>
      if decide (prev = Some (e_key e)) then first_versions prev es'
      else e :: first_versions (Some (e_key e)) es'
  end.

Inductive memop : Type :=
| OpPut (key value : bytes) (s : Z)
| OpDel (key : bytes) (s : Z).

Definition op_entry (o : memop) : Entry :=
  match o with
  | OpPut k v s => mkEntry k v false s
  | OpDel k s => mkEntry k [] true s
  end.

Definition run_op (m : Memtable) (oc : memop * list bool) : result Memtable :=
  match oc.1 with
  | OpPut k v s => put m k v s oc.2
  | OpDel k s => del m k s oc.2
  end.

Fixpoint run_ops (m : Memtable) (ops : list (memop * list bool)) : result Memtable :=
  match ops with
  | [] => Ok m
  | oc :: ops' => m' ← run_op m oc; run_ops m' ops'
  end.

(** * Lemmas *)

(** ** Levels *)

Lemma next_at_app h i l r :
  next_at h i (l ++ r) =
    match next_at h i l with Some x => Some x | None => next_at h i r end.
Proof. induction l as [|x l IH]; simpl; [done|]. by destruct (_ <? _). Qed.

Lemma next_at_Some h i l x : next_at h i l = Some x → x ∈ l ∧ i < height h x.
Proof.
  induction l as [|y l IH]; simpl; [done|]. destruct (i <? height h y) eqn:E.
  - intros [= ->]. bool_hyps. split; [by left|done].
  - intros H. destruct (IH H). split; [by right|done].
Qed.

Lemma next_at_head h l : Forall (λ x, 1 ≤ height h x) l → next_at h 0 l = head l.
Proof. intros [|x l' Hx _]; simpl; [done|]. by rewrite (proj2 (Nat.ltb_lt _ _)) by lia. Qed.

Lemma last_at_app h i d l x r :
  i < height h x → last_at h i d (l ++ x :: r) = last_at h i x r.
Proof.
  intros Hx. revert d. induction l as [|y l IH]; intros d; simpl; [|done].
  by rewrite (proj2 (Nat.ltb_lt _ _)).
Qed.

Lemma last_at_split h i d l :
  last_at h i d l = d ∨
  ∃ l1 l2, l = l1 ++ last_at h i d l :: l2 ∧ i < height h (last_at h i d l).
Proof.
  revert d. induction l as [|y l IH]; intros d; simpl; [by left|].
  destruct (i <? height h y) eqn:E; bool_hyps.
  - right. destruct (IH y) as [->|(l1 & l2 & El & Hh)]; [by exists [], l|].
    exists (y :: l1), l2. simpl. by rewrite <- El.
  - destruct (IH d) as [->|(l1 & l2 & El & Hh)]; [by left|].
    right. exists (y :: l1), l2. simpl. by rewrite <- El.
Qed.

Lemma last_at_in h i d l : last_at h i d l ∈ d :: l.
Proof.
  destruct (last_at_split h i d l) as [->|(l1 & l2 & El & _)]; [by left|].
  right. rewrite El at 2. apply elem_of_app. right. by left.
Qed.

Lemma last_at_height h i d l : i < height h d → i < height h (last_at h i d l).
Proof. intros. by destruct (last_at_split h i d l) as [->|(l1 & l2 & _ & ?)]. Qed.

Lemma last_at_low h i d l : Forall (λ x, height h x ≤ i) l → last_at h i d l = d.
Proof.
  induction 1; simpl; [done|]. by rewrite (proj2 (Nat.ltb_ge _ _)).
Qed.

Lemma linked_suffix h i l r : linked h i (l ++ r) → linked h i r.
Proof. induction l as [|x l IH]; simpl; [done|]. intros [_ H]. auto. Qed.

(** Skipping a node that is too low for the level. *)
Lemma linked_skip h i x y l :
  height h y ≤ i → linked h i (x :: y :: l) → linked h i (x :: l).
Proof.
  simpl. intros Hy (Hx & _ & Hl). split; [|done].
  by rewrite (proj2 (Nat.ltb_ge _ _)) in Hx.
Qed.

Lemma lookup_valid (h : list Node) y :
  y < length h → ∃ nd, h !! y = Some nd ∧ entry_of h y = n_entry nd.
Proof.
  intros [nd Hnd]%lookup_lt_is_Some_2. exists nd. unfold entry_of. by rewrite Hnd.
Qed.

(** ** Search *)

(** A search splits the nodes into those that are [less] and the others;
    on each level it stops at the last node of the first part. *)
Lemma walk_spec h less i fuel x l r :
  linked h i (x :: l ++ r) → i < height h x →
  Forall (λ y, y < length h) (l ++ r) →
  Forall (λ y, less (entry_of h y) = true) l →
  Forall (λ y, less (entry_of h y) = false) r →
  length l ≤ fuel → walk fuel h less i x = Ok (last_at h i x l).
Proof.
  intros Hlink Hx Hv Hl Hr. revert fuel x Hlink Hx.
  induction l as [|y l IH]; intros fuel x Hlink Hx Hf.
  - destruct Hlink as [E _]. specialize (E Hx). simpl in E.
    destruct fuel; cbn [walk]; rewrite E; destruct (next_at h i r) as [y|] eqn:Ey; try done;
      apply next_at_Some in Ey as [Hy _]; rewrite Forall_forall in Hr, Hv;
      destruct (lookup_valid h y) as (nd & -> & En); auto;
      specialize (Hr _ Hy); rewrite En in Hr; by rewrite Hr.
  - apply Forall_cons in Hl as [Hy Hl]. apply Forall_cons in Hv as [Hyv Hv].
    destruct (Nat.lt_ge_cases i (height h y)) as [Hhy|Hhy].
    + destruct fuel as [|fuel]; [simpl in Hf; lia|]. cbn [walk last_at].
      destruct Hlink as [E Hlink]. rewrite E by done. cbn [app next_at].
      rewrite (proj2 (Nat.ltb_lt _ _)) by done.
      destruct (lookup_valid h y Hyv) as (nd & -> & En). rewrite <- En, Hy.
      apply IH; [done..|simpl in Hf; lia].
    + cbn [last_at]. rewrite (proj2 (Nat.ltb_ge _ _)) by done.
      apply IH; [done..| |done|simpl in Hf; lia]. by eapply linked_skip.
Qed.

Lemma search_spec h less lv x l r update :
  (∀ i, i < lv → linked h i (x :: l ++ r)) → lv ≤ height h x →
  Forall (λ y, y < length h) (l ++ r) → length l ≤ length h → lv ≤ length update →
  Forall (λ y, less (entry_of h y) = true) l →
  Forall (λ y, less (entry_of h y) = false) r →
  ∃ update', search h less lv x update = Ok (if lv =? 0 then x else last_at h 0 x l, update') ∧
    ∀ i, update' !! i = if i <? lv then Some (last_at h i x l) else update !! i.
Proof.
  intros Hlink Hx Hv Hlen Hup Hl Hr.
  revert x l update Hlink Hx Hv Hlen Hup Hl.
  induction lv as [|lv IH]; intros x l update Hlink Hx Hv Hlen Hup Hl.
  { exists update. by split. }
  cbn [search]. rewrite (walk_spec h less lv _ x l r) by (auto; lia). cbn [mbind result_bind].
  set (x' := last_at h lv x l). set (update' := <[lv := x']> update).
  assert (∃ l2, (∀ i, i < lv → linked h i (x' :: l2 ++ r)) ∧
    Forall (λ y, y < length h) (l2 ++ r) ∧ length l2 ≤ length h ∧
    Forall (λ y, less (entry_of h y) = true) l2 ∧
    ∀ i, i ≤ lv → last_at h i x' l2 = last_at h i x l) as (l2 & L1 & L2 & L3 & L4 & L5).
  { destruct (last_at_split h lv x l) as [E|(l1 & l2 & El & Hh)]; fold x' in E || fold x' in El, Hh.
    - exists l. rewrite E. split_and!; auto.
    - exists l2. rewrite El in Hlink, Hv, Hl, Hlen. rewrite <- (assoc_L (++)) in Hlink, Hv.
      apply Forall_app in Hl as [_ Hl]. apply Forall_cons in Hl as [_ Hl].
      apply Forall_app in Hv as [_ Hv]. simpl in Hv. apply Forall_cons in Hv as [_ Hv].
      rewrite length_app in Hlen. cbn [length] in Hlen. split_and!; auto; [|lia|].
      + intros i Hi. apply (linked_suffix h i (x :: l1)), Hlink. lia.
      + intros i Hi. rewrite El. symmetry. apply last_at_app. lia. }
  destruct (IH x' l2 update') as (update'' & Hs & Hu); auto.
  { pose proof (last_at_height h lv x l). fold x' in H. lia. }
  { unfold update'. rewrite length_insert. lia. }
  exists update''. rewrite Hs. split.
  - f_equal. f_equal. destruct lv; [done|]. apply L5. lia.
  - intros i. rewrite Hu. destruct (Nat.ltb_spec i lv).
    + rewrite (proj2 (Nat.ltb_lt _ _)) by lia. by rewrite L5 by lia.
    + destruct (decide (i = lv)) as [->|].
      * rewrite (proj2 (Nat.ltb_lt _ _)) by lia. by apply list_lookup_insert_eq.
      * rewrite (proj2 (Nat.ltb_ge _ _)) by lia. by apply list_lookup_insert_ne.
Qed.

(** ** Insertion *)

(** Two heaps that differ only in pointers. *)
Record same_shape (h h' : list Node) : Prop := {
  ss_length : length h' = length h;
  ss_height x : height h' x = height h x;
  ss_entry x : entry_of h' x = entry_of h x;
}.

#[export] Instance same_shape_preorder : PreOrder same_shape.
Proof.
  split; [by split|]. intros h1 h2 h3 [] []. split; intros; etrans; eauto.
Qed.

Lemma height_lookup h x i : i < height h x → ∃ nd, h !! x = Some nd ∧ i < length (forward nd).
Proof. unfold height. destruct (h !! x); [eauto|lia]. Qed.

Lemma set_fwd_spec h x i p :
  i < height h x →
  ∃ h', set_fwd h x i p = Ok h' ∧ same_shape h h' ∧
    ∀ y j, fwd h' y j = if decide (y = x ∧ j = i) then Some p else fwd h y j.
Proof.
  intros (nd & Hnd & Hi)%height_lookup. unfold set_fwd. rewrite Hnd.
  rewrite (proj2 (Nat.ltb_lt _ _)) by done. eexists. split; [done|].
  assert (x < length h) by (by eapply lookup_lt_Some). split.
  - split; [apply length_insert| |]; intros y; unfold height, entry_of;
      (destruct (decide (x = y)) as [<-|];
        [rewrite list_lookup_insert_eq, Hnd by done|by rewrite list_lookup_insert_ne by done]);
      [apply length_insert|done].
  - intros y j. unfold fwd. destruct (decide (x = y)) as [<-|].
    + rewrite list_lookup_insert_eq, Hnd by done. simpl.
      destruct (decide (i = j)) as [<-|].
      * rewrite decide_True by done. by apply list_lookup_insert_eq.
      * rewrite decide_False by naive_solver. by apply list_lookup_insert_ne.
    + rewrite list_lookup_insert_ne by done. by rewrite decide_False by naive_solver.
Qed.

Lemma link_spec h update node i n (u : nat → nat) :
  i + n ≤ height h node →
  (∀ j, i ≤ j < i + n → update !! j = Some (u j) ∧ u j ≠ node ∧ j < height h (u j)) →
  ∃ h', link h update node i n = Ok h' ∧ same_shape h h' ∧
    ∀ x j, fwd h' x j =
      if decide (i ≤ j < i + n) then
        if decide (x = node) then fwd h (u j) j
        else if decide (x = u j) then Some (Some node) else fwd h x j
      else fwd h x j.
Proof.
  revert h i. induction n as [|n IH]; intros h i Hn Hu.
  { exists h. split_and!; [done|reflexivity|]. intros. by rewrite decide_False by lia. }
  destruct (Hu i) as (Eu & Hne & Hh); [lia|]. cbn [link]. rewrite Eu.
  destruct (height_lookup _ _ _ Hh) as (nd & End & [p Hp]%lookup_lt_is_Some_2).
  assert (fwd h (u i) i = Some p) as Ep by (unfold fwd; by rewrite End).
  rewrite Ep.
  destruct (set_fwd_spec h node i p) as (h1 & -> & S1 & F1); [lia|].
  destruct (set_fwd_spec h1 (u i) i (Some node)) as (h2 & E2 & S2 & F2).
  { by rewrite (ss_height _ _ S1). }
  cbn [mbind result_bind]. rewrite E2. cbn [mbind result_bind].
  assert (same_shape h h2) as S12 by (by etrans).
  destruct (IH h2 (S i)) as (h3 & E3 & S3 & F3).
  { rewrite (ss_height _ _ S12). lia. }
  { intros j Hj. rewrite (ss_height _ _ S12). apply Hu. lia. }
  exists h3. split_and!; [done|by etrans|]. intros x j. rewrite F3, !F2, !F1.
  destruct (decide (j = i)) as [->|].
  - rewrite (decide_False (P := S i ≤ i < S i + n)) by lia.
    rewrite (decide_True (P := i ≤ i < i + S n)) by lia.
    destruct (decide (x = node)) as [->|].
    + rewrite decide_False by naive_solver. by rewrite decide_True by done.
    + destruct (decide (x = u i)) as [->|].
      * by rewrite decide_True by done.
      * by rewrite !decide_False by naive_solver.
  - rewrite !(decide_False (P := _ ∧ j = i)) by naive_solver.
    destruct (decide (S i ≤ j < S i + n)), (decide (i ≤ j < i + S n)); try done; lia.
Qed.

Lemma next_at_ext h h' i l :
  (∀ x, x ∈ l → height h' x = height h x) → next_at h' i l = next_at h i l.
Proof.
  induction l as [|x l IH]; simpl; intros Hh; [done|].
  rewrite (Hh x) by (by left). destruct (_ <? _); [done|].
  apply IH. intros. apply Hh. by right.
Qed.

Lemma linked_ext h h' i l :
  (∀ x, x ∈ l → height h' x = height h x ∧ fwd h' x i = fwd h x i) →
  linked h i l → linked h' i l.
Proof.
  induction l as [|x l IH]; simpl; [done|]. intros Hh [Hx Hl].
  destruct (Hh x) as [E1 E2]; [by left|]. split.
  - rewrite E1, E2. intros. rewrite Hx by done. f_equal. symmetry.
    apply next_at_ext. intros. apply Hh. by right.
  - apply IH; [|done]. intros. apply Hh. by right.
Qed.

Lemma linked_insert h h' i x l r node lvl :
  linked h i (x :: l ++ r) → i < height h x → NoDup (x :: l ++ r) →
  (∀ y, y ∈ x :: l ++ r → height h' y = height h y) →
  height h' node = lvl →
  (i < lvl → fwd h' node i = Some (next_at h i r)) →
  (∀ y, y ∈ x :: l ++ r →
    fwd h' y i = if decide (i < lvl ∧ y = last_at h i x l)
                 then Some (Some node) else fwd h y i) →
  linked h' i (x :: l ++ node :: r).
Proof.
  revert x. induction l as [|y l IH]; intros x Hlink Hx Hnd Hh Hn Hfn Hf.
  - destruct Hlink as [E Hlink]. specialize (E Hx). apply NoDup_cons in Hnd as [Hxr _].
    assert (next_at h' i r = next_at h i r) as En
      by (apply next_at_ext; intros; apply Hh; by right).
    cbn [app linked next_at]. split_and!.
    + intros _. rewrite Hf, Hn, En by (by left). simpl last_at.
      destruct (Nat.ltb_spec i lvl); [by rewrite decide_True|].
      by rewrite decide_False by lia.
    + rewrite Hn, En. done.
    + apply (linked_ext h); [|done]. intros y Hy. split; [apply Hh; by right|].
      rewrite Hf by (by right). rewrite decide_False; [done|]. simpl. intros [_ ->].
      done.
  - destruct (Nat.ltb_spec i (height h y)) as [Hy|Hy].
    + apply NoDup_cons in Hnd as [Hxl Hnd]. destruct Hlink as [E Hlink].
      cbn [last_at] in Hf. rewrite (proj2 (Nat.ltb_lt _ _)) in Hf by done.
      split.
      * intros _. rewrite Hf by (by left). cbn [app next_at].
        rewrite Hh by (right; by left). rewrite (proj2 (Nat.ltb_lt _ _)) by done.
        rewrite decide_False.
        { rewrite E by done. cbn [app next_at]. by rewrite (proj2 (Nat.ltb_lt _ _)). }
        intros [_ Eq]. apply Hxl. rewrite Eq. apply (elem_of_app (y :: l)). left.
        apply last_at_in.
      * apply (IH y); auto; intros z Hz; [apply Hh|apply Hf]; by right.
    + cbn [last_at] in Hf. rewrite (proj2 (Nat.ltb_ge _ _)) in Hf by done.
      assert (linked h' i (x :: l ++ node :: r)) as [E' Hl'].
      { apply (IH x); auto.
        - by eapply linked_skip.
        - apply NoDup_cons in Hnd as [Hxl Hnd]. apply NoDup_cons in Hnd as [_ Hnd].
          apply NoDup_cons. split; [|done]. intros ?. apply Hxl. by right.
        - intros z [->|Hz]%elem_of_cons; apply Hh; [by left|right; by right].
        - intros z [->|Hz]%elem_of_cons; apply Hf; [by left|right; by right]. }
      cbn [app linked next_at]. rewrite (Hh y) by (right; by left).
      rewrite (proj2 (Nat.ltb_ge _ _)) by done. split_and!; [done|lia|done].
Qed.

Lemma linked_high h i l : (∀ x, x ∈ l → height h x ≤ i) → linked h i l.
Proof.
  induction l as [|x l IH]; simpl; [done|]. intros H. split.
  - specialize (H x). intros. exfalso. assert (height h x ≤ i) by (apply H; by left). lia.
  - apply IH. intros. apply H. by right.
Qed.

Lemma fwd_last_at h i x l r :
  linked h i (x :: l ++ r) → i < height h x →
  fwd h (last_at h i x l) i = Some (next_at h i r).
Proof.
  revert x. induction l as [|y l IH]; intros x Hlink Hx; [by apply Hlink|].
  cbn [last_at]. destruct (Nat.ltb_spec i (height h y)).
  - apply IH; [|done]. by destruct Hlink.
  - apply IH; [|done]. by eapply linked_skip.
Qed.

Lemma random_level_bounds max lvl coins :
  1 ≤ lvl ≤ max → 1 ≤ random_level max lvl coins ≤ max.
Proof.
  revert lvl. induction coins as [|[] coins IH]; intros lvl Hl; simpl;
    destruct (Nat.ltb_spec lvl max); try lia. apply IH. lia.
Qed.

(** ** Consequences of the invariant *)

Section Invariant.
Context (m : Memtable) (ns : list nat) (Hm : skiplist m ns).

Lemma sk_valid : Forall (λ x, x < length (heap m)) (head_ :: ns).
Proof using Hm.
  apply Forall_forall. intros x. rewrite (sk_perm _ _ Hm), elem_of_seq. lia.
Qed.

Lemma sk_nodup : NoDup (head_ :: ns).
Proof using Hm. rewrite (sk_perm _ _ Hm). apply NoDup_ListNoDup, seq_NoDup. Qed.

Lemma sk_length : length (heap m) = S (length ns).
Proof using Hm.
  pose proof (Permutation_length (sk_perm _ _ Hm)) as E. rewrite length_seq in E. done.
Qed.

End Invariant.

Lemma key_less_mono x y k s : ent_le x y → key_less y k s = true → key_less x k s = true.
Proof.
  rewrite ent_le_cases, !key_less_spec. intros [?|[-> ?]] [?|[<- ?]]; auto with lia.
  left. eauto with keystone.
Qed.

(** The nodes smaller than a target come first. *)
Lemma split_less f (ns : list nat) k s :
  sorted_entries (f <$> ns) →
  ∃ l r, ns = l ++ r ∧ Forall (λ y, key_less (f y) k s = true) l ∧
    Forall (λ y, key_less (f y) k s = false) r.
Proof.
  induction ns as [|x ns IH]; intros Hs; [by exists [], []|].
  rewrite fmap_cons in Hs. apply StronglySorted_inv in Hs as [Hs Hx]. destruct (key_less (f x) k s) eqn:E.
  - destruct IH as (l & r & -> & Hl & Hr); [done|]. exists (x :: l), r. auto.
  - exists [], (x :: ns). split_and!; [done|done|]. constructor; [done|].
    rewrite Forall_fmap in Hx. eapply Forall_impl; [done|]. intros y Hy.
    destruct (key_less (f y) k s) eqn:E'; [|done].
    by rewrite (key_less_mono _ _ _ _ Hy E') in E.
Qed.

(** What every search of the table finds. *)
Lemma sk_search m l r k s :
  skiplist m (l ++ r) →
  Forall (λ y, key_less (entry_of (heap m) y) k s = true) l →
  Forall (λ y, key_less (entry_of (heap m) y) k s = false) r →
  ∃ update, search (heap m) (λ n, key_less n k s) (current_height_ m) head_
      (replicate (max_height_ m) head_) = Ok (last_at (heap m) 0 head_ l, update) ∧
    ∀ i, i < max_height_ m → update !! i = Some (last_at (heap m) i head_ l).
Proof.
  intros Hm Hl Hr. pose proof (sk_cur _ _ Hm) as Hcur.
  pose proof (sk_valid _ _ Hm) as Hv. apply Forall_cons in Hv as [_ Hv].
  pose proof (sk_length _ _ Hm) as Hlen. rewrite length_app in Hlen.
  destruct (search_spec (heap m) (λ n, key_less n k s) (current_height_ m) head_ l r
    (replicate (max_height_ m) head_)) as (update & E & Hu); auto.
  { intros. apply Hm. }
  { rewrite (sk_head _ _ Hm). lia. }
  { lia. }
  { rewrite length_replicate. lia. }
  exists update. rewrite E. split.
  { by rewrite (proj2 (Nat.eqb_neq _ _)) by lia. }
  intros i Hi. rewrite Hu. destruct (Nat.ltb_spec i (current_height_ m)); [done|].
  rewrite last_at_low.
  - by apply lookup_replicate_2.
  - pose proof (sk_heights _ _ Hm) as Hh. apply Forall_app in Hh as [Hh _].
    eapply Forall_impl; [done|]. simpl. lia.
Qed.

Lemma heap_grow (h : list Node) nd x :
  x < length h →
  height (h ++ [nd]) x = height h x ∧ entry_of (h ++ [nd]) x = entry_of h x ∧
  ∀ i, fwd (h ++ [nd]) x i = fwd h x i.
Proof. intros. unfold height, entry_of, fwd. by rewrite lookup_app_l by done. Qed.

Lemma heap_new (h : list Node) nd :
  height (h ++ [nd]) (length h) = length (forward nd) ∧
  entry_of (h ++ [nd]) (length h) = n_entry nd.
Proof.
  unfold height, entry_of. by rewrite lookup_app_r, Nat.sub_diag by lia.
Qed.

(** The heap after the splice loop, described from outside. *)
Record spliced (h h' : list Node) (l r : list nat) (e : Entry) (lvl : nat) : Prop := {
  sp_length : length h' = S (length h);
  sp_height x : x ∈ head_ :: l ++ r → height h' x = height h x;
  sp_entry x : x ∈ head_ :: l ++ r → entry_of h' x = entry_of h x;
  sp_new_entry : entry_of h' (length h) = e;
  sp_new_height : height h' (length h) = lvl;
  sp_new_fwd i : i < lvl → fwd h' (length h) i = Some (next_at h i r);
  sp_fwd y i : y ∈ head_ :: l ++ r →
    fwd h' y i = if decide (i < lvl ∧ y = last_at h i head_ l)
                 then Some (Some (length h)) else fwd h y i;
}.

Lemma link_spliced m l r e lvl update :
  skiplist m (l ++ r) → lvl ≤ max_height_ m →
  (∀ i, i < max_height_ m → update !! i = Some (last_at (heap m) i head_ l)) →
  ∃ h', link (heap m ++ [mkNode e (replicate lvl None)]) update (length (heap m)) 0 lvl = Ok h' ∧
    spliced (heap m) h' l r e lvl.
Proof.
  intros Hm Hlvl Hu. set (h := heap m) in *. set (nd := mkNode e (replicate lvl None)).
  pose proof (sk_valid _ _ Hm) as Hv. fold h in Hv. rewrite Forall_forall in Hv.
  destruct (heap_new h nd) as [Hnh Hne]. simpl in Hnh, Hne. rewrite length_replicate in Hnh.
  assert (∀ i, last_at h i head_ l ∈ head_ :: l ++ r) as Hlast.
  { intros i. apply (elem_of_app (head_ :: l)). left. apply last_at_in. }
  assert (∀ i, i < lvl → i < height h head_) as Hhd.
  { intros i Hi. unfold h. rewrite (sk_head _ _ Hm). lia. }
  destruct (link_spec (h ++ [nd]) update (length h) 0 lvl (λ j, last_at h j head_ l))
    as (h' & Ek & Hss & Hf); [lia| |].
  { intros j Hj. destruct (heap_grow h nd (last_at h j head_ l)) as (-> & _); [by apply Hv|].
    split_and!; [apply Hu; lia|specialize (Hv _ (Hlast j)); lia|].
    apply last_at_height, Hhd. lia. }
  exists h'. split; [done|].
  split; intros; rewrite ?(ss_height _ _ Hss), ?(ss_entry _ _ Hss), ?Hf; auto.
  - rewrite (ss_length _ _ Hss), length_app. simpl. lia.
  - by apply (heap_grow h nd x), Hv.
  - by apply (heap_grow h nd x), Hv.
  - rewrite decide_True, decide_True by (done || lia).
    destruct (heap_grow h nd (last_at h i head_ l)) as (_ & _ & ->); [by apply Hv|].
    apply fwd_last_at; [apply Hm|auto].
  - rewrite (decide_False (P := y = length h)) by (specialize (Hv y); naive_solver lia).
    destruct (heap_grow h nd y) as (_ & _ & ->); [by apply Hv|].
    repeat case_decide; done || naive_solver lia.
Qed.

Lemma spliced_entries h h' l r e lvl :
  spliced h h' l r e lvl →
  Forall (λ y, key_less (entry_of h y) (e_key e) (e_seq e) = true) l →
  Forall (λ y, key_less (entry_of h y) (e_key e) (e_seq e) = false) r →
  (entry_of h' <$> l ++ length h :: r) = insert_entry e (entry_of h <$> l ++ r).
Proof.
  intros Hsp Hl Hr. rewrite !fmap_app, fmap_cons, (sp_new_entry _ _ _ _ _ _ Hsp).
  rewrite (list_fmap_ext (entry_of h') (entry_of h) l),
    (list_fmap_ext (entry_of h') (entry_of h) r).
  - symmetry. apply insert_entry_app; [by apply Forall_fmap|].
    destruct Hr as [|y r' Hy]; [by left|right]. eexists. split; [done|done].
  - intros i x Hx%list_elem_of_lookup_2. apply (sp_entry _ _ _ _ _ _ Hsp).
    right. apply elem_of_app. by right.
  - intros i x Hx%list_elem_of_lookup_2. apply (sp_entry _ _ _ _ _ _ Hsp).
    right. apply elem_of_app. by left.
Qed.

Lemma spliced_heights m h' l r e lvl cur :
  skiplist m (l ++ r) → spliced (heap m) h' l r e lvl → 1 ≤ lvl →
  current_height_ m ≤ cur → lvl ≤ cur →
  Forall (λ x, 1 ≤ height h' x ≤ cur) (l ++ length (heap m) :: r).
Proof.
  intros Hm Hsp Hl Hc Hlc. pose proof (sk_heights _ _ Hm) as Hh.
  assert (∀ x, x ∈ l ++ r → 1 ≤ height h' x ≤ cur) as Hx.
  { intros x Hx. rewrite (sp_height _ _ _ _ _ _ Hsp) by (by right).
    rewrite Forall_forall in Hh. specialize (Hh _ Hx). simpl in Hh. lia. }
  apply Forall_forall. intros x. rewrite elem_of_app, elem_of_cons.
  intros [?|[->|?]]; [apply Hx, elem_of_app; by left| |apply Hx, elem_of_app; by right].
  rewrite (sp_new_height _ _ _ _ _ _ Hsp). lia.
Qed.

Lemma spliced_linked m h' l r e lvl i :
  skiplist m (l ++ r) → spliced (heap m) h' l r e lvl → 1 ≤ lvl ≤ max_height_ m →
  linked h' i (head_ :: l ++ length (heap m) :: r).
Proof.
  intros Hm Hsp Hl. destruct (Nat.lt_ge_cases i (max_height_ m)) as [Hi|Hi].
  - apply (linked_insert (heap m) h' i head_ l r _ lvl).
    + apply Hm.
    + by rewrite (sk_head _ _ Hm).
    + by eapply sk_nodup.
    + apply (sp_height _ _ _ _ _ _ Hsp).
    + apply (sp_new_height _ _ _ _ _ _ Hsp).
    + apply (sp_new_fwd _ _ _ _ _ _ Hsp).
    + intros y. apply (sp_fwd _ _ _ _ _ _ Hsp).
  - apply linked_high. intros x [->|Hx]%elem_of_cons.
    + rewrite (sp_height _ _ _ _ _ _ Hsp), (sk_head _ _ Hm) by (by left). done.
    + pose proof (spliced_heights m h' l r e lvl (max_height_ m)) as Hh.
      rewrite Forall_forall in Hh. pose proof (sk_cur _ _ Hm).
      specialize (Hh Hm Hsp). assert (1 ≤ height h' x ≤ max_height_ m); [|lia].
      apply Hh; auto; lia.
Qed.

Lemma insert_node_spec m ns e size coins :
  skiplist m ns →
  ∃ m' ns', insert_node m e size coins = Ok m' ∧ skiplist m' ns' ∧
    (entry_of (heap m') <$> ns') = insert_entry e (entry_of (heap m) <$> ns) ∧
    max_height_ m' = max_height_ m ∧ approx_bytes_ m' = u64 (approx_bytes_ m + size).
Proof.
  intros Hm. destruct (split_less (entry_of (heap m)) ns (e_key e) (e_seq e))
    as (l & r & -> & Hl & Hr); [apply Hm|].
  destruct (sk_search m l r (e_key e) (e_seq e)) as (update & Es & Hu); auto.
  pose proof (sk_max _ _ Hm) as Hmax. pose proof (sk_cur _ _ Hm) as Hcur.
  assert (1 ≤ random_level (max_height_ m) 1 coins ≤ max_height_ m) as Hlvl
    by (apply random_level_bounds; lia).
  set (lvl := random_level (max_height_ m) 1 coins) in *.
  destruct (link_spliced m l r e lvl update) as (h' & Ek & Hsp); [done|lia|done|].
  set (cur := if current_height_ m <? lvl then lvl else current_height_ m).
  assert (1 ≤ cur ≤ max_height_ m ∧ current_height_ m ≤ cur ∧ lvl ≤ cur) as Hc.
  { unfold cur. destruct (Nat.ltb_spec (current_height_ m) lvl); lia. }
  pose proof (spliced_entries _ _ _ _ _ _ Hsp Hl Hr) as Hes.
  eexists. exists (l ++ length (heap m) :: r). split_and!.
  { unfold insert_node. rewrite Es. cbn [mbind result_bind snd]. fold lvl.
    rewrite Ek. cbn [mbind result_bind]. fold cur. reflexivity. }
  2-4: done.
  split; simpl; try lia.
  - rewrite (sp_length _ _ _ _ _ _ Hsp), seq_S.
    change (head_ :: l ++ length (heap m) :: r) with ((head_ :: l) ++ length (heap m) :: r).
    rewrite <- Permutation_middle. simpl. rewrite (sk_perm _ _ Hm).
    by rewrite Permutation_cons_append.
  - rewrite (sp_height _ _ _ _ _ _ Hsp) by (by left). apply Hm.
  - eapply spliced_heights; eauto; lia.
  - intros i. by eapply spliced_linked.
  - rewrite Hes. by apply insert_entry_sorted, Hm.
Qed.

(** ** Reading *)

Lemma newest_split k s l r :
  sorted_entries (l ++ r) →
  Forall (λ e, key_less e k s = true) l → Forall (λ e, key_less e k s = false) r →
  newest k s (l ++ r) =
    match r with
    | e :: _ => if bytes_eqb (e_key e) k then Some e else None
    | [] => None
    end.
Proof.
  intros Hs Hl Hr. rewrite newest_app_r.
  2:{ intros e He. rewrite Forall_forall in Hl. apply Hl, key_less_spec in He.
      apply visible_false. destruct He as [?%key_lt_ne|[_ ?]]; auto. }
  destruct r as [|e r]; [done|].
  apply Forall_cons in Hr as [He Hr]. apply key_less_false in He.
  apply StronglySorted_app_1_r in Hs.
  rewrite newest_sorted by done. cbn [List.find]. destruct (bytes_eqb (e_key e) k) eqn:E; key_hyps.
  - destruct He as [He|[_ He]]; [subst; by apply key_lt_irrefl in He|].
    by rewrite (proj2 (visible_spec k s e)).
  - rewrite (proj2 (visible_false k s e)) by auto.
    destruct He as [He|[? _]]; [|done].
    rewrite <- newest_sorted by (by eapply StronglySorted_inv).
    apply newest_None. intros e' He'. apply visible_false. left. intros <-.
    apply StronglySorted_inv in Hs as [_ Hs]. rewrite Forall_forall in Hs.
    specialize (Hs _ He'). apply ent_le_key in Hs.
    eapply key_lt_irrefl, key_lt_le_trans; eauto.
Qed.

Lemma fwd0_last_at m l r :
  skiplist m (l ++ r) → fwd (heap m) (last_at (heap m) 0 head_ l) 0 = Some (head r).
Proof.
  intros Hm. rewrite (fwd_last_at _ _ _ _ r).
  - f_equal. apply next_at_head. pose proof (sk_heights _ _ Hm) as Hh.
    apply Forall_app in Hh as [_ Hh]. eapply Forall_impl; [done|]. simpl. lia.
  - apply Hm.
  - rewrite (sk_head _ _ Hm). apply Hm.
Qed.

(** A seek stops at the first node that is not smaller than the target. *)
Lemma seek_ge_spec m ns k s :
  skiplist m ns →
  ∃ l r, ns = l ++ r ∧ seek_ge m k s = Ok (head r) ∧
    Forall (λ y, key_less (entry_of (heap m) y) k s = true) l ∧
    Forall (λ y, key_less (entry_of (heap m) y) k s = false) r.
Proof.
  intros Hm. destruct (split_less (entry_of (heap m)) ns k s) as (l & r & -> & Hl & Hr);
    [apply Hm|].
  exists l, r. split_and!; auto. unfold seek_ge.
  destruct (sk_search m l r k s) as (update & -> & _); auto.
  cbn [mbind result_bind fst]. by rewrite fwd0_last_at with (r := r).
Qed.

Lemma raw_next_spec m l x r : skiplist m (l ++ x :: r) → raw_next m x = Ok (head r).
Proof.
  intros Hm. unfold raw_next. replace (l ++ x :: r) with ((l ++ [x]) ++ r) in Hm
    by (by rewrite <- (assoc_L (++))).
  pose proof (last_at_app (heap m) 0 head_ l x []) as E. cbn [last_at] in E.
  rewrite <- E.
  - by rewrite fwd0_last_at with (r := r).
  - pose proof (sk_heights _ _ Hm) as Hh. apply Forall_app in Hh as [Hh _].
    apply Forall_app in Hh as [_ Hh]. apply Forall_cons in Hh as [? _]. lia.
Qed.

Lemma deref_spec m ns x : skiplist m ns → x ∈ ns → deref m x = Ok (entry_of (heap m) x).
Proof.
  intros Hm Hx. pose proof (sk_valid _ _ Hm) as Hv. rewrite Forall_forall in Hv.
  destruct (lookup_valid (heap m) x) as (nd & E & En); [apply Hv; by right|].
  unfold deref. by rewrite E, En.
Qed.

Lemma take_while_all es : take_while (λ _, true) es = es.
Proof. induction es; simpl; by f_equal. Qed.

Lemma raw_loop_spec m keep fuel l r :
  skiplist m (l ++ r) → length r ≤ fuel →
  raw_loop fuel m keep (head r) = Ok (take_while keep (entry_of (heap m) <$> r)).
Proof.
  revert fuel l. induction r as [|x r IH]; intros fuel l Hm Hf; [by destruct fuel|].
  destruct fuel as [|fuel]; [simpl in Hf; lia|]. cbn [raw_loop head].
  rewrite (deref_spec m (l ++ x :: r)) by (done || (apply elem_of_app; right; by left)).
  cbn [mbind result_bind fmap list_fmap take_while].
  destruct (keep (entry_of (heap m) x)); [|done].
  rewrite raw_next_spec with (l := l) (r := r) by done. cbn [mbind result_bind].
  rewrite (IH fuel (l ++ [x])); [done| |simpl in Hf; lia].
  by rewrite <- (assoc_L (++)).
Qed.

Lemma skip_versions_spec m cur fuel l x r :
  skiplist m (l ++ x :: r) → length r ≤ fuel →
  ∃ r1 r2, r = r1 ++ r2 ∧ skip_versions fuel m cur x = Ok (head r2) ∧
    first_versions (Some cur) (entry_of (heap m) <$> r) =
    first_versions None (entry_of (heap m) <$> r2).
Proof.
  revert fuel l x. induction r as [|y r IH]; intros fuel l x Hm Hf.
  { exists [], []. destruct fuel; cbn [skip_versions];
      by rewrite raw_next_spec with (l := l) (r := []). }
  assert (skip_versions fuel m cur x =
    if bytes_eqb (e_key (entry_of (heap m) y)) cur
    then match fuel with O => Undefined | S f => skip_versions f m cur y end
    else Ok (Some y)) as ->.
  { destruct fuel; cbn [skip_versions]; rewrite raw_next_spec with (l := l) (r := y :: r) by done;
      cbn [mbind result_bind head];
      by rewrite (deref_spec m (l ++ x :: y :: r))
        by (done || (apply elem_of_app; right; right; by left)). }
  destruct (bytes_eqb (e_key (entry_of (heap m) y)) cur) eqn:E; key_hyps.
  - destruct fuel as [|fuel]; [simpl in Hf; lia|].
    destruct (IH fuel (l ++ [x]) y) as (r1 & r2 & -> & -> & Ef); [|simpl in Hf; lia|].
    { by rewrite <- (assoc_L (++)). }
    exists (y :: r1), r2. split_and!; [done|done|]. rewrite <- Ef.
    rewrite fmap_cons. cbn [first_versions]. by rewrite decide_True by congruence.
  - exists [], (y :: r). split_and!; [done|done|]. rewrite fmap_cons. cbn [first_versions].
    by rewrite !decide_False by congruence.
Qed.

Lemma iter_loop_spec m fuel l r :
  skiplist m (l ++ r) → length r ≤ fuel →
  iter_loop fuel m (head r) = Ok (first_versions None (entry_of (heap m) <$> r)).
Proof.
  revert l r. induction fuel as [|fuel IH]; intros l [|x r] Hm Hf; try done.
  { simpl in Hf. lia. }
  cbn [iter_loop head].
  rewrite (deref_spec m (l ++ x :: r)) by (done || (apply elem_of_app; right; by left)).
  cbn [mbind result_bind].
  destruct (skip_versions_spec m (e_key (entry_of (heap m) x)) (length (heap m)) l x r)
    as (r1 & r2 & -> & -> & Ef); [done| |].
  { pose proof (sk_length _ _ Hm). len_lia. }
  cbn [mbind result_bind]. rewrite (IH (l ++ x :: r1)).
  - rewrite fmap_cons. cbn [first_versions mbind result_bind].
    rewrite decide_False by done. by rewrite Ef.
  - by rewrite <- (assoc_L (++)).
  - len_lia.
Qed.

(** ** Freeing the nodes *)

(** Freeing the nodes of [r] one after the other from the first one on, with
    those of [l] freed already. *)
Definition freed (h : list Node) (l : list nat) : list (option Node) :=
  foldl (λ h' x, <[x := None]> h') (Some <$> h) l.

Lemma freed_lookup h l x : x ∉ l → freed h l !! x = (Some <$> h !! x).
Proof.
  unfold freed. rewrite <- list_lookup_fmap. generalize (Some <$> h). induction l as [|y l IH]; [done|].
  intros h' [Hne Hx]%not_elem_of_cons. simpl. rewrite IH by done. by apply list_lookup_insert_ne.
Qed.

Lemma freed_length h l : length (freed h l) = length h.
Proof.
  unfold freed. rewrite <- (length_fmap Some h). generalize (Some <$> h).
  induction l as [|y l IH]; intros h'; simpl; [done|]. by rewrite IH, length_insert.
Qed.

Lemma freed_None h l x : x ∈ l → x < length h → freed h l !! x = Some None.
Proof.
  intros Hx Hlt. induction l as [|y l IH] using rev_ind; [by apply elem_of_nil in Hx|].
  unfold freed. rewrite foldl_app. fold (freed h l). simpl.
  destruct (decide (x = y)) as [->|Hne].
  - apply list_lookup_insert_eq. by rewrite freed_length.
  - rewrite list_lookup_insert_ne by done. apply IH. set_solver.
Qed.

Lemma delete_loop_spec m ns l r :
  skiplist m ns → head_ :: ns = l ++ r →
  delete_loop (length r) (freed (heap m) l) (head r) = Ok (freed (heap m) (head_ :: ns)).
Proof.
  intros Hm. revert l. induction r as [|x r IH]; intros l E.
  { simpl. by rewrite E, app_nil_r. }
  pose proof (sk_nodup _ _ Hm) as Hnd. rewrite E in Hnd. apply NoDup_app in Hnd as (_ & Hd & _).
  assert (fwd (heap m) x 0 = Some (head r)) as Hx.
  { destruct l as [|y l]; injection E as E1 E2; subst ns; [subst x|].
    - by apply (fwd0_last_at m []).
    - pose proof (raw_next_spec m l x r Hm) as Hn. unfold raw_next in Hn. case_match; congruence. }
  simpl. rewrite freed_lookup by (intros Hin; apply (Hd x Hin); by left).
  unfold fwd in Hx. destruct (heap m !! x) as [nd|]; [|done]. simpl in *. rewrite Hx.
  specialize (IH (l ++ [x])). unfold freed in IH at 1. rewrite foldl_app in IH. apply IH.
  by rewrite <- (assoc_L (++)).
Qed.

Lemma delete_represents m es :
  represents m es → Memtable_delete m = Ok (replicate (length (heap m)) None).
Proof.
  intros (ns & Hm & _). unfold Memtable_delete. pose proof (delete_loop_spec m ns [] (head_ :: ns) Hm eq_refl) as E.
  cbn [length head] in E. rewrite <- (sk_length _ _ Hm) in E. unfold freed in E at 1. cbn [foldl] in E.
  rewrite E. f_equal.
  apply list_eq_same_length with (length (heap m)); [by rewrite length_replicate|apply freed_length|].
  intros i a b Hi Ha Hb. rewrite freed_None in Ha; [|by rewrite (sk_perm _ _ Hm), elem_of_seq; lia|done].
  apply lookup_replicate in Hb as [-> _]. by injection Ha as <-.
Qed.

(** ** The represented list *)

Lemma represents_new max_height : 1 ≤ max_height → represents (Memtable_new max_height) [].
Proof.
  intros Hm. exists []. split; [|done]. split; simpl; try done.
  - unfold height. simpl. apply length_replicate.
  - unfold height, fwd. simpl. rewrite length_replicate. intros i. split; [|done].
    intros. by apply lookup_replicate_2.
  - constructor.
Qed.

Lemma represents_sorted m es : represents m es → sorted_entries es.
Proof. intros (ns & Hm & ->). apply Hm. Qed.

Lemma put_represents m es k v s coins :
  represents m es →
  ∃ m', put m k v s coins = Ok m' ∧
    represents m' (insert_entry (mkEntry k v false s) es) ∧
    approx_bytes_ m' = u64 (approx_bytes_ m + (blen k + blen v + 64)).
Proof.
  intros (ns & Hm & ->).
  destruct (insert_node_spec m ns (mkEntry k v false s) (blen k + blen v + kNodeOverhead) coins Hm)
    as (m' & ns' & E & Hm' & Hes & _ & Ha).
  exists m'. split_and!; [done| |done]. by exists ns'.
Qed.

Lemma del_represents m es k s coins :
  represents m es →
  ∃ m', del m k s coins = Ok m' ∧
    represents m' (insert_entry (mkEntry k [] true s) es) ∧
    approx_bytes_ m' = u64 (approx_bytes_ m + (blen k + 64)).
Proof.
  intros (ns & Hm & ->).
  destruct (insert_node_spec m ns (mkEntry k [] true s) (blen k + kNodeOverhead) coins Hm)
    as (m' & ns' & E & Hm' & Hes & _ & Ha).
  exists m'. split_and!; [done| |done]. by exists ns'.
Qed.

Lemma lookup_represents m es k s :
  represents m es → lookup m k s = Ok (lookup_ref es k s).
Proof.
  intros (ns & Hm & ->). unfold lookup, lookup_ref.
  destruct (seek_ge_spec m ns k s Hm) as (l & r & -> & -> & Hl & Hr).
  rewrite fmap_app, newest_split; [|rewrite <- fmap_app; apply Hm|by apply Forall_fmap..].
  cbn [mbind result_bind]. destruct r as [|x r]; [done|]. cbn [head fmap list_fmap].
  pose proof (sk_valid _ _ Hm) as Hv. rewrite Forall_forall in Hv.
  destruct (lookup_valid (heap m) x) as (nd & -> & ->).
  { apply Hv. right. apply elem_of_app. right. by left. }
  by destruct (bytes_eqb _ _); simpl; [destruct (e_tombstone _)|].
Qed.

Lemma raw_begin_spec m ns : skiplist m ns → raw_begin m = Ok (head ns).
Proof.
  intros Hm. unfold raw_begin. pose proof (fwd0_last_at m [] ns Hm) as E.
  cbn [last_at] in E. by rewrite E.
Qed.

Lemma raw_entries_represents m es : represents m es → raw_entries m = Ok es.
Proof.
  intros (ns & Hm & ->). unfold raw_entries. rewrite (raw_begin_spec m ns Hm).
  cbn [mbind result_bind]. rewrite (raw_loop_spec m _ _ [] ns); [|done|].
  - by rewrite take_while_all.
  - rewrite (sk_length _ _ Hm). lia.
Qed.

(** ** Ranges *)

Lemma key_less_max e k : (e_seq e ≤ u64_max)%Z → key_less e k u64_max = bytes_ltb (e_key e) k.
Proof.
  intros. unfold key_less, bytes_ltb. destruct (bytes_compare _ _); [|done..].
  apply Z.ltb_ge. done.
Qed.

Lemma take_while_filter k es :
  sorted_entries es →
  take_while (λ e, bytes_leb (e_key e) k) es = List.filter (λ e, bytes_leb (e_key e) k) es.
Proof.
  induction 1 as [|e es Hs IH He]; simpl; [done|].
  destruct (bytes_leb (e_key e) k) eqn:E; [by f_equal|]. symmetry. key_hyps.
  apply filter_none. intros e' He'. rewrite Forall_forall in He.
  apply bytes_leb_gt. eapply key_lt_le_trans; [done|]. by apply ent_le_key, He.
Qed.

Lemma lower_bound_filter m l r key :
  Forall (λ e, e_seq e ≤ u64_max)%Z (entry_of (heap m) <$> l ++ r) →
  Forall (λ y, key_less (entry_of (heap m) y) key u64_max = true) l →
  Forall (λ y, key_less (entry_of (heap m) y) key u64_max = false) r →
  entry_of (heap m) <$> r =
    List.filter (λ e, bytes_leb key (e_key e)) (entry_of (heap m) <$> l ++ r).
Proof.
  intros Hs Hl Hr. rewrite Forall_fmap, Forall_app, !Forall_forall in Hs. destruct Hs as [Hsl Hsr].
  rewrite Forall_forall in Hl, Hr. rewrite fmap_app, List.filter_app, filter_none, filter_all; [done|..].
  - intros e (x & -> & Hx)%list_elem_of_fmap. specialize (Hr _ Hx). cbv beta in Hr.
    rewrite key_less_max in Hr by (by apply Hsr). key_hyps. by apply bytes_leb_le.
  - intros e (x & -> & Hx)%list_elem_of_fmap. specialize (Hl _ Hx). cbv beta in Hl.
    rewrite key_less_max in Hl by (by apply Hsl). key_hyps. by apply bytes_leb_gt.
Qed.

Lemma raw_range_represents m es start stop :
  represents m es → Forall (λ e, e_seq e ≤ u64_max)%Z es →
  raw_range m start stop =
    Ok (List.filter (λ e, bytes_leb start (e_key e) && bytes_leb (e_key e) stop) es).
Proof.
  intros (ns & Hm & ->) Hseq. unfold raw_range, raw_lower_bound.
  destruct (seek_ge_spec m ns start u64_max Hm) as (l & r & -> & -> & Hl & Hr).
  cbn [mbind result_bind]. rewrite (raw_loop_spec m _ _ l r Hm);
    [|pose proof (sk_length _ _ Hm); len_lia].
  rewrite take_while_filter.
  - by rewrite (lower_bound_filter m l r start), filter_filter_andb.
  - eapply (StronglySorted_app_1_r _ (entry_of (heap m) <$> l)). rewrite <- fmap_app. apply Hm.
Qed.

Lemma iter_from_represents m es key :
  represents m es → Forall (λ e, e_seq e ≤ u64_max)%Z es →
  iter_from m key = Ok (first_versions None (List.filter (λ e, bytes_leb key (e_key e)) es)).
Proof.
  intros (ns & Hm & ->) Hs. unfold iter_from, lower_bound.
  destruct (seek_ge_spec m ns key u64_max Hm) as (l & r & -> & -> & Hl & Hr). cbn [mbind result_bind].
  rewrite (iter_loop_spec m _ l r Hm); [|pose proof (sk_length _ _ Hm); len_lia].
  by rewrite (lower_bound_filter m l r key).
Qed.

(** ** Histories *)

Lemma run_op_represents m es oc :
  represents m es →
  ∃ m', run_op m oc = Ok m' ∧ represents m' (insert_entry (op_entry oc.1) es).
Proof.
  intros Hm. destruct oc as [[k v s|k s] coins]; unfold run_op; simpl.
  - destruct (put_represents m es k v s coins Hm) as (m' & ? & ? & _). by exists m'.
  - destruct (del_represents m es k s coins Hm) as (m' & ? & ? & _). by exists m'.
Qed.

Lemma run_ops_represents m es ops :
  represents m es →
  ∃ m' es', run_ops m ops = Ok m' ∧ represents m' es' ∧
    es' ≡ₚ (op_entry ∘ fst <$> ops) ++ es.
Proof.
  revert m es. induction ops as [|oc ops IH]; intros m es Hm; [by exists m, es|].
  destruct (run_op_represents m es oc Hm) as (m1 & E1 & H1).
  destruct (IH m1 _ H1) as (m2 & es2 & E2 & H2 & Hp).
  exists m2, es2. cbn [run_ops]. rewrite E1. cbn [mbind result_bind].
  split_and!; [done|done|]. rewrite Hp, insert_entry_perm, fmap_cons. simpl.
  by rewrite Permutation_middle.
Qed.

(** * Properties *)

(** C19. For every table that represents a list of versions and every
    outcome of the coin tosses, [put] and [del] return (no pointer is followed
    out of bounds and both loops end) a table that represents the list with the
    new version inserted in key-ascending, sequence-descending position, for
    [del] a tombstone with no value, and add the key and value sizes plus the
    node overhead to [approx_bytes]. *)
Theorem memtable_put_correct (m : Memtable) (es : list Entry) (k v : bytes) (s : Z)
    (coins : list bool) (Hm : represents m es) :
  (∃ m', put m k v s coins = Ok m' ∧
    represents m' (insert_entry (mkEntry k v false s) es) ∧
    sorted_entries (insert_entry (mkEntry k v false s) es) ∧
    approx_bytes m' = u64 (approx_bytes m + (blen k + blen v + 64))) ∧
  (∃ m', del m k s coins = Ok m' ∧
    represents m' (insert_entry (mkEntry k [] true s) es) ∧
    sorted_entries (insert_entry (mkEntry k [] true s) es) ∧
    approx_bytes m' = u64 (approx_bytes m + (blen k + 64))).
Proof.
  split.
  - destruct (put_represents m es k v s coins Hm) as (m' & ? & Hr & ?).
    exists m'. split_and!; eauto using represents_sorted.
  - destruct (del_represents m es k s coins Hm) as (m' & ? & Hr & ?).
    exists m'. split_and!; eauto using represents_sorted.
Qed.

(** C18. [lookup] at a snapshot returns, on every branch, what the reference
    lookup returns: the visible version with the highest sequence number, its
    deletion, or nothing. *)
Theorem memtable_lookup_correct (m : Memtable) (es : list Entry) (k : bytes) (s : Z)
    (Hm : represents m es) :
  lookup m k s = Ok (lookup_ref es k s).
Proof. by apply lookup_represents. Qed.

(** Any sequence of [put] and [del] calls on a fresh table of any height,
    with any coin tosses, runs to completion, and afterwards every lookup
    answers from the versions those calls wrote, whatever order they came in:
    the skiplist is a faithful multi-version map. *)
Theorem memtable_history (max_height : nat) (ops : list (memop * list bool))
    (Hmax : 1 ≤ max_height) (Hu : versions_unique (op_entry ∘ fst <$> ops)) :
  ∃ m, run_ops (Memtable_new max_height) ops = Ok m ∧
    ∀ k s, lookup m k s = Ok (lookup_ref (op_entry ∘ fst <$> ops) k s).
Proof.
  destruct (run_ops_represents (Memtable_new max_height) [] ops) as (m & es & E & Hm & Hp).
  { by apply represents_new. }
  exists m. split; [done|]. intros k s. rewrite (lookup_represents m es) by done.
  unfold lookup_ref. rewrite app_nil_r in Hp. by rewrite (newest_permutation _ _ _ _ Hu Hp).
Qed.

(** A range walk from [raw_lower_bound(start)] up to the first key above
    [stop] collects exactly the versions with keys in the closed range, in
    order. *)
Theorem memtable_range_correct (m : Memtable) (es : list Entry) (start stop : bytes)
    (Hm : represents m es) (Hs : Forall (λ e, e_seq e ≤ u64_max)%Z es) :
  raw_range m start stop =
    Ok (List.filter (λ e, bytes_leb start (e_key e) && bytes_leb (e_key e) stop) es).
Proof. by apply raw_range_represents. Qed.

(** The default iterator from [lower_bound(key)] to [end()] visits the newest
    version of every key from [key] on, in the order of the keys. *)
Theorem memtable_iter_correct (m : Memtable) (es : list Entry) (key : bytes)
    (Hm : represents m es) (Hs : Forall (λ e, e_seq e ≤ u64_max)%Z es) :
  iter_from m key = Ok (first_versions None (List.filter (λ e, bytes_leb key (e_key e)) es)).
Proof. by apply iter_from_represents. Qed.

(** C35. The destructor frees every node exactly once and reads no node that it
    has freed. *)
Theorem memtable_delete_correct (m : Memtable) (es : list Entry) (Hm : represents m es) :
  Memtable_delete m = Ok (replicate (length (heap m)) None).
Proof. by apply (delete_represents m es). Qed.

(** ** A concrete table *)

Definition ex_ops : list (memop * list bool) :=
  [(OpPut (bs "k") (bs "v1") 1, [true]); (OpPut (bs "a") (bs "x") 2, []);
   (OpDel (bs "k") 3, [true; true; true; true]); (OpPut (bs "k") (bs "v4") 4, [false])].

Definition ex_memtable : Memtable :=
  match run_ops (Memtable_new 4) ex_ops with Ok m => m | _ => Memtable_new 4 end.

Definition ex_entries : list Entry :=
  [mkEntry (bs "a") (bs "x") false 2; mkEntry (bs "k") (bs "v4") false 4;
   mkEntry (bs "k") [] true 3; mkEntry (bs "k") (bs "v1") false 1].

Lemma ex_memtable_represents : represents ex_memtable ex_entries.
Proof.
  destruct (run_ops_represents (Memtable_new 4) [] ex_ops) as (m & es & E & Hm & _);
    [apply represents_new; lia|].
  assert (m = ex_memtable) as -> by (unfold ex_memtable; by rewrite E).
  assert (raw_entries ex_memtable = Ok ex_entries) as E' by (vm_compute; reflexivity).
  rewrite (raw_entries_represents _ _ Hm) in E'. by injection E' as ->.
Qed.

Lemma memtable_put_witness :
  (∃ m', put ex_memtable (bs "b") (bs "y") 5 [true] = Ok m' ∧
    approx_bytes m' = u64 (approx_bytes ex_memtable + 66)) ∧
  (∃ m', del ex_memtable (bs "b") 5 [true] = Ok m' ∧ approx_bytes m' = u64 (approx_bytes ex_memtable + 65)).
Proof.
  destruct (memtable_put_correct ex_memtable ex_entries (bs "b") (bs "y") 5 [true]
    ex_memtable_represents) as [(m1 & E1 & _ & _ & Ha1) (m2 & E2 & _ & _ & Ha2)].
  split; [exists m1; split; [exact E1|exact Ha1]|exists m2; split; [exact E2|exact Ha2]].
Defined.

Lemma memtable_lookup_witness :
  lookup ex_memtable (bs "k") 3 = Ok Deleted ∧
  lookup ex_memtable (bs "k") 2 = Ok (Found (bs "v1")).
Proof.
  split.
  - exact (memtable_lookup_correct ex_memtable ex_entries (bs "k") 3 ex_memtable_represents).
  - exact (memtable_lookup_correct ex_memtable ex_entries (bs "k") 2 ex_memtable_represents).
Defined.

Lemma memtable_history_witness :
  ∃ m, run_ops (Memtable_new 4) ex_ops = Ok m ∧ lookup m (bs "k") 9 = Ok (Found (bs "v4")).
Proof.
  destruct (memtable_history 4 ex_ops) as (m & E & Hl).
  - lia.
  - apply versions_unique_nodup. apply (bool_decide_unpack _). vm_compute. exact I.
  - exists m. split; [exact E|]. exact (Hl (bs "k") 9%Z).
Defined.

Lemma memtable_range_witness :
  raw_range ex_memtable (bs "b") (bs "z") = Ok (drop 1 ex_entries).
Proof.
  refine (memtable_range_correct ex_memtable ex_entries (bs "b") (bs "z")
    ex_memtable_represents _).
  repeat constructor; vm_compute; discriminate.
Defined.

Lemma memtable_iter_witness :
  iter_from ex_memtable (bs "b") = Ok [mkEntry (bs "k") (bs "v4") false 4].
Proof.
  refine (memtable_iter_correct ex_memtable ex_entries (bs "b") ex_memtable_represents _).
  repeat constructor; vm_compute; discriminate.
Defined.

Lemma memtable_delete_witness : Memtable_delete ex_memtable = Ok (replicate 5 None).
Proof. exact (memtable_delete_correct ex_memtable ex_entries ex_memtable_represents). Defined.
