(* ===== verification/Wal.v ===== *)
(** The write-ahead log of src/include/keystone/wal.h and src/src/wal.cpp:
    record encoding, append, group append, and replay after a crash. *)

From S2P Require Import Prelude Coding Crc32.
Local Open Scope Z_scope.

(** * Definitions *)

(** [enum class RecType : uint8_t]: replay casts any byte to it. *)
Abbreviation RecType := byte.
Definition RecPut : RecType := Byte.x01.
Definition RecDelete : RecType := Byte.x02.

Inductive SyncMode : Type := EveryWrite | Batched.

#[export] Instance SyncMode_eq_dec : EqDecision SyncMode.
Proof. solve_decision. Defined.

Record WalRecord := mkRecord {
  r_type : RecType;
  r_seq : Z;
  r_key : bytes;
  r_value : bytes;
}.

Record WAL := mkWAL {
  wal_file : File;
  mode_ : SyncMode;
  fsync_count_ : Z;
}.

(** [WAL::open] on a file with this content ([O_APPEND]). *)
Definition wal_open (f : File) (mode : SyncMode) : WAL :=
  {| wal_file := f; mode_ := mode; fsync_count_ := 0 |}.

(** The body of a record, from its type byte on. *)
Definition record_body (r : WalRecord) : bytes :=
  [r_type r] ++ put_u64_le (r_seq r) ++
  put_u32_le (u32 (blen (r_key r))) ++ put_u32_le (u32 (blen (r_value r))) ++
  r_key r ++ r_value r.

Definition encode_record (r : WalRecord) : bytes :=
  put_u32_le (crc32 (record_body r)) ++ record_body r.

Definition encode_records (rs : list WalRecord) : bytes := mjoin (encode_record <$> rs).

Section WalOps.
Context `{Posix}.

(** The tail of [append] and [append_batch]: write, then sync. *)
Definition wal_write (w : WAL) (buf : bytes) : WAL * io_status :=
  let r := write_fully (wal_file w) buf in
  match r.2 with
  | IoDone =>
      match mode_ w with
      | EveryWrite =>
          ({| wal_file := durable_sync r.1; mode_ := mode_ w;
              fsync_count_ := u64 (fsync_count_ w + 1) |}, IoDone)
      | Batched =>
          ({| wal_file := r.1; mode_ := mode_ w; fsync_count_ := fsync_count_ w |}, IoDone)
      end
  | st =>
      ({| wal_file := r.1; mode_ := mode_ w; fsync_count_ := fsync_count_ w |}, st)
  end.

Definition append (w : WAL) (type : RecType) (s : Z) (key value : bytes) : WAL * io_status :=
  wal_write w (encode_record (mkRecord type s key value)).

Definition append_batch (w : WAL) (records : list WalRecord) : WAL * io_status :=
  match records with
  | [] => (w, IoDone)
  | _ => wal_write w (encode_records records)
  end.

Definition wal_sync (w : WAL) : WAL :=
  {| wal_file := durable_sync (wal_file w); mode_ := mode_ w; fsync_count_ := fsync_count_ w |}.

(** The limit on the lengths replay accepts. *)
Definition kMaxLen : Z := 64 * 1024 * 1024.

(** [n > 0 && !read_fully(...)]: nothing is read for an empty string. *)
Definition read_opt (rest : bytes) (n : Z) : option (bytes * bytes) :=
  if 0 <? n then read_fully rest (Z.to_nat n) else Some ([], rest).

(** The checks after the header of a record has been read: lengths, key and
    value bytes, checksum. *)
Definition replay_body (stored_crc : Z) (header rest : bytes) : option (WalRecord * bytes) :=
  let s := get_u64_le (drop 1 header) in
  let keylen := get_u32_le (drop 9 header) in
  let vallen := get_u32_le (drop 13 header) in
  if (kMaxLen <? keylen) || (kMaxLen <? vallen) then None else
  match read_opt rest keylen with
  | None => None
  | Some (key, rest1) =>
      match read_opt rest1 vallen with
      | None => None
      | Some (value, rest2) =>
          if negb (crc32 (header ++ key ++ value) =? stored_crc) then None
          else Some (mkRecord (nth 0 header Byte.x00) s key value, rest2)
      end
  end.

(** One round of the loop of [replay]; [None] is [break]. *)
Definition replay_one (rest : bytes) : option (WalRecord * bytes) :=
  match read_fully rest 4 with
  | None => None
  | Some (crc_buf, rest1) =>
      match read_fully rest1 17 with
      | None => None
      | Some (header, rest2) => replay_body (get_u32_le crc_buf) header rest2
      end
  end.

Fixpoint replay_loop (fuel : nat) (rest : bytes) : list WalRecord :=
  match fuel with
  | O => []
  | S fuel' =>
      match replay_one rest with
      | None => []
      | Some (r, rest') => r :: replay_loop fuel' rest'
      end
  end.

(** [replay]: every round that goes on consumes a byte, so the length of the
    file bounds the number of rounds.  A missing file gives no records. *)
Definition replay (file : option bytes) : list WalRecord :=
  match file with
  | None => []
  | Some data => replay_loop (S (length data)) data
  end.

End WalOps.

(** A record replay can read back: a 64-bit number and lengths within the
    limit. *)
Definition record_ok (r : WalRecord) : Prop :=
  0 ≤ r_seq r < 2 ^ 64 ∧ blen (r_key r) ≤ kMaxLen ∧ blen (r_value r) ≤ kMaxLen.

(** * Lemmas *)

Lemma length_record_body r :
  length (record_body r) = (17 + length (r_key r) + length (r_value r))%nat.
Proof. unfold record_body. autorewrite with ks_len. simpl. lia. Qed.

Lemma length_encode_record r :
  length (encode_record r) = (21 + length (r_key r) + length (r_value r))%nat.
Proof. unfold encode_record. autorewrite with ks_len. rewrite length_record_body. lia. Qed.

Lemma encode_records_cons r rs : encode_records (r :: rs) = encode_record r ++ encode_records rs.
Proof. done. Qed.

Lemma encode_records_app rs rs' :
  encode_records (rs ++ rs') = encode_records rs ++ encode_records rs'.
Proof. unfold encode_records. by rewrite fmap_app, join_app. Qed.

(** The header of a record as replay cuts it out. *)
Lemma record_body_header r :
  record_body r = ([r_type r] ++ put_u64_le (r_seq r) ++
    put_u32_le (u32 (blen (r_key r))) ++ put_u32_le (u32 (blen (r_value r)))) ++
    (r_key r ++ r_value r).
Proof. unfold record_body. by rewrite !(assoc_L (++)). Qed.

Lemma read_opt_app `{PosixOk} (a b : bytes) n : n = blen a → read_opt (a ++ b) n = Some (a, b).
Proof.
  intros ->. unfold read_opt, blen. destruct (Z.ltb_spec 0 (Z.of_nat (length a))).
  - by rewrite read_fully_app by lia.
  - by destruct a; [|simpl in *; lia].
Qed.

Lemma read_opt_short `{PosixOk} (a : bytes) n : blen a < n → read_opt a n = None.
Proof.
  intros. unfold read_opt, blen in *. rewrite (proj2 (Z.ltb_lt _ _)) by lia.
  apply read_fully_short. lia.
Qed.

(** The five fields replay decodes from a header. *)
Definition header (ty : RecType) (s kl vl : Z) : bytes :=
  [ty] ++ put_u64_le s ++ put_u32_le kl ++ put_u32_le vl.

Lemma header_fields ty s kl vl :
  nth 0 (header ty s kl vl) Byte.x00 = ty ∧
  get_u64_le (drop 1 (header ty s kl vl)) = u64 s ∧
  get_u32_le (drop 9 (header ty s kl vl)) = u32 kl ∧
  get_u32_le (drop 13 (header ty s kl vl)) = u32 vl.
Proof.
  unfold header. split_and!; [done|..].
  - change (drop 1 _) with (put_u64_le s ++ put_u32_le kl ++ put_u32_le vl).
    apply get_put_u64_le.
  - change (drop 9 _) with (put_u32_le kl ++ put_u32_le vl). apply get_put_u32_le.
  - change (drop 13 _) with (put_u32_le vl ++ []). apply get_put_u32_le.
Qed.

(** What a round of replay does once checksum and header are in. *)
Lemma replay_one_split `{PosixOk} crc (hd rest : bytes) :
  length hd = 17%nat →
  replay_one (put_u32_le crc ++ hd ++ rest) = replay_body (u32 crc) hd rest.
Proof.
  intros Hl. unfold replay_one. rewrite read_fully_app by done.
  rewrite read_fully_app by done.
  by rewrite get_put_u32_le'.
Qed.

Lemma replay_body_header `{Posix} crc ty s kl vl rest :
  0 ≤ kl ≤ kMaxLen → 0 ≤ vl ≤ kMaxLen →
  replay_body crc (header ty s kl vl) rest =
  match read_opt rest kl with
  | None => None
  | Some (key, rest1) =>
      match read_opt rest1 vl with
      | None => None
      | Some (value, rest2) =>
          if negb (crc32 (header ty s kl vl ++ key ++ value) =? crc) then None
          else Some (mkRecord ty (u64 s) key value, rest2)
      end
  end.
Proof.
  intros Hk Hv. unfold replay_body.
  destruct (header_fields ty s kl vl) as (-> & -> & -> & ->).
  rewrite !u32_small by (unfold kMaxLen in *; lia).
  by rewrite !(proj2 (Z.ltb_ge _ _)) by lia.
Qed.

Lemma max_u32 (b : bytes) : blen b ≤ kMaxLen → blen b < 2 ^ 32.
Proof. unfold kMaxLen. lia. Qed.

Lemma blen_max (b : bytes) : blen b ≤ kMaxLen → 0 ≤ blen b ≤ kMaxLen.
Proof. pose proof (blen_nonneg b). lia. Qed.

(** The same for any header whose length fields are those of what follows. *)
Lemma replay_body_full `{PosixOk} crc (hd key value rest : bytes) :
  get_u32_le (drop 9 hd) = blen key → get_u32_le (drop 13 hd) = blen value →
  blen key ≤ kMaxLen → blen value ≤ kMaxLen →
  replay_body crc hd (key ++ value ++ rest) =
    if crc32 (hd ++ key ++ value) =? crc
    then Some (mkRecord (nth 0 hd Byte.x00) (get_u64_le (drop 1 hd)) key value, rest) else None.
Proof.
  intros Ek Ev Hk Hv. unfold replay_body. rewrite Ek, Ev.
  rewrite !(proj2 (Z.ltb_ge _ _)) by lia. cbn [orb].
  rewrite read_opt_app by done. rewrite read_opt_app by done. by destruct (_ =? _).
Qed.

(** The record as checksum, header, key, value. *)
Lemma encode_record_split r :
  blen (r_key r) < 2 ^ 32 → blen (r_value r) < 2 ^ 32 →
  let hd := header (r_type r) (r_seq r) (blen (r_key r)) (blen (r_value r)) in
  record_body r = hd ++ r_key r ++ r_value r ∧
  encode_record r = put_u32_le (crc32 (hd ++ r_key r ++ r_value r)) ++ hd ++ r_key r ++ r_value r.
Proof.
  intros Hk Hv. unfold encode_record. rewrite record_body_header.
  by rewrite !u32_small by (split; [apply blen_nonneg|done]).
Qed.

Lemma replay_one_ok `{PosixOk} r rest :
  record_ok r → replay_one (encode_record r ++ rest) = Some (r, rest).
Proof.
  intros (Hs & Hk & Hv). destruct (encode_record_split r (max_u32 _ Hk) (max_u32 _ Hv)) as [_ ->].
  pose proof (blen_max _ Hk). pose proof (blen_max _ Hv).
  destruct (header_fields (r_type r) (r_seq r) (blen (r_key r)) (blen (r_value r)))
    as (E0 & E1 & E2 & E3). rewrite u32_small in E2, E3 by (unfold kMaxLen in *; lia).
  rewrite <- !(assoc_L (++)), replay_one_split, replay_body_full by done.
  rewrite crc32_u32, Z.eqb_refl, E0, E1, u64_small by done. by destruct r.
Qed.

(** A record cut anywhere is not returned. *)
Lemma replay_one_torn `{PosixOk} r p :
  record_ok r → p `prefix_of` encode_record r → (length p < length (encode_record r))%nat →
  replay_one p = None.
Proof.
  intros (Hs & Hk & Hv) Hp Hlt. rewrite length_encode_record in Hlt.
  destruct (encode_record_split r (max_u32 _ Hk) (max_u32 _ Hv)) as [_ E]. rewrite E in Hp. clear E.
  set (hd := header _ _ _ _) in *.
  destruct (Nat.lt_ge_cases (length p) 4).
  { unfold replay_one. by rewrite read_fully_short. }
  apply prefix_app_cut in Hp as (p1 & -> & Hp); [|done].
  rewrite length_app in Hlt. simpl in Hlt.
  destruct (Nat.lt_ge_cases (length p1) 17).
  { unfold replay_one. rewrite read_fully_app by done. by rewrite read_fully_short. }
  apply prefix_app_cut in Hp as (p2 & -> & Hp); [|done]. rewrite replay_one_split by done.
  rewrite length_app in Hlt. simpl in Hlt.
  unfold hd. rewrite replay_body_header by (by apply blen_max).
  destruct (Nat.lt_ge_cases (length p2) (length (r_key r))).
  { by rewrite read_opt_short by (unfold blen; lia). }
  apply prefix_app_cut in Hp as (p3 & -> & Hp); [|done]. rewrite read_opt_app by done.
  rewrite length_app in Hlt. by rewrite read_opt_short by (unfold blen; lia).
Qed.

(** ** Whole logs *)

Lemma length_encode_records rs : (length rs ≤ length (encode_records rs))%nat.
Proof.
  induction rs as [|r rs IH]; [done|]. rewrite encode_records_cons, length_app.
  rewrite length_encode_record. simpl. lia.
Qed.

Lemma replay_loop_records `{PosixOk} fuel rs tail :
  Forall record_ok rs → replay_one tail = None → (length rs < fuel)%nat →
  replay_loop fuel (encode_records rs ++ tail) = rs.
Proof.
  intros Hok Ht. revert fuel. induction Hok as [|r rs Hr Hok IH]; intros [|fuel] Hf;
    try (simpl in Hf; lia); cbn [replay_loop].
  - change (encode_records [] ++ tail) with tail. by rewrite Ht.
  - rewrite encode_records_cons, <- (assoc_L (++)), replay_one_ok by done.
    f_equal. apply IH. simpl in Hf. lia.
Qed.

(** Complete records are returned up to the first that replay refuses. *)
Lemma replay_records `{PosixOk} rs tail :
  Forall record_ok rs → replay_one tail = None →
  replay (Some (encode_records rs ++ tail)) = rs.
Proof.
  intros. apply replay_loop_records; [done..|].
  pose proof (length_encode_records rs). rewrite length_app. lia.
Qed.

Lemma replay_one_nil `{PosixOk} : replay_one [] = None.
Proof. unfold replay_one. by rewrite read_fully_short by (simpl; lia). Qed.

(** Where a prefix of a log ends. *)
Lemma prefix_of_log rs p :
  p `prefix_of` encode_records rs →
  ∃ n tail, p = encode_records (take n rs) ++ tail ∧ (n ≤ length rs)%nat ∧
    match rs !! n with
    | Some r => tail `prefix_of` encode_record r ∧ (length tail < length (encode_record r))%nat
    | None => tail = []
    end.
Proof.
  revert p. induction rs as [|r rs IH]; intros p Hp.
  { apply prefix_nil_inv in Hp as ->. by exists 0%nat, []. }
  rewrite encode_records_cons in Hp.
  destruct (Nat.lt_ge_cases (length p) (length (encode_record r))) as [Hl|Hl].
  - exists 0%nat, p. simpl. split_and!; [done|lia| |done].
    destruct Hp as [q Hq]. exists (take (length (encode_record r) - length p) q).
    etrans; [symmetry; apply (take_app_length _ (encode_records rs))|].
    rewrite Hq. by rewrite take_app_ge by lia.
  - apply prefix_app_cut in Hp as (p' & -> & Hp); [|done].
    destruct (IH p' Hp) as (n & tail & -> & Hn & Ht).
    exists (S n), tail. simpl. split_and!; [by rewrite (assoc_L (++))|lia|done].
Qed.

Lemma replay_prefix `{PosixOk} rs p :
  Forall record_ok rs → p `prefix_of` encode_records rs →
  ∃ n, replay (Some p) = take n rs ∧ (n ≤ length rs)%nat ∧
    encode_records (take n rs) `prefix_of` p ∧
    ((n < length rs)%nat → (length p < length (encode_records (take (S n) rs)))%nat).
Proof.
  intros Hok Hp. destruct (prefix_of_log rs p Hp) as (n & tail & -> & Hn & Ht).
  exists n. split_and!; [|done|by exists tail|].
  - apply replay_records; [by apply Forall_take|].
    destruct (rs !! n) as [r|] eqn:E; [|subst; apply replay_one_nil].
    destruct Ht. eapply replay_one_torn; eauto. by eapply Forall_lookup_1.
  - intros Hlt. destruct (rs !! n) as [r|] eqn:E.
    + destruct Ht as [_ Ht]. rewrite (take_S_r _ _ _ E), encode_records_app, !length_app.
      rewrite encode_records_cons, length_app. lia.
    + apply lookup_ge_None in E. lia.
Qed.

Lemma append_batch_ok `{PosixOk} w rs :
  (append_batch w rs).2 = IoDone ∧
  f_data (wal_file (append_batch w rs).1) = f_data (wal_file w) ++ encode_records rs ∧
  (mode_ w = EveryWrite → rs ≠ [] → synced (wal_file (append_batch w rs).1)).
Proof.
  destruct rs as [|r rs].
  { simpl. unfold encode_records. simpl. by rewrite app_nil_r. }
  unfold append_batch, wal_write. rewrite write_fully_ok. cbn [fst snd].
  destruct (mode_ w); simpl; [by rewrite durable_sync_ok|done].
Qed.

(** The log after an append whose system calls may fail at any point. *)
Lemma append_batch_prefix `{Posix} w rs :
  ∃ p, p `prefix_of` encode_records rs ∧
    f_data (wal_file (append_batch w rs).1) = f_data (wal_file w) ++ p ∧
    ((append_batch w rs).2 = IoDone ↔ p = encode_records rs) ∧
    (f_synced (wal_file w) ≤ length (f_data (wal_file w)) →
     f_synced (wal_file w) ≤ f_synced (wal_file (append_batch w rs).1))%nat ∧
    (f_older (wal_file (append_batch w rs).1) = f_older (wal_file w) ∨
     f_older (wal_file (append_batch w rs).1) = []).
Proof.
  destruct rs as [|r rs].
  { exists []. simpl. rewrite app_nil_r. by split_and!; [..|left]. }
  destruct (write_fully_prefix (wal_file w) (encode_records (r :: rs))) as (p & Hp & Hf & Hd).
  exists p. split; [done|].
  unfold append_batch, wal_write. destruct (write_fully _ _) as [f st] eqn:E; simpl in *.
  assert (f_synced f = f_synced (wal_file w) ∧ f_older f = f_older (wal_file w)) as [Es Eo]
    by (by injection E as <- <-).
  destruct st; [destruct (mode_ w)|..]; simpl; split_and!; try done; try lia; try (by left);
    unfold durable_sync; destruct (sys_sync _); simpl; rewrite ?Hf, ?length_app; auto; lia.
Qed.

Lemma replay_body_oversize `{Posix} crc ty s kl vl rest :
  0 ≤ kl < 2 ^ 32 → 0 ≤ vl < 2 ^ 32 → kMaxLen < kl ∨ kMaxLen < vl →
  replay_body crc (header ty s kl vl) rest = None.
Proof.
  intros Hk Hv Hbig. unfold replay_body.
  destruct (header_fields ty s kl vl) as (-> & -> & -> & ->). rewrite !u32_small by lia.
  destruct (Z.ltb_spec kMaxLen kl); [done|].
  destruct (Z.ltb_spec kMaxLen vl); [done|lia].
Qed.

(** A body with the right lengths and the wrong checksum is refused. *)
Lemma replay_one_bad_crc `{PosixOk} r (body' rest : bytes) :
  record_ok r → length body' = length (record_body r) →
  take 8 (drop 9 body') = take 8 (drop 9 (record_body r)) →
  crc32 body' ≠ crc32 (record_body r) →
  replay_one (put_u32_le (crc32 (record_body r)) ++ body' ++ rest) = None.
Proof.
  intros (Hs & Hk & Hv) Hl Hlens Hcrc. rewrite length_record_body in Hl.
  pose proof (blen_max _ Hk) as Hk'. pose proof (blen_max _ Hv) as Hv'.
  set (hd := take 17 body'). set (key := take (length (r_key r)) (drop 17 body')).
  set (value := drop (length (r_key r)) (drop 17 body')).
  assert (body' = hd ++ key ++ value) as Eb by (unfold hd, key, value; by rewrite !take_drop).
  assert (length hd = 17%nat) as Hhd by (unfold hd; len_lia).
  assert (blen key = blen (r_key r) ∧ blen value = blen (r_value r)) as [Lk Lv]
    by (unfold key, value, blen; split; len_lia).
  assert (∀ o : nat, (o = 0 ∨ o = 4)%nat →
    get_u32_le (drop (9 + o) hd) = get_u32_le (drop o (take 8 (drop 9 body')))) as Hget.
  { intros o Ho. unfold hd. rewrite skipn_firstn_comm, (skipn_firstn_comm o 8), drop_drop.
    rewrite <- (get_u32_le_app (take (8 - o) _) []), <- (get_u32_le_app (take (17 - (9 + o)) _) [])
      by len_lia. by replace (17 - (9 + o))%nat with (8 - o)%nat by lia. }
  assert (∀ o : nat, (o = 0 ∨ o = 4)%nat → get_u32_le (drop (9 + o) hd) =
    get_u32_le (drop (9 + o) (header (r_type r) (r_seq r) (blen (r_key r)) (blen (r_value r)))))
    as Hfld.
  { intros o Ho. rewrite Hget, Hlens by done.
    destruct (encode_record_split r (max_u32 _ Hk) (max_u32 _ Hv)) as [-> _]. by destruct Ho as [->| ->]. }
  destruct (header_fields (r_type r) (r_seq r) (blen (r_key r)) (blen (r_value r)))
    as (_ & _ & E2 & E3). rewrite u32_small in E2, E3 by (unfold kMaxLen in *; lia).
  pose proof (Hfld 0%nat (or_introl eq_refl)) as F0.
  pose proof (Hfld 4%nat (or_intror eq_refl)) as F4.
  cbn [Nat.add] in F0, F4. rewrite E2, <- Lk in F0. rewrite E3, <- Lv in F4.
  rewrite Eb in Hcrc |- *. rewrite <- !(assoc_L (++)), replay_one_split by done.
  rewrite replay_body_full by (done || lia).
  rewrite crc32_u32. by rewrite (proj2 (Z.eqb_neq _ _)) by done.
Qed.

(** * Properties *)

(** C25. Replaying the bytes [append] and [append_batch] write gives back the
    records, in order and unchanged, for every list of records with 64-bit
    sequence numbers and keys and values of at most 64 MiB, whatever the sizes
    of the reads the system grants. *)
Theorem wal_roundtrip `{PosixOk} (rs : list WalRecord) (Hok : Forall record_ok rs) :
  replay (Some (encode_records rs)) = rs.
Proof.
  rewrite <- (app_nil_r (encode_records rs)). apply replay_records; [done|].
  apply replay_one_nil.
Qed.

(** Cutting a log at any byte loses exactly the records that were cut:
    replay returns the records that lie wholly in front of the cut and stops
    cleanly at the torn one. *)
Theorem wal_torn_tail `{PosixOk} (rs : list WalRecord) (p : bytes)
    (Hok : Forall record_ok rs) (Hp : p `prefix_of` encode_records rs) :
  ∃ n, replay (Some p) = take n rs ∧ (n ≤ length rs)%nat ∧
    encode_records (take n rs) `prefix_of` p ∧
    ((n < length rs)%nat → (length p < length (encode_records (take (S n) rs)))%nat).
Proof. by apply replay_prefix. Qed.

(** C24. Durability of a group commit. Once [append_batch] has returned in
    [EveryWrite] mode, every file a crash can leave replays to all the records
    that were in the log and all those of the batch. *)
Theorem wal_commit_durable `{PosixOk} (w : WAL) (old rs : list WalRecord) (after : bytes)
    (Hmode : mode_ w = EveryWrite) (Hne : rs ≠ [])
    (Hw : f_data (wal_file w) = encode_records old)
    (Hok : Forall record_ok (old ++ rs))
    (Hcrash : crash_file (wal_file (append_batch w rs).1) after) :
  (append_batch w rs).2 = IoDone ∧ replay (Some after) = old ++ rs.
Proof.
  destruct (append_batch_ok w rs) as (Hd & Hf & Hs). split; [done|].
  apply crash_synced in Hcrash as ->; [|by apply Hs]. rewrite Hf, Hw, <- encode_records_app.
  rewrite <- (app_nil_r (encode_records _)). apply replay_records; [done|].
  apply replay_one_nil.
Qed.

(** A crash or an I/O error inside an append. Whatever the writes of an
    [append_batch] do (partial writes, interruptions, an error that throws, a
    failing sync), a crash afterwards leaves a log that replays to every
    record synced before and a prefix of the batch: never a damaged or
    reordered record. *)
Theorem wal_crash_in_append (faulty : Posix) `{PosixOk} (w : WAL) (old rs : list WalRecord)
    (after : bytes)
    (Hw : f_data (wal_file w) = encode_records old)
    (Hsync : synced (wal_file w)) (Hok : Forall record_ok (old ++ rs))
    (Hcrash : crash_file (wal_file (@append_batch faulty w rs).1) after) :
  ∃ n, replay (Some after) = old ++ take n rs.
Proof.
  destruct (@append_batch_prefix faulty w rs) as (p & Hp & Hf & _ & Hs & Ho). destruct Hsync as [Hsync Hold].
  assert (f_older (wal_file (@append_batch faulty w rs).1) = []) as Hnil by (by destruct Ho as [->| ->]).
  destruct Hcrash as [[Ha Hl]|Hx]; [|rewrite Hnil in Hx; by inversion Hx]. rewrite Hf, Hw in Ha.
  apply prefix_app_cut in Ha as (p' & -> & Ha); [|rewrite <- Hw; lia].
  assert (encode_records old ++ p' `prefix_of` encode_records (old ++ rs)) as Hpre.
  { rewrite encode_records_app. apply prefix_app. by etrans. }
  destruct (replay_prefix _ _ Hok Hpre) as (n & -> & Hn & Hpn & Hlt).
  exists (n - length old)%nat. rewrite length_app in Hn, Hlt.
  destruct (Nat.lt_ge_cases n (length old)) as [Hno|Hno].
  - exfalso. assert (n < length old + length rs)%nat as Hl' by lia. specialize (Hlt Hl').
    rewrite take_app_le, length_app in Hlt by lia.
    rewrite <- (take_drop (S n) old), encode_records_app, length_app in Hlt. rewrite take_drop in Hlt.
    lia.
  - by rewrite take_app_ge by lia.
Qed.

(** Corruption. If at most four consecutive bytes of a stored record
    change after it was written, other than its length fields, replay stops at
    that record: it returns the records before it and nothing after, whatever
    follows. *)
Theorem wal_corruption_stops `{PosixOk} (rs : list WalRecord) (r : WalRecord)
    (pre x y post more : bytes)
    (Hok : Forall record_ok rs) (Hr : record_ok r)
    (Hbody : record_body r = pre ++ x ++ post)
    (Hlen : length x = length y) (Hburst : (length x ≤ 4)%nat) (Hne : x ≠ y)
    (Hfields : take 8 (drop 9 (pre ++ y ++ post)) = take 8 (drop 9 (record_body r))) :
  replay (Some (encode_records rs ++
    put_u32_le (crc32 (record_body r)) ++ (pre ++ y ++ post) ++ more)) = rs.
Proof.
  apply replay_records; [done|]. apply replay_one_bad_crc; [done| |done|].
  - rewrite Hbody. len_lia.
  - rewrite Hbody. apply not_eq_sym, crc32_detects_burst; done.
Qed.

(** Oversized records. [append] accepts and acknowledges a key or value
    of more than 64 MiB, but replay refuses the record and everything after
    it: records written later, of any kind, are not recovered. *)
Theorem wal_oversize_lost `{PosixOk} (rs later : list WalRecord) (r : WalRecord)
    (Hok : Forall record_ok rs)
    (Hbig : kMaxLen < blen (r_key r) ∨ kMaxLen < blen (r_value r))
    (Hk : blen (r_key r) < 2 ^ 32) (Hv : blen (r_value r) < 2 ^ 32) :
  replay (Some (encode_records (rs ++ r :: later))) = rs.
Proof.
  rewrite encode_records_app, encode_records_cons. apply replay_records; [done|].
  destruct (encode_record_split r Hk Hv) as [_ ->]. rewrite <- !(assoc_L (++)).
  pose proof (blen_nonneg (r_key r)). pose proof (blen_nonneg (r_value r)).
  rewrite replay_one_split by done. by apply replay_body_oversize; [lia..|].
Qed.

(** ** Concrete logs *)

Definition ex_records : list WalRecord :=
  [mkRecord RecPut 1 (bs "user:42") (bs "Shreeya"); mkRecord RecDelete 2 (bs "user:42") [];
   mkRecord RecPut 3 (bs "") (bs "v")].

Lemma ex_records_ok : Forall record_ok ex_records.
Proof. repeat constructor; vm_compute; done. Qed.

(** A disk that fills up: the write at offset [at_offset] stores five bytes
    and fails. *)
Definition full_disk (at_offset : nat) : Posix := {|
  sys_read := @sys_read (chunked_posix 9);
  sys_write file buf :=
    if (length file =? at_offset)%nat then [Written 5; WriteError "No space left on device"]
    else [Written (length buf)];
  sys_pread := @sys_pread (chunked_posix 9);
  sys_sync _ := true; sys_rename _ := true; sys_resize _ := true;
|}.

(** A failed append poisons the log. [append] that throws after a
    partial write leaves the torn bytes in place; a later append that succeeds
    and is acknowledged lands behind them, and replay never reaches it. *)
Theorem wal_failed_append_hides_later :
  let sys := full_disk 25 in
  let w0 := wal_open (mkFile [] 0) EveryWrite in
  let w1 := append w0 RecPut 1 (bs "ab") (bs "cd") in
  let w2 := append w1.1 RecPut 2 (bs "x") (bs "y") in
  let w3 := append w2.1 RecPut 3 (bs "k") (bs "v") in
  w1.2 = IoDone ∧ w2.2 = IoThrown "write failed: No space left on device" ∧ w3.2 = IoDone ∧
  replay (Some (f_data (wal_file w3.1))) = [mkRecord RecPut 1 (bs "ab") (bs "cd")].
Proof. vm_compute. split_and!; reflexivity. Qed.

Lemma wal_roundtrip_witness :
  @replay (chunked_posix 2) (Some (encode_records ex_records)) = ex_records.
Proof. exact (wal_roundtrip ex_records ex_records_ok). Defined.

Lemma wal_torn_tail_witness :
  ∃ n, @replay (chunked_posix 2) (Some (take 60 (encode_records ex_records))) = take n ex_records.
Proof.
  destruct (@wal_torn_tail (chunked_posix 2) _ ex_records (take 60 (encode_records ex_records))
    ex_records_ok) as (n & E & _).
  - apply prefix_take.
  - exists n. exact E.
Defined.

Definition ex_wal : WAL := wal_open (mkFile (encode_records (take 1 ex_records)) 35) EveryWrite.

Lemma wal_commit_durable_witness :
  @replay (chunked_posix 2)
    (Some (f_data (wal_file (@append_batch (chunked_posix 2) ex_wal (drop 1 ex_records)).1)))
  = ex_records.
Proof.
  refine (proj2 (@wal_commit_durable (chunked_posix 2) _ ex_wal (take 1 ex_records)
    (drop 1 ex_records) _ eq_refl _ eq_refl ex_records_ok _)).
  - discriminate.
  - left. split; [reflexivity|]. vm_compute. lia.
Defined.

Lemma wal_crash_in_append_witness :
  ∃ n, @replay (chunked_posix 2)
    (Some (take 38 (f_data (wal_file (@append_batch (full_disk 35) ex_wal (drop 1 ex_records)).1))))
  = take 1 ex_records ++ take n (drop 1 ex_records).
Proof.
  refine (@wal_crash_in_append (full_disk 35) (chunked_posix 2) _ ex_wal (take 1 ex_records)
    (drop 1 ex_records) _ eq_refl (conj eq_refl eq_refl) ex_records_ok _).
  left. split; [apply prefix_take|]. vm_compute. lia.
Defined.

Definition ex_record : WalRecord := mkRecord RecPut 7 (bs "k") (bs "value").

Lemma wal_corruption_stops_witness :
  @replay (chunked_posix 2) (Some (encode_records (take 1 ex_records) ++
    put_u32_le (crc32 (record_body ex_record)) ++
    (take 20 (record_body ex_record) ++ bs "XX" ++ drop 22 (record_body ex_record)) ++
    encode_records (drop 1 ex_records))) = take 1 ex_records.
Proof.
  refine (@wal_corruption_stops (chunked_posix 2) _ (take 1 ex_records) ex_record
    (take 20 (record_body ex_record)) (take 2 (drop 20 (record_body ex_record))) (bs "XX")
    (drop 22 (record_body ex_record)) (encode_records (drop 1 ex_records)) _ _ _ _ _ _ _).
  - apply Forall_take, ex_records_ok.
  - vm_compute. done.
  - vm_compute. reflexivity.
  - reflexivity.
  - vm_compute. lia.
  - vm_compute. discriminate.
  - vm_compute. reflexivity.
Defined.

Lemma wal_oversize_lost_witness :
  @replay (chunked_posix 2) (Some (encode_records (take 2 ex_records ++
    mkRecord RecPut 9 (replicate (Z.to_nat (kMaxLen + 1)) Byte.x41) [] :: drop 2 ex_records)))
  = take 2 ex_records.
Proof.
  apply (@wal_oversize_lost (chunked_posix 2) _ (take 2 ex_records) (drop 2 ex_records)
    (mkRecord RecPut 9 (replicate (Z.to_nat (kMaxLen + 1)) Byte.x41) [])).
  - apply Forall_take, ex_records_ok.
  - left. cbn [r_key]. rewrite blen_replicate by (unfold kMaxLen; lia). lia.
  - cbn [r_key]. rewrite blen_replicate by (unfold kMaxLen; lia). unfold kMaxLen. lia.
  - cbn [r_value]. vm_compute. reflexivity.
Defined.
