(* ===== verification/Manifest.v ===== *)
(** The MANIFEST of src/include/keystone/manifest.h and src/src/manifest.cpp:
    an append-only log of checksummed snapshots of the live file set. *)

From S2P Require Import Prelude Coding Crc32.
Local Open Scope Z_scope.

(** * Definitions *)

Record ManifestEntry := mkManifestEntry {
  m_number : Z;
  m_level : Z;
  m_smallest : bytes;
  m_largest : bytes;
}.

#[export] Instance ManifestEntry_eq_dec : EqDecision ManifestEntry.
Proof. solve_decision. Defined.

(** One key as [append_snapshot] stores it: the length cut to 32 bits, and
    that many bytes. *)
Definition encode_key (k : bytes) : bytes :=
  put_u32_le (u32 (blen k)) ++ take (Z.to_nat (u32 (blen k))) k.

Definition encode_entry (f : ManifestEntry) : bytes :=
  put_u32_le (u32 (m_number f)) ++ put_u32_le (u32 (m_level f)) ++
  encode_key (m_smallest f) ++ encode_key (m_largest f).

(** The number of bytes reserved for a file. *)
Definition entry_size (f : ManifestEntry) : nat :=
  (4 + 4 + 4 + length (m_smallest f) + 4 + length (m_largest f))%nat.

(** The body of a snapshot: the count, the files, and the zeros of the buffer
    that were not overwritten. *)
Definition snapshot_body (files : list ManifestEntry) : bytes :=
  let content := put_u32_le (u32 (Z.of_nat (length files))) ++ mjoin (encode_entry <$> files) in
  content ++ replicate (4 + sum_list (entry_size <$> files) - length content) Byte.x00.

Definition encode_snapshot (files : list ManifestEntry) : bytes :=
  put_u32_le (crc32 (snapshot_body files)) ++ snapshot_body files.

Section ManifestOps.
Context `{Posix}.

Definition append_snapshot (f : File) (files : list ManifestEntry) : File * io_status :=
  let r := write_fully f (encode_snapshot files) in
  match r.2 with
  | IoDone => (durable_sync r.1, IoDone)
  | st => (r.1, st)
  end.

(** The state of the two lambdas of [load_latest]: what remains of the file,
    the bytes of [rest] filled so far, and [rest.size()]. *)
Record loader := mkLoader { ld_file : bytes; ld_read : bytes; ld_size : Z }.

Definition read_u32 (l : loader) : option (Z * loader) :=
  if ld_size l <? blen (ld_read l) + 4 then None else
  match read_fully (ld_file l) 4 with
  | None => None
  | Some (tmp, file) =>
      let size := if ld_size l <? blen (ld_read l) + 4
                  then blen (ld_read l) + 4 else ld_size l in
      Some (get_u32_le tmp, mkLoader file (ld_read l ++ tmp) size)
  end.

Definition read_bytes (n : Z) (l : loader) : option (bytes * loader) :=
  if n =? 0 then Some ([], l) else
  let size := if ld_size l <? blen (ld_read l) + n
              then blen (ld_read l) + n else ld_size l in
  match read_fully (ld_file l) (Z.to_nat n) with
  | None => None
  | Some (out, file) => Some (out, mkLoader file (ld_read l ++ out) size)
  end.

(** The body of the [for] loop over the files of a snapshot. *)
Definition read_entry (l : loader) : option (ManifestEntry * loader) :=
  '(num, l) ← read_u32 l;
  '(level, l) ← read_u32 l;
  '(sk_len, l) ← read_u32 l;
  '(sk, l) ← read_bytes sk_len l;
  '(lk_len, l) ← read_u32 l;
  '(lk, l) ← read_bytes lk_len l;
  Some (mkManifestEntry (i32 num) (i32 level) sk lk, l).

Fixpoint read_entries (count : nat) (l : loader) : option (list ManifestEntry * loader) :=
  match count with
  | O => Some ([], l)
  | S count' =>
      match read_entry l with
      | None => None
      | Some (e, l1) =>
          match read_entries count' l1 with
          | None => None
          | Some (es, l2) => Some (e :: es, l2)
          end
      end
  end.

Definition kMaxCount : Z := 64 * 1024.
Definition kSlack : Z := 256 * 1024.

(** The part of a round of [load_latest] after the count has been read. *)
Definition load_body (stored_crc : Z) (count_buf rest : bytes)
  : option (list ManifestEntry * bytes) :=
  let count := get_u32_le count_buf in
  if kMaxCount <? count then None else
  match read_entries (Z.to_nat count) (mkLoader rest [] (count * (4 + 4 + 4 + 4) + kSlack)) with
  | None => None
  | Some (snapshot, l) =>
      if negb (crc32 (count_buf ++ ld_read l) =? stored_crc) then None
      else Some (snapshot, ld_file l)
  end.

(** One round of the loop of [load_latest]; [None] is [break]. *)
Definition load_one (rest : bytes) : option (list ManifestEntry * bytes) :=
  match read_fully rest 4 with
  | None => None
  | Some (crc_buf, rest1) =>
      match read_fully rest1 4 with
      | None => None
      | Some (count_buf, rest2) => load_body (get_u32_le crc_buf) count_buf rest2
      end
  end.

Fixpoint load_loop (fuel : nat) (rest : bytes) (latest : list ManifestEntry)
  : list ManifestEntry :=
  match fuel with
  | O => latest
  | S fuel' =>
      match load_one rest with
      | None => latest
      | Some (snapshot, rest') => load_loop fuel' rest' snapshot
      end
  end.

Definition load_latest (file : option bytes) : list ManifestEntry :=
  match file with
  | None => []
  | Some data => load_loop (S (length data)) data []
  end.

End ManifestOps.

Definition encode_snapshots (ss : list (list ManifestEntry)) : bytes :=
  mjoin (encode_snapshot <$> ss).

(** A file entry that fits the fields of the format. *)
Definition entry_ok (f : ManifestEntry) : Prop :=
  0 ≤ m_number f < 2 ^ 31 ∧ 0 ≤ m_level f < 2 ^ 31 ∧
  blen (m_smallest f) < 2 ^ 32 ∧ blen (m_largest f) < 2 ^ 32.

(** The key bytes of a snapshot. *)
Definition key_bytes (files : list ManifestEntry) : Z :=
  Z.of_nat (sum_list ((λ f, length (m_smallest f) + length (m_largest f))%nat <$> files)).

(** A snapshot [load_latest] can read back: not more than 65536 files, and
    together at most 256 KiB of keys. *)
Definition snapshot_ok (files : list ManifestEntry) : Prop :=
  Forall entry_ok files ∧ Z.of_nat (length files) ≤ kMaxCount ∧ key_bytes files ≤ kSlack.

(** * Lemmas *)

Lemma encode_key_small k : blen k < 2 ^ 32 → encode_key k = put_u32_le (blen k) ++ k.
Proof.
  intros Hk. unfold encode_key. rewrite u32_small by (split; [apply blen_nonneg|done]).
  f_equal. unfold blen. by rewrite Nat2Z.id, take_ge by lia.
Qed.

Lemma length_encode_entry f : entry_ok f → length (encode_entry f) = entry_size f.
Proof.
  intros (_ & _ & Hs & Hl). unfold encode_entry, entry_size. rewrite !encode_key_small by done.
  autorewrite with ks_len. lia.
Qed.

Lemma length_encode_entries files :
  Forall entry_ok files →
  length (mjoin (encode_entry <$> files)) = sum_list (entry_size <$> files).
Proof.
  induction 1 as [|f files Hf _ IH]; [done|]. rewrite !fmap_cons, mjoin_cons.
  cbn [sum_list_with id]. by rewrite length_app, IH, length_encode_entry.
Qed.

(** Within the format there is no padding. *)
Lemma snapshot_body_ok files :
  Forall entry_ok files → Z.of_nat (length files) < 2 ^ 32 →
  snapshot_body files =
    put_u32_le (Z.of_nat (length files)) ++ mjoin (encode_entry <$> files).
Proof.
  intros Hok Hn. unfold snapshot_body. rewrite u32_small by lia.
  rewrite length_app, length_put_u32_le, length_encode_entries by done.
  rewrite Nat.sub_diag. apply app_nil_r.
Qed.

Lemma read_u32_app `{PosixOk} v rest acc size :
  blen acc + 4 ≤ size →
  read_u32 (mkLoader (put_u32_le v ++ rest) acc size) =
    Some (u32 v, mkLoader rest (acc ++ put_u32_le v) size).
Proof.
  intros Hs. unfold read_u32. cbn [ld_size ld_read ld_file].
  rewrite (proj2 (Z.ltb_ge _ _)) by lia. rewrite read_fully_app by done.
  by rewrite get_put_u32_le'.
Qed.

Lemma read_bytes_app `{PosixOk} (k rest acc : bytes) size :
  blen acc + blen k ≤ size →
  read_bytes (blen k) (mkLoader (k ++ rest) acc size) =
    Some (k, mkLoader rest (acc ++ k) size).
Proof.
  intros Hs. unfold read_bytes. cbn [ld_size ld_read ld_file].
  destruct (Z.eqb_spec (blen k) 0) as [E|].
  - unfold blen in E. destruct k; [|simpl in E; lia]. by rewrite app_nil_r.
  - rewrite (proj2 (Z.ltb_ge _ _)) by lia.
    by rewrite read_fully_app by (unfold blen; lia).
Qed.

(** Reading one file entry, with room left for its fixed part and keys. *)
Lemma read_entry_app `{PosixOk} f rest acc size :
  entry_ok f → blen acc + Z.of_nat (entry_size f) ≤ size →
  read_entry (mkLoader (encode_entry f ++ rest) acc size) =
    Some (f, mkLoader rest (acc ++ encode_entry f) size).
Proof.
  intros (Hn & Hl & Hs & Hg) Hsize. unfold read_entry, encode_entry, entry_size in *.
  rewrite !encode_key_small by done. rewrite <- !(assoc_L (++)).
  pose proof (blen_nonneg (m_smallest f)). pose proof (blen_nonneg (m_largest f)).
  assert (∀ v, blen (put_u32_le v) = 4) as H4 by done.
  assert (∀ b, blen b = Z.of_nat (length b)) as Hb by done.
  rewrite read_u32_app by lia. cbn [mbind option_bind].
  rewrite read_u32_app by (rewrite !blen_app, !H4; lia). cbn [mbind option_bind].
  rewrite read_u32_app by (rewrite !blen_app, !H4; lia). cbn [mbind option_bind].
  rewrite (u32_small (blen (m_smallest f))) by lia.
  rewrite read_bytes_app by (rewrite !blen_app, !H4, (Hb (m_smallest f)); lia).
  cbn [mbind option_bind].
  rewrite read_u32_app by (rewrite !blen_app, !H4, (Hb (m_smallest f)); lia).
  cbn [mbind option_bind]. rewrite (u32_small (blen (m_largest f))) by lia.
  rewrite read_bytes_app
    by (rewrite !blen_app, !H4, (Hb (m_smallest f)), (Hb (m_largest f)); lia).
  cbn [mbind option_bind]. rewrite !i32_u32, !u32_small, !i32_small by lia.
  rewrite <- !(assoc_L (++)). by destruct f.
Qed.

Lemma read_entries_app `{PosixOk} files rest acc size :
  Forall entry_ok files →
  blen acc + Z.of_nat (sum_list (entry_size <$> files)) ≤ size →
  read_entries (length files) (mkLoader (mjoin (encode_entry <$> files) ++ rest) acc size) =
    Some (files, mkLoader rest (acc ++ mjoin (encode_entry <$> files)) size).
Proof.
  intros Hok. revert acc. induction Hok as [|f files Hf Hok IH]; intros acc Hs.
  { simpl. by rewrite app_nil_r. }
  rewrite fmap_cons in Hs. cbn [sum_list_with id] in Hs.
  rewrite fmap_cons, mjoin_cons, <- (assoc_L (++)). cbn [length read_entries].
  rewrite read_entry_app by (done || lia).
  rewrite IH; [by rewrite (assoc_L (++))|].
  rewrite blen_app. unfold blen at 2. rewrite length_encode_entry by done. lia.
Qed.

Lemma sum_entry_size files :
  Z.of_nat (sum_list (entry_size <$> files)) = 16 * Z.of_nat (length files) + key_bytes files.
Proof.
  unfold key_bytes. induction files as [|f files IH]; [done|].
  rewrite !fmap_cons. cbn [sum_list_with id length]. unfold entry_size at 1. lia.
Qed.

Lemma load_one_ok `{PosixOk} files rest :
  snapshot_ok files → load_one (encode_snapshot files ++ rest) = Some (files, rest).
Proof.
  intros (Hok & Hn & Hk). unfold kMaxCount, kSlack in *. unfold encode_snapshot.
  rewrite snapshot_body_ok by (done || lia). rewrite <- !(assoc_L (++)).
  unfold load_one. rewrite read_fully_app by done. rewrite read_fully_app by done.
  rewrite !get_put_u32_le', crc32_u32.
  unfold load_body. cbv zeta. rewrite get_put_u32_le', u32_small by lia.
  rewrite (proj2 (Z.ltb_ge _ _)) by (unfold kMaxCount; lia).
  rewrite Nat2Z.id, read_entries_app.
  - cbn [ld_read ld_file app]. by rewrite Z.eqb_refl.
  - done.
  - rewrite sum_entry_size. unfold kSlack, blen. simpl length. lia.
Qed.

(** ** Truncated logs: a round that succeeds on a prefix succeeds on the
    whole with the same result. *)

Definition extend (l : loader) (q : bytes) : loader :=
  mkLoader (ld_file l ++ q) (ld_read l) (ld_size l).

Lemma read_u32_extend `{PosixOk} l v l' q :
  read_u32 l = Some (v, l') → read_u32 (extend l q) = Some (v, extend l' q).
Proof.
  unfold read_u32. cbn [extend ld_file ld_read ld_size].
  destruct (_ <? _); [done|]. destruct (read_fully (ld_file l) 4) as [[a b]|] eqn:E; [|done].
  intros [= <- <-]. by rewrite (read_fully_extend _ _ _ _ q E).
Qed.

Lemma read_bytes_extend `{PosixOk} n l v l' q :
  read_bytes n l = Some (v, l') → read_bytes n (extend l q) = Some (v, extend l' q).
Proof.
  unfold read_bytes. cbn [extend ld_file ld_read ld_size].
  destruct (_ =? _); [by intros [= <- <-]|].
  destruct (read_fully (ld_file l) _) as [[a b]|] eqn:E; [|done].
  intros [= <- <-]. by rewrite (read_fully_extend _ _ _ _ q E).
Qed.

Lemma read_entry_extend `{PosixOk} l v l' q :
  read_entry l = Some (v, l') → read_entry (extend l q) = Some (v, extend l' q).
Proof.
  unfold read_entry, mbind, option_bind.
  destruct (read_u32 l) as [[v1 l1]|] eqn:E1; [|done]. rewrite (read_u32_extend _ _ _ q E1).
  destruct (read_u32 l1) as [[v2 l2]|] eqn:E2; [|done]. rewrite (read_u32_extend _ _ _ q E2).
  destruct (read_u32 l2) as [[v3 l3]|] eqn:E3; [|done]. rewrite (read_u32_extend _ _ _ q E3).
  destruct (read_bytes v3 l3) as [[v4 l4]|] eqn:E4; [|done].
  rewrite (read_bytes_extend _ _ _ _ q E4).
  destruct (read_u32 l4) as [[v5 l5]|] eqn:E5; [|done]. rewrite (read_u32_extend _ _ _ q E5).
  destruct (read_bytes v5 l5) as [[v6 l6]|] eqn:E6; [|done].
  rewrite (read_bytes_extend _ _ _ _ q E6). by intros [= <- <-].
Qed.

Lemma read_entries_extend `{PosixOk} n l v l' q :
  read_entries n l = Some (v, l') → read_entries n (extend l q) = Some (v, extend l' q).
Proof.
  revert l v. induction n as [|n IH]; intros l v; simpl; [by intros [= <- <-]|].
  destruct (read_entry l) as [[e l1]|] eqn:E; [|done]. rewrite (read_entry_extend _ _ _ q E).
  destruct (read_entries n l1) as [[es l2]|] eqn:E2; [|done].
  intros [= <- <-]. by rewrite (IH _ _ E2).
Qed.

Lemma load_one_extend `{PosixOk} p q s r :
  load_one p = Some (s, r) → load_one (p ++ q) = Some (s, r ++ q).
Proof.
  unfold load_one. destruct (read_fully p 4) as [[c p1]|] eqn:E1; [|done].
  rewrite (read_fully_extend _ _ _ _ q E1).
  destruct (read_fully p1 4) as [[n p2]|] eqn:E2; [|done].
  rewrite (read_fully_extend _ _ _ _ q E2). unfold load_body.
  destruct (_ <? _); [done|].
  destruct (read_entries _ _) as [[es l]|] eqn:E3; [|done].
  apply (read_entries_extend _ _ _ _ q) in E3. unfold extend in E3 at 1. simpl in E3.
  rewrite E3. cbn [extend ld_read ld_file].
  destruct (negb _); [done|]. by intros [= <- <-].
Qed.

Lemma load_one_torn `{PosixOk} files p :
  snapshot_ok files → p `prefix_of` encode_snapshot files →
  (length p < length (encode_snapshot files))%nat → load_one p = None.
Proof.
  intros Hok [q Hq] Hlt. destruct (load_one p) as [[s r]|] eqn:E; [|done].
  apply (load_one_extend p q) in E. rewrite <- Hq in E.
  rewrite <- (app_nil_r (encode_snapshot files)), load_one_ok in E by done.
  injection E as _ E. symmetry in E. apply app_nil in E as [_ ->].
  rewrite app_nil_r in Hq. rewrite Hq in Hlt. lia.
Qed.

Lemma load_one_nil `{PosixOk} : load_one [] = None.
Proof. unfold load_one. by rewrite read_fully_short by (simpl; lia). Qed.

(** ** Whole manifests *)

Lemma encode_snapshots_cons s ss :
  encode_snapshots (s :: ss) = encode_snapshot s ++ encode_snapshots ss.
Proof. done. Qed.

Lemma encode_snapshots_app ss ss' :
  encode_snapshots (ss ++ ss') = encode_snapshots ss ++ encode_snapshots ss'.
Proof. unfold encode_snapshots. by rewrite fmap_app, join_app. Qed.

Lemma length_encode_snapshots ss : (length ss ≤ length (encode_snapshots ss))%nat.
Proof.
  induction ss as [|s ss IH]; [done|]. rewrite encode_snapshots_cons, length_app.
  unfold encode_snapshot. rewrite length_app. simpl. lia.
Qed.

Lemma load_loop_snapshots `{PosixOk} fuel ss tail latest :
  Forall snapshot_ok ss → load_one tail = None → (length ss < fuel)%nat →
  load_loop fuel (encode_snapshots ss ++ tail) latest = default latest (last ss).
Proof.
  intros Hok Ht. revert fuel latest.
  induction Hok as [|s ss Hs Hok IH]; intros [|fuel] latest Hf; try (simpl in Hf; lia);
    cbn [load_loop].
  - change (encode_snapshots [] ++ tail) with tail. by rewrite Ht.
  - rewrite encode_snapshots_cons, <- (assoc_L (++)), load_one_ok by done.
    rewrite IH by (simpl in Hf; lia). rewrite last_cons. by destruct (last ss).
Qed.

(** The last snapshot in front of the first one that is refused wins. *)
Lemma load_latest_snapshots `{PosixOk} ss tail :
  Forall snapshot_ok ss → load_one tail = None →
  load_latest (Some (encode_snapshots ss ++ tail)) = default [] (last ss).
Proof.
  intros. apply load_loop_snapshots; [done..|].
  pose proof (length_encode_snapshots ss). rewrite length_app. lia.
Qed.

Lemma append_snapshot_ok `{PosixOk} f entries :
  append_snapshot f entries =
    (mkFile (f_data f ++ encode_snapshot entries) (length (f_data f ++ encode_snapshot entries)),
     IoDone).
Proof. unfold append_snapshot. rewrite write_fully_ok. cbn [fst snd]. by rewrite durable_sync_ok. Qed.

(** * Properties *)

(** C27. [append_snapshot] on a MANIFEST of snapshots returns with the new one
    on the medium: whatever a crash leaves, [load_latest] gives it back, with
    file numbers, levels and key ranges unchanged, as long as every snapshot
    names at most 65536 files and holds at most 256 KiB of keys. *)
Theorem manifest_roundtrip `{PosixOk} (f : File) (ss : list (list ManifestEntry)) (s : list ManifestEntry)
    (after : bytes) (Hf : f_data f = encode_snapshots ss) (Hok : Forall snapshot_ok (ss ++ [s]))
    (Hcrash : crash_file (append_snapshot f s).1 after) :
  (append_snapshot f s).2 = IoDone ∧ load_latest (Some after) = s.
Proof.
  rewrite append_snapshot_ok in Hcrash |- *. split; [done|]. apply crash_synced in Hcrash as ->; [|done].
  cbn [f_data fst]. rewrite Hf.
  replace (encode_snapshots ss ++ encode_snapshot s) with (encode_snapshots (ss ++ [s]) ++ []).
  - rewrite load_latest_snapshots by (done || apply load_one_nil). by rewrite last_snoc.
  - unfold encode_snapshots. rewrite fmap_app, join_app. simpl. by rewrite !app_nil_r.
Qed.

(** Atomic commit. If a crash cuts the snapshot that was being appended
    at any byte, the MANIFEST still loads as the snapshot before it. *)
Theorem manifest_torn_tail `{PosixOk} (ss : list (list ManifestEntry)) (s : list ManifestEntry)
    (p : bytes)
    (Hok : Forall snapshot_ok (ss ++ [s])) (Hp : p `prefix_of` encode_snapshot s)
    (Hlt : (length p < length (encode_snapshot s))%nat) :
  load_latest (Some (encode_snapshots ss ++ p)) = default [] (last ss).
Proof.
  apply Forall_app in Hok as [Hss Hs]. apply Forall_cons in Hs as [Hs _].
  apply load_latest_snapshots; [done|]. by eapply load_one_torn.
Qed.

Lemma load_one_refused `{PosixOk} f fs more :
  entry_ok f → Z.of_nat (length (f :: fs)) < 2 ^ 32 →
  16 * Z.of_nat (length (f :: fs)) + kSlack < 12 + blen (m_smallest f) →
  load_one (encode_snapshot (f :: fs) ++ more) = None.
Proof.
  intros (Hn & Hl & Hs & Hg) Hc Hbig. set (n := Z.of_nat (length (f :: fs))) in *.
  assert (0 < n) by (unfold n; simpl; lia).
  unfold encode_snapshot. rewrite <- (assoc_L (++)). set (c := crc32 _).
  unfold snapshot_body. fold n. rewrite u32_small by lia.
  rewrite fmap_cons, mjoin_cons. unfold encode_entry at 1.
  rewrite (encode_key_small (m_smallest f)) by done. rewrite <- !(assoc_L (++)).
  unfold load_one. rewrite read_fully_app by done. rewrite read_fully_app by done.
  unfold load_body. cbv zeta. rewrite !get_put_u32_le', (u32_small n) by lia.
  destruct (kMaxCount <? n); [done|].
  assert (∃ n', Z.to_nat n = S n') as [n' ->] by (exists (Z.to_nat n - 1)%nat; lia).
  cbn [read_entries]. unfold read_entry, mbind, option_bind.
  assert (∀ v, blen (put_u32_le v) = 4) as H4 by done. unfold kSlack in *.
  rewrite read_u32_app by (change (blen []) with 0; lia).
  rewrite read_u32_app by (rewrite blen_app, H4; change (blen []) with 0; lia).
  rewrite read_u32_app by (rewrite !blen_app, !H4; change (blen []) with 0; lia).
  pose proof (blen_nonneg (m_smallest f)). rewrite (u32_small (blen _)) by lia.
  unfold read_bytes. rewrite (proj2 (Z.eqb_neq _ _)) by lia. cbn [ld_file ld_size ld_read].
  rewrite read_fully_app by (unfold blen; lia).
  rewrite !blen_app, !H4. change (blen []) with 0.
  rewrite (proj2 (Z.ltb_lt _ _)) by lia. unfold read_u32 at 1. cbn [ld_size ld_read].
  rewrite !blen_app, !H4. change (blen []) with 0.
  by rewrite (proj2 (Z.ltb_lt _ _)) by lia.
Qed.

(** Long keys. A snapshot whose first file has a smallest key longer than
    the scratch buffer ([16 * count + 256 KiB], less the 12 bytes in front of
    it) is written and synced, but [read_bytes] grows the buffer to exactly
    the bytes read, so the next [read_u32] finds no room and the snapshot is
    refused: the MANIFEST loads as an earlier one, whatever follows. *)
Theorem manifest_long_key_refused `{PosixOk} (ss : list (list ManifestEntry))
    (f : ManifestEntry) (fs : list ManifestEntry) (more : bytes)
    (Hss : Forall snapshot_ok ss) (Hf : entry_ok f)
    (Hc : Z.of_nat (length (f :: fs)) < 2 ^ 32)
    (Hbig : 16 * Z.of_nat (length (f :: fs)) + kSlack < 12 + blen (m_smallest f)) :
  load_latest (Some (encode_snapshots ss ++ encode_snapshot (f :: fs) ++ more)) =
    default [] (last ss).
Proof. apply load_latest_snapshots; [done|]. by apply load_one_refused. Qed.

(** ** Concrete manifests *)

Definition ex_snapshot1 : list ManifestEntry := [mkManifestEntry 1 0 (bs "a") (bs "m")].
Definition ex_snapshot2 : list ManifestEntry :=
  [mkManifestEntry 1 0 (bs "a") (bs "m"); mkManifestEntry 2 1 (bs "b") (bs "z")].

Definition ex_snapshot3 : list ManifestEntry := [mkManifestEntry 3 0 (bs "customer:007") (bs "m")].

Lemma ex_snapshots_ok : Forall snapshot_ok [ex_snapshot1; ex_snapshot2].
Proof.
  repeat constructor; vm_compute; try discriminate; try done.
Qed.

(** A torn tail is never repaired. [Manifest::open] appends behind
    whatever the file holds, so after a crash in the middle of a snapshot the
    snapshots committed later by the recovered database sit behind the torn
    bytes and the next load does not see them. *)
Theorem manifest_torn_tail_hides_later :
  let sys := chunked_posix 9 in
  let torn := take 20 (encode_snapshot ex_snapshot3) in
  let f0 := mkFile (encode_snapshot ex_snapshot1 ++ torn) 0 in
  let w := append_snapshot f0 ex_snapshot3 in
  load_latest (Some (f_data f0)) = ex_snapshot1 ∧ w.2 = IoDone ∧
  load_latest (Some (f_data w.1)) = ex_snapshot1.
Proof. vm_compute. split_and!; reflexivity. Qed.

Lemma manifest_roundtrip_witness :
  let f := mkFile (encode_snapshots [ex_snapshot1]) 0 in
  (@append_snapshot (chunked_posix 3) f ex_snapshot2).2 = IoDone ∧
  @load_latest (chunked_posix 3) (Some (f_data (@append_snapshot (chunked_posix 3) f ex_snapshot2).1)) = ex_snapshot2.
Proof.
  apply (@manifest_roundtrip (chunked_posix 3) _ (mkFile (encode_snapshots [ex_snapshot1]) 0) [ex_snapshot1]
    ex_snapshot2 (f_data (@append_snapshot (chunked_posix 3) (mkFile (encode_snapshots [ex_snapshot1]) 0) ex_snapshot2).1)).
  - reflexivity.
  - exact ex_snapshots_ok.
  - left. split; [reflexivity|]. vm_compute. lia.
Defined.

Lemma manifest_torn_tail_witness :
  @load_latest (chunked_posix 3)
    (Some (encode_snapshots [ex_snapshot1] ++ take 30 (encode_snapshot ex_snapshot2)))
  = ex_snapshot1.
Proof.
  apply (@manifest_torn_tail (chunked_posix 3) _ [ex_snapshot1] ex_snapshot2
    (take 30 (encode_snapshot ex_snapshot2)) ex_snapshots_ok).
  - apply prefix_take.
  - vm_compute. lia.
Defined.

Lemma manifest_long_key_refused_witness :
  @load_latest (chunked_posix 3) (Some (encode_snapshots [ex_snapshot1] ++
    encode_snapshot [mkManifestEntry 2 0 (replicate (Z.to_nat 262150) Byte.x61) (bs "z")] ++ []))
  = ex_snapshot1.
Proof.
  apply (@manifest_long_key_refused (chunked_posix 3) _ [ex_snapshot1]
    (mkManifestEntry 2 0 (replicate (Z.to_nat 262150) Byte.x61) (bs "z")) [] []).
  - repeat constructor; vm_compute; try discriminate; done.
  - unfold entry_ok. cbn [m_number m_level m_smallest m_largest].
    rewrite blen_replicate by lia. split_and!; vm_compute; done.
  - vm_compute. done.
  - cbn [m_smallest]. rewrite blen_replicate by lia. vm_compute. done.
Defined.
