(* ===== verification/Bloom.v ===== *)
(** The bloom filter of src/include/keystone/bloom.h and src/src/bloom.cpp:
    FNV-1a double hashing, membership, and the serialized form. *)

From S2P Require Import Prelude Coding.
Local Open Scope Z_scope.

(** * Definitions *)

Record Bloom := mkBloom { bits_ : bytes; m_bits_ : Z; k_ : Z }.

(** [std::lround(bits_per_key * 0.6931)], half away from zero.  The product
    is at least 1/10000 away from a half wherever the result is below the clamp
    at 30, so rounding the exact product gives the same [k_] as rounding the
    double. *)
Definition lround_ln2 (bits_per_key : Z) : Z :=
  Z.sgn bits_per_key * ((Z.abs bits_per_key * 6931 + 5000) / 10000).

(** The builder [Bloom(size_t key_count, int bits_per_key)]. *)
Definition Bloom_new (key_count bits_per_key : Z) : Bloom :=
  let key_count := if key_count =? 0 then 1 else key_count in
  let raw := u64 (key_count * u64 bits_per_key) in
  let m := u64 (u64 (raw + 7) / 8 * 8) in
  let m := if m <? 8 then 8 else m in
  {| bits_ := replicate (Z.to_nat (m / 8)) Byte.x00; m_bits_ := m;
     k_ := Z.max 1 (Z.min 30 (lround_ln2 bits_per_key)) |}.

(** The 64-bit FNV-1a loop of [hash]. *)
Definition fnv1a (key : bytes) : Z :=
  fold_left (λ h b, u64 (Z.lxor h (ub b) * 0x00000100000001B3)) key 0xcbf29ce484222325.

Definition hash (key : bytes) : Z * Z :=
  (u32 (fnv1a key), u32 (Z.shiftr (fnv1a key) 32)).

(** The bit probed in round [i]; the divisor is [m_bits_]. *)
Definition probe (b : Bloom) (h : Z * Z) (i : Z) : Z :=
  u64 (h.1 + u64 (u64 i * h.2)) mod m_bits_ b.

(** [bits_[idx / 8] |= 1u << (idx % 8)] *)
Definition set_bit (bits : bytes) (idx : Z) : result bytes :=
  match bits !! Z.to_nat (idx / 8) with
  | None => Undefined
  | Some b =>
      Ok (<[Z.to_nat (idx / 8) := u8 (Z.lor (ub b) (Z.shiftl 1 (idx mod 8)))]> bits)
  end.

(** [bits_[idx / 8] & (1u << (idx % 8))] as a condition *)
Definition get_bit (bits : bytes) (idx : Z) : result bool :=
  match bits !! Z.to_nat (idx / 8) with
  | None => Undefined
  | Some b => Ok (negb (Z.land (ub b) (Z.shiftl 1 (idx mod 8)) =? 0))
  end.

(** The loop of [add], [n] rounds from round [i]; a zero divisor is
    undefined. *)
Fixpoint add_loop (n : nat) (i : Z) (h : Z * Z) (b : Bloom) : result Bloom :=
  match n with
  | O => Ok b
  | S n' =>
      if m_bits_ b =? 0 then Undefined else
      bits ← set_bit (bits_ b) (probe b h i);
      add_loop n' (i + 1) h {| bits_ := bits; m_bits_ := m_bits_ b; k_ := k_ b |}
  end.

Definition add (b : Bloom) (key : bytes) : result Bloom :=
  add_loop (Z.to_nat (k_ b)) 0 (hash key) b.

Fixpoint may_loop (n : nat) (i : Z) (h : Z * Z) (b : Bloom) : result bool :=
  match n with
  | O => Ok true
  | S n' =>
      if m_bits_ b =? 0 then Undefined else
      bit ← get_bit (bits_ b) (probe b h i);
      if negb bit then Ok false else may_loop n' (i + 1) h b
  end.

Definition may_contain (b : Bloom) (key : bytes) : result bool :=
  may_loop (Z.to_nat (k_ b)) 0 (hash key) b.

Fixpoint add_all (b : Bloom) (keys : list bytes) : result Bloom :=
  match keys with
  | [] => Ok b
  | k :: keys' => b' ← add b k; add_all b' keys'
  end.

Definition serialize (b : Bloom) : bytes :=
  put_u32_le (u32 (k_ b)) ++ put_u64_le (m_bits_ b) ++ bits_ b.

Definition load (data : bytes) : result Bloom :=
  if blen data <? 12 then Throw "Bloom: data too short" else
  let k := i32 (get_u32_le data) in
  let m_bits := get_u64_le (drop 4 data) in
  let byte_count := u64 (m_bits + 7) / 8 in
  if blen data <? u64 (12 + byte_count) then Throw "Bloom: truncated bit array" else
  Ok {| bits_ := take (Z.to_nat byte_count) (drop 12 data); m_bits_ := m_bits; k_ := k |}.

(** Every probe falls inside the bit array. *)
Definition bloom_wf (b : Bloom) : Prop :=
  0 < m_bits_ b < 2 ^ 64 - 8 ∧ m_bits_ b mod 8 = 0 ∧ m_bits_ b = 8 * blen (bits_ b) ∧
  1 ≤ k_ b ≤ 30.

(** The bits of [b] are set in [b']. *)
Definition bit_at (bits : bytes) (idx : Z) : bool :=
  match bits !! Z.to_nat (idx / 8) with
  | None => false
  | Some b => Z.testbit (ub b) (idx mod 8)
  end.

Definition bloom_le (b b' : Bloom) : Prop :=
  m_bits_ b' = m_bits_ b ∧ k_ b' = k_ b ∧ blen (bits_ b') = blen (bits_ b) ∧
  ∀ idx, 0 ≤ idx → bit_at (bits_ b) idx = true → bit_at (bits_ b') idx = true.

(** * Lemmas *)

#[export] Instance bloom_le_preorder : PreOrder bloom_le.
Proof.
  split; [by intros b; split_and!|].
  intros a b c (? & ? & ? & Hab) (? & ? & ? & Hbc). split_and!; try congruence. auto.
Qed.

Lemma bloom_wf_le b b' : bloom_wf b → bloom_le b b' → bloom_wf b'.
Proof. unfold bloom_wf. intros (? & ? & ? & ?) (-> & -> & -> & _). done. Qed.

Lemma probe_range b h i : bloom_wf b → 0 ≤ probe b h i < 8 * blen (bits_ b).
Proof. intros (Hm & _ & <- & _). apply Z.mod_pos_bound. lia. Qed.

Lemma land_bit z j : 0 ≤ j → negb (Z.land z (Z.shiftl 1 j) =? 0) = Z.testbit z j.
Proof.
  intros Hj. rewrite Z.shiftl_1_l. destruct (Z.testbit z j) eqn:E.
  - apply negb_true_iff, Z.eqb_neq. intros E0.
    apply (f_equal (λ x, Z.testbit x j)) in E0.
    rewrite Z.land_spec, Z.pow2_bits_true, E, Z.bits_0 in E0 by done. done.
  - apply negb_false_iff, Z.eqb_eq, Z.bits_inj'. intros i Hi.
    rewrite Z.land_spec, Z.bits_0. destruct (decide (i = j)) as [->|]; [by rewrite E|].
    by rewrite Z.pow2_bits_false, andb_false_r by done.
Qed.

Lemma get_bit_spec bits idx :
  0 ≤ idx < 8 * blen bits → get_bit bits idx = Ok (bit_at bits idx).
Proof.
  intros Hi. unfold get_bit, bit_at, blen in *.
  destruct (bits !! Z.to_nat (idx / 8)) as [b|] eqn:E.
  - rewrite land_bit; [done|]. apply Z.mod_pos_bound. lia.
  - apply lookup_ge_None in E. pose proof (Z.div_lt_upper_bound idx 8 (Z.of_nat (length bits))).
    pose proof (Z.div_pos idx 8). lia.
Qed.

Lemma testbit_ub_high b i : 8 ≤ i → Z.testbit (ub b) i = false.
Proof.
  intros. rewrite <- (Z.mod_small (ub b) (2 ^ 8)) by apply ub_range.
  rewrite Z.testbit_mod_pow2 by lia. by rewrite (proj2 (Z.ltb_ge _ _)) by lia.
Qed.

Lemma set_bit_spec bits idx :
  0 ≤ idx < 8 * blen bits →
  ∃ bits', set_bit bits idx = Ok bits' ∧ blen bits' = blen bits ∧
    ∀ j, 0 ≤ j → bit_at bits' j = (j =? idx) || bit_at bits j.
Proof.
  intros Hi. unfold set_bit.
  destruct (bits !! Z.to_nat (idx / 8)) as [b|] eqn:E.
  2:{ apply lookup_ge_None in E. unfold blen in *.
      pose proof (Z.div_lt_upper_bound idx 8 (Z.of_nat (length bits))).
      pose proof (Z.div_pos idx 8). lia. }
  eexists. split; [done|]. split; [unfold blen; by rewrite length_insert|].
  intros j Hj. unfold bit_at. pose proof (Z.mod_pos_bound j 8 ltac:(lia)).
  pose proof (Z.mod_pos_bound idx 8 ltac:(lia)).
  pose proof (Z.div_mod j 8 ltac:(lia)). pose proof (Z.div_mod idx 8 ltac:(lia)).
  pose proof (Z.div_pos j 8). pose proof (Z.div_pos idx 8).
  destruct (decide (j / 8 = idx / 8)) as [Ed|Ed].
  - rewrite Ed, list_lookup_insert_eq, E by (by eapply lookup_lt_Some).
    rewrite ub_u8, Z.testbit_mod_pow2, Z.lor_spec, Z.shiftl_1_l, Z.pow2_bits_eqb by lia.
    rewrite (proj2 (Z.ltb_lt _ _)) by lia.
    destruct (Z.eqb_spec (idx mod 8) (j mod 8)), (Z.eqb_spec j idx);
      rewrite ?orb_true_r, ?orb_false_r; try done; lia.
  - rewrite list_lookup_insert_ne by lia. rewrite (proj2 (Z.eqb_neq _ _)) by lia. done.
Qed.

(** ** The loops *)

Lemma probe_le b b' h i : bloom_le b b' → probe b' h i = probe b h i.
Proof. intros (E & _). unfold probe. by rewrite E. Qed.

Lemma add_loop_spec n i h b :
  bloom_wf b →
  ∃ b', add_loop n i h b = Ok b' ∧ bloom_le b b' ∧
    ∀ j, i ≤ j < i + Z.of_nat n → bit_at (bits_ b') (probe b h j) = true.
Proof.
  revert i b. induction n as [|n IH]; intros i b Hwf.
  { exists b. split_and!; [done|reflexivity|lia]. }
  pose proof (probe_range b h i Hwf) as Hp.
  destruct (set_bit_spec (bits_ b) (probe b h i) Hp) as (bits & Es & El & Hb).
  cbn [add_loop]. destruct Hwf as (Hm & Hm8 & Hlen & Hk).
  rewrite (proj2 (Z.eqb_neq _ _)) by lia. rewrite Es. cbn [mbind result_bind].
  set (b1 := {| bits_ := bits; m_bits_ := m_bits_ b; k_ := k_ b |}).
  assert (bloom_le b b1) as Hle.
  { split_and!; [done|done|exact El|]. intros idx Hi Hx. simpl. rewrite Hb, Hx by done. apply orb_true_r. }
  destruct (IH (i + 1) b1) as (b' & E' & Hle' & Hset).
  { eapply bloom_wf_le; [|done]. unfold bloom_wf. split_and!; done || lia. }
  exists b'. split_and!; [done|by etrans|]. intros j Hj.
  destruct (decide (j = i)) as [->|].
  - apply Hle'; [lia|]. simpl. rewrite Hb by lia. by rewrite Z.eqb_refl.
  - rewrite <- (probe_le b b1) by done. apply Hset. lia.
Qed.

Lemma may_loop_true n i h b :
  bloom_wf b →
  (∀ j, i ≤ j < i + Z.of_nat n → bit_at (bits_ b) (probe b h j) = true) →
  may_loop n i h b = Ok true.
Proof.
  intros Hwf. revert i. induction n as [|n IH]; intros i Hset; [done|].
  cbn [may_loop]. pose proof Hwf as (Hm & _).
  rewrite (proj2 (Z.eqb_neq _ _)) by lia.
  rewrite get_bit_spec by (by apply probe_range). cbn [mbind result_bind].
  rewrite Hset by lia. simpl. apply IH. intros. apply Hset. lia.
Qed.

Lemma add_spec b key :
  bloom_wf b →
  ∃ b', add b key = Ok b' ∧ bloom_le b b' ∧ may_contain b' key = Ok true.
Proof.
  intros Hwf. destruct (add_loop_spec (Z.to_nat (k_ b)) 0 (hash key) b Hwf) as (b' & E & Hle & Hs).
  exists b'. split_and!; [done|done|]. unfold may_contain.
  apply may_loop_true; [by eapply bloom_wf_le|]. pose proof Hle as (_ & Ek & _).
  intros j Hj. rewrite Ek in Hj. rewrite (probe_le b b') by done. by apply Hs.
Qed.

(** Adding keys never removes one. *)
Lemma may_contain_le b b' key :
  bloom_wf b → bloom_le b b' → may_contain b key = Ok true → may_contain b' key = Ok true.
Proof.
  intros Hwf Hle. unfold may_contain. pose proof (bloom_wf_le _ _ Hwf Hle) as Hwf'.
  pose proof Hle as (Em & Ek & _ & Hbits). rewrite Ek. generalize 0 at 1 2.
  induction (Z.to_nat (k_ b)) as [|n IH]; intros i; [done|]. cbn [may_loop].
  rewrite !(proj2 (Z.eqb_neq _ _)) by (destruct Hwf, Hwf'; lia).
  rewrite !get_bit_spec by (by apply probe_range). cbn [mbind result_bind].
  rewrite (probe_le b b') by done.
  destruct (bit_at (bits_ b) (probe b (hash key) i)) eqn:E; [|done].
  rewrite Hbits by (done || apply probe_range, Hwf). simpl. apply IH.
Qed.

Lemma may_contain_defined b key : bloom_wf b → ∃ r, may_contain b key = Ok r.
Proof.
  intros Hwf. pose proof Hwf as (Hm & _ & _ & _). unfold may_contain. generalize 0.
  induction (Z.to_nat (k_ b)) as [|n IH]; intros i; cbn [may_loop]; [by eexists|].
  rewrite (proj2 (Z.eqb_neq _ _)) by lia. rewrite get_bit_spec by (by apply probe_range).
  cbn [mbind result_bind]. case_match; [by eexists|apply IH].
Qed.

Lemma add_all_spec b keys :
  bloom_wf b →
  ∃ b', add_all b keys = Ok b' ∧ bloom_wf b' ∧ bloom_le b b' ∧
    ∀ k, k ∈ keys → may_contain b' k = Ok true.
Proof.
  revert b. induction keys as [|k keys IH]; intros b Hwf.
  { exists b. split_and!; [done|done|reflexivity|]. intros k Hk. by apply elem_of_nil in Hk. }
  destruct (add_spec b k Hwf) as (b1 & E1 & Hle1 & Hk1).
  pose proof (bloom_wf_le _ _ Hwf Hle1) as Hwf1.
  destruct (IH b1 Hwf1) as (b2 & E2 & Hwf2 & Hle2 & Hks).
  exists b2. cbn [add_all]. rewrite E1. cbn [mbind result_bind].
  split_and!; [done|done|by etrans|]. intros k' [->|Hk']%elem_of_cons; [|by apply Hks].
  by apply (may_contain_le b1 b2).
Qed.

Lemma Bloom_new_wf key_count bits_per_key :
  0 ≤ key_count → 0 ≤ bits_per_key < 2 ^ 31 → Z.max 1 key_count * bits_per_key < 2 ^ 64 - 16 →
  bloom_wf (Bloom_new key_count bits_per_key).
Proof.
  intros Hn Hb Hsmall. unfold Bloom_new, bloom_wf. cbn [m_bits_ bits_ k_].
  set (n := if key_count =? 0 then 1 else key_count).
  assert (n = Z.max 1 key_count) as ->.
  { unfold n. destruct (Z.eqb_spec key_count 0); lia. }
  rewrite (u64_small bits_per_key) by lia. set (raw := _ * bits_per_key) in *.
  assert (0 ≤ raw) by (unfold raw; nia).
  rewrite (u64_small raw), (u64_small (raw + 7)) by lia.
  pose proof (Z.div_mod (raw + 7) 8 ltac:(lia)) as Hd.
  pose proof (Z.mod_pos_bound (raw + 7) 8 ltac:(lia)) as Hm.
  set (q := (raw + 7) / 8) in *. rewrite (u64_small (q * 8)) by lia.
  assert (∃ m, (if q * 8 <? 8 then 8 else q * 8) = 8 * m ∧ 0 < 8 * m < 2 ^ 64 - 8)
    as (m & -> & Hm').
  { destruct (Z.ltb_spec (q * 8) 8); [exists 1|exists q]; lia. }
  replace (8 * m / 8) with m by (rewrite Z.mul_comm, Z.div_mul; lia).
  rewrite blen_replicate by lia. split_and!; try lia.
  rewrite Z.mul_comm. apply Z.mod_mul. lia.
Qed.

(** The fields of a serialized header, whatever the bit array. *)
Lemma load_header k m rest :
  0 ≤ k < 2 ^ 31 → 0 ≤ m < 2 ^ 64 - 8 →
  load (put_u32_le k ++ put_u64_le m ++ rest) =
    if blen rest <? (m + 7) / 8 then Throw "Bloom: truncated bit array"
    else Ok {| bits_ := take (Z.to_nat ((m + 7) / 8)) rest; m_bits_ := m; k_ := k |}.
Proof.
  intros Hk Hm. unfold load.
  assert (drop 4 (put_u32_le k ++ put_u64_le m ++ rest) = put_u64_le m ++ rest) as -> by done.
  assert (drop 12 (put_u32_le k ++ put_u64_le m ++ rest) = rest) as -> by done.
  assert (blen (put_u32_le k ++ put_u64_le m ++ rest) = 12 + blen rest) as ->
    by (rewrite !blen_app; unfold blen at 1 2; simpl; lia).
  pose proof (blen_nonneg rest). rewrite (proj2 (Z.ltb_ge (12 + _) 12)) by lia.
  rewrite get_put_u32_le, i32_u32, i32_small, get_put_u64_le, (u64_small m) by lia.
  rewrite (u64_small (m + 7)) by lia. cbv zeta.
  pose proof (Z.div_pos (m + 7) 8). pose proof (Z.div_lt_upper_bound (m + 7) 8 (2 ^ 62)).
  rewrite (u64_small (12 + _)) by lia.
  destruct (Z.ltb_spec (12 + blen rest) (12 + (m + 7) / 8)),
    (Z.ltb_spec (blen rest) ((m + 7) / 8)); try lia; done.
Qed.

Lemma load_serialize b : bloom_wf b → load (serialize b) = Ok b.
Proof.
  intros (Hm & Hm8 & Hlen & Hk). unfold serialize. rewrite (u32_small (k_ b)) by lia.
  rewrite load_header by lia.
  assert ((m_bits_ b + 7) / 8 = blen (bits_ b)) as ->.
  { rewrite Hlen. replace (8 * blen (bits_ b) + 7) with (7 + blen (bits_ b) * 8) by lia.
    rewrite Z.div_add by lia. done. }
  rewrite (proj2 (Z.ltb_ge _ _)) by lia. unfold blen.
  rewrite Nat2Z.id, take_ge by lia. by destruct b.
Qed.

(** * Properties *)

(** C28. No false negatives. A filter built for [n] keys at any non-negative
    number of bits per key accepts all the keys of any list: every [add]
    stays inside the bit array, and afterwards [may_contain] is true of each
    key that was added, in whatever order and however many. *)
Theorem bloom_no_false_negatives (key_count bits_per_key : Z) (keys : list bytes)
    (Hn : 0 ≤ key_count) (Hb : 0 ≤ bits_per_key < 2 ^ 31)
    (Hsmall : Z.max 1 key_count * bits_per_key < 2 ^ 64 - 16) :
  ∃ b, add_all (Bloom_new key_count bits_per_key) keys = Ok b ∧ bloom_wf b ∧
    ∀ k, k ∈ keys → may_contain b k = Ok true.
Proof.
  destruct (add_all_spec (Bloom_new key_count bits_per_key) keys) as (b & ? & ? & _ & ?).
  - by apply Bloom_new_wf.
  - by exists b.
Qed.

(** Loading a serialized filter gives the filter back: the reader of an
    SSTable tests keys against exactly the bits its writer set. *)
Theorem bloom_roundtrip (b : Bloom) (Hwf : bloom_wf b) : load (serialize b) = Ok b.
Proof. by apply load_serialize. Qed.

(** A filter block is trusted. [load] accepts a header with
    [m_bits = 0] (the bloom block carries no checksum), and then [may_contain]
    divides by zero for every key as soon as [k] is positive. *)
Theorem bloom_zero_bits_undefined (k : Z) (rest key : bytes) (Hk : 1 ≤ k < 2 ^ 31) :
  ∃ b, load (put_u32_le k ++ put_u64_le 0 ++ rest) = Ok b ∧ may_contain b key = Undefined.
Proof.
  eexists. split.
  - rewrite load_header by lia. rewrite (proj2 (Z.ltb_ge _ _)) by apply blen_nonneg.
    reflexivity.
  - unfold may_contain. cbn [k_]. assert (Z.to_nat k = S (Z.to_nat (k - 1))) as -> by lia. done.
Qed.

(** ** Concrete filters *)

Lemma bloom_no_false_negatives_witness :
  ∃ b, add_all (Bloom_new 2 10) [bs "apple"; bs "pear"] = Ok b ∧
    may_contain b (bs "pear") = Ok true.
Proof.
  destruct (bloom_no_false_negatives 2 10 [bs "apple"; bs "pear"]) as (b & E & _ & Hk); [lia..|].
  exists b. split; [exact E|]. apply Hk. right. left.
Defined.

Lemma bloom_roundtrip_witness : load (serialize (Bloom_new 3 10)) = Ok (Bloom_new 3 10).
Proof. apply (bloom_roundtrip (Bloom_new 3 10)). apply Bloom_new_wf; lia. Defined.

Lemma bloom_zero_bits_witness :
  ∃ b, load (put_u32_le 7 ++ put_u64_le 0 ++ []) = Ok b ∧ may_contain b (bs "k") = Undefined.
Proof. apply (bloom_zero_bits_undefined 7 [] (bs "k")). lia. Defined.

(** A key that was not added is usually rejected. *)
Example bloom_rejects :
  (b ← add_all (Bloom_new 2 10) [bs "apple"; bs "pear"]; may_contain b (bs "fig")) = Ok false.
Proof. vm_compute. reflexivity. Qed.
