(* ===== verification/BlockCache.v ===== *)
(** The LRU block cache of src/include/keystone/block_cache.h and
    src/src/block_cache.cpp.

    [std::list] nodes have identities: the hash map stores an iterator, here a
    node number, into the recency list.  The two critical sections of
    [get_or_load] are separate definitions, since the loader runs between them
    without the lock and other threads may enter. *)

From S2P Require Import Prelude.
Local Open Scope Z_scope.

(** * Definitions *)

(** [CacheKey]: file number and block offset. *)
Abbreviation CacheKey := (Z * Z)%type.

Record CacheEntry := mkCacheEntry {
  ce_node : nat;
  ce_key : CacheKey;
  ce_block : bytes;
  ce_size : Z;
}.

Record BlockCache := mkBlockCache {
  capacity_ : Z;
  current_bytes_ : Z;
  lru_ : list CacheEntry;
  map_ : gmap CacheKey nat;
  next_node : nat;
  hits_ : Z;
  misses_ : Z;
}.

Definition BlockCache_new (capacity_bytes : Z) : BlockCache := {|
  capacity_ := capacity_bytes; current_bytes_ := 0; lru_ := []; map_ := ∅;
  next_node := 0; hits_ := 0; misses_ := 0;
|}.

(** [lru_.splice(lru_.begin(), lru_, it)] *)
Definition splice_front (it : nat) (l : list CacheEntry) : list CacheEntry :=
  List.filter (λ e, bool_decide (ce_node e = it)) l ++
  List.filter (λ e, negb (bool_decide (ce_node e = it))) l.

Definition with_lru (c : BlockCache) (l : list CacheEntry) : BlockCache := {|
  capacity_ := capacity_ c; current_bytes_ := current_bytes_ c; lru_ := l; map_ := map_ c;
  next_node := next_node c; hits_ := hits_ c; misses_ := misses_ c;
|}.

(** [map_.find(key)], the splice and [it->second->block]: common to both
    critical sections. *)
Definition touch (c : BlockCache) (key : CacheKey) : option (BlockCache * bytes) :=
  match map_ c !! key with
  | None => None
  | Some it =>
      match List.find (λ e, bool_decide (ce_node e = it)) (lru_ c) with
      | None => None
      | Some e => Some (with_lru c (splice_front it (lru_ c)), ce_block e)
      end
  end.

(** First critical section: a hit. *)
Definition lookup_section (c : BlockCache) (key : CacheKey) : BlockCache * option bytes :=
  match touch c key with
  | Some (c', block) =>
      ({| capacity_ := capacity_ c'; current_bytes_ := current_bytes_ c'; lru_ := lru_ c';
          map_ := map_ c'; next_node := next_node c'; hits_ := u64 (hits_ c' + 1);
          misses_ := misses_ c' |}, Some block)
  | None => (c, None)
  end.

(** The eviction loop; each round removes an entry. *)
Fixpoint evict (fuel : nat) (c : BlockCache) : BlockCache :=
  if capacity_ c <? current_bytes_ c then
    match last (lru_ c), fuel with
    | Some back, S fuel' =>
        evict fuel' {|
          capacity_ := capacity_ c;
          current_bytes_ := u64 (current_bytes_ c - ce_size back);
          lru_ := take (length (lru_ c) - 1) (lru_ c);
          map_ := delete (ce_key back) (map_ c);
          next_node := next_node c; hits_ := hits_ c; misses_ := misses_ c |}
    | _, _ => c
    end
  else c.

(** Second critical section: another thread may have inserted the block in
    the meantime; otherwise insert and evict. *)
Definition insert_section (c : BlockCache) (key : CacheKey) (block : bytes)
  : BlockCache * bytes :=
  match touch c key with
  | Some (c', cached) => (c', cached)
  | None =>
      let e := mkCacheEntry (next_node c) key block (blen block) in
      let c1 := {|
        capacity_ := capacity_ c; current_bytes_ := u64 (current_bytes_ c + blen block);
        lru_ := e :: lru_ c; map_ := <[key := next_node c]> (map_ c);
        next_node := S (next_node c); hits_ := hits_ c; misses_ := misses_ c |} in
      (evict (length (lru_ c1)) c1, block)
  end.

(** The counter bumped between the sections. *)
Definition count_miss (c : BlockCache) : BlockCache := {|
  capacity_ := capacity_ c; current_bytes_ := current_bytes_ c; lru_ := lru_ c;
  map_ := map_ c; next_node := next_node c; hits_ := hits_ c;
  misses_ := u64 (misses_ c + 1);
|}.

(** [get_or_load] of a thread that is not interrupted; a loader that throws
    leaves the cache as it was. *)
Definition get_or_load (c : BlockCache) (key : CacheKey) (loader : result bytes)
  : BlockCache * result bytes :=
  match lookup_section c key with
  | (c', Some block) => (c', Ok block)
  | (c', None) =>
      match loader with
      | Ok raw =>
          let r := insert_section (count_miss c') key raw in (r.1, Ok r.2)
      | Throw msg => (c', Throw msg)
      | Undefined => (c', Undefined)
      end
  end.

(** ** Interleavings: the atomic steps threads can take, in any order. *)

Inductive cache_step (content : CacheKey → bytes) : BlockCache → BlockCache → Prop :=
| step_lookup c key :
    cache_step content c (lookup_section c key).1
| step_miss c :
    cache_step content c (count_miss c)
| step_insert c key :
    cache_step content c (insert_section c key (content key)).1.

Definition reachable (content : CacheKey → bytes) (capacity : Z) (c : BlockCache) : Prop :=
  rtc (cache_step content) (BlockCache_new capacity) c.

(** ** Specification: the cache is a list of blocks, most recent first. *)

Definition block_sizes (l : list CacheEntry) : Z :=
  foldr (λ e n, blen (ce_block e) + n) 0 l.

(** List and map describe the same entries, sizes add up, and every block is
    the content of its key. *)
Record cache_inv (content : CacheKey → bytes) (c : BlockCache) : Prop := {
  inv_keys : NoDup (ce_key <$> lru_ c);
  inv_nodes : NoDup (ce_node <$> lru_ c);
  inv_fresh : Forall (λ e, ce_node e < next_node c)%nat (lru_ c);
  inv_map key : map_ c !! key =
    ce_node <$> List.find (λ e, bool_decide (ce_key e = key)) (lru_ c);
  inv_sizes : Forall (λ e, ce_size e = blen (ce_block e)) (lru_ c);
  inv_bytes : current_bytes_ c = block_sizes (lru_ c);
  inv_content : Forall (λ e, ce_block e = content (ce_key e)) (lru_ c);
}.

(** The abstract cache: the keys in order of recency.  A hit moves the key to
    the front; a miss puts it in front and keeps the longest prefix whose
    blocks fit. *)
Fixpoint fitting (size : CacheKey → Z) (room : Z) (ks : list CacheKey) : list CacheKey :=
  match ks with
  | [] => []
  | k :: ks' => if size k <=? room then k :: fitting size (room - size k) ks' else []
  end.

Definition spec_access (size : CacheKey → Z) (capacity : Z) (ks : list CacheKey)
    (key : CacheKey) : list CacheKey :=
  if decide (key ∈ ks) then key :: List.filter (λ k, negb (bool_decide (k = key))) ks
  else fitting size capacity (key :: ks).

(** * Lemmas *)

Lemma block_sizes_app a b : block_sizes (a ++ b) = block_sizes a + block_sizes b.
Proof. induction a as [|x a IH]; simpl; [done|]. unfold block_sizes in *. lia. Qed.

Lemma block_sizes_nonneg l : 0 ≤ block_sizes l.
Proof.
  induction l as [|x l IH]; simpl; [done|]. pose proof (blen_nonneg (ce_block x)).
  unfold block_sizes in *. lia.
Qed.

Lemma block_sizes_perm l l' : l ≡ₚ l' → block_sizes l = block_sizes l'.
Proof. unfold block_sizes. induction 1; simpl; lia. Qed.

(** The invariant does not depend on the order of the list. *)
Lemma cache_inv_perm content c l :
  cache_inv content c → l ≡ₚ lru_ c → cache_inv content (with_lru c l).
Proof.
  intros [] Hp. split; simpl; rewrite ?Hp; auto.
  - intros key. rewrite inv_map0. f_equal. by apply find_proj_perm.
  - rewrite inv_bytes0. by apply block_sizes_perm.
Qed.

Lemma splice_front_spec content c e :
  cache_inv content c → e ∈ lru_ c →
  splice_front (ce_node e) (lru_ c) =
    e :: List.filter (λ x, negb (bool_decide (ce_key x = ce_key e))) (lru_ c).
Proof.
  intros Hc He. unfold splice_front.
  rewrite (filter_proj ce_node) by (apply Hc || done). simpl. f_equal.
  apply filter_ext_in. intros x Hx%list_elem_of_In. f_equal. apply bool_decide_ext.
  split; intros E.
  - enough (x = e) by congruence.
    pose proof (find_proj ce_node _ x (inv_nodes _ _ Hc) Hx) as F. rewrite E in F.
    rewrite (find_proj ce_node _ e (inv_nodes _ _ Hc) He) in F. congruence.
  - enough (x = e) by congruence.
    pose proof (find_proj ce_key _ x (inv_keys _ _ Hc) Hx) as F. rewrite E in F.
    rewrite (find_proj ce_key _ e (inv_keys _ _ Hc) He) in F. congruence.
Qed.

Lemma touch_spec content c key :
  cache_inv content c →
  match touch c key with
  | Some (c', block) =>
      ∃ e, e ∈ lru_ c ∧ ce_key e = key ∧ block = content key ∧
        c' = with_lru c (e :: List.filter (λ x, negb (bool_decide (ce_key x = key))) (lru_ c)) ∧
        lru_ c' ≡ₚ lru_ c
  | None => key ∉ (ce_key <$> lru_ c)
  end.
Proof.
  intros Hc. unfold touch. rewrite (inv_map _ _ Hc).
  destruct (List.find _ (lru_ c)) as [e|] eqn:E; simpl.
  - apply find_proj_Some in E as [He <-].
    rewrite (find_proj ce_node) by (apply Hc || done).
    exists e. split_and!; [done|done| | |].
    + pose proof (inv_content _ _ Hc) as Hco. rewrite Forall_forall in Hco. auto.
    + by rewrite (splice_front_spec content) by done.
    + simpl. apply filter_split_perm.
  - by apply find_proj_None in E.
Qed.

(** One round of the eviction loop: the back entry leaves list and map. *)
Lemma evict_round content c l back :
  cache_inv content c → lru_ c = l ++ [back] → block_sizes (lru_ c) < 2 ^ 64 →
  cache_inv content {|
    capacity_ := capacity_ c; current_bytes_ := u64 (current_bytes_ c - ce_size back);
    lru_ := l; map_ := delete (ce_key back) (map_ c);
    next_node := next_node c; hits_ := hits_ c; misses_ := misses_ c |}.
Proof.
  intros [Hk Hn Hfr Hm Hsz Hb Hco] El Hs.
  rewrite El in Hk, Hn, Hfr, Hsz, Hb, Hco, Hs.
  rewrite fmap_app in Hk. rewrite fmap_app in Hn.
  apply NoDup_app in Hk as (Hk & Hkb & _).
  apply NoDup_app in Hn as (Hn & _ & _).
  apply Forall_app in Hfr as [Hfr _]. apply Forall_app in Hco as [Hco _].
  apply Forall_app in Hsz as [Hsz Hszb]. apply Forall_cons in Hszb as [Hszb _].
  split; simpl; auto.
  - intros key. destruct (decide (key = ce_key back)) as [->|Hne].
    + rewrite lookup_delete_eq. symmetry. rewrite (proj2 (find_proj_None _ _ _)); [done|].
      intros Hin. apply (Hkb _ Hin). by left.
    + rewrite lookup_delete_ne, Hm, El, find_app by done. f_equal.
      destruct (List.find _ l) as [e|]; [done|]. simpl.
      by rewrite bool_decide_eq_false_2 by auto.
  - pose proof (block_sizes_nonneg l). pose proof (blen_nonneg (ce_block back)).
    rewrite block_sizes_app in Hb, Hs. unfold block_sizes in Hb, Hs at 2.
    cbn [foldr] in Hb, Hs. rewrite Hb, Hszb. fold (block_sizes l) in *.
    rewrite u64_small; lia.
Qed.

Lemma evict_spec content fuel c :
  cache_inv content c → (length (lru_ c) ≤ fuel)%nat → block_sizes (lru_ c) < 2 ^ 64 →
  0 ≤ capacity_ c →
  cache_inv content (evict fuel c) ∧ capacity_ (evict fuel c) = capacity_ c ∧
  ∃ n, lru_ (evict fuel c) = take n (lru_ c) ∧
    block_sizes (take n (lru_ c)) ≤ capacity_ c ∧
    ((n < length (lru_ c))%nat → capacity_ c < block_sizes (take (S n) (lru_ c))).
Proof.
  revert c. induction fuel as [|fuel IH]; intros c Hc Hf Hs Hcap;
    (destruct (Z.lt_ge_cases (capacity_ c) (current_bytes_ c)) as [Hlt|Hge];
     [|cbn [evict]; rewrite (proj2 (Z.ltb_ge _ _)) by done; split_and!; [done|done|];
       exists (length (lru_ c)); rewrite (inv_bytes _ _ Hc) in Hge;
       rewrite firstn_all; split_and!; [done|done|lia]]);
    pose proof Hlt as Hlt'; rewrite (inv_bytes _ _ Hc) in Hlt';
    destruct (lru_ c) as [|back l _] eqn:El using rev_ind;
    try (unfold block_sizes in Hlt'; simpl in Hlt'; lia).
  { rewrite length_app in Hf. simpl in Hf. lia. }
  cbn [evict]. rewrite (proj2 (Z.ltb_lt _ _)) by done. rewrite El, last_snoc.
  rewrite length_app, Nat.add_sub, take_app_length.
  pose proof (evict_round content c l back Hc El) as Hc1. rewrite El in Hc1.
  specialize (Hc1 Hs). pose proof (blen_nonneg (ce_block back)).
  match type of Hc1 with cache_inv _ ?c1 => set (c2 := c1) in * end.
  destruct (IH c2) as (Hi & Hcp & n & E & Hle & Hmax); auto.
  { simpl. rewrite length_app in Hf. simpl in Hf. lia. }
  { simpl. rewrite block_sizes_app in Hs. unfold block_sizes in Hs at 2. simpl in Hs. lia. }
  split_and!; [done|done|]. simpl in E, Hle, Hmax. exists (n `min` length l)%nat.
  rewrite E. rewrite !take_app_le by lia.
  assert (take (n `min` length l) l = take n l) as ->.
  { destruct (Nat.le_ge_cases n (length l)); [by rewrite Nat.min_l|].
    rewrite Nat.min_r, !take_ge by lia. done. }
  split_and!; [done|done|]. simpl. intros Hn.
  destruct (Nat.lt_ge_cases n (length l)) as [Hnl|Hnl].
  - rewrite Nat.min_l, take_app_le by lia. auto.
  - rewrite Nat.min_r, take_ge by (try rewrite length_app; simpl; lia). done.
Qed.

(** The longest prefix that fits is unique. *)
Lemma fitting_take content room l n :
  Forall (λ e, ce_block e = content (ce_key e)) l →
  block_sizes (take n l) ≤ room →
  ((n < length l)%nat → room < block_sizes (take (S n) l)) →
  fitting (λ k, blen (content k)) room (ce_key <$> l) = ce_key <$> take n l.
Proof.
  intros Hl. revert room n. induction Hl as [|e l He Hl IH]; intros room n Hle Hmax.
  { by rewrite take_nil. }
  rewrite fmap_cons. cbn [fitting]. rewrite <- He.
  destruct n as [|n]; cbn [take] in *; unfold block_sizes in Hle, Hmax; cbn [foldr] in Hle, Hmax.
  - rewrite (proj2 (Z.leb_gt _ _)); [done|]. specialize (Hmax ltac:(simpl; lia)).
    rewrite take_0 in Hmax. simpl in Hmax. lia.
  - fold (block_sizes (take n l)) in Hle. fold (block_sizes (take (S n) l)) in Hmax.
    pose proof (block_sizes_nonneg (take n l)).
    rewrite (proj2 (Z.leb_le _ _)) by lia. rewrite fmap_cons. f_equal. apply IH; [lia|].
    intros. specialize (Hmax ltac:(simpl; lia)). lia.
Qed.

Lemma lookup_section_spec content c key :
  cache_inv content c →
  let r := lookup_section c key in
  cache_inv content r.1 ∧ capacity_ r.1 = capacity_ c ∧
  block_sizes (lru_ r.1) = block_sizes (lru_ c) ∧
  match r.2 with
  | Some block => block = content key ∧ key ∈ (ce_key <$> lru_ c) ∧
      (ce_key <$> lru_ r.1) =
        key :: List.filter (λ k, negb (bool_decide (k = key))) (ce_key <$> lru_ c)
  | None => (key ∉ (ce_key <$> lru_ c)) ∧ r.1 = c
  end.
Proof.
  intros Hc r. subst r. unfold lookup_section. pose proof (touch_spec content c key Hc) as T.
  destruct (touch c key) as [[c' block]|]; [|done].
  destruct T as (e & He & Hk & -> & -> & Hp). cbn [with_lru lru_] in Hp.
  pose proof (cache_inv_perm content c _ Hc Hp) as []. cbn [fst snd].
  split_and!; [by split| done | by apply block_sizes_perm | done | |].
  - rewrite <- Hk. by apply list_elem_of_fmap_2.
  - simpl. rewrite Hk. f_equal. clear. induction (lru_ c) as [|x l IH]; simpl; [done|].
    destruct (bool_decide (ce_key x = key)); simpl; [done|]. by f_equal.
Qed.

Lemma insert_section_spec content c key :
  cache_inv content c → 0 ≤ capacity_ c → block_sizes (lru_ c) ≤ capacity_ c →
  capacity_ c + blen (content key) < 2 ^ 64 →
  let r := insert_section c key (content key) in
  cache_inv content r.1 ∧ capacity_ r.1 = capacity_ c ∧
  block_sizes (lru_ r.1) ≤ capacity_ c ∧ r.2 = content key ∧
  (ce_key <$> lru_ r.1) =
    spec_access (λ k, blen (content k)) (capacity_ c) (ce_key <$> lru_ c) key.
Proof.
  intros Hc Hcap Hb Hfit r. subst r. unfold insert_section, spec_access.
  pose proof (touch_spec content c key Hc) as T.
  destruct (touch c key) as [[c' block]|].
  - destruct T as (e & He & Hk & -> & -> & Hp). cbn [with_lru lru_] in Hp.
    split_and!; [by apply cache_inv_perm|done| |done|].
    + cbn [fst with_lru lru_]. by rewrite (block_sizes_perm _ _ Hp).
    + rewrite decide_True by (rewrite <- Hk; by apply list_elem_of_fmap_2).
      simpl. rewrite Hk. f_equal. clear. induction (lru_ c) as [|x l IH]; simpl; [done|].
      destruct (bool_decide (ce_key x = key)); simpl; [done|]. by f_equal.
  - rewrite decide_False by done. pose proof Hc as [].
    match goal with |- context [evict _ ?c'] => set (c1 := c') end.
    pose proof (block_sizes_nonneg (lru_ c)). pose proof (blen_nonneg (content key)).
    destruct (evict_spec content (length (lru_ c1)) c1) as (Hi & Hcp & n & E & Hle & Hmax);
      [|done|simpl; unfold block_sizes in *; simpl; lia|done|].
    + split; simpl; try (constructor; auto).
      * intros (x & Hx & Hin)%list_elem_of_fmap. rewrite Forall_forall in inv_fresh0.
        specialize (inv_fresh0 x Hin). simpl in *. lia.
      * eapply Forall_impl; [exact inv_fresh0|]. simpl. lia.
      * intros k. destruct (decide (k = key)) as [->|Hne].
        -- by rewrite lookup_insert_eq, bool_decide_eq_true_2.
        -- rewrite lookup_insert_ne, bool_decide_eq_false_2 by auto. done.
      * rewrite inv_bytes0, u64_small by lia. unfold block_sizes. simpl. lia.
    + split_and!; [done|done| |done|]; cbn [fst]; fold c1; rewrite E; [done|]. symmetry.
      apply (fitting_take content (capacity_ c) (lru_ c1) n);
        [by constructor|done|done].
Qed.

Lemma get_or_load_spec content c key :
  cache_inv content c → 0 ≤ capacity_ c → block_sizes (lru_ c) ≤ capacity_ c →
  capacity_ c + blen (content key) < 2 ^ 64 →
  let r := get_or_load c key (Ok (content key)) in
  r.2 = Ok (content key) ∧ cache_inv content r.1 ∧ capacity_ r.1 = capacity_ c ∧
  block_sizes (lru_ r.1) ≤ capacity_ c ∧
  (ce_key <$> lru_ r.1) =
    spec_access (λ k, blen (content k)) (capacity_ c) (ce_key <$> lru_ c) key ∧
  (key ∈ (ce_key <$> lru_ c) → ∀ loader, get_or_load c key loader = r).
Proof.
  intros Hc Hcap Hb Hfit r. subst r. unfold get_or_load.
  pose proof (lookup_section_spec content c key Hc) as (Hi & Hcp & Hs & Hr).
  destruct (lookup_section c key) as [c' [block|]]; simpl in *.
  - destruct Hr as (-> & Hin & Hk). split_and!; [done|done|done|lia| |done].
    unfold spec_access. by rewrite decide_True.
  - destruct Hr as [Hk ->].
    destruct (insert_section_spec content (count_miss c) key) as (? & ? & ? & E & E');
      [by destruct Hc|done|done|done|].
    rewrite E. split_and!; [done|done|done|done|done|]. intros Hin. by destruct (Hk Hin).
Qed.

(** Rule induction over the interleaved critical sections. *)
Lemma reachable_inv content capacity c :
  0 ≤ capacity → (∀ k, capacity + blen (content k) < 2 ^ 64) →
  reachable content capacity c →
  cache_inv content c ∧ capacity_ c = capacity ∧ block_sizes (lru_ c) ≤ capacity.
Proof.
  intros Hcap Hfit Hr.
  unfold reachable in Hr. remember (BlockCache_new capacity) as c0 eqn:E0.
  assert (cache_inv content c0 ∧ capacity_ c0 = capacity ∧ block_sizes (lru_ c0) ≤ capacity)
    as H0 by (subst; split_and!; [split; by try constructor|done|done]).
  clear E0. induction Hr as [|c0 c1 c2 Hst _ IH]; [done|]. apply IH.
  destruct H0 as (Hc & Hcp & Hb). destruct Hst as [c0 key|c0|c0 key].
  - pose proof (lookup_section_spec content c0 key Hc) as (? & ? & ? & _).
    split_and!; [done|congruence|lia].
  - by destruct Hc.
  - pose proof (insert_section_spec content c0 key Hc) as (? & ? & ? & _);
      rewrite ?Hcp; auto. split_and!; [done|congruence|lia].
Qed.

(** * Properties *)

(** C29. Whatever the interleaving of the threads' critical sections, the cache
    stays consistent: the hash map names exactly the nodes of the recency list,
    no key is cached twice, the byte count is the sum of the cached blocks and
    never exceeds the capacity, and every cached block is the content of its
    key. *)
Theorem cache_invariant content capacity c :
  0 ≤ capacity → (∀ k, capacity + blen (content k) < 2 ^ 64) →
  reachable content capacity c →
  cache_inv content c ∧ capacity_ c = capacity ∧ current_bytes_ c ≤ capacity.
Proof.
  intros Hcap Hfit Hr. destruct (reachable_inv content capacity c) as (Hc & ? & ?); auto.
  by rewrite (inv_bytes _ _ Hc).
Qed.

(** C30. [get_or_load] refines an LRU cache: it returns the content of the key,
    hit or miss; a hit moves the key to the front and calls no loader; a miss
    puts it in front and keeps the longest prefix of the recency order whose
    blocks fit into the capacity. *)
Theorem cache_lru_refinement content c key :
  cache_inv content c → 0 ≤ capacity_ c → block_sizes (lru_ c) ≤ capacity_ c →
  capacity_ c + blen (content key) < 2 ^ 64 →
  let r := get_or_load c key (Ok (content key)) in
  r.2 = Ok (content key) ∧ cache_inv content r.1 ∧
  (ce_key <$> lru_ r.1) =
    spec_access (λ k, blen (content k)) (capacity_ c) (ce_key <$> lru_ c) key ∧
  (key ∈ (ce_key <$> lru_ c) → ∀ loader, get_or_load c key loader = r).
Proof.
  intros Hc Hcap Hb Hfit r.
  destruct (get_or_load_spec content c key) as (? & ? & _ & _ & ? & ?); auto.
Qed.

(** * Witnesses *)

Definition demo_content (k : CacheKey) : bytes := replicate (Z.to_nat (k.2 `mod` 4)) Byte.x41.

Definition demo_cache : BlockCache :=
  (insert_section (insert_section (BlockCache_new 5) (1, 2) (demo_content (1, 2))).1
     (1, 3) (demo_content (1, 3))).1.

Lemma demo_content_small k : blen (demo_content k) < 4.
Proof.
  unfold demo_content. pose proof (Z.mod_pos_bound k.2 4). rewrite blen_replicate; lia.
Qed.

Lemma demo_reachable : reachable demo_content 5 demo_cache.
Proof.
  eapply rtc_l; [apply step_insert|]. eapply rtc_l; [apply step_insert|]. apply rtc_refl.
Qed.

Lemma cache_invariant_witness :
  current_bytes_ demo_cache = 5 ∧ cache_inv demo_content demo_cache.
Proof.
  split; [by vm_compute|].
  apply (cache_invariant demo_content 5 demo_cache); [lia| |apply demo_reachable].
  intros k. pose proof (demo_content_small k). lia.
Defined.

(** A one-byte block more evicts the least recently used one. *)
Lemma cache_lru_witness :
  (get_or_load demo_cache (1, 5) (Ok (demo_content (1, 5)))).2 = Ok [Byte.x41] ∧
  (ce_key <$> lru_ (get_or_load demo_cache (1, 5) (Ok (demo_content (1, 5)))).1)
    = [(1, 5); (1, 3)].
Proof.
  destruct (cache_lru_refinement demo_content demo_cache (1, 5)) as (E & _ & K & _).
  - apply (reachable_inv demo_content 5); [lia| |apply demo_reachable].
    intros k. pose proof (demo_content_small k). lia.
  - by vm_compute.
  - by vm_compute.
  - by vm_compute.
  - split; [exact E|]. rewrite K. by vm_compute.
Defined.
