(* ===== verification/SSTableWriter.v ===== *)
(** [SSTableWriter] of src/include/keystone/sstable.h and src/src/sstable.cpp:
    entries are packed into checksummed blocks, followed by an index, a bloom
    filter and a footer.

    The lemmas describe the file a run of the writer leaves as a function of
    the entries: how they are split into blocks ([layout]) and the bytes of
    the whole file ([sst_image]). *)

From S2P Require Import Prelude Coding Crc32 Entry Bloom.
Local Open Scope Z_scope.

(** * Definitions *)

Definition kMagic : Z := 0x4B535442.
Definition kFormatVersion : Z := 3.
Definition kFooterSize : Z := 40.
Definition kBlockTargetSize : Z := 4096.

Record IndexEntry := mkIndexEntry {
  first_key : bytes;
  ie_offset : Z;
  ie_length : Z;
}.

Record SSTableWriter := mkWriter {
  w_file : File;
  block_buf_ : bytes;
  block_first_key_ : bytes;
  current_offset_ : Z;
  w_index_ : list IndexEntry;
  entry_count_ : Z;
  max_seq_ : Z;
  smallest_key_ : bytes;
  largest_key_ : bytes;
  keys_ : list bytes;
}.

(** The constructor, once [O_TRUNC] has emptied the temporary file. *)
Definition SSTableWriter_new : SSTableWriter := {|
  w_file := mkFile [] 0; block_buf_ := []; block_first_key_ := []; current_offset_ := 0;
  w_index_ := []; entry_count_ := 0; max_seq_ := 0; smallest_key_ := []; largest_key_ := [];
  keys_ := [];
|}.

Definition with_file (w : SSTableWriter) (f : File) : SSTableWriter := {|
  w_file := f; block_buf_ := block_buf_ w; block_first_key_ := block_first_key_ w;
  current_offset_ := current_offset_ w; w_index_ := w_index_ w;
  entry_count_ := entry_count_ w; max_seq_ := max_seq_ w;
  smallest_key_ := smallest_key_ w; largest_key_ := largest_key_ w; keys_ := keys_ w;
|}.

(** The bytes [add] appends to the block buffer. *)
Definition entry_bytes (key value : bytes) (tombstone : bool) (s : Z) : bytes :=
  [if tombstone then Byte.x01 else Byte.x00] ++ put_u64_le s ++
  put_u32_le (u32 (blen key)) ++ put_u32_le (if tombstone then 0 else u32 (blen value)) ++
  key ++ (if negb tombstone && negb (bool_decide (value = [])) then value else []).

Section WriterOps.
Context `{Posix}.

(** [write_fully(fd_, ...)]: the exception leaves the writer to its
    destructor.  A call that never returns has no outcome. *)
Definition writer_write (w : SSTableWriter) (buf : bytes) : result SSTableWriter :=
  let r := write_fully (w_file w) buf in
  match r.2 with
  | IoDone => Ok (with_file w r.1)
  | IoThrown msg => Throw msg
  | IoPending | IoUndefined => Undefined
  end.

Definition flush_block (w : SSTableWriter) : result SSTableWriter :=
  if bool_decide (block_buf_ w = []) then Ok w else
  let checksum := crc32 (block_buf_ w) in
  let total := u64 (blen (block_buf_ w) + 4) in
  let index := w_index_ w ++ [mkIndexEntry (block_first_key_ w) (current_offset_ w) total] in
  w1 ← writer_write w (block_buf_ w);
  w2 ← writer_write w1 (put_u32_le checksum);
  Ok {| w_file := w_file w2; block_buf_ := []; block_first_key_ := [];
        current_offset_ := u64 (current_offset_ w2 + total); w_index_ := index;
        entry_count_ := entry_count_ w2; max_seq_ := max_seq_ w2;
        smallest_key_ := smallest_key_ w2; largest_key_ := largest_key_ w2;
        keys_ := keys_ w2 |}.

(** [add] behind the decision to close the block. *)
Definition push_entry (w : SSTableWriter) (key value : bytes) (tombstone : bool) (s : Z)
  : SSTableWriter := {|
  w_file := w_file w;
  block_buf_ := block_buf_ w ++ entry_bytes key value tombstone s;
  block_first_key_ := if bool_decide (block_buf_ w = []) then key else block_first_key_ w;
  current_offset_ := current_offset_ w; w_index_ := w_index_ w;
  entry_count_ := u64 (entry_count_ w + 1);
  max_seq_ := if max_seq_ w <? s then s else max_seq_ w;
  smallest_key_ := if entry_count_ w =? 0 then key else smallest_key_ w;
  largest_key_ := key; keys_ := keys_ w ++ [key];
|}.

Definition writer_add (w : SSTableWriter) (key value : bytes) (tombstone : bool) (s : Z)
  : result SSTableWriter :=
  w ← (if negb (bool_decide (block_buf_ w = [])) &&
          (kBlockTargetSize <=? blen (block_buf_ w)) &&
          negb (bytes_eqb key (block_first_key_ w))
       then flush_block w else Ok w);
  Ok (push_entry w key value tombstone s).

(** The loop of [finish] over the index, with its running size. *)
Fixpoint write_index (w : SSTableWriter) (index : list IndexEntry) (index_size : Z)
  : result (SSTableWriter * Z) :=
  match index with
  | [] => Ok (w, index_size)
  | ie :: index' =>
      w1 ← writer_write w (put_u32_le (u32 (blen (first_key ie))));
      w2 ← writer_write w1 (first_key ie);
      w3 ← writer_write w2 (put_u64_le (ie_offset ie) ++ put_u64_le (ie_length ie));
      write_index w3 index' (u64 (index_size + u64 (4 + blen (first_key ie) + 16)))
  end.

(** [finish] up to [::close]: the file of the table. *)
Definition finish (w : SSTableWriter) : result File :=
  w1 ← flush_block w;
  let index_offset := current_offset_ w1 in
  wi ← write_index w1 (w_index_ w1) 0;
  let bloom_offset := u64 (index_offset + wi.2) in
  bloom ← add_all (Bloom_new (Z.of_nat (length (keys_ w1))) 10) (keys_ w1);
  w2 ← writer_write wi.1 (serialize bloom);
  w3 ← writer_write w2
    (put_u64_le index_offset ++ put_u64_le bloom_offset ++ put_u64_le (entry_count_ w1) ++
     put_u64_le (max_seq_ w1) ++ put_u32_le kFormatVersion ++ put_u32_le kMagic);
  Ok (durable_sync (w_file w3)).

(** The loops of [DB::flush] and of the compaction that feed a writer. *)
Fixpoint add_entries (w : SSTableWriter) (es : list Entry) : result SSTableWriter :=
  match es with
  | [] => Ok w
  | e :: es' =>
      w' ← writer_add w (e_key e) (e_value e) (e_tombstone e) (e_seq e);
      add_entries w' es'
  end.

End WriterOps.

(** ** The file as a function of the entries *)

Definition encode_sst_entry (e : Entry) : bytes :=
  entry_bytes (e_key e) (e_value e) (e_tombstone e) (e_seq e).

Definition encode_block (b : list Entry) : bytes := mjoin (encode_sst_entry <$> b).

Definition block_image (b : list Entry) : bytes :=
  encode_block b ++ put_u32_le (crc32 (encode_block b)).

Definition block_key (b : list Entry) : bytes :=
  match b with [] => [] | e :: _ => e_key e end.

(** The split into blocks: a block is closed when it has reached the target
    size and the next key differs from the block's FIRST key. *)
Definition layout_add (l : list (list Entry) * list Entry) (e : Entry)
  : list (list Entry) * list Entry :=
  if negb (bool_decide (l.2 = [])) && (kBlockTargetSize <=? blen (encode_block l.2)) &&
     negb (bytes_eqb (e_key e) (block_key l.2))
  then (l.1 ++ [l.2], [e]) else (l.1, l.2 ++ [e]).

Definition close_layout (l : list (list Entry) * list Entry) : list (list Entry) :=
  if bool_decide (l.2 = []) then l.1 else l.1 ++ [l.2].

Definition layout (es : list Entry) : list (list Entry) :=
  close_layout (fold_left layout_add es ([], [])).

Fixpoint index_of (off : Z) (blocks : list (list Entry)) : list IndexEntry :=
  match blocks with
  | [] => []
  | b :: bs' =>
      mkIndexEntry (block_key b) off (blen (encode_block b) + 4)
        :: index_of (off + blen (encode_block b) + 4) bs'
  end.

Definition data_image (blocks : list (list Entry)) : bytes := mjoin (block_image <$> blocks).

Definition index_entry_image (ie : IndexEntry) : bytes :=
  put_u32_le (u32 (blen (first_key ie))) ++ first_key ie ++
  put_u64_le (ie_offset ie) ++ put_u64_le (ie_length ie).

Definition index_image (index : list IndexEntry) : bytes := mjoin (index_entry_image <$> index).

Definition max_seq_of (es : list Entry) : Z := foldr (λ e m, Z.max (e_seq e) m) 0 es.

Definition footer_image (index_offset bloom_offset count max_seq : Z) : bytes :=
  put_u64_le index_offset ++ put_u64_le bloom_offset ++ put_u64_le count ++
  put_u64_le max_seq ++ put_u32_le kFormatVersion ++ put_u32_le kMagic.

Definition sst_body (blocks : list (list Entry)) (bloom : Bloom) : bytes :=
  data_image blocks ++ index_image (index_of 0 blocks) ++ serialize bloom.

Definition sst_image (es : list Entry) (bloom : Bloom) : bytes :=
  let blocks := layout es in
  let index_offset := blen (data_image blocks) in
  sst_body blocks bloom ++
  footer_image index_offset (index_offset + blen (index_image (index_of 0 blocks)))
    (Z.of_nat (length es)) (max_seq_of es).

(** What the format can represent: 64-bit numbers, 32-bit lengths, and a
    tombstone has no value. *)
Definition sst_entry_ok (e : Entry) : Prop :=
  0 ≤ e_seq e < 2 ^ 64 ∧ blen (e_key e) < 2 ^ 32 ∧ blen (e_value e) < 2 ^ 32 ∧
  (e_tombstone e = true → e_value e = []).

#[export] Instance sst_entry_ok_dec e : Decision (sst_entry_ok e).
Proof.
  unfold sst_entry_ok. apply _.
Defined.

(** The encoded entries take less than 2^60 bytes, so that no offset, count or
    size of the file wraps. *)
Definition sst_fits (es : list Entry) : Prop := blen (encode_block es) < 2 ^ 60.

(** The state of a writer that has closed [blocks] and holds [cur]. *)
Definition writer_of (blocks : list (list Entry)) (cur : list Entry) : SSTableWriter :=
  let es := mjoin blocks ++ cur in {|
  w_file := mkFile (data_image blocks) 0;
  block_buf_ := encode_block cur;
  block_first_key_ := block_key cur;
  current_offset_ := blen (data_image blocks);
  w_index_ := index_of 0 blocks;
  entry_count_ := Z.of_nat (length es);
  max_seq_ := max_seq_of es;
  smallest_key_ := block_key es;
  largest_key_ := default [] (e_key <$> last es);
  keys_ := e_key <$> es;
|}.

(** * Lemmas *)

Lemma mjoin_snoc {A} (l : list (list A)) x : mjoin (l ++ [x]) = mjoin l ++ x.
Proof. induction l as [|y l IH]; simpl; [by rewrite app_nil_r|]. by rewrite IH, (assoc_L (++)). Qed.

Lemma encode_block_cons e b : encode_block (e :: b) = encode_sst_entry e ++ encode_block b.
Proof. done. Qed.

Lemma encode_block_app a b : encode_block (a ++ b) = encode_block a ++ encode_block b.
Proof. unfold encode_block. by rewrite fmap_app, join_app. Qed.

Lemma encode_block_single e : encode_block [e] = encode_sst_entry e.
Proof. unfold encode_block. simpl. by rewrite app_nil_r. Qed.

Lemma blen_entry_bytes e : 17 + blen (e_key e) ≤ blen (encode_sst_entry e).
Proof.
  unfold encode_sst_entry, entry_bytes. autorewrite with ks_len.
  change (blen [_]) with 1. pose proof (blen_nonneg (e_value e)).
  case_match; [lia|]. change (blen []) with 0. lia.
Qed.

Lemma encode_block_size b : 17 * Z.of_nat (length b) ≤ blen (encode_block b).
Proof.
  induction b as [|e b IH]; [done|]. rewrite encode_block_cons, blen_app.
  pose proof (blen_entry_bytes e). pose proof (blen_nonneg (e_key e)). cbn [length]. lia.
Qed.

Lemma encode_block_nil b : encode_block b = [] ↔ b = [].
Proof.
  split; [|intros ->; done]. intros E. pose proof (encode_block_size b) as Hb.
  rewrite E in Hb. destruct b; [done|]. change (blen []) with 0 in Hb. cbn [length] in Hb. lia.
Qed.

Lemma sst_fits_app a b : sst_fits (a ++ b) → sst_fits a ∧ sst_fits b.
Proof.
  unfold sst_fits. rewrite encode_block_app, blen_app.
  pose proof (blen_nonneg (encode_block a)). pose proof (blen_nonneg (encode_block b)). lia.
Qed.

Lemma data_image_snoc bs b : data_image (bs ++ [b]) = data_image bs ++ block_image b.
Proof. unfold data_image. rewrite fmap_app. apply mjoin_snoc. Qed.

Lemma block_image_size b : blen (block_image b) = blen (encode_block b) + 4.
Proof. unfold block_image. rewrite blen_app. done. Qed.

Lemma data_image_size bs :
  Forall (.≠ []) bs → blen (data_image bs) ≤ 2 * blen (encode_block (mjoin bs)).
Proof.
  induction 1 as [|b bs Hb Hbs IH]; [done|]. unfold data_image in *.
  rewrite fmap_cons, mjoin_cons, mjoin_cons, encode_block_app, !blen_app, block_image_size.
  pose proof (encode_block_size b). destruct b; [done|]. cbn [length] in *. lia.
Qed.

Lemma index_of_snoc off bs b :
  index_of off (bs ++ [b]) =
    index_of off bs ++
    [mkIndexEntry (block_key b) (off + blen (data_image bs)) (blen (encode_block b) + 4)].
Proof.
  revert off. induction bs as [|b' bs IH]; intros off; simpl.
  - by rewrite Z.add_0_r.
  - rewrite IH. unfold data_image. rewrite fmap_cons, mjoin_cons, blen_app, block_image_size.
    do 4 f_equal. lia.
Qed.

Lemma blen_index_entry_image ie : blen (index_entry_image ie) = 20 + blen (first_key ie).
Proof. unfold index_entry_image. autorewrite with ks_len. lia. Qed.

Lemma index_image_size bs off :
  Forall (.≠ []) bs → blen (index_image (index_of off bs)) ≤ 2 * blen (encode_block (mjoin bs)).
Proof.
  intros Hbs. revert off. induction Hbs as [|b bs Hb Hbs IH]; intros off; [done|].
  cbn [index_of]. unfold index_image in *. rewrite fmap_cons, mjoin_cons, mjoin_cons.
  rewrite encode_block_app, !blen_app. specialize (IH (off + blen (encode_block b) + 4)).
  destruct b as [|e b]; [done|]. rewrite encode_block_cons in *. rewrite !blen_app in *.
  pose proof (blen_entry_bytes e). pose proof (blen_nonneg (encode_block b)).
  pose proof (blen_nonneg (e_key e)).
  rewrite blen_index_entry_image. cbn [first_key block_key]. lia.
Qed.

(** ** The layout *)

Lemma layout_add_join l e : mjoin (layout_add l e).1 ++ (layout_add l e).2 = (mjoin l.1 ++ l.2) ++ [e].
Proof.
  unfold layout_add. case_match; simpl.
  - by rewrite mjoin_snoc.
  - by rewrite (assoc_L (++)).
Qed.

Lemma layout_fold_join es l :
  let r := fold_left layout_add es l in mjoin r.1 ++ r.2 = (mjoin l.1 ++ l.2) ++ es.
Proof.
  revert l. induction es as [|e es IH]; intros l; simpl; [by rewrite app_nil_r|].
  rewrite IH, layout_add_join, <- (assoc_L (++)). done.
Qed.

Lemma mjoin_close_layout l : mjoin (close_layout l) = mjoin l.1 ++ l.2.
Proof.
  unfold close_layout. case_bool_decide as E; [by rewrite E, app_nil_r|]. apply mjoin_snoc.
Qed.

(** The blocks hold the entries, in order. *)
Lemma mjoin_layout es : mjoin (layout es) = es.
Proof. unfold layout. by rewrite mjoin_close_layout, layout_fold_join. Qed.

Lemma layout_add_nonempty l e : Forall (.≠ []) l.1 → Forall (.≠ []) (layout_add l e).1.
Proof.
  intros Hl. unfold layout_add. case_match; [|done]. bool_hyps. simpl.
  apply Forall_app. split; [done|]. by constructor.
Qed.

Lemma layout_nonempty es : Forall (.≠ []) (layout es).
Proof.
  unfold layout. set (l := ([], []) : list (list Entry) * list Entry).
  assert (Forall (.≠ []) l.1) as Hl by constructor. clearbody l. revert l Hl.
  induction es as [|e es IH]; intros l Hl; simpl.
  - unfold close_layout. case_bool_decide; [done|]. apply Forall_app. split; [done|].
    by constructor.
  - by apply IH, layout_add_nonempty.
Qed.

(** ** The writer *)

Lemma max_seq_of_snoc es e : 0 ≤ e_seq e → max_seq_of (es ++ [e]) = Z.max (max_seq_of es) (e_seq e).
Proof. intros. unfold max_seq_of. induction es as [|x es IH]; simpl; lia. Qed.

Lemma max_seq_of_nonneg es : 0 ≤ max_seq_of es.
Proof. unfold max_seq_of. induction es; simpl; lia. Qed.

Lemma max_seq_of_ge es e : e ∈ es → e_seq e ≤ max_seq_of es.
Proof.
  unfold max_seq_of. induction 1 as [e es|e x es _ IH]; simpl; lia.
Qed.

Lemma max_seq_of_lt es : Forall sst_entry_ok es → max_seq_of es < 2 ^ 64.
Proof. induction 1 as [|e es [? _] _ IH]; [done|]. unfold max_seq_of in *. cbn [foldr]. lia. Qed.

Section WriterLemmas.
#[local] Set Default Proof Using "All".
Context `{PosixOk}.

Lemma writer_write_ok w buf :
  writer_write w buf =
    Ok (with_file w (mkFileAfter (f_data (w_file w) ++ buf) (f_synced (w_file w)) (f_older (w_file w)))).
Proof. unfold writer_write. by rewrite write_fully_ok. Qed.

Lemma flush_block_of bs cur :
  cur ≠ [] → Forall (.≠ []) bs → sst_fits (mjoin bs ++ cur) →
  flush_block (writer_of bs cur) = Ok (writer_of (bs ++ [cur]) []).
Proof.
  intros Hc Hbs Hfit. unfold flush_block. cbn [block_buf_ writer_of].
  rewrite bool_decide_eq_false_2 by (by rewrite encode_block_nil).
  rewrite writer_write_ok. cbn [mbind result_bind].
  rewrite writer_write_ok. cbn [mbind result_bind].
  assert (blen (data_image bs) + blen (encode_block cur) + 4 < 2 ^ 64).
  { pose proof (data_image_size bs Hbs). unfold sst_fits in Hfit.
    rewrite encode_block_app, blen_app in Hfit. pose proof (blen_nonneg (encode_block (mjoin bs))).
    pose proof (blen_nonneg (encode_block cur)). lia. }
  pose proof (blen_nonneg (data_image bs)). pose proof (blen_nonneg (encode_block cur)).
  unfold writer_of. cbn [with_file w_file w_index_ block_first_key_ current_offset_ entry_count_
    max_seq_ smallest_key_ largest_key_ keys_ f_data f_synced f_older].
  rewrite (u64_small (blen _ + 4)), u64_small by lia.
  rewrite data_image_snoc, index_of_snoc, mjoin_snoc, app_nil_r, !blen_app.
  rewrite block_image_size, Z.add_0_l, <- (assoc_L (++)). reflexivity.
Qed.

Lemma push_entry_of bs cur e :
  sst_entry_ok e → sst_fits ((mjoin bs ++ cur) ++ [e]) →
  push_entry (writer_of bs cur) (e_key e) (e_value e) (e_tombstone e) (e_seq e) =
    writer_of bs (cur ++ [e]).
Proof.
  intros He Hfit. unfold push_entry, writer_of.
  cbn [w_file block_buf_ block_first_key_ current_offset_ w_index_ entry_count_ max_seq_
    smallest_key_ keys_]. rewrite !(assoc_L (++) (mjoin bs)).
  set (es := mjoin bs ++ cur) in *.
  assert (Z.of_nat (length es) + 1 < 2 ^ 64).
  { pose proof (encode_block_size (es ++ [e])). unfold sst_fits in Hfit. len_lia. }
  f_equal.
  - by rewrite encode_block_app, encode_block_single.
  - case_bool_decide as E; rewrite encode_block_nil in E; [by subst cur|]. by destruct cur.
  - rewrite u64_small by lia. len_lia.
  - rewrite max_seq_of_snoc by apply He. destruct (Z.ltb_spec (max_seq_of es) (e_seq e)); lia.
  - by destruct es.
  - by rewrite last_snoc.
  - by rewrite fmap_app.
Qed.

Lemma writer_add_of bs cur e :
  Forall (.≠ []) bs → sst_entry_ok e → sst_fits ((mjoin bs ++ cur) ++ [e]) →
  writer_add (writer_of bs cur) (e_key e) (e_value e) (e_tombstone e) (e_seq e) =
    let l := layout_add (bs, cur) e in Ok (writer_of l.1 l.2).
Proof.
  intros Hbs He Hfit. unfold writer_add, layout_add. cbn [block_buf_ block_first_key_ writer_of].
  cbn [fst snd]. rewrite (bool_decide_ext _ _ (encode_block_nil cur)).
  case_match eqn:Hsplit.
  - apply andb_prop in Hsplit as [[Hc _]%andb_prop _]. bool_hyps.
    rewrite flush_block_of; [|done|done|by apply sst_fits_app in Hfit as [? _]].
    cbn [mbind result_bind fst snd].
    rewrite push_entry_of; [done|done|]. by rewrite mjoin_snoc, app_nil_r.
  - cbn [mbind result_bind fst snd]. by rewrite push_entry_of.
Qed.

Lemma add_entries_of es l :
  Forall (.≠ []) l.1 → Forall sst_entry_ok es → sst_fits ((mjoin l.1 ++ l.2) ++ es) →
  add_entries (writer_of l.1 l.2) es =
    let r := fold_left layout_add es l in Ok (writer_of r.1 r.2).
Proof.
  intros Hl Hes. revert l Hl. induction Hes as [|e es He Hes IH]; intros [bs cur] Hl Hfit;
    [done|]. cbn [add_entries fst snd] in *.
  rewrite (app_assoc _ [e] es : _ ++ (e :: es) = _) in Hfit.
  rewrite writer_add_of; [|done|done|by apply sst_fits_app in Hfit as [? _]].
  cbn [mbind result_bind]. rewrite IH; [done|by apply layout_add_nonempty|].
  by rewrite layout_add_join.
Qed.

(** The index loop writes the image of the index and counts its bytes. *)
Lemma write_index_ok w index size :
  0 ≤ size → size + blen (index_image index) < 2 ^ 64 →
  write_index w index size =
    Ok (with_file w (mkFileAfter (f_data (w_file w) ++ index_image index) (f_synced (w_file w))
          (f_older (w_file w))),
        size + blen (index_image index)).
Proof.
  revert w size. induction index as [|ie index IH]; intros w size Hs Hfit; cbn [write_index].
  - rewrite app_nil_r, Z.add_0_r. by destruct w as [[]].
  - unfold index_image in *. rewrite fmap_cons, mjoin_cons, blen_app in Hfit |- *.
    rewrite blen_index_entry_image in Hfit |- *.
    pose proof (blen_nonneg (first_key ie)).
    pose proof (blen_nonneg (mjoin (index_entry_image <$> index))).
    do 3 (rewrite writer_write_ok; cbn [mbind result_bind]).
    rewrite (u64_small (4 + _ + 16)), u64_small by lia. rewrite IH by lia.
    cbn [with_file w_file f_data f_synced f_older]. unfold index_entry_image.
    rewrite <- !(assoc_L (++)). f_equal. f_equal. lia.
Qed.

Lemma flush_block_close l :
  Forall (.≠ []) l.1 → sst_fits (mjoin l.1 ++ l.2) →
  flush_block (writer_of l.1 l.2) = Ok (writer_of (close_layout l) []).
Proof.
  intros Hl Hfit. unfold close_layout. case_bool_decide as E.
  - rewrite E. unfold flush_block. cbn [block_buf_ writer_of].
    by rewrite bool_decide_eq_true_2.
  - by apply flush_block_of.
Qed.

Lemma layout_fold_nonempty es l :
  Forall (.≠ []) l.1 → Forall (.≠ []) (fold_left layout_add es l).1.
Proof.
  revert l. induction es as [|e es IH]; intros l Hl; [done|]. simpl.
  by apply IH, layout_add_nonempty.
Qed.

Lemma Bloom_new_size n :
  0 ≤ n < 2 ^ 60 → blen (bits_ (Bloom_new n 10)) ≤ 2 + 2 * n.
Proof.
  intros Hn. unfold Bloom_new. cbn [bits_].
  set (c := if n =? 0 then 1 else n). assert (1 ≤ c ≤ n + 1 ∧ (n = 0 ∨ c = n)) as Hc.
  { subst c. destruct (Z.eqb_spec n 0); lia. }
  rewrite (u64_small 10), (u64_small (c * 10)), (u64_small (_ + 7)) by lia.
  pose proof (Z.div_mod (c * 10 + 7) 8). pose proof (Z.mod_pos_bound (c * 10 + 7) 8).
  rewrite (u64_small (_ / 8 * 8)) by lia.
  rewrite (proj2 (Z.ltb_ge _ _)) by lia. rewrite Z.div_mul by lia.
  rewrite blen_replicate; lia.
Qed.

Lemma bloom_of_keys es :
  sst_fits es →
  ∃ bloom, add_all (Bloom_new (Z.of_nat (length es)) 10) (e_key <$> es) = Ok bloom ∧
    bloom_wf bloom ∧ blen (bits_ bloom) ≤ 2 + 2 * Z.of_nat (length es) ∧
    ∀ k, k ∈ e_key <$> es → may_contain bloom k = Ok true.
Proof.
  intros Hfit. pose proof (encode_block_size es). unfold sst_fits in Hfit.
  destruct (add_all_spec (Bloom_new (Z.of_nat (length es)) 10) (e_key <$> es))
    as (b & E & Hwf & (_ & _ & Hlen & _) & Hin).
  { apply Bloom_new_wf; lia. }
  exists b. split_and!; [done|done| |done]. rewrite Hlen. apply Bloom_new_size. lia.
Qed.

Lemma layout_size es :
  sst_fits es →
  0 ≤ blen (data_image (layout es)) < 2 ^ 61 ∧
  0 ≤ blen (index_image (index_of 0 (layout es))) < 2 ^ 61 ∧
  0 ≤ Z.of_nat (length es) < 2 ^ 60.
Proof.
  intros Hfit. unfold sst_fits in Hfit. pose proof (encode_block_size es).
  pose proof (data_image_size _ (layout_nonempty es)).
  pose proof (index_image_size _ 0 (layout_nonempty es)).
  pose proof (blen_nonneg (data_image (layout es))).
  pose proof (blen_nonneg (index_image (index_of 0 (layout es)))).
  rewrite mjoin_layout in *. lia.
Qed.

(** A run of the writer over entries the format can represent ends with the
    image of the table, all of it synced. *)
Lemma finish_image es :
  Forall sst_entry_ok es → sst_fits es →
  ∃ bloom, add_all (Bloom_new (Z.of_nat (length es)) 10) (e_key <$> es) = Ok bloom ∧
    bloom_wf bloom ∧ blen (bits_ bloom) ≤ 2 + 2 * Z.of_nat (length es) ∧
    (∀ k, k ∈ e_key <$> es → may_contain bloom k = Ok true) ∧
    (w ← add_entries SSTableWriter_new es; finish w) =
      Ok (mkFile (sst_image es bloom) (length (sst_image es bloom))).
Proof.
  intros Hes Hfit. destruct (bloom_of_keys es Hfit) as (bloom & Hadd & Hwf & Hsz & Hin).
  exists bloom. split_and!; [done..|].
  pose proof (add_entries_of es ([], []) ltac:(constructor) Hes Hfit) as E. cbn [fst snd] in E.
  change SSTableWriter_new with (writer_of [] []). rewrite E. cbn [mbind result_bind].
  unfold finish. rewrite flush_block_close;
    [|by apply layout_fold_nonempty|by rewrite layout_fold_join].
  fold (layout es). cbn [mbind result_bind].
  destruct (layout_size es Hfit) as (Hd & Hi & Hn).
  rewrite write_index_ok by (cbn [w_index_ writer_of]; lia). cbn [mbind result_bind fst snd].
  assert (keys_ (writer_of (layout es) []) = e_key <$> es) as ->.
  { unfold writer_of. cbn [keys_]. by rewrite mjoin_layout, app_nil_r. }
  rewrite length_fmap, Hadd. cbn [mbind result_bind].
  do 2 (rewrite writer_write_ok; cbn [mbind result_bind]).
  rewrite durable_sync_ok. cbn [with_file w_file f_data writer_of current_offset_ w_index_
    entry_count_ max_seq_]. rewrite mjoin_layout, app_nil_r.
  unfold sst_image, sst_body, footer_image. rewrite Z.add_0_l, u64_small by lia.
  rewrite <- !(assoc_L (++)). done.
Qed.

End WriterLemmas.
