(* ===== verification/SSTable.v ===== *)
(** The reader [SSTable] of src/include/keystone/sstable.h and
    src/src/sstable.cpp: opening a table file, block lookup through the block
    cache, point reads and iterators.

    Positions in a block are represented by the bytes that follow them. *)

From S2P Require Import Prelude Coding Crc32 Entry Bloom BlockCache SSTableWriter.
Local Open Scope Z_scope.

(** * Definitions *)

Record Footer := mkFooter {
  index_offset : Z;
  bloom_offset : Z;
  footer_entry_count : Z;
  footer_max_seq : Z;
  format_version : Z;
  magic : Z;
}.

Record SSTable := mkSSTable {
  t_file : bytes;
  number_ : Z;
  footer_ : Footer;
  index_ : list IndexEntry;
  bloom_ : option Bloom;
}.

(** [static_cast<off_t>] of a [uint64_t]. *)
Definition off_t (z : Z) : Z := (z + 2 ^ 63) mod 2 ^ 64 - 2 ^ 63.

(** [std::vector<uint8_t>(n)]; memory itself is taken to suffice. *)
Definition vector_size (n : Z) : result unit :=
  if n <? 2 ^ 63 then Ok tt else Throw "std::length_error".

Definition parse_footer (fbuf : bytes) : Footer := {|
  index_offset := get_u64_le fbuf;
  bloom_offset := get_u64_le (drop 8 fbuf);
  footer_entry_count := get_u64_le (drop 16 fbuf);
  footer_max_seq := get_u64_le (drop 24 fbuf);
  format_version := get_u32_le (drop 32 fbuf);
  magic := get_u32_le (drop 36 fbuf);
|}.

(** The index loop of [open]; every round consumes at least 20 bytes. *)
Fixpoint parse_index (fuel : nat) (ibuf : bytes) : list IndexEntry :=
  match fuel with
  | O => []
  | S fuel' =>
      if blen ibuf <? 4 then [] else
      let keylen := get_u32_le ibuf in
      let rest := drop 4 ibuf in
      if blen rest <? keylen + 16 then [] else
      let tail := drop (Z.to_nat keylen) rest in
      mkIndexEntry (take (Z.to_nat keylen) rest) (get_u64_le tail) (get_u64_le (drop 8 tail))
        :: parse_index fuel' (drop 16 tail)
  end.

(** Entry headers: version 1 has no sequence number. *)
Definition entry_hdr (fmt : Z) : Z := if 2 <=? fmt then 17 else 9.

Record Header := mkHeader {
  h_tag : byte;
  h_seq : Z;
  h_keylen : Z;
  h_vallen : Z;
  h_rest : bytes;
}.

Definition parse_hdr (fmt : Z) (rest : bytes) : Header :=
  let after_tag := drop 1 rest in
  let lens := if 2 <=? fmt then drop 8 after_tag else after_tag in
  {| h_tag := nth 0 rest Byte.x00;
     h_seq := if 2 <=? fmt then get_u64_le after_tag else 0;
     h_keylen := get_u32_le lens; h_vallen := get_u32_le (drop 4 lens);
     h_rest := drop 8 lens |}.

(** The loop of [get]; every round consumes at least 9 bytes. *)
Fixpoint get_loop (fuel : nat) (fmt : Z) (rest key : bytes) (snapshot_seq : Z) : LookupResult :=
  match fuel with
  | O => NotFound
  | S fuel' =>
      if blen rest <? entry_hdr fmt then NotFound else
      let h := parse_hdr fmt rest in
      if blen (h_rest h) <? h_keylen h + h_vallen h then NotFound else
      let entry_key := take (Z.to_nat (h_keylen h)) (h_rest h) in
      let value_rest := drop (Z.to_nat (h_keylen h)) (h_rest h) in
      let next := drop (Z.to_nat (h_vallen h)) value_rest in
      if bytes_eqb entry_key key then
        if h_seq h <=? snapshot_seq then
          if bool_decide (h_tag h = Byte.x01) then Deleted
          else Found (take (Z.to_nat (h_vallen h)) value_rest)
        else get_loop fuel' fmt next key snapshot_seq
      else if bytes_ltb key entry_key then NotFound
      else get_loop fuel' fmt next key snapshot_seq
  end.

(** The binary search of [find_block_idx] between [lo] and [hi]; the
    interval shrinks in every round.  Indexing outside the vector cannot
    happen for [lo < hi <= size]. *)
Fixpoint block_search (fuel : nat) (index : list IndexEntry) (key : bytes) (lo hi : nat) : nat :=
  match fuel with
  | O => lo
  | S fuel' =>
      if (lo + 1 <? hi)%nat then
        let mid := (lo + (hi - lo) / 2)%nat in
        match index !! mid with
        | Some ie =>
            if bytes_leb (first_key ie) key then block_search fuel' index key mid hi
            else block_search fuel' index key lo mid
        | None => lo
        end
      else lo
  end.

(** [-1] is [None]. *)
Definition find_block_idx (index : list IndexEntry) (key : bytes) : option nat :=
  match index with
  | [] => None
  | ie :: _ =>
      if bytes_ltb key (first_key ie) then None
      else Some (block_search (length index) index key 0 (length index))
  end.

(** ** Code that reads through the block cache, if there is one *)

Definition cached (A : Type) : Type := option BlockCache → option BlockCache * result A.

#[export] Instance cached_ret : MRet cached := λ A a c, (c, Ok a).
#[export] Instance cached_bind : MBind cached := λ A B f m c,
  match m c with
  | (c', Ok a) => f a c'
  | (c', Throw msg) => (c', Throw msg)
  | (c', Undefined) => (c', Undefined)
  end.

Definition lift {A} (r : result A) : cached A := λ c, (c, r).

Section ReaderOps.
Context `{Posix}.

(** A [pread] that must return exactly [n] bytes. *)
Definition pread_exactly (file : bytes) (n off : Z) (msg : string) : result bytes :=
  if negb (sys_pread file n off =? n) then Throw msg else Ok (pread_bytes file n off).

Definition open_index (file : bytes) (footer : Footer) : result (list IndexEntry) :=
  let index_end := if negb (bloom_offset footer =? 0) then bloom_offset footer
                   else u64 (blen file - kFooterSize) in
  let index_len := u64 (index_end - index_offset footer) in
  _ ← vector_size index_len;
  ibuf ← (if 0 <? index_len
          then pread_exactly file index_len (off_t (index_offset footer))
                 "SSTable::open: cannot read index"
          else Ok []);
  Ok (parse_index (length ibuf) ibuf).

Definition open_bloom (file : bytes) (footer : Footer) : result (option Bloom) :=
  if bloom_offset footer =? 0 then Ok None else
  let bloom_len := u64 (u64 (blen file - kFooterSize) - bloom_offset footer) in
  _ ← vector_size bloom_len;
  data ← pread_exactly file bloom_len (off_t (bloom_offset footer))
           "SSTable::open: cannot read bloom";
  b ← load data;
  Ok (Some b).

(** [SSTable::open] of a file with this content, whose name has this number. *)
Definition sst_open (number : Z) (file : bytes) : result SSTable :=
  if blen file <? kFooterSize then Throw "SSTable::open: file too small" else
  fbuf ← pread_exactly file kFooterSize (blen file - kFooterSize)
           "SSTable::open: cannot read footer";
  let footer := parse_footer fbuf in
  if negb (magic footer =? kMagic) then Throw "SSTable::open: bad magic" else
  index ← open_index file footer;
  bloom ← open_bloom file footer;
  Ok {| t_file := file; number_ := number; footer_ := footer; index_ := index;
        bloom_ := bloom |}.

Definition sst_may_contain (t : SSTable) (key : bytes) : result bool :=
  match bloom_ t with
  | None => Ok true
  | Some b => may_contain b key
  end.

(** The loader of [read_block]: a short read gives an empty block. *)
Definition block_loader (t : SSTable) (ie : IndexEntry) : result bytes :=
  _ ← vector_size (ie_length ie);
  let n := sys_pread (t_file t) (ie_length ie) (off_t (ie_offset ie)) in
  let buf := if negb (n =? ie_length ie) then []
             else pread_bytes (t_file t) (ie_length ie) (off_t (ie_offset ie)) in
  if (3 <=? format_version (footer_ t)) && (4 <=? blen buf) then
    let payload_len := (length buf - 4)%nat in
    let stored := get_u32_le (drop payload_len buf) in
    if negb (stored =? crc32 (take payload_len buf))
    then Throw "SSTable block checksum mismatch"
    else Ok (take payload_len buf)
  else Ok buf.

Definition read_block (t : SSTable) (idx : nat) : cached bytes := λ c,
  match index_ t !! idx with
  | None => (c, Undefined)
  | Some ie =>
      match c with
      | None => (None, block_loader t ie)
      | Some bc =>
          let r := get_or_load bc (number_ t, ie_offset ie) (block_loader t ie) in
          (Some r.1, r.2)
      end
  end.

Definition sst_get (t : SSTable) (key : bytes) (snapshot_seq : Z) : cached LookupResult :=
  may ← lift (sst_may_contain t key);
  if negb may then mret NotFound else
  match find_block_idx (index_ t) key with
  | None => mret NotFound
  | Some bi =>
      block ← read_block t bi;
      if bool_decide (block = []) then mret NotFound else
      mret (get_loop (length block) (format_version (footer_ t)) block key snapshot_seq)
  end.

(** ** Iterators *)

Record SstIter := mkIter {
  it_idx : nat;
  it_rest : bytes;
  it_valid : bool;
  it_current : Entry;
}.

Definition no_entry : Entry := mkEntry [] [] false 0.

(** [Iterator()], the end. *)
Definition iter_end : SstIter := mkIter 0 [] false no_entry.

Definition load_block (t : SSTable) (it : SstIter) : cached SstIter :=
  let invalid := mkIter (it_idx it) (it_rest it) false (it_current it) in
  if (length (index_ t) <=? it_idx it)%nat then mret invalid else
  block ← read_block t (it_idx it);
  if bool_decide (block = []) then mret invalid
  else mret (mkIter (it_idx it) block (it_valid it) (it_current it)).

(** Reads past the end of the block are undefined. *)
Definition parse_current (t : SSTable) (it : SstIter) : result SstIter :=
  let fmt := format_version (footer_ t) in
  if blen (it_rest it) <? entry_hdr fmt then Undefined else
  let h := parse_hdr fmt (it_rest it) in
  if blen (h_rest h) <? h_keylen h + h_vallen h then Undefined else
  let value_rest := drop (Z.to_nat (h_keylen h)) (h_rest h) in
  Ok {| it_idx := it_idx it; it_rest := drop (Z.to_nat (h_vallen h)) value_rest;
        it_valid := it_valid it;
        it_current := mkEntry (take (Z.to_nat (h_keylen h)) (h_rest h))
          (take (Z.to_nat (h_vallen h)) value_rest)
          (bool_decide (h_tag h = Byte.x01)) (h_seq h) |}.

Definition parse_entry (t : SSTable) (it : SstIter) : cached SstIter :=
  if negb (it_valid it) then mret it else
  if blen (it_rest it) <? entry_hdr (format_version (footer_ t)) then
    it' ← load_block t (mkIter (S (it_idx it)) (it_rest it) (it_valid it) (it_current it));
    if negb (it_valid it') then mret it' else lift (parse_current t it')
  else lift (parse_current t it).

(** [Iterator(t, block_idx)] *)
Definition iter_at (t : SSTable) (block_idx : nat) : cached SstIter :=
  it ← load_block t (mkIter block_idx [] true no_entry);
  if it_valid it then parse_entry t it else mret it.

(** One position of the loop of the seeking constructor: the entry under the
    cursor, with the block advanced where the current one is exhausted. *)
Fixpoint seek_loop (fuel : nat) (t : SSTable) (it : SstIter) (target : bytes)
  : cached SstIter :=
  match fuel with
  | O => lift Undefined
  | S fuel' =>
      let fmt := format_version (footer_ t) in
      it ← (if blen (it_rest it) <? entry_hdr fmt
            then load_block t (mkIter (S (it_idx it)) (it_rest it) (it_valid it) (it_current it))
            else mret it);
      if negb (it_valid it) then mret it else
      if blen (it_rest it) <? entry_hdr fmt then lift Undefined else
      let h := parse_hdr fmt (it_rest it) in
      if blen (h_rest h) <? h_keylen h + h_vallen h
      then mret (mkIter (it_idx it) (h_rest h) false (it_current it)) else
      if bytes_leb target (take (Z.to_nat (h_keylen h)) (h_rest h))
      then parse_entry t it
      else seek_loop fuel' t
             (mkIter (it_idx it) (drop (Z.to_nat (h_keylen h + h_vallen h)) (h_rest h))
                (it_valid it) (it_current it)) target
  end.

(** Rounds of the seek loop: a block has at most the bytes of the file. *)
Definition seek_fuel (t : SSTable) : nat := S (length (index_ t) * S (length (t_file t))).

Definition iter_seek_at (t : SSTable) (block_idx : nat) (target : bytes) : cached SstIter :=
  it ← load_block t (mkIter block_idx [] true no_entry);
  if negb (it_valid it) then mret it else seek_loop (seek_fuel t) t it target.

Definition iter_next (t : SSTable) (it : SstIter) : cached SstIter := parse_entry t it.

Definition sst_begin (t : SSTable) : cached SstIter :=
  match index_ t with
  | [] => mret iter_end
  | _ => iter_at t 0
  end.

Definition sst_seek (t : SSTable) (target : bytes) : cached SstIter :=
  match index_ t with
  | [] => mret iter_end
  | _ => iter_seek_at t (default 0%nat (find_block_idx (index_ t) target)) target
  end.

(** The loop [for (it = ...; it != end; ++it)]: the entries it visits. *)
Fixpoint iter_collect (fuel : nat) (t : SSTable) (it : SstIter) : cached (list Entry) :=
  match fuel with
  | O => lift Undefined
  | S fuel' =>
      if negb (it_valid it) then mret [] else
      it' ← iter_next t it;
      es ← iter_collect fuel' t it';
      mret (it_current it :: es)
  end.

End ReaderOps.

(** ** Specification *)

(** The last block whose first key is not above the key. *)
Fixpoint last_block (blocks : list (list Entry)) (key : bytes) : option (nat * list Entry) :=
  match blocks with
  | [] => None
  | b :: bs' =>
      match last_block bs' key with
      | Some (i, b') => Some (S i, b')
      | None => if bytes_leb (block_key b) key then Some (0%nat, b) else None
      end
  end.

(** No key has versions in two blocks. *)
Fixpoint keys_separate (blocks : list (list Entry)) : Prop :=
  match blocks with
  | [] => True
  | b :: bs' =>
      (∀ e e', e ∈ b → e' ∈ mjoin bs' → e_key e ≠ e_key e') ∧ keys_separate bs'
  end.

Definition block_lookup (blocks : list (list Entry)) (key : bytes) (s : Z) : LookupResult :=
  match last_block blocks key with
  | None => NotFound
  | Some (_, b) => lookup_ref b key s
  end.

(** The entries from the first key not below the target on. *)
Fixpoint skip_below (target : bytes) (es : list Entry) : list Entry :=
  match es with
  | [] => []
  | e :: es' => if bytes_leb target (e_key e) then es else skip_below target es'
  end.

(** The table that opening the image of [es] gives. *)
Definition table_of (number : Z) (es : list Entry) (bloom : Bloom) : SSTable := {|
  t_file := sst_image es bloom; number_ := number;
  footer_ := {|
    index_offset := blen (data_image (layout es));
    bloom_offset := blen (data_image (layout es)) + blen (index_image (index_of 0 (layout es)));
    footer_entry_count := Z.of_nat (length es); footer_max_seq := max_seq_of es;
    format_version := kFormatVersion; magic := kMagic |};
  index_ := index_of 0 (layout es); bloom_ := Some bloom;
|}.

(** The cache, if any, holds what the loader would read. *)
Definition cache_ok (content : CacheKey → bytes) (c : option BlockCache) : Prop :=
  match c with
  | None => True
  | Some bc =>
      cache_inv content bc ∧ 0 ≤ capacity_ bc ∧ block_sizes (lru_ bc) ≤ capacity_ bc ∧
      ∀ k, capacity_ bc + blen (content k) < 2 ^ 64
  end.

(** The blocks of a table are the cache's contents for its number. *)
Definition coherent `{Posix} (content : CacheKey → bytes) (t : SSTable) : Prop :=
  ∀ i ie, index_ t !! i = Some ie →
    block_loader t ie = Ok (content (number_ t, ie_offset ie)).

(** The contents the tables [ents] define: the payload of the block that
    starts at the offset. *)
Fixpoint block_at (start : Z) (blocks : list (list Entry)) (off : Z) : bytes :=
  match blocks with
  | [] => []
  | b :: bs' =>
      if off =? start then encode_block b
      else block_at (start + blen (encode_block b) + 4) bs' off
  end.

Definition content_of (ents : Z → list Entry) (k : CacheKey) : bytes :=
  block_at 0 (layout (ents k.1)) k.2.

(** [m] returns [r] from every coherent cache and leaves a coherent cache. *)
Definition runs {A} (content : CacheKey → bytes) (m : cached A) (r : result A) : Prop :=
  ∀ c, cache_ok content c → (m c).2 = r ∧ cache_ok content (m c).1.

(** * Lemmas *)

(** ** Binary search *)

Lemma block_search_spec index key fuel lo hi :
  (lo < hi ≤ length index)%nat → (hi - lo ≤ fuel)%nat →
  (∃ ie, index !! lo = Some ie ∧ key_le (first_key ie) key) →
  (∀ ie, index !! hi = Some ie → key_lt key (first_key ie)) →
  let r := block_search fuel index key lo hi in
  (r < length index)%nat ∧ (∃ ie, index !! r = Some ie ∧ key_le (first_key ie) key) ∧
  (∀ ie, index !! S r = Some ie → key_lt key (first_key ie)).
Proof.
  revert lo hi. induction fuel as [|fuel IH]; intros lo hi Hlt Hf Hlo Hhi; [lia|].
  cbn [block_search]. destruct (Nat.ltb_spec (lo + 1) hi) as [Hs|Hs].
  - assert (lo < lo + (hi - lo) / 2 < hi)%nat as Hmid.
    { pose proof (Nat.div_lt (hi - lo) 2). pose proof (Nat.div_le_lower_bound (hi - lo) 2 1). lia. }
    set (mid := (lo + (hi - lo) / 2)%nat) in *.
    destruct (lookup_lt_is_Some_2 index mid ltac:(lia)) as [ie Hie]. rewrite Hie.
    destruct (bytes_leb (first_key ie) key) eqn:E; key_hyps.
    + apply IH; [lia|lia|by exists ie|done].
    + apply IH; [lia|lia|done|]. intros ie' Hie'. by simplify_eq.
  - assert (hi = S lo) as -> by lia. split_and!; [lia|done|done].
Qed.

Lemma last_block_intro blocks key i b :
  blocks !! i = Some b → key_le (block_key b) key →
  (∀ j b', (i < j)%nat → blocks !! j = Some b' → key_lt key (block_key b')) →
  last_block blocks key = Some (i, b).
Proof.
  revert i. induction blocks as [|b0 bs IH]; intros i Hi Hle Hgt; [done|]. cbn [last_block].
  destruct i as [|i]; simpl in Hi.
  - simplify_eq. rewrite (proj2 (bytes_leb_le _ _)) by done.
    assert (∀ b', b' ∈ bs → key_lt key (block_key b')) as Hbs.
    { intros b' (j & Hj)%list_elem_of_lookup. apply (Hgt (S j)); [lia|done]. }
    enough (last_block bs key = None) as -> by done. clear -Hbs.
    induction bs as [|b' bs IH]; [done|]. simpl. rewrite IH.
    + rewrite (proj2 (bytes_leb_gt _ _)); [done|]. apply Hbs. by left.
    + intros. apply Hbs. by right.
  - rewrite (IH i); [done|done|done|]. intros j b' Hj Hb'. apply (Hgt (S j)); [lia|done].
Qed.

Lemma last_block_lookup blocks key i b :
  last_block blocks key = Some (i, b) → blocks !! i = Some b ∧ key_le (block_key b) key.
Proof.
  revert i. induction blocks as [|b0 bs IH]; intros i; [done|]. cbn [last_block].
  destruct (last_block bs key) as [[j b']|]; [intros [= <- <-]; by apply IH|].
  destruct (bytes_leb (block_key b0) key) eqn:E; [|done]. key_hyps. by intros [= <- <-].
Qed.

Lemma last_block_first b bs key :
  key_lt key (block_key b) → StronglySorted key_le (block_key <$> b :: bs) →
  last_block (b :: bs) key = None.
Proof.
  intros Hlt Hs. apply StronglySorted_inv in Hs as [_ Hs]. cbn [last_block].
  rewrite (proj2 (bytes_leb_gt _ _)) by done.
  enough (last_block bs key = None) as -> by done.
  destruct (last_block bs key) as [[i b']|] eqn:E; [|done].
  apply last_block_lookup in E as [Hi Hle]. rewrite Forall_forall in Hs.
  destruct (key_lt_irrefl key). eapply key_lt_le_trans; [done|].
  eapply key_le_trans; [|done]. apply Hs. apply list_elem_of_fmap_2.
  by eapply list_elem_of_lookup_2.
Qed.

Lemma data_image_cons b bs : data_image (b :: bs) = block_image b ++ data_image bs.
Proof. done. Qed.

Lemma index_of_lookup blocks off i :
  index_of off blocks !! i =
    (λ b, mkIndexEntry (block_key b) (off + blen (data_image (take i blocks)))
            (blen (encode_block b) + 4)) <$> blocks !! i.
Proof.
  revert off i. induction blocks as [|b bs IH]; intros off i; [done|].
  destruct i as [|i]; cbn [index_of]; [simpl; by rewrite Z.add_0_r|].
  cbn [lookup list_lookup take]. change (list_lookup i (index_of ?o bs)) with (index_of o bs !! i).
  rewrite IH, data_image_cons, blen_app, block_image_size. change (list_lookup i bs) with (bs !! i).
  destruct (bs !! i); simpl; [|done]. do 2 f_equal. lia.
Qed.

Lemma length_index_of off blocks : length (index_of off blocks) = length blocks.
Proof. revert off. induction blocks as [|b bs IH]; intros off; simpl; [done|]. by rewrite IH. Qed.

Lemma find_block_idx_spec off blocks key :
  StronglySorted key_le (block_key <$> blocks) →
  find_block_idx (index_of off blocks) key = fst <$> last_block blocks key.
Proof.
  intros Hs. destruct blocks as [|b bs]; [done|]. unfold find_block_idx.
  cbn [index_of]. destruct (bytes_ltb key _) eqn:E; cbn [first_key] in E; key_hyps.
  { by rewrite last_block_first. }
  change (mkIndexEntry (block_key b) off (blen (encode_block b) + 4)
    :: index_of (off + blen (encode_block b) + 4) bs) with (index_of off (b :: bs)).
  destruct (block_search_spec (index_of off (b :: bs)) key (length (index_of off (b :: bs))) 0
    (length (index_of off (b :: bs)))) as (Hr & (ie & Hie & Hle) & Hnext).
  - simpl. lia.
  - lia.
  - eexists. by split.
  - intros ie Hie%lookup_lt_Some. lia.
  - set (r := block_search _ _ _ _ _) in *. rewrite index_of_lookup in Hie.
    destruct ((b :: bs) !! r) as [br|] eqn:Hbr; [|done]. injection Hie as <-.
    rewrite (last_block_intro (b :: bs) key r br); [done|done|done|].
    intros j b' Hj Hb'. rewrite index_of_lookup in Hnext.
    destruct (lookup_lt_is_Some_2 (b :: bs) (S r)) as [bn Hbn].
    { apply lookup_lt_Some in Hb'. lia. }
    rewrite Hbn in Hnext. specialize (Hnext _ eq_refl). cbn [first_key] in Hnext.
    destruct (decide (j = S r)) as [->|Hne]; [by simplify_eq|].
    eapply key_lt_le_trans; [done|].
    eapply (sorted_lookup _ (block_key <$> b :: bs) (S r) j);
      [done| | |lia]; rewrite list_lookup_fmap; [by rewrite Hbn|by rewrite Hb'].
Qed.

Lemma sorted_block_keys blocks :
  Forall (.≠ []) blocks → sorted_entries (mjoin blocks) →
  StronglySorted key_le (block_key <$> blocks).
Proof.
  induction 1 as [|b bs Hb Hbs IH]; simpl; intros Hs; [constructor|].
  apply StronglySorted_app in Hs as (Hord & _ & Hs2). constructor; [auto|].
  apply Forall_fmap, Forall_forall. intros b' Hb'. simpl.
  destruct b as [|e b]; [done|]. rewrite Forall_forall in Hbs. specialize (Hbs b' Hb').
  destruct b' as [|e' b']; [done|]. simpl. apply ent_le_key, Hord; [by left|].
  apply list_elem_of_join. exists (e' :: b'). split; [by left|done].
Qed.

(** ** Which versions a point read sees *)

Lemma mjoin_middle {A} (l : list (list A)) i b :
  l !! i = Some b → mjoin l = mjoin (take i l) ++ b ++ mjoin (drop (S i) l).
Proof. intros Hi. rewrite <- (take_drop_middle l i b Hi) at 1. by rewrite join_app. Qed.

Lemma block_key_elem b : b ≠ [] → ∃ e, e ∈ b ∧ e_key e = block_key b.
Proof. destruct b as [|e b]; [done|]. exists e. split; [by left|done]. Qed.

Lemma lookup_ref_none es k s : (∀ e, e ∈ es → e_key e ≠ k) → lookup_ref es k s = NotFound.
Proof.
  intros Hk. unfold lookup_ref. rewrite (proj2 (newest_None _ _ _)); [done|].
  intros e He. apply visible_false. left. auto.
Qed.

(** Blocks behind the chosen one only hold larger keys. *)
Lemma last_block_after blocks key i b e :
  Forall (.≠ []) blocks → sorted_entries (mjoin blocks) →
  last_block blocks key = Some (i, b) → e ∈ mjoin (drop (S i) blocks) → key_lt key (e_key e).
Proof.
  intros Hne Hs. revert i. induction Hne as [|b0 bs Hb Hbs IH]; intros i; [done|].
  simpl in Hs. apply StronglySorted_app in Hs as (_ & _ & Hs). cbn [last_block].
  destruct (last_block bs key) as [[j b']|] eqn:E.
  { intros [= <- <-] He. by apply (IH Hs j). }
  destruct (bytes_leb (block_key b0) key) eqn:L; [|done]. intros [= <- <-] He. simpl in He.
  rewrite drop_0 in He. clear IH. destruct bs as [|b1 bs]; [by apply elem_of_nil in He|].
  cbn [last_block] in E. destruct (last_block bs key) as [[]|]; [done|].
  destruct (bytes_leb (block_key b1) key) eqn:L1; [done|]. key_hyps.
  eapply key_lt_le_trans; [done|]. apply Forall_cons in Hbs as [Hb1 _].
  destruct b1 as [|e1 b1]; [done|]. simpl in He, Hs |- *.
  apply elem_of_cons in He as [->|He]; [apply key_le_refl|].
  apply StronglySorted_inv in Hs as [_ Hs]. rewrite Forall_forall in Hs. by apply ent_le_key, Hs.
Qed.

Lemma last_block_None blocks key e :
  Forall (.≠ []) blocks → sorted_entries (mjoin blocks) →
  last_block blocks key = None → e ∈ mjoin blocks → key_lt key (e_key e).
Proof.
  intros Hne Hs Hl He. destruct blocks as [|b bs]; [by apply elem_of_nil in He|].
  cbn [last_block] in Hl. destruct (last_block bs key) as [[]|]; [done|].
  destruct (bytes_leb (block_key b) key) eqn:L; [done|]. key_hyps.
  eapply key_lt_le_trans; [done|]. apply Forall_cons in Hne as [Hb _].
  destruct b as [|e1 b]; [done|]. simpl in *.
  apply elem_of_cons in He as [->|He]; [apply key_le_refl|].
  apply StronglySorted_inv in Hs as [_ Hs]. rewrite Forall_forall in Hs. by apply ent_le_key, Hs.
Qed.

Lemma keys_separate_split blocks i b e e' :
  keys_separate blocks → blocks !! i = Some b →
  e ∈ mjoin (take i blocks) → e' ∈ b → e_key e ≠ e_key e'.
Proof.
  revert i. induction blocks as [|b0 bs IH]; intros i Hs Hi He He'; [done|].
  destruct Hs as [Hsep Hks].
  destruct i as [|i]; simpl in *; [by apply elem_of_nil in He|].
  apply elem_of_app in He as [He|He]; [|by apply (IH i)].
  apply Hsep; [done|]. apply list_elem_of_join. exists b.
  split; [done|]. by eapply list_elem_of_lookup_2.
Qed.

(** In front of the chosen block all keys are smaller, if no key straddles. *)
Lemma last_block_before blocks key i b e :
  Forall (.≠ []) blocks → sorted_entries (mjoin blocks) → keys_separate blocks →
  last_block blocks key = Some (i, b) → e ∈ mjoin (take i blocks) → key_lt (e_key e) key.
Proof.
  intros Hne Hs Hsep Hl He. apply last_block_lookup in Hl as [Hi Hle].
  rewrite Forall_forall in Hne. destruct (block_key_elem b) as (e' & He' & Hk).
  { apply Hne. by eapply list_elem_of_lookup_2. }
  pose proof (keys_separate_split _ _ _ _ _ Hsep Hi He He') as Hdiff.
  rewrite (mjoin_middle _ _ _ Hi) in Hs.
  assert (key_le (e_key e) (e_key e')) as Hee'.
  { apply ent_le_key. eapply StronglySorted_app_1_elem_of; [done|done|]. apply elem_of_app. by left. }
  rewrite <- Hk in Hle. eapply key_lt_le_trans; [|done].
  apply key_le_lteq in Hee' as [?|?]; done.
Qed.

Lemma block_lookup_correct blocks key s :
  Forall (.≠ []) blocks → sorted_entries (mjoin blocks) → keys_separate blocks →
  block_lookup blocks key s = lookup_ref (mjoin blocks) key s.
Proof.
  intros Hne Hs Hsep. unfold block_lookup.
  destruct (last_block blocks key) as [[i b]|] eqn:E.
  - pose proof (last_block_lookup _ _ _ _ E) as [Hi _].
    unfold lookup_ref. f_equal. rewrite (mjoin_middle _ _ _ Hi).
    rewrite newest_app_r.
    2:{ intros e He. apply visible_false. left. apply key_lt_ne.
        by eapply last_block_before. }
    rewrite (newest_sorted _ _ b), (newest_sorted _ _ (b ++ _)).
    2:{ rewrite (mjoin_middle _ _ _ Hi) in Hs. by apply StronglySorted_app_1_r in Hs. }
    2:{ rewrite (mjoin_middle _ _ _ Hi) in Hs. apply StronglySorted_app_1_r in Hs.
        by apply StronglySorted_app_1_l in Hs. }
    rewrite find_app. destruct (List.find (visible key s) b); [done|].
    destruct (List.find (visible key s) (mjoin (drop (S i) blocks))) as [e|] eqn:F; [|done].
    exfalso. apply find_some in F as [Hin%list_elem_of_In [Hk _]%visible_spec].
    apply (key_lt_irrefl key). rewrite <- Hk at 2. by eapply last_block_after.
  - symmetry. apply lookup_ref_none. intros e He. apply not_eq_sym, key_lt_ne.
    by eapply last_block_None.
Qed.

Lemma keys_separate_distinct blocks :
  NoDup (e_key <$> mjoin blocks) → keys_separate blocks.
Proof.
  induction blocks as [|b bs IH]; simpl; [done|]. rewrite fmap_app, NoDup_app.
  intros (_ & Hd & Hn). split; [|auto]. intros e e' He He' E.
  apply (Hd (e_key e)); [by apply list_elem_of_fmap_2|]. rewrite E. by apply list_elem_of_fmap_2.
Qed.

(** ** Entries of a block *)

Lemma parse_hdr_entry e rest :
  sst_entry_ok e →
  parse_hdr kFormatVersion (encode_sst_entry e ++ rest) =
    {| h_tag := if e_tombstone e then Byte.x01 else Byte.x00; h_seq := e_seq e;
       h_keylen := blen (e_key e); h_vallen := blen (e_value e);
       h_rest := e_key e ++ e_value e ++ rest |}.
Proof.
  intros (Hs & Hk & Hv & Ht). pose proof (blen_nonneg (e_key e)).
  pose proof (blen_nonneg (e_value e)).
  unfold parse_hdr, encode_sst_entry, entry_bytes. change (2 <=? kFormatVersion) with true.
  rewrite <- !(assoc_L (++)). cbv iota zeta.
  assert ((if negb (e_tombstone e) && negb (bool_decide (e_value e = [])) then e_value e else [])
    = e_value e) as ->.
  { destruct (e_tombstone e); simpl; [by rewrite Ht|]. case_bool_decide as E; [by rewrite E|done]. }
  rewrite !(drop_app_exact [_]) by done.
  rewrite !(drop_app_exact (put_u64_le _)) by done.
  rewrite !(drop_app_exact (put_u32_le _)) by done.
  rewrite get_put_u64_le, !get_put_u32_le, u64_small by lia.
  rewrite (u32_small (u32 _)) by apply u32_range. rewrite (u32_small (blen (e_key e))) by lia.
  assert (u32 (if e_tombstone e then 0 else u32 (blen (e_value e))) = blen (e_value e)) as ->.
  { destruct (e_tombstone e); [by rewrite Ht|].
    rewrite (u32_small (u32 _)) by apply u32_range. apply u32_small. lia. }
  reflexivity.
Qed.

Lemma blen_entry_rest e rest :
  sst_entry_ok e → blen (encode_sst_entry e ++ rest) = 17 + blen (e_key e) + blen (e_value e) + blen rest.
Proof.
  intros (_ & _ & _ & Ht). unfold encode_sst_entry, entry_bytes. autorewrite with ks_len.
  change (blen [_]) with 1. destruct (e_tombstone e); simpl.
  - rewrite Ht by done. change (blen []) with 0. lia.
  - case_bool_decide as E; simpl; [rewrite E; change (blen []) with 0|]; lia.
Qed.

Lemma take_blen a (b : bytes) : take (Z.to_nat (blen a)) (a ++ b) = a.
Proof. unfold blen. rewrite Nat2Z.id. apply take_app_length. Qed.

Lemma drop_blen a (b : bytes) : drop (Z.to_nat (blen a)) (a ++ b) = b.
Proof. unfold blen. rewrite Nat2Z.id. apply drop_app_length. Qed.

Lemma tag_tombstone e :
  bool_decide ((if e_tombstone e then Byte.x01 else Byte.x00) = Byte.x01) = e_tombstone e.
Proof. by destruct (e_tombstone e). Qed.

(** The scan of a block in version order finds the newest visible version. *)
Lemma get_loop_block b key s fuel :
  Forall sst_entry_ok b → sorted_entries b → (length b ≤ fuel)%nat →
  get_loop fuel kFormatVersion (encode_block b) key s = lookup_ref b key s.
Proof.
  intros Hb Hs. unfold lookup_ref. rewrite newest_sorted by done. revert fuel.
  induction Hs as [|e b Hs IH He]; intros fuel Hf.
  { by destruct fuel. }
  apply Forall_cons in Hb as [Hok Hb]. destruct fuel as [|fuel]; [simpl in Hf; lia|].
  rewrite encode_block_cons. cbn [get_loop].
  rewrite blen_entry_rest, parse_hdr_entry by done. change (entry_hdr kFormatVersion) with 17.
  cbn [h_tag h_seq h_keylen h_vallen h_rest].
  pose proof (blen_nonneg (e_key e)). pose proof (blen_nonneg (e_value e)).
  pose proof (blen_nonneg (encode_block b)).
  rewrite (proj2 (Z.ltb_ge _ _)) by lia. autorewrite with ks_len.
  rewrite (proj2 (Z.ltb_ge _ _)) by lia. rewrite take_blen, !drop_blen, take_blen, tag_tombstone.
  cbn [find]. unfold visible at 1. destruct (bytes_eqb (e_key e) key) eqn:E; simpl.
  - destruct (e_seq e <=? s); [done|]. apply IH; [done|simpl in Hf; lia].
  - destruct (bytes_ltb key (e_key e)) eqn:L; [|apply IH; [done|simpl in Hf; lia]].
    key_hyps. destruct (List.find (visible key s) b) as [e'|] eqn:F; [|done]. exfalso.
    apply find_some in F as [Hin%list_elem_of_In [Hk _]%visible_spec].
    rewrite Forall_forall in He. specialize (He e' Hin). apply ent_le_key in He. rewrite Hk in He.
    by apply key_lt_nle in L.
Qed.

(** ** Opening a table *)

Lemma parse_index_image index fuel :
  Forall (λ ie, blen (first_key ie) < 2 ^ 32 ∧ 0 ≤ ie_offset ie < 2 ^ 64 ∧
    0 ≤ ie_length ie < 2 ^ 64) index →
  (length index ≤ fuel)%nat → parse_index fuel (index_image index) = index.
Proof.
  intros Hi. revert fuel. induction Hi as [|ie index (Hk & Ho & Hl) Hi IH]; intros fuel Hf.
  { by destruct fuel. }
  destruct fuel as [|fuel]; [simpl in Hf; lia|]. unfold index_image in *.
  rewrite fmap_cons, mjoin_cons. cbn [parse_index]. pose proof (blen_nonneg (first_key ie)).
  pose proof (blen_nonneg (mjoin (index_entry_image <$> index))).
  rewrite blen_app, blen_index_entry_image, (proj2 (Z.ltb_ge _ _)) by lia.
  set (tail := mjoin (index_entry_image <$> index)) in *.
  unfold index_entry_image. rewrite <- !(assoc_L (++)).
  rewrite get_put_u32_le, (u32_small (u32 _)) by apply u32_range.
  rewrite (u32_small (blen (first_key ie))) by lia.
  rewrite drop_app_exact by done. autorewrite with ks_len.
  rewrite (proj2 (Z.ltb_ge _ _)) by lia. rewrite take_blen, !drop_blen.
  rewrite get_put_u64_le, (drop_app_exact (put_u64_le _)) by done.
  rewrite get_put_u64_le, !u64_small by lia.
  rewrite (assoc_L (++)), (drop_app_exact (put_u64_le _ ++ _)) by done.
  rewrite IH by (simpl in Hf; lia). by destruct ie.
Qed.

Lemma off_t_small z : 0 ≤ z < 2 ^ 63 → off_t z = z.
Proof. intros. unfold off_t. rewrite Z.mod_small; lia. Qed.

Lemma vector_size_ok n : n < 2 ^ 63 → vector_size n = Ok tt.
Proof. intros. unfold vector_size. by rewrite (proj2 (Z.ltb_lt _ _)). Qed.

Lemma parse_footer_image a b c d :
  0 ≤ a < 2 ^ 64 → 0 ≤ b < 2 ^ 64 → 0 ≤ c < 2 ^ 64 → 0 ≤ d < 2 ^ 64 →
  parse_footer (footer_image a b c d) = mkFooter a b c d kFormatVersion kMagic.
Proof.
  intros. unfold parse_footer, footer_image.
  change (drop 8 (put_u64_le a ++ ?x)) with x.
  change (drop 16 (put_u64_le a ++ put_u64_le b ++ ?x)) with x.
  change (drop 24 (put_u64_le a ++ put_u64_le b ++ put_u64_le c ++ ?x)) with x.
  change (drop 32 (put_u64_le a ++ put_u64_le b ++ put_u64_le c ++ put_u64_le d ++ ?x)) with x.
  change (drop 36 _) with (put_u32_le kMagic).
  rewrite !get_put_u64_le, get_put_u32_le, get_put_u32_le', !u64_small by done. done.
Qed.

Lemma blen_footer_image a b c d : blen (footer_image a b c d) = kFooterSize.
Proof. done. Qed.

Lemma index_of_ok off blocks :
  Forall (Forall sst_entry_ok) blocks → Forall (.≠ []) blocks →
  0 ≤ off → off + blen (data_image blocks) < 2 ^ 64 →
  Forall (λ ie, blen (first_key ie) < 2 ^ 32 ∧ 0 ≤ ie_offset ie < 2 ^ 64 ∧
    0 ≤ ie_length ie < 2 ^ 64) (index_of off blocks).
Proof.
  revert off. induction blocks as [|b bs IH]; intros off Hok Hne Ho Hfit; [constructor|].
  apply Forall_cons in Hok as [Hb Hok]. apply Forall_cons in Hne as [Hnb Hne].
  rewrite data_image_cons, blen_app, block_image_size in Hfit.
  pose proof (blen_nonneg (encode_block b)). pose proof (blen_nonneg (data_image bs)).
  cbn [index_of]. constructor.
  - cbn [first_key ie_offset ie_length]. destruct b as [|e b]; [done|].
    apply Forall_cons in Hb as [(_ & ? & _) _]. simpl. lia.
  - apply IH; [done|done|lia|lia].
Qed.

Lemma layout_entries_ok es :
  Forall sst_entry_ok es → Forall (Forall sst_entry_ok) (layout es).
Proof.
  intros Hes. apply Forall_forall. intros b Hb. apply Forall_forall. intros e He.
  rewrite Forall_forall in Hes. apply Hes. rewrite <- (mjoin_layout es).
  apply list_elem_of_join. by exists b.
Qed.

Lemma layout_nil es : es ≠ [] → layout es ≠ [].
Proof. intros Hne E. apply Hne. by rewrite <- (mjoin_layout es), E. Qed.

Lemma data_image_pos es : es ≠ [] → 0 < blen (data_image (layout es)).
Proof.
  intros Hne. destruct (layout es) as [|b bs] eqn:E; [by apply layout_nil in E|].
  rewrite data_image_cons, blen_app, block_image_size.
  pose proof (blen_nonneg (encode_block b)). pose proof (blen_nonneg (data_image bs)). lia.
Qed.

(** ** Reading through a coherent cache *)

Lemma runs_ret {A} content (a : A) : runs content (mret a) (Ok a).
Proof. by intros c Hc. Qed.

Lemma runs_lift {A} content (r : result A) : runs content (lift r) r.
Proof. by intros c Hc. Qed.

Lemma runs_bind {A B} content (m : cached A) (f : A → cached B) a r :
  runs content m (Ok a) → runs content (f a) r → runs content (m ≫= f) r.
Proof.
  intros Hm Hf c Hc. destruct (Hm c Hc) as [E Hc']. unfold mbind, cached_bind.
  destruct (m c) as [c' r']; simpl in *. subst r'. by apply Hf.
Qed.

Create HintDb runs.
#[export] Hint Resolve runs_ret runs_lift : runs.

Section ReaderLemmas.
#[local] Set Default Proof Using "All".
Context `{PosixOk}.

Lemma pread_exactly_ok pre mid post n off msg :
  n = blen mid → off = blen pre → pread_exactly (pre ++ mid ++ post) n off msg = Ok mid.
Proof.
  intros Hn Ho. destruct (pread_bytes_ok pre mid post n off Hn Ho) as [E1 E2].
  unfold pread_exactly. by rewrite E1, Z.eqb_refl, E2.
Qed.

(** The index and the filter are read back from where the footer says. *)
Lemma open_index_image (data tail : bytes) (index : list IndexEntry) (footer : Footer) :
  index_offset footer = blen data →
  bloom_offset footer = blen data + blen (index_image index) → bloom_offset footer ≠ 0 →
  blen data + blen (index_image index) < 2 ^ 62 →
  Forall (λ ie, blen (first_key ie) < 2 ^ 32 ∧ 0 ≤ ie_offset ie < 2 ^ 64 ∧
    0 ≤ ie_length ie < 2 ^ 64) index →
  open_index (data ++ index_image index ++ tail) footer = Ok index.
Proof.
  intros Ho Hb Hne Hfit Hok. pose proof (blen_nonneg data).
  pose proof (blen_nonneg (index_image index)). unfold open_index.
  rewrite (proj2 (Z.eqb_neq _ _)) by done. cbn [negb]. rewrite Ho, Hb.
  replace (blen data + blen (index_image index) - blen data) with (blen (index_image index)) by lia.
  rewrite u64_small, vector_size_ok, off_t_small by lia. cbn [mbind result_bind].
  assert ((if 0 <? blen (index_image index)
    then pread_exactly (data ++ index_image index ++ tail) (blen (index_image index)) (blen data)
           "SSTable::open: cannot read index"
    else Ok []) = Ok (index_image index)) as ->.
  { destruct (Z.ltb_spec 0 (blen (index_image index))); [by apply pread_exactly_ok|].
    f_equal. symmetry. apply nil_length_inv. unfold blen in *. lia. }
  cbn [mbind result_bind]. f_equal. apply parse_index_image; [done|].
  clear. induction index as [|ie l IH]; [done|].
  unfold index_image in *. rewrite fmap_cons, mjoin_cons, length_app.
  pose proof (blen_index_entry_image ie). pose proof (blen_nonneg (first_key ie)).
  unfold blen in *. simpl. lia.
Qed.

Lemma open_bloom_image (pre post : bytes) (bloom : Bloom) (footer : Footer) :
  bloom_offset footer = blen pre → bloom_offset footer ≠ 0 →
  blen pre + blen (serialize bloom) < 2 ^ 63 → blen post = kFooterSize → bloom_wf bloom →
  open_bloom (pre ++ serialize bloom ++ post) footer = Ok (Some bloom).
Proof.
  intros Hb Hne Hfit Hpost Hwf. pose proof (blen_nonneg pre).
  pose proof (blen_nonneg (serialize bloom)). unfold open_bloom.
  rewrite (proj2 (Z.eqb_neq _ _)) by done. rewrite !blen_app, Hpost, Hb.
  replace (blen pre + (blen (serialize bloom) + kFooterSize) - kFooterSize)
    with (blen pre + blen (serialize bloom)) by lia.
  rewrite (u64_small (_ + _)) by lia.
  replace (blen pre + blen (serialize bloom) - blen pre) with (blen (serialize bloom)) by lia.
  rewrite u64_small, vector_size_ok, off_t_small by lia. cbn [mbind result_bind].
  rewrite pread_exactly_ok by done. cbn [mbind result_bind]. by rewrite load_serialize.
Qed.

Lemma sst_open_image number es bloom :
  es ≠ [] → Forall sst_entry_ok es → sst_fits es → bloom_wf bloom →
  blen (bits_ bloom) ≤ 2 + 2 * Z.of_nat (length es) →
  sst_open number (sst_image es bloom) = Ok (table_of number es bloom).
Proof.
  intros Hne Hes Hfit Hwf Hbits. destruct (layout_size es Hfit) as (Hd & Hi & Hn).
  pose proof (data_image_pos es Hne). pose proof (max_seq_of_nonneg es).
  pose proof (max_seq_of_lt es Hes). pose proof (blen_nonneg (bits_ bloom)).
  assert (blen (serialize bloom) = 12 + blen (bits_ bloom)) as Hser.
  { unfold serialize. autorewrite with ks_len. lia. }
  unfold sst_open, table_of. set (d := blen (data_image (layout es))) in *.
  set (i := blen (index_image (index_of 0 (layout es)))) in *.
  set (foot := footer_image d (d + i) (Z.of_nat (length es)) (max_seq_of es)).
  assert (sst_image es bloom = data_image (layout es) ++ index_image (index_of 0 (layout es)) ++
    (serialize bloom ++ foot)) as E.
  { unfold sst_image, sst_body. by rewrite <- !(assoc_L (++)). }
  assert (blen foot = kFooterSize) as Hfoot by done.
  assert (blen (sst_image es bloom) = d + i + blen (serialize bloom) + kFooterSize) as Hlen.
  { rewrite E, !blen_app, Hfoot. unfold d, i. lia. }
  rewrite Hlen, (proj2 (Z.ltb_ge _ _)) by (rewrite Hser; lia).
  replace (d + i + blen (serialize bloom) + kFooterSize - kFooterSize)
    with (blen (sst_body (layout es) bloom)).
  2:{ unfold sst_body. rewrite !blen_app. unfold d, i. lia. }
  assert (sst_image es bloom = sst_body (layout es) bloom ++ foot ++ []) as E'
    by (by rewrite app_nil_r).
  rewrite E' at 1. rewrite pread_exactly_ok by done. cbn [mbind result_bind].
  unfold foot at 1 2 3 4. rewrite parse_footer_image by lia. cbn [magic].
  rewrite Z.eqb_refl. cbn [negb].
  rewrite E at 1. rewrite open_index_image; [|done|done|simpl; lia|unfold d, i in *; lia|].
  2:{ apply index_of_ok; [by apply layout_entries_ok|apply layout_nonempty|lia|fold d; lia]. }
  cbn [mbind result_bind]. rewrite E at 1. rewrite (assoc_L (++) (data_image _)).
  rewrite open_bloom_image; [done|by rewrite blen_app|simpl; lia| |done|done].
  rewrite blen_app. fold d i. rewrite Hser. lia.
Qed.

Lemma block_loader_image number es bloom i b :
  sst_fits es → layout es !! i = Some b →
  block_loader (table_of number es bloom)
    (mkIndexEntry (block_key b) (blen (data_image (take i (layout es))))
       (blen (encode_block b) + 4)) = Ok (encode_block b).
Proof.
  intros Hfit Hb. destruct (layout_size es Hfit) as (Hd & _ & _).
  assert (layout es = take i (layout es) ++ b :: drop (S i) (layout es)) as E
    by (by rewrite take_drop_middle).
  assert (data_image (layout es) = data_image (take i (layout es)) ++ block_image b ++
    data_image (drop (S i) (layout es))) as Ed.
  { rewrite E at 1. unfold data_image. by rewrite fmap_app, join_app. }
  rewrite Ed, !blen_app, block_image_size in Hd.
  pose proof (blen_nonneg (data_image (take i (layout es)))).
  pose proof (blen_nonneg (data_image (drop (S i) (layout es)))).
  pose proof (blen_nonneg (encode_block b)).
  unfold block_loader. cbn [ie_length ie_offset t_file footer_ format_version table_of].
  rewrite vector_size_ok by lia. cbn [mbind result_bind]. rewrite off_t_small by lia.
  set (pre := data_image (take i (layout es))) in *.
  assert (∃ post, sst_image es bloom = pre ++ block_image b ++ post) as [post ->].
  { unfold sst_image, sst_body. rewrite Ed. eexists. by rewrite <- !(assoc_L (++)). }
  destruct (pread_bytes_ok pre (block_image b) post (blen (encode_block b) + 4) (blen pre))
    as [-> ->]; [by rewrite block_image_size|done|].
  rewrite Z.eqb_refl. cbn [negb]. change (3 <=? kFormatVersion) with true.
  rewrite block_image_size, (proj2 (Z.leb_le _ _)) by lia. cbn [andb].
  unfold block_image. rewrite length_app, length_put_u32_le, Nat.add_sub.
  by rewrite drop_app_length, take_app_length, get_put_u32_le', u32_small, Z.eqb_refl by
    apply crc32_range.
Qed.

Lemma block_at_lookup start blocks i b :
  blocks !! i = Some b →
  block_at start blocks (start + blen (data_image (take i blocks))) = encode_block b.
Proof.
  revert start i. induction blocks as [|b0 bs IH]; intros start i Hi; [done|].
  destruct i as [|i]; simpl in Hi |- *.
  - simplify_eq. change (data_image []) with ([] : bytes). change (blen []) with 0.
    by rewrite Z.add_0_r, Z.eqb_refl.
  - rewrite data_image_cons, blen_app, block_image_size.
    pose proof (blen_nonneg (encode_block b0)). pose proof (blen_nonneg (data_image (take i bs))).
    rewrite (proj2 (Z.eqb_neq _ _)) by lia.
    replace (start + (blen (encode_block b0) + 4 + blen (data_image (take i bs))))
      with (start + blen (encode_block b0) + 4 + blen (data_image (take i bs))) by lia.
    by apply IH.
Qed.

Lemma block_at_size start blocks off :
  blen (block_at start blocks off) ≤ blen (encode_block (mjoin blocks)).
Proof.
  revert start. induction blocks as [|b bs' IH]; intros start; cbn [block_at]; [done|].
  rewrite mjoin_cons, encode_block_app, blen_app. pose proof (blen_nonneg (encode_block b)).
  pose proof (blen_nonneg (encode_block (mjoin bs'))). case_match; [lia|].
  specialize (IH (start + blen (encode_block b) + 4)). lia.
Qed.

Lemma content_of_fits ents k : sst_fits (ents k.1) → blen (content_of ents k) < 2 ^ 60.
Proof.
  unfold sst_fits, content_of. pose proof (block_at_size 0 (layout (ents k.1)) k.2) as Hb.
  rewrite mjoin_layout in Hb. lia.
Qed.

(** Such contents are coherent with every table. *)
Lemma content_of_coherent ents number bloom :
  sst_fits (ents number) →
  coherent (content_of ents) (table_of number (ents number) bloom).
Proof.
  intros Hfit i ie Hi. cbn [index_ table_of number_] in *. rewrite index_of_lookup in Hi.
  destruct (layout (ents number) !! i) as [b|] eqn:Hb; [|done]. injection Hi as <-.
  rewrite Z.add_0_l, block_loader_image by done. unfold content_of. cbn [fst snd ie_offset].
  rewrite <- (block_at_lookup 0 _ i b Hb). by rewrite Z.add_0_l.
Qed.

Lemma coherent_content content number es bloom i b :
  sst_fits es → coherent content (table_of number es bloom) → layout es !! i = Some b →
  content (number, blen (data_image (take i (layout es)))) = encode_block b.
Proof.
  intros Hfit Hco Hb. specialize (Hco i). cbn [index_ table_of] in Hco.
  rewrite index_of_lookup, Hb in Hco. specialize (Hco _ eq_refl).
  rewrite Z.add_0_l, block_loader_image in Hco by done.
  by injection Hco as Hco.
Qed.

Lemma read_block_runs content number es bloom i b :
  sst_fits es → coherent content (table_of number es bloom) → layout es !! i = Some b →
  runs content (read_block (table_of number es bloom) i) (Ok (encode_block b)).
Proof.
  intros Hfit Hco Hb c Hc. pose proof (coherent_content _ _ _ _ _ _ Hfit Hco Hb) as Hcont.
  unfold read_block. cbn [index_ number_ table_of].
  rewrite index_of_lookup, Hb. cbn [fmap option_fmap option_map ie_offset]. rewrite Z.add_0_l.
  destruct c as [bc|]; cbn [fst snd]; [|by rewrite block_loader_image].
  rewrite block_loader_image, <- Hcont by done. destruct Hc as (Hinv & Hcap & Hsz & Hroom).
  destruct (get_or_load_spec content bc (number, blen (data_image (take i (layout es)))))
    as (-> & Hi & Hcp & Hs & _); [done|done|done|done|]. split; [done|].
  split_and!; [done|lia|lia|]. intros k. rewrite Hcp. apply Hroom.
Qed.

(** ** Reads of a written table *)

Section Table.
Context (content : CacheKey → bytes) (number : Z) (es : list Entry) (bloom : Bloom).
Context (Hok : Forall sst_entry_ok es) (Hfit : sst_fits es).
Context (Hco : coherent content (table_of number es bloom)).
Let t := table_of number es bloom.

Lemma block_ok i b : layout es !! i = Some b → Forall sst_entry_ok b.
Proof.
  intros Hi. pose proof (layout_entries_ok es Hok) as Hb. rewrite Forall_forall in Hb.
  apply Hb. by eapply list_elem_of_lookup_2.
Qed.

Lemma block_nonempty i b : layout es !! i = Some b → b ≠ [].
Proof.
  intros Hi. pose proof (layout_nonempty es) as Hb. rewrite Forall_forall in Hb.
  apply Hb. by eapply list_elem_of_lookup_2.
Qed.

Lemma block_elem i b e : layout es !! i = Some b → e ∈ b → e ∈ es.
Proof.
  intros Hi He. rewrite <- (mjoin_layout es). apply list_elem_of_join. exists b.
  split; [done|]. by eapply list_elem_of_lookup_2.
Qed.

(** *** Iterators *)

(** [it] stands in front of the entries [rem]. *)
Definition it_at (it : SstIter) (rem : list Entry) : Prop :=
  it_valid it = true ∧ ∃ suf, it_rest it = encode_block suf ∧ Forall sst_entry_ok suf ∧
    rem = suf ++ mjoin (drop (S (it_idx it)) (layout es)).

(** [it] shows the first of [l] and the rest follows; the end if none is left. *)
Definition it_shows (it : SstIter) (l : list Entry) : Prop :=
  match l with
  | [] => it_valid it = false
  | e :: rem => it_at it rem ∧ it_current it = e
  end.

Lemma load_block_runs i b cur rest :
  layout es !! i = Some b →
  runs content (load_block t (mkIter i rest true cur)) (Ok (mkIter i (encode_block b) true cur)).
Proof.
  intros Hi. unfold load_block. cbn [it_idx it_rest it_valid it_current index_ t table_of].
  rewrite length_index_of. pose proof (lookup_lt_Some _ _ _ Hi).
  rewrite (proj2 (Nat.leb_gt _ _)) by done.
  eapply runs_bind; [by apply read_block_runs|].
  rewrite bool_decide_eq_false_2 by (rewrite encode_block_nil; by eapply block_nonempty).
  apply runs_ret.
Qed.

Lemma load_block_end i cur rest :
  (length (layout es) ≤ i)%nat →
  runs content (load_block t (mkIter i rest true cur)) (Ok (mkIter i rest false cur)).
Proof.
  intros Hi. unfold load_block. cbn [it_idx it_rest it_valid it_current index_ t table_of].
  rewrite length_index_of, (proj2 (Nat.leb_le _ _)) by done. apply runs_ret.
Qed.

Lemma parse_current_entry i e suf cur :
  sst_entry_ok e →
  parse_current t (mkIter i (encode_block (e :: suf)) true cur) =
    Ok (mkIter i (encode_block suf) true e).
Proof.
  intros He. unfold parse_current. cbn [it_idx it_rest it_valid footer_ format_version t table_of].
  change (entry_hdr kFormatVersion) with 17. rewrite encode_block_cons.
  rewrite blen_entry_rest, parse_hdr_entry by done.
  cbn [h_tag h_seq h_keylen h_vallen h_rest].
  pose proof (blen_nonneg (e_key e)). pose proof (blen_nonneg (e_value e)).
  pose proof (blen_nonneg (encode_block suf)).
  rewrite (proj2 (Z.ltb_ge _ _)) by lia. autorewrite with ks_len.
  rewrite (proj2 (Z.ltb_ge _ _)) by lia.
  rewrite take_blen, !drop_blen, take_blen, tag_tombstone. by destruct e.
Qed.

Lemma blen_block_cons e suf :
  sst_entry_ok e → (blen (encode_block (e :: suf)) <? entry_hdr kFormatVersion) = false.
Proof.
  intros He. rewrite encode_block_cons, blen_entry_rest by done. apply Z.ltb_ge.
  pose proof (blen_nonneg (e_key e)). pose proof (blen_nonneg (e_value e)).
  pose proof (blen_nonneg (encode_block suf)). change (entry_hdr kFormatVersion) with 17. lia.
Qed.

(** The cursor at the end of a block moves to the next one. *)
Lemma drop_next_block i :
  (length (layout es) ≤ i)%nat ∧ mjoin (drop i (layout es)) = [] ∨
  ∃ e suf, layout es !! i = Some (e :: suf) ∧
    mjoin (drop i (layout es)) = e :: suf ++ mjoin (drop (S i) (layout es)).
Proof.
  destruct (layout es !! i) as [b|] eqn:Hi.
  - right. pose proof (block_nonempty i b Hi). destruct b as [|e suf]; [done|].
    exists e, suf. split; [done|]. by rewrite (drop_S _ _ _ Hi).
  - left. apply lookup_ge_None in Hi. split; [done|]. by rewrite drop_ge.
Qed.

Lemma parse_entry_runs it rem :
  it_at it rem →
  ∃ it', runs content (parse_entry t it) (Ok it') ∧ it_shows it' rem.
Proof.
  destruct it as [i rest v cur]. intros (Hv & suf & Hr & Hs & ->). simpl in Hv, Hr. subst v rest.
  unfold parse_entry. cbn [it_idx it_rest it_valid it_current negb footer_ format_version t table_of].
  destruct suf as [|e suf].
  - change (blen (encode_block []) <? entry_hdr kFormatVersion) with true. cbn [app].
    destruct (drop_next_block (S i)) as [[Hl ->]|(e & suf & Hi & ->)].
    + exists (mkIter (S i) (encode_block []) false cur). split; [|done]. eapply runs_bind; [by apply load_block_end|]. apply runs_ret.
    + pose proof (block_ok _ _ Hi) as Hb. apply Forall_cons in Hb as [He Hsuf].
      exists (mkIter (S i) (encode_block suf) true e). split; [|split; [|done]].
      * eapply runs_bind; [by apply load_block_runs|]. cbn [it_valid negb].
        rewrite parse_current_entry by done. apply runs_lift.
      * split; [done|]. by exists suf.
  - apply Forall_cons in Hs as [He Hs]. rewrite blen_block_cons by done.
    exists (mkIter i (encode_block suf) true e). rewrite parse_current_entry by done.
    split; [apply runs_lift|]. split; [|done]. split; [done|]. by exists suf.
Qed.

(** The iteration from a cursor visits the rest of the table and ends. *)
Lemma iter_collect_runs it rem fuel :
  it_at it rem → (length rem < fuel)%nat →
  runs content (iter_collect (S fuel) t it) (Ok (it_current it :: rem)).
Proof.
  revert it fuel. induction rem as [|e rem IH]; intros it fuel Hat Hf;
    (cbn [iter_collect]; pose proof Hat as [Hv _]; rewrite Hv; cbn [negb];
     destruct (parse_entry_runs it _ Hat) as (it' & Hr & Hn);
     eapply runs_bind; [exact Hr|]).
  - destruct fuel as [|fuel]; [lia|]. eapply runs_bind; [|apply runs_ret].
    cbn [iter_collect]. rewrite Hn. apply runs_ret.
  - destruct fuel as [|fuel]; [simpl in Hf; lia|]. destruct Hn as [Hat' Hc].
    eapply runs_bind; [|apply runs_ret]. rewrite <- Hc. apply IH; [done|simpl in Hf; lia].
Qed.

Lemma index_cons : es ≠ [] → ∃ ie l, index_ t = ie :: l.
Proof.
  intros Hne. cbn [index_ t table_of]. apply layout_nil in Hne.
  destruct (layout es) as [|b bs]; [done|]. by eexists _, _.
Qed.

Lemma iter_collect_shows it l fuel :
  it_shows it l → (length l ≤ fuel)%nat →
  runs content (iter_collect (S fuel) t it) (Ok l).
Proof.
  destruct l as [|e rem]; simpl.
  - intros Hv _. cbn [iter_collect]. rewrite Hv. apply runs_ret.
  - intros [Hat <-] Hf. apply iter_collect_runs; [done|lia].
Qed.

Lemma sst_begin_runs : es ≠ [] → ∃ it, runs content (sst_begin t) (Ok it) ∧ it_shows it es.
Proof.
  intros Hne. destruct (index_cons Hne) as (ie & l & Hidx). unfold sst_begin. rewrite Hidx.
  unfold iter_at. destruct (drop_next_block 0) as [[Hl _]|(e & suf & Hi & Hj)].
  { apply layout_nil in Hne. destruct (layout es); [done|simpl in Hl; lia]. }
  rewrite drop_0, mjoin_layout in Hj. pose proof (block_ok _ _ Hi) as Hb.
  destruct (parse_entry_runs (mkIter 0 (encode_block (e :: suf)) true no_entry)
    (e :: suf ++ mjoin (drop 1 (layout es)))) as (it & Hr & Hat).
  { split; [done|]. by exists (e :: suf). }
  exists it. rewrite <- Hj in Hat. split; [|done].
  eapply runs_bind; [by apply load_block_runs|]. cbn [it_valid]. exact Hr.
Qed.

Lemma seek_loop_runs it rem target fuel :
  it_at it rem → (length rem < fuel)%nat →
  ∃ it', runs content (seek_loop fuel t it target) (Ok it') ∧
    it_shows it' (skip_below target rem).
Proof.
  revert it fuel. induction rem as [|e rem IH]; intros [i rest v cur] fuel Hat Hf;
    (destruct fuel as [|fuel]; [simpl in Hf; lia|]);
    destruct Hat as (Hv & suf & Hr & Hs & Hrem); simpl in Hv, Hr, Hrem; subst v rest;
    cbn [seek_loop it_idx it_rest it_valid it_current footer_ format_version t table_of].
  - symmetry in Hrem. apply app_eq_nil in Hrem as [-> Hnil].
    destruct (drop_next_block (S i)) as [[Hl _]|(? & ? & _ & E)]; [|congruence].
    exists (mkIter (S i) (encode_block []) false cur). split; [|done].
    change (blen (encode_block []) <? entry_hdr kFormatVersion) with true.
    eapply runs_bind; [by apply load_block_end|]. apply runs_ret.
  - assert (∃ i' suf', sst_entry_ok e ∧ Forall sst_entry_ok suf' ∧
      rem = suf' ++ mjoin (drop (S i') (layout es)) ∧
      runs content (if blen (encode_block suf) <? entry_hdr kFormatVersion
         then load_block t (mkIter (S i) (encode_block suf) true cur)
         else mret (mkIter i (encode_block suf) true cur))
        (Ok (mkIter i' (encode_block (e :: suf')) true cur))) as (i' & suf' & He & Hs' & Hrem' & Hr).
    { destruct suf as [|e0 suf].
      - destruct (drop_next_block (S i)) as [[_ E]|(e0 & suf & Hi & E)];
          rewrite E in Hrem; [done|]. simpl in Hrem. injection Hrem as <- Hrem.
        pose proof (block_ok _ _ Hi) as Hb. apply Forall_cons in Hb as [? ?].
        exists (S i), suf. split_and!; [done|done|done|]. by apply load_block_runs.
      - simpl in Hrem. injection Hrem as <- Hrem. apply Forall_cons in Hs as [? ?].
        exists i, suf. split_and!; [done|done|done|]. rewrite blen_block_cons by done.
        apply runs_ret. }
    pose proof (blen_nonneg (e_key e)). pose proof (blen_nonneg (e_value e)).
    pose proof (blen_nonneg (encode_block suf')). cbn [skip_below].
    destruct (bytes_leb target (e_key e)) eqn:L.
    + destruct (parse_entry_runs (mkIter i' (encode_block (e :: suf')) true cur) (e :: rem))
        as (it' & Hp & Hat').
      { split; [done|]. exists (e :: suf'). split_and!; [done|by constructor|]. by rewrite Hrem'. }
      exists it'. split; [|done]. eapply runs_bind; [exact Hr|].
      cbn [it_valid negb it_rest]. rewrite blen_block_cons by done.
      rewrite encode_block_cons, parse_hdr_entry by done. cbn [h_keylen h_vallen h_rest].
      autorewrite with ks_len. rewrite (proj2 (Z.ltb_ge _ _)) by lia.
      rewrite take_blen, L. exact Hp.
    + destruct (IH (mkIter i' (encode_block suf') true cur) fuel) as (it' & Hp & Hat').
      { split; [done|]. by exists suf'. }
      { simpl in Hf. lia. }
      exists it'. split; [|done]. eapply runs_bind; [exact Hr|].
      cbn [it_valid negb it_rest it_idx it_current]. rewrite blen_block_cons by done.
      rewrite encode_block_cons, parse_hdr_entry by done. cbn [h_keylen h_vallen h_rest].
      autorewrite with ks_len. rewrite (proj2 (Z.ltb_ge _ _)) by lia.
      rewrite take_blen, L.
      rewrite (assoc_L (++)), <- blen_app, drop_blen. exact Hp.
Qed.

Lemma length_image : (length es < seek_fuel t)%nat.
Proof.
  unfold seek_fuel. cbn [index_ t_file t table_of]. destruct (decide (es = [])) as [->|Hne].
  { simpl. lia. }
  apply layout_nil in Hne. rewrite length_index_of.
  destruct (layout es) as [|b bs] eqn:E; [done|].
  enough (length es ≤ length (sst_image es bloom))%nat.
  { cbn [length]. lia. }
  unfold sst_image, sst_body. rewrite !length_app.
  enough (∀ blocks, length (mjoin blocks) ≤ length (data_image blocks))%nat as Hb.
  { specialize (Hb (layout es)). rewrite mjoin_layout in Hb. lia. }
  clear. intros blocks. induction blocks as [|b bs IH]; [done|].
  rewrite data_image_cons, mjoin_cons, !length_app. unfold block_image. rewrite length_app.
  pose proof (encode_block_size b). unfold blen in *. lia.
Qed.

Context (Hsorted : sorted_entries es).

Lemma block_sorted i b : layout es !! i = Some b → sorted_entries b.
Proof.
  intros Hi. pose proof Hsorted as Hs. rewrite <- (mjoin_layout es) in Hs.
  rewrite (mjoin_middle _ _ _ Hi) in Hs. apply StronglySorted_app_1_r in Hs.
  by apply StronglySorted_app_1_l in Hs.
Qed.

(** Seeking starts in the block a point read would use. *)
Lemma sst_seek_runs target :
  es ≠ [] →
  let i := default 0%nat (fst <$> last_block (layout es) target) in
  ∃ it, runs content (sst_seek t target) (Ok it) ∧
    it_shows it (skip_below target (mjoin (drop i (layout es)))).
Proof.
  intros Hne i. destruct (index_cons Hne) as (ie & l & Hidx). unfold sst_seek. rewrite Hidx.
  rewrite <- Hidx. unfold iter_seek_at. cbn [index_ t table_of]. rewrite find_block_idx_spec.
  2:{ apply sorted_block_keys; [apply layout_nonempty|by rewrite mjoin_layout]. }
  fold i. fold t.
  assert (∃ b, layout es !! i = Some b) as [b Hi].
  { subst i. destruct (last_block (layout es) target) as [[j b]|] eqn:E; simpl.
    - apply last_block_lookup in E as [? _]. by exists b.
    - apply layout_nil in Hne. destruct (layout es); [done|]. by eexists. }
  assert (length (mjoin (drop i (layout es))) ≤ length es)%nat as Hlen.
  { rewrite <- (mjoin_layout es) at 2. rewrite <- (take_drop i (layout es)) at 2.
    rewrite join_app, length_app. lia. }
  destruct (seek_loop_runs (mkIter i (encode_block b) true no_entry)
    (mjoin (drop i (layout es))) target (seek_fuel t)) as (it & Hr & Hit).
  { split; [done|]. exists b. split_and!; [done|by eapply block_ok|]. by rewrite (drop_S _ _ _ Hi). }
  { pose proof length_image. lia. }
  exists it. split; [|done].
  eapply runs_bind; [by apply load_block_runs|]. cbn [it_valid negb]. exact Hr.
Qed.

Context (Hwf : bloom_wf bloom) (Hbloom : ∀ k, k ∈ e_key <$> es → may_contain bloom k = Ok true).

(** A point read answers from the last block whose first key is not above
    the key. *)
Lemma sst_get_runs key s :
  runs content (sst_get t key s) (Ok (block_lookup (layout es) key s)).
Proof.
  unfold sst_get, block_lookup.
  destruct (may_contain_defined bloom key Hwf) as [r Hr].
  eapply runs_bind; [unfold sst_may_contain; simpl; rewrite Hr; apply runs_lift|].
  cbn [index_ t table_of]. rewrite find_block_idx_spec.
  2:{ apply sorted_block_keys; [apply layout_nonempty|by rewrite mjoin_layout]. }
  destruct (last_block (layout es) key) as [[i b]|] eqn:E; simpl.
  2:{ destruct r; apply runs_ret. }
  pose proof (last_block_lookup _ _ _ _ E) as [Hi _].
  destruct r; simpl.
  - eapply runs_bind; [by apply read_block_runs|].
    rewrite bool_decide_eq_false_2 by (rewrite encode_block_nil; by eapply block_nonempty).
    cbn [footer_ format_version t table_of]. rewrite get_loop_block; [apply runs_ret| | |].
    + by eapply block_ok.
    + by eapply block_sorted.
    + pose proof (encode_block_size b). unfold blen in *. lia.
  - rewrite lookup_ref_none; [apply runs_ret|]. intros e He Hk.
    rewrite Hbloom in Hr; [done|]. rewrite <- Hk. apply list_elem_of_fmap_2.
    by eapply block_elem.
Qed.

End Table.

End ReaderLemmas.

(** ** Damaged and unreadable blocks *)

Lemma block_loader_corrupt `{PosixOk} t ie pre a x y b post :
  t_file t = pre ++ ((a ++ y ++ b) ++ put_u32_le (crc32 (a ++ x ++ b))) ++ post →
  ie_offset ie = blen pre → ie_length ie = blen (a ++ y ++ b) + 4 →
  blen (t_file t) < 2 ^ 63 → 3 ≤ format_version (footer_ t) →
  length x = length y → (length x ≤ 4)%nat → x ≠ y →
  block_loader t ie = Throw "SSTable block checksum mismatch".
Proof.
  intros Hf Ho Hl Hsz Hv Hxy H4 Hne. unfold block_loader. rewrite Hf, !blen_app in Hsz.
  pose proof (blen_nonneg pre). pose proof (blen_nonneg post). rewrite !blen_app in Hl.
  pose proof (blen_nonneg a). pose proof (blen_nonneg b). pose proof (blen_nonneg y).
  change (blen (put_u32_le _)) with 4 in Hsz.
  rewrite vector_size_ok by lia. cbn [mbind result_bind]. rewrite off_t_small by lia.
  rewrite Hf. destruct (pread_bytes_ok pre ((a ++ y ++ b) ++ put_u32_le (crc32 (a ++ x ++ b))) post
    (ie_length ie) (ie_offset ie)) as [-> ->]; [rewrite !blen_app, Hl; done|done|].
  rewrite Z.eqb_refl. cbn [negb]. rewrite (proj2 (Z.leb_le _ _)) by lia.
  rewrite (proj2 (Z.leb_le 4 _)).
  2:{ rewrite !blen_app. change (blen (put_u32_le _)) with 4. lia. }
  cbn [andb]. rewrite (length_app (a ++ y ++ b)), length_put_u32_le, Nat.add_sub.
  rewrite drop_app_length, take_app_length, get_put_u32_le', u32_small by apply crc32_range.
  rewrite (proj2 (Z.eqb_neq _ _)); [done|]. intros E. apply Hne.
  by apply (crc32_burst_inj a x y b).
Qed.

(** Skipping the blocks in front of the chosen one skips smaller keys only. *)
Lemma skip_below_app target a b :
  (∀ e, e ∈ a → key_lt (e_key e) target) → skip_below target (a ++ b) = skip_below target b.
Proof.
  induction a as [|e a IH]; intros Ha; [done|]. simpl.
  rewrite (proj2 (bytes_leb_gt _ _)) by (apply Ha; by left).
  apply IH. intros. apply Ha. by right.
Qed.

Lemma length_skip_below target l : (length (skip_below target l) ≤ length l)%nat.
Proof. induction l as [|e l IH]; simpl; [lia|]. case_match; simpl; lia. Qed.

Lemma skip_below_blocks blocks target :
  Forall (.≠ []) blocks → sorted_entries (mjoin blocks) → keys_separate blocks →
  skip_below target
    (mjoin (drop (default 0%nat (fst <$> last_block blocks target)) blocks)) =
  skip_below target (mjoin blocks).
Proof.
  intros Hne Hs Hsep. destruct (last_block blocks target) as [[i b]|] eqn:E; simpl; [|done].
  rewrite <- (take_drop i blocks) at 2. rewrite join_app. symmetry. apply skip_below_app.
  intros e He. by eapply last_block_before.
Qed.

(** * Properties *)

(** The whole life of a table: feed a writer, finish, open the file. *)
Definition write_table `{Posix} (es : list Entry) : result File :=
  w ← add_entries SSTableWriter_new es; finish w.

Lemma write_open `{PosixOk} number es :
  es ≠ [] → Forall sst_entry_ok es → sst_fits es →
  ∃ f bloom, write_table es = Ok f ∧ f_data f = sst_image es bloom ∧
    f_synced f = length (f_data f) ∧ bloom_wf bloom ∧
    (∀ k, k ∈ e_key <$> es → may_contain bloom k = Ok true) ∧
    sst_open number (f_data f) = Ok (table_of number es bloom).
Proof.
  intros Hne Hok Hfit. destruct (finish_image es Hok Hfit) as (bloom & _ & Hwf & Hbits & Hin & E).
  eexists _, bloom. split_and!; [exact E|done|done|done|done|].
  by apply sst_open_image.
Qed.

(** C21. Round trip of a table file. Whatever entries the format can
    represent are fed to a writer, [finish] returns with the whole file
    synced, [open] accepts the file, the footer carries the number of entries
    and a sequence number no entry exceeds, and the iterator from [begin]
    visits exactly the entries written, in order, through any coherent block
    cache or none. *)
Theorem sst_roundtrip `{PosixOk} (number : Z) (es : list Entry) (content : CacheKey → bytes)
    (Hne : es ≠ []) (Hok : Forall sst_entry_ok es) (Hfit : sst_fits es) :
  ∃ f t, write_table es = Ok f ∧ f_synced f = length (f_data f) ∧
    sst_open number (f_data f) = Ok t ∧
    footer_entry_count (footer_ t) = Z.of_nat (length es) ∧
    (∀ e, e ∈ es → e_seq e ≤ footer_max_seq (footer_ t)) ∧
    (coherent content t →
     runs content (it ← sst_begin t; iter_collect (S (length es)) t it) (Ok es)).
Proof.
  destruct (write_open number es Hne Hok Hfit) as (f & bloom & Hw & Hd & Hs & Hwf & Hin & Ho).
  exists f, (table_of number es bloom). split_and!; [done|done|done|done| |].
  - intros e He. by apply max_seq_of_ge.
  - intros Hco. destruct (sst_begin_runs content number es bloom Hok Hfit Hco Hne)
      as (it & Hr & Hit). eapply runs_bind; [exact Hr|].
    by apply iter_collect_shows.
Qed.

(** C20. Point reads. Of a table written from sorted versions in which no
    key's versions ended up in two blocks, [get] returns at every snapshot the
    newest version the snapshot may see, or its tombstone, or nothing:
    bloom filter, binary search, checksum, cache and block scan together
    compute the reference lookup. *)
Theorem sst_get_correct `{PosixOk} (number : Z) (es : list Entry) (content : CacheKey → bytes)
    (Hne : es ≠ []) (Hok : Forall sst_entry_ok es) (Hfit : sst_fits es)
    (Hsorted : sorted_entries es) (Hsep : keys_separate (layout es)) :
  ∃ f t, write_table es = Ok f ∧ sst_open number (f_data f) = Ok t ∧
    (coherent content t →
     ∀ key s, runs content (sst_get t key s) (Ok (lookup_ref es key s))).
Proof.
  destruct (write_open number es Hne Hok Hfit) as (f & bloom & Hw & Hd & Hs & Hwf & Hin & Ho).
  exists f, (table_of number es bloom). split_and!; [done|done|]. intros Hco key s.
  rewrite <- (mjoin_layout es) at 2.
  rewrite <- block_lookup_correct; [|apply layout_nonempty|by rewrite mjoin_layout|done].
  by apply sst_get_runs.
Qed.

(** What [get] returns in general: the answer of the last block whose
    first key is not above the key, for every table of sorted versions, whether
    or not a key's versions were split over several blocks. *)
Theorem sst_get_exact `{PosixOk} (number : Z) (es : list Entry) (content : CacheKey → bytes)
    (Hne : es ≠ []) (Hok : Forall sst_entry_ok es) (Hfit : sst_fits es)
    (Hsorted : sorted_entries es) :
  ∃ f t, write_table es = Ok f ∧ sst_open number (f_data f) = Ok t ∧
    (coherent content t →
     ∀ key s, runs content (sst_get t key s) (Ok (block_lookup (layout es) key s))).
Proof.
  destruct (write_open number es Hne Hok Hfit) as (f & bloom & Hw & Hd & Hs & Hwf & Hin & Ho).
  exists f, (table_of number es bloom). split_and!; [done|done|]. intros Hco key s.
  by apply sst_get_runs.
Qed.

(** Range starts. [seek] positions at the first version whose key is not
    below the target, across block boundaries, and the iteration from there
    visits exactly the versions from that key on; it terminates. *)
Theorem sst_seek_correct `{PosixOk} (number : Z) (es : list Entry) (content : CacheKey → bytes)
    (Hne : es ≠ []) (Hok : Forall sst_entry_ok es) (Hfit : sst_fits es)
    (Hsorted : sorted_entries es) (Hsep : keys_separate (layout es)) :
  ∃ f t, write_table es = Ok f ∧ sst_open number (f_data f) = Ok t ∧
    (coherent content t →
     ∀ target, runs content (it ← sst_seek t target; iter_collect (S (length es)) t it)
       (Ok (skip_below target es))).
Proof.
  destruct (write_open number es Hne Hok Hfit) as (f & bloom & Hw & Hd & Hs & Hwf & Hin & Ho).
  exists f, (table_of number es bloom). split_and!; [done|done|]. intros Hco target.
  pose proof (skip_below_blocks (layout es) target (layout_nonempty es)) as E.
  rewrite mjoin_layout in E. specialize (E Hsorted Hsep).
  destruct (sst_seek_runs content number es bloom Hok Hfit Hco Hsorted target Hne)
    as (it & Hr & Hit). rewrite E in Hit. eapply runs_bind; [exact Hr|].
  apply iter_collect_shows; [done..|]. apply length_skip_below.
Qed.

(** Binary search. On an index with ascending first keys
    [find_block_idx] returns the last block whose first key is not above the
    key, and -1 exactly when there is none. *)
Theorem find_block_idx_correct (off : Z) (blocks : list (list Entry)) (key : bytes)
    (Hs : StronglySorted key_le (block_key <$> blocks)) :
  find_block_idx (index_of off blocks) key = fst <$> last_block blocks key.
Proof. by apply find_block_idx_spec. Qed.

(** C36. Block checksums. In a table of format version 3 or later, a block that
    is not in the cache and whose payload, but not its stored checksum, was
    changed within four consecutive bytes is not returned: the read throws, and
    the cache is left as it was. Blocks of older tables carry no checksum. *)
Theorem sst_corrupt_block_detected `{PosixOk} (t : SSTable) (idx : nat) (ie : IndexEntry)
    (pre a x y b post : bytes) (c : option BlockCache) :
  index_ t !! idx = Some ie →
  t_file t = pre ++ ((a ++ y ++ b) ++ put_u32_le (crc32 (a ++ x ++ b))) ++ post →
  ie_offset ie = blen pre → ie_length ie = blen (a ++ y ++ b) + 4 →
  blen (t_file t) < 2 ^ 63 → 3 ≤ format_version (footer_ t) →
  length x = length y → (length x ≤ 4)%nat → x ≠ y →
  (∀ bc, c = Some bc → map_ bc !! (number_ t, ie_offset ie) = None) →
  read_block t idx c = (c, Throw "SSTable block checksum mismatch").
Proof.
  intros Hi Hf Ho Hl Hsz Hv Hxy H4 Hne Hc. unfold read_block. rewrite Hi.
  rewrite (block_loader_corrupt t ie pre a x y b post) by done.
  destruct c as [bc|]; [|done].
  unfold get_or_load, lookup_section, touch. by rewrite Hc.
Qed.

(** A block that cannot be read is reported as absent. When [pread]
    fails or returns fewer bytes than the index says, [get] answers NotFound
    for every key of the block instead of raising an error. *)
Theorem sst_unreadable_block_not_found `{Posix} (t : SSTable) (key : bytes) (s : Z) (bi : nat)
    (ie : IndexEntry) :
  sst_may_contain t key = Ok true → find_block_idx (index_ t) key = Some bi →
  index_ t !! bi = Some ie → ie_length ie < 2 ^ 63 →
  sys_pread (t_file t) (ie_length ie) (off_t (ie_offset ie)) ≠ ie_length ie →
  sst_get t key s None = (None, Ok NotFound).
Proof.
  intros Hm Hb Hi Hl Hp. unfold sst_get, lift, mbind, cached_bind. rewrite Hm, Hb. simpl.
  unfold read_block. rewrite Hi. unfold block_loader. rewrite vector_size_ok by done.
  cbn [mbind result_bind]. rewrite (proj2 (Z.eqb_neq _ _)) by done. cbn [negb].
  by rewrite andb_false_r.
Qed.

(** ** Concrete tables *)

Definition ex_versions : list Entry :=
  [mkEntry (bs "apple") (bs "red") false 4; mkEntry (bs "pear") [] true 6;
   mkEntry (bs "pear") (bs "green") false 2; mkEntry (bs "plum") (bs "blue") false 3].

(** Two versions of one key that the writer separates: the first block
    reaches its target size behind the newer one. *)
Definition straddling_versions : list Entry :=
  [mkEntry (bs "a") (replicate 4000 Byte.x41) false 1;
   mkEntry (bs "b") (bs "new" ++ replicate 100 Byte.x42) false 3;
   mkEntry (bs "b") (bs "old") false 2].

Definition read_back (es : list Entry) (key : bytes) (s : Z) : result LookupResult :=
  let posix := chunked_posix 4095 in
  f ← write_table es; t ← sst_open 1 (f_data f); (sst_get t key s None).2.

(** Versions of one key can be split over two blocks, because [add]
    compares the next key with the first key of the block instead of the last
    one; a read then answers from the later block. Here the newest version of
    a key (number 3) is in the table and the reader at the latest snapshot gets
    version 2. *)
Theorem sst_get_stale :
  sorted_entries straddling_versions ∧
  lookup_ref straddling_versions (bs "b") u64_max = Found (bs "new" ++ replicate 100 Byte.x42) ∧
  read_back straddling_versions (bs "b") u64_max = Ok (Found (bs "old")).
Proof.
  split_and!; [|by vm_compute|by vm_compute].
  apply (bool_decide_unpack _). by vm_compute.
Qed.

Definition ex_content (k : CacheKey) : bytes :=
  if decide (k = (7, 0)) then encode_block ex_versions else [].

Definition ex_posix : Posix := chunked_posix 63.

Definition ex_open : result SSTable :=
  let posix := ex_posix in f ← write_table ex_versions; sst_open 7 (f_data f).

Definition ex_table : SSTable :=
  match ex_open with Ok t => t | _ => mkSSTable [] 0 (mkFooter 0 0 0 0 0 0) [] None end.

#[export] Instance ex_posix_ok : @PosixOk ex_posix := chunked_posix_ok 63.

Lemma ex_versions_ok : ex_versions ≠ [] ∧ Forall sst_entry_ok ex_versions ∧ sst_fits ex_versions.
Proof. split_and!; [done| |by vm_compute]. apply (bool_decide_unpack _). by vm_compute. Qed.

Lemma ex_versions_sorted : sorted_entries ex_versions.
Proof. apply (bool_decide_unpack _). by vm_compute. Qed.

Lemma ex_layout : layout ex_versions = [ex_versions].
Proof. by vm_compute. Qed.

Lemma ex_separate : keys_separate (layout ex_versions).
Proof. rewrite ex_layout. split; [|done]. intros e e' _ He. by apply elem_of_nil in He. Qed.

Lemma ex_table_eq f t :
  write_table (H := ex_posix) ex_versions = Ok f → sst_open (H := ex_posix) 7 (f_data f) = Ok t →
  t = ex_table.
Proof.
  intros Hw Ho. assert (ex_open = Ok t) as E.
  { unfold ex_open. rewrite Hw. exact Ho. }
  unfold ex_table. by rewrite E.
Qed.

Lemma ex_coherent : coherent (H := ex_posix) ex_content ex_table.
Proof.
  intros [|i] ie Hi; vm_compute in Hi; [|done]. injection Hi as <-. by vm_compute.
Qed.

Lemma sst_roundtrip_witness :
  ((it ← sst_begin (H := ex_posix) ex_table; iter_collect (H := ex_posix) 5 ex_table it)
     (Some (BlockCache_new 1000))).2 = Ok ex_versions.
Proof.
  destruct ex_versions_ok as (Hne & Hok & Hfit).
  destruct (sst_roundtrip (H := ex_posix) 7 ex_versions ex_content Hne Hok Hfit)
    as (f & t & Hw & _ & Ho & _ & _ & Hr).
  rewrite (ex_table_eq f t Hw Ho) in Hr.
  destruct (Hr ex_coherent (Some (BlockCache_new 1000))) as [E _]; [|exact E].
  split_and!; [split; by try constructor|done|done|]. intros k. unfold ex_content.
  case_decide; by vm_compute.
Defined.

Lemma sst_get_witness :
  (sst_get (H := ex_posix) ex_table (bs "pear") 5 None).2 = Ok (Found (bs "green")) ∧
  (sst_get (H := ex_posix) ex_table (bs "pear") 6 None).2 = Ok Deleted ∧
  (sst_get (H := ex_posix) ex_table (bs "melon") 6 None).2 = Ok NotFound.
Proof.
  destruct ex_versions_ok as (Hne & Hok & Hfit).
  destruct (sst_get_correct (H := ex_posix) 7 ex_versions ex_content Hne Hok Hfit ex_versions_sorted ex_separate)
    as (f & t & Hw & Ho & Hr).
  rewrite (ex_table_eq f t Hw Ho) in Hr.
  assert (∀ key s, (sst_get (H := ex_posix) ex_table key s None).2 = Ok (lookup_ref ex_versions key s))
    as E by (intros key s; exact (proj1 (Hr ex_coherent key s None I))).
  rewrite !E. vm_compute. split_and!; reflexivity.
Defined.

Lemma sst_get_exact_witness :
  (sst_get (H := ex_posix) ex_table (bs "apple") 9 None).2 = Ok (Found (bs "red")).
Proof.
  destruct ex_versions_ok as (Hne & Hok & Hfit).
  destruct (sst_get_exact (H := ex_posix) 7 ex_versions ex_content Hne Hok Hfit ex_versions_sorted)
    as (f & t & Hw & Ho & Hr).
  rewrite (ex_table_eq f t Hw Ho) in Hr.
  destruct (Hr ex_coherent (bs "apple") 9 None I) as [E _]. rewrite E. vm_compute. reflexivity.
Defined.

Lemma sst_seek_witness :
  ((it ← sst_seek (H := ex_posix) ex_table (bs "b"); iter_collect (H := ex_posix) 5 ex_table it)
     None).2 = Ok (drop 1 ex_versions).
Proof.
  destruct ex_versions_ok as (Hne & Hok & Hfit).
  destruct (sst_seek_correct (H := ex_posix) 7 ex_versions ex_content Hne Hok Hfit ex_versions_sorted ex_separate)
    as (f & t & Hw & Ho & Hr).
  rewrite (ex_table_eq f t Hw Ho) in Hr.
  destruct (Hr ex_coherent (bs "b") None I) as [E _]. exact E.
Defined.

Definition ex_blocks : list (list Entry) :=
  [[mkEntry (bs "a") [] false 1]; [mkEntry (bs "f") [] false 2]; [mkEntry (bs "k") [] false 3]].

Lemma find_block_idx_witness :
  find_block_idx (index_of 0 ex_blocks) (bs "g") = Some 1%nat.
Proof.
  rewrite (find_block_idx_correct 0 ex_blocks (bs "g")); [by vm_compute|].
  apply (bool_decide_unpack _). by vm_compute.
Defined.

(** One changed byte of the first block. *)
Definition ex_damaged : SSTable := {|
  t_file := <[20%nat := Byte.x58]> (t_file ex_table); number_ := 7; footer_ := footer_ ex_table;
  index_ := index_ ex_table; bloom_ := bloom_ ex_table;
|}.

Lemma sst_corrupt_block_witness :
  read_block (H := ex_posix) ex_damaged 0 None = (None, Throw "SSTable block checksum mismatch").
Proof.
  apply (sst_corrupt_block_detected (H := ex_posix) ex_damaged 0
    (mkIndexEntry (bs "apple") 0 (blen (encode_block ex_versions) + 4)) []
    (take 20 (encode_block ex_versions)) (take 1 (drop 20 (encode_block ex_versions)))
    [Byte.x58] (drop 21 (encode_block ex_versions))
    (drop (length (encode_block ex_versions) + 4) (t_file ex_table)) None);
    try (by vm_compute).
  vm_compute. lia.
Defined.

(** A disk on which every [pread] fails. *)
Definition dead_posix : Posix := {|
  sys_read _ _ := -1; sys_write _ _ := [WriteError "EIO"]; sys_pread _ _ _ := -1;
  sys_sync _ := false; sys_rename _ := false; sys_resize _ := false;
|}.

Lemma sst_unreadable_witness :
  sst_get (H := dead_posix) ex_table (bs "apple") 9 None = (None, Ok NotFound).
Proof.
  apply (sst_unreadable_block_not_found (H := dead_posix) ex_table (bs "apple") 9 0
    (mkIndexEntry (bs "apple") 0 (blen (encode_block ex_versions) + 4)));
    by vm_compute.
Defined.
