(* ===== verification/MergeIterator.v ===== *)
(** The k-way merge of src/include/keystone/merge_iterator.h and
    src/src/merge_iterator.cpp.

    [MergeSource] is the interface of the abstract class, with an instance per
    adapter.  [std::priority_queue] is a parameter: which of several equal
    entries is on top is left open.  The merge is verified against the
    interface, for any sources that yield sorted versions. *)

From S2P Require Import Prelude Coding Entry Memtable BlockCache SSTableWriter SSTable.
Local Open Scope Z_scope.

(** * Definitions *)

(** The virtual functions of [MergeSource]; [next] may read a block. *)
Class MergeSource (S : Type) := {
  src_valid : S → bool;
  src_entry : S → Entry;
  src_next : S → cached S;
}.

(** ** The adapters *)

Record SnapshotMergeSource := mkSnapshotSource { sn_entries : list Entry; sn_idx : nat }.

(** [entry()] is only called on a valid source. *)
#[export] Instance snapshot_source_ops : MergeSource SnapshotMergeSource := {|
  src_valid s := (sn_idx s <? length (sn_entries s))%nat;
  src_entry s := nth (sn_idx s) (sn_entries s) no_entry;
  src_next s := mret (mkSnapshotSource (sn_entries s) (S (sn_idx s)));
|}.

Definition snapshot_source (entries : list Entry) : SnapshotMergeSource :=
  mkSnapshotSource entries 0.

Record MemtableMergeSource := mkMemtableSource {
  mt_table : Memtable;
  mt_it : option nat;
  mt_current : Entry;
  mt_valid : bool;
}.

(** [load()] behind the comparison with [end_]. *)
Definition memtable_load (m : Memtable) (it : option nat) (cur : Entry)
  : result MemtableMergeSource :=
  match it with
  | None => Ok (mkMemtableSource m None cur false)
  | Some x => e ← deref m x; Ok (mkMemtableSource m (Some x) e true)
  end.

Definition memtable_source (m : Memtable) : result MemtableMergeSource :=
  it ← raw_begin m; memtable_load m it no_entry.

#[export] Instance memtable_source_ops : MergeSource MemtableMergeSource := {|
  src_valid := mt_valid;
  src_entry := mt_current;
  src_next s := lift
    match mt_it s with
    | None => Undefined
    | Some x => it ← raw_next (mt_table s) x; memtable_load (mt_table s) it (mt_current s)
    end;
|}.

Record SSTableMergeSource := mkSSTableSource {
  ss_table : SSTable;
  ss_it : SstIter;
  ss_current : Entry;
  ss_valid : bool;
}.

Definition sstable_load (t : SSTable) (it : SstIter) (cur : Entry) : SSTableMergeSource :=
  if it_valid it then mkSSTableSource t it (it_current it) true
  else mkSSTableSource t it cur false.

Section Sources.
Context `{Posix}.

Definition sstable_source (t : SSTable) : cached SSTableMergeSource :=
  it ← sst_begin t; mret (sstable_load t it no_entry).

Definition sstable_source_seek (t : SSTable) (target : bytes) : cached SSTableMergeSource :=
  it ← sst_seek t target; mret (sstable_load t it no_entry).

#[export] Instance sstable_source_ops : MergeSource SSTableMergeSource := {|
  src_valid := ss_valid;
  src_entry := ss_current;
  src_next s :=
    it ← iter_next (ss_table s) (ss_it s);
    mret (sstable_load (ss_table s) it (ss_current s));
|}.

(** [std::unique_ptr<MergeSource>]: a source of any of the three classes. *)
Inductive AnySource : Type :=
| FromSnapshot (s : SnapshotMergeSource)
| FromMemtable (s : MemtableMergeSource)
| FromSSTable (s : SSTableMergeSource).

#[export] Instance any_source_ops : MergeSource AnySource := {|
  src_valid s :=
    match s with
    | FromSnapshot s => src_valid s | FromMemtable s => src_valid s | FromSSTable s => src_valid s
    end;
  src_entry s :=
    match s with
    | FromSnapshot s => src_entry s | FromMemtable s => src_entry s | FromSSTable s => src_entry s
    end;
  src_next s :=
    match s with
    | FromSnapshot s => s' ← src_next s; mret (FromSnapshot s')
    | FromMemtable s => s' ← src_next s; mret (FromMemtable s')
    | FromSSTable s => s' ← src_next s; mret (FromSSTable s')
    end;
|}.

End Sources.

(** ** The priority queue *)

(** [Cmp]: [a] comes after [b]. *)
Definition cmp_after (a b : Entry) : bool :=
  match bytes_compare (e_key a) (e_key b) with
  | Gt => true
  | Lt => false
  | Eq => e_seq a <? e_seq b
  end.

(** [heap_.top()]: the position of an entry that comes after no other. *)
Class PriorityQueue := { pq_top : list Entry → nat }.

Class PriorityQueueOk `{PriorityQueue} : Prop := {
  pq_top_ok es : es ≠ [] →
    ∃ e, es !! pq_top es = Some e ∧ ∀ e', e' ∈ es → cmp_after e e' = false;
}.

(** A concrete queue, for evaluation: the first such entry. *)
Fixpoint first_top (es : list Entry) : nat :=
  match es with
  | [] => 0
  | e :: es' =>
      let i := first_top es' in
      match es' !! i with
      | Some e' => if cmp_after e e' then S i else 0
      | None => 0
      end
  end.

Definition first_pq : PriorityQueue := {| pq_top := first_top |}.

(** ** The iterator *)

Record MergeIterator (S : Type) := mkMerge {
  heap_ : list S;
  mi_current : Entry;
  keep_tombstones_ : bool;
  snapshot_seq_ : Z;
  yield_all_versions_ : bool;
  mi_valid : bool;
}.
Arguments mkMerge {S}.
Arguments heap_ {S}.
Arguments mi_current {S}.
Arguments keep_tombstones_ {S}.
Arguments snapshot_seq_ {S}.
Arguments yield_all_versions_ {S}.
Arguments mi_valid {S}.

Section MergeOps.
Context {S : Type} `{MergeSource S} `{PriorityQueue}.

(** [heap_.top()] *)
Definition heap_top (h : list S) : option S := h !! pq_top (src_entry <$> h).

(** [heap_.pop(); src->next(); if (src->valid()) heap_.push(src);] *)
Definition pop_next (h : list S) (src : S) : cached (list S) :=
  src' ← src_next src;
  let rest := delete (pq_top (src_entry <$> h)) h in
  mret (if src_valid src' then rest ++ [src'] else rest).

(** The inner loop: drop all versions of [winner_key], remembering the
    first that the snapshot may see. *)
Fixpoint drain (fuel : nat) (snapshot_seq : Z) (winner_key : bytes) (best : option Entry)
    (h : list S) : cached (option Entry * list S) :=
  match heap_top h with
  | None => mret (best, h)
  | Some src =>
      let e := src_entry src in
      if negb (bytes_eqb (e_key e) winner_key) then mret (best, h) else
      match fuel with
      | O => lift Undefined
      | Datatypes.S fuel' =>
          let best' :=
            match best with
            | Some _ => best
            | None => if e_seq e <=? snapshot_seq then Some e else None
            end in
          h' ← pop_next h src;
          drain fuel' snapshot_seq winner_key best' h'
      end
  end.

Definition with_heap (it : MergeIterator S) (h : list S) (cur : Entry) (valid : bool)
  : MergeIterator S :=
  mkMerge h cur (keep_tombstones_ it) (snapshot_seq_ it) (yield_all_versions_ it) valid.

(** The outer loop of [advance]. *)
Fixpoint advance_loop (fuel : nat) (it : MergeIterator S) (h : list S)
  : cached (MergeIterator S) :=
  match heap_top h with
  | None => mret (with_heap it h (mi_current it) false)
  | Some src =>
      match fuel with
      | O => lift Undefined
      | Datatypes.S fuel' =>
          r ← drain fuel (snapshot_seq_ it) (e_key (src_entry src)) None h;
          match r.1 with
          | Some b =>
              if keep_tombstones_ it || negb (e_tombstone b)
              then mret (with_heap it r.2 b true)
              else advance_loop fuel' it r.2
          | None => advance_loop fuel' it r.2
          end
      end
  end.

Definition advance (fuel : nat) (it : MergeIterator S) : cached (MergeIterator S) :=
  if yield_all_versions_ it then
    match heap_top (heap_ it) with
    | None => mret (with_heap it (heap_ it) (mi_current it) false)
    | Some src =>
        h' ← pop_next (heap_ it) src;
        mret (with_heap it h' (src_entry src) true)
    end
  else advance_loop fuel it (heap_ it).

(** The constructor. *)
Definition merge_new (fuel : nat) (sources : list S) (keep_tombstones : bool)
    (snapshot_seq : Z) (yield_all_versions : bool) : cached (MergeIterator S) :=
  advance fuel (mkMerge (List.filter src_valid sources) no_entry keep_tombstones snapshot_seq
    yield_all_versions false).

(** A client's loop: [while (iter.valid() && go(iter)) { ...; iter.next(); }] *)
Fixpoint merge_collect (fuel : nat) (go : Entry → bool) (it : MergeIterator S)
  : cached (list Entry) :=
  match fuel with
  | O => lift Undefined
  | Datatypes.S fuel' =>
      if mi_valid it && go (mi_current it) then
        it' ← advance fuel it;
        es ← merge_collect fuel' go it';
        mret (mi_current it :: es)
      else mret []
  end.

End MergeOps.

(** ** Specification *)

(** The interface: a source yields the entries [es], one per [next], and is
    then invalid. *)
Fixpoint yields {S} `{MergeSource S} (content : CacheKey → bytes) (s : S) (es : list Entry)
  : Prop :=
  match es with
  | [] => src_valid s = false
  | e :: es' =>
      src_valid s = true ∧ src_entry s = e ∧
      ∃ s', runs content (src_next s) (Ok s') ∧ yields content s' es'
  end.

(** What a merge at a snapshot shows of a sorted list of versions: per key
    the newest visible version, without tombstones unless they are kept. *)
Definition merge_view (keep_tombstones : bool) (s : Z) (prev : option bytes) (l : list Entry)
  : list Entry :=
  List.filter (λ e, keep_tombstones || negb (e_tombstone e))
    (first_versions prev (List.filter (λ e, e_seq e <=? s) l)).

Section Pops.
Context {S : Type} `{MergeSource S} `{PriorityQueue} (content : CacheKey → bytes).

(** The entries successive pops of the heap deliver. *)
Fixpoint pops (h : list S) (l : list Entry) : Prop :=
  match l with
  | [] => h = []
  | e :: l' =>
      ∃ src h', heap_top h = Some src ∧ src_entry src = e ∧
        runs content (pop_next h src) (Ok h') ∧ pops h' l'
  end.

End Pops.

(** * Lemmas *)

Lemma cmp_after_false a b : cmp_after a b = false ↔ ent_le a b.
Proof.
  unfold cmp_after. rewrite ent_le_cases. unfold key_lt. rewrite <- bytes_compare_eq.
  destruct (bytes_compare (e_key a) (e_key b)); rewrite ?Z.ltb_ge; naive_solver.
Qed.

#[export] Instance first_pq_ok : @PriorityQueueOk first_pq.
Proof.
  split. intros es Hne. simpl. induction es as [|e es IH]; [done|]. simpl.
  destruct es as [|e1 es]; [exists e; split; [done|]|].
  { intros e' [->|He]%elem_of_cons; [|by apply elem_of_nil in He].
    apply cmp_after_false, ent_le_refl. }
  destruct IH as (e0 & He0 & Hmin); [done|]. rewrite He0.
  destruct (cmp_after e e0) eqn:E.
  - exists e0. split; [done|]. intros e' [->|He']%elem_of_cons; [|auto].
    apply cmp_after_false. destruct (ent_le_total e0 e) as [|Hle]; [done|].
    apply cmp_after_false in Hle. congruence.
  - exists e. split; [done|]. intros e' [->|He']%elem_of_cons.
    { apply cmp_after_false, ent_le_refl. }
    apply cmp_after_false. specialize (Hmin e' He'). rewrite cmp_after_false in E, Hmin.
    eauto with keystone.
Qed.

(** ** The view of a sorted list *)

Lemma merge_view_hidden keep s prev e l :
  s < e_seq e → merge_view keep s prev (e :: l) = merge_view keep s prev l.
Proof. intros. unfold merge_view. cbn [List.filter]. by rewrite (proj2 (Z.leb_gt _ _)). Qed.

Lemma merge_view_skip keep s e l :
  merge_view keep s (Some (e_key e)) (e :: l) = merge_view keep s (Some (e_key e)) l.
Proof.
  unfold merge_view. cbn [List.filter]. destruct (e_seq e <=? s); [|done].
  cbn [first_versions]. by rewrite decide_True.
Qed.

Lemma merge_view_take keep s prev e l :
  e_seq e ≤ s → prev ≠ Some (e_key e) →
  merge_view keep s prev (e :: l) =
    (if keep || negb (e_tombstone e) then [e] else []) ++ merge_view keep s (Some (e_key e)) l.
Proof.
  intros Hs Hp. unfold merge_view. cbn [List.filter]. rewrite (proj2 (Z.leb_le _ _)) by done.
  cbn [first_versions]. rewrite decide_False by done. cbn [List.filter]. by case_match.
Qed.

Lemma merge_view_other keep s k l :
  (∀ e, e ∈ l → e_key e ≠ k) → merge_view keep s (Some k) l = merge_view keep s None l.
Proof.
  intros Hk. unfold merge_view. f_equal. induction l as [|e l IH]; [done|]. cbn [List.filter].
  assert (e_key e ≠ k) by (apply Hk; by left). destruct (e_seq e <=? s).
  - cbn [first_versions]. rewrite decide_False by congruence. by rewrite decide_False.
  - apply IH. intros. apply Hk. by right.
Qed.

(** On a sorted list the first version of a key is the one found first. *)
Lemma first_versions_elem l prev e :
  StronglySorted (λ a b, key_le (e_key a) (e_key b)) l →
  (∀ k, prev = Some k → Forall (λ x, key_le k (e_key x)) l) →
  e ∈ first_versions prev l ↔
    prev ≠ Some (e_key e) ∧ List.find (λ x, bytes_eqb (e_key x) (e_key e)) l = Some e.
Proof.
  intros Hs. revert prev. induction Hs as [|x l Hs IH Hx]; intros prev Hprev; simpl.
  { split; [intros He; by apply elem_of_nil in He|by intros []]. }
  assert (∀ k, prev = Some k → Forall (λ x, key_le k (e_key x)) l) as Hprev'.
  { intros k Hk. specialize (Hprev k Hk). by apply Forall_cons in Hprev as [_ ?]. }
  case_decide as Hd.
  - rewrite (IH prev Hprev'). destruct (bytes_eqb (e_key x) (e_key e)) eqn:E; [|done].
    key_hyps. rewrite Hd, E. naive_solver.
  - rewrite elem_of_cons, (IH (Some (e_key x))) by (by intros k [= <-]).
    destruct (bytes_eqb (e_key x) (e_key e)) eqn:E; key_hyps.
    + split; [intros [->|[? _]]; [done|congruence]|].
      intros [_ [= ->]]. by left.
    + split; [intros [->|[_ ?]]; [done|]|].
      * split; [|done]. intros Hp. specialize (Hprev _ Hp). apply Forall_cons in Hprev as [Hle _].
        apply E. apply key_le_antisym; [|done].
        match goal with H : List.find _ _ = Some _ |- _ => apply find_some in H as [Hin _] end.
        rewrite Forall_forall in Hx. by apply Hx, list_elem_of_In.
      * intros [_ Hf]. right. split; [congruence|done].
Qed.

Lemma sorted_filter {A} (R : relation A) f l :
  StronglySorted R l → StronglySorted R (List.filter f l).
Proof.
  induction 1 as [|x l Hs IH Hx]; simpl; [constructor|]. destruct (f x); [|done].
  constructor; [done|]. apply Forall_forall. intros y [Hy _]%elem_of_filterb.
  rewrite Forall_forall in Hx. auto.
Qed.

Lemma sorted_keys l : sorted_entries l → StronglySorted (λ a b, key_le (e_key a) (e_key b)) l.
Proof.
  induction 1 as [|x l Hs IH Hx]; constructor; [done|].
  eapply Forall_impl; [exact Hx|]. intros y. apply ent_le_key.
Qed.

Lemma find_filter {A} (f g : A → bool) l :
  List.find f (List.filter g l) = List.find (λ x, f x && g x) l.
Proof.
  induction l as [|x l IH]; simpl; [done|].
  destruct (g x); simpl; rewrite ?andb_true_r, ?andb_false_r; [|done]. by destruct (f x).
Qed.

(** The view shows exactly the newest visible version of each key. *)
Lemma merge_view_elem keep s l e :
  sorted_entries l →
  e ∈ merge_view keep s None l ↔
    newest (e_key e) s l = Some e ∧ (keep = true ∨ e_tombstone e = false).
Proof.
  intros Hs. unfold merge_view. rewrite elem_of_filterb, first_versions_elem.
  2:{ by apply sorted_filter, sorted_keys. }
  2:{ done. }
  rewrite find_filter, newest_sorted by done. unfold visible.
  rewrite orb_true_iff, negb_true_iff. naive_solver.
Qed.

Lemma first_versions_sorted l prev :
  StronglySorted (λ a b, key_le (e_key a) (e_key b)) l →
  (∀ k, prev = Some k → Forall (λ x, key_le k (e_key x)) l) →
  StronglySorted key_lt (e_key <$> first_versions prev l) ∧
  ∀ k, prev = Some k → Forall (key_lt k) (e_key <$> first_versions prev l).
Proof.
  intros Hs. revert prev. induction Hs as [|x l Hs IH Hx]; intros prev Hprev; simpl.
  { split; [constructor|by constructor]. }
  case_decide as Hd.
  - apply IH. intros k Hk. specialize (Hprev k Hk). by apply Forall_cons in Hprev as [_ ?].
  - destruct (IH (Some (e_key x))) as [Hss Hlt]; [by intros k [= <-]|].
    rewrite fmap_cons. split; [constructor; auto|]. intros k Hk. specialize (Hprev k Hk).
    apply Forall_cons in Hprev as [Hle _]. apply key_le_lteq in Hle as [Hlt'|E]; [|congruence].
    constructor; [done|]. eapply Forall_impl; [exact (Hlt _ eq_refl)|].
    intros y Hy. by eapply key_lt_trans.
Qed.

Lemma merge_view_sorted keep s l :
  sorted_entries l → StronglySorted key_lt (e_key <$> merge_view keep s None l).
Proof.
  intros Hs. unfold merge_view.
  destruct (first_versions_sorted (List.filter (λ e, e_seq e <=? s) l) None) as [Hk _].
  { by apply sorted_filter, sorted_keys. }
  { done. }
  induction (first_versions None _) as [|x es IH]; [constructor|]. rewrite fmap_cons in Hk.
  apply StronglySorted_inv in Hk as [Hk Hx]. cbn [List.filter]. case_match; [|auto].
  rewrite fmap_cons. constructor; [auto|]. apply Forall_fmap, Forall_forall. simpl.
  intros y [Hy _]%elem_of_filterb. rewrite Forall_fmap, Forall_forall in Hx. by apply Hx.
Qed.

Section MergeLemmas.
#[local] Set Default Proof Using "All".
Context {S : Type} `{MergeSource S} `{PriorityQueueOk} (content : CacheKey → bytes).

Lemma yields_entry (s : S) es : yields content s es → es ≠ [] → head es = Some (src_entry s).
Proof. destruct es as [|e es]; [done|]. by intros (_ & <- & _) _. Qed.

(** A heap whose sources yield sorted entries pops all of them in order. *)
Lemma pops_exist n (h : list S) ess :
  length (mjoin ess) = n → Forall2 (yields content) h ess → Forall (.≠ []) ess →
  Forall sorted_entries ess →
  ∃ l, pops content h l ∧ sorted_entries l ∧ l ≡ₚ mjoin ess.
Proof.
  revert h ess. induction n as [n IH] using lt_wf_ind. intros h ess Hn Hy Hne Hs.
  destruct h as [|s0 h0] eqn:Eh.
  { apply Forall2_nil_inv_l in Hy as ->. exists []. split_and!; [done|constructor|done]. }
  rewrite <- Eh in *. assert (src_entry <$> h ≠ []) as Hh by (by subst).
  destruct (pq_top_ok _ Hh) as (e & He & Hmin).
  rewrite list_lookup_fmap in He. set (i := pq_top (src_entry <$> h)) in *.
  destruct (h !! i) as [src|] eqn:Hi; [|done]. injection He as He.
  destruct (Forall2_lookup_l _ _ _ _ _ Hy Hi) as (es & Hes & Hyi).
  assert (es ≠ []) as Hesne by (by eapply Forall_lookup_1 in Hne).
  destruct es as [|e0 es]; [done|]. destruct Hyi as (Hv & He0 & src' & Hnext & Hy').
  assert (e0 = e) as -> by congruence.
  set (h' := if src_valid src' then delete i h ++ [src'] else delete i h).
  set (ess' := if src_valid src' then delete i ess ++ [es] else delete i ess).
  assert (Hvalid : src_valid src' = false → es = []).
  { destruct es as [|e1 es]; [done|]. destruct Hy' as (? & _). congruence. }
  assert (Hvalid' : src_valid src' = true → es ≠ []).
  { intros Hsv ->. simpl in Hy'. congruence. }
  assert (mjoin ess ≡ₚ e :: mjoin ess') as Hperm.
  { rewrite (delete_Permutation ess i _ Hes), mjoin_cons. subst ess'.
    destruct (src_valid src').
    - rewrite join_app. simpl. by rewrite app_nil_r, (Permutation_app_comm es).
    - by rewrite Hvalid by done. }
  destruct (IH (length (mjoin ess')) ltac:(rewrite <- Hn, Hperm; simpl; lia) h' ess')
    as (l & Hpops & Hsl & Hpl); [done| | | |].
  - subst h' ess'. destruct (src_valid src').
    + apply Forall2_app; [by apply Forall2_delete|by repeat constructor].
    + by apply Forall2_delete.
  - subst ess'. destruct (src_valid src'); [|by apply Forall_delete].
    apply Forall_app. split; [by apply Forall_delete|]. repeat constructor. auto.
  - assert (sorted_entries es) as Hses.
    { eapply Forall_lookup_1 in Hs; [|done]. by apply StronglySorted_inv in Hs as [? _]. }
    subst ess'. destruct (src_valid src'); [|by apply Forall_delete].
    apply Forall_app. split; [by apply Forall_delete|by repeat constructor].
  - exists (e :: l). split_and!.
    + exists src, h'. split_and!; [done|done| |done].
      eapply runs_bind; [exact Hnext|]. apply runs_ret.
    + constructor; [done|]. apply Forall_forall. intros x Hx.
      assert (x ∈ mjoin ess) as Hin by (rewrite Hperm; right; by rewrite <- Hpl).
      apply list_elem_of_join in Hin as (esx & Hx' & (j & Hj)%list_elem_of_lookup).
      destruct (Forall2_lookup_r _ _ _ _ _ Hy Hj) as (sx & Hsx & Hyx).
      assert (sorted_entries esx) as Hsorted by (by eapply Forall_lookup_1 in Hs).
      destruct esx as [|ex esx]; [by apply elem_of_nil in Hx'|].
      destruct Hyx as (_ & Hex & _).
      assert (ent_le e ex) as Hle.
      { apply cmp_after_false, Hmin. apply list_elem_of_fmap. exists sx. split; [done|].
        by eapply list_elem_of_lookup_2. }
      apply elem_of_cons in Hx' as [->|Hx']; [done|].
      apply StronglySorted_inv in Hsorted as [_ Hall]. rewrite Forall_forall in Hall.
      eapply ent_le_trans; [done|]. auto.
    + by rewrite Hperm, Hpl.
Qed.

(** ** One output of the merge *)

Lemma pops_top (h : list S) e l :
  pops content h (e :: l) → ∃ src, heap_top h = Some src ∧ src_entry src = e.
Proof. intros (src & _ & ? & ? & _). by exists src. Qed.

Lemma pops_nil (h : list S) : pops content h [] → heap_top h = None.
Proof. by intros ->. Qed.

(** The entry emitted for the newest visible version of a key. *)
Definition emitted (keep : bool) (best : option Entry) : list Entry :=
  match best with
  | Some b => if keep || negb (e_tombstone b) then [b] else []
  | None => []
  end.

Definition seen (winner : bytes) (best : option Entry) : option bytes :=
  match best with Some _ => Some winner | None => None end.

Lemma drain_runs keep s winner fuel (h : list S) l best :
  pops content h l → sorted_entries l → (∀ e, e ∈ l → key_le winner (e_key e)) →
  (length l ≤ fuel)%nat →
  ∃ best' h' l', runs content (drain fuel s winner best h) (Ok (best', h')) ∧
    pops content h' l' ∧ l' `suffix_of` l ∧ (∀ e, e ∈ l' → e_key e ≠ winner) ∧
    (∀ b, best = Some b → best' = Some b) ∧
    merge_view keep s (seen winner best) l =
      match best with None => emitted keep best' | Some _ => [] end ++ merge_view keep s None l'.
Proof.
  revert h best fuel. induction l as [|e l IH]; intros h best fuel Hp Hs Hge Hf.
  { exists best, h, []. destruct fuel; cbn [drain]; rewrite (pops_nil h) by done;
      (split_and!; [apply runs_ret|done|done| |done|by destruct best]);
      intros e He; by apply elem_of_nil in He. }
  destruct Hp as (src & h' & Htop & He & Hpop & Hp). apply StronglySorted_inv in Hs as [Hs Hall].
  rewrite Forall_forall in Hall.
  destruct (decide (e_key e = winner)) as [Hw|Hw].
  - destruct fuel as [|fuel]; [simpl in Hf; lia|]. cbn [drain].
    rewrite Htop, He, Hw, bytes_eqb_refl. cbn [negb].
    set (best2 := match best with Some _ => best
      | None => if e_seq e <=? s then Some e else None end).
    destruct (IH h' best2 fuel) as (best' & h2 & l' & Hr & Hp' & Hsuf & Hk & Hb & Hv);
      [done|done|intros; apply Hge; by right|simpl in Hf; lia|].
    exists best', h2, l'. split_and!; [|done|by apply suffix_cons_r|done| |].
    + eapply runs_bind; [exact Hpop|exact Hr].
    + intros b ->. by apply Hb.
    + subst best2. destruct best as [b|]; simpl in *.
      { rewrite <- Hw, merge_view_skip, Hw. exact Hv. }
      destruct (Z.leb_spec (e_seq e) s) as [Hle|Hgt]; simpl in Hv.
      * rewrite (Hb e eq_refl), merge_view_take by done. rewrite Hw, Hv. done.
      * rewrite merge_view_hidden by done. exact Hv.
  - assert (∀ e', e' ∈ e :: l → e_key e' ≠ winner) as Hother.
    { assert (key_lt winner (e_key e)) as Hlt.
      { specialize (Hge e ltac:(by left)). apply key_le_lteq in Hge as [?|?]; [done|congruence]. }
      intros e' [->|He']%elem_of_cons; [done|]. apply not_eq_sym, key_lt_ne.
      eapply key_lt_le_trans; [done|]. by apply ent_le_key, Hall. }
    exists best, h, (e :: l).
    split_and!; [|by exists src, h'|done|done|done|].
    + destruct fuel; cbn [drain]; rewrite Htop, He, (proj2 (bytes_eqb_neq _ _)) by done;
        apply runs_ret.
    + destruct best as [b|]; simpl; [|done]. by rewrite merge_view_other.
Qed.

Lemma sorted_suffix l l' : l' `suffix_of` l → sorted_entries l → sorted_entries l'.
Proof. intros [k ->]. apply StronglySorted_app_1_r. Qed.

Lemma advance_loop_runs (it : MergeIterator S) h l fuel :
  pops content h l → sorted_entries l → (length l ≤ fuel)%nat →
  let view := merge_view (keep_tombstones_ it) (snapshot_seq_ it) None in
  ∃ h' l', pops content h' l' ∧ sorted_entries l' ∧
    match view l with
    | [] => runs content (advance_loop fuel it h) (Ok (with_heap it h' (mi_current it) false))
    | e :: rest =>
        runs content (advance_loop fuel it h) (Ok (with_heap it h' e true)) ∧
        rest = view l' ∧ (length l' < length l)%nat
    end.
Proof.
  intros Hp Hs Hf view. revert h l Hp Hs Hf. induction fuel as [|fuel IH]; intros h l Hp Hs Hf.
  { destruct l; [|simpl in Hf; lia]. exists h, []. split_and!; [done|done|].
    cbn [advance_loop]. rewrite (pops_nil h) by done. apply runs_ret. }
  destruct l as [|e l].
  { exists h, []. split_and!; [done|done|].
    cbn [advance_loop]. rewrite (pops_nil h) by done. apply runs_ret. }
  destruct (pops_top h e l Hp) as (src & Htop & He).
  destruct (drain_runs (keep_tombstones_ it) (snapshot_seq_ it) (e_key e) (Datatypes.S fuel) h (e :: l) None)
    as (best & h1 & l1 & Hr & Hp1 & Hsuf & Hk & _ & Hv); [done|done| |done|].
  { apply StronglySorted_inv in Hs as [_ Hall]. rewrite Forall_forall in Hall.
    intros e' [->|He']%elem_of_cons; [apply key_le_refl|]. by apply ent_le_key, Hall. }
  assert (length l1 < length (e :: l))%nat as Hlen.
  { destruct Hsuf as [[|x k] Hk']; [|rewrite Hk', length_app; simpl; lia].
    exfalso. simpl in Hk'. subst l1. by apply (Hk e); [left|]. }
  pose proof (sorted_suffix _ _ Hsuf Hs) as Hs1. cbn [seen] in Hv. fold view in Hv. rewrite Hv.
  destruct (emitted (keep_tombstones_ it) best) as [|b rest] eqn:Eb; cbn [app].
  - destruct (IH h1 l1 Hp1 Hs1 ltac:(simpl in Hlen, Hf; lia)) as (h' & l' & Hp' & Hs' & Hm).
    assert (∀ r, runs content (advance_loop fuel it h1) r →
      runs content (advance_loop (Datatypes.S fuel) it h) r) as Hstep.
    { intros r Hr'. cbn [advance_loop]. rewrite Htop, He. eapply runs_bind; [exact Hr|].
      cbn [fst snd]. unfold emitted in Eb. destruct best as [b|]; [|exact Hr'].
      destruct (_ || _); [done|exact Hr']. }
    exists h', l'. split_and!; [done|done|].
    destruct (view l1) as [|e1 rest]; [by apply Hstep|].
    destruct Hm as (Hm & -> & Hlt). split_and!; [by apply Hstep|done|lia].
  - exists h1, l1. cbn beta iota. split_and!; [done|done| | |done].
    + cbn [advance_loop]. rewrite Htop, He. eapply runs_bind; [exact Hr|]. cbn [fst snd].
      unfold emitted in Eb. destruct best as [b'|]; [|done].
      destruct (_ || _); [|done]. injection Eb as -> _. apply runs_ret.
    + unfold emitted in Eb. destruct best as [b'|]; [|done].
      destruct (_ || _); [|done]. by injection Eb as _ <-.
Qed.

(** ** The whole iteration *)

(** What the iterator shows of the entries still in its heap. *)
Definition outputs (it : MergeIterator S) (l : list Entry) : list Entry :=
  if yield_all_versions_ it then l
  else merge_view (keep_tombstones_ it) (snapshot_seq_ it) None l.

Lemma advance_runs (it : MergeIterator S) l fuel :
  pops content (heap_ it) l → sorted_entries l → (length l ≤ fuel)%nat →
  ∃ h' l', pops content h' l' ∧ sorted_entries l' ∧
    match outputs it l with
    | [] => runs content (advance fuel it) (Ok (with_heap it h' (mi_current it) false))
    | e :: rest =>
        runs content (advance fuel it) (Ok (with_heap it h' e true)) ∧
        rest = outputs it l' ∧ (length l' < length l)%nat
    end.
Proof.
  intros Hp Hs Hf. unfold outputs, advance. destruct (yield_all_versions_ it).
  - destruct l as [|e l].
    + exists (heap_ it), []. split_and!; [done|done|]. rewrite (pops_nil _ Hp). apply runs_ret.
    + destruct Hp as (src & h' & Htop & He & Hpop & Hp). rewrite Htop.
      apply StronglySorted_inv in Hs as [Hs _].
      exists h', l. split_and!; [done|done| |done|simpl; lia].
      eapply runs_bind; [exact Hpop|]. rewrite <- He. apply runs_ret.
  - by apply advance_loop_runs.
Qed.

Lemma merge_collect_runs go (it : MergeIterator S) l fuel :
  pops content (heap_ it) l → sorted_entries l → (length l < fuel)%nat → mi_valid it = true →
  runs content (merge_collect (Datatypes.S fuel) go it)
    (Ok (take_while go (mi_current it :: outputs it l))).
Proof.
  revert it l. induction fuel as [|fuel IH]; intros it l Hp Hs Hf Hv; [lia|].
  destruct (advance_runs it l (Datatypes.S (Datatypes.S fuel)) Hp Hs) as (h' & l' & Hp' & Hs' & Hadv);
    [lia|]. cbn [merge_collect]. rewrite Hv. cbn [andb take_while].
  destruct (go (mi_current it)) eqn:Hgo; [|apply runs_ret].
  destruct (outputs it l) as [|e rest].
  - eapply runs_bind; [exact Hadv|]. eapply runs_bind; [|apply runs_ret]. apply runs_ret.
  - destruct Hadv as (Hadv & -> & Hlen). eapply runs_bind; [exact Hadv|].
    eapply runs_bind; [|apply runs_ret].
    apply (IH (with_heap it h' e true) l'); [done|done|lia|done].
Qed.

Lemma filter_sources (sources : list S) ess :
  Forall2 (yields content) sources ess →
  ∃ ess', Forall2 (yields content) (List.filter src_valid sources) ess' ∧
    Forall (.≠ []) ess' ∧ mjoin ess' = mjoin ess ∧ (∀ es, es ∈ ess' → es ∈ ess).
Proof.
  induction 1 as [|s es sources ess Hy _ (ess' & Hy' & Hne & Hj & Hin)].
  { by exists []. }
  cbn [List.filter]. destruct es as [|e es].
  - simpl in Hy. rewrite Hy. exists ess'. split_and!; [done|done|done|]. intros. right. auto.
  - pose proof Hy as (-> & _). exists ((e :: es) :: ess'). split_and!.
    + by constructor.
    + by constructor.
    + by rewrite !mjoin_cons, Hj.
    + intros es' [->|?]%elem_of_cons; [by left|right; auto].
Qed.

Lemma merge_runs (sources : list S) ess keep s all go fuel :
  Forall2 (yields content) sources ess → Forall sorted_entries ess →
  (length (mjoin ess) < fuel)%nat →
  ∃ l, sorted_entries l ∧ l ≡ₚ mjoin ess ∧
    runs content (it ← merge_new fuel sources keep s all; merge_collect fuel go it)
      (Ok (take_while go (if all then l else merge_view keep s None l))).
Proof.
  intros Hy Hs Hf. destruct (filter_sources sources ess Hy) as (ess' & Hy' & Hne & Hj & Hin).
  destruct (pops_exist _ _ ess' eq_refl Hy' Hne) as (l & Hp & Hsl & Hpl).
  { apply Forall_forall. intros es He. rewrite Forall_forall in Hs. auto. }
  exists l. rewrite Hj in Hpl. split_and!; [done|done|].
  assert (length l < fuel)%nat as Hlen by (by rewrite Hpl).
  destruct fuel as [|fuel]; [lia|].
  set (it0 := mkMerge (List.filter src_valid sources) no_entry keep s all false).
  destruct (advance_runs it0 l (Datatypes.S fuel)) as (h' & l' & Hp' & Hs' & Hadv); [done|done|lia|].
  assert (outputs it0 l = if all then l else merge_view keep s None l) as <- by done.
  destruct (outputs it0 l) as [|e rest].
  - eapply runs_bind; [exact Hadv|]. apply runs_ret.
  - destruct Hadv as (Hadv & -> & Hlt). eapply runs_bind; [exact Hadv|].
    apply (merge_collect_runs go (with_heap it0 h' e true) l'); [done|done|lia|done].
Qed.

End MergeLemmas.

(** ** The adapters implement the interface *)

Lemma snapshot_source_yields content entries idx :
  yields content (mkSnapshotSource entries idx) (drop idx entries).
Proof.
  remember (drop idx entries) as es eqn:E. revert idx E.
  induction es as [|e es IH]; intros idx E; simpl.
  - apply Nat.ltb_ge. pose proof (f_equal length E) as El. rewrite length_drop in El.
    simpl in El. lia.
  - assert (entries !! idx = Some e) as Hi.
    { rewrite <- (Nat.add_0_r idx), <- lookup_drop, <- E. done. }
    split_and!.
    + apply Nat.ltb_lt. by eapply lookup_lt_Some.
    + rewrite (nth_lookup_Some _ _ _ _ Hi). done.
    + eexists. split; [apply runs_ret|]. apply IH.
      apply (f_equal (drop 1)) in E. simpl in E. rewrite drop_0, drop_drop in E.
      by rewrite E, Nat.add_1_r.
Qed.

Section SstSource.
#[local] Set Default Proof Using "All".
Context `{PosixOk} (content : CacheKey → bytes) (number : Z) (es : list Entry) (bloom : Bloom.Bloom).
Context (Hok : Forall sst_entry_ok es) (Hfit : sst_fits es).
Context (Hco : coherent content (table_of number es bloom)).
Let t := table_of number es bloom.

Lemma sstable_source_rest it rem :
  it_at es it rem →
  yields content (mkSSTableSource t it (it_current it) true) (it_current it :: rem).
Proof.
  revert it. induction rem as [|e rem IH]; intros it Hat;
    (destruct (parse_entry_runs content number es bloom Hok Hfit Hco it _ Hat) as (it' & Hr & Hn);
     split_and!; [done|done|]).
  - eexists. split; [eapply runs_bind; [exact Hr|]; apply runs_ret|].
    unfold sstable_load. by rewrite Hn.
  - destruct Hn as [Hat' Hc].
    exists (mkSSTableSource t it' (it_current it') true). split.
    + eapply runs_bind; [exact Hr|]. unfold sstable_load. pose proof Hat' as [-> _]. apply runs_ret.
    + rewrite <- Hc. by apply IH.
Qed.

Lemma sstable_source_shows it l :
  it_shows es it l → yields content (sstable_load t it no_entry) l.
Proof.
  unfold sstable_load. destruct l as [|e rem]; simpl.
  - intros ->. done.
  - intros [Hat <-]. pose proof Hat as [-> _]. by apply sstable_source_rest.
Qed.

(** A source over the whole table. *)
Lemma sstable_source_yields :
  es ≠ [] → ∃ src, runs content (sstable_source t) (Ok src) ∧ yields content src es.
Proof.
  intros Hne. destruct (sst_begin_runs content number es bloom Hok Hfit Hco Hne) as (it & Hr & Hit).
  eexists. split; [eapply runs_bind; [exact Hr|]; apply runs_ret|].
  by apply sstable_source_shows.
Qed.

(** A source from a key on. *)
Lemma sstable_source_seek_yields target :
  es ≠ [] → sorted_entries es → keys_separate (layout es) →
  ∃ src, runs content (sstable_source_seek t target) (Ok src) ∧
    yields content src (skip_below target es).
Proof.
  intros Hne Hs Hsep.
  destruct (sst_seek_runs content number es bloom Hok Hfit Hco Hs target Hne) as (it & Hr & Hit).
  pose proof (skip_below_blocks (layout es) target (layout_nonempty es)) as E.
  rewrite mjoin_layout in E. rewrite (E Hs Hsep) in Hit.
  eexists. split; [eapply runs_bind; [exact Hr|]; apply runs_ret|].
  by apply sstable_source_shows.
Qed.

End SstSource.

Lemma memtable_source_rest content m l x r :
  skiplist m (l ++ x :: r) →
  yields content (mkMemtableSource m (Some x) (entry_of (heap m) x) true)
    (entry_of (heap m) <$> x :: r).
Proof.
  revert l x. induction r as [|y r IH]; intros l x Hm; rewrite fmap_cons;
    (split_and!; [done|done|]).
  - exists (mkMemtableSource m None (entry_of (heap m) x) false). split; [|done].
    cbn [src_next memtable_source_ops mt_it mt_table].
    rewrite (raw_next_spec m l x []) by done. apply runs_lift.
  - assert (skiplist m ((l ++ [x]) ++ y :: r)) as Hm' by (by rewrite <- (assoc_L (++))).
    eexists. split; [|by apply (IH (l ++ [x]))]. cbn [src_next memtable_source_ops mt_it mt_table].
    rewrite (raw_next_spec m l x (y :: r)) by done. cbn [mbind result_bind head memtable_load].
    rewrite (deref_spec m ((l ++ [x]) ++ y :: r)).
    + apply runs_lift.
    + done.
    + apply elem_of_app. right. by left.
Qed.

(** A source over a memtable yields the versions it represents. *)
Lemma memtable_source_yields content m es :
  represents m es → ∃ src, memtable_source m = Ok src ∧ yields content src es.
Proof.
  intros (ns & Hm & ->). unfold memtable_source.
  rewrite raw_begin_spec with (ns := ns) by done. cbn [mbind result_bind].
  destruct ns as [|x r]; cbn [head memtable_load]; [by eexists|].
  rewrite (deref_spec m (x :: r)) by (done || by left). cbn [mbind result_bind].
  eexists. split; [done|]. by apply (memtable_source_rest content m []).
Qed.

Lemma any_snapshot_yields `{Posix} content s es :
  yields content s es → yields content (FromSnapshot s) es.
Proof.
  revert s. induction es as [|e es IH]; intros s; [done|]. intros (? & ? & s' & Hr & Hy).
  split_and!; [done|done|]. exists (FromSnapshot s'). split; [|by apply IH].
  eapply runs_bind; [exact Hr|]. apply runs_ret.
Qed.

Lemma any_memtable_yields `{Posix} content s es :
  yields content s es → yields content (FromMemtable s) es.
Proof.
  revert s. induction es as [|e es IH]; intros s; [done|]. intros (? & ? & s' & Hr & Hy).
  split_and!; [done|done|]. exists (FromMemtable s'). split; [|by apply IH].
  eapply runs_bind; [exact Hr|]. apply runs_ret.
Qed.

Lemma any_sstable_yields `{Posix} content s es :
  yields content s es → yields content (FromSSTable s) es.
Proof.
  revert s. induction es as [|e es IH]; intros s; [done|]. intros (? & ? & s' & Hr & Hy).
  split_and!; [done|done|]. exists (FromSSTable s'). split; [|by apply IH].
  eapply runs_bind; [exact Hr|]. apply runs_ret.
Qed.

(** * Properties *)

(** C23. The merge at a snapshot. Over any sources that implement the
    interface and yield sorted versions, and for every tie-break of the heap,
    the iteration terminates and shows, in strictly ascending key order, exactly
    the newest version of each key that the snapshot may see, leaving out
    deleted keys unless tombstones are kept. *)
Theorem merge_snapshot_correct {S} `{MergeSource S} `{PriorityQueueOk}
    (content : CacheKey → bytes) (sources : list S) (ess : list (list Entry)) (keep : bool) (s : Z)
    (Hy : Forall2 (yields content) sources ess) (Hs : Forall sorted_entries ess)
    (Hu : versions_unique (mjoin ess)) :
  let fuel := Datatypes.S (length (mjoin ess)) in
  ∃ out, runs content
      (it ← merge_new fuel sources keep s false; merge_collect fuel (λ _, true) it) (Ok out) ∧
    StronglySorted key_lt (e_key <$> out) ∧
    ∀ e, e ∈ out ↔ newest (e_key e) s (mjoin ess) = Some e ∧ (keep = true ∨ e_tombstone e = false).
Proof.
  destruct (merge_runs content sources ess keep s false (λ _, true)
    (Datatypes.S (length (mjoin ess))) Hy Hs ltac:(lia)) as (l & Hsl & Hpl & Hr).
  rewrite take_while_all in Hr. exists (merge_view keep s None l).
  split_and!; [exact Hr|by apply merge_view_sorted|]. intros e.
  by rewrite merge_view_elem, (newest_permutation _ _ _ _ Hu Hpl).
Qed.

(** The merge of all versions, as the compaction uses it: it terminates
    and delivers every entry of every source exactly once, ordered by key and
    then by descending sequence number. *)
Theorem merge_all_correct {S} `{MergeSource S} `{PriorityQueueOk}
    (content : CacheKey → bytes) (sources : list S) (ess : list (list Entry))
    (Hy : Forall2 (yields content) sources ess) (Hs : Forall sorted_entries ess) :
  let fuel := Datatypes.S (length (mjoin ess)) in
  ∃ out, runs content
      (it ← merge_new fuel sources true u64_max true; merge_collect fuel (λ _, true) it) (Ok out) ∧
    sorted_entries out ∧ out ≡ₚ mjoin ess.
Proof.
  destruct (merge_runs content sources ess true u64_max true (λ _, true)
    (Datatypes.S (length (mjoin ess))) Hy Hs ltac:(lia)) as (l & Hsl & Hpl & Hr).
  rewrite take_while_all in Hr. by exists l.
Qed.

(** ** Concrete merges *)

Definition ex_newer : list Entry :=
  [mkEntry (bs "a") (bs "2") false 5; mkEntry (bs "c") [] true 6].
Definition ex_older : list Entry :=
  [mkEntry (bs "a") (bs "1") false 1; mkEntry (bs "b") (bs "x") false 2;
   mkEntry (bs "c") (bs "y") false 3].

Definition ex_sources : list SnapshotMergeSource := [snapshot_source ex_newer; snapshot_source ex_older].

Lemma ex_sources_yield :
  Forall2 (yields (λ _, [])) ex_sources [ex_newer; ex_older] ∧
  Forall sorted_entries [ex_newer; ex_older].
Proof.
  split.
  - constructor; [apply (snapshot_source_yields (λ _, []) _ 0)|].
    constructor; [apply (snapshot_source_yields (λ _, []) _ 0)|constructor].
  - apply (bool_decide_unpack _). by vm_compute.
Qed.

Lemma merge_snapshot_witness :
  ((it ← merge_new (H0 := first_pq) 6 ex_sources false 9 false;
    merge_collect (H0 := first_pq) 6 (λ _, true) it) None).2 =
    Ok [mkEntry (bs "a") (bs "2") false 5; mkEntry (bs "b") (bs "x") false 2] ∧
  newest (bs "a") 9 (ex_newer ++ ex_older) = Some (mkEntry (bs "a") (bs "2") false 5).
Proof.
  destruct ex_sources_yield as [Hy Hs].
  destruct (merge_snapshot_correct (H0 := first_pq) (λ _, []) ex_sources [ex_newer; ex_older]
    false 9 Hy Hs) as (out & Hr & _ & Hout).
  { apply versions_unique_nodup. apply (bool_decide_unpack _). by vm_compute. }
  split.
  - by vm_compute.
  - destruct (Hr None I) as [E _]. vm_compute in E. injection E as E.
    apply (Hout (mkEntry (bs "a") (bs "2") false 5)). rewrite <- E. by left.
Defined.

Lemma merge_all_witness :
  ∃ out, ((it ← merge_new (H0 := first_pq) 6 ex_sources true u64_max true;
    merge_collect (H0 := first_pq) 6 (λ _, true) it) None).2 = Ok out ∧
    out ≡ₚ ex_newer ++ ex_older.
Proof.
  destruct ex_sources_yield as [Hy Hs].
  destruct (merge_all_correct (H0 := first_pq) (λ _, []) ex_sources [ex_newer; ex_older] Hy Hs)
    as (out & Hr & _ & Hp).
  exists out. split; [exact (proj1 (Hr None I))|exact Hp].
Defined.
