(* ===== verification/Version.v ===== *)
(** The layout of the table files: src/include/keystone/version.h and the parts
    of src/src/db.cpp that work on a [Version]: the read path over the levels,
    the choice of a compaction and the manifest of a version.

    What a table file promises to its users is the record [table_holds]; the
    tables of SSTable.v implement it, and the read path is verified against
    it. *)

From S2P Require Import Prelude Coding Wal Entry Manifest Memtable BlockCache SSTableWriter SSTable MergeIterator.
Local Open Scope Z_scope.

(** * Definitions *)

Record Options := mkOptions {
  opt_sync : SyncMode;
  flush_threshold_bytes : Z;
  compaction_trigger : Z;
  block_cache_bytes : Z;
  target_file_size : Z;
  l1_max_bytes : Z;
  level_size_multiplier : Z;
}.

Definition default_options : Options := {|
  opt_sync := EveryWrite; flush_threshold_bytes := 4 * 1024 * 1024; compaction_trigger := 4;
  block_cache_bytes := 16 * 1024 * 1024; target_file_size := 2 * 1024 * 1024;
  l1_max_bytes := 8 * 1024 * 1024; level_size_multiplier := 10;
|}.

Record FileMeta := mkFileMeta {
  fm_number : Z;
  fm_level : Z;
  smallest_key : bytes;
  largest_key : bytes;
  fm_table : SSTable;
}.

Definition kMaxLevels : nat := 7.

(** [std::vector<FileMeta> files[kMaxLevels]] *)
Record Version := mkVersion { files : list (list FileMeta) }.

Definition empty_version : Version := mkVersion (replicate kMaxLevels []).

Definition files_at (v : Version) (l : nat) : list FileMeta := nth l (files v) [].

(** ** Helpers of [DB] *)

Definition level_bytes (v : Version) (l : nat) : Z :=
  fold_left (λ total fm,
      u64 (total + u64 (footer_entry_count (footer_ (fm_table fm)) * 64))) (files_at v l) 0.

(** [for (l = 2; l <= level; l++) limit *= multiplier], from [l]. *)
Definition max_level_bytes (o : Options) (l : nat) : Z :=
  if (l =? 0)%nat then 0
  else Nat.iter (l - 1) (λ limit, u64 (limit * level_size_multiplier o)) (l1_max_bytes o).

Definition needs_compaction (o : Options) (v : Version) : bool :=
  (compaction_trigger o <=? Z.of_nat (length (files_at v 0))) ||
  existsb (λ l, max_level_bytes o l <? level_bytes v l) (seq 1 (kMaxLevels - 2)).

Definition total_file_count (v : Version) : Z :=
  fold_left (λ total l, total + Z.of_nat (length (files_at v l))) (seq 0 kMaxLevels) 0.

Definition max_populated_level (v : Version) : nat :=
  default 0%nat (List.find (λ l, negb (bool_decide (files_at v l = [])))
    (rev (seq 0 kMaxLevels))).

Definition version_to_manifest (v : Version) : list ManifestEntry :=
  l ← seq 0 kMaxLevels;
  (λ fm, mkManifestEntry (fm_number fm) (fm_level fm) (smallest_key fm) (largest_key fm))
    <$> files_at v l.

(** ** Choice of a compaction *)

Record CompactionJob := mkJob {
  output_level : nat;
  inputs : list FileMeta;
  is_bottommost : bool;
}.

Definition no_job : CompactionJob := mkJob 0 [] false.

(** [fm.largest_key < lo || fm.smallest_key > hi] *)
Definition outside (fm : FileMeta) (lo hi : bytes) : bool :=
  bytes_ltb (largest_key fm) lo || bytes_ltb hi (smallest_key fm).

Definition force_job (v : Version) : CompactionJob :=
  let ins := mjoin (files v) in
  if (2 <=? length ins)%nat then mkJob 1 ins true else mkJob 0 ins false.

(** The running minimum and maximum over the files of level 0. *)
Definition range_add (r : bytes * bytes) (fm : FileMeta) : bytes * bytes :=
  (if bool_decide (r.1 = []) || bytes_ltb (smallest_key fm) r.1 then smallest_key fm else r.1,
   if bool_decide (r.2 = []) || bytes_ltb r.2 (largest_key fm) then largest_key fm else r.2).

Definition l0_job (v : Version) : CompactionJob :=
  let r := fold_left range_add (files_at v 0) ([], []) in
  let overlapping := List.filter (λ fm, negb (outside fm r.1 r.2)) (files_at v 1) in
  let max_level := max_populated_level v in
  mkJob 1 (files_at v 0 ++ overlapping) ((max_level <=? 1)%nat || (max_level =? 0)%nat).

(** The file with the smallest number. *)
Definition pick_oldest (fms : list FileMeta) : option FileMeta :=
  fold_left (λ p fm,
      match p with
      | None => Some fm
      | Some q => if fm_number fm <? fm_number q then Some fm else Some q
      end) fms None.

(** The loop over the levels that have outgrown their limit. *)
Fixpoint overflow_job (o : Options) (v : Version) (levels : list nat) : CompactionJob :=
  match levels with
  | [] => no_job
  | l :: levels' =>
      if level_bytes v l <=? max_level_bytes o l then overflow_job o v levels' else
      match pick_oldest (files_at v l) with
      | None => overflow_job o v levels'
      | Some pick =>
          let next := S l in
          let overlapping :=
            List.filter (λ fm, negb (outside fm (smallest_key pick) (largest_key pick)))
              (files_at v next) in
          mkJob next (pick :: overlapping) (max_populated_level v <=? next)%nat
      end
  end.

Definition pick_compaction (o : Options) (force_compact : bool) (v : Version) : CompactionJob :=
  if force_compact then force_job v
  else if compaction_trigger o <=? Z.of_nat (length (files_at v 0)) then l0_job v
  else overflow_job o v (seq 1 (kMaxLevels - 2)).

(** ** Point reads *)

(** [std::upper_bound] by [smallest_key], on files in that order. *)
Fixpoint upper_bound (fms : list FileMeta) (key : bytes) : nat :=
  match fms with
  | [] => 0
  | fm :: fms' => if bytes_ltb key (smallest_key fm) then 0 else S (upper_bound fms' key)
  end.

Section ReadPath.
Context `{Posix}.

(** [may_contain] and [get] of one table. *)
Definition get_file (fm : FileMeta) (key : bytes) (s : Z) : cached LookupResult :=
  may ← lift (sst_may_contain (fm_table fm) key);
  if negb may then mret NotFound else sst_get (fm_table fm) key s.

(** The loop over level 0, newest file first. *)
Fixpoint get_files (fms : list FileMeta) (key : bytes) (s : Z) : cached LookupResult :=
  match fms with
  | [] => mret NotFound
  | fm :: fms' =>
      r ← get_file fm key s;
      match r with NotFound => get_files fms' key s | _ => mret r end
  end.

(** The single covering file of a level. *)
Definition get_level (fms : list FileMeta) (key : bytes) (s : Z) : cached LookupResult :=
  match upper_bound fms key with
  | O => mret NotFound
  | S i =>
      match fms !! i with
      | None => lift Undefined
      | Some fm =>
          if bytes_leb key (largest_key fm) then get_file fm key s else mret NotFound
      end
  end.

Fixpoint get_levels (levels : list (list FileMeta)) (key : bytes) (s : Z) : cached LookupResult :=
  match levels with
  | [] => mret NotFound
  | fms :: levels' =>
      r ← get_level fms key s;
      match r with NotFound => get_levels levels' key s | _ => mret r end
  end.

(** The part of [get_impl] behind the memtable. *)
Definition version_get (v : Version) (key : bytes) (s : Z) : cached LookupResult :=
  r ← get_files (rev (files_at v 0)) key s;
  match r with NotFound => get_levels (drop 1 (files v)) key s | _ => mret r end.

(** ** Sources of a scan *)

Fixpoint sources_of (fms : list FileMeta) (start : bytes) : cached (list AnySource) :=
  match fms with
  | [] => mret []
  | fm :: fms' =>
      src ← sstable_source_seek (fm_table fm) start;
      rest ← sources_of fms' start;
      mret (FromSSTable src :: rest)
  end.

(** All of level 0, and of the other levels the files that overlap. *)
Definition scan_files (v : Version) (start stop : bytes) : list FileMeta :=
  files_at v 0 ++
  List.filter (λ fm, negb (outside fm start stop)) (mjoin (drop 1 (files v))).

(** The merge of [scan_impl], given the copied range of the memtable. *)
Definition scan_merge `{PriorityQueue} (fuel : nat) (mt_snapshot : list Entry) (v : Version)
    (start stop : bytes) (s : Z) : cached (list Entry) :=
  files ← sources_of (scan_files v start stop) start;
  it ← merge_new fuel (FromSnapshot (snapshot_source mt_snapshot) :: files) false s false;
  merge_collect fuel (λ e, bytes_leb (e_key e) stop) it.

End ReadPath.

(** A table file written from [es]. *)
Definition write_file `{Posix} (num : Z) (level : nat) (es : list Entry) : result FileMeta :=
  w ← add_entries SSTableWriter_new es; f ← finish w; t ← sst_open num (f_data f);
  Ok (mkFileMeta num (Z.of_nat level) (smallest_key_ w) (largest_key_ w) t).

(** ** Specification *)

Definition last_key (es : list Entry) : bytes := default [] (e_key <$> last es).

(** What a table promises: it holds these versions. *)
Record table_holds `{Posix} (content : CacheKey → bytes) (t : SSTable) (es : list Entry) : Prop := {
  th_nonempty : es ≠ [];
  th_sorted : sorted_entries es;
  th_may k : ∃ b, sst_may_contain t k = Ok b ∧ (b = false → k ∉ e_key <$> es);
  th_get k s : runs content (sst_get t k s) (Ok (lookup_ref es k s));
  th_source : ∃ src, runs content (sstable_source t) (Ok src) ∧ yields content src es;
  th_seek target : ∃ src, runs content (sstable_source_seek t target) (Ok src) ∧
    yields content src (skip_below target es);
  th_count : footer_entry_count (footer_ t) = Z.of_nat (length es);
  th_max_seq : Forall (λ e, e_seq e ≤ footer_max_seq (footer_ t)) es;
}.

Section VersionSpec.
Context `{Posix} (content : CacheKey → bytes) (ents : Z → list Entry).

Record file_ok (fm : FileMeta) : Prop := {
  fo_holds : table_holds content (fm_table fm) (ents (fm_number fm));
  fo_range : Forall (λ e, key_le (smallest_key fm) (e_key e) ∧ key_le (e_key e) (largest_key fm))
    (ents (fm_number fm));
}.

Definition file_entries (fms : list FileMeta) : list Entry := fm ← fms; ents (fm_number fm).

(** The files of a level above 0 cover disjoint ranges in ascending order. *)
Definition level_ok (fms : list FileMeta) : Prop :=
  StronglySorted (λ a b, key_lt (largest_key a) (smallest_key b)) fms.

Record version_ok (v : Version) : Prop := {
  vo_levels : length (files v) = kMaxLevels;
  vo_files : Forall (Forall file_ok) (files v);
  vo_disjoint : Forall level_ok (drop 1 (files v));
}.

(** The layers in the order in which a read visits them. *)
Definition version_layers (v : Version) : list (list Entry) :=
  ((λ fm, ents (fm_number fm)) <$> rev (files_at v 0)) ++ (file_entries <$> drop 1 (files v)).

Definition version_entries (v : Version) : list Entry := mjoin (version_layers v).

End VersionSpec.

(** The entries a scan merges. *)
Definition scan_streams (ents : Z → list Entry) (mt_snapshot : list Entry) (v : Version)
    (start stop : bytes) : list (list Entry) :=
  mt_snapshot :: ((λ fm, skip_below start (ents (fm_number fm))) <$> scan_files v start stop).

(** The part of the memtable a scan copies. *)
Definition in_range (start stop : bytes) (e : Entry) : bool :=
  bytes_leb start (e_key e) && bytes_leb (e_key e) stop.

(** Earlier layers hold the newer versions of a key, or repeat them. *)
Fixpoint layered (ls : list (list Entry)) : Prop :=
  match ls with
  | [] => True
  | l :: ls' =>
      (∀ e e', e ∈ l → e' ∈ mjoin ls' → e_key e = e_key e' → e_seq e' ≤ e_seq e ∨ e' ∈ l) ∧
      layered ls'
  end.

(** The answer of the first layer that has one. *)
Fixpoint first_answer (ls : list (list Entry)) (k : bytes) (s : Z) : LookupResult :=
  match ls with
  | [] => NotFound
  | l :: ls' =>
      match lookup_ref l k s with
      | NotFound => first_answer ls' k s
      | r => r
      end
  end.

(** * Lemmas *)

Lemma elem_of_rev {A} (x : A) l : x ∈ rev l ↔ x ∈ l.
Proof. by rewrite !list_elem_of_In, <- in_rev. Qed.

Lemma skip_below_elem target es e :
  sorted_entries es → e ∈ skip_below target es ↔ e ∈ es ∧ key_le target (e_key e).
Proof.
  induction 1 as [|x es Hs IH Hx]; simpl.
  { split; [intros He; by apply elem_of_nil in He|by intros [He _]; apply elem_of_nil in He]. }
  rewrite Forall_forall in Hx. destruct (bytes_leb target (e_key x)) eqn:L; key_hyps.
  - split; [|by intros [? _]]. intros He. split; [done|].
    apply elem_of_cons in He as [->|He]; [done|]. eapply key_le_trans; [done|].
    by apply ent_le_key, Hx.
  - rewrite IH, elem_of_cons. split; [naive_solver|]. intros [[->|?] Hk]; [|done].
    by apply key_lt_nle in L.
Qed.

Lemma take_while_elem l stop e :
  StronglySorted key_lt (e_key <$> l) →
  e ∈ take_while (λ e, bytes_leb (e_key e) stop) l ↔ e ∈ l ∧ key_le (e_key e) stop.
Proof.
  induction l as [|x l IH]; intros Hs; cbn [take_while].
  { split; [intros He; by apply elem_of_nil in He|by intros [He _]; apply elem_of_nil in He]. }
  rewrite fmap_cons in Hs. apply StronglySorted_inv in Hs as [Hs Hx].
  destruct (bytes_leb (e_key x) stop) eqn:L; key_hyps.
  - rewrite !elem_of_cons, IH by done. naive_solver.
  - split; [intros He; by apply elem_of_nil in He|]. intros [[->|He]%elem_of_cons Hk].
    + by apply key_lt_nle in L.
    + rewrite Forall_fmap, Forall_forall in Hx. specialize (Hx e He). simpl in Hx.
      destruct (key_lt_irrefl stop). eapply key_lt_le_trans; [exact L|].
      apply key_lt_le. by eapply key_lt_le_trans.
Qed.

Lemma take_while_keys_sorted go l :
  StronglySorted key_lt (e_key <$> l) → StronglySorted key_lt (e_key <$> take_while go l).
Proof.
  induction l as [|x l IH]; intros Hs; cbn [take_while]; [constructor|]. rewrite fmap_cons in Hs.
  apply StronglySorted_inv in Hs as [Hs Hx]. destruct (go x); [|constructor].
  rewrite fmap_cons. constructor; [auto|]. clear -Hx. induction l as [|y l IH]; cbn [take_while]; [constructor|].
  rewrite fmap_cons in Hx. apply Forall_cons in Hx as [? ?]. destruct (go y); [|constructor].
  rewrite fmap_cons. constructor; auto.
Qed.

(** ** Layers *)

Lemma lookup_ref_app_found a b k s :
  versions_unique (a ++ b) →
  (∀ e e', e ∈ a → e' ∈ b → e_key e = e_key e' → e_seq e' ≤ e_seq e ∨ e' ∈ a) →
  lookup_ref (a ++ b) k s =
    match lookup_ref a k s with NotFound => lookup_ref b k s | r => r end.
Proof.
  intros Hu Hl. unfold lookup_ref. destruct (newest k s a) as [e|] eqn:E.
  - pose proof (newest_Some _ _ _ _ E) as (Hin & Hv & Hm).
    rewrite (newest_intro k s (a ++ b) e Hu).
    + simpl. by destruct (e_tombstone e).
    + apply elem_of_app. by left.
    + done.
    + intros e' [He'|He']%elem_of_app Hv'; [auto|]. destruct (Hl e e') as [?|?]; auto.
      apply visible_spec in Hv as [-> _]. by apply visible_spec in Hv' as [-> _].
  - rewrite newest_None in E. by rewrite newest_app_r.
Qed.

Lemma first_answer_correct ls k s :
  layered ls → versions_unique (mjoin ls) → first_answer ls k s = lookup_ref (mjoin ls) k s.
Proof.
  induction ls as [|l ls IH]; intros Hl Hu; [done|]. destruct Hl as [Hl Hls].
  rewrite mjoin_cons in *. rewrite lookup_ref_app_found by done. simpl.
  rewrite IH; [done|done|]. eapply versions_unique_sub; [|exact Hu].
  intros e He. apply elem_of_app. by right.
Qed.

(** ** The files of a level *)

Section VersionLemmas.
#[local] Set Default Proof Using "All".
Context `{Posix} (content : CacheKey → bytes) (ents : Z → list Entry).

Lemma get_file_runs fm k s :
  file_ok content ents fm →
  runs content (get_file fm k s) (Ok (lookup_ref (ents (fm_number fm)) k s)).
Proof.
  intros [Hh _]. unfold get_file. destruct (th_may _ _ _ Hh k) as (b & E & Hb). rewrite E.
  eapply runs_bind; [apply runs_lift|]. destruct b; simpl.
  - apply (th_get _ _ _ Hh).
  - rewrite lookup_ref_none; [apply runs_ret|]. intros e He Hk.
    apply Hb; [done|]. rewrite <- Hk. by apply list_elem_of_fmap_2.
Qed.

Lemma get_files_runs fms k s :
  Forall (file_ok content ents) fms →
  runs content (get_files fms k s) (Ok (first_answer ((λ fm, ents (fm_number fm)) <$> fms) k s)).
Proof.
  induction 1 as [|fm fms Hfm _ IH]; [apply runs_ret|]. cbn [get_files fmap list_fmap first_answer].
  eapply runs_bind; [by apply get_file_runs|].
  destruct (lookup_ref (ents (fm_number fm)) k s); [exact IH|apply runs_ret..].
Qed.

Lemma file_entries_cons fm fms :
  file_entries ents (fm :: fms) = ents (fm_number fm) ++ file_entries ents fms.
Proof using Type. done. Qed.

Lemma file_entries_elem e fms :
  e ∈ file_entries ents fms ↔ ∃ fm, fm ∈ fms ∧ e ∈ ents (fm_number fm).
Proof using Type.
  unfold file_entries. rewrite list_elem_of_bind. naive_solver.
Qed.

(** Only the file before the upper bound can hold the key. *)
Lemma level_lookup fms k s :
  Forall (file_ok content ents) fms → level_ok fms →
  lookup_ref (file_entries ents fms) k s =
    match upper_bound fms k with
    | O => NotFound
    | S i =>
        match fms !! i with
        | None => NotFound
        | Some fm => if bytes_leb k (largest_key fm) then lookup_ref (ents (fm_number fm)) k s
                     else NotFound
        end
    end.
Proof.
  intros Hok Hl. induction Hl as [|fm fms Hl IH Hfm]; [done|].
  apply Forall_cons in Hok as [Hf Hok]. specialize (IH Hok). cbn [upper_bound].
  rewrite file_entries_cons. pose proof (fo_range _ _ _ Hf) as Hr. rewrite Forall_forall in Hr.
  rewrite Forall_forall in Hfm.
  assert (∀ e, e ∈ file_entries ents fms → key_lt (largest_key fm) (e_key e)) as Hrest.
  { intros e (fm' & Hin & He)%file_entries_elem. eapply key_lt_le_trans; [by apply Hfm|].
    rewrite Forall_forall in Hok. specialize (Hok fm' Hin). destruct Hok as [_ Hr'].
    rewrite Forall_forall in Hr'. by apply Hr'. }
  destruct (bytes_ltb k (smallest_key fm)) eqn:L; key_hyps.
  - apply lookup_ref_none. intros e [He|He]%elem_of_app; apply not_eq_sym, key_lt_ne.
    + eapply key_lt_le_trans; [done|]. by apply Hr.
    + eapply key_lt_trans; [|by apply Hrest]. eapply key_lt_le_trans; [exact L|].
      destruct Hf as [Hh Hr']. pose proof (th_nonempty _ _ _ Hh).
      destruct (ents (fm_number fm)) as [|e0 es0]; [done|].
      apply Forall_cons in Hr' as [[? ?] _]. eauto with keystone.
  - destruct (upper_bound fms k) as [|i] eqn:Eu; simpl.
    + assert (∀ e, e ∈ file_entries ents fms → visible k s e = false) as Hnone.
      { destruct fms as [|fm' fms']; [intros e He; by apply elem_of_nil in He|].
        cbn [upper_bound] in Eu. destruct (bytes_ltb k (smallest_key fm')) eqn:L'; [|done]. key_hyps.
        apply newest_None. unfold lookup_ref in IH.
        destruct (newest k s (file_entries ents (fm' :: fms'))) as [e|]; [|done].
        simpl in IH. by destruct (e_tombstone e). }
      assert (lookup_ref (ents (fm_number fm) ++ file_entries ents fms) k s =
        lookup_ref (ents (fm_number fm)) k s) as ->.
      { unfold lookup_ref. f_equal. apply newest_app_none. exact Hnone. }
      destruct (bytes_leb k (largest_key fm)) eqn:L'; [done|]. key_hyps.
      apply lookup_ref_none. intros e He. apply key_lt_ne. eapply key_le_lt_trans; [by apply Hr|done].
    + rewrite <- IH. unfold lookup_ref. f_equal. apply newest_app_r. intros e He.
      apply visible_false. left. intros Hk.
      assert (key_lt (largest_key fm) k) as Hlt.
      { destruct fms as [|fm' fms']; [done|]. cbn [upper_bound] in Eu.
        destruct (bytes_ltb k (smallest_key fm')) eqn:L'; [done|]. key_hyps.
        eapply key_lt_le_trans; [apply (Hfm fm'); by left|exact L']. }
      apply (key_lt_irrefl k). eapply key_le_lt_trans; [|exact Hlt]. rewrite <- Hk. by apply Hr.
Qed.

Lemma upper_bound_le fms k : (upper_bound fms k ≤ length fms)%nat.
Proof. induction fms as [|fm fms IH]; simpl; [done|]. case_match; lia. Qed.

Lemma get_level_runs fms k s :
  Forall (file_ok content ents) fms → level_ok fms →
  runs content (get_level fms k s) (Ok (lookup_ref (file_entries ents fms) k s)).
Proof.
  intros Hok Hl. rewrite level_lookup by done. unfold get_level.
  pose proof (upper_bound_le fms k) as Hle. destruct (upper_bound fms k) as [|i]; [apply runs_ret|].
  destruct (lookup_lt_is_Some_2 fms i ltac:(lia)) as [fm Hfm]. rewrite Hfm.
  destruct (bytes_leb k (largest_key fm)); [|apply runs_ret].
  apply get_file_runs. by eapply Forall_lookup_1.
Qed.

Lemma get_levels_runs levels k s :
  Forall (Forall (file_ok content ents)) levels → Forall level_ok levels →
  runs content (get_levels levels k s) (Ok (first_answer (file_entries ents <$> levels) k s)).
Proof.
  intros Hok. induction Hok as [|fms levels Hf _ IH]; intros Hl; [apply runs_ret|].
  apply Forall_cons in Hl as [? ?]. cbn [get_levels fmap list_fmap first_answer].
  eapply runs_bind; [by apply get_level_runs|].
  destruct (lookup_ref (file_entries ents fms) k s); [by apply IH|apply runs_ret..].
Qed.

Lemma first_answer_app a b k s :
  first_answer (a ++ b) k s =
    match first_answer a k s with NotFound => first_answer b k s | r => r end.
Proof.
  induction a as [|l a IH]; [done|]. cbn [app first_answer].
  destruct (lookup_ref l k s); [exact IH|done..].
Qed.

Lemma files_at_ok v l : version_ok content ents v → Forall (file_ok content ents) (files_at v l).
Proof.
  intros Hv. unfold files_at. destruct (nth_in_or_default l (files v) []) as [Hin|E].
  - pose proof (vo_files _ _ _ Hv) as Hf. rewrite Forall_forall in Hf.
    by apply Hf, list_elem_of_In.
  - rewrite E. constructor.
Qed.

(** Reading level 0 back to front and then the covering file of each level
    gives the answer of the first layer that has one. *)
Lemma version_get_first v k s :
  version_ok content ents v →
  runs content (version_get v k s) (Ok (first_answer (version_layers ents v) k s)).
Proof.
  intros Hv. unfold version_get, version_layers. rewrite first_answer_app.
  eapply runs_bind.
  { apply get_files_runs. apply Forall_rev. by apply files_at_ok. }
  case_match; [|apply runs_ret..]. apply get_levels_runs; [|apply Hv].
  apply Forall_drop. apply Hv.
Qed.

Lemma version_get_runs v k s :
  version_ok content ents v → layered (version_layers ents v) →
  versions_unique (version_entries ents v) →
  runs content (version_get v k s) (Ok (lookup_ref (version_entries ents v) k s)).
Proof.
  intros Hv Hl Hu. unfold version_entries in *. rewrite <- first_answer_correct by done.
  by apply version_get_first.
Qed.

(** ** Sources of a scan *)

Lemma sources_of_runs fms start :
  Forall (file_ok content ents) fms →
  ∃ srcs, runs content (sources_of fms start) (Ok srcs) ∧
    Forall2 (yields content) srcs ((λ fm, skip_below start (ents (fm_number fm))) <$> fms).
Proof.
  induction 1 as [|fm fms [Hh _] _ (srcs & Hr & Hy)].
  { exists []. split; [apply runs_ret|constructor]. }
  destruct (th_seek _ _ _ Hh start) as (src & Hs & Hsy).
  exists (FromSSTable src :: srcs). split.
  - cbn [sources_of]. eapply runs_bind; [exact Hs|]. eapply runs_bind; [exact Hr|]. apply runs_ret.
  - rewrite fmap_cons. constructor; [by apply any_sstable_yields|done].
Qed.

Lemma version_entries_elem v e :
  version_ok content ents v →
  e ∈ version_entries ents v ↔ ∃ fm, fm ∈ mjoin (files v) ∧ e ∈ ents (fm_number fm).
Proof.
  intros Hv. pose proof (vo_levels _ _ _ Hv) as Hlen. unfold version_entries, version_layers, files_at.
  destruct (files v) as [|l0 levels]; [done|]. simpl. rewrite drop_0, join_app, elem_of_app.
  setoid_rewrite elem_of_app. split.
  - intros [(l & He & (fm & -> & Hfm)%list_elem_of_fmap)%list_elem_of_join
      |(l & He & (fms & -> & Hfms)%list_elem_of_fmap)%list_elem_of_join].
    + exists fm. rewrite elem_of_rev in Hfm. auto.
    + apply file_entries_elem in He as (fm & Hfm & He). exists fm. split; [|done]. right.
      apply list_elem_of_join. by exists fms.
  - intros (fm & [Hfm|(fms & Hfm & Hfms)%list_elem_of_join] & He); [left|right];
      apply list_elem_of_join.
    + exists (ents (fm_number fm)). split; [done|]. apply list_elem_of_fmap. exists fm.
      by rewrite elem_of_rev.
    + exists (file_entries ents fms). split; [|by apply list_elem_of_fmap_2].
      apply file_entries_elem. by exists fm.
Qed.

Lemma scan_files_elem v start stop fm :
  version_ok content ents v →
  (fm ∈ scan_files v start stop → fm ∈ mjoin (files v)) ∧
  (fm ∈ mjoin (files v) → fm ∈ scan_files v start stop ∨ outside fm start stop = true).
Proof.
  intros Hv. pose proof (vo_levels _ _ _ Hv) as Hlen. unfold scan_files, files_at.
  destruct (files v) as [|l0 levels]; [done|]. simpl. rewrite drop_0, !elem_of_app, elem_of_filterb.
  rewrite negb_true_iff. destruct (outside fm start stop); naive_solver.
Qed.

Lemma scan_files_ok v start stop :
  version_ok content ents v → Forall (file_ok content ents) (scan_files v start stop).
Proof.
  intros Hv. apply Forall_forall. intros fm Hfm.
  apply (proj1 (scan_files_elem v start stop fm Hv)) in Hfm.
  apply list_elem_of_join in Hfm as (fms & Hfm & Hfms).
  pose proof (vo_files _ _ _ Hv) as Hf. rewrite Forall_forall in Hf. specialize (Hf fms Hfms).
  rewrite Forall_forall in Hf. auto.
Qed.

Lemma file_ok_of v fm :
  version_ok content ents v → fm ∈ mjoin (files v) → file_ok content ents fm.
Proof.
  intros Hv (fms & Hfm & Hfms)%list_elem_of_join.
  pose proof (vo_files _ _ _ Hv) as Hf. rewrite Forall_forall in Hf. specialize (Hf fms Hfms).
  rewrite Forall_forall in Hf. auto.
Qed.

(** In the range, the sources of a scan hold what the version holds. *)
Lemma scan_entries_elem v start stop e :
  version_ok content ents v →
  e ∈ mjoin ((λ fm, skip_below start (ents (fm_number fm))) <$> scan_files v start stop) →
  key_le start (e_key e) ∧ e ∈ version_entries ents v.
Proof.
  intros Hv (l & He & (fm & -> & Hfm)%list_elem_of_fmap)%list_elem_of_join.
  apply (proj1 (scan_files_elem v start stop fm Hv)) in Hfm.
  pose proof (file_ok_of v fm Hv Hfm) as [Hh _].
  apply skip_below_elem in He as [He Hk]; [|apply Hh].
  split; [done|]. apply version_entries_elem; [done|]. by exists fm.
Qed.

Lemma scan_entries_elem_2 v start stop e :
  version_ok content ents v → e ∈ version_entries ents v →
  key_le start (e_key e) → key_le (e_key e) stop →
  e ∈ mjoin ((λ fm, skip_below start (ents (fm_number fm))) <$> scan_files v start stop).
Proof.
  intros Hv He Hlo Hhi. apply version_entries_elem in He as (fm & Hfm & He); [|done].
  pose proof (file_ok_of v fm Hv Hfm) as [Hh Hr]. rewrite Forall_forall in Hr.
  specialize (Hr e He) as [Hr1 Hr2].
  apply (proj2 (scan_files_elem v start stop fm Hv)) in Hfm as [Hfm|Hout].
  - apply list_elem_of_join. exists (skip_below start (ents (fm_number fm))).
    split; [by apply skip_below_elem; [apply Hh|]|]. apply list_elem_of_fmap. by exists fm.
  - unfold outside in Hout. apply orb_prop in Hout as [Hout|Hout]; key_hyps.
    + destruct (key_lt_irrefl start). eapply key_le_lt_trans; [exact Hlo|].
      by eapply key_le_lt_trans.
    + destruct (key_lt_irrefl stop). eapply key_lt_le_trans; [exact Hout|].
      by eapply key_le_trans.
Qed.

Lemma scan_streams_elem mes v start stop e :
  version_ok content ents v → key_le start (e_key e) → key_le (e_key e) stop →
  e ∈ mjoin (scan_streams ents (List.filter (in_range start stop) mes) v start stop) ↔
  e ∈ mes ++ version_entries ents v.
Proof.
  intros Hv Hlo Hhi. unfold scan_streams. rewrite mjoin_cons, !elem_of_app, elem_of_filterb.
  assert (in_range start stop e = true) as ->.
  { apply andb_true_iff. by rewrite !bytes_leb_le. }
  split.
  - intros [[? _]|He]; [by left|right]. by eapply scan_entries_elem.
  - intros [?|He]; [by left|right]. by apply scan_entries_elem_2.
Qed.

Lemma skip_below_sorted target es : sorted_entries es → sorted_entries (skip_below target es).
Proof. induction 1; simpl; [constructor|]. case_match; [by constructor|done]. Qed.

Lemma scan_streams_sorted mes v start stop :
  version_ok content ents v → sorted_entries mes →
  Forall sorted_entries
    (scan_streams ents (List.filter (in_range start stop) mes) v start stop).
Proof.
  intros Hv Hs. constructor; [by apply sorted_filter|].
  pose proof (scan_files_ok v start stop Hv) as Hf. apply Forall_fmap.
  eapply Forall_impl; [exact Hf|]. intros fm [Hh _]. apply skip_below_sorted, Hh.
Qed.

Lemma scan_streams_key mes v start stop e :
  version_ok content ents v →
  e ∈ mjoin (scan_streams ents (List.filter (in_range start stop) mes) v start stop) →
  key_le start (e_key e) ∧ e ∈ mes ++ version_entries ents v.
Proof.
  intros Hv. unfold scan_streams. rewrite mjoin_cons, !elem_of_app, elem_of_filterb.
  intros [[? Hr]|He].
  - apply andb_true_iff in Hr as [?%bytes_leb_le _]. auto.
  - apply scan_entries_elem in He as [? ?]; [|done]. auto.
Qed.

(** The view of the merged streams has exactly the live keys of the range at
    the snapshot. *)
Lemma scan_view mes v start stop s l :
  version_ok content ents v → versions_unique (mes ++ version_entries ents v) → sorted_entries l →
  l ≡ₚ mjoin (scan_streams ents (List.filter (in_range start stop) mes) v start stop) →
  let out := take_while (λ e, bytes_leb (e_key e) stop) (merge_view false s None l) in
  StronglySorted key_lt (e_key <$> out) ∧
  ∀ e, e ∈ out ↔ key_le start (e_key e) ∧ key_le (e_key e) stop ∧
    newest (e_key e) s (mes ++ version_entries ents v) = Some e ∧ e_tombstone e = false.
Proof.
  intros Hv Hu Hsl Hpl. pose proof (merge_view_sorted false s l Hsl) as Hvs. split.
  - by apply take_while_keys_sorted.
  - intros e. rewrite take_while_elem by done. rewrite merge_view_elem by done.
    assert (∀ k, key_le start k → key_le k stop →
      newest k s l = newest k s (mes ++ version_entries ents v)) as Hnew.
    { intros k Hlo Hhi. apply newest_ext; [done|]. intros x [Hx _]%visible_spec. rewrite Hpl.
      subst k. by apply scan_streams_elem. }
    split.
    + intros [[Hn [?|Ht]] Hhi]; [done|]. pose proof (newest_Some _ _ _ _ Hn) as (Hin & _).
      rewrite Hpl in Hin. apply scan_streams_key in Hin as [Hlo _]; [|done].
      rewrite <- Hnew by done. auto.
    + intros (Hlo & Hhi & Hn & Ht). rewrite Hnew by done. auto.
Qed.

Lemma scan_merge_runs `{PriorityQueueOk} mes v start stop s fuel :
  version_ok content ents v → sorted_entries mes →
  versions_unique (mes ++ version_entries ents v) →
  (length (mjoin (scan_streams ents (List.filter (in_range start stop) mes) v start stop)) < fuel)%nat →
  ∃ out, runs content
      (scan_merge fuel (List.filter (in_range start stop) mes) v start stop s) (Ok out) ∧
    StronglySorted key_lt (e_key <$> out) ∧
    ∀ e, e ∈ out ↔ key_le start (e_key e) ∧ key_le (e_key e) stop ∧
      newest (e_key e) s (mes ++ version_entries ents v) = Some e ∧ e_tombstone e = false.
Proof.
  intros Hv Hs Hu Hf. set (mem := List.filter (in_range start stop) mes) in *.
  destruct (sources_of_runs (scan_files v start stop) start) as (srcs & Hr & Hy).
  { by apply scan_files_ok. }
  destruct (merge_runs content (FromSnapshot (snapshot_source mem) :: srcs)
    (scan_streams ents mem v start stop) false s false (λ e, bytes_leb (e_key e) stop) fuel)
    as (l & Hsl & Hpl & Hm); [|by apply scan_streams_sorted|done|].
  { constructor; [|done]. by apply any_snapshot_yields, (snapshot_source_yields content mem 0). }
  eexists. split; [|by apply (scan_view mes v start stop s l)].
  unfold scan_merge. eapply runs_bind; [exact Hr|exact Hm].
Qed.

End VersionLemmas.

(** The tables of the writer keep the promise. *)
Lemma table_of_holds `{PosixOk} content number es bloom :
  es ≠ [] → Forall sst_entry_ok es → sst_fits es → sorted_entries es →
  keys_separate (layout es) → Bloom.bloom_wf bloom →
  (∀ k, k ∈ e_key <$> es → Bloom.may_contain bloom k = Ok true) →
  coherent content (table_of number es bloom) →
  table_holds content (table_of number es bloom) es.
Proof.
  intros Hne Hok Hfit Hs Hsep Hwf Hin Hco. split; try done.
  - intros k. unfold sst_may_contain. cbn [bloom_ table_of].
    destruct (Bloom.may_contain_defined bloom k Hwf) as [b Hb]. exists b. split; [done|].
    intros -> Hk. rewrite Hin in Hb by done. done.
  - intros k s. rewrite <- (mjoin_layout es) at 2.
    rewrite <- block_lookup_correct; [|apply layout_nonempty|by rewrite mjoin_layout|done].
    by apply sst_get_runs.
  - by apply sstable_source_yields.
  - intros target. by apply sstable_source_seek_yields.
  - apply Forall_forall. intros e He. by apply max_seq_of_ge.
Qed.

Lemma key_range es e :
  sorted_entries es → e ∈ es → key_le (block_key es) (e_key e) ∧ key_le (e_key e) (last_key es).
Proof.
  intros Hs He. destruct es as [|e0 es'] eqn:E; [by apply elem_of_nil in He|]. rewrite <- E in *.
  split.
  - rewrite E in *. simpl. apply StronglySorted_inv in Hs as [_ Hall]. rewrite Forall_forall in Hall.
    apply elem_of_cons in He as [->|He]; [apply key_le_refl|]. by apply ent_le_key, Hall.
  - unfold last_key. destruct (last es) as [x|] eqn:El.
    + simpl. apply last_Some in El as [l ->].
      apply elem_of_app in He as [He| ->%list_elem_of_singleton]; [|apply key_le_refl].
      apply ent_le_key. eapply StronglySorted_app_1_elem_of; [done|done|by left].
    + by apply last_None in El; subst.
Qed.

Lemma add_entries_ok `{PosixOk} es :
  Forall sst_entry_ok es → sst_fits es →
  ∃ w, add_entries SSTableWriter_new es = Ok w ∧ smallest_key_ w = block_key es ∧
    largest_key_ w = last_key es.
Proof.
  intros Hok Hfit. pose proof (add_entries_of es ([], []) ltac:(constructor) Hok Hfit) as E.
  cbn [fst snd] in E. change SSTableWriter_new with (writer_of [] []). rewrite E.
  eexists. split; [done|]. pose proof (layout_fold_join es ([], [])) as Hj. simpl in Hj.
  unfold writer_of. cbn [smallest_key_ largest_key_]. by rewrite Hj.
Qed.


(** The file a table was written to keeps the promise, for contents defined by
    the entries themselves. *)
Lemma table_file_ok `{PosixOk} ents num level bloom :
  ents num ≠ [] → Forall sst_entry_ok (ents num) → sst_fits (ents num) →
  sorted_entries (ents num) → keys_separate (layout (ents num)) → Bloom.bloom_wf bloom →
  (∀ k, k ∈ e_key <$> ents num → Bloom.may_contain bloom k = Ok true) →
  file_ok (content_of ents) ents
    (mkFileMeta num level (block_key (ents num)) (last_key (ents num)) (table_of num (ents num) bloom)).
Proof.
  intros Hne Hok Hfit Hs Hsep Hwf Hin. split; cbn [fm_number fm_table smallest_key largest_key].
  - apply table_of_holds; try done. by apply content_of_coherent.
  - apply Forall_forall. intros e He. by apply key_range.
Qed.

Lemma write_file_ok `{PosixOk} ents num level :
  ents num ≠ [] → Forall sst_entry_ok (ents num) → sst_fits (ents num) →
  sorted_entries (ents num) → keys_separate (layout (ents num)) →
  ∃ fm, write_file num level (ents num) = Ok fm ∧ file_ok (content_of ents) ents fm ∧
    fm_number fm = num ∧ smallest_key fm = block_key (ents num) ∧
    largest_key fm = last_key (ents num).
Proof.
  intros Hne Hok Hfit Hs Hsep.
  destruct (finish_image _ Hok Hfit) as (bloom & _ & Hwf & Hbits & Hin & Hf).
  destruct (add_entries_ok _ Hok Hfit) as (w & Ha & Hsk & Hlk).
  unfold write_file. rewrite Ha in *. cbn [mbind result_bind] in *. rewrite Hf.
  cbn [mbind result_bind f_data]. rewrite sst_open_image by done. cbn [mbind result_bind].
  eexists. split; [done|]. rewrite Hsk, Hlk. split_and!; [|done..].
  by apply table_file_ok.
Qed.

(** ** The choice of inputs *)

Lemma range_add_spec fms r :
  Forall (λ fm, smallest_key fm ≠ [] ∧ largest_key fm ≠ []) fms →
  let r' := fold_left range_add fms r in
  (r.1 ≠ [] → key_le r'.1 r.1 ∧ r'.1 ≠ []) ∧ (r.2 ≠ [] → key_le r.2 r'.2 ∧ r'.2 ≠ []) ∧
  ∀ fm, fm ∈ fms → key_le r'.1 (smallest_key fm) ∧ key_le (largest_key fm) r'.2.
Proof.
  intros Hf. revert r. induction Hf as [|fm fms [Hs Hl] Hf IH]; intros r; simpl.
  { split_and!; [auto with keystone..|]. intros fm Hfm. by apply elem_of_nil in Hfm. }
  destruct (IH (range_add r fm)) as (H1 & H2 & H3). unfold range_add in *. cbn [fst snd] in *.
  set (lo := if bool_decide (r.1 = []) || bytes_ltb (smallest_key fm) r.1
             then smallest_key fm else r.1) in *.
  set (hi := if bool_decide (r.2 = []) || bytes_ltb r.2 (largest_key fm)
             then largest_key fm else r.2) in *.
  assert (lo ≠ [] ∧ key_le lo (smallest_key fm) ∧ (r.1 ≠ [] → key_le lo r.1)) as (Hlo & Hlo1 & Hlo2).
  { subst lo. case_bool_decide; simpl; [by split_and!; auto with keystone|].
    destruct (bytes_ltb (smallest_key fm) r.1) eqn:L; key_hyps; split_and!; auto with keystone. }
  assert (hi ≠ [] ∧ key_le (largest_key fm) hi ∧ (r.2 ≠ [] → key_le r.2 hi)) as (Hhi & Hhi1 & Hhi2).
  { subst hi. case_bool_decide; simpl; [by split_and!; auto with keystone|].
    destruct (bytes_ltb r.2 (largest_key fm)) eqn:L; key_hyps; split_and!; auto with keystone. }
  destruct (H1 Hlo) as [H1a H1b], (H2 Hhi) as [H2a H2b]. split_and!.
  - intros Hr. split; [|done]. eapply key_le_trans; [exact H1a|auto].
  - intros Hr. split; [|done]. eapply key_le_trans; [|exact H2a]. auto.
  - intros fm' [->|Hin]%elem_of_cons; [|auto]. split; eapply key_le_trans; eauto.
Qed.

(** * Properties *)

(** A level-0 compaction takes every overlapping file of level 1 with it,
    provided no key bound is the empty key. *)
Theorem l0_job_closed (v : Version) (fm0 fm1 : FileMeta)
    (Hkeys : Forall (λ fm, smallest_key fm ≠ [] ∧ largest_key fm ≠ []) (files_at v 0)) :
  fm0 ∈ files_at v 0 → fm1 ∈ files_at v 1 →
  outside fm1 (smallest_key fm0) (largest_key fm0) = false →
  fm0 ∈ inputs (l0_job v) ∧ fm1 ∈ inputs (l0_job v).
Proof.
  intros H0 H1 Hov. unfold l0_job. cbn [inputs]. split; apply elem_of_app; [by left|right].
  apply elem_of_filterb. split; [done|]. apply negb_true_iff.
  destruct (range_add_spec (files_at v 0) ([], []) Hkeys) as (_ & _ & Hr).
  specialize (Hr fm0 H0) as [Hlo Hhi]. unfold outside in *.
  apply orb_false_elim in Hov as [Ha Hb]. key_hyps. apply orb_false_iff.
  rewrite !bytes_ltb_ge. split; eapply key_le_trans; eauto.
Qed.

Definition ex_levels (t : SSTable) : Version :=
  mkVersion ([[mkFileMeta 3 0 (bs "b") (bs "d") t; mkFileMeta 4 0 (bs "m") (bs "z") t];
              [mkFileMeta 1 1 (bs "a") (bs "c") t; mkFileMeta 2 1 (bs "e") (bs "f") t]]
             ++ replicate 5 []).

Lemma l0_job_closed_witness :
  mkFileMeta 1 1 (bs "a") (bs "c") ex_table ∈ inputs (l0_job (ex_levels ex_table)).
Proof.
  apply (l0_job_closed (ex_levels ex_table) (mkFileMeta 3 0 (bs "b") (bs "d") ex_table)
    (mkFileMeta 1 1 (bs "a") (bs "c") ex_table)); [|by left|by left|by vm_compute].
  repeat constructor; discriminate.
Defined.

Definition empty_key_version (t : SSTable) : Version :=
  mkVersion ([[mkFileMeta 3 0 [] (bs "a") t; mkFileMeta 4 0 (bs "m") (bs "z") t];
              [mkFileMeta 1 1 [] (bs "c") t]] ++ replicate 5 []).

(** The empty string stands for an unset bound in the choice of inputs: a
    file that starts with the empty key does not count, and the overlapping
    file of level 1 is left out of the job. *)
Theorem l0_job_misses_empty_key (t : SSTable) :
  let v := empty_key_version t in
  (∃ fm0 fm1, fm0 ∈ files_at v 0 ∧ fm1 ∈ files_at v 1 ∧
    outside fm1 (smallest_key fm0) (largest_key fm0) = false ∧ fm1 ∉ inputs (l0_job v)).
Proof.
  exists (mkFileMeta 3 0 [] (bs "a") t), (mkFileMeta 1 1 [] (bs "c") t). split_and!.
  - by left.
  - by left.
  - by vm_compute.
  - intros Hin. assert (fm_number <$> inputs (l0_job (empty_key_version t)) = [3; 4]) as E by done.
    apply (list_elem_of_fmap_2 fm_number) in Hin. rewrite E in Hin.
    rewrite !elem_of_cons, elem_of_nil in Hin. cbn [fm_number] in Hin. lia.
Qed.
