(* ===== verification/Compaction.v ===== *)
(** Compaction: the merge loop and the commit of [DB::compaction_loop] in
    src/src/db.cpp.

    The rule that decides which versions survive is [keep_step]; [kept] is its
    result on a sorted list of versions.  The loop writes the survivors into
    table files of bounded size. *)

From S2P Require Import Prelude Coding Wal Entry Memtable BlockCache SSTableWriter SSTable MergeIterator Version.
Local Open Scope Z_scope.

(** * Definitions *)

(** ** Which versions survive *)

(** One round: the new [prev_key] and [kept_anchor], and [keep]. *)
Definition keep_step (oldest_snap : Z) (bottommost : bool) (st : bytes * bool) (e : Entry)
  : (bytes * bool) * bool :=
  let is_new_key := negb (bytes_eqb (e_key e) st.1) in
  let prev_key := if is_new_key then e_key e else st.1 in
  let kept_anchor := if is_new_key then false else st.2 in
  if oldest_snap <? e_seq e then ((prev_key, kept_anchor), true)
  else if negb kept_anchor then ((prev_key, true), negb (e_tombstone e && bottommost))
  else ((prev_key, kept_anchor), false).

Fixpoint kept (oldest_snap : Z) (bottommost : bool) (st : bytes * bool) (l : list Entry)
  : list Entry :=
  match l with
  | [] => []
  | e :: l' =>
      let r := keep_step oldest_snap bottommost st e in
      (if r.2 then [e] else []) ++ kept oldest_snap bottommost r.1 l'
  end.

(** ** Files of a job *)

Section CompactOps.
Context `{Posix}.

(** [SSTableWriter::install]: the file appears under its final name. *)
Definition install (dir : gmap Z File) (number : Z) (f : File) : result (gmap Z File) :=
  if sys_rename (f_data f) then Ok (<[number := f]> dir)
  else Throw "SSTable install: rename failed".

Fixpoint input_sources (fms : list FileMeta) : cached (list SSTableMergeSource) :=
  match fms with
  | [] => mret []
  | fm :: fms' =>
      src ← sstable_source (fm_table fm);
      rest ← input_sources fms';
      mret (src :: rest)
  end.

End CompactOps.

(** ** Commit *)

(** [std::sort] by [smallest_key]. *)
Fixpoint insert_file (fm : FileMeta) (fms : list FileMeta) : list FileMeta :=
  match fms with
  | [] => [fm]
  | x :: fms' =>
      if bytes_ltb (smallest_key fm) (smallest_key x) then fm :: fms else x :: insert_file fm fms'
  end.

Definition sort_files (fms : list FileMeta) : list FileMeta := fold_right insert_file [] fms.

(** [input_numbers.find(fm.number) != input_numbers.end()] *)
Definition is_input (job : CompactionJob) (fm : FileMeta) : bool :=
  bool_decide (fm_number fm ∈ fm_number <$> inputs job).

(** The version after the job: the inputs leave, the outputs join the output
    level.  Nothing happens when there are no outputs. *)
Definition commit (cur : Version) (job : CompactionJob) (outputs : list FileMeta) : Version :=
  match outputs with
  | [] => cur
  | _ =>
      let rest := List.filter (λ fm, negb (is_input job fm)) <$> files cur in
      let out := output_level job in
      let level := nth out rest [] ++ outputs in
      mkVersion (<[out := if (1 <=? out)%nat then sort_files level else level]> rest)
  end.

(** ** Specification *)

(** The value a reader is given. *)
Definition reader_value (r : LookupResult) : option bytes :=
  match r with Found v => Some v | _ => None end.

(** The survivors as table files: a file is closed as soon as it has reached
    the target size, wherever that falls among the versions of a key. *)
Definition file_bytes (es : list Entry) : Z :=
  foldr (λ e n, 17 + blen (e_key e) + blen (e_value e) + n) 0 es.

Definition split_add (target : Z) (f : list (list Entry) * list Entry) (e : Entry)
  : list (list Entry) * list Entry :=
  let cur := f.2 ++ [e] in
  if target <=? file_bytes cur then (f.1 ++ [cur], []) else (f.1, cur).

Definition split_files (target : Z) (es : list Entry) : list (list Entry) :=
  close_layout (fold_left (split_add target) es ([], [])).

(** [prev_key] and [kept_anchor] behind the versions [l]. *)
Definition keep_after (oldest_snap : Z) (bottommost : bool) (st : bytes * bool) (l : list Entry)
  : bytes * bool :=
  fold_left (λ st e, (keep_step oldest_snap bottommost st e).1) l st.

(** The anchor of [k] that a bottommost compaction leaves out. *)
Definition dropped (oldest_snap : Z) (bottommost : bool) (e : Entry) : bool :=
  (e_seq e <=? oldest_snap) && e_tombstone e && bottommost.

(** * Lemmas *)

Lemma kept_sublist oldest bot st l : kept oldest bot st l `sublist_of` l.
Proof.
  revert st. induction l as [|e l IH]; intros st; [done|]. cbn [kept].
  destruct (keep_step oldest bot st e).2; simpl; [by apply sublist_skip|by apply sublist_cons].
Qed.

Lemma kept_elem oldest bot st l e : e ∈ kept oldest bot st l → e ∈ l.
Proof. intros He. eapply elem_of_sublist; [exact He|apply kept_sublist]. Qed.

Lemma kept_app oldest bot st a b :
  kept oldest bot st (a ++ b) = kept oldest bot st a ++ kept oldest bot (keep_after oldest bot st a) b.
Proof.
  revert st. induction a as [|e a IH]; intros st; [done|]. cbn [kept app]. rewrite IH.
  by rewrite (assoc_L (++)).
Qed.

Lemma sublist_sorted {A} (R : relation A) l k :
  l `sublist_of` k → StronglySorted R k → StronglySorted R l.
Proof.
  induction 1 as [|x l k Hs IH|x l k Hs IH]; [done| |];
    intros [Hk Hx]%StronglySorted_inv; [|auto].
  constructor; [auto|]. apply Forall_forall. intros y Hy. rewrite Forall_forall in Hx.
  apply Hx. by eapply elem_of_sublist.
Qed.

Lemma kept_sorted oldest bot st l : sorted_entries l → sorted_entries (kept oldest bot st l).
Proof. apply sublist_sorted, kept_sublist. Qed.

(** Behind the anchor of a key nothing of it survives. *)
Lemma kept_after_anchor oldest bot k l :
  sorted_entries l → (∀ e, e ∈ l → key_le k (e_key e)) →
  (∀ e, e ∈ l → e_key e = k → e_seq e ≤ oldest) →
  ∀ e, e ∈ kept oldest bot (k, true) l → e_key e ≠ k.
Proof.
  induction 1 as [|x l Hs IH Hx]; intros Hge Hold e; [intros He; by apply elem_of_nil in He|].
  rewrite Forall_forall in Hx. destruct (decide (e_key x = k)) as [Hk|Hk].
  - cbn [kept]. unfold keep_step. cbn [fst snd]. rewrite Hk, bytes_eqb_refl. cbn [negb].
    rewrite (proj2 (Z.ltb_ge _ _)) by (apply Hold; [by left|done]). cbn [negb fst snd app].
    apply IH; intros; [apply Hge|apply Hold]; [by right|by right|done].
  - intros He%kept_elem. apply not_eq_sym, key_lt_ne.
    assert (key_lt k (e_key x)) as Hlt.
    { specialize (Hge x ltac:(by left)). apply key_le_lteq in Hge as [?|?]; [done|congruence]. }
    apply elem_of_cons in He as [->|He]; [done|].
    eapply key_lt_le_trans; [done|]. by apply ent_le_key, Hx.
Qed.

(** A version that is left out is followed by no survivor of its key. *)
Lemma kept_none_after oldest bot st e l :
  sorted_entries (e :: l) → (keep_step oldest bot st e).2 = false →
  ∀ a, a ∈ kept oldest bot (keep_step oldest bot st e).1 l → e_key a ≠ e_key e.
Proof.
  intros [Hs Hx]%StronglySorted_inv Hf a. rewrite Forall_forall in Hx.
  assert ((keep_step oldest bot st e).1 = (e_key e, true) ∧ e_seq e ≤ oldest) as [-> Hold].
  { revert Hf. unfold keep_step. destruct (Z.ltb_spec oldest (e_seq e)); [done|].
    destruct (bytes_eqb (e_key e) st.1) eqn:E; key_hyps; cbn [negb]; [|done].
    destruct st.2 eqn:E2; cbn [negb fst snd]; [|by rewrite E].
    intros _. by rewrite E. }
  apply kept_after_anchor; [done|intros y Hy; by apply ent_le_key, Hx|].
  intros y Hy Hk. specialize (Hx y Hy). apply ent_le_cases in Hx as [Hlt|[_ ?]]; [|lia].
  rewrite Hk in Hlt. by apply key_lt_irrefl in Hlt.
Qed.

(** Everything newer than a survivor of the same key survives. *)
Lemma kept_closed oldest bot st l a b :
  sorted_entries l → a ∈ kept oldest bot st l → b ∈ l → e_key a = e_key b →
  e_seq b ≤ e_seq a ∨ b ∈ kept oldest bot st l.
Proof.
  intros Hs. revert st. induction Hs as [|x l Hs IH Hx]; intros st Ha Hb Hk; [by apply elem_of_nil in Ha|].
  cbn [kept] in *. rewrite elem_of_app in Ha |- *. apply elem_of_cons in Hb as [->|Hb].
  - destruct (keep_step oldest bot st x).2 eqn:E; [right; left; by left|].
    destruct Ha as [Ha|Ha]; [by apply elem_of_nil in Ha|].
    destruct (kept_none_after oldest bot st x l ltac:(by constructor) E a Ha Hk).
  - destruct Ha as [Ha|Ha].
    + destruct (keep_step oldest bot st x).2; [|by apply elem_of_nil in Ha].
      apply list_elem_of_singleton in Ha as ->. left. rewrite Forall_forall in Hx.
      specialize (Hx b Hb). apply ent_le_cases in Hx as [Hlt|[_ ?]]; [|done].
      rewrite Hk in Hlt. by apply key_lt_irrefl in Hlt.
    + destruct (IH _ Ha Hb Hk); auto.
Qed.

(** What a reader at or above the oldest snapshot finds among the survivors. *)
Lemma kept_find oldest bot st l k s :
  sorted_entries l → oldest ≤ s → ¬ (st.1 = k ∧ st.2 = true) →
  List.find (visible k s) (kept oldest bot st l) =
    match List.find (visible k s) l with
    | Some e => if dropped oldest bot e then None else Some e
    | None => None
    end.
Proof.
  intros Hs Hle. revert st. induction Hs as [|e l Hs IH Hx]; intros st Hst; [done|].
  rewrite Forall_forall in Hx. cbn [kept List.find].
  assert (Hprev : (keep_step oldest bot st e).1.1 = e_key e).
  { unfold keep_step. destruct (bytes_eqb (e_key e) st.1) eqn:E; key_hyps; cbn [negb];
      repeat case_match; simpl; done. }
  destruct (decide (e_key e = k)) as [Hk|Hk].
  - assert ((if negb (bytes_eqb (e_key e) st.1) then false else st.2) = false) as Hanc.
    { destruct (bytes_eqb (e_key e) st.1) eqn:E; key_hyps; [|done]. cbn [negb].
      destruct st.2; [|done]. exfalso. apply Hst. split; congruence. }
    unfold keep_step in *. rewrite Hanc in *.
    destruct (Z.ltb_spec oldest (e_seq e)) as [Hnew|Hold]; cbn [fst snd negb app] in *.
    + cbn [List.find]. destruct (visible k s e) eqn:V.
      * unfold dropped. by rewrite (proj2 (Z.leb_gt _ _)).
      * apply IH. cbn [fst snd]. by intros [_ ?].
    + assert (visible k s e = true) as V by (apply visible_spec; split; [done|lia]).
      rewrite V. unfold dropped. rewrite (proj2 (Z.leb_le _ _)) by done. cbn [andb].
      destruct (e_tombstone e && bot); cbn [negb app]; [|by cbn [List.find]; rewrite V].
      rewrite Hprev, Hk.
      destruct (List.find (visible k s) (kept oldest bot (k, true) l)) as [x|] eqn:F; [|done].
      exfalso. apply find_some in F as [Hin%list_elem_of_In [Hkx _]%visible_spec].
      revert Hkx. apply (kept_after_anchor oldest bot k l); [done| | |done].
      * intros y Hy. rewrite <- Hk. by apply ent_le_key, Hx.
      * intros y Hy Hky. specialize (Hx y Hy). apply ent_le_cases in Hx as [Hlt|[_ ?]]; [|lia].
        exfalso. rewrite Hk, Hky in Hlt. by apply key_lt_irrefl in Hlt.
  - assert (visible k s e = false) as V by (apply visible_false; by left). rewrite V.
    rewrite find_app. destruct (keep_step oldest bot st e).2; cbn [List.find]; rewrite ?V;
      (apply IH; rewrite Hprev; by intros [? _]).
Qed.

Lemma newest_ext_seq k s s' l :
  (∀ e, e ∈ l → e_seq e ≤ s ↔ e_seq e ≤ s') → newest k s l = newest k s' l.
Proof.
  intros Hl. induction l as [|e l IH]; [done|]. simpl. rewrite IH by (intros x Hx; apply Hl; by right).
  assert (visible k s e = visible k s' e) as ->; [|done].
  specialize (Hl e ltac:(by left)). unfold visible. f_equal. apply eq_bool_prop_intro.
  rewrite !Is_true_true. rewrite !Z.leb_le. done.
Qed.

(** [s] is at or above the oldest snapshot, or above all of [l]. *)
Definition reads_above (oldest s : Z) (l : list Entry) : Prop :=
  oldest ≤ s ∨ Forall (λ e, e_seq e ≤ s) l.

Lemma kept_newest_above oldest bot l k s :
  sorted_entries l → oldest ≤ s →
  newest k s (kept oldest bot ([], false) l) =
    match newest k s l with
    | Some e => if dropped oldest bot e then None else Some e
    | None => None
    end.
Proof.
  intros Hs Hle. rewrite !newest_sorted by (done || by apply kept_sorted).
  apply kept_find; [done|done|]. by intros [_ ?].
Qed.

Lemma kept_newest oldest bot l k s :
  sorted_entries l → reads_above oldest s l →
  newest k s (kept oldest bot ([], false) l) =
    match newest k s l with
    | Some e => if dropped oldest bot e then None else Some e
    | None => None
    end.
Proof.
  intros Hs [Hle|Hall]; [by apply kept_newest_above|]. rewrite Forall_forall in Hall.
  rewrite !(newest_ext_seq k s (Z.max oldest s)); [apply kept_newest_above; [done|lia]|..].
  - intros e He. specialize (Hall e He). lia.
  - intros e He%kept_elem. specialize (Hall e He). lia.
Qed.

(** ** Replacing the inputs by the survivors *)

Lemma reader_value_answer o :
  reader_value (answer o) =
    match o with Some e => if e_tombstone e then None else Some (e_value e) | None => None end.
Proof. destruct o as [e|]; [|done]. simpl. by destruct (e_tombstone e). Qed.

(** For readers at or above the oldest snapshot, inputs and survivors are
    interchangeable next to the rest of the database. *)
Lemma compaction_lookup oldest bot rest l l' k s :
  sorted_entries l' → l' ≡ₚ l → versions_unique (rest ++ l) → reads_above oldest s l →
  (bot = true → ∀ e e', e ∈ l → e' ∈ rest → e_key e = e_key e' → e_seq e ≤ e_seq e' ∨ e ∈ rest) →
  reader_value (lookup_ref (rest ++ kept oldest bot ([], false) l') k s) =
  reader_value (lookup_ref (rest ++ l) k s).
Proof.
  intros Hs Hp Hu Hle Hbot. unfold lookup_ref. rewrite !reader_value_answer.
  set (ks := kept oldest bot ([], false) l').
  assert (versions_unique (rest ++ ks)) as Hu'.
  { eapply versions_unique_sub; [|exact Hu]. intros e. rewrite !elem_of_app.
    intros [?|He%kept_elem]; [by left|right]. by rewrite <- Hp. }
  assert (versions_unique l) as Hul.
  { eapply versions_unique_sub; [|exact Hu]. intros e. rewrite elem_of_app. by right. }
  assert (reads_above oldest s l') as Hle'
    by (destruct Hle as [?|Hall]; [by left|right; by rewrite Hp]).
  pose proof (kept_newest oldest bot l' k s Hs Hle') as Hk. fold ks in Hk.
  rewrite (newest_permutation k s l' l Hul Hp) in Hk.
  destruct (newest k s (rest ++ l)) as [e|] eqn:E.
  - pose proof (newest_Some _ _ _ _ E) as (Hin & Hv & Hm).
    assert (Hmax : ∀ x, x ∈ rest ++ ks → visible k s x = true → e_seq x ≤ e_seq e).
    { intros x Hx. apply Hm. rewrite elem_of_app in Hx |- *.
      destruct Hx as [?|Hx%kept_elem]; [by left|right]. by rewrite <- Hp. }
    destruct (decide (e ∈ rest ++ ks)) as [Hin'|Hout].
    { by rewrite (newest_intro k s (rest ++ ks) e Hu' Hin' Hv Hmax). }
    assert (e ∈ l) as Hel.
    { apply elem_of_app in Hin as [?|?]; [|done]. exfalso. apply Hout, elem_of_app. by left. }
    assert (newest k s l = Some e) as El.
    { apply newest_intro; [done|done|done|]. intros x Hx. apply Hm, elem_of_app. by right. }
    rewrite El in Hk. destruct (dropped oldest bot e) eqn:D.
    2:{ exfalso. apply Hout, elem_of_app. right. by apply newest_Some in Hk as (? & _). }
    unfold dropped in D. apply andb_prop in D as [[_ Ht]%andb_prop Hb]. rewrite Ht.
    destruct (newest k s (rest ++ ks)) as [x|] eqn:Ex; [|done]. exfalso.
    pose proof (newest_Some _ _ _ _ Ex) as (Hx & Hvx & _).
    apply elem_of_app in Hx as [Hx|Hx].
    + pose proof (proj1 (visible_spec _ _ _) Hv) as [Hke _].
      pose proof (proj1 (visible_spec _ _ _) Hvx) as [Hkx _].
      assert (x ∈ rest ++ l) as Hx' by (apply elem_of_app; by left).
      specialize (Hm x Hx' Hvx). apply Hout, elem_of_app. left.
      destruct (Hbot Hb e x Hel Hx ltac:(congruence)) as [Hle2|?]; [|done].
      by rewrite (Hu e x Hin Hx') by (congruence || lia).
    + rewrite newest_None in Hk. by rewrite Hk in Hvx.
  - rewrite newest_None in E. rewrite (proj2 (newest_None _ _ _)); [done|].
    intros x Hx. apply E. rewrite elem_of_app in Hx |- *.
    destruct Hx as [?|Hx%kept_elem]; [by left|right]. by rewrite <- Hp.
Qed.

(** ** Files of survivors *)

Lemma mjoin_split_files target es : mjoin (split_files target es) = es.
Proof.
  unfold split_files. rewrite mjoin_close_layout.
  enough (∀ f, mjoin (fold_left (split_add target) es f).1 ++ (fold_left (split_add target) es f).2
    = (mjoin f.1 ++ f.2) ++ es) as -> by done.
  induction es as [|e es IH]; intros f; simpl; [by rewrite app_nil_r|].
  rewrite IH. unfold split_add. case_match; simpl.
  - rewrite mjoin_snoc, app_nil_r. by rewrite <- !(assoc_L (++)).
  - by rewrite <- !(assoc_L (++)).
Qed.

Lemma split_files_nonempty target es : Forall (.≠ []) (split_files target es).
Proof.
  unfold split_files. set (f := ([], []) : list (list Entry) * list Entry).
  assert (Forall (.≠ []) f.1) as Hf by constructor. clearbody f. revert f Hf.
  induction es as [|e es IH]; intros f Hf; simpl.
  - unfold close_layout. case_bool_decide; [done|]. apply Forall_app. split; [done|by constructor].
  - apply IH. unfold split_add. case_match; [|done]. simpl. apply Forall_app.
    split; [done|]. constructor; [by destruct f.2|done].
Qed.

Lemma encode_block_perm a b : a ≡ₚ b → blen (encode_block a) = blen (encode_block b).
Proof.
  induction 1; rewrite ?encode_block_cons, ?blen_app; lia.
Qed.

Section JobLemmas.
#[local] Set Default Proof Using "All".
Context `{PosixOk} (content : CacheKey → bytes) (ents : Z → list Entry).

Lemma input_sources_runs fms :
  Forall (file_ok content ents) fms →
  ∃ srcs, runs content (input_sources fms) (Ok srcs) ∧
    Forall2 (yields content) srcs ((λ fm, ents (fm_number fm)) <$> fms).
Proof.
  induction 1 as [|fm fms [Hh _] _ (srcs & Hr & Hy)].
  { exists []. split; [apply runs_ret|constructor]. }
  destruct (th_source _ _ _ Hh) as (src & Hs & Hsy).
  exists (src :: srcs). split.
  - cbn [input_sources]. eapply runs_bind; [exact Hs|]. eapply runs_bind; [exact Hr|]. apply runs_ret.
  - rewrite fmap_cons. by constructor.
Qed.

End JobLemmas.

(** * Properties *)

(** C22. Compaction preserves reads. Next to whatever else the database holds, the
    versions that the rule of the merge loop keeps answer every reader at or
    above the oldest live snapshot as all of the inputs would. A bottommost
    job, which also drops tombstones, needs that the rest holds no older
    version of a key of the inputs. *)
Theorem compaction_preserves_reads (oldest : Z) (bottommost : bool) (rest l merged : list Entry)
    (k : bytes) (s : Z) (Hsorted : sorted_entries merged) (Hmerged : merged ≡ₚ l)
    (Hunique : versions_unique (rest ++ l)) (Habove : oldest ≤ s)
    (Hbottom : bottommost = true → ∀ e e', e ∈ l → e' ∈ rest → e_key e = e_key e' → e_seq e < e_seq e') :
  reader_value (lookup_ref (rest ++ kept oldest bottommost ([], false) merged) k s) =
  reader_value (lookup_ref (rest ++ l) k s).
Proof.
  apply compaction_lookup; [done|done|done|by left|]. intros Hb e e' He He' Hk. left.
  specialize (Hbottom Hb e e' He He' Hk). lia.
Qed.

(** Two files over a third, newer one; the deletion of "b" goes, and with it
    what it deleted. *)
Definition ex_newer : list Entry := [mkEntry (bs "a") (bs "newest") false 9].
Definition ex_merged : list Entry :=
  [mkEntry (bs "a") (bs "new") false 4; mkEntry (bs "a") (bs "old") false 1;
   mkEntry (bs "b") [] true 3; mkEntry (bs "b") (bs "x") false 2; mkEntry (bs "c") (bs "y") false 5].

Lemma compaction_preserves_reads_witness :
  kept u64_max true ([], false) ex_merged =
    [mkEntry (bs "a") (bs "new") false 4; mkEntry (bs "c") (bs "y") false 5] ∧
  reader_value (lookup_ref (ex_newer ++ kept u64_max true ([], false) ex_merged) (bs "b") u64_max) =
  reader_value (lookup_ref (ex_newer ++ ex_merged) (bs "b") u64_max).
Proof.
  split; [by vm_compute|].
  apply (compaction_preserves_reads u64_max true ex_newer ex_merged ex_merged (bs "b") u64_max).
  - apply (bool_decide_unpack _). vm_compute. exact I.
  - reflexivity.
  - apply versions_unique_nodup. apply (bool_decide_unpack _). by vm_compute.
  - lia.
  - intros _ e e' He He' Hk. apply list_elem_of_singleton in He' as ->.
    assert (Forall (λ e, e_seq e < 9) ex_merged) as Hall by (apply (bool_decide_unpack _); by vm_compute).
    rewrite Forall_forall in Hall. by apply Hall.
Defined.
