(* ===== verification/Levels.v ===== *)
(** Replacing files in the levels: what the choice of inputs in
    [DB::pick_compaction] guarantees, and what the commit of a compaction in
    [DB::compaction_loop] does to the levels (src/src/db.cpp).

    [job_closed] is the interface between the two: the inputs of a job are
    closed under overlap, so that the outputs fit between the files that stay
    and no reader meets an older version before a newer one. *)

From S2P Require Import Prelude Coding Wal Entry Manifest Memtable BlockCache SSTableWriter SSTable MergeIterator Version Compaction.
Local Open Scope Z_scope.

(** * Definitions *)

(** The key ranges of two files do not meet. *)
Definition ranges_apart (a b : FileMeta) : Prop :=
  key_lt (largest_key a) (smallest_key b) ∨ key_lt (largest_key b) (smallest_key a).

(** What a job leaves behind does not interfere with what it moves. *)
Record job_closed (v : Version) (job : CompactionJob) : Prop := {
  jc_out : (1 ≤ output_level job < kMaxLevels)%nat;
  jc_inputs a : a ∈ inputs job → a ∈ mjoin (files v);
  jc_nodup : NoDup (inputs job);
  (** Beside the outputs: the other files of the level are below or above all
      inputs. *)
  jc_beside g : g ∈ files_at v (output_level job) → g ∉ inputs job →
    (∀ a, a ∈ inputs job → key_lt (largest_key a) (smallest_key g)) ∨
    (∀ a, a ∈ inputs job → key_lt (largest_key g) (smallest_key a));
  (** On the way down to the output level. *)
  jc_above l l' a g : (l ≤ l' < output_level job)%nat → a ∈ files_at v l → a ∈ inputs job →
    g ∈ files_at v l' → g ∉ inputs job → l ≠ 0%nat ∧ ranges_apart a g;
  (** On the way up to the output level. *)
  jc_below l l' a g : (output_level job < l)%nat → a ∈ files_at v l → a ∈ inputs job →
    (output_level job ≤ l')%nat → g ∈ files_at v l' → g ∈ inputs job;
  jc_bottom l g : is_bottommost job = true → (output_level job < l)%nat → g ∈ files_at v l →
    g ∈ inputs job;
}.

(** The versions the choice is made from. *)
Record pickable (v : Version) : Prop := {
  pk_levels : length (files v) = kMaxLevels;
  pk_disjoint : Forall level_ok (drop 1 (files v));
  pk_nodup : NoDup (fm_number <$> mjoin (files v));
  pk_ranges : Forall (λ fm, key_le (smallest_key fm) (largest_key fm)) (mjoin (files v));
  pk_nonempty : Forall (λ fm, smallest_key fm ≠ []) (files_at v 0);
}.

(** * Lemmas *)

(** ** Levels as lists *)

Lemma nth_mjoin {A} (fs : list (list A)) l x : x ∈ nth l fs [] → x ∈ mjoin fs.
Proof.
  intros Hx. apply list_elem_of_join. exists (nth l fs []). split; [done|].
  destruct (nth_in_or_default l fs []) as [Hin|E]; [by apply list_elem_of_In|].
  rewrite E in Hx. by apply elem_of_nil in Hx.
Qed.

Lemma files_at_elem v l fm : fm ∈ files_at v l → fm ∈ mjoin (files v).
Proof. apply nth_mjoin. Qed.

Lemma elem_of_files v fm : fm ∈ mjoin (files v) → ∃ l, (l < length (files v))%nat ∧ fm ∈ files_at v l.
Proof.
  intros (fms & Hfm & (l & Hl)%list_elem_of_lookup)%list_elem_of_join. exists l. split.
  - by apply lookup_lt_Some in Hl.
  - unfold files_at. by rewrite (nth_lookup_Some _ _ _ _ Hl).
Qed.

(** No file is on two levels. *)
Lemma nodup_levels {A} (fs : list (list A)) i j x :
  NoDup (mjoin fs) → x ∈ nth i fs [] → x ∈ nth j fs [] → i = j.
Proof.
  revert i j. induction fs as [|l fs IH]; intros i j Hnd Hi Hj.
  { destruct i; by apply elem_of_nil in Hi. }
  rewrite mjoin_cons in Hnd. apply NoDup_app in Hnd as (_ & Hdis & Hnd).
  destruct i as [|i], j as [|j]; simpl in *; [done| | |f_equal; by apply IH].
  - by destruct (Hdis x Hi (nth_mjoin _ _ _ Hj)).
  - by destruct (Hdis x Hj (nth_mjoin _ _ _ Hi)).
Qed.

Lemma mjoin_insert_app {A} (fs : list (list A)) n y z :
  (n < length fs)%nat → y ≡ₚ nth n fs [] ++ z → mjoin (<[n := y]> fs) ≡ₚ mjoin fs ++ z.
Proof.
  revert n. induction fs as [|f fs IH]; intros [|n] Hn Hy; simpl in Hn; try lia;
    cbn [insert list_insert nth] in *; rewrite !mjoin_cons.
  - rewrite Hy, <- !(assoc_L (++)). apply Permutation_app; [done|]. apply Permutation_app_comm.
  - rewrite IH by (done || lia). by rewrite (assoc_L (++)).
Qed.

Lemma nodup_level {A} (fs : list (list A)) l : NoDup (mjoin fs) → NoDup (nth l fs []).
Proof.
  revert l. induction fs as [|x fs IH]; intros l Hnd; [destruct l; constructor|].
  rewrite mjoin_cons in Hnd. apply NoDup_app in Hnd as (Hx & _ & Hnd). destruct l; [done|by apply IH].
Qed.

Lemma sorted_cases {A} (R : relation A) l a b :
  StronglySorted R l → a ∈ l → b ∈ l → a = b ∨ R a b ∨ R b a.
Proof.
  induction 1 as [|x l Hs IH Hx]; intros Ha Hb; [by apply elem_of_nil in Ha|].
  rewrite Forall_forall in Hx. apply elem_of_cons in Ha as [->|Ha], Hb as [->|Hb]; auto.
Qed.

Lemma level_ok_at v l : Forall level_ok (drop 1 (files v)) → (1 ≤ l)%nat → level_ok (files_at v l).
Proof.
  unfold files_at. intros Hd Hl. destruct (files v) as [|l0 fs], l as [|l]; try lia;
    [destruct l; constructor|]. simpl in *. rewrite drop_0 in Hd.
  destruct (nth_in_or_default l fs []) as [Hin|E]; [|rewrite E; constructor].
  rewrite Forall_forall in Hd. by apply Hd, list_elem_of_In.
Qed.

Lemma sort_files_spec fms :
  StronglySorted (λ a b, key_le (smallest_key a) (smallest_key b)) (sort_files fms) ∧
  sort_files fms ≡ₚ fms.
Proof.
  apply (sortb_spec (λ a b, bytes_ltb (smallest_key a) (smallest_key b))); intros; key_hyps;
    eauto with keystone.
Qed.

Lemma sort_files_perm fms : sort_files fms ≡ₚ fms.
Proof. apply sort_files_spec. Qed.

(** ** The populated levels *)

Lemma find_highest (P : nat → bool) n l :
  (l < n)%nat → P l = true → (l ≤ default 0 (List.find P (rev (seq 0 n))))%nat.
Proof.
  intros Hl Hp. induction n as [|n IH]; [lia|]. rewrite seq_S, rev_unit. simpl.
  destruct (P n) eqn:E; simpl; [lia|]. apply IH. destruct (decide (l = n)); [congruence|lia].
Qed.

Lemma max_populated_level_spec v l :
  length (files v) = kMaxLevels → files_at v l ≠ [] → (l ≤ max_populated_level v)%nat.
Proof.
  intros Hlen Hl. apply find_highest; [|by rewrite bool_decide_eq_false_2].
  destruct (Nat.lt_ge_cases l kMaxLevels); [done|]. destruct Hl. apply nth_overflow. lia.
Qed.

(** ** The three kinds of jobs *)

(** The files of a level that overlap a range, and a file that does not. *)
Lemma overlap_beside fms g lo hi :
  level_ok fms → g ∈ fms → key_le (smallest_key g) (largest_key g) → outside g lo hi = true →
  (key_lt hi (smallest_key g) ∧
    ∀ a, a ∈ fms → outside a lo hi = false → key_lt (largest_key a) (smallest_key g)) ∨
  (key_lt (largest_key g) lo ∧
    ∀ a, a ∈ fms → outside a lo hi = false → key_lt (largest_key g) (smallest_key a)).
Proof.
  intros Hl Hg Hr Hout. unfold outside in Hout. apply orb_prop in Hout as [Hlo|Hhi]; key_hyps.
  - right. split; [done|]. intros a Ha Ho. apply orb_false_elim in Ho as [Ho _]. key_hyps.
    destruct (sorted_cases _ _ _ _ Hl Ha Hg) as [->|[Hlt|Hlt]]; [|exfalso|done].
    + exfalso. apply (key_lt_irrefl lo). by eapply key_le_lt_trans.
    + apply (key_lt_irrefl lo). eapply key_le_lt_trans; [exact Ho|].
      eapply key_lt_trans; [exact Hlt|]. by eapply key_le_lt_trans.
  - left. split; [done|]. intros a Ha Ho. apply orb_false_elim in Ho as [_ Ho]. key_hyps.
    destruct (sorted_cases _ _ _ _ Hl Ha Hg) as [->|[Hlt|Hlt]]; [exfalso|done|exfalso].
    + apply (key_lt_irrefl hi). by eapply key_lt_le_trans.
    + apply (key_lt_irrefl hi). eapply key_lt_trans; [exact Hhi|].
      eapply key_le_lt_trans; [exact Hr|]. by eapply key_lt_le_trans.
Qed.

Lemma force_closed v :
  pickable v → (1 ≤ output_level (force_job v))%nat → job_closed v (force_job v).
Proof.
  intros Hv. unfold force_job. case_match; [|simpl; lia]. intros _.
  assert (∀ l g, g ∈ files_at v l → g ∈ mjoin (files v)) as Hin by (intros l g; apply files_at_elem).
  split; cbn [output_level inputs is_bottommost]; try by eauto.
  - unfold kMaxLevels. lia.
  - apply (NoDup_fmap_1 fm_number), Hv.
  - intros g Hg Hn. by destruct Hn; eauto.
  - intros l l' a g _ _ _ Hg Hn. by destruct Hn; eauto.
Qed.

Lemma filter_overlap_elem (fms : list FileMeta) lo hi g :
  g ∈ List.filter (λ fm, negb (outside fm lo hi)) fms ↔ g ∈ fms ∧ outside g lo hi = false.
Proof. by rewrite elem_of_filterb, negb_true_iff. Qed.

Lemma pickable_range v fm l :
  pickable v → fm ∈ files_at v l → key_le (smallest_key fm) (largest_key fm).
Proof.
  intros Hv Hfm%files_at_elem. pose proof (pk_ranges _ Hv) as Hr. rewrite Forall_forall in Hr. auto.
Qed.

Lemma pickable_nodup v : pickable v → NoDup (mjoin (files v)).
Proof. intros Hv. apply (NoDup_fmap_1 fm_number), Hv. Qed.

Lemma key_le_nonempty a b : key_le a b → a ≠ [] → b ≠ [].
Proof. intros Hle Ha ->. destruct a; [done|]. by destruct Hle. Qed.

Lemma l0_closed v : pickable v → job_closed v (l0_job v).
Proof.
  intros Hv. unfold l0_job. set (r := fold_left range_add (files_at v 0) ([], [])).
  assert (∀ a, a ∈ files_at v 0 → key_le r.1 (smallest_key a) ∧ key_le (largest_key a) r.2) as Hr.
  { apply range_add_spec. pose proof (pk_nonempty _ Hv) as Hne. rewrite Forall_forall in Hne |- *.
    intros fm Hfm. split; [by apply Hne|]. eapply key_le_nonempty; [|by apply Hne].
    by apply (pickable_range v fm 0). }
  pose proof (level_ok_at v 1 (pk_disjoint _ Hv) ltac:(lia)) as Hl1.
  assert (∀ a l, a ∈ files_at v 0 ++ List.filter (λ fm, negb (outside fm r.1 r.2)) (files_at v 1) →
    a ∈ files_at v l → (l ≤ 1)%nat) as Hlev.
  { intros a l [Ha|[Ha _]%filter_overlap_elem]%elem_of_app Hl;
      rewrite (nodup_levels _ _ _ _ (pickable_nodup v Hv) Hl Ha); lia. }
  split; cbn [output_level inputs is_bottommost].
  - unfold kMaxLevels. lia.
  - intros a [Ha|[Ha _]%filter_overlap_elem]%elem_of_app; by eapply files_at_elem.
  - apply NoDup_app. split_and!; [apply nodup_level; by apply pickable_nodup| |].
    + intros x H0 [H1 _]%filter_overlap_elem.
      by pose proof (nodup_levels _ _ _ _ (pickable_nodup v Hv) H0 H1).
    + apply NoDup_ListNoDup, List.NoDup_filter, NoDup_ListNoDup, nodup_level. by apply pickable_nodup.
  - intros g Hg Hn. rewrite elem_of_app, filter_overlap_elem in Hn.
    destruct (outside g r.1 r.2) eqn:Ho; [|naive_solver].
    destruct (overlap_beside _ g r.1 r.2 Hl1 Hg) as [[H1 H2]|[H1 H2]]; [by eapply pickable_range|done|..];
      [left|right]; intros a [Ha|[Ha Hoa]%filter_overlap_elem]%elem_of_app; auto;
      destruct (Hr a Ha); eauto using key_le_lt_trans, key_lt_le_trans.
  - intros l l' a g Hl Ha _ Hg Hn. assert (l' = 0%nat) as -> by lia. rewrite elem_of_app in Hn. tauto.
  - intros l l' a g Hl Ha Hin. specialize (Hlev a l Hin Ha). lia.
  - intros l g Hb Hl Hg. exfalso.
    assert (files_at v l ≠ []) as Hne by (intros E; rewrite E in Hg; by apply elem_of_nil in Hg).
    pose proof (max_populated_level_spec v l (pk_levels _ Hv) Hne).
    apply orb_prop in Hb as [Hb|Hb]; [apply Nat.leb_le in Hb|apply Nat.eqb_eq in Hb]; lia.
Qed.

Lemma pick_oldest_elem fms fm : pick_oldest fms = Some fm → fm ∈ fms.
Proof.
  unfold pick_oldest. intros E.
  enough (∀ p, fold_left (λ p fm, match p with None => Some fm | Some q =>
      if fm_number fm <? fm_number q then Some fm else Some q end) fms p = Some fm →
    p = Some fm ∨ fm ∈ fms) as He by (destruct (He None E); done).
  clear E. induction fms as [|x fms IH]; intros p E; simpl in E; [by left|].
  destruct (IH _ E) as [E'|?]; [|by right; right].
  destruct p as [q|]; [|injection E' as ->; right; by left].
  destruct (fm_number x <? fm_number q); [injection E' as ->; right; by left|by left].
Qed.

Lemma overflow_closed o v levels :
  pickable v → Forall (λ l, (1 ≤ l)%nat ∧ (S l < kMaxLevels)%nat) levels →
  inputs (overflow_job o v levels) ≠ [] → job_closed v (overflow_job o v levels).
Proof.
  intros Hv. induction 1 as [|l levels [Hl Hl'] _ IH]; [done|]. cbn [overflow_job].
  destruct (_ <=? _); [done|]. destruct (pick_oldest (files_at v l)) as [p|] eqn:Ep; [|done]. intros _.
  apply pick_oldest_elem in Ep. pose proof (pickable_nodup v Hv) as Hnd.
  pose proof (level_ok_at v (S l) (pk_disjoint _ Hv) ltac:(lia)) as Hln.
  pose proof (level_ok_at v l (pk_disjoint _ Hv) Hl) as Hll.
  split; cbn [output_level inputs is_bottommost].
  - lia.
  - intros a [->|[Ha _]%filter_overlap_elem]%elem_of_cons; by eapply files_at_elem.
  - constructor.
    + intros [Hin _]%filter_overlap_elem. pose proof (nodup_levels _ _ _ _ Hnd Ep Hin). lia.
    + apply NoDup_ListNoDup, List.NoDup_filter, NoDup_ListNoDup, nodup_level, Hnd.
  - intros g Hg Hn. rewrite elem_of_cons, filter_overlap_elem in Hn.
    destruct (outside g (smallest_key p) (largest_key p)) eqn:Ho; [|naive_solver].
    destruct (overlap_beside _ g (smallest_key p) (largest_key p) Hln Hg) as [[H1 H2]|[H1 H2]]; [by eapply pickable_range|exact Ho|..];
      [left|right]; intros a [->|[Ha Hoa]%filter_overlap_elem]%elem_of_cons; auto.
  - intros l1 l2 a g Hl12 Ha Hin Hg Hn. rewrite elem_of_cons, filter_overlap_elem in Hin, Hn.
    destruct Hin as [->|[Hin _]]; [|pose proof (nodup_levels _ _ _ _ Hnd Ha Hin); lia].
    assert (l1 = l) as -> by (by eapply nodup_levels). assert (l2 = l) as -> by lia.
    split; [lia|]. destruct (sorted_cases _ _ _ _ Hll Ep Hg) as [->|Hc]; [tauto|exact Hc].
  - intros l1 l2 a g Hlt Ha Hin. exfalso. rewrite elem_of_cons, filter_overlap_elem in Hin.
    destruct Hin as [->|[Hin _]];
      [pose proof (nodup_levels _ _ _ _ Hnd Ha Ep)|pose proof (nodup_levels _ _ _ _ Hnd Ha Hin)]; lia.
  - intros l1 g Hb Hlt Hg. exfalso.
    assert (files_at v l1 ≠ []) as Hne by (intros E; rewrite E in Hg; by apply elem_of_nil in Hg).
    pose proof (max_populated_level_spec v l1 (pk_levels _ Hv) Hne).
    apply Nat.leb_le in Hb. lia.
Qed.

(** Every job that is not a rewrite of a single file is closed. *)
Lemma pick_closed o force v :
  pickable v → let job := pick_compaction o force v in
  inputs job ≠ [] → (1 ≤ output_level job)%nat → job_closed v job.
Proof.
  intros Hv job Hin Hout. subst job. unfold pick_compaction in *. destruct force; [by apply force_closed|].
  destruct (_ <=? _); [by apply l0_closed|]. apply overflow_closed; [done| |done].
  unfold kMaxLevels. simpl. repeat constructor; lia.
Qed.

(** ** Layers *)

Lemma layered_index ls :
  layered ls ↔ ∀ i j l l' e e', (i < j)%nat → ls !! i = Some l → ls !! j = Some l' →
    e ∈ l → e' ∈ l' → e_key e = e_key e' → e_seq e' ≤ e_seq e ∨ e' ∈ l.
Proof.
  induction ls as [|l0 ls IH]; [by split|]. cbn [layered]. rewrite IH. split.
  - intros [H0 Hls] [|i] [|j] l l' e e' Hij Hi Hj He He' Hk; try lia; simpl in *.
    + injection Hi as <-. apply H0; [done| |done]. apply list_elem_of_join. exists l'.
      split; [done|]. by eapply list_elem_of_lookup_2.
    + apply (Hls i j l l'); by auto with lia.
  - intros H0. split.
    + intros e e' He (l' & He' & (j & Hj)%list_elem_of_lookup)%list_elem_of_join Hk.
      by apply (H0 0%nat (S j) l0 l' e e' ltac:(lia)).
    + intros i j l l' e e' Hij Hi Hj. by apply (H0 (S i) (S j) l l' e e' ltac:(lia)).
Qed.

(** Only the members of the layers count, and empty layers do not. *)
Lemma layered_equiv ls ls' :
  Forall2 (λ l l', ∀ e, e ∈ l ↔ e ∈ l') ls ls' → layered ls → layered ls'.
Proof.
  rewrite !layered_index. intros Hf Hl i j l l' e e' Hij Hi Hj He He' Hk.
  destruct (Forall2_lookup_r _ _ _ _ _ Hf Hi) as (m & Hm & Em).
  destruct (Forall2_lookup_r _ _ _ _ _ Hf Hj) as (m' & Hm' & Em').
  rewrite <- Em. apply (Hl i j m m' e e'); by rewrite ?Em, ?Em'.
Qed.

Lemma layered_drop_empty {A} (P : A → bool) (f : A → list Entry) l ls :
  layered (((λ x, if P x then f x else []) <$> l) ++ ls) → layered ((f <$> List.filter P l) ++ ls).
Proof.
  induction l as [|x l IH]; [done|]. rewrite fmap_cons. cbn [app layered List.filter].
  intros [Hx Hl]. specialize (IH Hl). destruct (P x); [|done]. rewrite fmap_cons. cbn [app layered].
  split; [|done]. intros e e' He He'. apply Hx; [done|]. revert He'. clear.
  rewrite !join_app, !elem_of_app. intros [(m & Hm & (y & -> & [Hy Hp]%elem_of_filterb)
    %list_elem_of_fmap)%list_elem_of_join|?]; [left|by right].
  apply list_elem_of_join. exists (f y). split; [done|]. apply list_elem_of_fmap. exists y.
  by rewrite Hp.
Qed.

Section Replace.
Context (ents : Z → list Entry) (sel : FileMeta → bool) (p : nat) (K : list Entry).

(** Two files have no key in common. *)
Definition keys_apart (a b : FileMeta) : Prop :=
  ∀ e e', e ∈ ents (fm_number a) → e' ∈ ents (fm_number b) → e_key e ≠ e_key e'.

Definition stays (fms : list FileMeta) : list FileMeta := List.filter (λ fm, negb (sel fm)) fms.

(** The selected files leave their groups and [K] joins group [p]. *)
Definition replaced (gs : list (list FileMeta)) : list (list Entry) :=
  <[p := file_entries ents (stays (nth p gs [])) ++ K]> ((λ g, file_entries ents (stays g)) <$> gs).

Lemma stays_elem e fms :
  e ∈ file_entries ents (stays fms) ↔ ∃ a, a ∈ fms ∧ sel a = false ∧ e ∈ ents (fm_number a).
Proof.
  rewrite file_entries_elem. unfold stays. split.
  - intros (a & [Ha Hs]%elem_of_filterb & He). apply negb_true_iff in Hs. eauto.
  - intros (a & Ha & Hs & He). exists a. rewrite elem_of_filterb, Hs. auto.
Qed.

Lemma stays_app a b : stays (a ++ b) = stays a ++ stays b.
Proof. apply List.filter_app. Qed.

Lemma stays_mjoin fs : mjoin (stays <$> fs) = stays (mjoin fs).
Proof. induction fs as [|f fs IH]; [done|]. by rewrite fmap_cons, !mjoin_cons, stays_app, IH. Qed.

Lemma replaced_lookup gs i l e :
  replaced gs !! i = Some l → e ∈ l →
  (∃ g a, gs !! i = Some g ∧ a ∈ g ∧ sel a = false ∧ e ∈ ents (fm_number a)) ∨ i = p ∧ e ∈ K.
Proof.
  unfold replaced. intros Hl He. destruct (decide (i = p)) as [->|Hne].
  - assert (p < length gs)%nat as Hp.
    { apply lookup_lt_Some in Hl. by rewrite length_insert, length_fmap in Hl. }
    rewrite list_lookup_insert_eq in Hl by (by rewrite length_fmap). injection Hl as <-.
    apply elem_of_app in He as [(a & Ha & Hs & He)%stays_elem|He]; [left|by right].
    destruct (lookup_lt_is_Some_2 gs p Hp) as [g Hg]. rewrite (nth_lookup_Some _ _ _ _ Hg) in Ha. eauto 6.
  - rewrite list_lookup_insert_ne, list_lookup_fmap in Hl by done.
    destruct (gs !! i) as [g|] eqn:Hg; [|done]. injection Hl as <-. left.
    apply stays_elem in He as (a & Ha & Hs & He). eauto 6.
Qed.

Lemma replaced_stays gs i l g a e :
  replaced gs !! i = Some l → gs !! i = Some g → a ∈ g → sel a = false → e ∈ ents (fm_number a) → e ∈ l.
Proof.
  intros Hl Hg Ha Hs He. assert (e ∈ file_entries ents (stays g)) as Hin by (apply stays_elem; eauto).
  unfold replaced in Hl. destruct (decide (i = p)) as [->|Hne].
  - rewrite list_lookup_insert_eq in Hl by (rewrite length_fmap; by eapply lookup_lt_Some).
    injection Hl as <-. rewrite (nth_lookup_Some _ _ _ _ Hg). apply elem_of_app. by left.
  - rewrite list_lookup_insert_ne, list_lookup_fmap, Hg in Hl by done. by injection Hl as <-.
Qed.

Lemma replaced_kept gs l e : replaced gs !! p = Some l → e ∈ K → e ∈ l.
Proof.
  intros Hl He. unfold replaced in Hl. pose proof (lookup_lt_Some _ _ _ Hl) as Hp.
  rewrite length_insert in Hp. rewrite list_lookup_insert_eq in Hl by done. injection Hl as <-.
  apply elem_of_app. by right.
Qed.

(** A replacement keeps the layers in order, when [K] comes from the selected
    files and is closed under newer versions, when what stays on the way from
    a selected file to group [p] shares no key with it, and when files selected
    below [p] leave nothing behind. *)
Lemma layered_replace gs :
  layered (file_entries ents <$> gs) →
  (∀ e, e ∈ K → ∃ i g a, gs !! i = Some g ∧ a ∈ g ∧ sel a = true ∧ e ∈ ents (fm_number a)) →
  (∀ e i g a e', e ∈ K → gs !! i = Some g → a ∈ g → sel a = true → e' ∈ ents (fm_number a) →
    e_key e = e_key e' → e_seq e' ≤ e_seq e ∨ e' ∈ K) →
  (∀ i j g g' a b, (i ≤ j ≤ p)%nat → gs !! i = Some g → gs !! j = Some g' → a ∈ g → sel a = true →
    b ∈ g' → sel b = false → keys_apart a b) →
  (∀ i j g g' a b, (p < i)%nat → (p ≤ j)%nat → gs !! i = Some g → gs !! j = Some g' → a ∈ g →
    sel a = true → b ∈ g' → sel b = false → False) →
  layered (replaced gs).
Proof.
  intros Hlay HK Hclosed Hdisj Hlow. rewrite layered_index in Hlay |- *.
  assert (∀ i g e, gs !! i = Some g → (∃ a, a ∈ g ∧ e ∈ ents (fm_number a)) →
    ∃ l, (file_entries ents <$> gs) !! i = Some l ∧ e ∈ l) as Hold.
  { intros i g e Hg Ha. exists (file_entries ents g). rewrite list_lookup_fmap, Hg.
    split; [done|]. apply file_entries_elem. naive_solver. }
  (* what a file that stays says about an entry of a lower group *)
  assert (∀ i j l g a e e', (i < j)%nat → replaced gs !! i = Some l → gs !! i = Some g → a ∈ g →
    sel a = false → e ∈ ents (fm_number a) →
    (∃ g' b, gs !! j = Some g' ∧ b ∈ g' ∧ e' ∈ ents (fm_number b)) → e_key e = e_key e' →
    e_seq e' ≤ e_seq e ∨ e' ∈ l) as Hstay.
  { intros i j l g a e e' Hij Hl Hg Ha Hs He (g' & b & Hg' & Hb & He') Hk.
    destruct (Hold j g' e' Hg') as (m' & Hm' & Hin'); [eauto|].
    destruct (Hlay i j (file_entries ents g) m' e e' Hij) as [?|Hin]; [|done| |done|done|by left|].
    - by rewrite list_lookup_fmap, Hg.
    - apply file_entries_elem. eauto.
    - apply file_entries_elem in Hin as (c & Hc & Hec). right.
      destruct (sel c) eqn:Hsc; [|by eapply (replaced_stays gs i l g c)]. exfalso.
      destruct (Nat.le_gt_cases i p) as [Hip|Hip].
      + apply (Hdisj i i g g c a ltac:(lia) Hg Hg Hc Hsc Ha Hs e' e); done.
      + by apply (Hlow i i g g c a Hip ltac:(lia) Hg Hg Hc Hsc Ha Hs). }
  intros i j l l' e e' Hij Hl Hl' He He' Hk.
  destruct (replaced_lookup gs i l e Hl He) as [(g & a & Hg & Ha & Hs & Hea)|[-> HeK]],
    (replaced_lookup gs j l' e' Hl' He') as [(g' & b & Hg' & Hb & Hsb & Heb)|[-> HeK']]; [| | |lia].
  - apply (Hstay i j l g a e e'); by eauto.
  - destruct (HK e' HeK') as (q & g' & b & Hg' & Hb & Hsb & Heb).
    destruct (Nat.lt_ge_cases i q) as [Hiq|Hqi]; [apply (Hstay i q l g a e e'); by eauto|]. exfalso.
    by apply (Hdisj q i g' g b a ltac:(lia) Hg' Hg Hb Hsb Ha Hs e' e).
  - destruct (HK e HeK) as (q & g & a & Hg & Ha & Hsa & Hea).
    destruct (Nat.le_gt_cases q p) as [Hqp|Hqp]; [|by destruct (Hlow q j g g' a b Hqp ltac:(lia) Hg Hg' Ha Hsa Hb Hsb)].
    destruct (Hold j g' e' Hg') as (m' & Hm' & Hin'); [eauto|].
    destruct (Hlay q j (file_entries ents g) m' e e' ltac:(lia)) as [?|Hin]; [|done| |done|done|by left|].
    + by rewrite list_lookup_fmap, Hg.
    + apply file_entries_elem. eauto.
    + apply file_entries_elem in Hin as (c & Hc & Hec). destruct (sel c) eqn:Hsc.
      * destruct (Hclosed e q g c e' HeK Hg Hc Hsc Hec Hk) as [?|?]; [by left|right].
        by eapply replaced_kept.
      * exfalso. by apply (Hdisj q q g g a c ltac:(lia) Hg Hg Ha Hsa Hc Hsc e e').
Qed.

End Replace.

(** ** The commit of a job *)

(** Flushes since the version [snap] have added [news] to level 0. *)
Definition extends (snap : Version) (news : list FileMeta) (cur : Version) : Prop :=
  files cur = (files_at snap 0 ++ news) :: drop 1 (files snap).

(** The files in the order in which a read visits them: each file of level 0 by
    itself, then the levels. *)
Definition groups (v : Version) : list (list FileMeta) :=
  ((λ fm, [fm]) <$> rev (files_at v 0)) ++ drop 1 (files v).

Lemma groups_layers ents v : file_entries ents <$> groups v = version_layers ents v.
Proof.
  unfold groups, version_layers. rewrite fmap_app. f_equal. rewrite <- list_fmap_compose.
  apply list_fmap_ext. intros i fm _. unfold compose. by rewrite file_entries_cons, app_nil_r.
Qed.

Lemma file_entries_app ents a b : file_entries ents (a ++ b) = file_entries ents a ++ file_entries ents b.
Proof. unfold file_entries. apply bind_app. Qed.

Lemma file_entries_perm ents a b : a ≡ₚ b → file_entries ents a ≡ₚ file_entries ents b.
Proof. intros Hp. unfold file_entries. by rewrite Hp. Qed.

Lemma file_entries_mjoin ents fs : mjoin (file_entries ents <$> fs) = file_entries ents (mjoin fs).
Proof. induction fs as [|f fs IH]; [done|]. by rewrite fmap_cons, !mjoin_cons, file_entries_app, IH. Qed.

Lemma version_entries_files ents v :
  files v ≠ [] → mjoin (version_layers ents v) ≡ₚ file_entries ents (mjoin (files v)).
Proof.
  intros Hne. rewrite <- groups_layers, file_entries_mjoin. apply file_entries_perm. unfold groups, files_at.
  destruct (files v) as [|l0 ls]; [done|]. cbn [nth drop]. rewrite drop_0, join_app, mjoin_cons. f_equiv.
  rewrite <- (Permutation_rev l0). clear. induction l0 as [|fm l0 IH]; [done|].
  rewrite fmap_cons, mjoin_cons, IH. done.
Qed.

Section Commit.
Context (ents : Z → list Entry) (snap cur : Version) (news : list FileMeta) (job : CompactionJob).
Hypotheses (Hext : extends snap news cur) (Hlen : length (files snap) = kMaxLevels)
  (Hjob : job_closed snap job) (Hnd : NoDup (fm_number <$> mjoin (files cur)))
  (Hrange : Forall (λ fm, Forall (λ e, key_le (smallest_key fm) (e_key e) ∧
    key_le (e_key e) (largest_key fm)) (ents (fm_number fm))) (mjoin (files cur))).

Local Abbreviation out := (output_level job).
Local Abbreviation stay := (stays (is_input job)).

Lemma cur_level l : (1 ≤ l)%nat → files_at cur l = files_at snap l.
Proof using Hext Hlen.
  intros Hl. unfold files_at. rewrite Hext. destruct l as [|l]; [lia|]. simpl.
  by destruct (files snap); [destruct l|].
Qed.

Lemma cur_files : mjoin (files cur) = (files_at snap 0 ++ news) ++ mjoin (drop 1 (files snap)).
Proof using Hext. by rewrite Hext, mjoin_cons. Qed.

Lemma snap_elem fm : fm ∈ mjoin (files snap) → fm ∈ mjoin (files cur).
Proof using Hext Hlen.
  rewrite cur_files. unfold files_at. destruct (files snap) as [|l0 ls]; [done|].
  cbn [nth drop]. rewrite drop_0, mjoin_cons, !elem_of_app. tauto.
Qed.

Lemma same_number a b :
  a ∈ mjoin (files cur) → b ∈ mjoin (files cur) → fm_number a = fm_number b → a = b.
Proof using Hnd. by apply NoDup_fmap_elem. Qed.

Lemma is_input_spec fm : fm ∈ mjoin (files cur) → is_input job fm = true ↔ fm ∈ inputs job.
Proof using All.
  intros Hfm. unfold is_input. rewrite bool_decide_eq_true, list_elem_of_fmap. split.
  - intros (a & E & Ha). by rewrite (same_number fm a Hfm (snap_elem _ (jc_inputs _ _ Hjob a Ha)) E).
  - intros Hin. by exists fm.
Qed.

Lemma not_input fm : fm ∈ mjoin (files cur) → is_input job fm = false ↔ fm ∉ inputs job.
Proof using All. intros Hfm. rewrite <- is_input_spec by done. by rewrite not_true_iff_false. Qed.

Lemma news_not_input fm : fm ∈ news → fm ∈ inputs job → False.
Proof using All.
  intros Hn Hin%(jc_inputs _ _ Hjob). pose proof (NoDup_fmap_1 _ _ Hnd) as Hd. rewrite cur_files in Hd.
  apply NoDup_app in Hd as ((_ & Hd1 & _)%NoDup_app & Hd2 & _).
  unfold files_at in Hd1, Hd2. destruct (files snap) as [|l0 ls]; [done|].
  cbn [nth drop] in *. rewrite drop_0 in Hd2. rewrite mjoin_cons, elem_of_app in Hin. destruct Hin as [Hin|Hin].
  - by apply (Hd1 fm).
  - apply (Hd2 fm); [|done]. apply elem_of_app. by right.
Qed.

(** The level of a group. *)
Lemma groups_lookup i g a :
  groups cur !! i = Some g → a ∈ g →
  a ∈ mjoin (files cur) ∧
  ((i < length news)%nat ∧ a ∈ news ∨
   (length news ≤ i < length news + length (files_at snap 0))%nat ∧ a ∈ files_at snap 0 ∨
   ∃ l, (1 ≤ l)%nat ∧ i = (length news + length (files_at snap 0) + l - 1)%nat ∧ a ∈ files_at snap l).
Proof using Hext Hlen.
  unfold groups. assert (files_at cur 0 = files_at snap 0 ++ news) as E0
    by (unfold files_at at 1; by rewrite Hext).
  assert (drop 1 (files cur) = drop 1 (files snap)) as Ed by (rewrite Hext; by rewrite skipn_cons, drop_0).
  rewrite E0, Ed, rev_app_distr, fmap_app, <- (assoc_L (++)). intros Hg Ha. rewrite cur_files, !elem_of_app.
  apply lookup_app_Some in Hg as [Hg|[Hi Hg]].
  { pose proof (lookup_lt_Some _ _ _ Hg) as Hlt. rewrite length_fmap, length_rev in Hlt.
    rewrite list_lookup_fmap in Hg. destruct (rev news !! i) as [x|] eqn:Ex; [|done].
    injection Hg as <-. apply list_elem_of_singleton in Ha as ->.
    apply list_elem_of_lookup_2 in Ex. rewrite elem_of_rev in Ex. auto. }
  rewrite length_fmap, length_rev in *. apply lookup_app_Some in Hg as [Hg|[Hi' Hg]].
  { pose proof (lookup_lt_Some _ _ _ Hg) as Hlt. rewrite length_fmap, length_rev in Hlt.
    rewrite list_lookup_fmap in Hg. destruct (rev (files_at snap 0) !! _) as [x|] eqn:Ex; [|done].
    injection Hg as <-. apply list_elem_of_singleton in Ha as ->.
    apply list_elem_of_lookup_2 in Ex. rewrite elem_of_rev in Ex.
    split; [auto|]. right. left. split; [lia|done]. }
  rewrite length_fmap, length_rev in *. rewrite lookup_drop in Hg.
  assert (g ∈ drop 1 (files snap)) as Hgin.
  { rewrite <- lookup_drop in Hg. by eapply list_elem_of_lookup_2. }
  split; [right; apply list_elem_of_join; by exists g|]. do 2 right.
  exists (1 + (i - length news - length (files_at snap 0)))%nat. split_and!; [lia|lia|].
  assert (files_at snap (1 + (i - length news - length (files_at snap 0))) = g) as ->; [|done].
  by apply nth_lookup_Some.
Qed.

Lemma ranges_keys_apart a b :
  a ∈ mjoin (files cur) → b ∈ mjoin (files cur) → ranges_apart a b → keys_apart ents a b.
Proof using Hrange.
  intros Ha Hb Hap e e' He He' Hk. rewrite Forall_forall in Hrange.
  pose proof (Hrange a Ha) as Ra. pose proof (Hrange b Hb) as Rb. rewrite Forall_forall in Ra, Rb.
  destruct (Ra e He) as [Ra1 Ra2], (Rb e' He') as [Rb1 Rb2]. rewrite <- Hk in Rb1, Rb2.
  apply (key_lt_irrefl (e_key e)). destruct Hap as [Hap|Hap].
  - eapply key_le_lt_trans; [exact Ra2|]. by eapply key_lt_le_trans.
  - eapply key_le_lt_trans; [exact Rb2|]. by eapply key_lt_le_trans.
Qed.

Lemma beside_apart a b :
  a ∈ inputs job → b ∈ files_at snap out → b ∉ inputs job → ranges_apart a b.
Proof using Hjob.
  intros Ha Hb Hn. destruct (jc_beside _ _ Hjob b Hb Hn) as [Hab|Hab]; [left|right]; auto.
Qed.

(** Where the outputs go among the groups. *)
Definition out_group : nat := (length news + length (files_at snap 0) + out - 1)%nat.

Lemma commit_disjoint i j g g' a b :
  (i ≤ j ≤ out_group)%nat → groups cur !! i = Some g → groups cur !! j = Some g' →
  a ∈ g → is_input job a = true → b ∈ g' → is_input job b = false → keys_apart ents a b.
Proof using All.
  unfold out_group. intros Hij Hg Hg' Ha Hsa Hb Hsb.
  destruct (groups_lookup i g a Hg Ha) as [Hac Hia]. destruct (groups_lookup j g' b Hg' Hb) as [Hbc Hjb].
  rewrite is_input_spec in Hsa by done. rewrite not_input in Hsb by done.
  apply ranges_keys_apart; [done..|]. pose proof (jc_out _ _ Hjob).
  destruct Hia as [[_ Hn]|[[Hi Ha0]|(l & Hl & -> & Hal)]]; [by destruct (news_not_input a)|..].
  - destruct Hjb as [[? _]|[[_ Hb0]|(l' & Hl' & -> & Hbl)]]; [lia|..].
    + destruct (jc_above _ _ Hjob 0 0 a b); by auto with lia.
    + destruct (decide (l' = out)) as [->|Hne]; [by apply beside_apart|].
      destruct (jc_above _ _ Hjob 0 l' a b); by auto with lia.
  - destruct Hjb as [[? _]|[[? _]|(l' & Hl' & -> & Hbl)]]; [lia|lia|].
    destruct (decide (l' = out)) as [->|Hne]; [by apply beside_apart|].
    destruct (jc_above _ _ Hjob l l' a b); by auto with lia.
Qed.

Lemma commit_below i j g g' a b :
  (out_group < i)%nat → (out_group ≤ j)%nat → groups cur !! i = Some g → groups cur !! j = Some g' →
  a ∈ g → is_input job a = true → b ∈ g' → is_input job b = false → False.
Proof using All.
  unfold out_group. intros Hi Hj Hg Hg' Ha Hsa Hb Hsb.
  destruct (groups_lookup i g a Hg Ha) as [Hac Hia]. destruct (groups_lookup j g' b Hg' Hb) as [Hbc Hjb].
  rewrite is_input_spec in Hsa by done. rewrite not_input in Hsb by done. pose proof (jc_out _ _ Hjob).
  destruct Hia as [[? _]|[[? _]|(l & Hl & -> & Hal)]]; [lia|lia|].
  destruct Hjb as [[? _]|[[? _]|(l' & Hl' & -> & Hbl)]]; [lia|lia|].
  apply Hsb, (jc_below _ _ Hjob l l' a b); by auto with lia.
Qed.

(** *** The files after the commit *)

Lemma stay_inputs : mjoin (files cur) ≡ₚ stay (mjoin (files cur)) ++ inputs job.
Proof using All.
  rewrite (filter_split (is_input job) (mjoin (files cur))) at 1. apply Permutation_app; [done|].
  apply NoDup_Permutation.
  - apply NoDup_ListNoDup, List.NoDup_filter, NoDup_ListNoDup. by apply (NoDup_fmap_1 fm_number).
  - apply Hjob.
  - intros fm. rewrite elem_of_filterb. split.
    + intros [Hfm Hin]. by apply is_input_spec.
    + intros Hin. assert (fm ∈ mjoin (files cur)) by (by apply snap_elem, (jc_inputs _ _ Hjob)).
      by rewrite is_input_spec.
Qed.

Context (outs : list FileMeta) (Houts : outs ≠ []).

Lemma commit_eq :
  files (commit cur job outs) =
    stay (files_at snap 0 ++ news) ::
    <[(out - 1)%nat := sort_files (stay (files_at snap out) ++ outs)]> (stay <$> drop 1 (files snap)).
Proof using All.
  unfold commit. destruct outs as [|x outs'] eqn:E; [done|]. rewrite <- E. cbn [files].
  pose proof (jc_out _ _ Hjob) as Hout. rewrite (proj2 (Nat.leb_le 1 out)) by lia.
  rewrite Hext, fmap_cons. destruct out as [|n] eqn:En; [lia|]. cbn [nth Nat.sub].
  rewrite Nat.sub_0_r. cbn [insert list_insert]. do 3 f_equal. f_equal.
  unfold files_at. destruct (files snap) as [|l0 ls]; [done|]. cbn [drop nth]. rewrite drop_0.
  assert (stay [] = []) as E0 by done. rewrite <- E0 at 1. apply map_nth.
Qed.

Lemma commit_files : mjoin (files (commit cur job outs)) ≡ₚ stay (mjoin (files cur)) ++ outs.
Proof using All.
  pose proof (jc_out _ _ Hjob) as Hout.
  assert (files_at snap out = nth (out - 1) (drop 1 (files snap)) []) as E.
  { unfold files_at. destruct (files snap) as [|l0 ls]; [done|]. destruct out as [|n]; [lia|].
    cbn [nth drop]. by rewrite Nat.sub_succ, Nat.sub_0_r, drop_0. }
  rewrite commit_eq, mjoin_cons, cur_files, !stays_app, E, <- !(assoc_L (++)).
  do 2 (apply Permutation_app; [done|]). rewrite <- stays_mjoin. apply mjoin_insert_app.
  - rewrite length_fmap, length_drop, Hlen. unfold kMaxLevels in *. lia.
  - rewrite sort_files_perm. apply Permutation_app; [|done].
    by rewrite <- (map_nth stay (drop 1 (files snap)) []).
Qed.

(** *** What readers see *)

Context (oldest : Z) (l : list Entry).
Hypotheses (Hl : sorted_entries l) (Hperm : l ≡ₚ file_entries ents (inputs job))
  (Hkept : file_entries ents outs ≡ₚ kept oldest (is_bottommost job) ([], false) l).

Local Abbreviation survivors := (kept oldest (is_bottommost job) ([], false) l).

Lemma group_of fm : fm ∈ mjoin (files cur) → ∃ i g, groups cur !! i = Some g ∧ fm ∈ g.
Proof using Hext Hlen.
  intros Hc. enough (∃ g, g ∈ groups cur ∧ fm ∈ g) as (g & (i & Hi)%list_elem_of_lookup & Hg) by eauto.
  unfold groups, files_at. rewrite Hext in Hc |- *. cbn [nth drop]. rewrite drop_0.
  rewrite mjoin_cons, elem_of_app in Hc.
  destruct Hc as [Hc|(g & Hg & Hin)%list_elem_of_join].
  - exists [fm]. split; [|by left]. apply elem_of_app. left. apply list_elem_of_fmap. exists fm.
    by rewrite elem_of_rev.
  - exists g. split; [|done]. apply elem_of_app. by right.
Qed.

Lemma input_group a :
  a ∈ inputs job → ∃ i g, groups cur !! i = Some g ∧ a ∈ g ∧ is_input job a = true.
Proof using All.
  intros Ha. pose proof (snap_elem _ (jc_inputs _ _ Hjob a Ha)) as Hc.
  destruct (group_of a Hc) as (i & g & Hi & Hg). exists i, g. split_and!; [done..|].
  by apply is_input_spec.
Qed.

Lemma survivor_input e : e ∈ survivors → ∃ a, a ∈ inputs job ∧ e ∈ ents (fm_number a).
Proof using Hperm.
  intros He%kept_elem. rewrite Hperm, file_entries_elem in He. done.
Qed.

Lemma commit_replaced_layered :
  layered (version_layers ents cur) →
  layered (replaced ents (is_input job) out_group survivors (groups cur)).
Proof using All.
  intros Hlay. rewrite <- groups_layers in Hlay. apply layered_replace; [done|..].
  - intros e (a & Ha & He)%survivor_input. destruct (input_group a Ha) as (i & g & ? & ? & ?). eauto 8.
  - intros e i g a e' He Hg Ha Hs He' Hk. apply (kept_closed _ _ _ _ e e' Hl He); [|done].
    rewrite Hperm, file_entries_elem. exists a. split; [|done].
    apply is_input_spec; [|done]. by eapply groups_lookup.
  - apply commit_disjoint.
  - apply commit_below.
Qed.

Lemma commit_layered :
  layered (version_layers ents cur) → layered (version_layers ents (commit cur job outs)).
Proof using All.
  intros Hlay%commit_replaced_layered. unfold version_layers, files_at at 1.
  rewrite commit_eq. cbn [nth drop]. rewrite drop_0.
  assert (rev (stay (files_at snap 0 ++ news)) = stay (rev (files_at snap 0 ++ news))) as ->
    by (symmetry; apply List.filter_rev).
  apply layered_drop_empty. eapply layered_equiv; [|exact Hlay]. unfold replaced, out_group, groups.
  assert (files_at cur 0 = files_at snap 0 ++ news) as -> by (unfold files_at at 1; by rewrite Hext).
  assert (drop 1 (files cur) = drop 1 (files snap)) as -> by (rewrite Hext; by rewrite skipn_cons, drop_0).
  pose proof (jc_out _ _ Hjob) as Hout.
  set (singles := (λ fm, [fm]) <$> rev (files_at snap 0 ++ news)).
  assert (length news + length (files_at snap 0) + out - 1 = length singles + (out - 1))%nat as ->
    by (subst singles; rewrite length_fmap, length_rev, length_app; lia).
  rewrite app_nth2_plus, fmap_app.
  rewrite <- (length_fmap (λ g, file_entries ents (stay g)) singles) at 1.
  rewrite insert_app_r. apply Forall2_app.
  - subst singles. rewrite <- list_fmap_compose. apply Forall2_fmap, Forall_Forall2_diag, Forall_true.
    intros fm e. unfold compose, stays. cbn [List.filter].
    destruct (is_input job fm); cbn [negb]; [done|]. by rewrite file_entries_cons, app_nil_r.
  - assert (files_at snap out = nth (out - 1) (drop 1 (files snap)) []) as ->.
    { unfold files_at. destruct (files snap) as [|l0 ls]; [done|]. destruct out as [|n]; [lia|].
      cbn [nth drop]. by rewrite Nat.sub_succ, Nat.sub_0_r, drop_0. }
    rewrite list_fmap_insert, <- list_fmap_compose. apply Forall2_insert.
    + apply Forall2_fmap, Forall_Forall2_diag, Forall_true. done.
    + intros e. rewrite (file_entries_perm _ _ _ (sort_files_perm _)), file_entries_app, !elem_of_app.
      by rewrite Hkept.
Qed.

(** A bottommost job leaves no older version of its keys behind. *)
Lemma commit_bottom mes e e' :
  layered (mes :: version_layers ents cur) → is_bottommost job = true →
  e ∈ file_entries ents (inputs job) →
  e' ∈ mes ++ file_entries ents (stay (mjoin (files cur))) → e_key e = e_key e' →
  e_seq e ≤ e_seq e' ∨ e ∈ mes ++ file_entries ents (stay (mjoin (files cur))).
Proof using All.
  intros [Hmes Hlay] Hbot (a & Ha & He)%file_entries_elem He' Hk. rewrite elem_of_app in He' |- *.
  rewrite <- groups_layers in Hmes, Hlay. rewrite layered_index in Hlay.
  destruct (input_group a Ha) as (q & ga & Hga & Haq & Hsa).
  assert (e ∈ file_entries ents ga) as Hea by (apply file_entries_elem; eauto).
  destruct He' as [He'|(b & Hb & Hsb & He')%stays_elem].
  - destruct (Hmes e' e He'); [|done|by left|by right; left].
    apply list_elem_of_join. exists (file_entries ents ga). split; [done|].
    apply list_elem_of_fmap. exists ga. split; [done|]. by eapply list_elem_of_lookup_2.
  - destruct (group_of b Hb) as (j & gb & Hgb & Hbj).
    destruct (Nat.lt_ge_cases j q) as [Hjq|Hqj].
    + destruct (Hlay j q (file_entries ents gb) (file_entries ents ga) e' e Hjq) as [?|Hin];
        [by rewrite list_lookup_fmap, ?Hgb, ?Hga..|apply file_entries_elem; by eauto|done|done|by left|].
      apply file_entries_elem in Hin as (c & Hc & Hec). destruct (is_input job c) eqn:Hsc.
      * exfalso. destruct (Nat.le_gt_cases j out_group) as [Hjp|Hjp].
        -- apply (commit_disjoint j j gb gb c b ltac:(lia) Hgb Hgb Hc Hsc Hbj Hsb e e'); done.
        -- by apply (commit_below j j gb gb c b Hjp ltac:(lia) Hgb Hgb Hc Hsc Hbj Hsb).
      * right. right. apply stays_elem. exists c. split_and!; [|done|done].
        by eapply groups_lookup.
    + exfalso. destruct (Nat.le_gt_cases j out_group) as [Hjp|Hjp].
      * by apply (commit_disjoint q j ga gb a b ltac:(lia) Hga Hgb Haq Hsa Hbj Hsb e e').
      * pose proof (jc_out _ _ Hjob). unfold out_group in Hjp.
        destruct (groups_lookup j gb b Hgb Hbj) as [_ [[? _]|[[? _]|(lv & Hlv & -> & Hbl)]]]; [lia|lia|].
        apply (not_input b Hb) in Hsb. apply Hsb, (jc_bottom _ _ Hjob lv b Hbot); [lia|done].
Qed.

Lemma commit_entries mes :
  mjoin (mes :: version_layers ents cur) ≡ₚ
    (mes ++ file_entries ents (stay (mjoin (files cur)))) ++ file_entries ents (inputs job) ∧
  mjoin (mes :: version_layers ents (commit cur job outs)) ≡ₚ
    (mes ++ file_entries ents (stay (mjoin (files cur)))) ++ survivors.
Proof using All.
  rewrite !mjoin_cons, <- !(assoc_L (++)). split; (apply Permutation_app; [done|]).
  - rewrite version_entries_files by (by rewrite Hext).
    rewrite <- file_entries_app. apply file_entries_perm, stay_inputs.
  - rewrite version_entries_files by (by rewrite commit_eq).
    rewrite (file_entries_perm _ _ _ commit_files), file_entries_app. by rewrite Hkept.
Qed.

Lemma commit_lookup mes k s :
  layered (mes :: version_layers ents cur) → versions_unique (mjoin (mes :: version_layers ents cur)) →
  reads_above oldest s (file_entries ents (inputs job)) →
  reader_value (lookup_ref (mjoin (mes :: version_layers ents (commit cur job outs))) k s) =
  reader_value (lookup_ref (mjoin (mes :: version_layers ents cur)) k s).
Proof using All.
  intros Hlay Hu Habove. destruct (commit_entries mes) as [Eold Enew].
  assert (versions_unique ((mes ++ file_entries ents (stay (mjoin (files cur)))) ++
    file_entries ents (inputs job))) as Hu1 by (by eapply versions_unique_perm).
  assert (versions_unique ((mes ++ file_entries ents (stay (mjoin (files cur)))) ++ survivors)) as Hu2.
  { eapply versions_unique_sub; [|exact Hu1]. intros x. rewrite !(elem_of_app (_ ++ _)).
    intros [?|Hx%kept_elem]; [by left|right]. by rewrite <- Hperm. }
  unfold lookup_ref. rewrite (newest_permutation k s _ _ Hu1 Eold), (newest_permutation k s _ _ Hu2 Enew).
  apply (compaction_lookup oldest (is_bottommost job)); try done.
  intros Hbot e e' He He' Hk. by apply (commit_bottom mes e e').
Qed.

(** *** The levels *)

Lemma apart_level_ok fms :
  StronglySorted (λ a b, key_le (smallest_key a) (smallest_key b)) fms → NoDup fms →
  Forall (λ fm, key_le (smallest_key fm) (largest_key fm)) fms →
  (∀ a b, a ∈ fms → b ∈ fms → a = b ∨ ranges_apart a b) → level_ok fms.
Proof using Type.
  induction 1 as [|x fms Hs IH Hx]; [constructor|]. intros [Hnin Hd]%NoDup_cons [Hxr Hr]%Forall_cons Hap.
  constructor; [apply IH; [done|done|]; intros a b Ha Hb; by apply Hap; right|].
  rewrite Forall_forall in Hx, Hr |- *. intros y Hy.
  destruct (Hap x y) as [->|[Hlt|Hlt]]; [by left|by right|done|done|exfalso].
  apply (key_lt_irrefl (smallest_key y)). eapply key_le_lt_trans; [by apply Hr|].
  eapply key_lt_le_trans; [exact Hlt|]. by apply Hx.
Qed.

Hypotheses (Hdisjoint : Forall level_ok (drop 1 (files snap)))
  (Hranges : Forall (λ fm, key_le (smallest_key fm) (largest_key fm)) (mjoin (files cur)))
  (Hfresh : NoDup (fm_number <$> mjoin (files cur) ++ outs)) (Hlevel : level_ok outs)
  (Hbounds : Forall (λ fm, key_le (smallest_key fm) (largest_key fm) ∧
    ∃ e e', e ∈ survivors ∧ e' ∈ survivors ∧ smallest_key fm = e_key e ∧ largest_key fm = e_key e') outs).

Lemma output_beside o g :
  o ∈ outs → g ∈ files_at snap out → g ∉ inputs job → ranges_apart o g.
Proof using All.
  intros Ho Hg Hn. rewrite Forall_forall in Hbounds.
  destruct (Hbounds o Ho) as (_ & e & e' & He & He' & Es & El).
  apply survivor_input in He as (a & Ha & Hea), He' as (a' & Ha' & Hea').
  assert (∀ x y, x ∈ inputs job → y ∈ ents (fm_number x) →
    key_le (smallest_key x) (e_key y) ∧ key_le (e_key y) (largest_key x)) as Hr.
  { intros x y Hx Hy. rewrite Forall_forall in Hrange.
    pose proof (Hrange x (snap_elem _ (jc_inputs _ _ Hjob x Hx))) as Hf. rewrite Forall_forall in Hf. auto. }
  destruct (jc_beside _ _ Hjob g Hg Hn) as [Hab|Hab].
  - left. rewrite El. eapply key_le_lt_trans; [by apply (Hr a' e')|]. by apply Hab.
  - right. rewrite Es. eapply key_lt_le_trans; [by apply (Hab a)|]. by apply (Hr a e).
Qed.

Lemma commit_nodup : NoDup (fm_number <$> mjoin (files (commit cur job outs))).
Proof using All.
  rewrite commit_files. revert Hfresh. rewrite !fmap_app. intros (Hc & Hco & Ho)%NoDup_app.
  assert (∀ n, n ∈ fm_number <$> stay (mjoin (files cur)) → n ∈ fm_number <$> mjoin (files cur)) as Hsub.
  { intros n (fm & -> & [Hfm _]%elem_of_filterb)%list_elem_of_fmap. by apply list_elem_of_fmap_2. }
  apply NoDup_app. split_and!; [|by auto|done].
  clear -Hc. induction (mjoin (files cur)) as [|fm fms IH]; [done|]. rewrite fmap_cons in Hc.
  apply NoDup_cons in Hc as [Hn Hc]. unfold stays in *. cbn [List.filter].
  destruct (negb (is_input job fm)); [|auto]. rewrite fmap_cons. constructor; [|auto].
  intros (x & E & [Hx _]%elem_of_filterb)%list_elem_of_fmap. apply Hn. rewrite E. by apply list_elem_of_fmap_2.
Qed.

Lemma stay_level_ok fms : level_ok fms → level_ok (stay fms).
Proof using Type.
  induction 1 as [|fm fms Hs IH Hf]; [constructor|]. unfold stays in *. cbn [List.filter].
  case_match; [|done]. constructor; [done|]. rewrite Forall_forall in Hf |- *.
  intros x [Hx _]%elem_of_filterb. auto.
Qed.

Lemma out_level_ok : level_ok (sort_files (stay (files_at snap out) ++ outs)).
Proof using All.
  pose proof (jc_out _ _ Hjob) as Hout. pose proof commit_nodup as Hnd'.
  pose proof (level_ok_at snap out Hdisjoint ltac:(lia)) as Hlo.
  assert (∀ fm, fm ∈ stay (files_at snap out) → fm ∈ mjoin (files cur) ∧ fm ∈ files_at snap out ∧
    fm ∉ inputs job) as Hstay.
  { intros fm [Hfm Hs]%elem_of_filterb. apply negb_true_iff in Hs.
    assert (fm ∈ mjoin (files cur)) as Hc by (by eapply snap_elem, files_at_elem).
    split_and!; [done..|]. by apply not_input. }
  apply apart_level_ok.
  - apply sort_files_spec.
  - rewrite commit_eq in Hnd'. apply NoDup_fmap_1 in Hnd'.
    assert (sort_files (stay (files_at snap out) ++ outs) =
      nth out (stay (files_at snap 0 ++ news) :: <[(out - 1)%nat := sort_files (stay (files_at snap out) ++ outs)]>
        (stay <$> drop 1 (files snap))) []) as ->; [|by apply nodup_level].
    destruct out as [|n] eqn:En; [lia|]. cbn [nth]. rewrite Nat.sub_succ, Nat.sub_0_r, nth_lookup.
    rewrite list_lookup_insert_eq; [done|]. rewrite length_fmap, length_drop, Hlen. unfold kMaxLevels in *. lia.
  - rewrite sort_files_perm. apply Forall_app. split.
    + rewrite Forall_forall in Hranges |- *. intros fm Hfm. by apply Hranges, Hstay.
    + eapply Forall_impl; [exact Hbounds|]. by intros fm [? _].
  - intros a b. rewrite !sort_files_perm, !elem_of_app. intros [Ha|Ha] [Hb|Hb].
    + destruct (sorted_cases _ _ a b Hlo) as [->|?]; [by apply Hstay..|by left|by right].
    + right. destruct (Hstay a Ha) as (_ & Hal & Han). destruct (output_beside b a Hb Hal Han); [by right|by left].
    + right. destruct (Hstay b Hb) as (_ & Hbl & Hbn). by apply output_beside.
    + destruct (sorted_cases _ _ a b Hlevel Ha Hb) as [->|?]; [by left|by right].
Qed.

Lemma commit_levels_ok : Forall level_ok (drop 1 (files (commit cur job outs))).
Proof using All.
  rewrite commit_eq. cbn [drop]. rewrite drop_0. apply Forall_insert; [|apply out_level_ok].
  apply Forall_fmap. eapply Forall_impl; [exact Hdisjoint|]. apply stay_level_ok.
Qed.

End Commit.

(** ** The contract of a commit *)

(** A job on [snap] whose outputs replace its inputs in [cur]. *)
Record replacement (ents : Z → list Entry) (snap cur : Version) (job : CompactionJob)
    (outs : list FileMeta) (oldest : Z) (l : list Entry) : Prop := {
  rp_extends : ∃ news, extends snap news cur;
  rp_len : length (files snap) = kMaxLevels;
  rp_job : job_closed snap job;
  rp_range : Forall (λ fm, Forall (λ e, key_le (smallest_key fm) (e_key e) ∧
    key_le (e_key e) (largest_key fm)) (ents (fm_number fm))) (mjoin (files cur));
  rp_outs : outs ≠ [];
  rp_sorted : sorted_entries l;
  rp_perm : l ≡ₚ file_entries ents (inputs job);
  rp_kept : file_entries ents outs ≡ₚ kept oldest (is_bottommost job) ([], false) l;
  rp_disjoint : Forall level_ok (drop 1 (files snap));
  rp_ranges : Forall (λ fm, key_le (smallest_key fm) (largest_key fm)) (mjoin (files cur));
  rp_fresh : NoDup (fm_number <$> mjoin (files cur) ++ outs);
  rp_level : level_ok outs;
  rp_bounds : Forall (λ fm, key_le (smallest_key fm) (largest_key fm) ∧
    ∃ e e', e ∈ file_entries ents outs ∧ e' ∈ file_entries ents outs ∧
      smallest_key fm = e_key e ∧ largest_key fm = e_key e') outs;
}.

(** What the commit of a replacement leaves. *)
Record replaced_version (ents : Z → list Entry) (cur : Version) (job : CompactionJob)
    (outs : list FileMeta) (oldest : Z) (v : Version) : Prop := {
  rv_len : length (files v) = kMaxLevels;
  rv_disjoint : Forall level_ok (drop 1 (files v));
  rv_nodup : NoDup (fm_number <$> mjoin (files v));
  rv_level l : ∃ keep, files_at v l ≡ₚ
    List.filter keep (files_at cur l) ++ (if (l =? output_level job)%nat then outs else []);
  rv_level0 : files_at v 0 = List.filter (λ fm, negb (is_input job fm)) (files_at cur 0);
  rv_files fm : fm ∈ mjoin (files v) ↔ fm ∈ mjoin (files cur) ∧ is_input job fm = false ∨ fm ∈ outs;
  rv_entries e : e ∈ mjoin (version_layers ents v) → e ∈ mjoin (version_layers ents cur);
  rv_layered : layered (version_layers ents cur) → layered (version_layers ents v);
  rv_lookup mes k s : layered (mes :: version_layers ents cur) →
    versions_unique (mjoin (mes :: version_layers ents cur)) →
    reads_above oldest s (file_entries ents (inputs job)) →
    reader_value (lookup_ref (mjoin (mes :: version_layers ents v)) k s) =
    reader_value (lookup_ref (mjoin (mes :: version_layers ents cur)) k s);
}.

Lemma commit_replaces ents snap cur job outs oldest l :
  replacement ents snap cur job outs oldest l →
  replaced_version ents cur job outs oldest (commit cur job outs).
Proof.
  intros [[news R1] R2 R3 R5 R6 R7 R8 R9 R10 R11 R12 R13 R14].
  assert (NoDup (fm_number <$> mjoin (files cur))) as R4
    by (rewrite fmap_app in R12; by apply NoDup_app in R12 as [? _]).
  assert (Forall (λ fm, key_le (smallest_key fm) (largest_key fm) ∧
    ∃ e e', e ∈ kept oldest (is_bottommost job) ([], false) l ∧
      e' ∈ kept oldest (is_bottommost job) ([], false) l ∧
      smallest_key fm = e_key e ∧ largest_key fm = e_key e') outs) as R14'.
  { eapply Forall_impl; [exact R14|]. simpl. intros fm (? & e & e' & He & He' & ?).
    rewrite R9 in He, He'. eauto 10. }
  pose proof (commit_eq ents snap cur news job R1 R2 R3 R4 R5 outs R6) as Eq.
  pose proof (commit_files ents snap cur news job R1 R2 R3 R4 R5 outs R6) as Hfiles.
  assert (files_at cur 0 = files_at snap 0 ++ news) as E0 by (unfold files_at at 1; by rewrite R1).
  pose proof (jc_out _ _ R3) as Hout. split.
  - rewrite Eq. simpl. rewrite length_insert, length_fmap, length_drop, R2. done.
  - by apply (commit_levels_ok ents snap cur news job R1 R2 R3 R4 R5 outs R6 oldest l).
  - by apply (commit_nodup ents snap cur news job R1 R2 R3 R4 R5 outs R6 oldest l).
  - intros lv. exists (λ fm, negb (is_input job fm)). unfold files_at at 1. rewrite Eq.
    destruct lv as [|lv].
    + rewrite (proj2 (Nat.eqb_neq 0 _)) by lia. rewrite app_nil_r. cbn [nth]. by rewrite E0.
    + rewrite (cur_level snap cur news R1 R2 (S lv)) by lia. cbn [nth].
      destruct (Nat.eqb_spec (S lv) (output_level job)) as [E|E].
      * rewrite nth_lookup, <- E. rewrite Nat.sub_succ, Nat.sub_0_r.
        rewrite list_lookup_insert_eq; [apply sort_files_perm|].
        rewrite length_fmap, length_drop, R2. unfold kMaxLevels in *. lia.
      * rewrite nth_lookup, list_lookup_insert_ne by lia. rewrite <- nth_lookup, app_nil_r.
        assert (files_at snap (S lv) = nth lv (drop 1 (files snap)) []) as ->.
        { unfold files_at. by destruct (files snap). }
        apply reflexive_eq. exact (map_nth (stays (is_input job)) (drop 1 (files snap)) [] lv).
  - unfold files_at at 1. rewrite Eq. by rewrite E0.
  - intros fm. rewrite Hfiles, elem_of_app. unfold stays. rewrite elem_of_filterb, negb_true_iff. tauto.
  - intros e. destruct (commit_entries ents snap cur news job R1 R2 R3 R4 R5 outs R6 oldest l R7 R8 R9 [])
      as [E1 E2]. rewrite mjoin_cons in E1, E2. simpl in E1, E2. rewrite E1, E2, !elem_of_app.
    intros [?|He%kept_elem]; [by left|right]. by rewrite <- R8.
  - by apply (commit_layered ents snap cur news job R1 R2 R3 R4 R5 outs R6 oldest l).
  - by apply (commit_lookup ents snap cur news job R1 R2 R3 R4 R5 outs R6 oldest l).
Qed.
