(* ===== verification/Db.v ===== *)
(** The database of src/include/keystone/db.h and src/src/db.cpp: the write
    path behind the group-commit queue, flush, snapshots, point reads and
    scans.

    Every operation is a function of the whole state: it returns the state it
    leaves and how it ended, so an exception in the middle of an operation
    leaves what the operation had done so far.  The contract of the store is
    [Spec], a finite map with saved copies for the snapshots; [refines]
    relates the two. *)

From stdpp Require Import gmultiset.
From S2P Require Import Prelude Coding Wal Entry Manifest Memtable BlockCache SSTableWriter SSTable MergeIterator Version Compaction Levels.
Local Open Scope Z_scope.

(** * Definitions *)

(** [wal_null]: [wal_] has been reset and not been reopened; [wal_] then only
    stands for the file.  [db_dir] holds the table files by number. *)
Record DB := mkDB {
  cache_ : option BlockCache;
  memtable_ : Memtable;
  wal_ : WAL;
  wal_null : bool;
  manifest_ : File;
  current_version_ : Version;
  db_dir : gmap Z File;
  opts_ : Options;
  next_sst_number_ : Z;
  next_seq_ : Z;
  live_snapshots_ : gmultiset Z;
  compaction_pending_ : bool;
  compaction_running_ : bool;
  force_compact_ : bool;
}.

(** ** Code that works on the state of the database *)

Definition dbm (A : Type) : Type := DB → DB * result A.

#[export] Instance dbm_ret : MRet dbm := λ A a db, (db, Ok a).
#[export] Instance dbm_bind : MBind dbm := λ A B f m db,
  match m db with
  | (db', Ok a) => f a db'
  | (db', Throw msg) => (db', Throw msg)
  | (db', Undefined) => (db', Undefined)
  end.

Definition gets {A} (f : DB → A) : dbm A := λ db, (db, Ok (f db)).
Definition modify (f : DB → DB) : dbm unit := λ db, (f db, Ok tt).
Definition liftr {A} (r : result A) : dbm A := λ db, (db, r).

Definition set_cache (c : option BlockCache) (db : DB) : DB :=
  mkDB c (memtable_ db) (wal_ db) (wal_null db) (manifest_ db) (current_version_ db) (db_dir db)
    (opts_ db) (next_sst_number_ db) (next_seq_ db) (live_snapshots_ db) (compaction_pending_ db)
    (compaction_running_ db) (force_compact_ db).
Definition set_memtable (m : Memtable) (db : DB) : DB :=
  mkDB (cache_ db) m (wal_ db) (wal_null db) (manifest_ db) (current_version_ db) (db_dir db)
    (opts_ db) (next_sst_number_ db) (next_seq_ db) (live_snapshots_ db) (compaction_pending_ db)
    (compaction_running_ db) (force_compact_ db).
Definition set_wal (w : WAL) (null : bool) (db : DB) : DB :=
  mkDB (cache_ db) (memtable_ db) w null (manifest_ db) (current_version_ db) (db_dir db)
    (opts_ db) (next_sst_number_ db) (next_seq_ db) (live_snapshots_ db) (compaction_pending_ db)
    (compaction_running_ db) (force_compact_ db).
Definition set_manifest (f : File) (db : DB) : DB :=
  mkDB (cache_ db) (memtable_ db) (wal_ db) (wal_null db) f (current_version_ db) (db_dir db)
    (opts_ db) (next_sst_number_ db) (next_seq_ db) (live_snapshots_ db) (compaction_pending_ db)
    (compaction_running_ db) (force_compact_ db).
Definition set_version (v : Version) (db : DB) : DB :=
  mkDB (cache_ db) (memtable_ db) (wal_ db) (wal_null db) (manifest_ db) v (db_dir db)
    (opts_ db) (next_sst_number_ db) (next_seq_ db) (live_snapshots_ db) (compaction_pending_ db)
    (compaction_running_ db) (force_compact_ db).
Definition set_dir (d : gmap Z File) (db : DB) : DB :=
  mkDB (cache_ db) (memtable_ db) (wal_ db) (wal_null db) (manifest_ db) (current_version_ db) d
    (opts_ db) (next_sst_number_ db) (next_seq_ db) (live_snapshots_ db) (compaction_pending_ db)
    (compaction_running_ db) (force_compact_ db).
Definition set_next_sst (n : Z) (db : DB) : DB :=
  mkDB (cache_ db) (memtable_ db) (wal_ db) (wal_null db) (manifest_ db) (current_version_ db)
    (db_dir db) (opts_ db) n (next_seq_ db) (live_snapshots_ db) (compaction_pending_ db)
    (compaction_running_ db) (force_compact_ db).
Definition set_next_seq (s : Z) (db : DB) : DB :=
  mkDB (cache_ db) (memtable_ db) (wal_ db) (wal_null db) (manifest_ db) (current_version_ db)
    (db_dir db) (opts_ db) (next_sst_number_ db) s (live_snapshots_ db) (compaction_pending_ db)
    (compaction_running_ db) (force_compact_ db).
Definition set_snapshots (S : gmultiset Z) (db : DB) : DB :=
  mkDB (cache_ db) (memtable_ db) (wal_ db) (wal_null db) (manifest_ db) (current_version_ db)
    (db_dir db) (opts_ db) (next_sst_number_ db) (next_seq_ db) S (compaction_pending_ db)
    (compaction_running_ db) (force_compact_ db).
Definition set_compaction (pending running force : bool) (db : DB) : DB :=
  mkDB (cache_ db) (memtable_ db) (wal_ db) (wal_null db) (manifest_ db) (current_version_ db)
    (db_dir db) (opts_ db) (next_sst_number_ db) (next_seq_ db) (live_snapshots_ db) pending
    running force.

(** Reads that go through the block cache. *)
Definition with_cache {A} (m : cached A) : dbm A := λ db,
  let r := m (cache_ db) in (set_cache r.1 db, r.2).

(** How the exceptions of [write_fully] come out; a call that never returns
    has no outcome. *)
Definition io_result (st : io_status) : result unit :=
  match st with
  | IoDone => Ok tt
  | IoThrown msg => Throw msg
  | IoPending | IoUndefined => Undefined
  end.

(** [next_sst_number_++] on an [int]. *)
Definition alloc_sst_number : dbm Z := λ db,
  let n := next_sst_number_ db in
  if n + 1 <? 2 ^ 31 then (set_next_sst (n + 1) db, Ok n) else (db, Undefined).

(** The smallest element of the multiset. *)
Definition oldest_live_snapshot (db : DB) : Z :=
  match elements (live_snapshots_ db) with
  | [] => u64_max
  | s :: l => foldr Z.min s l
  end.

(** [std::make_unique<Memtable>()], with the default height. *)
Definition new_memtable : Memtable := Memtable_new 12.

(** ** Writes *)

Record WriteRequest := mkRequest {
  q_type : RecType;
  q_key : bytes;
  q_value : bytes;
}.

Definition put_request (key value : bytes) : WriteRequest := mkRequest RecPut key value.
Definition del_request (key : bytes) : WriteRequest := mkRequest RecDelete key [].

(** [for (auto* r : batch) r->seq = next_seq_++;] and the records made of the
    requests afterwards. *)
Fixpoint assign_seqs (s : Z) (batch : list WriteRequest) : list WalRecord * Z :=
  match batch with
  | [] => ([], s)
  | r :: batch' =>
      let rest := assign_seqs (u64 (s + 1)) batch' in
      (mkRecord (q_type r) s (q_key r) (q_value r) :: rest.1, rest.2)
  end.

(** A record enters the memtable: anything but a put is a deletion. *)
Definition apply_record (m : Memtable) (r : WalRecord) (coins : list bool) : result Memtable :=
  if byte_eq_dec (r_type r) RecPut
  then put m (r_key r) (r_value r) (r_seq r) coins
  else del m (r_key r) (r_seq r) coins.

(** [coins] lists the tosses of each insertion. *)
Fixpoint apply_records (m : Memtable) (rs : list WalRecord) (coins : list (list bool))
  : result Memtable :=
  match rs with
  | [] => Ok m
  | r :: rs' =>
      m' ← apply_record m r (default [] (head coins));
      apply_records m' rs' (tail coins)
  end.

Section DbOps.
Context `{Posix}.

(** The batch takes its numbers, under [write_mu_]. *)
Definition take_numbers (batch : list WriteRequest) : dbm (list WalRecord) := λ db,
  let r := assign_seqs (next_seq_ db) batch in (set_next_seq r.2 db, Ok r.1).

Definition append_wal (rs : list WalRecord) : dbm unit := λ db,
  if wal_null db then (db, Undefined) else
  let r := append_batch (wal_ db) rs in (set_wal r.1 false db, io_result r.2).

(** The section of the leader under [mu_]. *)
Definition commit_records (rs : list WalRecord) (coins : list (list bool)) : dbm unit :=
  _ ← append_wal rs;
  m ← gets memtable_;
  m' ← liftr (apply_records m rs coins);
  modify (set_memtable m').

Definition append_manifest (entries : list ManifestEntry) : dbm unit := λ db,
  let r := append_snapshot (manifest_ db) entries in (set_manifest r.1 db, io_result r.2).

(** [new_ver->files[0].push_back(fm)] on a copy of the version. *)
Definition push_level0 (v : Version) (fm : FileMeta) : Version :=
  mkVersion (<[0%nat := files_at v 0 ++ [fm]]> (files v)).

(** [wal_.reset(); resize_file(wal_path, 0); wal_ = WAL::open(...)] *)
Definition reset_wal : dbm unit := λ db,
  let f := wal_file (wal_ db) in
  if sys_resize (f_data f)
  then (set_wal (wal_open (truncate f 0) (opt_sync (opts_ db))) false db, Ok tt)
  else (set_wal (wal_ db) true db, Throw "cannot resize file").

(** [compaction_pending_ = true] at the end of a flush. *)
Definition trigger_compaction : dbm unit := modify (λ db,
  if (compaction_trigger (opts_ db) <=? Z.of_nat (length (files_at (current_version_ db) 0))) &&
     negb (compaction_pending_ db) && negb (compaction_running_ db)
  then set_compaction true (compaction_running_ db) (force_compact_ db) db else db).

(** The memtable becomes the table file [num]. *)
Definition write_level0 (num : Z) : dbm FileMeta :=
  m ← gets memtable_;
  es ← liftr (raw_entries m);
  w ← liftr (add_entries SSTableWriter_new es);
  f ← liftr (finish w);
  dir ← gets db_dir;
  dir' ← liftr (install dir num f);
  _ ← modify (set_dir dir');
  table ← liftr (sst_open num (f_data f));
  mret (mkFileMeta num 0 (smallest_key_ w) (largest_key_ w) table).

Definition flush : dbm unit :=
  m ← gets memtable_;
  if approx_bytes m =? 0 then mret tt else
  num ← alloc_sst_number;
  fm ← write_level0 num;
  v ← gets current_version_;
  let new_ver := push_level0 v fm in
  _ ← append_manifest (version_to_manifest new_ver);
  _ ← modify (set_version new_ver);
  _ ← reset_wal;
  _ ← modify (set_memtable new_memtable);
  trigger_compaction.

Definition maybe_flush : dbm unit :=
  m ← gets memtable_;
  o ← gets opts_;
  if flush_threshold_bytes o <=? approx_bytes m then flush else mret tt.

(** What the leader of a batch does between taking and leaving the queue. *)
Definition write_batch (batch : list WriteRequest) (coins : list (list bool)) : dbm unit :=
  rs ← take_numbers batch;
  _ ← commit_records rs coins;
  maybe_flush.

(** ** Snapshots *)

Definition get_snapshot : dbm Z := λ db,
  let s := u64 (next_seq_ db - 1) in
  (set_snapshots ({[+ s +]} ⊎ live_snapshots_ db) db, Ok s).

Definition release_snapshot (s : Z) : dbm unit := λ db,
  (if bool_decide (s ∈ live_snapshots_ db)
   then set_snapshots (live_snapshots_ db ∖ {[+ s +]}) db else db, Ok tt).

(** ** Reads *)

Definition get_impl (key : bytes) (snap_seq : Z) : dbm (option bytes) :=
  m ← gets memtable_;
  status ← liftr (lookup m key snap_seq);
  match status with
  | Found v => mret (Some v)
  | Deleted => mret None
  | NotFound =>
      ver ← gets current_version_;
      r ← with_cache (version_get ver key snap_seq);
      mret (reader_value r)
  end.

Definition get (key : bytes) : dbm (option bytes) := get_impl key u64_max.

(** Each round of the merge consumes an entry of the memtable or of a file. *)
Definition scan_fuel (mt_snapshot : list Entry) (fms : list FileMeta) : nat :=
  S (length mt_snapshot +
     sum_list ((λ fm, Z.to_nat (footer_entry_count (footer_ (fm_table fm)))) <$> fms)).

(** The pairs a scan hands to [emit], in order. *)
Definition scan_impl `{PriorityQueue} (start stop : bytes) (snap_seq : Z)
  : dbm (list (bytes * bytes)) :=
  ver ← gets current_version_;
  m ← gets memtable_;
  mt_snapshot ← liftr (raw_range m start stop);
  out ← with_cache (scan_merge (scan_fuel mt_snapshot (scan_files ver start stop)) mt_snapshot
    ver start stop snap_seq);
  mret ((λ e, (e_key e, e_value e)) <$> out).

Definition scan `{PriorityQueue} (start stop : bytes) : dbm (list (bytes * bytes)) :=
  scan_impl start stop u64_max.

End DbOps.

(** [wal_] is null after an error inside [reset_wal]. *)
Definition wal_fsync_count (db : DB) : result Z :=
  if wal_null db then Undefined else Ok (fsync_count_ (wal_ db)).

(** The state [open] gives for an empty directory. *)
Definition DB_new (o : Options) : DB :=
  mkDB (if 0 <? block_cache_bytes o then Some (BlockCache_new (block_cache_bytes o)) else None)
    new_memtable (wal_open (mkFile [] 0) (opt_sync o)) false (mkFile [] 0) empty_version ∅ o 1 1
    ∅ false false false.

(** ** The interface as one type of calls *)

Inductive call : Type :=
| CallWrite (batch : list WriteRequest) (coins : list (list bool))
| CallFlush
| CallGet (key : bytes)
| CallGetAt (key : bytes) (snap : Z)
| CallScan (start stop : bytes)
| CallScanAt (start stop : bytes) (snap : Z)
| CallSnapshot
| CallRelease (snap : Z).

Inductive response : Type :=
| Done
| Value (v : option bytes)
| Pairs (l : list (bytes * bytes))
| Handle (snap : Z).

Definition run_call `{Posix} `{PriorityQueue} (c : call) : dbm response :=
  match c with
  | CallWrite batch coins => _ ← write_batch batch coins; mret Done
  | CallFlush => _ ← flush; mret Done
  | CallGet key => v ← get key; mret (Value v)
  | CallGetAt key s => v ← get_impl key s; mret (Value v)
  | CallScan start stop => l ← scan start stop; mret (Pairs l)
  | CallScanAt start stop s => l ← scan_impl start stop s; mret (Pairs l)
  | CallSnapshot => s ← get_snapshot; mret (Handle s)
  | CallRelease s => _ ← release_snapshot s; mret Done
  end.

(** ** The contract *)

(** The current contents, and a copy of the contents for each snapshot that
    has been handed out and not been released. *)
Record Spec := mkSpec {
  sp_map : gmap bytes bytes;
  sp_snaps : list (Z * gmap bytes bytes);
}.

Definition spec_write (m : gmap bytes bytes) (r : WriteRequest) : gmap bytes bytes :=
  if byte_eq_dec (q_type r) RecPut then <[q_key r := q_value r]> m else delete (q_key r) m.

(** The bindings with keys from [start] to [stop], in key order. *)
Definition is_range (m : gmap bytes bytes) (start stop : bytes) (l : list (bytes * bytes)) : Prop :=
  StronglySorted key_lt l.*1 ∧
  ∀ k v, (k, v) ∈ l ↔ key_le start k ∧ key_le k stop ∧ m !! k = Some v.

Inductive spec_step (sp : Spec) : call → response → Spec → Prop :=
| spec_step_write batch coins :
    spec_step sp (CallWrite batch coins) Done
      (mkSpec (fold_left spec_write batch (sp_map sp)) (sp_snaps sp))
| spec_step_flush : spec_step sp CallFlush Done sp
| spec_step_get k : spec_step sp (CallGet k) (Value (sp_map sp !! k)) sp
| spec_step_get_at k s m :
    (s, m) ∈ sp_snaps sp → spec_step sp (CallGetAt k s) (Value (m !! k)) sp
| spec_step_scan start stop l :
    is_range (sp_map sp) start stop l → spec_step sp (CallScan start stop) (Pairs l) sp
| spec_step_scan_at start stop s m l :
    (s, m) ∈ sp_snaps sp → is_range m start stop l →
    spec_step sp (CallScanAt start stop s) (Pairs l) sp
| spec_step_snapshot s :
    spec_step sp CallSnapshot (Handle s) (mkSpec (sp_map sp) ((s, sp_map sp) :: sp_snaps sp))
| spec_step_release s m l1 l2 :
    sp_snaps sp = l1 ++ (s, m) :: l2 →
    spec_step sp (CallRelease s) Done (mkSpec (sp_map sp) (l1 ++ l2))
| spec_step_release_none s :
    s ∉ (sp_snaps sp).*1 → spec_step sp (CallRelease s) Done sp.

(** ** The conditions of use *)

Definition request_ok (r : WriteRequest) : Prop :=
  blen (q_key r) ≤ kMaxLen ∧ blen (q_value r) ≤ kMaxLen ∧
  (q_type r = RecPut ∨ q_type r = RecDelete ∧ q_value r = []).

(** The entries of a memtable. *)
Definition mem_entries (m : Memtable) : list Entry :=
  match raw_entries m with Ok es => es | _ => [] end.

(** A memtable that can become a table file: its size stays below 2^60 bytes,
    and no key has versions in two blocks. *)
Definition flushable (es : list Entry) : Prop := sst_fits es ∧ keys_separate (layout es).

(** A flush, should it come to one, is safe. *)
Definition flush_ready (db : DB) : Prop :=
  approx_bytes (memtable_ db) ≠ 0 →
  flushable (mem_entries (memtable_ db)) ∧ next_sst_number_ db + 1 < 2 ^ 31.

Definition call_safe `{Posix} (db : DB) (c : call) : Prop :=
  match c with
  | CallWrite batch coins =>
      Forall request_ok batch ∧ next_seq_ db + Z.of_nat (length batch) < 2 ^ 64 ∧
      let db' := ((rs ← take_numbers batch; commit_records rs coins) db).1 in
      (flush_threshold_bytes (opts_ db') ≤ approx_bytes (memtable_ db') → flush_ready db')
  | CallFlush => flush_ready db
  | CallGetAt _ s | CallScanAt _ _ s => s ∈ live_snapshots_ db
  | _ => True
  end.

(** ** Representation *)

(** The entry a record becomes. *)
Definition record_entry (r : WalRecord) : Entry :=
  if byte_eq_dec (r_type r) RecPut then mkEntry (r_key r) (r_value r) false (r_seq r)
  else mkEntry (r_key r) [] true (r_seq r).

(** [ents'] gives the same entries to the files below number [n], and what
    fits into a file to all. *)
Definition agrees (n : Z) (ents ents' : Z → list Entry) : Prop :=
  (∀ i, sst_fits (ents' i)) ∧ ∀ i, i < n → ents' i = ents i.

(** All versions the database holds, by the layers in which a read visits
    them. *)
Definition db_layers (ents : Z → list Entry) (mes : list Entry) (db : DB) : list (list Entry) :=
  mes :: version_layers ents (current_version_ db).

Definition db_entries (ents : Z → list Entry) (mes : list Entry) (db : DB) : list Entry :=
  mjoin (db_layers ents mes db).

(** Layers of distinct versions with numbers below [next], newer first. *)
Record layers_ok (next : Z) (ls : list (list Entry)) : Prop := {
  lo_layered : layered ls;
  lo_unique : versions_unique (mjoin ls);
  lo_seqs : Forall (λ e, e_seq e < next) (mjoin ls);
}.

(** [mes] is in the memtable and [ents n] in table file [n]; what the files
    not yet written will hold does not matter. *)
Record db_rep `{Posix} (ents : Z → list Entry) (mes : list Entry) (db : DB) : Prop := {
  rep_mem : represents (memtable_ db) mes;
  rep_empty : mes = [] → approx_bytes (memtable_ db) = 0;
  rep_mem_ok : Forall sst_entry_ok mes;
  rep_files ents' : agrees (next_sst_number_ db) ents ents' →
    version_ok (content_of ents') ents' (current_version_ db) ∧
    cache_ok (content_of ents') (cache_ db);
  rep_fits i : sst_fits (ents i);
  rep_entries : Forall (λ fm, Forall sst_entry_ok (ents (fm_number fm)))
    (mjoin (files (current_version_ db)));
  rep_nodup : NoDup (fm_number <$> mjoin (files (current_version_ db)));
  rep_numbers : Forall (λ fm, fm_number fm < next_sst_number_ db) (mjoin (files (current_version_ db)));
  rep_layers : layers_ok (next_seq_ db) (db_layers ents mes db);
  rep_next : 1 ≤ next_seq_ db < 2 ^ 64;
  rep_wal : wal_null db = false;
  rep_int : next_sst_number_ db < 2 ^ 31;
}.

Record refines `{Posix} (ents : Z → list Entry) (mes : list Entry) (db : DB) (sp : Spec) : Prop := {
  rf_rep : db_rep ents mes db;
  rf_map k : reader_value (lookup_ref (db_entries ents mes db) k u64_max) = sp_map sp !! k;
  rf_live : live_snapshots_ db = list_to_set_disj (sp_snaps sp).*1;
  rf_snaps s m : (s, m) ∈ sp_snaps sp → 0 ≤ s < next_seq_ db ∧
    ∀ k, reader_value (lookup_ref (db_entries ents mes db) k s) = m !! k;
}.

(** The database implements the contract. *)
Definition refined `{Posix} (db : DB) (sp : Spec) : Prop := ∃ ents mes, refines ents mes db sp.

(** What stays as it was: the contents of the files below the counters and the
    levels, to which a flush adds on level 0 only; snapshots are released, or
    taken of the current contents. *)
Record grows (ents : Z → list Entry) (db : DB) (ents' : Z → list Entry) (db' : DB) : Prop := {
  ev_ents i : i < next_sst_number_ db → ents' i = ents i;
  ev_next : next_sst_number_ db ≤ next_sst_number_ db';
  ev_seq : next_seq_ db ≤ next_seq_ db';
  ev_opts : opts_ db' = opts_ db;
  ev_version : ∃ news,
    files (current_version_ db') =
      (files_at (current_version_ db) 0 ++ news) :: drop 1 (files (current_version_ db)) ∧
    Forall (λ fm, next_sst_number_ db ≤ fm_number fm) news;
  ev_live s : s ∈ live_snapshots_ db' → s ∈ live_snapshots_ db ∨ next_seq_ db - 1 ≤ s;
}.

Record evolves (ents : Z → list Entry) (db : DB) (ents' : Z → list Entry) (db' : DB) : Prop := {
  ev_grows :> grows ents db ents' db';
  ev_dir n : n < next_sst_number_ db → db_dir db' !! n = db_dir db !! n;
}.

(** The files with numbers that have been given out keep their entries. *)
Definition keeps_files (ents : Z → list Entry) (db : DB) (ents' : Z → list Entry) (db' : DB) : Prop :=
  (∀ i, i < next_sst_number_ db → ents' i = ents i) ∧ next_sst_number_ db ≤ next_sst_number_ db'.

(** * Lemmas *)

Lemma grows_keeps ents db ents' db' : grows ents db ents' db' → keeps_files ents db ents' db'.
Proof. intros []. by split. Qed.

(** ** Layers *)

Lemma rep_agrees `{Posix} ents mes db n : db_rep ents mes db → agrees n ents ents.
Proof. intros Hdb. split; [apply Hdb|done]. Qed.

Lemma fmap_ents_agrees n ents ents' (fms : list FileMeta) :
  agrees n ents ents' → Forall (λ fm, fm_number fm < n) fms →
  ((λ fm, ents' (fm_number fm)) <$> fms) = ((λ fm, ents (fm_number fm)) <$> fms).
Proof.
  intros [_ Ha]. induction 1 as [|fm fms Hfm _ IH]; [done|]. rewrite !fmap_cons. by rewrite IH, Ha.
Qed.

Lemma file_entries_agrees n ents ents' fms :
  agrees n ents ents' → Forall (λ fm, fm_number fm < n) fms →
  file_entries ents' fms = file_entries ents fms.
Proof.
  intros [_ Ha]. induction 1 as [|fm fms Hfm _ IH]; [done|].
  rewrite !file_entries_cons. by rewrite IH, Ha.
Qed.

Lemma version_layers_agrees n ents ents' v :
  agrees n ents ents' → Forall (λ fm, fm_number fm < n) (mjoin (files v)) →
  version_layers ents' v = version_layers ents v.
Proof.
  intros Ha Hn. unfold version_layers, files_at. f_equal.
  - apply (fmap_ents_agrees n); [done|]. apply Forall_rev.
    destruct (files v) as [|l0 ls]; [constructor|]. rewrite mjoin_cons in Hn.
    by apply Forall_app in Hn as [? _].
  - assert (Forall (Forall (λ fm, fm_number fm < n)) (drop 1 (files v))) as Hd.
    { apply Forall_drop. by apply Forall_mjoin. }
    induction Hd as [|fms ls Hf _ IH]; [done|]. rewrite !fmap_cons, IH. f_equal.
    by apply (file_entries_agrees n).
Qed.

(** A version with a fresh number enters the first layer. *)
Lemma insert_layers n mes ls e :
  layers_ok n (mes :: ls) → e_seq e = n → layers_ok (n + 1) (insert_entry e mes :: ls).
Proof.
  intros [[Hl Hls] Hu Hs] He. rewrite mjoin_cons in *.
  assert (insert_entry e mes ++ mjoin ls ≡ₚ e :: mes ++ mjoin ls) as Hp
    by (by rewrite insert_entry_perm).
  rewrite Forall_forall in Hs. split; rewrite ?mjoin_cons.
  - split; [|done]. intros a b. rewrite insert_entry_perm, !elem_of_cons. intros [->|Ha] Hb Hk.
    + left. rewrite He. specialize (Hs b). rewrite elem_of_app in Hs. specialize (Hs (or_intror Hb)). lia.
    + destruct (Hl a b Ha Hb Hk); auto.
  - eapply versions_unique_perm; [symmetry; exact Hp|]. apply versions_unique_fresh; [done|].
    intros x Hx. rewrite He. auto.
  - rewrite Hp. constructor; [lia|]. apply Forall_forall. intros x Hx. specialize (Hs x Hx). lia.
Qed.

(** What readers see of it. *)
Lemma insert_lookup n mes ls e k s :
  layers_ok n (mes :: ls) → e_seq e = n →
  reader_value (lookup_ref (mjoin (insert_entry e mes :: ls)) k s) =
    if visible k s e then reader_value (answer (Some e))
    else reader_value (lookup_ref (mjoin (mes :: ls)) k s).
Proof.
  intros Hok He. pose proof (insert_layers n mes ls e Hok He) as [_ Hu _].
  destruct Hok as [_ _ Hs]. rewrite Forall_forall in Hs.
  unfold lookup_ref. rewrite mjoin_cons in *.
  destruct (visible k s e) eqn:V.
  - rewrite (newest_intro k s _ e Hu); [done| |done|].
    + rewrite insert_entry_perm. by left.
    + intros x. rewrite insert_entry_perm, <- app_comm_cons, elem_of_cons. intros [->|Hx] _; [lia|].
      specialize (Hs x Hx). lia.
  - do 2 f_equal. symmetry. etrans;
      [|apply (newest_permutation k s (e :: mes ++ mjoin ls)); [exact Hu|by rewrite insert_entry_perm]].
    simpl. by rewrite V.
Qed.

(** ** Reads *)

Section DbLemmas.
#[local] Set Default Proof Using "All".
Context `{PosixOk}.

Lemma layers_next n n' ls : layers_ok n ls → n ≤ n' → layers_ok n' ls.
Proof using Type.
  intros [Hl Hu Hs] Hn. split; [done..|]. eapply Forall_impl; [exact Hs|]. simpl. lia.
Qed.

(** Code that reads table files returns the same whatever the cache holds. *)
Lemma with_cache_spec {A} ents mes db (m : cached A) a :
  db_rep ents mes db → runs (content_of ents) m (Ok a) →
  (∀ ents', agrees (next_sst_number_ db) ents ents' → ∃ a', runs (content_of ents') m (Ok a')) →
  ∃ c, with_cache m db = (set_cache c db, Ok a) ∧ db_rep ents mes (set_cache c db).
Proof using Type.
  intros Hdb Hm Hall. exists (m (cache_ db)).1. split.
  - unfold with_cache. f_equal. apply Hm.
    by apply (rep_files _ _ _ Hdb), (rep_agrees _ _ _ _ Hdb).
  - destruct Hdb. split; try done. intros ents' Ha. destruct (rep_files0 ents' Ha) as [Hv Hc].
    split; [done|]. destruct (Hall ents' Ha) as [a' Ha']. by apply Ha'.
Qed.

Lemma rep_version_get ents mes db k s ents' :
  db_rep ents mes db → agrees (next_sst_number_ db) ents ents' →
  runs (content_of ents') (version_get (current_version_ db) k s)
    (Ok (first_answer (version_layers ents' (current_version_ db)) k s)).
Proof using Type. intros Hdb Ha. apply version_get_first. by apply (rep_files _ _ _ Hdb). Qed.

Lemma get_impl_spec ents mes db k s :
  db_rep ents mes db →
  ∃ c, get_impl k s db =
      (set_cache c db, Ok (reader_value (lookup_ref (db_entries ents mes db) k s))) ∧
    db_rep ents mes (set_cache c db).
Proof using Type.
  intros Hdb. unfold db_entries. rewrite <- first_answer_correct by apply Hdb.
  unfold get_impl, gets, liftr, mbind, dbm_bind. cbn [memtable_ db_layers first_answer].
  rewrite (lookup_represents _ _ k s (rep_mem _ _ _ Hdb)).
  assert (set_cache (cache_ db) db = db) as Eid by (by destruct db).
  destruct (lookup_ref mes k s) as [|v|].
  - destruct (with_cache_spec ents mes db _ _ Hdb
      (rep_version_get ents mes db k s ents Hdb (rep_agrees _ _ _ _ Hdb))) as (c & E & Hc).
    { intros ents' Ha. eexists. by apply (rep_version_get ents mes). }
    exists c. rewrite E. done.
  - exists (cache_ db). by rewrite Eid.
  - exists (cache_ db). by rewrite Eid.
Qed.

(** The entries of a version never exceed what its files announce. *)
Lemma scan_fuel_enough ents mt v start stop :
  version_ok (content_of ents) ents v →
  (length (mjoin (scan_streams ents mt v start stop)) < scan_fuel mt (scan_files v start stop))%nat.
Proof using Type.
  intros Hv. unfold scan_streams, scan_fuel. rewrite mjoin_cons, length_app.
  pose proof (scan_files_ok (content_of ents) ents v start stop Hv) as Hf.
  enough (length (mjoin ((λ fm, skip_below start (ents (fm_number fm))) <$> scan_files v start stop)) ≤
    sum_list ((λ fm, Z.to_nat (footer_entry_count (footer_ (fm_table fm)))) <$>
      scan_files v start stop))%nat by lia.
  induction Hf as [|fm fms [Hh _] _ IH]; [done|]. rewrite !fmap_cons, mjoin_cons, length_app.
  cbn [sum_list_with id]. rewrite (th_count _ _ _ Hh), Nat2Z.id.
  pose proof (length_skip_below start (ents (fm_number fm))). lia.
Qed.

(** The live bindings of a range at [s]. *)
Definition shows_range (es : list Entry) (start stop : bytes) (s : Z) (out : list Entry) : Prop :=
  StronglySorted key_lt (e_key <$> out) ∧
  ∀ e, e ∈ out ↔ key_le start (e_key e) ∧ key_le (e_key e) stop ∧
    newest (e_key e) s es = Some e ∧ e_tombstone e = false.

Lemma rep_scan `{PriorityQueueOk} ents mes db start stop s ents' :
  db_rep ents mes db → agrees (next_sst_number_ db) ents ents' →
  let mt := List.filter (in_range start stop) mes in
  let v := current_version_ db in
  ∃ out, runs (content_of ents')
      (scan_merge (scan_fuel mt (scan_files v start stop)) mt v start stop s) (Ok out) ∧
    shows_range (db_entries ents mes db) start stop s out.
Proof using Type.
  intros Hdb Ha mt v. destruct (rep_files _ _ _ Hdb ents' Ha) as [Hv _].
  pose proof (version_layers_agrees _ _ _ _ Ha (rep_numbers _ _ _ Hdb)) as El.
  pose proof (rep_layers _ _ _ Hdb) as [_ Hu _].
  destruct (scan_merge_runs (content_of ents') ents' mes v start stop s
    (scan_fuel mt (scan_files v start stop))) as (out & Hr & Hs & Ho); [done| | | |].
  - apply represents_sorted with (m := memtable_ db). apply Hdb.
  - unfold version_entries. fold v in El. by rewrite El.
  - by apply scan_fuel_enough.
  - exists out. split; [exact Hr|]. split; [done|]. unfold version_entries in Ho. fold v in El.
    rewrite El in Ho. exact Ho.
Qed.

Lemma shows_range_pairs es start stop s out :
  shows_range es start stop s out →
  let l := (λ e, (e_key e, e_value e)) <$> out in
  StronglySorted key_lt l.*1 ∧
  ∀ k v, (k, v) ∈ l ↔ key_le start k ∧ key_le k stop ∧
    reader_value (lookup_ref es k s) = Some v.
Proof using Type.
  intros [Hs Ho] l. subst l. split.
  - rewrite <- list_fmap_compose. exact Hs.
  - intros k v. rewrite list_elem_of_fmap. unfold lookup_ref. split.
    + intros (e & [= -> ->] & He). apply Ho in He as (Hlo & Hhi & Hn & Ht).
      split_and!; [done..|]. rewrite Hn. simpl. by rewrite Ht.
    + intros (Hlo & Hhi & Hv). destruct (newest k s es) as [e|] eqn:E; [|done].
      simpl in Hv. destruct (e_tombstone e) eqn:Et; [done|]. simpl in Hv. simplify_eq.
      pose proof (newest_Some _ _ _ _ E) as (_ & [Hk _]%visible_spec & _). exists e.
      split; [by rewrite Hk|]. apply Ho. by rewrite Hk.
Qed.

Lemma scan_impl_spec `{PriorityQueueOk} ents mes db start stop s :
  db_rep ents mes db →
  ∃ c l, scan_impl start stop s db = (set_cache c db, Ok l) ∧
    db_rep ents mes (set_cache c db) ∧
    StronglySorted key_lt l.*1 ∧
    ∀ k v, (k, v) ∈ l ↔ key_le start k ∧ key_le k stop ∧
      reader_value (lookup_ref (db_entries ents mes db) k s) = Some v.
Proof using Type.
  intros Hdb.
  destruct (rep_scan ents mes db start stop s ents Hdb (rep_agrees _ _ _ _ Hdb)) as (out & Hr & Ho).
  destruct (with_cache_spec ents mes db _ out Hdb Hr) as (c & E & Hc).
  { intros ents' Ha. destruct (rep_scan ents mes db start stop s ents' Hdb Ha) as (a' & ? & _).
    by exists a'. }
  exists c, ((λ e, (e_key e, e_value e)) <$> out). split; [|split; [done|]].
  - unfold scan_impl, gets, liftr, mbind, dbm_bind.
    rewrite (raw_range_represents _ _ start stop (rep_mem _ _ _ Hdb)).
    + change (λ e, bytes_leb start (e_key e) && bytes_leb (e_key e) stop) with (in_range start stop).
      by rewrite E.
    + apply Forall_forall. intros e He. pose proof (rep_mem_ok _ _ _ Hdb) as Hm.
      rewrite Forall_forall in Hm. destruct (Hm e He) as [? _]. unfold u64_max. lia.
  - by apply shows_range_pairs.
Qed.

(** ** Writes *)

(** The entries of a batch of records enter the memtable in order. *)
Definition insert_records (rs : list WalRecord) (mes : list Entry) : list Entry :=
  fold_left (λ es r, insert_entry (record_entry r) es) rs mes.

Lemma apply_record_represents m mes r coins :
  represents m mes →
  ∃ m', apply_record m r coins = Ok m' ∧ represents m' (insert_entry (record_entry r) mes).
Proof using Type.
  intros Hm. unfold apply_record, record_entry. destruct (byte_eq_dec (r_type r) RecPut).
  - destruct (put_represents m mes (r_key r) (r_value r) (r_seq r) coins Hm) as (m' & ? & ? & _). eauto.
  - destruct (del_represents m mes (r_key r) (r_seq r) coins Hm) as (m' & ? & ? & _). eauto.
Qed.

Lemma apply_records_represents m mes rs coins :
  represents m mes →
  ∃ m', apply_records m rs coins = Ok m' ∧ represents m' (insert_records rs mes).
Proof using Type.
  revert m mes coins. induction rs as [|r rs IH]; intros m mes coins Hm; [by exists m|].
  destruct (apply_record_represents m mes r (default [] (head coins)) Hm) as (m1 & E1 & H1).
  destruct (IH m1 _ (tail coins) H1) as (m2 & E2 & H2). exists m2. split; [|exact H2].
  cbn [apply_records]. by rewrite E1.
Qed.

Lemma insert_records_perm rs mes : insert_records rs mes ≡ₚ (record_entry <$> rs) ++ mes.
Proof using Type.
  revert mes. induction rs as [|r rs IH]; intros mes; [done|]. simpl. rewrite IH.
  rewrite insert_entry_perm. by rewrite Permutation_middle.
Qed.

(** Without wrap-around the numbers of a batch are consecutive. *)
Lemma assign_seqs_next s batch :
  0 ≤ s → s + Z.of_nat (length batch) < 2 ^ 64 →
  (assign_seqs s batch).2 = s + Z.of_nat (length batch).
Proof using Type.
  revert s. induction batch as [|r batch IH]; intros s Hs Hb; cbn [assign_seqs length snd] in *; [lia|].
  rewrite u64_small by lia. rewrite IH; lia.
Qed.

Lemma record_entry_ok s r :
  0 ≤ s < 2 ^ 64 → request_ok r →
  sst_entry_ok (record_entry (mkRecord (q_type r) s (q_key r) (q_value r))) ∧
  record_ok (mkRecord (q_type r) s (q_key r) (q_value r)).
Proof using Type.
  intros Hs (Hk & Hv & _). unfold record_entry, sst_entry_ok, record_ok, kMaxLen in *.
  split; [|done]. cbn [r_type r_key r_value r_seq].
  destruct (byte_eq_dec _ _); cbn [e_key e_value e_tombstone e_seq]; split_and!; try done; try lia.
Qed.

(** The write behind a record of the log. *)
Definition record_request (r : WalRecord) : WriteRequest := mkRequest (r_type r) (r_key r) (r_value r).

(** The newest record decides what current readers see. *)
Lemma record_lookup mes ls r m :
  layers_ok (r_seq r) (mes :: ls) → r_seq r ≤ u64_max →
  (∀ k, reader_value (lookup_ref (mjoin (mes :: ls)) k u64_max) = m !! k) →
  ∀ k, reader_value (lookup_ref (mjoin (insert_entry (record_entry r) mes :: ls)) k u64_max) =
    spec_write m (record_request r) !! k.
Proof using Type.
  intros Hl Hs Hm k.
  assert (e_seq (record_entry r) = r_seq r) as Hseq by (unfold record_entry; by case_match).
  rewrite (insert_lookup (r_seq r)) by done.
  unfold record_entry, record_request, spec_write. cbn [q_type q_key q_value].
  destruct (byte_eq_dec (r_type r) RecPut) as [Et|Et]; unfold visible;
    cbn [e_key e_seq answer e_tombstone e_value reader_value];
    rewrite (proj2 (Z.leb_le _ _)) by done; rewrite andb_true_r;
    destruct (bytes_eqb (r_key r) k) eqn:E; key_hyps.
  - subst k. by rewrite lookup_insert_eq.
  - by rewrite lookup_insert_ne.
  - subst k. by rewrite lookup_delete_eq.
  - by rewrite lookup_delete_ne.
Qed.

(** The effect of a batch: the layers stay ordered, the current contents
    change as the contract says, and no older snapshot notices. *)
Lemma assign_seqs_layers batch s mes ls :
  Forall request_ok batch → 1 ≤ s → s + Z.of_nat (length batch) < 2 ^ 64 →
  layers_ok s (mes :: ls) → Forall sst_entry_ok mes →
  let rs := (assign_seqs s batch).1 in
  let mes' := insert_records rs mes in
  layers_ok (s + Z.of_nat (length batch)) (mes' :: ls) ∧ Forall sst_entry_ok mes' ∧
  Forall record_ok rs ∧
  (∀ k s', s' < s → reader_value (lookup_ref (mjoin (mes' :: ls)) k s') =
    reader_value (lookup_ref (mjoin (mes :: ls)) k s')) ∧
  (∀ m, (∀ k, reader_value (lookup_ref (mjoin (mes :: ls)) k u64_max) = m !! k) →
    ∀ k, reader_value (lookup_ref (mjoin (mes' :: ls)) k u64_max) =
      fold_left spec_write batch m !! k).
Proof using Type.
  intros Hb. revert s mes. induction Hb as [|r batch Hr Hb IH]; intros s mes Hs Hn Hl Hm.
  { cbn [length assign_seqs fst insert_records fold_left]. rewrite Z.add_0_r. split_and!; auto. }
  cbn [length] in Hn. cbn [assign_seqs fst]. rewrite u64_small by lia.
  set (rec := mkRecord (q_type r) s (q_key r) (q_value r)).
  destruct (record_entry_ok s r ltac:(lia) Hr) as [He Hrec].
  assert (e_seq (record_entry rec) = s) as Hseq by (unfold record_entry; by case_match).
  pose proof (insert_layers s mes ls (record_entry rec) Hl Hseq) as Hl'.
  destruct (IH (s + 1) (insert_entry (record_entry rec) mes)) as (H1 & H2 & H3 & H4 & H5);
    [lia|lia|done| |].
  { rewrite insert_entry_perm. by constructor. }
  cbn [insert_records fold_left]. fold rec.
  assert (s + 1 + Z.of_nat (length batch) = s + Z.of_nat (length (r :: batch))) as En
    by (cbn [length]; lia).
  split_and!; [by rewrite <- En|done|by constructor| |].
  - intros k s' Hlt. etrans; [apply H4; lia|]. rewrite (insert_lookup s) by done.
    rewrite (proj2 (visible_false _ _ _)) by (right; lia). done.
  - intros m Hmap k. apply H5. apply (record_lookup mes ls rec m); [done|unfold u64_max; cbn; lia|done].
Qed.

Lemma dbm_bind_ok {A B} (m : dbm A) (f : A → dbm B) db db' a :
  m db = (db', Ok a) → (m ≫= f) db = f a db'.
Proof using Type. intros E. unfold mbind, dbm_bind. by rewrite E. Qed.

Lemma append_wal_ok rs db :
  wal_null db = false →
  append_wal rs db = (set_wal (append_batch (wal_ db) rs).1 false db, Ok tt).
Proof.
  intros Hw. unfold append_wal. rewrite Hw. destruct (append_batch_ok (wal_ db) rs) as (E & _).
  by rewrite E.
Qed.

(** Behind the log, the batch is in the memtable. *)
Lemma commit_batch_spec ents mes db batch coins :
  db_rep ents mes db → Forall request_ok batch →
  next_seq_ db + Z.of_nat (length batch) < 2 ^ 64 →
  let rs := (assign_seqs (next_seq_ db) batch).1 in
  ∃ m', represents m' (insert_records rs mes) ∧ (batch = [] → m' = memtable_ db) ∧
    (rs ← take_numbers batch; commit_records rs coins) db =
      (set_memtable m' (set_wal (append_batch (wal_ db) rs).1 false
        (set_next_seq (next_seq_ db + Z.of_nat (length batch)) db)), Ok tt).
Proof.
  intros Hdb Hb Hn rs. pose proof (rep_next _ _ _ Hdb) as Hnext.
  destruct (apply_records_represents (memtable_ db) mes rs coins (rep_mem _ _ _ Hdb))
    as (m' & E & Hm'). exists m'. split_and!; [done| |].
  - intros ->. subst rs. simpl in E. by injection E.
  - erewrite dbm_bind_ok by reflexivity. unfold commit_records.
    erewrite dbm_bind_ok by (apply append_wal_ok; apply Hdb). rewrite assign_seqs_next by lia.
    erewrite dbm_bind_ok by reflexivity. fold rs. cbn [memtable_ set_wal set_next_seq].
    erewrite dbm_bind_ok; [reflexivity|]. unfold liftr. rewrite E. reflexivity.
Qed.

(** A batch costs one sync of the log, however many writes it holds. *)
Lemma batch_one_fsync ents mes db batch coins :
  db_rep ents mes db → Forall request_ok batch → batch ≠ [] →
  next_seq_ db + Z.of_nat (length batch) < 2 ^ 64 →
  wal_fsync_count ((rs ← take_numbers batch; commit_records rs coins) db).1 =
    match mode_ (wal_ db) with
    | EveryWrite => n ← wal_fsync_count db; Ok (u64 (n + 1))
    | Batched => wal_fsync_count db
    end.
Proof.
  intros Hdb Hb Hne Hn. destruct (commit_batch_spec ents mes db batch coins Hdb Hb Hn) as (m' & _ & _ & E).
  rewrite E. unfold wal_fsync_count. cbn [fst wal_null wal_ set_memtable set_wal].
  assert (wal_null db = false) as -> by apply Hdb.
  destruct batch as [|r batch]; [done|]. cbn [assign_seqs fst append_batch]. unfold wal_write.
  rewrite write_fully_ok. by destruct (mode_ (wal_ db)).
Qed.

(** The count is that of the present log: it starts again with every flush. *)
Lemma fsync_count_restarts db :
  wal_fsync_count (reset_wal db).1 =
    (if sys_resize (f_data (wal_file (wal_ db))) then Ok 0 else Undefined).
Proof using Type. unfold reset_wal, wal_fsync_count. by destruct (sys_resize _). Qed.

Lemma commit_refines ents mes db sp batch m' w :
  refines ents mes db sp → Forall request_ok batch →
  next_seq_ db + Z.of_nat (length batch) < 2 ^ 64 →
  let rs := (assign_seqs (next_seq_ db) batch).1 in
  represents m' (insert_records rs mes) → (batch = [] → m' = memtable_ db) →
  refines ents (insert_records rs mes)
    (set_memtable m' (set_wal w false
      (set_next_seq (next_seq_ db + Z.of_nat (length batch)) db)))
    (mkSpec (fold_left spec_write batch (sp_map sp)) (sp_snaps sp)).
Proof using Type.
  intros Href Hb Hn rs Hm' Hsame. pose proof (rf_rep _ _ _ _ Href) as Hdb.
  pose proof (rep_next _ _ _ Hdb) as Hnext.
  destruct (assign_seqs_layers batch (next_seq_ db) mes (version_layers ents (current_version_ db)))
    as (H1 & H2 & _ & H4 & H5); [done|lia|lia|apply Hdb|apply Hdb|].
  split.
  - split; try apply Hdb; try done; cbn [next_seq_ set_memtable set_wal set_next_seq].
    + intros Hnil. destruct batch as [|r batch].
      * subst rs. simpl in Hnil. cbn [memtable_ set_memtable]. rewrite (Hsame eq_refl). by apply Hdb.
      * apply (f_equal length) in Hnil. rewrite insert_records_perm in Hnil. subst rs.
        cbn [assign_seqs fst] in Hnil. rewrite length_app in Hnil. simpl in Hnil. lia.
    + lia.
  - intros k. apply H5. apply Href.
  - apply Href.
  - intros s m Hs. destruct (rf_snaps _ _ _ _ Href s m Hs) as [Hlt Hk].
    cbn [next_seq_ set_memtable set_wal set_next_seq]. split; [lia|]. intros k.
    rewrite <- Hk. apply H4. lia.
Qed.

(** ** Flush *)

(** [bloom] is a filter for the keys of [es]. *)
Definition filter_for (es : list Entry) (bloom : Bloom.Bloom) : Prop :=
  Bloom.bloom_wf bloom ∧ blen (Bloom.bits_ bloom) ≤ 2 + 2 * Z.of_nat (length es) ∧
  ∀ k, k ∈ e_key <$> es → Bloom.may_contain bloom k = Ok true.

Definition flushed_meta (num : Z) (mes : list Entry) (bloom : Bloom.Bloom) : FileMeta :=
  mkFileMeta num 0 (block_key mes) (last_key mes) (table_of num mes bloom).

Definition table_file (es : list Entry) (bloom : Bloom.Bloom) : File :=
  mkFile (sst_image es bloom) (length (sst_image es bloom)).

Lemma write_level0_spec num mes db :
  represents (memtable_ db) mes → mes ≠ [] → Forall sst_entry_ok mes → sst_fits mes →
  ∃ bloom, filter_for mes bloom ∧
    write_level0 num db = (set_dir (<[num := table_file mes bloom]> (db_dir db)) db,
      Ok (flushed_meta num mes bloom)).
Proof.
  intros Hm Hne Hok Hfit. destruct (finish_image mes Hok Hfit) as (bloom & _ & Hwf & Hbits & Hin & Hf).
  destruct (add_entries_ok mes Hok Hfit) as (w & Ha & Hsk & Hlk).
  exists bloom. split; [by split|]. unfold write_level0.
  erewrite dbm_bind_ok by reflexivity.
  erewrite dbm_bind_ok by (unfold liftr; rewrite (raw_entries_represents _ _ Hm); reflexivity).
  erewrite dbm_bind_ok by (unfold liftr; rewrite Ha; reflexivity).
  rewrite Ha in Hf. cbn [mbind result_bind] in Hf.
  erewrite dbm_bind_ok by (unfold liftr; rewrite Hf; reflexivity).
  erewrite dbm_bind_ok by reflexivity.
  erewrite dbm_bind_ok by (unfold liftr, install; rewrite sys_rename_ok; reflexivity).
  erewrite dbm_bind_ok by reflexivity.
  erewrite dbm_bind_ok by (unfold liftr; cbn [f_data]; rewrite sst_open_image by done; reflexivity).
  rewrite Hsk, Hlk. reflexivity.
Qed.

(** The new file is the first one a read visits. *)
Lemma push_level0_layers ents v fm :
  length (files v) = kMaxLevels →
  version_layers ents (push_level0 v fm) = ents (fm_number fm) :: version_layers ents v.
Proof using Type.
  intros Hlen. unfold push_level0, version_layers, files_at. destruct (files v) as [|l0 ls]; [done|].
  cbn [files insert list_insert nth drop]. by rewrite rev_unit.
Qed.

Lemma push_level0_ok content ents v fm :
  version_ok content ents v → file_ok content ents fm → version_ok content ents (push_level0 v fm).
Proof using Type.
  intros [Hl Hf Hd] Hfm. unfold push_level0, files_at. destruct v as [[|l0 ls]]; [done|].
  apply Forall_cons in Hf as [Hf0 Hf]. split; cbn [files insert list_insert nth]; [done| |done].
  constructor; [|done]. apply Forall_app. split; [done|]. by constructor.
Qed.

Lemma push_level0_files v fm :
  length (files v) = kMaxLevels → mjoin (files (push_level0 v fm)) ≡ₚ fm :: mjoin (files v).
Proof using Type.
  intros Hlen. unfold push_level0, files_at. destruct (files v) as [|l0 ls]; [done|].
  cbn [files insert list_insert nth]. rewrite !mjoin_cons.
  rewrite <- (assoc_L (++)). symmetry. apply Permutation_middle.
Qed.

(** What a flush leaves when nothing fails. *)
Definition flushed_db (mes : list Entry) (bloom : Bloom.Bloom) (db : DB) : DB :=
  let num := next_sst_number_ db in
  let ver := push_level0 (current_version_ db) (flushed_meta num mes bloom) in
  let db1 := set_dir (<[num := table_file mes bloom]> (db_dir db)) (set_next_sst (num + 1) db) in
  let db2 := set_manifest (append_snapshot (manifest_ db) (version_to_manifest ver)).1 db1 in
  let db3 := set_wal (wal_open (truncate (wal_file (wal_ db)) 0) (opt_sync (opts_ db))) false
    (set_version ver db2) in
  (trigger_compaction (set_memtable new_memtable db3)).1.

Lemma append_manifest_ok entries db :
  append_manifest entries db =
    (set_manifest (append_snapshot (manifest_ db) entries).1 db, Ok tt).
Proof.
  unfold append_manifest, append_snapshot. rewrite write_fully_ok. reflexivity.
Qed.

Lemma flush_spec mes db :
  represents (memtable_ db) mes → mes ≠ [] → Forall sst_entry_ok mes → sst_fits mes →
  approx_bytes (memtable_ db) ≠ 0 → next_sst_number_ db + 1 < 2 ^ 31 →
  ∃ bloom, filter_for mes bloom ∧ flush db = (flushed_db mes bloom db, Ok tt).
Proof.
  intros Hm Hnil Hok Hfit Hne Hnum. set (num := next_sst_number_ db) in *.
  destruct (write_level0_spec num mes (set_next_sst (num + 1) db)) as (bloom & Hb & E); [done..|].
  exists bloom. split; [done|]. unfold flush. erewrite dbm_bind_ok by reflexivity.
  rewrite (proj2 (Z.eqb_neq _ _)) by done.
  erewrite dbm_bind_ok by (unfold alloc_sst_number; fold num;
    rewrite (proj2 (Z.ltb_lt _ _)) by lia; reflexivity).
  erewrite dbm_bind_ok by exact E. erewrite dbm_bind_ok by reflexivity.
  erewrite dbm_bind_ok by apply append_manifest_ok. erewrite dbm_bind_ok by reflexivity.
  erewrite dbm_bind_ok by (unfold reset_wal; rewrite sys_resize_ok; reflexivity).
  erewrite dbm_bind_ok by reflexivity. unfold flushed_db, trigger_compaction, modify.
  cbn [fst cache_ memtable_ wal_ wal_null manifest_ current_version_ db_dir opts_ next_sst_number_
    next_seq_ live_snapshots_ compaction_pending_ compaction_running_ force_compact_ set_memtable
    set_wal set_manifest set_version set_dir set_next_sst]. reflexivity.
Qed.

Lemma flushed_db_fields mes bloom db :
  let num := next_sst_number_ db in
  let ver := push_level0 (current_version_ db) (flushed_meta num mes bloom) in
  let db' := flushed_db mes bloom db in
  (cache_ db' = cache_ db ∧ memtable_ db' = new_memtable ∧ current_version_ db' = ver ∧
   next_sst_number_ db' = num + 1 ∧ next_seq_ db' = next_seq_ db ∧
   live_snapshots_ db' = live_snapshots_ db ∧ opts_ db' = opts_ db) ∧
  wal_null db' = false ∧
  wal_ db' = wal_open (truncate (wal_file (wal_ db)) 0) (opt_sync (opts_ db)) ∧
  manifest_ db' = (append_snapshot (manifest_ db) (version_to_manifest ver)).1 ∧
  db_dir db' = <[num := table_file mes bloom]> (db_dir db).
Proof using Type.
  cbv zeta. unfold flushed_db, trigger_compaction, modify. cbn [fst]. by case_match.
Qed.

Lemma flushed_version mes bloom db :
  current_version_ (flushed_db mes bloom db) =
    push_level0 (current_version_ db) (flushed_meta (next_sst_number_ db) mes bloom).
Proof using Type. apply flushed_db_fields. Qed.

Lemma flush_refines ents mes db sp bloom :
  refines ents mes db sp → flushable mes → mes ≠ [] → filter_for mes bloom →
  next_sst_number_ db + 1 < 2 ^ 31 →
  let ents' := λ i, if i =? next_sst_number_ db then mes else ents i in
  refines ents' [] (flushed_db mes bloom db) sp ∧ evolves ents db ents' (flushed_db mes bloom db).
Proof.
  intros Href [Hfit Hsep] Hne (Hwf & Hbits & Hin) Hint ents'. pose proof (rf_rep _ _ _ _ Href) as Hdb.
  destruct (flushed_db_fields mes bloom db)
    as ((Ec & Em & Ev & En & Es & Ell & Eo) & Ew & _ & _ & Ed).
  set (num := next_sst_number_ db) in *. set (db' := flushed_db mes bloom db) in *.
  assert (agrees num ents ents') as Hag.
  { split; [intros i; unfold ents'; case_match; [done|apply Hdb]|].
    intros i Hi. unfold ents'. by rewrite (proj2 (Z.eqb_neq _ _)) by lia. }
  assert (ents' num = mes) as Hnum by (unfold ents'; by rewrite Z.eqb_refl).
  destruct (rep_files _ _ _ Hdb ents (rep_agrees _ _ _ _ Hdb)) as [[Hlen _ _] _].
  assert (db_layers ents' [] db' = [] :: db_layers ents mes db) as El.
  { unfold db_layers. rewrite Ev, push_level0_layers by done. cbn [fm_number flushed_meta].
    rewrite Hnum. by rewrite (version_layers_agrees num ents ents') by (done || apply Hdb). }
  assert (db_entries ents' [] db' = db_entries ents mes db) as Ee
    by (unfold db_entries; by rewrite El).
  pose proof (rep_numbers _ _ _ Hdb) as Hnums. fold num in Hnums.
  split; [|split; [split|]; rewrite ?En, ?Es, ?Eo, ?Ev, ?Ell, ?Ed; try (done || lia)].
  2:{ apply Hag. }
  2:{ exists [flushed_meta num mes bloom]. split; [|by repeat constructor; simpl; lia].
      unfold push_level0. by destruct (files (current_version_ db)). }
  2:{ auto. }
  2:{ intros n Hn. by rewrite lookup_insert_ne by lia. }
  split; rewrite ?Ee, ?Ell, ?Es; try apply Href.
  split; rewrite ?Em, ?En, ?Ec, ?Ev, ?Es; try done; try apply Hdb.
  - by apply represents_new; lia.
  - intros ents'' Hag'. destruct (rep_files _ _ _ Hdb ents'') as [Hv Hc].
    { split; [apply Hag'|]. intros i Hi. rewrite (proj2 Hag') by lia. by apply Hag. }
    split; [|done]. apply push_level0_ok; [done|].
    pose proof (rep_mem_ok _ _ _ Hdb) as Hok.
    pose proof (represents_sorted _ _ (rep_mem _ _ _ Hdb)) as Hsort.
    assert (mes = ents'' num) as Em' by (rewrite (proj2 Hag') by lia; done).
    unfold flushed_meta. rewrite Em' in *. by apply table_file_ok.
  - apply Hag.
  - rewrite push_level0_files by done. constructor; [cbn [fm_number flushed_meta]; rewrite Hnum; apply Hdb|].
    pose proof (rep_entries _ _ _ Hdb) as He. rewrite Forall_forall in He, Hnums |- *.
    intros fm Hfm. rewrite (proj2 Hag) by auto. auto.
  - rewrite push_level0_files by done. rewrite fmap_cons. cbn [fm_number flushed_meta].
    constructor; [|apply Hdb]. rewrite Forall_forall in Hnums.
    intros (fm & E & Hfm)%list_elem_of_fmap. specialize (Hnums fm Hfm). lia.
  - rewrite push_level0_files by done. constructor; [cbn [fm_number flushed_meta]; lia|].
    eapply Forall_impl; [exact Hnums|]. simpl. lia.
  - rewrite El. pose proof (rep_layers _ _ _ Hdb) as [Hl Hu Hs]. split; [|done..].
    split; [|done]. intros e e' He. by apply elem_of_nil in He.
Qed.

Lemma mem_entries_represents m mes : represents m mes → mem_entries m = mes.
Proof using Type. intros Hm. unfold mem_entries. by rewrite (raw_entries_represents _ _ Hm). Qed.

Lemma evolves_refl ents mes db : db_rep ents mes db → evolves ents db ents db.
Proof using Type.
  intros Hdb. destruct (rep_files _ _ _ Hdb ents (rep_agrees _ _ _ _ Hdb)) as [[Hlen _ _] _].
  split; [split|]; try done; [|auto]. exists []. unfold files_at. split; [|constructor].
  destruct (files (current_version_ db)); [done|]. simpl. by rewrite app_nil_r, drop_0.
Qed.

(** A flush is invisible to readers. *)
Lemma flush_evolves ents mes db sp :
  refines ents mes db sp → flush_ready db →
  ∃ db' ents' mes', flush db = (db', Ok tt) ∧ refines ents' mes' db' sp ∧ evolves ents db ents' db'.
Proof.
  intros Href Hready. pose proof (rf_rep _ _ _ _ Href) as Hdb.
  destruct (decide (approx_bytes (memtable_ db) = 0)) as [E|E].
  { exists db, ents, mes. split_and!; [|done|by eapply evolves_refl]. unfold flush.
    erewrite dbm_bind_ok by reflexivity. by rewrite E. }
  destruct (Hready E) as [Hf Hn]. rewrite (mem_entries_represents _ mes) in Hf by apply Hdb.
  assert (mes ≠ []) as Hne by (intros Hnil; apply E; by apply Hdb).
  destruct (flush_spec mes db) as (bloom & Hb & Ef); [apply Hdb|done|apply Hdb|apply Hf|done|done|].
  eexists _, _, []. split; [exact Ef|]. by apply (flush_refines ents).
Qed.

Lemma maybe_flush_evolves ents mes db sp :
  refines ents mes db sp →
  (flush_threshold_bytes (opts_ db) ≤ approx_bytes (memtable_ db) → flush_ready db) →
  ∃ db' ents' mes', maybe_flush db = (db', Ok tt) ∧ refines ents' mes' db' sp ∧
    evolves ents db ents' db'.
Proof.
  intros Href Hready. unfold maybe_flush. do 2 (erewrite dbm_bind_ok by reflexivity).
  destruct (Z.leb_spec (flush_threshold_bytes (opts_ db)) (approx_bytes (memtable_ db))).
  - apply (flush_evolves ents mes); auto.
  - exists db, ents, mes. split_and!; [done..|]. eapply evolves_refl, Href.
Qed.

Lemma write_batch_evolves ents mes db sp batch coins :
  refines ents mes db sp → call_safe db (CallWrite batch coins) →
  ∃ db' ents' mes', write_batch batch coins db = (db', Ok tt) ∧
    refines ents' mes' db' (mkSpec (fold_left spec_write batch (sp_map sp)) (sp_snaps sp)) ∧
    evolves ents db ents' db'.
Proof.
  intros Href (Hb & Hn & Hready).
  destruct (commit_batch_spec ents mes db batch coins) as (m' & Hm' & Hsame & E);
    [apply Href|done|done|]. rewrite E in Hready. cbn [fst] in Hready.
  pose proof (commit_refines ents mes db sp batch m' (append_batch (wal_ db)
    (assign_seqs (next_seq_ db) batch).1).1 Href Hb Hn Hm' Hsame) as Href'.
  destruct (maybe_flush_evolves ents _ _ _ Href' Hready) as (db' & ents' & mes' & Ef & Hf & Hev).
  exists db', ents', mes'. split_and!; [|done|].
  - unfold write_batch. erewrite dbm_bind_ok by reflexivity. erewrite dbm_bind_ok in E by reflexivity.
    erewrite dbm_bind_ok by exact E. exact Ef.
  - destruct Hev as [[E1 E2 E3 E4 E5 E6] E7]. cbn [next_sst_number_ next_seq_ opts_ current_version_
      live_snapshots_ db_dir set_memtable set_wal set_next_seq] in *.
    split; [split; [done|done|lia|done|done|]|done].
    intros s Hs. destruct (E6 s Hs); [by left|right; lia].
Qed.

(** ** Snapshots *)

(** A reader at or above every number reads the current contents. *)
Lemma lookup_current es k s :
  Forall (λ e, e_seq e ≤ s) es → s ≤ u64_max → lookup_ref es k s = lookup_ref es k u64_max.
Proof using Type.
  intros Hs Hmax. unfold lookup_ref. f_equal. induction Hs as [|e es He _ IH]; [done|].
  simpl. rewrite IH. unfold visible. by rewrite !(proj2 (Z.leb_le _ _)) by lia.
Qed.

Lemma set_snapshots_rep ents mes db S : db_rep ents mes db → db_rep ents mes (set_snapshots S db).
Proof using Type. intros []. by split. Qed.

Lemma get_snapshot_refines ents mes db sp :
  refines ents mes db sp →
  ∃ s, s = next_seq_ db - 1 ∧ get_snapshot db = (set_snapshots ({[+ s +]} ⊎ live_snapshots_ db) db, Ok s) ∧
    refines ents mes (set_snapshots ({[+ s +]} ⊎ live_snapshots_ db) db)
      (mkSpec (sp_map sp) ((s, sp_map sp) :: sp_snaps sp)).
Proof.
  intros [Hdb Hmap Hlive Hsn]. pose proof (rep_next _ _ _ Hdb) as Hn.
  exists (next_seq_ db - 1). split_and!; [done|unfold get_snapshot; by rewrite u64_small by lia|].
  split; [by apply set_snapshots_rep|done| |].
  - cbn [live_snapshots_ set_snapshots sp_snaps]. rewrite fmap_cons. by rewrite Hlive.
  - intros s m [[= -> ->]|Hs]%elem_of_cons; [|by apply Hsn].
    cbn [next_seq_ set_snapshots]. split; [lia|]. intros k. rewrite <- Hmap. f_equal.
    apply lookup_current; [|unfold u64_max; lia].
    eapply Forall_impl; [apply (lo_seqs _ _ (rep_layers _ _ _ Hdb))|]. simpl. lia.
Qed.

Lemma release_snapshot_refines ents mes db sp s :
  refines ents mes db sp →
  ∃ S sp', S ⊆ live_snapshots_ db ∧ release_snapshot s db = (set_snapshots S db, Ok tt) ∧
    spec_step sp (CallRelease s) Done sp' ∧ refines ents mes (set_snapshots S db) sp'.
Proof.
  intros [Hdb Hmap Hlive Hsn]. unfold release_snapshot. case_bool_decide as Hin.
  - rewrite Hlive, elem_of_list_to_set_disj in Hin.
    apply list_elem_of_fmap in Hin as ([s' m] & -> & Hin). cbn [fst].
    apply list_elem_of_split in Hin as (l1 & l2 & E).
    eexists _, (mkSpec (sp_map sp) (l1 ++ l2)). split_and!; [|done|by econstructor|]; [multiset_solver|].
    split; [by apply set_snapshots_rep|done| |].
    + cbn [live_snapshots_ set_snapshots sp_snaps]. rewrite Hlive, E, !fmap_app, fmap_cons. cbn [fst].
      rewrite !list_to_set_disj_app. simpl. multiset_solver.
    + intros s m' Hs. cbn [sp_snaps] in Hs. apply Hsn. rewrite E. set_solver.
  - assert (set_snapshots (live_snapshots_ db) db = db) as Eid by (by destruct db).
    exists (live_snapshots_ db), sp. rewrite Eid. split_and!; [done|done| |done]. constructor.
    rewrite <- elem_of_list_to_set_disj, <- Hlive. done.
Qed.

End DbLemmas.

(** ** One call *)

Lemma set_cache_refines `{Posix} ents mes db sp c :
  refines ents mes db sp → db_rep ents mes (set_cache c db) → refines ents mes (set_cache c db) sp.
Proof. intros [? ? ? ?] Hc. by split. Qed.

Lemma snap_of_live `{Posix} ents mes db sp s :
  refines ents mes db sp → s ∈ live_snapshots_ db → ∃ m, (s, m) ∈ sp_snaps sp.
Proof.
  intros Href Hs. rewrite (rf_live _ _ _ _ Href), elem_of_list_to_set_disj in Hs.
  apply list_elem_of_fmap in Hs as ([s' m] & -> & Hs). by exists m.
Qed.

(** Calls that read change the cache and the snapshots only. *)
Definition is_read (c : call) : Prop :=
  match c with CallWrite _ _ | CallFlush => False | _ => True end.

#[export] Instance is_read_dec c : Decision (is_read c).
Proof. destruct c; apply _. Defined.

Definition same_files (db db' : DB) : Prop :=
  wal_ db' = wal_ db ∧ manifest_ db' = manifest_ db ∧ current_version_ db' = current_version_ db ∧
  db_dir db' = db_dir db ∧ opts_ db' = opts_ db ∧ next_sst_number_ db' = next_sst_number_ db.

Lemma read_call_refines `{PosixOk} `{PriorityQueueOk} ents mes db sp c :
  refines ents mes db sp → is_read c → call_safe db c →
  ∃ db' r sp', run_call c db = (db', Ok r) ∧ spec_step sp c r sp' ∧
    refines ents mes db' sp' ∧ same_files db db' ∧ evolves ents db ents db'.
Proof.
  intros Href Hread Hsafe. pose proof (evolves_refl _ _ _ (rf_rep _ _ _ _ Href)) as Hev.
  destruct c as [| |k|k s|start stop|start stop s| |s]; [done|done|..]; unfold run_call.
  - destruct (get_impl_spec ents mes db k u64_max) as (c & E & Hc); [apply Href|].
    erewrite dbm_bind_ok by exact E. rewrite (rf_map _ _ _ _ Href).
    eexists _, _, _. split_and!; [done|constructor|by apply set_cache_refines|done|by destruct Hev as [[]]].
  - destruct (snap_of_live _ _ _ _ _ Href Hsafe) as [m Hm].
    destruct (get_impl_spec ents mes db k s) as (c & E & Hc); [apply Href|].
    erewrite dbm_bind_ok by exact E. rewrite (proj2 (rf_snaps _ _ _ _ Href s m Hm)).
    eexists _, _, _. split_and!; [done|by constructor|by apply set_cache_refines|done|by destruct Hev as [[]]].
  - destruct (scan_impl_spec ents mes db start stop u64_max) as (c & l & E & Hc & Hs & Hl); [apply Href|].
    erewrite dbm_bind_ok by exact E.
    eexists _, _, _. split_and!; [done|constructor|by apply set_cache_refines|done|by destruct Hev as [[]]].
    split; [done|]. intros k v. by rewrite Hl, (rf_map _ _ _ _ Href).
  - destruct (snap_of_live _ _ _ _ _ Href Hsafe) as [m Hm].
    destruct (scan_impl_spec ents mes db start stop s) as (c & l & E & Hc & Hs & Hl); [apply Href|].
    erewrite dbm_bind_ok by exact E.
    eexists _, _, _. split_and!; [done| |by apply set_cache_refines|done|by destruct Hev as [[]]].
    eapply spec_step_scan_at; [done|]. split; [done|]. intros k v.
    by rewrite Hl, (proj2 (rf_snaps _ _ _ _ Href s m Hm)).
  - destruct (get_snapshot_refines ents mes db sp Href) as (s & Hs & E & Href').
    erewrite dbm_bind_ok by exact E. eexists _, _, _. split_and!; [done|constructor|done|done|].
    destruct Hev as [[? ? ? ? ? Hl] ?]. split; [split|]; try done. cbn [live_snapshots_ set_snapshots].
    intros s' [->%gmultiset_elem_of_singleton|?]%gmultiset_elem_of_disj_union; [right; lia|auto].
  - destruct (release_snapshot_refines ents mes db sp s Href) as (S & sp' & HS & E & Hs & Href').
    erewrite dbm_bind_ok by exact E. eexists _, _, _. split_and!; [done|done|done|done|].
    destruct Hev as [[? ? ? ? ? Hl] ?]. split; [split|]; try done. cbn [live_snapshots_ set_snapshots].
    intros s' Hs'. left. multiset_solver.
Qed.

Lemma call_refines `{PosixOk} `{PriorityQueueOk} ents mes db sp c :
  refines ents mes db sp → call_safe db c →
  ∃ db' r sp' ents' mes', run_call c db = (db', Ok r) ∧ spec_step sp c r sp' ∧
    refines ents' mes' db' sp' ∧ evolves ents db ents' db'.
Proof.
  intros Href Hsafe. destruct (decide (is_read c)) as [Hread|Hread].
  - destruct (read_call_refines ents mes db sp c Href Hread Hsafe)
      as (db' & r & sp' & ? & ? & ? & _ & ?).
    by exists db', r, sp', ents, mes.
  - destruct c as [batch coins| | | | | | |]; try (by destruct Hread); unfold run_call.
    + destruct (write_batch_evolves ents mes db sp batch coins Href Hsafe)
        as (db' & ents' & mes' & E & Href' & Hev).
      erewrite dbm_bind_ok by exact E. eexists _, _, _, ents', mes'. by split_and!; [|constructor|..].
    + destruct (flush_evolves ents mes db sp Href Hsafe) as (db' & ents' & mes' & E & Href' & Hev).
      erewrite dbm_bind_ok by exact E. eexists _, _, _, ents', mes'. by split_and!; [|constructor|..].
Qed.

Lemma call_refined `{PosixOk} `{PriorityQueueOk} db sp c :
  refined db sp → call_safe db c →
  ∃ db' r sp', run_call c db = (db', Ok r) ∧ spec_step sp c r sp' ∧ refined db' sp'.
Proof.
  intros (ents & mes & Href) Hsafe.
  destruct (call_refines ents mes db sp c Href Hsafe) as (db' & r & sp' & ents' & mes' & ? & ? & ? & _).
  exists db', r, sp'. split_and!; [done..|by exists ents', mes'].
Qed.

(** The empty database implements the empty map. *)
Lemma DB_new_refines `{PosixOk} o :
  0 ≤ block_cache_bytes o < 2 ^ 63 → refines (λ _, []) [] (DB_new o) (mkSpec ∅ []).
Proof.
  intros Ho. split; cbn [sp_map sp_snaps]; [|done|done|].
  - split; try done.
    + by apply represents_new; lia.
    + intros ents' [Hfit _]. split.
      * split; [done|by repeat constructor|]. simpl. by repeat constructor.
      * unfold DB_new. cbn [cache_]. case_match; [|done]. split_and!; [by split; try constructor|..].
        -- simpl. lia.
        -- simpl. lia.
        -- intros k. cbn [capacity_ BlockCache_new]. pose proof (content_of_fits ents' k (Hfit k.1)). lia.
    + constructor.
    + constructor; simpl; try done. all: repeat split; intros ??; by rewrite ?elem_of_nil.
  - intros s m Hs. by apply elem_of_nil in Hs.
Qed.

Lemma DB_new_refined `{PosixOk} o :
  0 ≤ block_cache_bytes o < 2 ^ 63 → refined (DB_new o) (mkSpec ∅ []).
Proof. intros Ho. exists (λ _, []), []. by apply DB_new_refines. Qed.

(** ** Sequences of calls *)

Fixpoint run_calls `{Posix} `{PriorityQueue} (cs : list call) : dbm (list response) :=
  match cs with
  | [] => mret []
  | c :: cs' => r ← run_call c; rs ← run_calls cs'; mret (r :: rs)
  end.

(** Each call is safe in the state it meets. *)
Fixpoint calls_safe `{Posix} `{PriorityQueue} (db : DB) (cs : list call) : Prop :=
  match cs with
  | [] => True
  | c :: cs' => call_safe db c ∧ calls_safe (run_call c db).1 cs'
  end.

Inductive spec_run : Spec → list call → list response → Spec → Prop :=
| spec_run_nil sp : spec_run sp [] [] sp
| spec_run_cons sp c r sp1 cs rs sp2 :
    spec_step sp c r sp1 → spec_run sp1 cs rs sp2 → spec_run sp (c :: cs) (r :: rs) sp2.

Lemma calls_refined `{PosixOk} `{PriorityQueueOk} db sp cs :
  refined db sp → calls_safe db cs →
  ∃ db' rs sp', run_calls cs db = (db', Ok rs) ∧ spec_run sp cs rs sp' ∧ refined db' sp'.
Proof.
  revert db sp. induction cs as [|c cs IH]; intros db sp Href Hsafe.
  { exists db, [], sp. split_and!; [done|constructor|done]. }
  destruct Hsafe as [Hc Hcs]. destruct (call_refined db sp c Href Hc) as (db1 & r & sp1 & E & Hs & Href1).
  rewrite E in Hcs. destruct (IH db1 sp1 Href1 Hcs) as (db2 & rs & sp2 & E2 & Hs2 & Href2).
  exists db2, (r :: rs), sp2. split_and!; [|by econstructor|done].
  cbn [run_calls]. erewrite dbm_bind_ok by exact E. erewrite dbm_bind_ok by exact E2. done.
Qed.

(** With one version per key the memtable can always be laid out. *)
Lemma keys_separate_nodup bs : NoDup (e_key <$> mjoin bs) → keys_separate bs.
Proof.
  induction bs as [|b bs IH]; [done|]. rewrite mjoin_cons, fmap_app, NoDup_app.
  intros (_ & Hd & Hn). split; [|auto]. intros e e' He He' Ek. apply (Hd (e_key e)).
  - by apply list_elem_of_fmap_2.
  - rewrite Ek. by apply list_elem_of_fmap_2.
Qed.

Lemma flushable_nodup es : sst_fits es → NoDup (e_key <$> es) → flushable es.
Proof. intros Hf Hn. split; [done|]. apply keys_separate_nodup. by rewrite mjoin_layout. Qed.

(** ** The conditions of use can be decided *)

#[export] Instance keys_separate_dec bs : Decision (keys_separate bs).
Proof.
  induction bs as [|b bs IH]; [by left|].
  destruct (decide (Forall (λ e, Forall (λ e', e_key e ≠ e_key e') (mjoin bs)) b)) as [Hf|Hf];
    [destruct IH as [Hs|Hs]; [left|right]|right].
  - split; [|done]. intros e e' He He'. rewrite Forall_forall in Hf.
    specialize (Hf e He). rewrite Forall_forall in Hf. auto.
  - by intros [_ ?].
  - intros [Hb _]. apply Hf, Forall_forall. intros e He. apply Forall_forall. eauto.
Defined.

#[export] Instance request_ok_dec r : Decision (request_ok r).
Proof. unfold request_ok. apply _. Defined.

#[export] Instance flush_ready_dec db : Decision (flush_ready db).
Proof. unfold flush_ready, flushable, sst_fits. apply _. Defined.

#[export] Instance call_safe_dec `{Posix} db c : Decision (call_safe db c).
Proof. destruct c; simpl; apply _. Defined.

#[export] Instance calls_safe_dec `{Posix} `{PriorityQueue} db cs : Decision (calls_safe db cs).
Proof. revert db. induction cs as [|c cs IH]; intros db; simpl; apply _. Defined.

(** * Properties *)

(** Every call does what the contract says. From a database that
    implements a map with snapshots, any call within the conditions of use
    runs to completion and returns what the map returns: reads and scans the
    current contents, reads and scans at a live snapshot the contents at the
    time it was taken, whatever was written, flushed and cached since. The
    database it leaves implements the map after the call. *)
Theorem db_simulation `{PosixOk} `{PriorityQueueOk} (db : DB) (sp : Spec) (c : call)
    (Href : refined db sp) (Hsafe : call_safe db c) :
  ∃ db' r sp', run_call c db = (db', Ok r) ∧ spec_step sp c r sp' ∧ refined db' sp'.
Proof. by apply call_refined. Qed.

(** Any sequence of calls on a fresh database, each within the conditions
    of use, gives the responses of the contract started from the empty map. *)
Theorem db_trace `{PosixOk} `{PriorityQueueOk} (o : Options) (cs : list call)
    (Ho : 0 ≤ block_cache_bytes o < 2 ^ 63) (Hsafe : calls_safe (DB_new o) cs) :
  ∃ db rs sp, run_calls cs (DB_new o) = (db, Ok rs) ∧ spec_run (mkSpec ∅ []) cs rs sp ∧
    refined db sp.
Proof. apply calls_refined; [|done]. by apply DB_new_refined. Qed.

(** ** A concrete run *)

Definition ex_options : Options := {|
  opt_sync := EveryWrite; flush_threshold_bytes := 130; compaction_trigger := 4;
  block_cache_bytes := 1000; target_file_size := 2000; l1_max_bytes := 8000;
  level_size_multiplier := 10;
|}.

Definition ex_calls : list call :=
  [CallWrite [put_request (bs "a") (bs "1"); put_request (bs "b") (bs "2")] [[true]; []];
   CallGet (bs "a"); CallSnapshot;
   CallWrite [del_request (bs "a"); put_request (bs "c") (bs "3")] [[]; [true; true]];
   CallGet (bs "a"); CallGetAt (bs "a") 2; CallFlush; CallScan (bs "a") (bs "z");
   CallScanAt (bs "a") (bs "b") 2; CallRelease 2; CallGet (bs "c")].

(** The table files written in the run, and the responses. *)
Definition ex_run : DB * result (list response) :=
  run_calls (H := ex_posix) (H0 := first_pq) ex_calls (DB_new ex_options).

Lemma ex_calls_safe : calls_safe (H := ex_posix) (H0 := first_pq) (DB_new ex_options) ex_calls.
Proof. apply (bool_decide_unpack _). vm_compute. exact I. Qed.

Lemma ex_options_ok : 0 ≤ block_cache_bytes ex_options < 2 ^ 63.
Proof. simpl. lia. Qed.

Lemma db_trace_witness :
  ∃ db sp, ex_run = (db, Ok [Done; Value (Some (bs "1")); Handle 2; Done; Value None;
      Value (Some (bs "1")); Done; Pairs [(bs "b", bs "2"); (bs "c", bs "3")];
      Pairs [(bs "a", bs "1"); (bs "b", bs "2")]; Done; Value (Some (bs "3"))]) ∧
    refined (H := ex_posix) db sp.
Proof.
  destruct (db_trace (H := ex_posix) (H1 := first_pq) ex_options ex_calls ex_options_ok
    ex_calls_safe) as (db & rs & sp & E & _ & Href).
  exists db, sp. split; [|exact Href].
  assert (rs = match ex_run.2 with Ok rs' => rs' | _ => [] end) as -> by (unfold ex_run; rewrite E; reflexivity).
  transitivity (ex_run.1, ex_run.2); [apply surjective_pairing|].
  assert (ex_run.1 = db) as -> by (unfold ex_run; rewrite E; reflexivity).
  f_equal.
Defined.

Lemma db_simulation_witness :
  ∃ db' r sp', run_call (H := ex_posix) (H0 := first_pq)
      (CallWrite [put_request (bs "k") (bs "v")] [[true]]) (DB_new ex_options) = (db', Ok r) ∧
    spec_step (mkSpec ∅ []) (CallWrite [put_request (bs "k") (bs "v")] [[true]]) r sp' ∧
    refined (H := ex_posix) db' sp'.
Proof.
  apply (db_simulation (H := ex_posix) (H1 := first_pq)).
  - apply DB_new_refined. exact ex_options_ok.
  - apply (bool_decide_unpack _). vm_compute. exact I.
Defined.
