(* ===== verification/Recovery.v ===== *)
(** Opening a database ([DB::open] in src/src/db.cpp) and what survives a
    crash.

    [Disk] is what a directory holds when a process opens it.  A process that
    ends leaves its files as they are, with what is not yet on the medium; a
    crash leaves of every file its synced part and any further part of what was
    appended, and may undo a truncation that was not synced ([crash_disk]).
    Opening gives a database that implements the map of the writes that are
    left. *)

From stdpp Require Import gmultiset.
From S2P Require Import Prelude Coding Wal Entry Manifest Memtable BlockCache SSTableWriter SSTable MergeIterator Version Compaction Levels Db.
Local Open Scope Z_scope.

(** * Definitions *)

(** The files of a directory: [wal.log], [MANIFEST] and the tables by number.
    Temporary files of a writer are not shown; [open] deletes them. *)
Record Disk := mkDisk {
  wal_on : option File;
  manifest_on : option File;
  ssts_on : gmap Z File;
}.

(** What a process reads. *)
Definition disk_wal (d : Disk) : option bytes := f_data <$> wal_on d.
Definition disk_manifest (d : Disk) : option bytes := f_data <$> manifest_on d.
Definition disk_ssts (d : Disk) : gmap Z bytes := f_data <$> ssts_on d.

(** A file that is on the medium. *)
Definition on_disk (data : bytes) : File := mkFile data (length data).

(** The sum of the record sizes in [open]. *)
Definition valid_end (rs : list WalRecord) : Z :=
  fold_left (λ n r, u64 (n + (21 + blen (r_key r) + blen (r_value r)))) rs 0.

Definition max_wal_seq (rs : list WalRecord) : Z :=
  fold_left (λ m r, if m <? r_seq r then r_seq r else m) rs 0.

(** The numbers of the table files, as [std::map] lists them. *)
Definition dir_numbers (ssts : gmap Z bytes) : list Z := merge_sort Z.le (elements (dom ssts)).

Definition max_number (numbers : list Z) : Z := fold_left Z.max numbers 0.

(** [ver->files[level].push_back(fm)] *)
Definition place_file (fs : list (list FileMeta)) (fm : FileMeta) : list (list FileMeta) :=
  let l := Z.to_nat (fm_level fm) in <[l := nth l fs [] ++ [fm]]> fs.

(** [std::sort] by number. *)
Fixpoint insert_by_number (fm : FileMeta) (fms : list FileMeta) : list FileMeta :=
  match fms with
  | [] => [fm]
  | x :: fms' => if fm_number fm <? fm_number x then fm :: fms else x :: insert_by_number fm fms'
  end.

Definition sort_by_number (fms : list FileMeta) : list FileMeta :=
  fold_right insert_by_number [] fms.

(** Every level by number, then the levels above 0 by smallest key. *)
Definition sort_levels (fs : list (list FileMeta)) : list (list FileMeta) :=
  match sort_by_number <$> fs with
  | [] => []
  | l0 :: ls => l0 :: (sort_files <$> ls)
  end.

(** [if (fm.table->max_seq() > max_sst_seq) max_sst_seq = fm.table->max_seq();] *)
Definition later_seq (m : Z) (fm : FileMeta) : Z :=
  let s := footer_max_seq (footer_ (fm_table fm)) in if m <? s then s else m.

Definition max_sst_seq (v : Version) : Z := fold_left later_seq (mjoin (files v)) 0.

Section OpenOps.
Context `{Posix}.

(** [std::filesystem::resize_file] *)
Definition resize_file (f : File) (n : nat) : result File :=
  if sys_resize (f_data f) then Ok (truncate f n) else Throw "cannot resize file".

(** The memtable, the highest number and the log after replay. *)
Definition recover_wal (wal : option File) (coins : list (list bool))
  : result (Memtable * Z * File) :=
  match wal with
  | None => Ok (new_memtable, 0, mkFile [] 0)
  | Some f =>
      let records := replay (Some (f_data f)) in
      m ← apply_records new_memtable records coins;
      f' ← resize_file f (Z.to_nat (valid_end records));
      Ok (m, max_wal_seq records, f')
  end.

(** The key range of a table whose manifest entry has none. *)
Definition table_range (table : SSTable) (sk lk : bytes) : cached (bytes * bytes) :=
  begin_it ← sst_begin table;
  if negb (it_valid begin_it) then mret (sk, lk) else
  sit ← sst_begin table;
  es ← iter_collect (S (Z.to_nat (footer_entry_count (footer_ table)))) table sit;
  mret (e_key (it_current begin_it), default lk (e_key <$> last es)).

(** The body of the loop over the live entries; a missing file is skipped. *)
Definition open_entry (ssts : gmap Z bytes) (e : ManifestEntry) : cached (option FileMeta) :=
  match ssts !! m_number e with
  | None => mret None
  | Some file =>
      table ← lift (sst_open (m_number e) file);
      let level := if (m_level e <? 0) || (Z.of_nat kMaxLevels <=? m_level e) then 0
                   else m_level e in
      range ← (if bool_decide (m_smallest e = []) || bool_decide (m_largest e = [])
               then table_range table (m_smallest e) (m_largest e)
               else mret (m_smallest e, m_largest e));
      mret (Some (mkFileMeta (m_number e) level range.1 range.2 table))
  end.

Fixpoint load_files (ssts : gmap Z bytes) (live : list ManifestEntry)
    (fs : list (list FileMeta)) : cached (list (list FileMeta)) :=
  match live with
  | [] => mret fs
  | e :: live' =>
      fm ← open_entry ssts e;
      load_files ssts live' (match fm with Some fm => place_file fs fm | None => fs end)
  end.

(** The live set; without a manifest, every table file on level 0. *)
Definition live_entries (d : Disk) : list ManifestEntry :=
  let live := load_latest (disk_manifest d) in
  let numbers := dir_numbers (disk_ssts d) in
  if bool_decide (live = []) && bool_decide (disk_manifest d = None) &&
     negb (bool_decide (numbers = []))
  then (λ n, mkManifestEntry n 0 [] []) <$> numbers else live.

(** [if (!manifest_exists && !live.empty()) manifest_->append_snapshot(live);] *)
Definition open_manifest (d : Disk) (live : list ManifestEntry) : result File :=
  let f := default (mkFile [] 0) (manifest_on d) in
  if bool_decide (disk_manifest d = None) && negb (bool_decide (live = [])) then
    let r := append_snapshot f live in
    _ ← io_result r.2; Ok r.1
  else Ok f.

(** [DB::open]; the background thread starts idle.  [max_num + 1] is computed
    on an [int]. *)
Definition db_open (d : Disk) (o : Options) (coins : list (list bool)) : result DB :=
  wal ← recover_wal (wal_on d) coins;
  let live := live_entries d in
  let max_num := max_number (dir_numbers (disk_ssts d) ++ (m_number <$> live)) in
  let cache := if 0 <? block_cache_bytes o then Some (BlockCache_new (block_cache_bytes o))
               else None in
  let loaded := load_files (disk_ssts d) live (replicate kMaxLevels []) cache in
  fs ← loaded.2;
  let ver := mkVersion (sort_levels fs) in
  let ssts := filter (λ p, p.1 ∈ m_number <$> live) (ssts_on d) in
  next_sst ← (if max_num + 1 <? 2 ^ 31 then Ok (if max_num + 1 <? 1 then 1 else max_num + 1)
              else Undefined);
  let next_seq := u64 (1 + Z.max wal.1.2 (max_sst_seq ver)) in
  manifest ← open_manifest d live;
  Ok (mkDB loaded.1 wal.1.1 (wal_open wal.2 (opt_sync o)) false manifest ver
        ssts o next_sst next_seq ∅ false false false).

End OpenOps.

(** ** Crashes *)

(** What can be left of a file; it is on the medium then. *)
Definition crash_left (f f' : File) : Prop := ∃ after, f' = on_disk after ∧ crash_file f after.

Definition log_left (db : DB) (d : Disk) : Prop :=
  ∃ f, wal_on d = Some f ∧ crash_left (wal_file (wal_ db)) f.

(** What a crash can leave of the files of a running database. *)
Record crash_disk (db : DB) (d : Disk) : Prop := {
  crash_wal : log_left db d;
  crash_manifest : ∃ f, manifest_on d = Some f ∧ crash_left (manifest_ db) f;
  crash_ssts n : option_relation crash_left (λ _, False) (λ _, False) (db_dir db !! n) (ssts_on d !! n);
}.

(** The truncations of the log that were made are not undone. *)
Definition truncations_kept (db : DB) (d : Disk) : Prop :=
  ∃ w, wal_on d = Some (on_disk w) ∧
    crash_part (f_data (wal_file (wal_ db))) (f_synced (wal_file (wal_ db))) w.

(** The files after the process has ended without a crash. *)
Definition disk_of (db : DB) : Disk := mkDisk (Some (wal_file (wal_ db))) (Some (manifest_ db)) (db_dir db).

(** ** What lies on the disk *)

(** [fm] describes the table file of [ents (fm_number fm)] that was written
    with the filter [bloom]. *)
Record file_built (ents : Z → list Entry) (fm : FileMeta) (bloom : Bloom.Bloom) : Prop := {
  fb_nonempty : ents (fm_number fm) ≠ [];
  fb_entries : Forall sst_entry_ok (ents (fm_number fm));
  fb_fits : sst_fits (ents (fm_number fm));
  fb_sorted : sorted_entries (ents (fm_number fm));
  fb_separate : keys_separate (layout (ents (fm_number fm)));
  fb_filter : filter_for (ents (fm_number fm)) bloom;
  fb_meta : fm = mkFileMeta (fm_number fm) (fm_level fm) (block_key (ents (fm_number fm)))
    (last_key (ents (fm_number fm))) (table_of (fm_number fm) (ents (fm_number fm)) bloom);
}.

(** The shape every version has: files carry their level, level 0 is in the
    order of the numbers, the other levels are disjoint and ascending. *)
Record version_shape (v : Version) : Prop := {
  vs_levels : length (files v) = kMaxLevels;
  vs_level l fm : fm ∈ files_at v l → fm_level fm = Z.of_nat l;
  vs_level0 : StronglySorted Z.lt (fm_number <$> files_at v 0);
  vs_disjoint : Forall level_ok (drop 1 (files v));
  vs_nodup : NoDup (fm_number <$> mjoin (files v));
}.

(** How the contents are spread over the files: [j_base] is what the tables
    hold, and [j_reqs] are the writes that are in the log only, behind [j_kept]
    records that the tables hold too.  [j_settled] says that all of the contents
    are on the medium. *)
Record Journal := mkJournal {
  j_mode : SyncMode;
  j_settled : bool;
  j_kept : nat;
  j_base : gmap bytes bytes;
  j_reqs : list WriteRequest;
}.

Definition j_map (j : Journal) : gmap bytes bytes := fold_left spec_write (j_reqs j) (j_base j).

(** The records [rs] replayed over tables with the layers [ls] give the
    contents [mp]. *)
Definition recovers (ls : list (list Entry)) (rs : list WalRecord) (mp : gmap bytes bytes) : Prop :=
  ∃ next, 1 ≤ next < 2 ^ 64 ∧ layers_ok next (insert_records rs [] :: ls) ∧
    ∀ k, reader_value (lookup_ref (mjoin (insert_records rs [] :: ls)) k u64_max) = mp !! k.

(** The records of the log behind the first ones are those of the pending
    writes, in order, and every part of the log that can be left recovers a
    first part of them. *)
Record log_of (j : Journal) (ls : list (list Entry)) (rs : list WalRecord) : Prop := {
  log_kept : (j_kept j ≤ length rs)%nat;
  log_reqs : record_request <$> drop (j_kept j) rs = j_reqs j;
  log_recovers n : (j_kept j ≤ n ≤ length rs)%nat →
    recovers ls (take n rs) (fold_left spec_write (take (n - j_kept j) (j_reqs j)) (j_base j));
}.

(** What a batch of writes may do to it: the writes join the pending ones, and
    a flush moves all of them to the tables. *)
Definition j_commit (j : Journal) (batch : list WriteRequest) : Journal :=
  mkJournal (j_mode j) (if decide (batch = []) then j_settled j else bool_decide (j_mode j = EveryWrite))
    (j_kept j) (j_base j) (j_reqs j ++ batch).

Definition j_flush (j : Journal) : Journal := mkJournal (j_mode j) (j_settled j) 0 (j_map j) [].

Definition j_next (j : Journal) (batch : list WriteRequest) (j' : Journal) : Prop :=
  j' = j_commit j batch ∨ j' = j_flush (j_commit j batch).

(** * Lemmas *)

(** ** Sorting *)

Lemma sort_by_number_spec fms :
  StronglySorted (λ a b, fm_number a ≤ fm_number b) (sort_by_number fms) ∧ sort_by_number fms ≡ₚ fms.
Proof.
  apply (sortb_spec (λ a b, fm_number a <? fm_number b)); intros; bool_hyps; lia.
Qed.

(** Files of a level above 0 have ascending smallest keys. *)
Lemma level_ok_smallest fms :
  level_ok fms → Forall (λ fm, key_le (smallest_key fm) (largest_key fm)) fms →
  StronglySorted (λ a b, key_lt (smallest_key a) (smallest_key b)) fms.
Proof.
  induction 1 as [|fm fms Hl IH Hfm]; intros Hr; [constructor|].
  apply Forall_cons in Hr as [Hr Hrs]. constructor; [auto|].
  eapply Forall_impl; [exact Hfm|]. simpl. intros fm' Hlt. by eapply key_le_lt_trans.
Qed.

Lemma sort_levels_id v :
  version_shape v → Forall (λ fm, key_le (smallest_key fm) (largest_key fm)) (mjoin (files v)) →
  sort_levels (files v) = files v.
Proof.
  intros [Hlen _ H0 Hd _] Hr. unfold sort_levels, files_at in *.
  destruct (files v) as [|l0 ls]; [done|]. rewrite fmap_cons. cbn [nth drop] in *.
  rewrite mjoin_cons, Forall_app in Hr. destruct Hr as [_ Hr]. f_equal.
  - destruct (sort_by_number_spec l0) as [Hs Hp].
    apply (sorted_perm_unique (λ a b, fm_number a < fm_number b) (λ a b, fm_number a ≤ fm_number b));
      [intros; lia| |done|done]. clear -H0.
    induction l0 as [|fm l0 IH]; [constructor|]. rewrite fmap_cons in H0.
    apply StronglySorted_inv in H0 as [Hs Hf]. constructor; [auto|].
    rewrite Forall_fmap in Hf. exact Hf.
  - clear -Hd Hr. apply Forall_mjoin in Hr. rewrite drop_0 in Hd.
    induction Hd as [|l ls Hl _ IH]; [done|]. apply Forall_cons in Hr as [Hr Hrs].
    rewrite !fmap_cons. f_equal; [|auto]. destruct (sort_files_spec (sort_by_number l)) as [Hs Hp].
    apply (sorted_perm_unique (λ a b, key_lt (smallest_key a) (smallest_key b))
      (λ a b, key_le (smallest_key a) (smallest_key b))); [|by apply level_ok_smallest|done|].
    + intros x y Hlt Hle. by apply key_lt_nle in Hlt.
    + rewrite Hp. apply sort_by_number_spec.
Qed.

(** ** Rebuilding the levels *)

Lemma place_level l fms fs :
  (l < length fs)%nat → Forall (λ fm, fm_level fm = Z.of_nat l) fms →
  fold_left place_file fms fs = <[l := nth l fs [] ++ fms]> fs.
Proof.
  intros Hl Hf. revert fs Hl. induction Hf as [|fm fms Hfm _ IH]; intros fs Hl; simpl.
  - rewrite app_nil_r. symmetry. apply list_insert_id.
    by destruct (nth_lookup_or_length fs l []); [|lia].
  - rewrite IH by (unfold place_file; by rewrite length_insert). unfold place_file.
    rewrite Hfm, Nat2Z.id.
    assert (nth l (<[l:=nth l fs [] ++ [fm]]> fs) [] = nth l fs [] ++ [fm]) as ->.
    { by rewrite nth_lookup, list_lookup_insert_eq. }
    by rewrite list_insert_insert_eq, <- (assoc_L (++)).
Qed.

(** The files of the next level go to their place. *)
Ltac place Hf i l :=
  rewrite (place_level i l) by ((simpl; lia) || apply (Hf i));
  cbn [replicate insert list_insert nth app].

Lemma place_files_id v :
  version_shape v → fold_left place_file (mjoin (files v)) (replicate kMaxLevels []) = files v.
Proof.
  intros [Hlen Hlev _ _ _]. unfold files_at in Hlev. destruct v as [fs]. cbn [files] in *.
  assert (∀ l, Forall (λ fm, fm_level fm = Z.of_nat l) (nth l fs [])) as Hf.
  { intros l. apply Forall_forall. intros fm Hfm. by apply Hlev. }
  clear Hlev. unfold kMaxLevels in *.
  destruct fs as [|l0 [|l1 [|l2 [|l3 [|l4 [|l5 [|l6 [|]]]]]]]]; try done.
  rewrite !mjoin_cons, !fold_left_app.
  place Hf 0%nat l0. place Hf 1%nat l1. place Hf 2%nat l2. place Hf 3%nat l3.
  place Hf 4%nat l4. place Hf 5%nat l5. place Hf 6%nat l6.
  done.
Qed.

Definition meta_entry (fm : FileMeta) : ManifestEntry :=
  mkManifestEntry (fm_number fm) (fm_level fm) (smallest_key fm) (largest_key fm).

Lemma version_to_manifest_entries v :
  length (files v) = kMaxLevels → version_to_manifest v = meta_entry <$> mjoin (files v).
Proof.
  destruct v as [fs]. unfold version_to_manifest, files_at, kMaxLevels. cbn [files]. intros Hlen.
  destruct fs as [|l0 [|l1 [|l2 [|l3 [|l4 [|l5 [|l6 [|]]]]]]]]; try done.
  rewrite !mjoin_cons, !fmap_app. done.
Qed.

(** ** Reading a log *)

Lemma record_entry_seq r : e_seq (record_entry r) = r_seq r.
Proof. unfold record_entry. by case_match. Qed.

Lemma insert_records_elem rs e : e ∈ insert_records rs [] → ∃ r, r ∈ rs ∧ e = record_entry r.
Proof.
  rewrite insert_records_perm, app_nil_r. intros (r & -> & Hr)%list_elem_of_fmap. by exists r.
Qed.

(** Replaying a log whose records are in a table already changes nothing. *)
Lemma layers_repeat n mes ls :
  layers_ok n (mes :: ls) →
  layers_ok n (mes :: mes :: ls) ∧
  ∀ k s, lookup_ref (mjoin (mes :: mes :: ls)) k s = lookup_ref (mjoin (mes :: ls)) k s.
Proof.
  intros [[Hl Hls] Hu Hs]. rewrite !mjoin_cons in *.
  assert (versions_unique (mes ++ mes ++ mjoin ls)) as Hu'
    by (eapply versions_unique_sub; [|exact Hu]; set_solver).
  split; [split; rewrite ?mjoin_cons|].
  - split; [|done]. intros e e' He He' Hk. rewrite mjoin_cons in He'.
    apply elem_of_app in He' as [He'|He']; [by right|by apply Hl].
  - done.
  - apply Forall_app. split; [|done]. by apply Forall_app in Hs as [? _].
  - intros k s. unfold lookup_ref. f_equal. apply newest_ext; [done|]. set_solver.
Qed.

Lemma layers_nil n ls : layers_ok n ls → layers_ok n ([] :: ls).
Proof.
  intros [Hl Hu Hs]. split; [split; [|done]|done..]. intros e e' He. by apply elem_of_nil in He.
Qed.

(** Replay does not notice that table files are merged. *)
Record shrinks (ls ls' : list (list Entry)) : Prop := {
  sh_layered : layered ls';
  sh_entries e : e ∈ mjoin ls' → e ∈ mjoin ls;
  sh_reads k : reader_value (lookup_ref (mjoin ls') k u64_max) =
    reader_value (lookup_ref (mjoin ls) k u64_max);
}.

Lemma recovers_shrink ls ls' rs mp : shrinks ls ls' → recovers ls rs mp → recovers ls' rs mp.
Proof.
  intros [Hl Hsub Hreads] (next & Hn & Hlay & Hk). exists next. split; [done|].
  pose proof Hlay as [[Hhead Hls] Hu Hs]. rewrite mjoin_cons in Hu, Hs.
  assert (layers_ok next (insert_records rs [] :: ls')) as Hlay'.
  { split; rewrite ?mjoin_cons.
    - split; [|done]. intros e e' He He'. apply Hhead; auto.
    - eapply versions_unique_sub; [|exact Hu]. intros e. rewrite !elem_of_app. naive_solver.
    - apply Forall_app in Hs as [? Hs]. apply Forall_app. split; [done|].
      rewrite Forall_forall in Hs |- *. auto. }
  split; [done|]. intros k. rewrite <- Hk. destruct Hlay' as [Hl1 Hu1 _]. destruct Hlay as [Hl2 Hu2 _].
  rewrite <- !first_answer_correct by done. cbn [first_answer]. destruct (lookup_ref _ k u64_max); try done.
  assert (∀ es, versions_unique (insert_records rs [] ++ es) → versions_unique es) as Htail.
  { intros es. apply versions_unique_sub. intros e He. apply elem_of_app. by right. }
  rewrite mjoin_cons in Hu1, Hu2. rewrite !first_answer_correct by auto. apply Hreads.
Qed.

Lemma log_shrink j ls ls' rs : shrinks ls ls' → log_of j ls rs → log_of j ls' rs.
Proof. intros Hs [? ? Hr]. split; [done..|]. intros n Hn. by eapply recovers_shrink, Hr. Qed.

(** The journal of the first [n] records. *)
Definition j_first (j : Journal) (mode : SyncMode) (settled : bool) (n : nat) : Journal :=
  mkJournal mode settled (j_kept j) (j_base j) (take (n - j_kept j) (j_reqs j)).

Lemma log_first j ls rs mode settled n :
  log_of j ls rs → (j_kept j ≤ n ≤ length rs)%nat → log_of (j_first j mode settled n) ls (take n rs).
Proof.
  intros [Hk Hq Hr] Hn. split; cbn [j_kept j_reqs j_base j_first].
  - rewrite length_take. lia.
  - rewrite <- Hq, <- fmap_take. f_equal. rewrite take_drop_commute. do 2 f_equal. lia.
  - intros m Hm. rewrite length_take in Hm. rewrite !take_take, !Nat.min_l by lia. apply Hr. lia.
Qed.

Lemma log_reqs_length j ls rs : log_of j ls rs → length (j_reqs j) = (length rs - j_kept j)%nat.
Proof. intros [_ Hq _]. by rewrite <- Hq, length_fmap, length_drop. Qed.

(** The whole log. *)
Lemma log_recovers_all j ls rs : log_of j ls rs → recovers ls rs (j_map j).
Proof.
  intros Hlog. pose proof (log_recovers _ _ _ Hlog (length rs)) as Hr.
  pose proof (log_reqs_length _ _ _ Hlog). pose proof (log_kept _ _ _ Hlog).
  rewrite firstn_all, take_ge in Hr by lia. apply Hr. lia.
Qed.

Section OpenLemmas.
#[local] Set Default Proof Using "All".
Context `{PosixOk}.

(** A table that was written can be described anew from its contents. *)
Lemma table_range_runs ents num bloom sk lk :
  ents num ≠ [] → Forall sst_entry_ok (ents num) → sst_fits (ents num) →
  runs (content_of ents) (table_range (table_of num (ents num) bloom) sk lk)
    (Ok (block_key (ents num), last_key (ents num))).
Proof.
  intros Hne Hok Hfit. pose proof (content_of_coherent ents num bloom Hfit) as Hco.
  destruct (sst_begin_runs (content_of ents) num (ents num) bloom Hok Hfit Hco Hne) as (it & Hb & Hs).
  unfold table_range. eapply runs_bind; [exact Hb|].
  assert (it_valid it = true ∧ e_key (it_current it) = block_key (ents num)) as [Hv Hk].
  { destruct (ents num) as [|e es]; [done|]. destruct Hs as [[? _] Hc]. by rewrite Hc. }
  rewrite Hv, Hk. cbn [negb]. eapply runs_bind; [exact Hb|]. eapply runs_bind.
  { cbn [footer_ table_of footer_entry_count]. rewrite Nat2Z.id.
    eapply iter_collect_shows; [done..|exact Hs|lia]. }
  assert (default lk (e_key <$> last (ents num)) = last_key (ents num)) as ->.
  { unfold last_key. destruct (last (ents num)) eqn:E; [done|]. by apply last_None in E. }
  apply runs_ret.
Qed.

Lemma file_built_agrees n ents ents' fm bloom :
  agrees n ents ents' → fm_number fm < n → file_built ents fm bloom → file_built ents' fm bloom.
Proof using Type.
  intros [_ Ha] Hn [? ? ? ? ? ? Hm]. pose proof (Ha _ Hn) as E. split; rewrite E; assumption.
Qed.

Lemma file_built_ok ents fm bloom :
  file_built ents fm bloom → file_ok (content_of ents) ents fm.
Proof.
  intros [? ? ? ? ? (? & ? & ?) Hm]. rewrite Hm. cbn [fm_number]. by apply table_file_ok.
Qed.

Lemma file_built_range ents fm bloom :
  file_built ents fm bloom → key_le (smallest_key fm) (largest_key fm).
Proof using Type.
  intros [Hne ? ? Hs ? ? Hm]. rewrite Hm. cbn [smallest_key largest_key].
  destruct (ents (fm_number fm)) as [|e es] eqn:E; [done|].
  destruct (key_range (e :: es) e Hs) as [_ Hl]; [by left|]. exact Hl.
Qed.

Lemma open_entry_runs ents fm bloom ssts :
  file_built ents fm bloom → 0 ≤ fm_level fm < Z.of_nat kMaxLevels →
  ssts !! fm_number fm = Some (sst_image (ents (fm_number fm)) bloom) →
  runs (content_of ents) (open_entry ssts (meta_entry fm)) (Ok (Some fm)).
Proof.
  intros [Hne Hok Hfit Hs Hsep (Hwf & Hbits & Hin) Hm] Hl Hd. unfold open_entry, meta_entry.
  cbn [m_number m_level m_smallest m_largest]. rewrite Hd.
  eapply runs_bind; [rewrite sst_open_image by done; apply runs_lift|].
  rewrite (proj2 (Z.ltb_ge _ _)) by lia. rewrite (proj2 (Z.leb_gt _ _)) by lia. cbn [orb].
  assert (smallest_key fm = block_key (ents (fm_number fm)) ∧
    largest_key fm = last_key (ents (fm_number fm))) as [-> ->] by (rewrite Hm; done).
  eapply runs_bind with (a := (block_key (ents (fm_number fm)), last_key (ents (fm_number fm)))).
  { case_match; [by apply table_range_runs|apply runs_ret]. }
  cbn [fst snd]. rewrite <- Hm. apply runs_ret.
Qed.

Lemma load_files_runs ents ssts fms fs :
  Forall (λ fm, 0 ≤ fm_level fm < Z.of_nat kMaxLevels ∧ ∃ bloom, file_built ents fm bloom ∧
    ssts !! fm_number fm = Some (sst_image (ents (fm_number fm)) bloom)) fms →
  runs (content_of ents) (load_files ssts (meta_entry <$> fms) fs)
    (Ok (fold_left place_file fms fs)).
Proof.
  intros Hf. revert fs. induction Hf as [|fm fms (Hl & bloom & Hb & Hd) _ IH]; intros fs.
  - apply runs_ret.
  - rewrite fmap_cons. cbn [load_files fold_left]. eapply runs_bind; [by eapply open_entry_runs|].
    apply IH.
Qed.

(** ** The log *)

Lemma valid_end_from rs n :
  0 ≤ n → n + blen (encode_records rs) < 2 ^ 64 →
  fold_left (λ n r, u64 (n + (21 + blen (r_key r) + blen (r_value r)))) rs n =
    n + blen (encode_records rs).
Proof using Type.
  revert n. induction rs as [|r rs IH]; intros n Hn Hb.
  { change (blen (encode_records [])) with 0. simpl. lia. }
  rewrite encode_records_cons, blen_app in *.
  pose proof (length_encode_record r) as Hr.
  assert (blen (encode_record r) = 21 + blen (r_key r) + blen (r_value r)) as Er by (unfold blen; lia).
  pose proof (blen_nonneg (encode_records rs)). pose proof (blen_nonneg (r_key r)).
  pose proof (blen_nonneg (r_value r)). cbn [fold_left]. rewrite u64_small by lia.
  rewrite IH by lia. lia.
Qed.

Lemma valid_end_eq rs : blen (encode_records rs) < 2 ^ 64 → valid_end rs = blen (encode_records rs).
Proof using Type. intros. unfold valid_end. by rewrite valid_end_from by lia. Qed.

Lemma max_wal_seq_spec rs m :
  let r := fold_left (λ m r, if m <? r_seq r then r_seq r else m) rs m in
  m ≤ r ∧ Forall (λ x, r_seq x ≤ r) rs ∧ (r = m ∨ Exists (λ x, r_seq x = r) rs).
Proof using Type.
  revert m. induction rs as [|x rs IH]; intros m; simpl; [split_and!; [lia|constructor|by left]|].
  destruct (IH (if m <? r_seq x then r_seq x else m)) as (H1 & H2 & H3).
  destruct (Z.ltb_spec m (r_seq x)).
  - split_and!; [lia|by constructor|]. right. destruct H3 as [->|H3]; [by left|by right].
  - split_and!; [lia|constructor; [lia|done]|]. destruct H3 as [->|H3]; [by left|by right; right].
Qed.

Lemma recover_wal_ok rs tail f coins :
  f_data f = encode_records rs ++ tail →
  Forall record_ok rs → replay_one tail = None → blen (encode_records rs) < 2 ^ 64 →
  ∃ m, represents m (insert_records rs []) ∧ (rs = [] → m = new_memtable) ∧
    recover_wal (Some f) coins =
      Ok (m, max_wal_seq rs, truncate f (length (encode_records rs))).
Proof.
  intros Ef Hok Ht Hlen. unfold recover_wal. rewrite Ef, replay_records by done.
  destruct (apply_records_represents new_memtable [] rs coins) as (m & E & Hm).
  { by apply represents_new; lia. }
  exists m. split_and!; [done|by intros ->; simpl in E; injection E|]. rewrite E.
  cbn [mbind result_bind]. rewrite valid_end_eq by done. unfold resize_file. rewrite sys_resize_ok.
  cbn [mbind result_bind]. unfold blen. by rewrite Nat2Z.id.
Qed.

(** The log after it has been cut behind its last record. *)
Lemma truncate_data f pre tail :
  f_data f = pre ++ tail → f_data (truncate f (length pre)) = pre.
Proof using Type.
  intros E. cbn [truncate f_data]. rewrite E, take_app_length, length_app.
  replace (length pre - (length pre + length tail))%nat with 0%nat by lia. apply app_nil_r.
Qed.

(** ** Opening *)

Lemma max_number_ge l m : m ≤ fold_left Z.max l m ∧ Forall (λ n, n ≤ fold_left Z.max l m) l.
Proof using Type.
  revert m. induction l as [|n l IH]; intros m; simpl; [split; [lia|constructor]|].
  destruct (IH (Z.max m n)) as [H1 H2]. split; [lia|]. constructor; [lia|done].
Qed.

Lemma max_number_in l m : fold_left Z.max l m = m ∨ fold_left Z.max l m ∈ l.
Proof using Type.
  revert m. induction l as [|n l IH]; intros m; simpl; [by left|].
  destruct (IH (Z.max m n)) as [->|Hin]; [|by right; right].
  destruct (Z.max_spec m n) as [[_ ->]|[_ ->]]; [right; by left|by left].
Qed.

Lemma max_sst_seq_spec fms m b :
  let r := fold_left later_seq fms m in
  m ≤ r ∧ Forall (λ fm, footer_max_seq (footer_ (fm_table fm)) ≤ r) fms ∧
  (m ≤ b → Forall (λ fm, footer_max_seq (footer_ (fm_table fm)) ≤ b) fms → r ≤ b).
Proof using Type.
  revert m. induction fms as [|fm fms IH]; intros m; cbn [fold_left];
    [by split_and!; [lia|constructor|]|].
  assert (later_seq m fm = Z.max m (footer_max_seq (footer_ (fm_table fm)))) as E
    by (unfold later_seq; case_match; bool_hyps; lia).
  destruct (IH (later_seq m fm)) as (H1 & H2 & H3). rewrite E in *. split_and!; [lia| |].
  - constructor; [lia|done].
  - intros Hm Hf. apply Forall_cons in Hf as [Hs Hf]. apply H3; [lia|done].
Qed.

Lemma max_seq_of_le es b : 0 ≤ b → Forall (λ e, e_seq e ≤ b) es → max_seq_of es ≤ b.
Proof using Type. intros Hb. induction 1; simpl; lia. Qed.

Definition disk_max_number (d : Disk) : Z :=
  max_number (dir_numbers (disk_ssts d) ++ (m_number <$> live_entries d)).

(** The disk holds the version [v], whose files hold [ents], and the log
    [rs], possibly with torn tails. *)
Record disk_state (ents : Z → list Entry) (v : Version) (rs : list WalRecord) (d : Disk) : Prop := {
  ds_wal : ∃ f tail, wal_on d = Some f ∧ f_data f = encode_records rs ++ tail ∧ replay_one tail = None;
  ds_records : Forall record_ok rs;
  ds_wal_size : blen (encode_records rs) < 2 ^ 63;
  ds_manifest : ∃ f ss tail, manifest_on d = Some f ∧ f_data f = encode_snapshots ss ++ tail ∧
    Forall snapshot_ok ss ∧ load_one tail = None ∧ default [] (last ss) = version_to_manifest v;
  ds_shape : version_shape v;
  ds_files : Forall (λ fm, ∃ bloom, file_built ents fm bloom ∧
    ssts_on d !! fm_number fm = Some (table_file (ents (fm_number fm)) bloom)) (mjoin (files v));
  ds_fits i : sst_fits (ents i);
  ds_numbers n : is_Some (ssts_on d !! n) → n + 1 < 2 ^ 31;
}.

Lemma disk_ssts_some d n f : ssts_on d !! n = Some f → disk_ssts d !! n = Some (f_data f).
Proof using Type. intros E. unfold disk_ssts. by rewrite lookup_fmap, E. Qed.

Lemma disk_ssts_is_some d n : is_Some (disk_ssts d !! n) ↔ is_Some (ssts_on d !! n).
Proof using Type. unfold disk_ssts. by rewrite lookup_fmap, fmap_is_Some. Qed.

Lemma live_entries_ok ents v rs d :
  disk_state ents v rs d → live_entries d = meta_entry <$> mjoin (files v).
Proof.
  intros Hd. destruct (ds_manifest _ _ _ _ Hd) as (f & ss & tail & Em & Ef & Hss & Ht & Hl).
  unfold live_entries. assert (disk_manifest d = Some (encode_snapshots ss ++ tail)) as ->
    by (unfold disk_manifest; rewrite Em; cbn [fmap option_fmap option_map]; by rewrite Ef).
  rewrite (bool_decide_eq_false_2 (Some _ = None)) by done.
  rewrite andb_false_r. cbn [andb]. rewrite load_latest_snapshots by done. rewrite Hl.
  apply version_to_manifest_entries, Hd.
Qed.

Lemma shape_level v fm :
  version_shape v → fm ∈ mjoin (files v) → 0 ≤ fm_level fm < Z.of_nat kMaxLevels.
Proof using Type.
  intros Hv (fms & Hfm & (l & Hl)%list_elem_of_lookup)%list_elem_of_join.
  pose proof (lookup_lt_Some _ _ _ Hl) as Hlt. rewrite (vs_levels _ Hv) in Hlt.
  rewrite (vs_level _ Hv l fm); [lia|]. unfold files_at. by rewrite (nth_lookup_Some _ _ _ _ Hl).
Qed.

Lemma load_files_version ents v rs d n ents' :
  disk_state ents v rs d → agrees n ents ents' → Forall (λ fm, fm_number fm < n) (mjoin (files v)) →
  runs (content_of ents') (load_files (disk_ssts d) (live_entries d) (replicate kMaxLevels []))
    (Ok (files v)).
Proof.
  intros Hd Ha Hn. rewrite (live_entries_ok ents v rs) by done.
  pose proof (load_files_runs ents' (disk_ssts d) (mjoin (files v)) (replicate kMaxLevels [])) as Hr.
  rewrite place_files_id in Hr by apply Hd. apply Hr, Forall_forall. intros fm Hfm.
  split; [by apply (shape_level v); [apply Hd|]|].
  pose proof (ds_files _ _ _ _ Hd) as Hf. rewrite Forall_forall in Hf, Hn.
  destruct (Hf fm Hfm) as (bloom & Hb & Hs). exists bloom.
  split; [by apply (file_built_agrees n ents); auto|]. rewrite (proj2 Ha); [|auto].
  by apply disk_ssts_some in Hs.
Qed.

Lemma new_cache_ok o ents :
  0 ≤ block_cache_bytes o < 2 ^ 63 → (∀ i, sst_fits (ents i)) →
  cache_ok (content_of ents) (if 0 <? block_cache_bytes o
    then Some (BlockCache_new (block_cache_bytes o)) else None).
Proof.
  intros Ho Hfit. case_match; [|done]. split_and!; [by split; try constructor|simpl; lia..|].
  intros k. cbn [capacity_ BlockCache_new]. pose proof (content_of_fits ents k (Hfit k.1)). lia.
Qed.

Lemma record_ok_entry r : record_ok r → sst_entry_ok (record_entry r).
Proof using Type.
  intros (Hs & Hk & Hv). unfold record_entry, sst_entry_ok, kMaxLen in *.
  destruct (byte_eq_dec _ _); cbn [e_key e_value e_tombstone e_seq]; split_and!; try done; try lia.
Qed.

(** The next number is above everything recovered, and no higher than before
    the crash. *)
Lemma next_seq_ok ents v rs d next :
  disk_state ents v rs d → 1 ≤ next →
  Forall (λ e, e_seq e < next) (mjoin (insert_records rs [] :: version_layers ents v)) →
  version_ok (content_of ents) ents v →
  let n := 1 + Z.max (max_wal_seq rs) (max_sst_seq v) in
  1 ≤ n ≤ next ∧
  Forall (λ e, e_seq e < n) (mjoin (insert_records rs [] :: version_layers ents v)).
Proof.
  intros Hd Hnext Hs Hv n. rewrite mjoin_cons in *. apply Forall_app in Hs as [Hm Hf].
  rewrite insert_records_perm, app_nil_r, Forall_fmap in Hm.
  destruct (max_wal_seq_spec rs 0) as (W1 & W2 & W3). fold (max_wal_seq rs) in *.
  destruct (max_sst_seq_spec (mjoin (files v)) 0 (next - 1)) as (S1 & S2 & S3).
  fold (max_sst_seq v) in *.
  assert (∀ r, e_seq (record_entry r) = r_seq r) as Er
    by (intros r; unfold record_entry; by case_match).
  assert (∀ fm, fm ∈ mjoin (files v) → footer_max_seq (footer_ (fm_table fm)) =
    max_seq_of (ents (fm_number fm))) as Ef.
  { intros fm Hfm. pose proof (ds_files _ _ _ _ Hd) as Hff. rewrite Forall_forall in Hff.
    destruct (Hff fm Hfm) as (bloom & [? ? ? ? ? ? E] & _). by rewrite E. }
  assert (max_wal_seq rs ≤ next - 1) as Hw.
  { destruct W3 as [->|(r & Hr & <-)%Exists_exists]; [lia|].
    rewrite Forall_forall in Hm. specialize (Hm r Hr). simpl in Hm. rewrite Er in Hm. lia. }
  assert (max_sst_seq v ≤ next - 1) as Hss.
  { apply S3; [lia|]. apply Forall_forall. intros fm Hfm. rewrite Ef by done.
    apply max_seq_of_le; [lia|]. apply Forall_forall. intros e He. rewrite Forall_forall in Hf.
    assert (e_seq e < next); [|lia]. apply Hf.
    by apply (version_entries_elem (content_of ents)); eauto. }
  split; [lia|]. apply Forall_app. split.
  - rewrite insert_records_perm, app_nil_r, Forall_fmap. eapply Forall_impl; [exact W2|].
    simpl. intros r Hr. rewrite Er. lia.
  - apply Forall_forall. intros e He.
    apply (version_entries_elem (content_of ents)) in He as (fm & Hfm & He); [|done].
    rewrite Forall_forall in S2. specialize (S2 fm Hfm). simpl in S2. rewrite Ef in S2 by done.
    pose proof (max_seq_of_ge _ _ He). lia.
Qed.

Lemma disk_version_ok ents v rs d n ents' :
  disk_state ents v rs d → agrees n ents ents' → Forall (λ fm, fm_number fm < n) (mjoin (files v)) →
  version_ok (content_of ents') ents' v.
Proof.
  intros Hd Ha Hn. split; [apply Hd| |apply Hd]. apply Forall_mjoin, Forall_forall. intros fm Hfm.
  pose proof (ds_files _ _ _ _ Hd) as Hf. rewrite Forall_forall in Hf, Hn.
  destruct (Hf fm Hfm) as (bloom & Hb & _). apply (file_built_ok _ _ bloom).
  apply (file_built_agrees n ents); auto.
Qed.

(** The fields of the database that [open] gives. *)
Record opened (v : Version) (rs : list WalRecord) (d : Disk) (o : Options) (db : DB) : Prop := {
  od_version : current_version_ db = v;
  od_wal : ∃ f, wal_on d = Some f ∧
    wal_ db = wal_open (truncate f (length (encode_records rs))) (opt_sync o);
  od_manifest : manifest_on d = Some (manifest_ db);
  od_dir n : n ∈ fm_number <$> mjoin (files v) → db_dir db !! n = ssts_on d !! n;
  od_opts : opts_ db = o;
  od_snapshots : live_snapshots_ db = ∅;
  od_numbers n : is_Some (db_dir db !! n) → n < next_sst_number_ db;
}.

Lemma dir_numbers_elem ssts n : n ∈ dir_numbers ssts ↔ is_Some (ssts !! n).
Proof using Type.
  unfold dir_numbers. rewrite merge_sort_Permutation, elem_of_elements. apply elem_of_dom.
Qed.

(** The database [open] builds from the disk, with the files numbered below
    [num + 1]. *)
Definition opened_db (v : Version) (rs : list WalRecord) (d : Disk) (o : Options) (m : Memtable)
    (c : option BlockCache) (wal manifest : File) (num : Z) : DB :=
  mkDB c m (wal_open (truncate wal (length (encode_records rs))) (opt_sync o)) false manifest v
    (filter (λ p, p.1 ∈ m_number <$> live_entries d) (ssts_on d)) o (num + 1)
    (1 + Z.max (max_wal_seq rs) (max_sst_seq v)) ∅ false false false.

Lemma disk_numbers ents v rs d :
  disk_state ents v rs d →
  0 ≤ disk_max_number d ∧ disk_max_number d + 1 < 2 ^ 31 ∧ Forall (λ fm, fm_number fm < disk_max_number d + 1) (mjoin (files v)) ∧
  ∀ n, is_Some (ssts_on d !! n) → n < disk_max_number d + 1.
Proof.
  intros Hd. unfold disk_max_number, max_number.
  destruct (max_number_ge (dir_numbers (disk_ssts d) ++ (m_number <$> live_entries d)) 0) as [N0 N1].
  apply Forall_app in N1 as [N1 N2]. split_and!; [done| | |].
  - assert (∀ n, n ∈ dir_numbers (disk_ssts d) ++ (m_number <$> live_entries d) → n + 1 < 2 ^ 31) as Hb.
    { intros n [Hn%dir_numbers_elem%disk_ssts_is_some|Hn]%elem_of_app; [by apply Hd|].
      rewrite (live_entries_ok ents v rs) in Hn by done.
      rewrite <- list_fmap_compose in Hn. apply list_elem_of_fmap in Hn as (fm & -> & Hfm). simpl.
      pose proof (ds_files _ _ _ _ Hd) as Hf. rewrite Forall_forall in Hf.
      destruct (Hf fm Hfm) as (bloom & _ & E). apply (ds_numbers _ _ _ _ Hd). by rewrite E. }
    destruct (max_number_in (dir_numbers (disk_ssts d) ++ (m_number <$> live_entries d)) 0)
      as [->|Hin]; [lia|by apply Hb].
  - rewrite (live_entries_ok ents v rs) in N2 |- * by done. rewrite !Forall_fmap in N2.
    eapply Forall_impl; [exact N2|]. simpl. lia.
  - intros n Hn%disk_ssts_is_some%dir_numbers_elem. rewrite Forall_forall in N1. specialize (N1 n Hn). lia.
Qed.

(** [open] succeeds, with the version of the manifest. *)
Lemma db_open_eq ents v rs d o coins next :
  disk_state ents v rs d → 0 ≤ block_cache_bytes o < 2 ^ 63 →
  1 + Z.max (max_wal_seq rs) (max_sst_seq v) ≤ next < 2 ^ 64 → 0 ≤ max_wal_seq rs →
  ∃ m c wal manifest, represents m (insert_records rs []) ∧ (rs = [] → m = new_memtable) ∧
    wal_on d = Some wal ∧ manifest_on d = Some manifest ∧
    (∀ ents', agrees (disk_max_number d + 1) ents ents' → cache_ok (content_of ents') c) ∧
    db_open d o coins = Ok (opened_db v rs d o m c wal manifest (disk_max_number d)).
Proof.
  intros Hd Ho Hnext Hseq. destruct (ds_wal _ _ _ _ Hd) as (wal & wtail & Ew & Efw & Hwt).
  destruct (recover_wal_ok rs wtail wal coins) as (m & Hm & Hmn & Er);
    [done|apply Hd|done|pose proof (ds_wal_size _ _ _ _ Hd); lia|].
  destruct (disk_numbers ents v rs d Hd) as (N0 & Nm & Hn & _).
  assert (agrees (disk_max_number d + 1) ents ents) as Hself by (split; [apply Hd|done]).
  set (cache := if 0 <? block_cache_bytes o then Some (BlockCache_new (block_cache_bytes o)) else None).
  set (loaded := load_files (disk_ssts d) (live_entries d) (replicate kMaxLevels []) cache).
  assert (∀ ents', agrees (disk_max_number d + 1) ents ents' → cache_ok (content_of ents') cache) as Hc
    by (intros ents' [Hf _]; by apply new_cache_ok).
  assert (loaded.2 = Ok (files v)) as El
    by (apply (load_files_version ents v rs d _ ents Hd Hself Hn); by apply Hc).
  destruct (ds_manifest _ _ _ _ Hd) as (mf & ss & mtail & Em & _).
  exists m, loaded.1, wal, mf. split_and!; [done..| |].
  { intros ents' Ha. by apply (load_files_version ents v rs d _ ents' Hd Ha Hn), Hc. }
  unfold db_open. rewrite Ew, Er. cbn [mbind result_bind fst snd].
  fold (disk_max_number d) cache loaded. rewrite El. cbn [mbind result_bind].
  rewrite sort_levels_id; [|apply Hd|].
  - replace (mkVersion (files v)) with v by (by destruct v).
    unfold open_manifest, disk_manifest. rewrite Em. cbn [fmap option_fmap option_map].
    rewrite (bool_decide_eq_false_2 (Some _ = None)) by done.
    rewrite (proj2 (Z.ltb_lt (disk_max_number d + 1) (2 ^ 31))) by lia.
    cbn [andb mbind result_bind default]. rewrite (proj2 (Z.ltb_ge (disk_max_number d + 1) 1)) by lia.
    rewrite u64_small by lia. reflexivity.
  - eapply Forall_impl; [apply (ds_files _ _ _ _ Hd)|]. simpl. intros fm (bloom & Hb & _).
    by eapply file_built_range.
Qed.

Lemma open_ok ents v rs d o coins next :
  disk_state ents v rs d → 0 ≤ block_cache_bytes o < 2 ^ 63 → 1 ≤ next < 2 ^ 64 →
  layers_ok next (insert_records rs [] :: version_layers ents v) →
  ∃ db, db_open d o coins = Ok db ∧ db_rep ents (insert_records rs []) db ∧ opened v rs d o db.
Proof.
  intros Hd Ho Hnext Hl. destruct (disk_numbers ents v rs d Hd) as (N0 & Nm & Hn & Hnum).
  assert (agrees (disk_max_number d + 1) ents ents) as Hself by (split; [apply Hd|done]).
  pose proof (disk_version_ok ents v rs d _ ents Hd Hself Hn) as Hv.
  destruct (next_seq_ok ents v rs d next Hd) as [Hs1 Hs2]; [lia|apply Hl|done|].
  destruct (max_wal_seq_spec rs 0) as (W & _). fold (max_wal_seq rs) in W.
  destruct (db_open_eq ents v rs d o coins next Hd Ho) as (m & c & wal & mf & Hm & Hmn & Ew & Em & Hc & E);
    [lia|done|].
  exists (opened_db v rs d o m c wal mf (disk_max_number d)). split; [exact E|].
  split; [split|split]; try done.
  - cbn [memtable_ opened_db]. intros Hnil. rewrite Hmn; [done|].
    apply (f_equal length) in Hnil. rewrite insert_records_perm, app_nil_r, length_fmap in Hnil.
    by destruct rs.
  - rewrite insert_records_perm, app_nil_r. apply Forall_fmap.
    eapply Forall_impl; [apply (ds_records _ _ _ _ Hd)|]. apply record_ok_entry.
  - cbn [next_sst_number_ current_version_ cache_ opened_db]. intros ents' Ha.
    split; [by eapply (disk_version_ok ents v rs d)|auto].
  - apply Hd.
  - cbn [current_version_ opened_db]. eapply Forall_impl; [apply (ds_files _ _ _ _ Hd)|]. simpl.
    intros fm (bloom & Hb & _). apply Hb.
  - apply (ds_shape _ _ _ _ Hd).
  - cbn [db_layers next_seq_ current_version_ opened_db]. by destruct Hl; split.
  - cbn [next_seq_ opened_db]. lia.
  - by exists wal.
  - cbn [db_dir opened_db]. intros n Hin. destruct (ssts_on d !! n) as [b|] eqn:Eb.
    + apply map_lookup_filter_Some_2; [done|]. rewrite (live_entries_ok ents v rs) by done.
      by rewrite <- list_fmap_compose.
    + apply map_lookup_filter_None_2. by left.
  - cbn [db_dir next_sst_number_ opened_db]. intros n [b [Hb _]%map_lookup_filter_Some].
    apply Hnum. by exists b.
Qed.

(** ** The disk of a running database *)

(** A log from before a truncation: it was on the medium, and what it recovers
    is what the present one does. *)
Definition older_ok (ls : list (list Entry)) (rs : list WalRecord) (mp : gmap bytes bytes)
    (o : bytes * nat) : Prop :=
  o.2 = length o.1 ∧ ∃ rs' tail, o.1 = encode_records rs' ++ tail ∧ replay_one tail = None ∧
    Forall record_ok rs' ∧ recovers ls rs' mp ∧ (rs = [] ∨ rs' = rs).

(** What the files say agrees with the memory: the log holds the memtable, the
    part of it that the tables hold too is synced, and all of it is when the
    journal is settled; the manifest holds the version and is always synced. *)
Record durable (j : Journal) (ents : Z → list Entry) (mes : list Entry) (db : DB) : Prop := {
  du_wal : ∃ rs, f_data (wal_file (wal_ db)) = encode_records rs ∧ Forall record_ok rs ∧
    mes = insert_records rs [] ∧ log_of j (version_layers ents (current_version_ db)) rs ∧
    (length (encode_records (take (j_kept j) rs)) ≤ f_synced (wal_file (wal_ db)))%nat ∧
    (j_settled j = true → Forall (older_ok (version_layers ents (current_version_ db)) rs (j_map j))
      (f_older (wal_file (wal_ db))));
  du_wal_synced : (f_synced (wal_file (wal_ db)) ≤ length (f_data (wal_file (wal_ db))))%nat ∧
    (j_settled j = true → f_synced (wal_file (wal_ db)) = length (f_data (wal_file (wal_ db))));
  du_mode : mode_ (wal_ db) = j_mode j ∧ opt_sync (opts_ db) = j_mode j;
  du_manifest : ∃ ss, f_data (manifest_ db) = encode_snapshots ss ∧ Forall snapshot_ok ss ∧
    default [] (last ss) = version_to_manifest (current_version_ db);
  du_manifest_synced : synced (manifest_ db);
  du_shape : version_shape (current_version_ db);
  du_files : Forall (λ fm, ∃ bloom, file_built ents fm bloom ∧
    db_dir db !! fm_number fm = Some (table_file (ents (fm_number fm)) bloom))
    (mjoin (files (current_version_ db)));
  du_dir n : is_Some (db_dir db !! n) → n < next_sst_number_ db;
}.

(** The database implements the map, in memory and on the medium. *)
Definition durably_refined (db : DB) (sp : Spec) : Prop :=
  ∃ j ents mes, j_settled j = true ∧ refines ents mes db sp ∧ durable j ents mes db.

Lemma on_disk_synced f : synced f → on_disk (f_data f) = f.
Proof using Type. destruct f as [data n older]. intros [E1 E2]. simpl in *. by subst. Qed.

(** A file that is on the medium survives. *)
Lemma crash_full f f' : synced f → crash_left f f' → f' = f.
Proof using Type. intros Hs (after & -> & ->%crash_synced); [|done]. by apply on_disk_synced. Qed.

Lemma table_file_synced es bloom : synced (table_file es bloom).
Proof using Type. done. Qed.

Lemma crash_table (dir ssts : gmap Z File) n f :
  option_relation crash_left (λ _, False) (λ _, False) (dir !! n) (ssts !! n) →
  dir !! n = Some f → synced f → ssts !! n = Some f.
Proof using Type.
  intros Hc Hd Hs. rewrite Hd in Hc. destruct (ssts !! n) as [b|]; simpl in Hc; [|done].
  f_equal. by apply crash_full.
Qed.

(** No table file appears by a crash. *)
Lemma crash_numbers (dir ssts : gmap Z File) m :
  (∀ n, option_relation crash_left (λ _, False) (λ _, False) (dir !! n) (ssts !! n)) →
  (∀ n, is_Some (dir !! n) → n < m) → m < 2 ^ 31 → ∀ n, is_Some (ssts !! n) → n + 1 < 2 ^ 31.
Proof using Type.
  intros Hc Hdir Hm n Hn. specialize (Hc n).
  destruct (dir !! n) as [f|] eqn:E; [|by destruct (ssts !! n); [|destruct Hn]].
  specialize (Hdir n ltac:(by exists f)). lia.
Qed.

(** What is left of the manifest and the tables of a running database when its
    process has ended. *)
Record remains (db : DB) (d : Disk) : Prop := {
  lv_manifest : manifest_on d = Some (manifest_ db);
  lv_tables n f : db_dir db !! n = Some f → synced f → ssts_on d !! n = Some f;
  lv_numbers n : is_Some (ssts_on d !! n) → n < next_sst_number_ db;
}.

Lemma crash_leaves j ents mes db d : durable j ents mes db → crash_disk db d → remains db d.
Proof using Type.
  intros Hdu [_ (m & Hmf & Hcm) Hct]. split.
  - apply crash_full in Hcm as ->; [done|apply Hdu].
  - intros n f. apply crash_table, Hct.
  - intros n Hn. apply (du_dir _ _ _ _ Hdu). specialize (Hct n).
    destruct (db_dir db !! n) as [f|]; [by exists f|]. by destruct (ssts_on d !! n); [|destruct Hn].
Qed.

Lemma close_leaves j ents mes db : durable j ents mes db → remains db (disk_of db).
Proof using Type. intros Hdu. split; [done..|]. apply Hdu. Qed.

(** The log that is left: a first part of the present one. *)
Definition log_part (db : DB) (f : File) : Prop :=
  f_data f `prefix_of` f_data (wal_file (wal_ db)) ∧
  (f_synced (wal_file (wal_ db)) ≤ length (f_data f))%nat.

(** The disk holds the version and the log [rs]. *)
Lemma remains_disk j ents mes db d f rs tail :
  db_rep ents mes db → durable j ents mes db → remains db d →
  wal_on d = Some f → f_data f = encode_records rs ++ tail → replay_one tail = None →
  Forall record_ok rs → blen (f_data f) < 2 ^ 63 → disk_state ents (current_version_ db) rs d.
Proof.
  intros Hdb [_ _ _ (ss & Em & Hss & Hl) Hms Hshape Hfiles Hdir] [Hmf Ht Hnum] Ew Ef Htail Hok Hsize.
  split; try done.
  - by exists f, tail.
  - rewrite Ef, blen_app in Hsize. pose proof (blen_nonneg tail). lia.
  - exists (manifest_ db), ss, []. rewrite app_nil_r. split_and!; [done..|apply load_one_nil|done].
  - eapply Forall_impl; [exact Hfiles|]. simpl. intros fm (bloom & Hb & Hd). exists bloom.
    split; [done|]. by apply Ht.
  - apply Hdb.
  - intros i Hi. specialize (Hnum i Hi). pose proof (rep_int _ _ _ Hdb). lia.
Qed.

(** A part of the log holds its first records, those the tables repeat among
    them. *)
Lemma log_part_records j ents mes db f :
  durable j ents mes db → log_part db f →
  ∃ rs n tail, f_data (wal_file (wal_ db)) = encode_records rs ∧ Forall record_ok rs ∧
    mes = insert_records rs [] ∧ log_of j (version_layers ents (current_version_ db)) rs ∧
    f_data f = encode_records (take n rs) ++ tail ∧ replay_one tail = None ∧
    (j_kept j ≤ n ≤ length rs)%nat.
Proof.
  intros Hdu [Hp Hl]. destruct (du_wal _ _ _ _ Hdu) as (rs & Ew & Hok & Em & Hlog & Hkept & _).
  rewrite Ew in Hp. destruct (prefix_of_log rs (f_data f) Hp) as (n & tail & Ef & Hn & Htail).
  assert (replay_one tail = None) as Ht.
  { destruct (rs !! n) as [r|] eqn:E; [|subst tail; apply replay_one_nil].
    destruct Htail as [Ht1 Ht2]. apply (replay_one_torn r); [|done|done]. by eapply Forall_lookup_1. }
  exists rs, n, tail. split_and!; try done. destruct (Nat.le_gt_cases (j_kept j) n) as [|Hlt]; [done|].
  exfalso. pose proof (log_kept _ _ _ Hlog). destruct (rs !! n) as [r|] eqn:E.
  - destruct Htail as [_ Htail]. assert (take (j_kept j) rs =
      take n rs ++ r :: take (j_kept j - S n) (drop (S n) rs)) as Er.
    { rewrite <- (take_drop_middle rs n r E) at 1.
      rewrite take_app_ge by (rewrite length_take; lia). rewrite length_take_le by lia.
      replace (j_kept j - n)%nat with (S (j_kept j - S n)) by lia. done. }
    rewrite Er, encode_records_app, encode_records_cons, !length_app in Hkept.
    rewrite Ef, length_app in Hl. lia.
  - apply lookup_ge_None in E. lia.
Qed.

(** Opening a disk gives a database that implements the recovered map. *)
Lemma open_refines ents v rs d o coins next mp :
  disk_state ents v rs d → 0 ≤ block_cache_bytes o < 2 ^ 63 → 1 ≤ next < 2 ^ 64 →
  layers_ok next (insert_records rs [] :: version_layers ents v) →
  (∀ k, reader_value (lookup_ref (mjoin (insert_records rs [] :: version_layers ents v)) k u64_max) =
    mp !! k) →
  ∃ db, db_open d o coins = Ok db ∧ refines ents (insert_records rs []) db (mkSpec mp []) ∧
    opened v rs d o db.
Proof.
  intros Hd Ho Hn Hl Hk. destruct (open_ok ents v rs d o coins next Hd Ho Hn Hl) as (db & E & Hdb & Hod).
  exists db. split_and!; [done| |done]. split; cbn [sp_map sp_snaps]; [done| |apply Hod|].
  - intros k. unfold db_entries, db_layers. rewrite (od_version _ _ _ _ _ Hod). apply Hk.
  - intros s m Hs. by apply elem_of_nil in Hs.
Qed.

(** ... and on disk, when the manifest had no torn tail. *)
Lemma opened_durable j ents v rs d o db f ss :
  disk_state ents v rs d → opened v rs d o db → j_mode j = opt_sync o →
  log_of j (version_layers ents v) rs → wal_on d = Some f →
  (length (encode_records (take (j_kept j) rs)) ≤ f_synced f)%nat →
  (j_settled j = true → f_synced f = length (f_data f) ∧
    Forall (older_ok (version_layers ents v) rs (j_map j)) (f_older f)) →
  manifest_on d = Some (manifest_ db) → synced (manifest_ db) →
  f_data (manifest_ db) = encode_snapshots ss → Forall snapshot_ok ss →
  default [] (last ss) = version_to_manifest v → durable j ents (insert_records rs []) db.
Proof.
  intros Hd [Ev (f' & Ef & Ew) _ Edir Eo _ Hnum] Hsync Hlog Ef' Hkept Hsettled Em Ems Emf Hss Hl.
  rewrite Ef' in Ef. injection Ef as <-.
  destruct (ds_wal _ _ _ _ Hd) as (f0 & tail & Ew0 & Efd & Htail). rewrite Ef' in Ew0. injection Ew0 as <-.
  pose proof (truncate_data f _ _ Efd) as Etr.
  assert (length (encode_records (take (j_kept j) rs)) ≤ length (encode_records rs))%nat as Hle.
  { rewrite <- (take_drop (j_kept j) rs) at 2. rewrite encode_records_app, length_app. lia. }
  split; rewrite ?Ev, ?Ew, ?Eo; cbn [wal_file wal_open mode_].
  - exists rs. split_and!; [done|apply Hd|done|done|cbn [truncate f_synced]; lia|].
    intros Hs. destruct (Hsettled Hs) as [Hsy Hold]. constructor; [|done]. split; [done|].
    exists rs, tail. split_and!; [done|done|apply Hd|by apply log_recovers_all|by right].
  - rewrite Etr. cbn [truncate f_synced]. split; [lia|]. intros [Hs _]%Hsettled.
    rewrite Hs, Efd, length_app. lia.
  - done.
  - by exists ss.
  - done.
  - apply Hd.
  - apply Forall_forall. intros fm Hfm. pose proof (ds_files _ _ _ _ Hd) as Hf.
    rewrite Forall_forall in Hf. destruct (Hf fm Hfm) as (bloom & Hb & Hs). exists bloom.
    split; [done|]. by rewrite Edir by (by apply list_elem_of_fmap_2).
  - exact Hnum.
Qed.

(** ** Calls keep the disk up to date *)

Lemma append_batch_mode w rs : mode_ (append_batch w rs).1 = mode_ w.
Proof using Type.
  destruct rs as [|r rs]; [done|]. unfold append_batch, wal_write. by repeat case_match.
Qed.

Lemma append_batch_synced w rs :
  (f_synced (wal_file w) ≤ length (f_data (wal_file w)))%nat →
  (f_synced (wal_file (append_batch w rs).1) ≤ length (f_data (wal_file w) ++ encode_records rs))%nat.
Proof.
  intros Hs. destruct rs as [|r rs]; [rewrite length_app; simpl; lia|].
  unfold append_batch, wal_write. rewrite write_fully_ok. cbn [fst snd].
  destruct (mode_ w); simpl; [by rewrite durable_sync_ok|]. rewrite length_app. lia.
Qed.

(** The contents are those of the tables with the pending writes. *)
Lemma durable_map j ents mes db :
  durable j ents mes db →
  ∀ k, reader_value (lookup_ref (db_entries ents mes db) k u64_max) = j_map j !! k.
Proof using Type.
  intros Hdu. destruct (du_wal _ _ _ _ Hdu) as (rs & _ & _ & -> & Hlog & _).
  by destruct (log_recovers_all _ _ _ Hlog) as (_ & _ & _ & Hk).
Qed.

Lemma assign_seqs_take s batch n :
  (assign_seqs s (take n batch)).1 = take n (assign_seqs s batch).1.
Proof using Type.
  revert s n. induction batch as [|r batch IH]; intros s [|n]; [done..|].
  cbn [take assign_seqs fst]. by rewrite IH.
Qed.

Lemma assign_seqs_requests s batch :
  record_request <$> (assign_seqs s batch).1 = batch.
Proof using Type.
  revert s. induction batch as [|[ty k v] batch IH]; intros s; [done|].
  cbn [assign_seqs fst]. rewrite fmap_cons. by rewrite IH.
Qed.

Lemma insert_records_app rs rs' mes :
  insert_records (rs ++ rs') mes = insert_records rs' (insert_records rs mes).
Proof using Type. unfold insert_records. apply fold_left_app. Qed.

(** A log with the records of a batch behind it. *)
Lemma recovers_batch ls rs next batch mp :
  Forall request_ok batch → layers_ok next (insert_records rs [] :: ls) →
  Forall sst_entry_ok (insert_records rs []) → 1 ≤ next → next + Z.of_nat (length batch) < 2 ^ 64 →
  recovers ls rs mp → recovers ls (rs ++ (assign_seqs next batch).1) (fold_left spec_write batch mp).
Proof using Type.
  intros Hb Hl Hm H1 Hn (_ & _ & _ & Hk).
  destruct (assign_seqs_layers batch next (insert_records rs []) ls) as (Hl' & _ & _ & _ & Hm'); [done..|].
  exists (next + Z.of_nat (length batch)). rewrite insert_records_app. split_and!; [lia|lia|done|auto].
Qed.

Lemma j_commit_nil j : j_commit j [] = j.
Proof using Type. unfold j_commit. rewrite app_nil_r. by destruct j. Qed.

Lemma log_commit j ls rs next batch :
  Forall request_ok batch → layers_ok next (insert_records rs [] :: ls) →
  Forall sst_entry_ok (insert_records rs []) → 1 ≤ next → next + Z.of_nat (length batch) < 2 ^ 64 →
  log_of j ls rs → log_of (j_commit j batch) ls (rs ++ (assign_seqs next batch).1).
Proof using Type.
  intros Hb Hl Hm H1 Hn Hlog. pose proof (log_reqs_length _ _ _ Hlog) as Hlen.
  pose proof (log_recovers_all _ _ _ Hlog) as Hall. destruct Hlog as [Hk Hq Hr].
  split; cbn [j_kept j_reqs j_base j_commit].
  - rewrite length_app. lia.
  - by rewrite drop_app_le, fmap_app, Hq, assign_seqs_requests by done.
  - intros n Hn'. destruct (Nat.le_gt_cases n (length rs)).
    + rewrite !take_app_le by lia. apply Hr. lia.
    + rewrite !take_app_ge by lia. rewrite <- assign_seqs_take, fold_left_app, Hlen.
      replace (n - j_kept j - (length rs - j_kept j))%nat with (n - length rs)%nat by lia.
      apply recovers_batch; [by apply Forall_take|done|done|done| |done]. rewrite length_take. lia.
Qed.

Lemma commit_durable j ents mes db batch m' :
  db_rep ents mes db → durable j ents mes db → Forall request_ok batch →
  next_seq_ db + Z.of_nat (length batch) < 2 ^ 64 →
  let rs := (assign_seqs (next_seq_ db) batch).1 in
  durable (j_commit j batch) ents (insert_records rs mes)
    (set_memtable m' (set_wal (append_batch (wal_ db) rs).1 false
      (set_next_seq (next_seq_ db + Z.of_nat (length batch)) db))).
Proof.
  intros Hdb [(old & Ew & Hold & Hm & Hlog & Hkept & Holder) [Hwl Hws] [Hmode Ho] Hmf Hms Hshape Hfiles Hdir]
    Hb Hn rs.
  pose proof (rep_next _ _ _ Hdb). destruct (append_batch_ok (wal_ db) rs) as (_ & Hd & Hs).
  destruct (append_batch_prefix (wal_ db) rs) as (_ & _ & _ & _ & Hgrow & _). specialize (Hgrow Hwl).
  destruct (assign_seqs_layers batch (next_seq_ db) mes (version_layers ents (current_version_ db)))
    as (_ & _ & Hrs & _); [done|lia|lia|apply Hdb|apply Hdb|].
  assert (batch ≠ [] → j_settled (j_commit j batch) = true → synced (wal_file (append_batch (wal_ db) rs).1))
    as Hsync.
  { intros Hne. unfold j_commit. cbn [j_settled]. rewrite decide_False by done.
    intros Hj%bool_decide_eq_true. apply Hs; [by rewrite Hmode|]. intros E. apply Hne.
    by rewrite <- (assign_seqs_requests (next_seq_ db) batch), (E : (assign_seqs _ _).1 = []). }
  split; cbn [wal_ opts_ manifest_ current_version_ db_dir next_sst_number_ set_memtable set_wal
    set_next_seq]; try done.
  - exists (old ++ rs). rewrite Hd, Ew, encode_records_app. cbn [j_kept j_commit]. split_and!.
    + done.
    + by apply Forall_app.
    + rewrite insert_records_app. by rewrite Hm.
    + apply log_commit; try done; try lia; rewrite <- Hm; apply Hdb.
    + rewrite take_app_le by apply Hlog. lia.
    + destruct (decide (batch = [])) as [->|Hne].
      * rewrite j_commit_nil. subst rs. cbn [assign_seqs fst append_batch]. by rewrite app_nil_r.
      * intros [_ E]%Hsync; [|done]. by rewrite E.
  - rewrite Hd. split; [by apply append_batch_synced|]. destruct (decide (batch = [])) as [->|Hne].
    + rewrite j_commit_nil. subst rs. cbn [assign_seqs fst append_batch]. by rewrite app_nil_r.
    + intros [E _]%Hsync; [|done]. by rewrite E, Hd.
  - by rewrite append_batch_mode.
Qed.

Lemma push_level0_shape v fm :
  version_shape v → fm_level fm = 0 → Forall (λ x, fm_number x < fm_number fm) (mjoin (files v)) →
  version_shape (push_level0 v fm).
Proof using Type.
  intros [Hlen Hlev H0' Hd Hnd] Hfm Hn.
  assert (NoDup (fm_number <$> mjoin (files (push_level0 v fm)))) as Hnd'.
  { rewrite push_level0_files by done. rewrite fmap_cons. constructor; [|done].
    rewrite Forall_forall in Hn. intros (x & E & Hx)%list_elem_of_fmap. specialize (Hn x Hx). lia. }
  unfold push_level0, files_at in *. destruct v as [[|l0 ls]]; [done|].
  cbn [files insert list_insert nth drop] in *.
  rewrite mjoin_cons, Forall_app in Hn. destruct Hn as [Hn _].
  split; unfold files_at; cbn [files nth drop]; [done| | |done|done].
  - intros [|l] fm'; [|apply (Hlev (S l))]. simpl.
    intros [Hin| ->%list_elem_of_singleton]%elem_of_app; [by apply (Hlev 0%nat)|done].
  - rewrite fmap_app. apply StronglySorted_app_2; [|done|by repeat constructor].
    intros a b (x & -> & Hx)%list_elem_of_fmap ->%list_elem_of_singleton.
    rewrite Forall_forall in Hn. by apply Hn.
Qed.

Lemma flushed_built ents mes num bloom :
  ents num = mes → mes ≠ [] → Forall sst_entry_ok mes → sorted_entries mes → flushable mes →
  filter_for mes bloom → file_built ents (flushed_meta num mes bloom) bloom.
Proof using Type.
  intros E Hne Hok Hs [Hfit Hsep] Hb. unfold flushed_meta. split; cbn [fm_number]; rewrite ?E; done.
Qed.

Lemma flush_durable j ents mes db bloom :
  db_rep ents mes db → durable j ents mes db → flushable mes → mes ≠ [] → filter_for mes bloom →
  let num := next_sst_number_ db in
  let ents' := λ i, if i =? num then mes else ents i in
  snapshot_ok (version_to_manifest (push_level0 (current_version_ db) (flushed_meta num mes bloom))) →
  durable (j_flush j) ents' [] (flushed_db mes bloom db).
Proof.
  intros Hdb Hdu Hf Hne Hb num ents' Hsnap. pose proof (durable_map j ents mes db Hdu) as Hmap.
  destruct Hdu as [(rs & Ewal & Hok & Erec & Hlog & _ & Holder) [_ Hsy] [_ Ho] (ss & Em & Hss & _) _ Hshape
    Hfiles Hdir].
  destruct (flushed_db_fields mes bloom db) as ((_ & _ & Ev & En & _ & _ & Eo) & _ & Ew & Emf & Ed).
  fold num in Ev, En, Emf, Ed. pose proof (rep_numbers _ _ _ Hdb) as Hn. fold num in Hn.
  rewrite append_snapshot_ok in Emf. cbn [fst] in Emf.
  assert (agrees num ents ents') as Hag.
  { split; [intros i; unfold ents'; case_match; [apply Hf|apply Hdb]|].
    intros i Hi. unfold ents'. by rewrite (proj2 (Z.eqb_neq _ _)) by lia. }
  assert (ents' num = mes) as Hnum by (unfold ents'; by rewrite Z.eqb_refl).
  assert (version_layers ents' (push_level0 (current_version_ db) (flushed_meta num mes bloom)) =
    mes :: version_layers ents (current_version_ db)) as Elay.
  { rewrite push_level0_layers by apply Hshape. cbn [fm_number flushed_meta]. rewrite Hnum. f_equal.
    apply (version_layers_agrees num ents ents'); [done|apply Hdb]. }
  pose proof (rep_next _ _ _ Hdb) as Hnext.
  split; rewrite ?Ev, ?En, ?Ew, ?Emf, ?Ed, ?Eo, ?Elay; try done.
  - exists []. split_and!; [done..| |simpl; lia|].
    + split; [done..|]. intros n Hn'. cbn [j_kept j_reqs j_base j_flush]. rewrite !take_nil.
      exists (next_seq_ db). split_and!; [lia|lia|apply layers_nil, Hdb|exact Hmap].
    + intros Hset. cbn [j_map j_reqs j_base j_flush fold_left].
      assert (∀ o, older_ok (version_layers ents (current_version_ db)) rs (j_map j) o →
        older_ok (mes :: version_layers ents (current_version_ db)) [] (j_map j) o) as Hmove.
      { intros o (E & rs' & tail & Eo' & Ht & Hok' & _ & [->| ->]); [by subst mes|].
        split; [done|]. exists rs, tail. split_and!; [done..| |by left].
        unfold recovers. rewrite <- Erec. destruct (layers_repeat _ _ _ (rep_layers _ _ _ Hdb)) as [Hl1 Hl2].
        exists (next_seq_ db). split_and!; [lia|lia|done|]. intros k. rewrite Hl2. apply Hmap. }
      cbn [truncate f_older wal_file wal_open]. constructor.
      * apply Hmove. split; [cbn [fst snd]; by apply Hsy|]. exists rs, []. rewrite app_nil_r.
        split_and!; [done|apply replay_one_nil|done|by apply log_recovers_all|by right].
      * eapply Forall_impl; [by apply Holder|done].
  - simpl. lia.
  - exists (ss ++ [version_to_manifest (push_level0 (current_version_ db) (flushed_meta num mes bloom))]).
    cbn [f_data]. rewrite Em, encode_snapshots_app, last_snoc. split_and!.
    + unfold encode_snapshots at 3. simpl. by rewrite app_nil_r.
    + apply Forall_app. split; [done|]. by constructor.
    + done.
  - by apply push_level0_shape.
  - rewrite push_level0_files by apply Hshape. constructor.
    + exists bloom. cbn [fm_number flushed_meta]. rewrite lookup_insert_eq, Hnum. split; [|done].
      apply flushed_built; try done; [apply Hdb|]. eapply represents_sorted. apply Hdb.
    + apply Forall_forall. intros fm Hfm. rewrite Forall_forall in Hfiles, Hn.
      destruct (Hfiles fm Hfm) as (bl & Hbl & Hd). specialize (Hn fm Hfm). exists bl.
      split; [by apply (file_built_agrees num ents)|]. rewrite lookup_insert_ne by lia.
      by rewrite (proj2 Hag).
  - intros n. rewrite lookup_insert_is_Some'. intros [<-|Hin]; [lia|]. specialize (Hdir n Hin). lia.
Qed.

(** The manifest of the version can be read back. *)
Definition manifest_fits (db : DB) : Prop := snapshot_ok (version_to_manifest (current_version_ db)).

(** A call that makes these writes keeps the contract and the disk up to
    date. *)
Definition keeps (j : Journal) (batch : list WriteRequest) (ents : Z → list Entry) (db db' : DB)
    (sp' : Spec) : Prop :=
  ∃ j' ents' mes', j_next j batch j' ∧ refines ents' mes' db' sp' ∧ durable j' ents' mes' db' ∧
    evolves ents db ents' db'.

Lemma j_next_mode j batch j' : j_next j batch j' → j_mode j' = j_mode j.
Proof using Type. by intros [->| ->]. Qed.

(** With a sync for every write the contents stay on the medium. *)
Lemma j_next_settled j batch j' :
  j_next j batch j' → j_settled j = true → j_mode j = EveryWrite → j_settled j' = true.
Proof using Type.
  intros Hn Hj Hm. assert (j_settled (j_commit j batch) = true) as Hc.
  { unfold j_commit. cbn [j_settled]. case_decide; [done|]. by rewrite bool_decide_eq_true. }
  by destruct Hn as [->| ->].
Qed.

Lemma keeps_refl j ents mes db sp :
  refines ents mes db sp → durable j ents mes db → keeps j [] ents db db sp.
Proof.
  intros Href Hdu. exists j, ents, mes. split_and!; [left; by rewrite j_commit_nil|done..|].
  eapply evolves_refl, Href.
Qed.

Lemma flush_durably j ents mes db sp :
  refines ents mes db sp → durable j ents mes db → flush_ready db → manifest_fits (flush db).1 →
  ∃ db', flush db = (db', Ok tt) ∧ keeps j [] ents db db' sp.
Proof.
  intros Href Hdu Hready Hfit. pose proof (rf_rep _ _ _ _ Href) as Hdb.
  destruct (decide (approx_bytes (memtable_ db) = 0)) as [E|E].
  { exists db. split; [|by eapply keeps_refl]. unfold flush. erewrite dbm_bind_ok by reflexivity.
    by rewrite E. }
  destruct (Hready E) as [Hf Hn]. rewrite (mem_entries_represents _ mes) in Hf by apply Hdb.
  assert (mes ≠ []) as Hne by (intros Hnil; apply E; by apply Hdb).
  destruct (flush_spec mes db) as (bloom & Hb & Ef); [apply Hdb|done|apply Hdb|apply Hf|done|done|].
  assert ((flush db).1 = flushed_db mes bloom db) as E1 by (rewrite Ef; reflexivity).
  unfold manifest_fits in Hfit. rewrite E1, flushed_version in Hfit. clear E1.
  destruct (flush_refines ents mes db sp bloom Href Hf Hne Hb Hn) as [Href' Hev].
  eexists. split; [exact Ef|]. eexists (j_flush j), _, []. split_and!; [|exact Href'| |exact Hev].
  - right. by rewrite j_commit_nil.
  - by apply flush_durable.
Qed.

Lemma maybe_flush_durably j ents mes db sp :
  refines ents mes db sp → durable j ents mes db →
  (flush_threshold_bytes (opts_ db) ≤ approx_bytes (memtable_ db) → flush_ready db) →
  manifest_fits (maybe_flush db).1 →
  ∃ db', maybe_flush db = (db', Ok tt) ∧ keeps j [] ents db db' sp.
Proof.
  intros Href Hdu Hready. unfold maybe_flush. do 2 (erewrite dbm_bind_ok by reflexivity).
  destruct (Z.leb_spec (flush_threshold_bytes (opts_ db)) (approx_bytes (memtable_ db))).
  - eapply flush_durably; eauto.
  - intros _. exists db. split; [done|]. by eapply keeps_refl.
Qed.

Lemma write_batch_durably j ents mes db sp batch coins :
  refines ents mes db sp → durable j ents mes db → call_safe db (CallWrite batch coins) →
  manifest_fits (write_batch batch coins db).1 →
  ∃ db', write_batch batch coins db = (db', Ok tt) ∧
    keeps j batch ents db db' (mkSpec (fold_left spec_write batch (sp_map sp)) (sp_snaps sp)).
Proof.
  intros Href Hdu (Hb & Hn & Hready).
  destruct (commit_batch_spec ents mes db batch coins) as (m' & Hm' & Hsame & E);
    [apply Href|done|done|]. rewrite E in Hready. cbn [fst] in Hready.
  pose proof (commit_refines ents mes db sp batch m' (append_batch (wal_ db)
    (assign_seqs (next_seq_ db) batch).1).1 Href Hb Hn Hm' Hsame) as Href'.
  pose proof (commit_durable j ents mes db batch m' (rf_rep _ _ _ _ Href) Hdu Hb Hn) as Hdu'.
  unfold write_batch. erewrite dbm_bind_ok by reflexivity. erewrite dbm_bind_ok in E by reflexivity.
  erewrite dbm_bind_ok by exact E. intros Hfit.
  destruct (maybe_flush_durably _ ents _ _ _ Href' Hdu' Hready Hfit)
    as (db' & Ef & j' & ents' & mes' & Hj & Href2 & Hdu2 & Hev).
  exists db'. split; [done|]. exists j', ents', mes'. unfold j_next in Hj |- *.
  rewrite j_commit_nil in Hj. split_and!; [done..|].
  destruct Hev as [[E1 E2 E3 E4 E5 E6] E7]. cbn [next_sst_number_ next_seq_ opts_ current_version_
    live_snapshots_ db_dir set_memtable set_wal set_next_seq] in *.
  split; [split; [done|done|lia|done|done|]|done].
  intros s Hs. destruct (E6 s Hs); [by left|right; lia].
Qed.

(** The writes of a call. *)
Definition call_writes (c : call) : list WriteRequest :=
  match c with CallWrite batch _ => batch | _ => [] end.

Definition call_durable `{PriorityQueue} (db : DB) (c : call) : Prop :=
  call_safe db c ∧ manifest_fits (run_call c db).1.

(** Changes to the cache and to the snapshots do not touch the disk. *)
Lemma durable_same_files j ents mes db db' :
  durable j ents mes db → same_files db db' → durable j ents mes db'.
Proof using Type.
  intros [] (Ew & Em & Ev & Ed & Eo & En). split; rewrite ?Ew, ?Em, ?Ev, ?Ed, ?Eo, ?En; done.
Qed.

Lemma run_call_state {A} (m : dbm A) (f : A → response) db :
  ((a ← m; mret (f a)) db).1 = (m db).1.
Proof using Type. unfold mbind, dbm_bind. by destruct (m db) as [db' []]. Qed.

Lemma call_durably `{PriorityQueueOk} j ents mes db sp c :
  refines ents mes db sp → durable j ents mes db → call_durable db c →
  ∃ db' r sp', run_call c db = (db', Ok r) ∧ spec_step sp c r sp' ∧
    keeps j (call_writes c) ents db db' sp'.
Proof.
  intros Href Hdu [Hsafe Hfit]. destruct (decide (is_read c)) as [Hread|Hread].
  - destruct (read_call_refines ents mes db sp c Href Hread Hsafe)
      as (db' & r & sp' & E & Hs & Href' & Hsame & Hev).
    exists db', r, sp'. split_and!; [done..|]. exists j, ents, mes. split_and!; [|done| |done].
    + left. destruct c; try done; by rewrite j_commit_nil.
    + by eapply durable_same_files.
  - destruct c as [batch coins| | | | | | |]; try (by destruct Hread); unfold run_call in *;
      rewrite run_call_state in Hfit.
    + destruct (write_batch_durably j ents mes db sp batch coins Href Hdu Hsafe Hfit) as (db' & E & Hkeep).
      erewrite dbm_bind_ok by exact E. eexists _, _, _. by split_and!; [|constructor|].
    + destruct (flush_durably j ents mes db sp Href Hdu Hsafe Hfit) as (db' & E & Hkeep).
      erewrite dbm_bind_ok by exact E. eexists _, _, _. by split_and!; [|constructor|].
Qed.

(** A crash after the first [n] bytes of the log and all of the other files have
    reached the medium. *)
Definition cut_log (n : nat) (db : DB) : Disk :=
  mkDisk (Some (on_disk (take n (f_data (wal_file (wal_ db)))))) (Some (on_disk (f_data (manifest_ db))))
    ((λ f, on_disk (f_data f)) <$> db_dir db).

(** A crash after everything has reached it. *)
Definition all_written (db : DB) : Disk := cut_log (length (f_data (wal_file (wal_ db)))) db.

Lemma cut_log_kept n db :
  (f_synced (wal_file (wal_ db)) ≤ n `min` length (f_data (wal_file (wal_ db))))%nat →
  truncations_kept db (cut_log n db).
Proof using Type.
  intros Hw. eexists. split; [done|]. split; [apply prefix_take|]. by rewrite length_take.
Qed.

Lemma cut_log_crash n db :
  (f_synced (wal_file (wal_ db)) ≤ n `min` length (f_data (wal_file (wal_ db))))%nat →
  (f_synced (manifest_ db) ≤ length (f_data (manifest_ db)))%nat →
  map_Forall (λ _ f, f_synced f ≤ length (f_data f))%nat (db_dir db) → crash_disk db (cut_log n db).
Proof using Type.
  intros Hw Hm Hd. split; simpl.
  - destruct (cut_log_kept n db Hw) as (w & E & Hc). injection E as E. eexists. split; [done|].
    exists w. split; [by rewrite E|by left].
  - eexists. split; [done|]. eexists. split; [done|]. by left.
  - intros i. rewrite lookup_fmap. destruct (db_dir db !! i) as [f|] eqn:E; simpl; [|done].
    eexists. split; [done|]. left. split; [done|]. by apply (Hd i).
Qed.

Lemma all_written_crash db :
  (f_synced (wal_file (wal_ db)) ≤ length (f_data (wal_file (wal_ db))))%nat →
  (f_synced (manifest_ db) ≤ length (f_data (manifest_ db)))%nat →
  map_Forall (λ _ f, f_synced f ≤ length (f_data f))%nat (db_dir db) → crash_disk db (all_written db).
Proof using Type. intros Hw Hm Hd. apply cut_log_crash; [lia|done|done]. Qed.

(** The writes that do not come back. *)
Definition lost (db : DB) (d : Disk) : nat :=
  length (replay (Some (f_data (wal_file (wal_ db))))) - length (replay (disk_wal d)).

(** The log, and what it was before a truncation that may be undone, can be read
    back. *)
Definition log_fits (db : DB) : Prop :=
  Forall (λ o, blen o.1 < 2 ^ 63) ((f_data (wal_file (wal_ db)), 0%nat) :: f_older (wal_file (wal_ db))).

Definition j_recovered (j : Journal) (o : Options) (settled : bool) (n : nat) : Journal :=
  mkJournal (opt_sync o) settled (j_kept j) (j_base j) (take n (j_reqs j)).

Lemma refines_journal j ents mes db sp :
  refines ents mes db sp → durable j ents mes db → sp_map sp = j_map j.
Proof.
  intros Href Hdu. apply map_eq. intros k. rewrite <- (rf_map _ _ _ _ Href).
  by apply durable_map.
Qed.

(** Opening a disk with the log [rs]. *)
Lemma recover_log j0 ents mes db d o coins f rs tail j :
  db_rep ents mes db → durable j0 ents mes db → remains db d → 0 ≤ block_cache_bytes o < 2 ^ 63 →
  wal_on d = Some f → f_data f = encode_records rs ++ tail → replay_one tail = None →
  Forall record_ok rs → blen (f_data f) < 2 ^ 63 →
  j_mode j = opt_sync o → log_of j (version_layers ents (current_version_ db)) rs →
  (length (encode_records (take (j_kept j) rs)) ≤ f_synced f)%nat →
  (j_settled j = true → f_synced f = length (f_data f) ∧
    Forall (older_ok (version_layers ents (current_version_ db)) rs (j_map j)) (f_older f)) →
  ∃ db' mes', db_open d o coins = Ok db' ∧ refines ents mes' db' (mkSpec (j_map j) []) ∧
    durable j ents mes' db'.
Proof.
  intros Hdb Hdu Hlv Ho Ew Ef Ht Hok Hsize Hmode Hlog Hkept Hset.
  pose proof (remains_disk j0 ents mes db d f rs tail Hdb Hdu Hlv Ew Ef Ht Hok Hsize) as Hd.
  destruct (log_recovers_all _ _ _ Hlog) as (next & Hnext & Hl & Hk).
  destruct (open_refines ents (current_version_ db) rs d o coins next (j_map j)) as (db' & E & Href' & Hod);
    [done..|].
  exists db', (insert_records rs []). split_and!; [done|done|].
  destruct (du_manifest _ _ _ _ Hdu) as (ss & Em & Hss & Hlast).
  pose proof (od_manifest _ _ _ _ _ Hod) as Em'. rewrite (lv_manifest _ _ Hlv) in Em'. injection Em' as Em'.
  apply (opened_durable j ents (current_version_ db) rs d o db' f ss); try done.
  - rewrite <- Em'. apply Hlv.
  - rewrite <- Em'. apply Hdu.
  - by rewrite <- Em'.
Qed.

Lemma lost_records db d f rs rs' tail :
  f_data (wal_file (wal_ db)) = encode_records rs → Forall record_ok rs →
  wal_on d = Some f → f_data f = encode_records rs' ++ tail → replay_one tail = None →
  Forall record_ok rs' → lost db d = (length rs - length rs')%nat.
Proof.
  intros Ew Hok Ed Ef Ht Hok'. unfold lost, disk_wal. rewrite Ed. cbn [fmap option_fmap option_map].
  rewrite Ew, Ef, replay_records by done.
  by rewrite <- (app_nil_r (encode_records rs)), replay_records by (done || apply replay_one_nil).
Qed.

Lemma encode_records_inj rs rs' :
  Forall record_ok rs → Forall record_ok rs' → encode_records rs = encode_records rs' → rs = rs'.
Proof.
  intros Hok Hok' E. rewrite <- (replay_records rs [] Hok replay_one_nil).
  rewrite <- (replay_records rs' [] Hok' replay_one_nil). by rewrite !app_nil_r, E.
Qed.

(** A crash that undoes no truncation: a first part of the log comes back. *)
Lemma recover_part j ents mes db d o coins :
  db_rep ents mes db → durable j ents mes db → remains db d → truncations_kept db d →
  log_fits db → 0 ≤ block_cache_bytes o < 2 ^ 63 →
  let j' := j_recovered j o true (length (j_reqs j) - lost db d) in
  (lost db d ≤ length (j_reqs j))%nat ∧ (j_settled j = true → lost db d = 0%nat) ∧
  ∃ db' mes', db_open d o coins = Ok db' ∧ refines ents mes' db' (mkSpec (j_map j') []) ∧
    durable j' ents mes' db'.
Proof.
  intros Hdb Hdu Hc (w & Ed & [Hp Hl]) Hfits Ho.
  assert (log_part db (on_disk w)) as Hpart by done.
  destruct (log_part_records j ents mes db (on_disk w) Hdu Hpart)
    as (rs & n & tail & Ew & Hok & Em & Hlog & Ef & Ht & Hn).
  pose proof (lost_records db d (on_disk w) rs (take n rs) tail Ew Hok Ed Ef Ht ltac:(by apply Forall_take)) as El.
  rewrite length_take_le in El by lia. pose proof (log_reqs_length _ _ _ Hlog) as Elen.
  assert (length (j_reqs j) - lost db d = n - j_kept j)%nat as -> by lia. split_and!; [lia| |].
  { intros Hs. apply (du_wal_synced _ _ _ _ Hdu) in Hs. apply prefix_full in Hp; [|lia]. subst w.
    enough (length rs ≤ n)%nat by lia. destruct (Nat.le_gt_cases (length rs) n) as [|Hlt]; [done|].
    assert (f_data (wal_file (wal_ db)) = encode_records (take n rs) ++ tail) as Ef' by exact Ef.
    pose proof (replay_records (take n rs) tail ltac:(by apply Forall_take) Ht) as E1.
    pose proof (replay_records rs [] Hok replay_one_nil) as E2. rewrite app_nil_r, <- Ew, Ef', E1 in E2.
    apply (f_equal length) in E2. rewrite length_take_le in E2; lia. }
  apply (recover_log j ents mes db d o coins (on_disk w) (take n rs) tail); try done.
  - by apply Forall_take.
  - apply Forall_cons in Hfits as [Hfits _]. apply prefix_length in Hp. unfold blen in *. simpl in *. lia.
  - apply (log_first j _ rs (opt_sync o) true n Hlog Hn).
  - cbn [j_kept j_recovered]. rewrite take_take, Nat.min_l by lia. cbn [f_synced on_disk].
    destruct (du_wal _ _ _ _ Hdu) as (rs' & Ew' & Hok' & _ & _ & Hkept & _).
    assert (rs' = rs) as -> by (apply encode_records_inj; [done..|by rewrite <- Ew, <- Ew']). lia.
Qed.

(** The contents are the same, in the tables and the log or in the tables
    alone. *)
Definition j_same (j j' : Journal) : Prop :=
  j_base j' = j_base j ∧ j_reqs j' = j_reqs j ∨ j_base j' = j_map j ∧ j_reqs j' = [].

Lemma j_same_map j j' : j_same j j' → j_map j' = j_map j.
Proof using Type. unfold j_map. by intros [[-> ->]|[-> ->]]. Qed.

(** Any crash of a store whose contents are on the medium. *)
Lemma recover_settled j ents mes db d o coins :
  db_rep ents mes db → durable j ents mes db → j_settled j = true → remains db d → log_left db d →
  log_fits db → 0 ≤ block_cache_bytes o < 2 ^ 63 →
  lost db d = 0%nat ∧
  ∃ j' db' mes', j_same j j' ∧ j_settled j' = true ∧ j_mode j' = opt_sync o ∧
    db_open d o coins = Ok db' ∧ refines ents mes' db' (mkSpec (j_map j') []) ∧ durable j' ents mes' db'.
Proof.
  intros Hdb Hdu Hs Hc (f & Ed & w & -> & [Hw|Hold]) Hfits Ho.
  - destruct (recover_part j ents mes db d o coins Hdb Hdu Hc) as (_ & Hl & Hr); [by exists w|done|done|].
    rewrite (Hl Hs), Nat.sub_0_r in *. split; [done|]. destruct Hr as (db' & mes' & E & Href' & Hdu').
    eexists _, db', mes'. split_and!; [|..|exact E|exact Href'|exact Hdu']; [|done..].
    left. cbn [j_base j_reqs j_recovered]. by rewrite firstn_all.
  - apply Exists_exists in Hold as ([b n] & Hin & [Hp Hl]). cbn [fst snd] in *.
    destruct (du_wal _ _ _ _ Hdu) as (rs & Ew & Hok & _ & Hlog & _ & Hold).
    specialize (Hold Hs). rewrite Forall_forall in Hold. destruct (Hold _ Hin)
      as (En & rs' & tail & Eb & Ht & Hok' & Hrec & Hcase). cbn [fst snd] in En, Eb.
    apply prefix_full in Hp as ->; [|lia].
    assert (lost db d = 0%nat) as El.
    { rewrite (lost_records db d (on_disk b) rs rs' tail) by done. destruct Hcase as [->| ->]; simpl; lia. }
    split; [done|]. set (j' := mkJournal (opt_sync o) true (length rs') (j_map j) []).
    destruct (recover_log j ents mes db d o coins (on_disk b) rs' tail j') as (db' & mes' & E & Href' & Hdu');
      try done.
    + apply Forall_cons in Hfits as [_ Hfits]. rewrite Forall_forall in Hfits. by apply (Hfits _ Hin).
    + split; cbn [j_kept j_reqs j_base j'].
      * done.
      * by rewrite drop_all.
      * intros m Hm. rewrite take_nil. by rewrite take_ge by lia.
    + cbn [j_kept j' on_disk f_synced]. rewrite firstn_all, Eb, length_app. lia.
    + exists j', db', mes'. split_and!; [by right|done..].
Qed.

(** The process ends without a crash. *)
Lemma recover_close j ents mes db o coins :
  db_rep ents mes db → durable j ents mes db → log_fits db → 0 ≤ block_cache_bytes o < 2 ^ 63 →
  let j' := mkJournal (opt_sync o) (j_settled j) (j_kept j) (j_base j) (j_reqs j) in
  ∃ db' mes', db_open (disk_of db) o coins = Ok db' ∧ refines ents mes' db' (mkSpec (j_map j') []) ∧
    durable j' ents mes' db'.
Proof.
  intros Hdb Hdu Hfits Ho. destruct (du_wal _ _ _ _ Hdu) as (rs & Ew & Hok & _ & [L1 L2 L3] & Hkept & Hold).
  apply (recover_log j ents mes db (disk_of db) o coins (wal_file (wal_ db)) rs []); try done.
  - by eapply close_leaves.
  - by rewrite app_nil_r.
  - apply replay_one_nil.
  - by apply Forall_cons in Hfits as [Hfits _].
  - intros Hs. split; [by apply Hdu|auto].
Qed.

(** Opening what a crash leaves of a durable database. *)
Lemma recover_durably db sp d o coins :
  durably_refined db sp → crash_disk db d → log_fits db → 0 ≤ block_cache_bytes o < 2 ^ 63 →
  ∃ db', db_open d o coins = Ok db' ∧ durably_refined db' (mkSpec (sp_map sp) []).
Proof.
  intros (j & ents & mes & Hj & Href & Hdu) Hc Hsize Ho.
  destruct (recover_settled j ents mes db d o coins (rf_rep _ _ _ _ Href) Hdu Hj (crash_leaves _ _ _ _ _ Hdu Hc)
    (crash_wal _ _ Hc) Hsize Ho) as (_ & j' & db' & mes' & Hsame & Hj' & _ & E & Href' & Hdu').
  exists db'. split; [done|]. exists j', ents, mes'. split_and!; [done| |done].
  by rewrite (refines_journal j ents mes db sp Href Hdu), <- (j_same_map j j').
Qed.

End OpenLemmas.

(** ** Opening an empty directory *)

(** An empty directory gives the empty database. *)
Lemma open_empty `{Posix} o coins : db_open (mkDisk None None ∅) o coins = Ok (DB_new o).
Proof. unfold db_open, DB_new. by destruct (0 <? block_cache_bytes o). Qed.

Lemma DB_new_durable `{Posix} o :
  durable (mkJournal (opt_sync o) true 0 ∅ []) (λ _, []) [] (DB_new o).
Proof.
  split; simpl; try done.
  - exists []. split_and!; try done. split; [done..|]. intros n _. cbn [j_reqs j_base]. rewrite !take_nil.
    exists 1. split; [lia|]. split; [|done]. split; [|by intros e e' He%elem_of_nil|constructor].
    simpl. split_and!; try done; intros e e' He; by apply elem_of_nil in He.
  - by exists [].
  - split; simpl; [done| | |repeat constructor|constructor].
    + intros l fm. unfold files_at. simpl. do 7 (destruct l as [|l]; [by rewrite elem_of_nil|]).
      destruct l; by rewrite elem_of_nil.
    + constructor.
  - intros n [f Hf]. by rewrite lookup_empty in Hf.
Qed.

Lemma DB_new_durably `{PosixOk} o :
  0 ≤ block_cache_bytes o < 2 ^ 63 → durably_refined (DB_new o) (mkSpec ∅ []).
Proof.
  intros Ho. eexists _, (λ _, []), []. split_and!; [|by apply DB_new_refines|apply DB_new_durable]. done.
Qed.

#[export] Instance entry_ok_dec f : Decision (entry_ok f).
Proof. unfold entry_ok. apply _. Defined.

#[export] Instance log_fits_dec db : Decision (log_fits db).
Proof. unfold log_fits. apply _. Defined.

#[export] Instance manifest_fits_dec db : Decision (manifest_fits db).
Proof. unfold manifest_fits, snapshot_ok. apply _. Defined.

(** * Properties *)

(** Recovery. Whatever a crash between two calls leaves of a store whose
    contents are on the medium, [open] succeeds on it, and the database it
    returns implements the contents before the crash, in memory and on the
    medium, with no live snapshots. *)
Theorem crash_recovery `{PosixOk} (db : DB) (sp : Spec) (d : Disk) (o : Options)
    (coins : list (list bool)) (Href : durably_refined db sp) (Hcrash : crash_disk db d)
    (Hsize : log_fits db) (Ho : 0 ≤ block_cache_bytes o < 2 ^ 63) :
  ∃ db', db_open d o coins = Ok db' ∧ durably_refined db' (mkSpec (sp_map sp) []).
Proof. by apply (recover_durably db sp). Qed.

(** ** A manifest with a torn tail *)

(** One write is flushed.  The flush of a second write finds the disk full in
    the middle of the manifest, and the store is closed, opened, flushed,
    closed and opened again. *)
Definition torn_options : Options := {|
  opt_sync := EveryWrite; flush_threshold_bytes := 4096; compaction_trigger := 4;
  block_cache_bytes := 1000; target_file_size := 2000; l1_max_bytes := 8000;
  level_size_multiplier := 10;
|}.

Definition torn_run : result (list (result (option bytes)) * list (result unit)) :=
  let sys := ex_posix in
  let db0 := ((_ ← write_batch [put_request (bs "a") (bs "1")] []; flush) (DB_new torn_options)).1 in
  let db1 := (write_batch [put_request (bs "b") (bs "2")] [] db0).1 in
  let failed := @flush (full_disk (length (f_data (manifest_ db1)))) db1 in
  db2 ← db_open (disk_of failed.1) torn_options [];
  let second := flush db2 in
  db3 ← db_open (disk_of second.1) torn_options [];
  Ok ([(get (bs "b") db2).2; (get (bs "a") db3).2; (get (bs "b") db3).2], [failed.2; second.2]).

(** A torn manifest loses a later flush. [open] leaves the torn tail in
    place and the next flush appends behind it and empties the log; the next
    [open] stops at the tail, so it takes the new table file for an orphan and
    deletes it. *)
Theorem torn_manifest_loses_write :
  torn_run = Ok ([Ok (Some (bs "2")); Ok (Some (bs "1")); Ok None],
                 [Throw "write failed: No space left on device"; Ok tt]).
Proof. by vm_compute. Qed.

(** ** A truncation that is undone *)

(** Two writes of one key in a store that does not sync its log, and a flush.
    A crash finds the table and the manifest on the medium, and of the log only
    the first record: its truncation had not got there. *)
Definition lazy_one : Options := {|
  opt_sync := Batched; flush_threshold_bytes := 4096; compaction_trigger := 4;
  block_cache_bytes := 1000; target_file_size := 2000; l1_max_bytes := 8000;
  level_size_multiplier := 10;
|}.

Definition stale_db0 : DB :=
  (write_batch (H := ex_posix) [put_request (bs "a") (bs "1")] [] (DB_new lazy_one)).1.
Definition stale_db : DB :=
  ((_ ← write_batch (H := ex_posix) [put_request (bs "a") (bs "2")] []; flush (H := ex_posix)) stale_db0).1.

Definition stale_left : Disk :=
  mkDisk (Some (on_disk (f_data (wal_file (wal_ stale_db0))))) (manifest_on (all_written stale_db))
    (ssts_on (all_written stale_db)).

(** Without a sync a truncation that is undone hides a flushed write: the
    stale record goes into the memtable, in front of the table with the newer
    value. *)
Theorem undone_truncation_hides_write :
  crash_disk stale_db stale_left ∧
  (get (H := ex_posix) (bs "a") stale_db).2 = Ok (Some (bs "2")) ∧
  (db ← db_open (H := ex_posix) stale_left lazy_one []; (get (H := ex_posix) (bs "a") db).2) =
    Ok (Some (bs "1")).
Proof.
  split; [|by split; vm_compute]. split.
  - eexists. split; [reflexivity|]. exists (f_data (wal_file (wal_ stale_db0))). split; [reflexivity|].
    apply (bool_decide_unpack _). vm_compute. exact I.
  - eexists. split; [reflexivity|]. exists (f_data (manifest_ stale_db)). split; [reflexivity|].
    apply (bool_decide_unpack _). vm_compute. exact I.
  - intros n. cbn [ssts_on stale_left all_written cut_log]. rewrite lookup_fmap.
    destruct (db_dir stale_db !! n) as [f|] eqn:E; [|done]. simpl. eexists. split; [reflexivity|]. left.
    split; [reflexivity|]. revert n f E.
    enough (map_Forall (λ _ f, f_synced f ≤ length (f_data f))%nat (db_dir stale_db)) as Hd by exact Hd.
    apply (bool_decide_unpack _). vm_compute. exact I.
Qed.

(** ** Witnesses *)

(** One key is written and flushed, then written again, and the process is
    killed: the first version is in a table file, the second in the log. *)
Definition ex_flushed : DB :=
  ((_ ← write_batch (H := ex_posix) [put_request (bs "a") (bs "1")] []; flush (H := ex_posix))
     (DB_new torn_options)).1.

Definition ex_rewrite : list WriteRequest := [put_request (bs "a") (bs "2")].

Definition ex_open : DB := (write_batch (H := ex_posix) ex_rewrite [] ex_flushed).1.

Lemma write_durably_refined `{PosixOk} db sp batch coins :
  durably_refined db sp → opt_sync (opts_ db) = EveryWrite → call_safe db (CallWrite batch coins) →
  manifest_fits (write_batch batch coins db).1 →
  write_batch batch coins db = ((write_batch batch coins db).1, Ok tt) ∧
  durably_refined (write_batch batch coins db).1
    (mkSpec (fold_left spec_write batch (sp_map sp)) (sp_snaps sp)).
Proof.
  intros (j & ents & mes & Hj & Href & Hdu) Hsync Hsafe Hfit.
  destruct (write_batch_durably j ents mes db sp batch coins Href Hdu Hsafe Hfit)
    as (db' & E & j' & ents' & mes' & Hj' & Href' & Hdu' & _).
  rewrite E. split; [done|]. exists j', ents', mes'. split_and!; [|done..].
  apply (j_next_settled _ _ _ Hj' Hj). by rewrite <- (proj2 (du_mode _ _ _ _ Hdu)).
Qed.

Lemma flush_durably_refined `{PosixOk} db sp :
  durably_refined db sp → flush_ready db → manifest_fits (flush db).1 →
  durably_refined (flush db).1 sp.
Proof.
  intros (j & ents & mes & Hj & Href & Hdu) Hready Hfit.
  destruct (flush_durably j ents mes db sp Href Hdu Hready Hfit)
    as (db' & E & j' & ents' & mes' & Hj' & Href' & Hdu' & _).
  rewrite E. exists j', ents', mes'. split_and!; [|done..].
  destruct Hj' as [->| ->]; by rewrite j_commit_nil.
Qed.

Lemma ex_flushed_durable :
  durably_refined (H := ex_posix) ex_flushed (mkSpec {[bs "a" := bs "1"]} []).
Proof.
  destruct (write_durably_refined (H := ex_posix) (DB_new torn_options) (mkSpec ∅ [])
    [put_request (bs "a") (bs "1")] []) as [E Hd].
  - apply DB_new_durably. simpl. lia.
  - reflexivity.
  - apply (bool_decide_unpack _). vm_compute. exact I.
  - apply (bool_decide_unpack _). vm_compute. exact I.
  - unfold ex_flushed. rewrite (dbm_bind_ok _ _ _ _ _ E).
    apply flush_durably_refined; [exact Hd|apply (bool_decide_unpack _); vm_compute; exact I..].
Qed.

Lemma ex_open_durable :
  durably_refined (H := ex_posix) ex_open (mkSpec {[bs "a" := bs "2"]} []).
Proof.
  destruct (write_durably_refined (H := ex_posix) ex_flushed _ ex_rewrite [] ex_flushed_durable) as [_ Hd].
  - vm_compute. reflexivity.
  - apply (bool_decide_unpack _). vm_compute. exact I.
  - apply (bool_decide_unpack _). vm_compute. exact I.
  - exact Hd.
Qed.

Lemma ex_open_crash : crash_disk ex_open (all_written ex_open).
Proof.
  apply all_written_crash; [vm_compute; lia..|]. apply (bool_decide_unpack _). vm_compute. exact I.
Qed.

Lemma crash_recovery_witness :
  ∃ db', db_open (H := ex_posix) (all_written ex_open) torn_options [] = Ok db' ∧
    durably_refined (H := ex_posix) db' (mkSpec {[bs "a" := bs "2"]} []).
Proof.
  destruct (crash_recovery (H := ex_posix) ex_open (mkSpec {[bs "a" := bs "2"]} []) (all_written ex_open)
    torn_options []) as (db' & E & Hd).
  - exact ex_open_durable.
  - exact ex_open_crash.
  - apply (bool_decide_unpack _). vm_compute. exact I.
  - simpl. lia.
  - exists db'. split; [exact E|exact Hd].
Defined.
