(* ===== verification/Directory.v ===== *)
(** The names of the files of a database: [sst_path] and the scan of the
    directory in [DB::open] (src/src/db.cpp).

    [Recovery] works on a [Disk], which gives the table files by number.  Here
    a directory maps names to files, and the scan that [open] makes of it
    finds exactly the tables of the disk, whatever the order in which the
    system lists the names and whatever other names there are, as long as none
    of them reads as the number of a table. *)

From S2P Require Import Prelude Text Coding Wal Entry Manifest Memtable BlockCache SSTableWriter SSTable MergeIterator Version Compaction Levels Db Recovery.
Local Open Scope Z_scope.

(** * Definitions *)

(** ** Names *)

(** [sst_path] without the directory. *)
Definition sst_name (num : Z) : bytes := padded 6 num ++ bs ".sst".

(** [final_path + ".tmp"] *)
Definition temp_name (name : bytes) : bytes := name ++ bs ".tmp".

Definition wal_name : bytes := bs "wal.log".
Definition manifest_name : bytes := bs "MANIFEST".

(** ** [std::filesystem::path] *)

(** The text before the last dot, and from it on. *)
Fixpoint split_dot (s : bytes) : option (bytes * bytes) :=
  match s with
  | [] => None
  | b :: s' =>
      match split_dot s' with
      | Some (p, e) => Some (b :: p, e)
      | None => if bool_decide (b = x2e%byte) then Some ([], s) else None
      end
  end.

(** [stem()] and [extension()]: a dot in front starts no extension. *)
Definition path_split (name : bytes) : bytes * bytes :=
  if bool_decide (name = bs ".") || bool_decide (name = bs "..") then (name, []) else
  match split_dot name with
  | None | Some ([], _) => (name, [])
  | Some (p, e) => (p, e)
  end.

Definition stem (name : bytes) : bytes := (path_split name).1.
Definition extension (name : bytes) : bytes := (path_split name).2.

(** ** The scan of [open] *)

Record Scan := mkScan {
  num_to_path : gmap Z bytes;
  max_num : Z;
  removed : list bytes;
}.

(** The body of the loop over [directory_iterator]. *)
Definition scan_entry (st : Scan) (name : bytes) : Scan :=
  if bool_decide (extension name = bs ".sst") then
    match stoi (stem name) with
    | Some num => mkScan (<[num := name]> (num_to_path st)) (Z.max (max_num st) num) (removed st)
    | None => st
    end
  else if bool_decide (extension name = bs ".tmp") && bool_decide (extension (stem name) = bs ".sst")
  then mkScan (num_to_path st) (max_num st) (removed st ++ [name])
  else st.

Definition scan_dir (order : list bytes) : Scan := fold_left scan_entry order (mkScan ∅ 0 []).

(** What [open] finds in a directory whose names are listed in [order]. *)
Definition dir_disk (files : gmap bytes File) (order : list bytes) : Disk :=
  mkDisk (files !! wal_name) (files !! manifest_name)
    (omap (λ path, files !! path) (num_to_path (scan_dir order))).

(** ** The directory of a disk *)

Definition table_number (n : Z) : Prop := 0 ≤ n < 2 ^ 31.

(** A name that the scan takes for the table [n]. *)
Definition table_named (name : bytes) (n : Z) : Prop :=
  extension name = bs ".sst" ∧ stoi (stem name) = Some n.

(** A name that it takes for a file a writer has left. *)
Definition temp_named (name : bytes) : Prop :=
  extension name = bs ".tmp" ∧ extension (stem name) = bs ".sst".

(** The directory holds the files of [d], and any others, as long as none of
    them reads as the number of a table. *)
Record dir_holds (files : gmap bytes File) (d : Disk) : Prop := {
  dh_wal : files !! wal_name = wal_on d;
  dh_manifest : files !! manifest_name = manifest_on d;
  dh_table n f : ssts_on d !! n = Some f → table_number n ∧ files !! sst_name n = Some f;
  dh_named name n : is_Some (files !! name) → table_named name n →
    name = sst_name n ∧ is_Some (ssts_on d !! n);
}.

(** * Lemmas *)

Lemma split_dot_none e : Forall (λ b, b ≠ x2e%byte) e → split_dot e = None.
Proof.
  induction 1 as [|b e Hb _ IH]; [done|]. cbn [split_dot]. by rewrite IH, bool_decide_eq_false_2.
Qed.

Lemma split_dot_app p e :
  Forall (λ b, b ≠ x2e%byte) e → split_dot (p ++ x2e%byte :: e) = Some (p, x2e%byte :: e).
Proof.
  intros He. induction p as [|b p IH]; cbn [app split_dot].
  - by rewrite split_dot_none.
  - by rewrite IH.
Qed.

Lemma path_split_app p e :
  p ≠ [] → (2 ≤ length e)%nat → Forall (λ b, b ≠ x2e%byte) e →
  path_split (p ++ x2e%byte :: e) = (p, x2e%byte :: e).
Proof.
  intros Hp Hl He. unfold path_split.
  assert (∀ s, (length s ≤ 2)%nat → p ++ x2e%byte :: e ≠ s) as Hne.
  { intros s Hs <-. rewrite length_app in Hs. simpl in Hs. lia. }
  rewrite !bool_decide_eq_false_2 by (apply Hne; simpl; lia). cbn [orb].
  rewrite split_dot_app by done. by destruct p.
Qed.

Lemma sst_name_split n : path_split (sst_name n) = (padded 6 n, bs ".sst").
Proof.
  apply (path_split_app (padded 6 n) (bs "sst")); [apply padded_nonempty|simpl; lia|].
  by repeat constructor.
Qed.

Lemma sst_name_nonempty n : sst_name n ≠ [].
Proof. unfold sst_name. intros [E _]%app_eq_nil. by apply padded_nonempty in E. Qed.

Lemma temp_name_split n : path_split (temp_name (sst_name n)) = (sst_name n, bs ".tmp").
Proof.
  apply (path_split_app (sst_name n) (bs "tmp")); [apply sst_name_nonempty|simpl; lia|].
  by repeat constructor.
Qed.

Lemma sst_name_inj m n : table_number m → table_number n → sst_name m = sst_name n → m = n.
Proof. intros Hm Hn E%(inj (λ x, x ++ bs ".sst")). by eapply padded_inj. Qed.

Lemma sst_name_named n : table_number n → table_named (sst_name n) n.
Proof.
  intros Hn. unfold table_named, extension, stem. rewrite sst_name_split. cbn [fst snd].
  split; [done|]. by apply stoi_padded.
Qed.

Lemma temp_name_named n : temp_named (temp_name (sst_name n)).
Proof.
  unfold temp_named, extension, stem. rewrite temp_name_split. cbn [fst snd]. by rewrite sst_name_split.
Qed.

Lemma temp_not_table name n : temp_named name → ¬ table_named name n.
Proof. intros [E _] [E' _]. by rewrite E in E'. Qed.

(** A name that reads as a number is the one of the table. *)
Definition proper (name : bytes) : Prop :=
  ∀ n, table_named name n → name = sst_name n ∧ table_number n.

(** What the scan knows of the names it has seen. *)
Record scanned (l : list bytes) (st : Scan) : Prop := {
  sc_map n p : num_to_path st !! n = Some p ↔ p ∈ l ∧ table_named p n;
  sc_max name n : name ∈ l → table_named name n → n ≤ max_num st;
  sc_max_elem : max_num st = 0 ∨ ∃ name, name ∈ l ∧ table_named name (max_num st);
  sc_max_ge : 0 ≤ max_num st;
  sc_removed name : name ∈ removed st ↔ name ∈ l ∧ temp_named name;
}.

Lemma scanned_nil : scanned [] (mkScan ∅ 0 []).
Proof.
  split; cbn [num_to_path max_num removed].
  - intros n p. rewrite lookup_empty, elem_of_nil. naive_solver.
  - intros name n Hn. by apply elem_of_nil in Hn.
  - by left.
  - done.
  - intros name. rewrite !elem_of_nil. naive_solver.
Qed.

(** Names that are neither tables nor temporary files are passed over. *)
Lemma scanned_other l st name :
  scanned l st → (∀ n, ¬ table_named name n) → ¬ temp_named name → scanned (l ++ [name]) st.
Proof.
  intros [Hm Hx He Hg Hr] H1 H2. split; [| | |done|].
  - intros n p. rewrite Hm, elem_of_app, list_elem_of_singleton. split; [intros [? ?]; auto|].
    intros [[?| ->] Hn]; [auto|]. by destruct (H1 n).
  - intros x n. rewrite elem_of_app, list_elem_of_singleton. intros [?| ->] Hn; [eauto|]. by destruct (H1 n).
  - destruct He as [?|(x & ? & ?)]; [by left|]. right. exists x. rewrite elem_of_app. auto.
  - intros x. rewrite Hr, elem_of_app, list_elem_of_singleton. split; [intros [? ?]; auto|].
    intros [[?| ->] ?]; [eauto|done].
Qed.

Lemma scanned_table l st name n :
  scanned l st → table_named name n → Forall proper (l ++ [name]) →
  scanned (l ++ [name]) (mkScan (<[n := name]> (num_to_path st)) (Z.max (max_num st) n) (removed st)).
Proof.
  intros [Hm Hx He Hg Hr] Hn Hp. rewrite Forall_forall in Hp.
  split; cbn [num_to_path max_num removed].
  - intros i p. destruct (decide (i = n)) as [->|Hne].
    + rewrite lookup_insert_eq. split.
      * intros [= <-]. split; [|done]. apply elem_of_app. right. by left.
      * intros [Hin Hi]. destruct (Hp p Hin n Hi) as [-> _].
        destruct (Hp name ltac:(apply elem_of_app; right; by left) n Hn) as [-> _]. done.
    + rewrite lookup_insert_ne by done. rewrite Hm, elem_of_app, list_elem_of_singleton.
      split; [intros [? ?]; auto|].
      intros [[?| ->] Hi]; [auto|]. destruct Hn as [_ Hn], Hi as [_ Hi]. congruence.
  - intros x i. rewrite elem_of_app, list_elem_of_singleton. intros [Hin| ->] Hi.
    + specialize (Hx x i Hin Hi). lia.
    + destruct Hn as [_ Hn], Hi as [_ Hi]. assert (i = n) by congruence. lia.
  - destruct (Z.max_spec (max_num st) n) as [[_ ->]|[_ ->]].
    + right. exists name. split; [|done]. apply elem_of_app. right. by left.
    + destruct He as [?|(x & ? & ?)]; [by left|]. right. exists x. rewrite elem_of_app. auto.
  - lia.
  - intros x. rewrite Hr, elem_of_app, list_elem_of_singleton. split; [intros [? ?]; auto|].
    intros [[Hin| ->] Ht]; [auto|]. by apply (temp_not_table _ n) in Ht.
Qed.

Lemma scanned_temp l st name :
  scanned l st → temp_named name →
  scanned (l ++ [name]) (mkScan (num_to_path st) (max_num st) (removed st ++ [name])).
Proof.
  intros Hs Ht. destruct Hs as [Hm Hx He Hg Hr].
  assert (∀ n, ¬ table_named name n) as Hne by (intros n; by apply temp_not_table).
  split; cbn [num_to_path max_num removed]; [| | |done|].
  - intros n p. rewrite Hm, elem_of_app, list_elem_of_singleton. split; [intros [? ?]; auto|].
    intros [[?| ->] Hn]; [auto|]. by destruct (Hne n).
  - intros x n. rewrite elem_of_app, list_elem_of_singleton. intros [?| ->] Hn; [eauto|]. by destruct (Hne n).
  - destruct He as [?|(x & ? & ?)]; [by left|]. right. exists x. rewrite elem_of_app. auto.
  - intros x. rewrite !elem_of_app, !list_elem_of_singleton, Hr. split.
    + intros [[? ?]| ->]; eauto.
    + intros [[?| ->] ?]; auto.
Qed.

Lemma scan_dir_scanned l : Forall proper l → scanned l (scan_dir l).
Proof.
  unfold scan_dir. induction l as [|name l IH] using rev_ind; intros Hk; [apply scanned_nil|].
  pose proof Hk as [Hl _]%Forall_app. specialize (IH Hl). rewrite fold_left_app. cbn [fold_left].
  unfold scan_entry at 1. case_bool_decide as E.
  - destruct (stoi (stem name)) as [n|] eqn:En; [by apply scanned_table|].
    apply scanned_other; [done| |intros [E' _]; by rewrite E in E']. intros n [_ Hn]. congruence.
  - destruct (bool_decide (extension name = bs ".tmp") && bool_decide (extension (stem name) = bs ".sst")) eqn:Et.
    + apply andb_prop in Et as [E1%bool_decide_eq_true E2%bool_decide_eq_true]. by apply scanned_temp.
    + apply scanned_other; [done|by intros n [E' _]|]. intros [E1 E2].
      by rewrite !bool_decide_eq_true_2 in Et.
Qed.

(** ** The scan of a directory *)

Lemma max_number_spec l m :
  (∀ n, n ∈ l → n ≤ m) → m = 0 ∨ m ∈ l → 0 ≤ m → max_number l = m.
Proof.
  unfold max_number. intros Hle Hm H0.
  assert (∀ a, 0 ≤ a ≤ m → a = m ∨ m ∈ l → fold_left Z.max l a = m) as H; [|apply H; [lia|naive_solver]].
  clear Hm H0. induction l as [|x l IH]; intros a Ha Hm; cbn [fold_left].
  { destruct Hm as [?|Hm]; [done|]. by apply elem_of_nil in Hm. }
  assert (x ≤ m) by (apply Hle; by left). apply IH; [|lia|].
  - intros n Hn. apply Hle. by right.
  - destruct Hm as [->|[->|Hm]%elem_of_cons]; [left; lia|left; lia|by right].
Qed.

Section Scanning.
#[local] Set Default Proof Using "All".
Context (files : gmap bytes File) (d : Disk) (order : list bytes).
Hypotheses (Hd : dir_holds files d) (Hord : order ≡ₚ elements (dom files)).

Lemma order_elem name : name ∈ order ↔ is_Some (files !! name).
Proof. rewrite Hord, elem_of_elements. apply elem_of_dom. Qed.

Lemma order_proper : Forall proper order.
Proof.
  apply Forall_forall. intros name Hn%order_elem n Ht.
  destruct (dh_named _ _ Hd name n Hn Ht) as [? [f Hf]]. split; [done|]. by apply (dh_table _ _ Hd n f).
Qed.

(** The tables by name and by number. *)
Lemma order_table name n :
  name ∈ order ∧ table_named name n ↔ name = sst_name n ∧ is_Some (ssts_on d !! n).
Proof.
  rewrite order_elem. split.
  - intros [Hs Ht]. by apply (dh_named _ _ Hd).
  - intros [-> [f Hf]]. destruct (dh_table _ _ Hd n f Hf) as [Hn E].
    split; [by exists f|by apply sst_name_named].
Qed.

Lemma dir_disk_tables : ssts_on (dir_disk files order) = ssts_on d.
Proof.
  pose proof (scan_dir_scanned order order_proper) as [Hm _ _ _ _].
  apply map_eq. intros n. cbn [dir_disk ssts_on]. rewrite lookup_omap.
  destruct (ssts_on d !! n) as [c|] eqn:Ec.
  - destruct (dh_table _ _ Hd n c Ec) as [Hn Hf].
    assert (num_to_path (scan_dir order) !! n = Some (sst_name n)) as ->; [|done].
    apply Hm, order_table. split; [done|by exists c].
  - destruct (num_to_path (scan_dir order) !! n) as [p|] eqn:Ep; [|done].
    apply Hm, order_table in Ep as [_ [c Hc]]. congruence.
Qed.

Lemma dir_disk_max : max_num (scan_dir order) = max_number (dir_numbers (disk_ssts d)).
Proof.
  pose proof (scan_dir_scanned order order_proper) as [_ Hx He Hg _]. symmetry.
  assert (∀ n, n ∈ dir_numbers (disk_ssts d) ↔ is_Some (ssts_on d !! n)) as Hel.
  { intros n. unfold dir_numbers. rewrite merge_sort_Permutation, elem_of_elements, elem_of_dom.
    apply disk_ssts_is_some. }
  apply max_number_spec; [| |done].
  - intros n Hn%Hel. destruct (proj2 (order_table (sst_name n) n)) as [Hin Ht]; [done|]. by eapply Hx.
  - destruct He as [?|(name & Hin & Ht)]; [by left|]. right. apply Hel. by apply (order_table name).
Qed.

End Scanning.

(** * Properties *)

(** C26. The scan of the directory. Whatever the order in which the system lists
    the names, and whatever other files there are as long as none reads as the
    number of a table, [open] finds the log, the manifest and exactly the tables
    of the disk under their numbers, takes the highest of these, and deletes
    exactly the files with the extension .tmp and a stem with the extension
    .sst, among them what the writer of any table has left. *)
Theorem scan_finds_disk (files : gmap bytes File) (d : Disk) (order : list bytes)
    (Hd : dir_holds files d) (Hord : order ≡ₚ elements (dom files)) :
  dir_disk files order = d ∧
  max_num (scan_dir order) = max_number (dir_numbers (disk_ssts d)) ∧
  (∀ name, name ∈ removed (scan_dir order) ↔ is_Some (files !! name) ∧ temp_named name) ∧
  ∀ n, is_Some (files !! temp_name (sst_name n)) → temp_name (sst_name n) ∈ removed (scan_dir order).
Proof.
  assert (∀ name, name ∈ removed (scan_dir order) ↔ is_Some (files !! name) ∧ temp_named name) as Hrem.
  { intros name. rewrite (sc_removed _ _ (scan_dir_scanned order (order_proper files d order Hd Hord))).
    by rewrite (order_elem files d order Hd Hord). }
  split_and!.
  - pose proof (dir_disk_tables files d order Hd Hord) as Et. destruct d as [w m t]. unfold dir_disk in *.
    cbn [ssts_on] in Et. rewrite Et. f_equal; apply Hd.
  - by apply (dir_disk_max files).
  - done.
  - intros n Hn. apply Hrem. split; [done|apply temp_name_named].
Qed.

(** Numbers are read back from the names. *)
Theorem sst_name_roundtrip (n : Z) (Hn : 0 ≤ n < 2 ^ 31) : stoi (stem (sst_name n)) = Some n.
Proof. unfold stem. rewrite sst_name_split. by apply stoi_padded. Qed.

(** [stoi] stops at the first character that is no digit: a file that starts
    with the number of a table takes its place when it is listed later. *)
Theorem stray_name_hides_table :
  num_to_path (scan_dir [sst_name 7; bs "7.old.sst"; bs "7-copy.sst"]) !! 7 = Some (bs "7-copy.sst").
Proof. reflexivity. Qed.

(** ** Witnesses *)

(** Next to the files of the store a temporary one, a note and a table whose name
    is no number. *)
Definition ex_files : gmap bytes File :=
  {[ wal_name := on_disk (bs "log"); manifest_name := on_disk (bs "m"); sst_name 3 := on_disk (bs "three");
     sst_name 1234567 := on_disk (bs "big"); temp_name (sst_name 4) := on_disk (bs "half");
     bs "notes.txt" := on_disk []; bs "old.sst" := on_disk [] ]}.

Definition ex_files_disk : Disk :=
  mkDisk (Some (on_disk (bs "log"))) (Some (on_disk (bs "m")))
    {[ 3 := on_disk (bs "three"); 1234567 := on_disk (bs "big") ]}.

Lemma ex_files_hold : dir_holds ex_files ex_files_disk.
Proof.
  split.
  - reflexivity.
  - reflexivity.
  - intros n c. cbn [ssts_on ex_files_disk]. rewrite lookup_insert_Some, lookup_singleton_Some.
    intros [[<- <-]|[_ [<- <-]]]; by split; [vm_compute|reflexivity].
  - intros name n. unfold ex_files. rewrite !lookup_insert_is_Some', lookup_singleton_is_Some.
    intros [<-|[<-|[<-|[<-|[<-|[<-|<-]]]]]] [E1 E2]; vm_compute in E1; try done; vm_compute in E2; try done.
    + injection E2 as <-. split; [done|by eexists].
    + injection E2 as <-. split; [done|by eexists].
Qed.

Lemma scan_finds_disk_witness :
  dir_disk ex_files (elements (dom ex_files)) = ex_files_disk ∧
  max_num (scan_dir (elements (dom ex_files))) = 1234567 ∧
  temp_name (sst_name 4) ∈ removed (scan_dir (elements (dom ex_files))).
Proof.
  destruct (scan_finds_disk ex_files ex_files_disk (elements (dom ex_files)) ex_files_hold) as (E & Em & _ & Ht).
  - reflexivity.
  - split; [exact E|]. split; [rewrite Em; vm_compute; reflexivity|]. apply Ht.
    apply (bool_decide_unpack _). vm_compute. exact I.
Defined.

Lemma sst_name_roundtrip_witness : stoi (stem (sst_name 42)) = Some 42.
Proof. apply sst_name_roundtrip. split; [lia|reflexivity]. Defined.
