(* ===== verification/Background.v ===== *)
(** The background compaction of src/src/db.cpp: [DB::compaction_loop] as a
    state machine that shares the database with its clients, and
    [DB::compact], which waits for it.

    The thread holds [mu_] while it picks a job and while it commits, and not
    while it merges; so a worker makes one step at a time, and calls of other
    threads may come between any two steps.  Every step works on the state of
    the database as it finds it. *)

From stdpp Require Import gmultiset.
From S2P Require Import Prelude Coding Wal Entry Manifest Memtable BlockCache SSTableWriter SSTable MergeIterator Version Compaction Levels Db Recovery.
Local Open Scope Z_scope.

(** * Definitions *)

(** ** The merge loop *)

(** The variables of the loop: [outputs], [writer] with [cur_num], [cur_bytes],
    and [prev_key] with [kept_anchor]. *)
Record CompactVars := mkVars {
  v_outputs : list FileMeta;
  v_writer : option (Z * SSTableWriter);
  v_bytes : Z;
  v_keep : bytes * bool;
}.

Section LoopOps.
Context `{Posix}.

Definition finish_writer (level : nat) (x : CompactVars) : dbm CompactVars :=
  match v_writer x with
  | None => mret x
  | Some (num, w) =>
      f ← liftr (finish w);
      dir ← gets db_dir;
      dir' ← liftr (install dir num f);
      _ ← modify (set_dir dir');
      table ← liftr (sst_open num (f_data f));
      mret (mkVars (v_outputs x ++
                      [mkFileMeta num (Z.of_nat level) (smallest_key_ w) (largest_key_ w) table])
              None (v_bytes x) (v_keep x))
  end.

Definition start_writer (x : CompactVars) : dbm CompactVars :=
  match v_writer x with
  | Some _ => mret x
  | None =>
      num ← alloc_sst_number;
      mret (mkVars (v_outputs x) (Some (num, SSTableWriter_new)) 0 (v_keep x))
  end.

(** The body of [if (keep)]. *)
Definition write_kept (level : nat) (x : CompactVars) (e : Entry) : dbm CompactVars :=
  x1 ← start_writer x;
  match v_writer x1 with
  | None => liftr Undefined
  | Some (num, w) =>
      w' ← liftr (writer_add w (e_key e) (e_value e) (e_tombstone e) (e_seq e));
      let bytes := u64 (v_bytes x1 + (17 + blen (e_key e) + blen (e_value e))) in
      let x2 := mkVars (v_outputs x1) (Some (num, w')) bytes (v_keep x1) in
      o ← gets opts_;
      if target_file_size o <=? bytes then finish_writer level x2 else mret x2
  end.

(** The body of [while (iter.valid())], up to [iter.next()]. *)
Definition compact_step (oldest_snap : Z) (job : CompactionJob) (x : CompactVars) (e : Entry)
  : dbm CompactVars :=
  let r := keep_step oldest_snap (is_bottommost job) (v_keep x) e in
  let x1 := mkVars (v_outputs x) (v_writer x) (v_bytes x) r.1 in
  if r.2 then write_kept (output_level job) x1 e else mret x1.

End LoopOps.

(** ** The thread *)

Inductive Worker : Type :=
| Waiting
| Picked (snap_ver : Version) (job : CompactionJob) (oldest_snap : Z)
| Merging (snap_ver : Version) (job : CompactionJob) (oldest_snap : Z)
    (iter : MergeIterator SSTableMergeSource) (x : CompactVars)
| Merged (snap_ver : Version) (job : CompactionJob) (outs : list FileMeta).

(** A round of the merge consumes an entry of an input. *)
Definition merge_fuel (job : CompactionJob) : nat :=
  S (sum_list ((λ fm, Z.to_nat (footer_entry_count (footer_ (fm_table fm)))) <$> inputs job)).

(** The files that are unlinked when their tables are destroyed. *)
Definition dead_numbers (snap_ver : Version) (job : CompactionJob) : list Z :=
  fm_number <$> List.filter (is_input job) (mjoin (files snap_ver)).

Definition unlink (dead : list Z) (dir : gmap Z File) : gmap Z File :=
  filter (λ p, p.1 ∉ dead) dir.

Section WorkerOps.
Context `{Posix} `{PriorityQueue}.

(** From the wake-up to the release of the lock. *)
Definition pick_job : dbm Worker :=
  _ ← modify (λ db, set_compaction false true (force_compact_ db) db);
  snap_ver ← gets current_version_;
  o ← gets opts_;
  force ← gets force_compact_;
  oldest_snap ← gets oldest_live_snapshot;
  let job := pick_compaction o force snap_ver in
  match inputs job with
  | [] =>
      _ ← modify (λ db, set_compaction (compaction_pending_ db) false (force_compact_ db) db);
      mret Waiting
  | _ => mret (Picked snap_ver job oldest_snap)
  end.

Definition open_merge (snap_ver : Version) (job : CompactionJob) (oldest_snap : Z) : dbm Worker :=
  sources ← with_cache (input_sources (inputs job));
  iter ← with_cache (merge_new (merge_fuel job) sources true u64_max true);
  mret (Merging snap_ver job oldest_snap iter (mkVars [] None 0 ([], false))).

Definition merge_round (snap_ver : Version) (job : CompactionJob) (oldest_snap : Z)
    (iter : MergeIterator SSTableMergeSource) (x : CompactVars) : dbm Worker :=
  if mi_valid iter then
    x' ← compact_step oldest_snap job x (mi_current iter);
    iter' ← with_cache (advance (merge_fuel job) iter);
    mret (Merging snap_ver job oldest_snap iter' x')
  else
    x' ← finish_writer (output_level job) x;
    mret (Merged snap_ver job (v_outputs x')).

(** The new version is recorded and installed; the inputs disappear with the
    last reference to their tables: at once when no reader holds them
    (Readers.v has the others). *)
Definition install_version (snap_ver : Version) (job : CompactionJob) (outs : list FileMeta)
  : dbm unit :=
  match outs with
  | [] => mret tt
  | _ =>
      cur ← gets current_version_;
      let new_ver := commit cur job outs in
      _ ← append_manifest (version_to_manifest new_ver);
      _ ← modify (set_version new_ver);
      modify (λ db, set_dir (unlink (dead_numbers snap_ver job) (db_dir db)) db)
  end.

Definition commit_job (snap_ver : Version) (job : CompactionJob) (outs : list FileMeta)
  : dbm Worker :=
  _ ← install_version snap_ver job outs;
  _ ← modify (λ db, set_compaction
        (compaction_pending_ db || needs_compaction (opts_ db) (current_version_ db)) false
        (force_compact_ db) db);
  mret Waiting.

Definition worker_step (w : Worker) : dbm Worker :=
  match w with
  | Waiting => pick_job
  | Picked snap_ver job oldest_snap => open_merge snap_ver job oldest_snap
  | Merging snap_ver job oldest_snap iter x => merge_round snap_ver job oldest_snap iter x
  | Merged snap_ver job outs => commit_job snap_ver job outs
  end.

(** [cv_.wait(lock, [this] { return stop_ || compaction_pending_; })] *)
Definition worker_ready (db : DB) (w : Worker) : bool :=
  match w with Waiting => compaction_pending_ db | _ => true end.

End WorkerOps.

(** ** Waiting for a full compaction *)

(** The condition under which the loop of [compact()] stops. *)
Definition compact_done (v : Version) : bool :=
  let populated := length (List.filter (λ l, negb (bool_decide (files_at v l = [])))
    (seq 1 (kMaxLevels - 1))) in
  (total_file_count v <=? 1) ||
  (bool_decide (files_at v 0 = []) && (populated <=? 1)%nat).

Definition compact_begin : dbm unit :=
  modify (λ db, set_compaction (compaction_pending_ db) (compaction_running_ db) true db).

(** One round of the loop; [true] when it is left.  Otherwise the caller waits
    until the thread is neither asked for nor running. *)
Definition compact_poll : dbm bool :=
  v ← gets current_version_;
  if compact_done v then
    _ ← modify (λ db, set_compaction (compaction_pending_ db) (compaction_running_ db) false db);
    mret true
  else
    _ ← modify (λ db, set_compaction
          (compaction_pending_ db || negb (compaction_running_ db)) (compaction_running_ db)
          (force_compact_ db) db);
    mret false.

(** [return !compaction_pending_ && !compaction_running_] *)
Definition compact_woken (db : DB) : bool :=
  negb (compaction_pending_ db) && negb (compaction_running_ db).

(** ** What a worker has done so far *)

(** File [num] holds [es]. *)
Definition ents_at (ents : Z → list Entry) (num : Z) (es : list Entry) : Z → list Entry :=
  λ i, if i =? num then es else ents i.

(** The numbers the worker has taken. *)
Definition own_numbers (x : CompactVars) : list Z :=
  (fm_number <$> v_outputs x) ++ match v_writer x with Some (num, _) => [num] | None => [] end.

(** The table file of an output is in place. *)
Definition output_built (ents : Z → list Entry) (db : DB) (level : nat) (fm : FileMeta) : Prop :=
  fm_level fm = Z.of_nat level ∧ ∃ bloom, file_built ents fm bloom ∧
    db_dir db !! fm_number fm = Some (table_file (ents (fm_number fm)) bloom).

(** Of the files [total] that will come out, [f.1] are finished and [f.2] is
    in the writer. *)
Record written `{Posix} (ents : Z → list Entry) (db : DB) (level : nat) (total : list (list Entry))
    (f : list (list Entry) * list Entry) (x : CompactVars) : Prop := {
  wr_outputs : (λ fm, ents (fm_number fm)) <$> v_outputs x = f.1;
  wr_built : Forall (output_built ents db level) (v_outputs x);
  wr_writer :
    match v_writer x with
    | None => f.2 = []
    | Some (num, w) =>
        f.2 ≠ [] ∧ add_entries SSTableWriter_new f.2 = Ok w ∧ v_bytes x = file_bytes f.2 ∧
        total !! length f.1 = Some (ents num)
    end;
  wr_numbers : NoDup ((fm_number <$> mjoin (files (current_version_ db))) ++ own_numbers x);
  wr_next : Forall (λ n, n < next_sst_number_ db) (own_numbers x);
}.

(** The files a job writes can be written. *)
Record writable (total : list (list Entry)) : Prop := {
  wt_entries : Forall (Forall sst_entry_ok) total;
  wt_fits : Forall sst_fits total;
  wt_sorted : Forall (StronglySorted ent_le) total;
  wt_separate : Forall (λ es, keys_separate (layout es)) total;
}.

(** * Lemmas *)

(** ** Splitting into files *)

Lemma file_bytes_app a b : file_bytes (a ++ b) = file_bytes a + file_bytes b.
Proof. unfold file_bytes. induction a as [|e a IH]; simpl; [done|]. lia. Qed.

Lemma file_bytes_block es :
  Forall sst_entry_ok es → 0 ≤ file_bytes es ≤ blen (encode_block es).
Proof.
  induction 1 as [|e es He _ IH]; [done|]. rewrite encode_block_cons, blen_entry_rest by done.
  unfold file_bytes in *. cbn [foldr]. pose proof (blen_nonneg (e_key e)).
  pose proof (blen_nonneg (e_value e)). lia.
Qed.

(** The files that come out start with those that are finished and the one
    that is being written. *)
Lemma split_prefix target es f :
  let total := close_layout (fold_left (split_add target) es f) in
  f.1 `prefix_of` total ∧ (f.2 ≠ [] → ∃ t, total !! length f.1 = Some (f.2 ++ t)).
Proof.
  revert f. induction es as [|e es IH]; intros f; cbn [fold_left].
  - unfold close_layout. case_bool_decide as E; [by split|]. split; [by exists [f.2]|]. intros _.
    exists []. by rewrite list_lookup_middle, app_nil_r.
  - destruct (IH (split_add target f e)) as [Hp Ht]. unfold split_add in *.
    destruct (target <=? file_bytes (f.2 ++ [e])); cbn [fst snd] in *.
    + split; [by eapply prefix_app_l|]. intros _. exists [e].
      eapply prefix_lookup_Some; [|exact Hp]. by rewrite list_lookup_middle.
    + split; [done|]. intros _. destruct Ht as [t Ht]; [by destruct f.2|].
      exists ([e] ++ t). by rewrite (assoc_L (++)).
Qed.

(** The file that takes one more entry. *)
Lemma split_add_file target es f e :
  let total := close_layout (fold_left (split_add target) es (split_add target f e)) in
  ∃ t, total !! length f.1 = Some ((f.2 ++ [e]) ++ t) ∧
    ((split_add target f e).2 = [] → t = []).
Proof.
  destruct (split_prefix target es (split_add target f e)) as [Hp Ht]. unfold split_add in *.
  destruct (target <=? file_bytes (f.2 ++ [e])); cbn [fst snd] in *.
  - exists []. split; [|done]. rewrite app_nil_r. eapply prefix_lookup_Some; [|exact Hp].
    by rewrite list_lookup_middle.
  - destruct Ht as [t Ht]; [by destruct f.2|]. exists t. split; [done|]. by destruct f.2.
Qed.

Lemma add_entries_snoc `{Posix} w es e :
  add_entries w (es ++ [e]) =
    w' ← add_entries w es; writer_add w' (e_key e) (e_value e) (e_tombstone e) (e_seq e).
Proof.
  revert w. induction es as [|x es IH]; intros w; simpl.
  - by destruct (writer_add w _ _ _ _).
  - destruct (writer_add w _ _ _ _); simpl; [apply IH|done|done].
Qed.

(** ** Steps that change the counters and the directory *)

Lemma ents_at_same ents num es : ents_at ents num es num = es.
Proof. unfold ents_at. by rewrite Z.eqb_refl. Qed.

Lemma ents_at_other ents num es i : i ≠ num → ents_at ents num es i = ents i.
Proof. intros Hi. unfold ents_at. by rewrite (proj2 (Z.eqb_neq _ _)) by lia. Qed.

Lemma grows_refl `{PosixOk} ents mes db db' :
  db_rep ents mes db → next_sst_number_ db' = next_sst_number_ db → next_seq_ db' = next_seq_ db →
  opts_ db' = opts_ db → current_version_ db' = current_version_ db →
  live_snapshots_ db' = live_snapshots_ db → grows ents db ents db'.
Proof.
  intros Hdb E1 E2 E3 E4 E5. destruct (evolves_refl ents mes db Hdb) as [[? ? ? ? ? ?] _].
  split; rewrite ?E1, ?E2, ?E3, ?E4, ?E5; done.
Qed.

Lemma grows_trans ents1 db1 ents2 db2 ents3 db3 :
  grows ents1 db1 ents2 db2 → grows ents2 db2 ents3 db3 → grows ents1 db1 ents3 db3.
Proof.
  intros [A1 A2 A3 A4 (n1 & A5 & A5') A6] [B1 B2 B3 B4 (n2 & B5 & B5') B6]. split; try lia.
  - intros i Hi. rewrite B1, A1 by lia. done.
  - congruence.
  - exists (n1 ++ n2). split.
    + rewrite B5. unfold files_at at 1. rewrite A5. cbn [nth drop]. by rewrite drop_0, (assoc_L (++)).
    + apply Forall_app. split; [done|]. eapply Forall_impl; [exact B5'|]. simpl. lia.
  - intros s Hs. destruct (B6 s Hs) as [Hs'|?]; [|right; lia]. destruct (A6 s Hs'); [by left|right; lia].
Qed.

(** The next number is taken for a file that will hold [es]. *)
Lemma alloc_refines `{PosixOk} ents mes db sp es :
  refines ents mes db sp → sst_fits es → next_sst_number_ db + 1 < 2 ^ 31 →
  let ents' := ents_at ents (next_sst_number_ db) es in
  let db' := set_next_sst (next_sst_number_ db + 1) db in
  refines ents' mes db' sp ∧ grows ents db ents' db' ∧
  (∀ j, durable j ents mes db → durable j ents' mes db').
Proof.
  intros Href Hfit Hint ents' db'. pose proof (rf_rep _ _ _ _ Href) as Hdb.
  set (num := next_sst_number_ db) in *.
  assert (agrees num ents ents') as Hag.
  { split; [intros i; unfold ents', ents_at; case_match; [done|apply Hdb]|].
    intros i Hi. apply ents_at_other. lia. }
  pose proof (rep_numbers _ _ _ Hdb) as Hnums. fold num in Hnums.
  pose proof (version_layers_agrees num ents ents' _ Hag Hnums) as El.
  assert (version_layers ents' (current_version_ db') = version_layers ents (current_version_ db)) as El'
    by exact El.
  assert (db_layers ents' mes db' = db_layers ents mes db) as Ed by (unfold db_layers, db'; by rewrite <- El).
  split_and!.
  - split; unfold db_entries; rewrite ?Ed; try apply Href. split; try apply Hdb; try done.
    + cbn [next_sst_number_ set_next_sst db']. intros ents'' Ha. apply (rep_files _ _ _ Hdb).
      split; [apply Ha|]. intros i Hi. rewrite (proj2 Ha) by lia. by apply Hag.
    + apply Hag.
    + pose proof (rep_entries _ _ _ Hdb) as He. rewrite Forall_forall in He, Hnums |- *.
      intros fm Hfm. rewrite (proj2 Hag) by auto. auto.
    + eapply Forall_impl; [exact Hnums|]. simpl. fold num. lia.
    + rewrite Ed. apply Hdb.
  - destruct (evolves_refl ents mes db Hdb) as [[? ? ? ? ? ?] _].
    split; try done; cbn [next_sst_number_ set_next_sst db']; [apply Hag|fold num; lia].
  - intros j [? ? ? ? ? ? Hf Hd]. split; rewrite ?El'; try done.
    + rewrite Forall_forall in Hf, Hnums |- *. intros fm Hfm. destruct (Hf fm Hfm) as (bl & Hb & E).
      exists bl. split; [apply (file_built_agrees num ents); auto|]. rewrite (proj2 Hag) by auto. done.
    + cbn [next_sst_number_ set_next_sst db']. intros n Hn%Hd. lia.
Qed.

(** A table file that no version refers to appears or changes. *)
Lemma set_dir_refines `{PosixOk} ents mes db sp num f :
  refines ents mes db sp → num < next_sst_number_ db →
  num ∉ fm_number <$> mjoin (files (current_version_ db)) →
  let db' := set_dir (<[num := f]> (db_dir db)) db in
  refines ents mes db' sp ∧ grows ents db ents db' ∧ (∀ j, durable j ents mes db → durable j ents mes db').
Proof.
  intros Href Hlt Hnin db'. pose proof (rf_rep _ _ _ _ Href) as Hdb. split_and!.
  - destruct Href as [[] ? ? ?]. by split.
  - by eapply grows_refl.
  - intros j [? ? ? ? ? ? Hf Hd]. split; try done; cbn [db_dir set_dir db' current_version_ next_sst_number_].
    + rewrite Forall_forall in Hf |- *. intros fm Hfm. destruct (Hf fm Hfm) as (bl & Hb & E).
      exists bl. split; [done|]. rewrite lookup_insert_ne; [done|]. intros ->. apply Hnin.
      by apply list_elem_of_fmap_2.
    + intros n. rewrite lookup_insert_is_Some'. intros [<-|Hn]; [done|by apply Hd].
Qed.

(** ** One round of the merge loop *)

Section RoundLemmas.
#[local] Set Default Proof Using "All".
Context `{PosixOk} (level : nat) (total : list (list Entry)) (Htotal : writable total).

(** What a step of the worker may do to the rest of the database. *)
Definition invisible (mes : list Entry) (sp : Spec) (ents : Z → list Entry) (db : DB)
    (ents' : Z → list Entry) (db' : DB) : Prop :=
  refines ents' mes db' sp ∧ grows ents db ents' db' ∧
  (∀ j, durable j ents mes db → durable j ents' mes db').

Lemma invisible_refl mes sp ents db : refines ents mes db sp → invisible mes sp ents db ents db.
Proof using H H0.
  intros Href. split_and!; [done| |done]. by eapply grows_refl; [apply Href|..].
Qed.

Lemma invisible_trans mes sp ents1 db1 ents2 db2 ents3 db3 :
  invisible mes sp ents1 db1 ents2 db2 → invisible mes sp ents2 db2 ents3 db3 →
  invisible mes sp ents1 db1 ents3 db3.
Proof using Type.
  intros (_ & G1 & D1) (R2 & G2 & D2). split_and!; [done|by eapply grows_trans|auto].
Qed.

Lemma total_file i es :
  total !! i = Some es →
  Forall sst_entry_ok es ∧ sst_fits es ∧ sorted_entries es ∧ keys_separate (layout es).
Proof using Htotal.
  intros Hi. destruct Htotal as [H1 H2 H3 H4].
  split_and!; [exact (Forall_lookup_1 _ _ _ _ H1 Hi)|exact (Forall_lookup_1 _ _ _ _ H2 Hi)
    |exact (Forall_lookup_1 _ _ _ _ H3 Hi)|exact (Forall_lookup_1 _ _ _ _ H4 Hi)].
Qed.

Lemma output_built_insert ents db fm num f :
  fm_number fm ≠ num → output_built ents db level fm →
  output_built ents (set_dir (<[num := f]> (db_dir db)) db) level fm.
Proof using Type.
  intros Hne (Hl & bloom & Hb & Hd). split; [done|]. exists bloom. split; [done|].
  cbn [db_dir set_dir]. by rewrite lookup_insert_ne.
Qed.

(** The file in the writer is complete: it becomes an output. *)
Lemma finish_writer_ok ents mes db sp f x :
  refines ents mes db sp → written ents db level total f x →
  (f.2 ≠ [] → total !! length f.1 = Some f.2) →
  ∃ db' x', finish_writer level x db = (db', Ok x') ∧ invisible mes sp ents db ents db' ∧
    written ents db' level total (close_layout f, []) x' ∧ v_keep x' = v_keep x ∧ v_writer x' = None.
Proof.
  intros Href [Hout Hbuilt Hw Hnums Hnext] Hlast. unfold finish_writer.
  destruct (v_writer x) as [[num w]|] eqn:Ew.
  2:{ exists db, x. split_and!; [done|by apply invisible_refl| |done|done].
      unfold close_layout. rewrite Hw, bool_decide_eq_true_2 by done.
      split; cbn [fst snd]; try done. by rewrite Ew. }
  destruct Hw as (Hne & Ha & _ & Htot). specialize (Hlast Hne). rewrite Hlast in Htot. injection Htot as Hents.
  destruct (total_file _ _ Hlast) as (Hok & Hfit & Hsort & Hsep).
  destruct (finish_image f.2 Hok Hfit) as (bloom & _ & Hwf & Hbits & Hin & Hf).
  destruct (add_entries_ok f.2 Hok Hfit) as (w' & Ha' & Hsk & Hlk). assert (w' = w) as -> by congruence.
  rewrite Ha in Hf. cbn [mbind result_bind] in Hf.
  assert (num < next_sst_number_ db ∧ (num ∉ fm_number <$> mjoin (files (current_version_ db))) ∧
    num ∉ fm_number <$> v_outputs x) as (Hlt & Hnin & Hnout).
  { unfold own_numbers in Hnums, Hnext. rewrite Ew in Hnums, Hnext.
    apply Forall_app in Hnext as [_ Hnext]. apply Forall_cons in Hnext as [? _].
    apply NoDup_app in Hnums as (_ & Hd & (_ & Hd2 & _)%NoDup_app). split_and!; [done| |].
    - intros Hc. apply (Hd num Hc), elem_of_app. right. by left.
    - intros Hc. apply (Hd2 num Hc). by left. }
  set (fm := mkFileMeta num (Z.of_nat level) (block_key f.2) (last_key f.2) (table_of num f.2 bloom)).
  eexists (set_dir (<[num := table_file f.2 bloom]> (db_dir db)) db), (mkVars (v_outputs x ++ [fm]) None _ _).
  split_and!.
  - erewrite dbm_bind_ok by (unfold liftr; rewrite Hf; reflexivity).
    erewrite dbm_bind_ok by reflexivity.
    erewrite dbm_bind_ok by (unfold liftr, install; rewrite sys_rename_ok; reflexivity).
    erewrite dbm_bind_ok by reflexivity.
    erewrite dbm_bind_ok by (unfold liftr; cbn [f_data]; rewrite sst_open_image by done; reflexivity).
    rewrite Hsk, Hlk. reflexivity.
  - by apply set_dir_refines.
  - unfold close_layout. rewrite bool_decide_eq_false_2 by done.
    split; cbn [v_outputs v_writer fst snd current_version_ next_sst_number_ set_dir]; try done.
    + rewrite fmap_app, Hout. cbn. by rewrite Hents.
    + apply Forall_app. split.
      * rewrite Forall_forall in Hbuilt |- *. intros y Hy. apply output_built_insert; [|auto].
        intros E. apply Hnout. rewrite <- E. by apply list_elem_of_fmap_2.
      * constructor; [|constructor]. split; [done|]. exists bloom. cbn [fm_number fm db_dir set_dir].
        rewrite lookup_insert_eq, Hents. split; [|done].
        split; cbn [fm_number fm]; rewrite <- Hents; done.
    + unfold own_numbers in *. rewrite Ew in Hnums. cbn [v_outputs v_writer].
      by rewrite fmap_app, app_nil_r.
    + unfold own_numbers in *. rewrite Ew in Hnext. cbn [v_outputs v_writer].
      by rewrite fmap_app, app_nil_r.
  - done.
  - done.
Qed.

Lemma output_built_agrees n ents ents' db db' fm :
  agrees n ents ents' → fm_number fm < n → db_dir db' !! fm_number fm = db_dir db !! fm_number fm →
  output_built ents db level fm → output_built ents' db' level fm.
Proof using Type.
  intros Hag Hn Ed (Hl & bloom & Hb & Hd). split; [done|]. exists bloom.
  split; [by apply (file_built_agrees n ents)|]. by rewrite Ed, (proj2 Hag).
Qed.

(** A fresh number for the file that starts with the next entry. *)
Lemma start_writer_ok ents mes db sp f x es :
  refines ents mes db sp → written ents db level total f x → total !! length f.1 = Some es →
  next_sst_number_ db + 1 < 2 ^ 31 →
  ∃ db' ents' x' num w, start_writer x db = (db', Ok x') ∧ invisible mes sp ents db ents' db' ∧
    v_writer x' = Some (num, w) ∧ add_entries SSTableWriter_new f.2 = Ok w ∧
    v_bytes x' = file_bytes f.2 ∧ ents' num = es ∧ v_keep x' = v_keep x ∧
    ((λ fm, ents' (fm_number fm)) <$> v_outputs x') = f.1 ∧
    Forall (output_built ents' db' level) (v_outputs x') ∧
    NoDup ((fm_number <$> mjoin (files (current_version_ db'))) ++ own_numbers x') ∧
    Forall (λ n, n < next_sst_number_ db') (own_numbers x') ∧ opts_ db' = opts_ db.
Proof.
  intros Href [Hout Hbuilt Hw Hnums Hnext] Hes Hint. pose proof (rf_rep _ _ _ _ Href) as Hdb.
  unfold start_writer. destruct (v_writer x) as [[num w]|] eqn:Ew.
  { destruct Hw as (Hne & Ha & Hb & Htot). rewrite Hes in Htot. injection Htot as ->.
    exists db, ents, x, num, w. split_and!; try done. by apply invisible_refl. }
  set (num := next_sst_number_ db). destruct (total_file _ _ Hes) as (_ & Hfit & _).
  destruct (alloc_refines ents mes db sp es Href Hfit Hint) as (Href' & Hgr & Hdu). fold num in Href', Hgr, Hdu.
  unfold own_numbers in Hnums, Hnext. rewrite Ew, app_nil_r in Hnums, Hnext.
  assert (agrees num ents (ents_at ents num es)) as Hag
    by (split; [apply (rf_rep _ _ _ _ Href')|]; intros i Hi; apply ents_at_other; lia).
  assert (∀ fm, fm ∈ v_outputs x → fm_number fm < num) as Hlt.
  { rewrite Forall_fmap, Forall_forall in Hnext. exact Hnext. }
  exists (set_next_sst (num + 1) db), (ents_at ents num es),
    (mkVars (v_outputs x) (Some (num, SSTableWriter_new)) 0 (v_keep x)), num, SSTableWriter_new.
  split_and!; try done; rewrite ?Hw, ?ents_at_same; try done.
  - unfold alloc_sst_number. erewrite dbm_bind_ok; [reflexivity|].
    fold num. by rewrite (proj2 (Z.ltb_lt _ _)) by lia.
  - cbn [v_outputs]. rewrite <- Hout. apply list_fmap_ext. intros i fm Hfm. apply Hag, Hlt.
    by eapply list_elem_of_lookup_2.
  - cbn [v_outputs]. rewrite Forall_forall in Hbuilt |- *. intros fm Hfm.
    by apply (output_built_agrees num ents (ents_at ents num es) db); auto.
  - unfold own_numbers. cbn [v_outputs v_writer current_version_ set_next_sst].
    rewrite (assoc_L (++)). apply NoDup_app. split_and!; [done| |apply NoDup_singleton].
    intros n Hn ->%list_elem_of_singleton. pose proof (rep_numbers _ _ _ Hdb) as Hv.
    rewrite Forall_forall in Hv. apply elem_of_app in Hn as [(fm & E & Hfm)%list_elem_of_fmap
      |(fm & E & Hfm)%list_elem_of_fmap]; [specialize (Hv fm Hfm)|specialize (Hlt fm Hfm)]; lia.
  - unfold own_numbers. cbn [v_outputs v_writer next_sst_number_ set_next_sst]. apply Forall_app.
    split; [eapply Forall_impl; [exact Hnext|simpl; fold num; lia]|]. constructor; [lia|constructor].
Qed.

Lemma write_kept_ok ents mes db sp f x e rest :
  refines ents mes db sp → written ents db level total f x → next_sst_number_ db + 1 < 2 ^ 31 →
  let f' := split_add (target_file_size (opts_ db)) f e in
  total = close_layout (fold_left (split_add (target_file_size (opts_ db))) rest f') →
  ∃ db' ents' x', write_kept level x e db = (db', Ok x') ∧ invisible mes sp ents db ents' db' ∧
    written ents' db' level total f' x' ∧ v_keep x' = v_keep x.
Proof.
  intros Href Hwr Hint f' Etot. set (target := target_file_size (opts_ db)) in *.
  destruct (split_add_file target rest f e) as (t & Hes & Hlast). fold f' in Hes, Hlast. rewrite <- Etot in Hes.
  destruct (start_writer_ok ents mes db sp f x _ Href Hwr Hes Hint)
    as (db1 & ents1 & x1 & num & w & E1 & Hinv & Ew & Ha & Hb & Hents & Hk & Hout & Hbuilt & Hnums & Hnext & Eo).
  destruct (total_file _ _ Hes) as (Hok & Hfit & _). apply Forall_app in Hok as [Hok _].
  apply sst_fits_app in Hfit as [Hfit _].
  destruct (add_entries_ok _ Hok Hfit) as (w' & Ha' & _). pose proof Ha' as Ha2.
  rewrite add_entries_snoc, Ha in Ha2. cbn [mbind result_bind] in Ha2.
  assert (u64 (v_bytes x1 + (17 + blen (e_key e) + blen (e_value e))) = file_bytes (f.2 ++ [e])) as Eb.
  { pose proof (file_bytes_block _ Hok) as Hfb. unfold sst_fits in Hfit.
    assert (file_bytes [e] = 17 + blen (e_key e) + blen (e_value e)) as E
      by (unfold file_bytes; cbn [foldr]; lia).
    rewrite Hb. rewrite file_bytes_app, E in Hfb |- *. rewrite u64_small; lia. }
  unfold write_kept. erewrite dbm_bind_ok by exact E1. rewrite Ew.
  erewrite dbm_bind_ok by (unfold liftr; rewrite Ha2; reflexivity). erewrite dbm_bind_ok by reflexivity.
  rewrite Eb, Eo. fold target.
  set (x2 := mkVars (v_outputs x1) (Some (num, w')) (file_bytes (f.2 ++ [e])) (v_keep x1)).
  assert (own_numbers x2 = own_numbers x1) as En by (unfold own_numbers; by rewrite Ew).
  assert (written ents1 db1 level total (f.1, f.2 ++ [e]) x2) as Hwr2.
  { split; cbn [fst snd]; rewrite ?En; try done. cbn [v_writer x2]. split_and!; [by destruct f.2|done|done|].
    by rewrite Hes, Hents. }
  unfold f', split_add in *. destruct (target <=? file_bytes (f.2 ++ [e])); cbn [fst snd] in *.
  - rewrite (Hlast eq_refl), app_nil_r in Hes.
    destruct (finish_writer_ok ents1 mes db1 sp (f.1, f.2 ++ [e]) x2 (proj1 Hinv) Hwr2)
      as (db' & x' & E' & Hinv' & Hwr' & Hk' & _); [done|].
    exists db', ents1, x'. split_and!; [done|by eapply invisible_trans| |by rewrite Hk'].
    unfold close_layout in Hwr'. cbn [fst snd] in Hwr'.
    by rewrite bool_decide_eq_false_2 in Hwr' by (by destruct f.2).
  - by exists db1, ents1, x2.
Qed.

Lemma compact_step_ok oldest job ents mes db sp done e rest x :
  level = output_level job → refines ents mes db sp → next_sst_number_ db + 1 < 2 ^ 31 →
  let target := target_file_size (opts_ db) in
  let keep := kept oldest (is_bottommost job) in
  let after := keep_after oldest (is_bottommost job) ([], false) in
  let file := fold_left (split_add target) in
  total = split_files target (keep ([], false) (done ++ e :: rest)) →
  written ents db level total (file (keep ([], false) done) ([], [])) x → v_keep x = after done →
  ∃ db' ents' x', compact_step oldest job x e db = (db', Ok x') ∧ invisible mes sp ents db ents' db' ∧
    written ents' db' level total (file (keep ([], false) (done ++ [e])) ([], [])) x' ∧
    v_keep x' = after (done ++ [e]).
Proof.
  intros Hlev Href Hint target keep after file Etot Hwr Hk. unfold compact_step. rewrite Hk.
  set (r := keep_step oldest (is_bottommost job) (after done) e).
  assert (after (done ++ [e]) = r.1) as Eafter by (unfold after, keep_after; by rewrite fold_left_app).
  assert (keep ([], false) (done ++ [e]) = keep ([], false) done ++ (if r.2 then [e] else [])) as Ekeep.
  { unfold keep. rewrite kept_app. f_equal. cbn [kept]. fold (after done). fold r. by rewrite app_nil_r. }
  rewrite Eafter, Ekeep. set (x1 := mkVars (v_outputs x) (v_writer x) (v_bytes x) r.1).
  assert (written ents db level total (file (keep ([], false) done) ([], [])) x1) as Hwr1 by (by destruct Hwr).
  unfold split_files, keep in Etot. rewrite kept_app in Etot. cbn [kept] in Etot. fold keep in Etot.
  fold (after done) in Etot. fold r in Etot. rewrite !fold_left_app in Etot. rewrite <- Hlev.
  unfold file. rewrite fold_left_app. destruct r.2; cbn [fold_left] in *.
  - by apply (write_kept_ok ents mes db sp _ x1 e (keep r.1 rest)).
  - exists db, ents, x1. split_and!; [done|by apply invisible_refl|done|done].
Qed.

End RoundLemmas.
