(* ===== verification/Worker.v ===== *)
(** The compaction thread beside its clients: an invariant of the worker of
    Background.v, that every step of the worker is invisible to readers, and
    that calls of clients between its steps keep the invariant. *)

From stdpp Require Import gmultiset.
From S2P Require Import Prelude Coding Wal Entry Manifest Memtable BlockCache SSTableWriter SSTable MergeIterator Version Compaction Levels Db Recovery Background.
Local Open Scope Z_scope.

(** * Definitions *)

#[export] Instance ent_le_dec : RelDecision ent_le.
Proof.
  intros a b. destruct (cmp_after a b) eqn:E; [right|left].
  - intros Hle%cmp_after_false. congruence.
  - by apply cmp_after_false.
Defined.

#[export] Instance ent_le_total_inst : Total ent_le := ent_le_total.

(** ** The conditions of use *)

(** The entries of a table, read from its file. *)
Fixpoint source_entries `{Posix} (fuel : nat) (src : SSTableMergeSource) : cached (list Entry) :=
  match fuel with
  | O => mret []
  | S fuel' =>
      if src_valid src then
        src' ← src_next src;
        rest ← source_entries fuel' src';
        mret (src_entry src :: rest)
      else mret []
  end.

Definition table_entries `{Posix} (fm : FileMeta) : list Entry :=
  match (src ← sstable_source (fm_table fm);
         source_entries (Z.to_nat (footer_entry_count (footer_ (fm_table fm)))) src) None with
  | (_, Ok es) => es
  | _ => []
  end.

Definition job_entries `{Posix} (job : CompactionJob) : list Entry :=
  mjoin (table_entries <$> inputs job).

(** The files a job will write. *)
Definition job_files `{Posix} (o : Options) (oldest : Z) (job : CompactionJob) : list (list Entry) :=
  split_files (target_file_size o)
    (kept oldest (is_bottommost job) ([], false) (merge_sort ent_le (job_entries job))).

(** No key has versions in two files. *)
Definition files_separate (total : list (list Entry)) : Prop :=
  StronglySorted (λ a b, key_lt (last_key a) (block_key b)) total.

(** A job that cannot meet the known defects: it is not the rewrite of a
    single file to level 0, no file of level 0 starts with the empty key, and
    the versions of a key stay together in the outputs. *)
Definition job_safe `{Posix} (o : Options) (oldest : Z) (v : Version) (job : CompactionJob) : Prop :=
  (1 ≤ output_level job)%nat ∧ Forall (λ fm, smallest_key fm ≠ []) (files_at v 0) ∧
  sst_fits (job_entries job) ∧
  Forall (λ es, keys_separate (layout es)) (job_files o oldest job) ∧
  files_separate (job_files o oldest job).

Definition worker_safe `{Posix} (db : DB) (w : Worker) : Prop :=
  match w with
  | Waiting =>
      let job := pick_compaction (opts_ db) (force_compact_ db) (current_version_ db) in
      inputs job ≠ [] → job_safe (opts_ db) (oldest_live_snapshot db) (current_version_ db) job
  | Merging _ _ _ _ _ => next_sst_number_ db + 1 < 2 ^ 31
  | _ => True
  end.

(** ** The invariant *)

(** The job of a worker, between the version it was picked from and the
    current one: [l] is the merge of its inputs and [total] what it writes. *)
Record job_ok (ents : Z → list Entry) (db : DB) (snap : Version) (job : CompactionJob) (oldest : Z)
    (l : list Entry) (total : list (list Entry)) : Prop := {
  jo_closed : job_closed snap job;
  jo_len : length (files snap) = kMaxLevels;
  jo_extends : ∃ news, extends snap news (current_version_ db);
  jo_sorted : sorted_entries l;
  jo_perm : l ≡ₚ file_entries ents (inputs job);
  jo_live s : s ∈ live_snapshots_ db → reads_above oldest s (file_entries ents (inputs job));
  jo_total : total = split_files (target_file_size (opts_ db))
    (kept oldest (is_bottommost job) ([], false) l);
  jo_writable : writable total;
  jo_separate : files_separate total;
}.

(** The iterator stands at the first of [rest]. *)
Definition iter_shows `{Posix} `{PriorityQueue} (content : CacheKey → bytes)
    (it : MergeIterator SSTableMergeSource) (rest : list Entry) : Prop :=
  yield_all_versions_ it = true ∧ sorted_entries rest ∧
  match rest with
  | [] => mi_valid it = false
  | e :: rest' => mi_valid it = true ∧ mi_current it = e ∧ pops content (heap_ it) rest'
  end.

(** The merge of a job: [done] has been looked at and [rest] is to come. *)
Record merging `{Posix} `{PriorityQueue} (ents : Z → list Entry) (db : DB) (snap : Version)
    (job : CompactionJob) (oldest : Z) (l : list Entry) (total : list (list Entry))
    (it : MergeIterator SSTableMergeSource) (x : CompactVars) (done rest : list Entry) : Prop := {
  mg_job : job_ok ents db snap job oldest l total;
  mg_entries : l = done ++ rest;
  mg_iter ents' : agrees (next_sst_number_ db) ents ents' → iter_shows (content_of ents') it rest;
  mg_written : written ents db (output_level job) total
    (fold_left (split_add (target_file_size (opts_ db)))
      (kept oldest (is_bottommost job) ([], false) done) ([], [])) x;
  mg_keep : v_keep x = keep_after oldest (is_bottommost job) ([], false) done;
}.

Inductive worker_ok `{Posix} `{PriorityQueue} (ents : Z → list Entry) (db : DB) : Worker → Prop :=
| ok_waiting : worker_ok ents db Waiting
| ok_picked snap job oldest l total :
    job_ok ents db snap job oldest l total → worker_ok ents db (Picked snap job oldest)
| ok_merging snap job oldest l total it x done rest :
    merging ents db snap job oldest l total it x done rest →
    worker_ok ents db (Merging snap job oldest it x)
| ok_merged snap job oldest l total x :
    job_ok ents db snap job oldest l total →
    written ents db (output_level job) total (total, []) x →
    worker_ok ents db (Merged snap job (v_outputs x)).

(** * Lemmas *)

(** ** Reading tables *)

Lemma runs_det {A} content content' (m : cached A) r r' :
  runs content m r → runs content' m r' → r = r'.
Proof. intros Hr Hr'. destruct (Hr None I) as [<- _]. by destruct (Hr' None I) as [<- _]. Qed.

Lemma source_entries_yields `{Posix} content src es fuel :
  yields content src es → (length es ≤ fuel)%nat → runs content (source_entries fuel src) (Ok es).
Proof.
  revert src fuel. induction es as [|e es IH]; intros src fuel Hy Hf.
  - destruct fuel; cbn [source_entries]; [apply runs_ret|]. rewrite Hy. apply runs_ret.
  - destruct fuel as [|fuel]; simpl in Hf; [lia|]. destruct Hy as (Hv & He & src' & Hn & Hy).
    cbn [source_entries]. rewrite Hv. eapply runs_bind; [exact Hn|].
    eapply runs_bind; [apply IH; [exact Hy|lia]|]. rewrite He. apply runs_ret.
Qed.

Lemma table_entries_holds `{Posix} content fm es :
  table_holds content (fm_table fm) es → table_entries fm = es.
Proof.
  intros Hh. destruct (th_source _ _ _ Hh) as (src & Hr & Hy). unfold table_entries.
  assert (runs content (src ← sstable_source (fm_table fm);
    source_entries (Z.to_nat (footer_entry_count (footer_ (fm_table fm)))) src) (Ok es)) as Hall.
  { eapply runs_bind; [exact Hr|]. apply source_entries_yields; [done|].
    by rewrite (th_count _ _ _ Hh), Nat2Z.id. }
  destruct (Hall None I) as [E _]. revert E. generalize ((src ← sstable_source (fm_table fm);
    source_entries (Z.to_nat (footer_entry_count (footer_ (fm_table fm)))) src) None).
  intros [c r] E. simpl in E. by subst r.
Qed.

Lemma job_entries_holds `{Posix} content ents job :
  Forall (file_ok content ents) (inputs job) → job_entries job = file_entries ents (inputs job).
Proof.
  unfold job_entries. induction 1 as [|fm fms [Hh _] _ IH]; [done|].
  rewrite fmap_cons, mjoin_cons, file_entries_cons, IH. f_equal. by eapply table_entries_holds.
Qed.

Lemma sorted_unique l l' :
  versions_unique l → sorted_entries l → sorted_entries l' → l ≡ₚ l' → l = l'.
Proof.
  intros Hu Hs Hs' Hp. apply (StronglySorted_unique_strong ent_le); [|done..].
  intros a b Ha Hb Hab Hba. rewrite <- Hp in Hb. apply Hu; [done|done|..];
    apply ent_le_cases in Hab as [Hab|[Hk1 Hs1]], Hba as [Hba|[Hk2 Hs2]]; try done; try lia.
  all: exfalso; try (rewrite ?Hk1, ?Hk2 in *; by eapply key_lt_irrefl).
  all: apply (key_lt_irrefl (e_key a)); by eapply key_lt_trans.
Qed.

(** ** Calls of clients between two steps *)

Section WorkerLemmas.
#[local] Set Default Proof Using "All".
Context `{PosixOk} `{PriorityQueueOk}.

Lemma grows_agrees ents db ents' db' ents'' :
  grows ents db ents' db' → agrees (next_sst_number_ db') ents' ents'' →
  agrees (next_sst_number_ db) ents ents''.
Proof using Type.
  intros Hg [Hfit Ha]. split; [done|]. intros i Hi. pose proof (ev_next _ _ _ _ Hg).
  rewrite Ha by lia. by apply (ev_ents _ _ _ _ Hg).
Qed.

Lemma input_current ents db snap job oldest l total a :
  job_ok ents db snap job oldest l total → a ∈ inputs job → a ∈ mjoin (files (current_version_ db)).
Proof using Type.
  intros Hj Ha. destruct (jo_extends _ _ _ _ _ _ _ Hj) as [news Hext].
  eapply snap_elem; [exact Hext|apply Hj|]. by apply (jc_inputs _ _ (jo_closed _ _ _ _ _ _ _ Hj)).
Qed.

(** The files hold versions that have been numbered. *)
Lemma file_seqs ents mes db fms :
  db_rep ents mes db → (∀ a, a ∈ fms → a ∈ mjoin (files (current_version_ db))) →
  Forall (λ e, e_seq e < next_seq_ db) (file_entries ents fms).
Proof.
  intros Hdb Hin. apply Forall_forall. intros e (a & Ha & He)%file_entries_elem.
  pose proof (lo_seqs _ _ (rep_layers _ _ _ Hdb)) as Hs. rewrite Forall_forall in Hs. apply Hs.
  unfold db_layers. rewrite mjoin_cons. apply elem_of_app. right.
  destruct (rep_files _ _ _ Hdb ents (rep_agrees _ _ _ _ Hdb)) as [Hv _].
  apply (version_entries_elem (content_of ents)); [done|]. exists a. split; [|done]. by apply Hin.
Qed.

Lemma input_seqs ents mes db snap job oldest l total :
  db_rep ents mes db → job_ok ents db snap job oldest l total →
  Forall (λ e, e_seq e < next_seq_ db) (file_entries ents (inputs job)).
Proof. intros Hdb Hj. eapply file_seqs; [done|]. intros a Ha. by eapply input_current. Qed.

Lemma input_entries_grow ents mes db ents' db' snap job oldest l total :
  db_rep ents mes db → grows ents db ents' db' → job_ok ents db snap job oldest l total →
  file_entries ents' (inputs job) = file_entries ents (inputs job).
Proof.
  intros Hdb Hg Hj. pose proof (rep_numbers _ _ _ Hdb) as Hn. rewrite Forall_forall in Hn.
  assert (∀ a, a ∈ inputs job → fm_number a < next_sst_number_ db) as Hin
    by (intros a Ha; by eapply Hn, input_current).
  clear -Hg Hin. induction (inputs job) as [|a fms IH]; [done|]. rewrite !file_entries_cons.
  rewrite IH by (intros b Hb; apply Hin; by right).
  by rewrite (ev_ents _ _ _ _ Hg) by (apply Hin; by left).
Qed.

Lemma job_grows ents mes db ents' db' snap job oldest l total :
  db_rep ents mes db → grows ents db ents' db' → job_ok ents db snap job oldest l total →
  job_ok ents' db' snap job oldest l total.
Proof.
  intros Hdb Hg Hj. pose proof (input_entries_grow _ _ _ _ _ _ _ _ _ _ Hdb Hg Hj) as E.
  pose proof (input_seqs _ _ _ _ _ _ _ _ Hdb Hj) as Hs. destruct Hj as [J1 J2 [n1 J3] J4 J5 J6 J7 J8 J9].
  destruct Hg as [G1 G2 G3 G4 (n2 & G5 & _) G6]. split; rewrite ?E, ?G4; try done.
  - exists (n1 ++ n2). unfold extends in *. rewrite G5. unfold files_at at 1. rewrite J3.
    cbn [nth drop]. by rewrite drop_0, (assoc_L (++)).
  - intros s [Hs'|Hge]%G6; [by apply J6|]. right. eapply Forall_impl; [exact Hs|]. simpl. lia.
Qed.

Lemma written_evolves ents mes db ents' mes' db' sp level total f x :
  db_rep ents mes db → evolves ents db ents' db' → refines ents' mes' db' sp →
  written ents db level total f x → written ents' db' level total f x.
Proof.
  intros Hdb [Hg Hd] Href [W1 W2 W3 W4 W5]. pose proof Hg as [G1 G2 G3 G4 (news & G5 & Hnews) G6].
  assert (agrees (next_sst_number_ db) ents ents') as Hag by (split; [apply (rf_rep _ _ _ _ Href)|done]).
  unfold own_numbers in W5. pose proof W5 as [Hlt Hltw]%Forall_app. rewrite Forall_fmap, Forall_forall in Hlt.
  unfold compose in Hlt.
  split.
  - rewrite <- W1. apply list_fmap_ext. intros i fm Hfm. apply G1, Hlt. by eapply list_elem_of_lookup_2.
  - rewrite Forall_forall in W2 |- *. intros fm Hfm.
    by apply (output_built_agrees level (next_sst_number_ db) ents ents' db); auto.
  - destruct (v_writer x) as [[num w]|]; [|done]. apply Forall_cons in Hltw as [Hltw _].
    by rewrite G1.
  - unfold own_numbers in *. rewrite G5, mjoin_cons. unfold files_at.
    assert (mjoin (files (current_version_ db)) ≡ₚ
      nth 0 (files (current_version_ db)) [] ++ mjoin (drop 1 (files (current_version_ db)))) as Ep.
    { destruct (files (current_version_ db)); [done|]. cbn [nth drop]. by rewrite drop_0, mjoin_cons. }
    rewrite Ep in W4. set (l0 := nth 0 _ _) in *. set (ls := mjoin (drop 1 _)) in *.
    assert ((fm_number <$> (l0 ++ news) ++ ls) ++ own_numbers x ≡ₚ
      (fm_number <$> news) ++ ((fm_number <$> l0 ++ ls) ++ own_numbers x)) as Ep2.
    { rewrite !fmap_app, <- !(assoc_L (++)). rewrite (Permutation_app_swap_app (fm_number <$> l0)). done. }
    unfold own_numbers in Ep2. rewrite Ep2. pose proof (rep_nodup _ _ _ (rf_rep _ _ _ _ Href)) as Hnd.
    rewrite G5, mjoin_cons in Hnd. fold l0 ls in Hnd. apply NoDup_app. split_and!; [| |done].
    + rewrite !fmap_app in Hnd. by apply NoDup_app in Hnd as [(_ & _ & ?)%NoDup_app _].
    + intros n (fm & -> & Hfm)%list_elem_of_fmap Hn. rewrite Forall_forall in Hnews.
      specialize (Hnews fm Hfm). apply elem_of_app in Hn as [Hn|Hn].
      * pose proof (rep_numbers _ _ _ Hdb) as Hr. rewrite Ep in Hr. fold l0 ls in Hr.
        apply list_elem_of_fmap in Hn as (fm' & E & Hfm'). rewrite Forall_forall in Hr.
        specialize (Hr fm' Hfm'). lia.
      * rewrite Forall_forall in W5. specialize (W5 _ Hn). lia.
  - eapply Forall_impl; [exact W5|]. simpl. lia.
Qed.

(** A call of a client does not disturb the worker. *)
Lemma worker_evolves ents mes db sp ents' mes' db' sp' w :
  refines ents mes db sp → evolves ents db ents' db' → refines ents' mes' db' sp' →
  worker_ok ents db w → worker_ok ents' db' w.
Proof.
  intros Href Hev Href' Hw. pose proof (rf_rep _ _ _ _ Href) as Hdb.
  destruct Hw as [|snap job oldest l total Hj|snap job oldest l total it x done rest [Hj El Hit Hwr Hk]
    |snap job oldest l total x Hj Hwr].
  - constructor.
  - econstructor. eapply job_grows; [done|apply Hev|done].
  - apply (ok_merging _ _ _ _ _ l total it x done rest).
    split; [by eapply job_grows; [|apply Hev|]|done| | |done].
    + intros ents'' Ha. apply Hit. eapply grows_agrees; [apply Hev|done].
    + rewrite (ev_opts _ _ _ _ Hev). by eapply written_evolves.
  - eapply ok_merged; [by eapply job_grows; [|apply Hev|]|]. by eapply written_evolves.
Qed.

(** ** Picking a job *)

Lemma set_compaction_invisible mes sp ents db pending running force :
  refines ents mes db sp →
  invisible mes sp ents db ents (set_compaction pending running force db).
Proof.
  intros Href. split_and!.
  - destruct Href as [[] ? ? ?]. by split.
  - by eapply grows_refl; [apply Href|..].
  - intros j []. by split.
Qed.

Lemma fold_min_le s l : foldr Z.min s l ≤ s ∧ Forall (λ x, foldr Z.min s l ≤ x) l.
Proof using Type.
  induction l as [|x l [IH1 IH2]]; simpl; [split; [lia|constructor]|]. split; [lia|].
  constructor; [lia|]. eapply Forall_impl; [exact IH2|]. simpl. lia.
Qed.

Lemma oldest_live_le db s : s ∈ live_snapshots_ db → oldest_live_snapshot db ≤ s.
Proof using Type.
  intros Hs%gmultiset_elem_of_elements. unfold oldest_live_snapshot.
  destruct (elements (live_snapshots_ db)) as [|x l]; [by apply elem_of_nil in Hs|].
  destruct (fold_min_le x l) as [H1' H2']. rewrite Forall_forall in H2'.
  apply elem_of_cons in Hs as [->|Hs]; auto.
Qed.

Lemma rep_file_ok ents mes db fm ents' :
  db_rep ents mes db → agrees (next_sst_number_ db) ents ents' →
  fm ∈ mjoin (files (current_version_ db)) → file_ok (content_of ents') ents' fm.
Proof.
  intros Hdb Ha Hfm. destruct (rep_files _ _ _ Hdb ents' Ha) as [Hv _]. by eapply file_ok_of.
Qed.

Lemma rep_pickable ents mes db :
  db_rep ents mes db → Forall (λ fm, smallest_key fm ≠ []) (files_at (current_version_ db) 0) →
  pickable (current_version_ db).
Proof.
  intros Hdb Hne. destruct (rep_files _ _ _ Hdb ents (rep_agrees _ _ _ _ Hdb)) as [Hv _].
  split; [apply Hv|apply Hv|apply Hdb| |done]. apply Forall_forall. intros fm Hfm.
  destruct (file_ok_of _ _ _ fm Hv Hfm) as [Hh Hr]. pose proof (th_nonempty _ _ _ Hh).
  destruct (ents (fm_number fm)) as [|e es]; [done|]. apply Forall_cons in Hr as [[? ?] _].
  by eapply key_le_trans.
Qed.

Lemma encode_block_sublist a b : a `sublist_of` b → blen (encode_block a) ≤ blen (encode_block b).
Proof using Type.
  induction 1 as [|x a b _ IH|x a b _ IH]; [done| |]; rewrite ?encode_block_cons, ?blen_app;
    pose proof (blen_nonneg (encode_sst_entry x)); lia.
Qed.

Lemma split_files_sublist target l es :
  es ∈ split_files target l → es `sublist_of` l.
Proof using Type.
  intros (a & b & E)%list_elem_of_split. rewrite <- (mjoin_split_files target l), E.
  rewrite join_app, mjoin_cons. by apply sublist_inserts_l, sublist_inserts_r.
Qed.

Lemma split_writable target oldest bot l :
  Forall sst_entry_ok l → sst_fits l → sorted_entries l →
  let total := split_files target (kept oldest bot ([], false) l) in
  Forall (λ es, keys_separate (layout es)) total → writable total.
Proof using Type.
  intros Hok Hfit Hs total Hsep.
  assert (∀ es, es ∈ total → es `sublist_of` l) as Hsub.
  { intros es Hes. etrans; [by eapply split_files_sublist|apply kept_sublist]. }
  split; [..|done]; apply Forall_forall; intros es Hes; specialize (Hsub es Hes).
  - rewrite Forall_forall in Hok |- *. intros e He. by eapply Hok, elem_of_sublist.
  - unfold sst_fits in *. pose proof (encode_block_sublist es l Hsub). lia.
  - by eapply sublist_sorted.
Qed.

Lemma input_entries_ok ents mes db fms :
  db_rep ents mes db → (∀ a, a ∈ fms → a ∈ mjoin (files (current_version_ db))) →
  Forall sst_entry_ok (file_entries ents fms).
Proof.
  intros Hdb Hin. apply Forall_forall. intros e (a & Ha & He)%file_entries_elem.
  pose proof (rep_entries _ _ _ Hdb) as Hr. rewrite Forall_forall in Hr.
  specialize (Hr a (Hin a Ha)). rewrite Forall_forall in Hr. auto.
Qed.

(** A job that is safe when it is picked can be carried out. *)
Lemma picked_job_ok ents mes db :
  let job := pick_compaction (opts_ db) (force_compact_ db) (current_version_ db) in
  let oldest := oldest_live_snapshot db in
  db_rep ents mes db → inputs job ≠ [] → job_safe (opts_ db) oldest (current_version_ db) job →
  job_ok ents db (current_version_ db) job oldest (merge_sort ent_le (job_entries job))
    (job_files (opts_ db) oldest job) ∧ job_entries job = file_entries ents (inputs job).
Proof.
  intros job oldest Hdb Hin (Hout & Hne & Hfit & Hsep & Hfs).
  pose proof (pick_closed _ _ _ (rep_pickable _ _ _ Hdb Hne) Hin Hout) as Hclosed. fold job in Hclosed.
  assert (job_entries job = file_entries ents (inputs job)) as Eent.
  { apply (job_entries_holds (content_of ents)), Forall_forall. intros fm Hfm.
    apply (rep_file_ok _ _ _ _ _ Hdb (rep_agrees _ _ _ _ Hdb)). by apply Hclosed. }
  split; [|done]. unfold job_files in *. rewrite Eent in *.
  set (l := merge_sort ent_le (file_entries ents (inputs job))) in *.
  assert (l ≡ₚ file_entries ents (inputs job)) as Hp by apply merge_sort_Permutation.
  assert (sorted_entries l) as Hs by apply (StronglySorted_merge_sort ent_le).
  destruct (rep_files _ _ _ Hdb ents (rep_agrees _ _ _ _ Hdb)) as [[Hl _ _] _]. split; try done.
  - exists []. unfold extends, files_at. destruct (files (current_version_ db)); [done|].
    cbn [nth drop]. by rewrite app_nil_r, drop_0.
  - intros s Hs'. left. by apply oldest_live_le.
  - apply split_writable; [|by unfold sst_fits in *; rewrite (encode_block_perm _ _ Hp)|done|done].
    rewrite Hp. by eapply input_entries_ok; [|apply Hclosed].
Qed.

(** What [pick_job] does to the state and what it returns. *)
Lemma pick_job_eq db :
  let job := pick_compaction (opts_ db) (force_compact_ db) (current_version_ db) in
  pick_job db =
    if bool_decide (inputs job = []) then
      (set_compaction false false (force_compact_ db) db, Ok Waiting)
    else
      (set_compaction false true (force_compact_ db) db,
       Ok (Picked (current_version_ db) job (oldest_live_snapshot db))).
Proof using Type.
  intros job. unfold pick_job. erewrite dbm_bind_ok by reflexivity.
  do 4 (erewrite dbm_bind_ok by reflexivity). cbn [current_version_ opts_ force_compact_ set_compaction].
  fold job. by destruct (inputs job).
Qed.

Lemma pick_job_ok ents mes db sp :
  refines ents mes db sp → worker_safe db Waiting →
  ∃ db' w', pick_job db = (db', Ok w') ∧ invisible mes sp ents db ents db' ∧ worker_ok ents db' w'.
Proof.
  intros Href Hsafe. rewrite pick_job_eq. case_bool_decide as Ein.
  - eexists _, _. split_and!; [done|by apply set_compaction_invisible|constructor].
  - destruct (picked_job_ok ents mes db (rf_rep _ _ _ _ Href) Ein (Hsafe Ein)) as [Hj _].
    eexists _, _. split_and!; [done|by apply set_compaction_invisible|].
    econstructor. destruct Hj. by split.
Qed.

(** ** Merging *)

(** Reading through the cache of the database. *)
Lemma with_cache_ok {A} ents mes db sp (m : cached A) (P : (CacheKey → bytes) → A → Prop) :
  refines ents mes db sp →
  (∀ ents', agrees (next_sst_number_ db) ents ents' →
    ∃ a, runs (content_of ents') m (Ok a) ∧ P (content_of ents') a) →
  ∃ c a, with_cache m db = (set_cache c db, Ok a) ∧ invisible mes sp ents db ents (set_cache c db) ∧
    ∀ ents', agrees (next_sst_number_ db) ents ents' → P (content_of ents') a.
Proof.
  intros Href Hm. pose proof (rf_rep _ _ _ _ Href) as Hdb.
  destruct (Hm ents (rep_agrees _ _ _ _ Hdb)) as (a & Hr & _).
  destruct (with_cache_spec ents mes db m a Hdb Hr) as (c & E & Hc).
  { intros ents' Ha. destruct (Hm ents' Ha) as (a' & ? & _). eauto. }
  exists c, a. split_and!; [done| |].
  - split_and!; [by apply set_cache_refines|by eapply grows_refl; [exact Hdb|..]|intros j []; by split].
  - intros ents' Ha. destruct (Hm ents' Ha) as (a' & Hr' & HP).
    pose proof (runs_det _ _ _ _ _ Hr Hr') as Ea. by injection Ea as ->.
Qed.

(** One step of the iterator. *)
Lemma advance_shows content it e rest fuel :
  iter_shows content it (e :: rest) → (length rest ≤ fuel)%nat →
  ∃ it', runs content (advance fuel it) (Ok it') ∧ iter_shows content it' rest.
Proof.
  intros (Hall & [Hs _]%StronglySorted_inv & Hv & _ & Hp) Hf.
  destruct (advance_runs content it rest fuel Hp Hs Hf) as (h' & l' & Hp' & Hs' & Hadv).
  unfold MergeIterator.outputs in Hadv. rewrite Hall in Hadv. destruct rest as [|e' rest].
  - eexists. split; [exact Hadv|]. by split_and!.
  - destruct Hadv as (Hadv & -> & _). eexists. split; [exact Hadv|]. by split_and!.
Qed.

Lemma merge_fuel_enough content ents job :
  Forall (file_ok content ents) (inputs job) →
  (length (file_entries ents (inputs job)) < merge_fuel job)%nat.
Proof.
  unfold merge_fuel. induction 1 as [|fm fms [Hh _] _ IH]; [simpl; lia|].
  rewrite file_entries_cons, length_app, fmap_cons. cbn [sum_list_with id].
  rewrite (th_count _ _ _ Hh), Nat2Z.id. lia.
Qed.

(** The sources of the inputs give an iterator over their merge. *)
Lemma merge_new_shows content ents job l srcs :
  Forall (file_ok content ents) (inputs job) → versions_unique (file_entries ents (inputs job)) →
  sorted_entries l → l ≡ₚ file_entries ents (inputs job) →
  Forall2 (yields content) srcs ((λ fm, ents (fm_number fm)) <$> inputs job) →
  ∃ it, runs content (merge_new (merge_fuel job) srcs true u64_max true) (Ok it) ∧
    iter_shows content it l.
Proof.
  intros Hfiles Hu Hs Hp Hy. set (ess := (λ fm, ents (fm_number fm)) <$> inputs job) in *.
  assert (mjoin ess = file_entries ents (inputs job)) as Hj.
  { subst ess. unfold file_entries. clear. by induction (inputs job) as [|fm fms IH];
      [done|]; rewrite fmap_cons, mjoin_cons, IH. }
  destruct (filter_sources content srcs ess Hy) as (ess' & Hy' & Hne & Hj' & Hin).
  destruct (pops_exist content _ _ ess' eq_refl Hy' Hne) as (l' & Hpops & Hs' & Hpl).
  { apply Forall_forall. intros es (fm & -> & Hfm)%Hin%list_elem_of_fmap.
    rewrite Forall_forall in Hfiles. apply (fo_holds _ _ _ (Hfiles fm Hfm)). }
  rewrite Hj', Hj in Hpl.
  assert (l = l') as <-.
  { apply sorted_unique; [|done|done|by rewrite Hp, Hpl]. by eapply versions_unique_perm. }
  set (it0 := mkMerge (List.filter src_valid srcs) no_entry true u64_max true false).
  pose proof (merge_fuel_enough content ents job Hfiles) as Hf.
  destruct (advance_runs content it0 l (merge_fuel job)) as (h' & l' & Hp' & Hs2 & Hadv);
    [done|done|rewrite Hp; lia|].
  unfold MergeIterator.outputs in Hadv. cbn [yield_all_versions_ it0] in Hadv. destruct l as [|e l].
  - eexists. split; [exact Hadv|]. by split_and!.
  - destruct Hadv as (Hadv & -> & _). eexists. split; [exact Hadv|]. by split_and!.
Qed.

Lemma inputs_ok ents mes db ents' snap job oldest l total :
  db_rep ents mes db → job_ok ents db snap job oldest l total →
  agrees (next_sst_number_ db) ents ents' →
  Forall (file_ok (content_of ents') ents') (inputs job) ∧
  file_entries ents' (inputs job) = file_entries ents (inputs job) ∧
  ((λ fm, ents' (fm_number fm)) <$> inputs job) = ((λ fm, ents (fm_number fm)) <$> inputs job).
Proof.
  intros Hdb Hj Ha.
  assert (Forall (λ fm, fm_number fm < next_sst_number_ db) (inputs job)) as Hn.
  { pose proof (rep_numbers _ _ _ Hdb) as Hn. rewrite Forall_forall in Hn |- *.
    intros fm Hfm. eapply Hn, input_current; done. }
  split_and!; [|by apply (file_entries_agrees (next_sst_number_ db))
    |by apply (fmap_ents_agrees (next_sst_number_ db))].
  apply Forall_forall. intros fm Hfm. eapply rep_file_ok; [done|done|]. by eapply input_current.
Qed.

Lemma inputs_unique ents mes db snap job oldest l total :
  db_rep ents mes db → job_ok ents db snap job oldest l total →
  versions_unique (file_entries ents (inputs job)).
Proof.
  intros Hdb Hj. eapply versions_unique_sub; [|apply (lo_unique _ _ (rep_layers _ _ _ Hdb))].
  intros e (a & Ha & He)%file_entries_elem. unfold db_layers. rewrite mjoin_cons. apply elem_of_app. right.
  destruct (rep_files _ _ _ Hdb ents (rep_agrees _ _ _ _ Hdb)) as [Hv _].
  apply (version_entries_elem (content_of ents)); [done|]. exists a. split; [|done].
  by eapply input_current.
Qed.

Lemma written_nil ents mes db level total :
  db_rep ents mes db → written ents db level total ([], []) (mkVars [] None 0 ([], false)).
Proof.
  intros Hdb. split; try done; try constructor. unfold own_numbers. simpl. rewrite app_nil_r. apply Hdb.
Qed.

Lemma open_merge_ok ents mes db sp snap job oldest l total :
  refines ents mes db sp → job_ok ents db snap job oldest l total →
  ∃ db' it x, open_merge snap job oldest db = (db', Ok (Merging snap job oldest it x)) ∧
    invisible mes sp ents db ents db' ∧ merging ents db' snap job oldest l total it x [] l.
Proof.
  intros Href Hj. pose proof (rf_rep _ _ _ _ Href) as Hdb.
  destruct (with_cache_ok ents mes db sp (input_sources (inputs job))
    (λ content srcs, Forall2 (yields content) srcs ((λ fm, ents (fm_number fm)) <$> inputs job)) Href)
    as (c1 & srcs & E1 & Hi1 & Hsrc).
  { intros ents' Ha. destruct (inputs_ok _ _ _ _ _ _ _ _ _ Hdb Hj Ha) as (Hf & _ & Es).
    destruct (input_sources_runs (content_of ents') ents' (inputs job) Hf) as (srcs & Hr & Hy).
    exists srcs. split; [done|]. by rewrite <- Es. }
  destruct (with_cache_ok ents mes (set_cache c1 db) sp (merge_new (merge_fuel job) srcs true u64_max true)
    (λ content it, iter_shows content it l) (proj1 Hi1)) as (c2 & it & E2 & Hi2 & Hit).
  { intros ents' Ha. destruct (inputs_ok _ _ _ _ _ _ _ _ _ Hdb Hj Ha) as (Hf & Ee & Es).
    pose proof (inputs_unique _ _ _ _ _ _ _ _ Hdb Hj) as Hu. specialize (Hsrc ents' Ha).
    apply (merge_new_shows (content_of ents') ents'); rewrite ?Ee, ?Es; try done; apply Hj. }
  unfold open_merge. erewrite dbm_bind_ok by exact E1. erewrite dbm_bind_ok by exact E2.
  eexists _, it, _. split_and!; [reflexivity|by eapply invisible_trans|].
  split; [by destruct Hj|done|exact Hit| |done].
  apply (written_nil ents mes). apply Hi2.
Qed.

Lemma written_cache ents db c level total f x :
  written ents db level total f x → written ents (set_cache c db) level total f x.
Proof using Type. intros []. by split. Qed.

Lemma merge_round_valid ents mes db sp snap job oldest l total it x done e rest :
  refines ents mes db sp → next_sst_number_ db + 1 < 2 ^ 31 →
  merging ents db snap job oldest l total it x done (e :: rest) →
  ∃ db' ents' it' x', merge_round snap job oldest it x db = (db', Ok (Merging snap job oldest it' x')) ∧
    invisible mes sp ents db ents' db' ∧
    merging ents' db' snap job oldest l total it' x' (done ++ [e]) rest.
Proof.
  intros Href Hint [Hj El Hit Hwr Hk]. pose proof (rf_rep _ _ _ _ Href) as Hdb.
  destruct (Hit ents (rep_agrees _ _ _ _ Hdb)) as (_ & _ & Hv & Hc & _).
  destruct (compact_step_ok (output_level job) total (jo_writable _ _ _ _ _ _ _ Hj) oldest job ents mes db
    sp done e rest x eq_refl Href Hint) as (db1 & ents1 & x1 & E1 & Hi1 & Hwr1 & Hk1);
    [rewrite <- El; apply Hj|done|done|].
  destruct (with_cache_ok ents1 mes db1 sp (advance (merge_fuel job) it)
    (λ content it', iter_shows content it' rest) (proj1 Hi1)) as (c & it' & E2 & Hi2 & Hit').
  { intros ents' Ha. destruct Hi1 as (_ & Hg & _). pose proof (grows_agrees _ _ _ _ _ Hg Ha) as Ha'.
    apply (advance_shows _ _ e); [by apply Hit|].
    destruct (inputs_ok _ _ _ _ _ _ _ _ _ Hdb Hj Ha') as (Hf & Ee & _).
    pose proof (merge_fuel_enough _ _ _ Hf) as Hfu. rewrite Ee, <- (jo_perm _ _ _ _ _ _ _ Hj), El in Hfu.
    rewrite length_app in Hfu. simpl in Hfu. lia. }
  assert (invisible mes sp ents db ents1 (set_cache c db1)) as Hi by (by eapply invisible_trans).
  unfold merge_round. rewrite Hv, Hc. erewrite dbm_bind_ok by exact E1. erewrite dbm_bind_ok by exact E2.
  eexists _, ents1, it', x1. split_and!; [reflexivity|done|]. destruct Hi as (_ & Hg & _). split.
  - by eapply job_grows.
  - by rewrite El, <- (assoc_L (++)).
  - exact Hit'.
  - rewrite (ev_opts _ _ _ _ Hg). by apply written_cache.
  - done.
Qed.

Lemma merge_round_end ents mes db sp snap job oldest l total it x done :
  refines ents mes db sp → merging ents db snap job oldest l total it x done [] →
  ∃ db' x', merge_round snap job oldest it x db = (db', Ok (Merged snap job (v_outputs x'))) ∧
    invisible mes sp ents db ents db' ∧ job_ok ents db' snap job oldest l total ∧
    written ents db' (output_level job) total (total, []) x'.
Proof.
  intros Href [Hj El Hit Hwr Hk]. pose proof (rf_rep _ _ _ _ Href) as Hdb.
  destruct (Hit ents (rep_agrees _ _ _ _ Hdb)) as (_ & _ & Hv). rewrite app_nil_r in El. subst done.
  pose proof (jo_total _ _ _ _ _ _ _ Hj) as Etot.
  set (f := fold_left (split_add (target_file_size (opts_ db)))
    (kept oldest (is_bottommost job) ([], false) l) ([], [])) in *.
  assert (total = close_layout f) as Ef by (by rewrite Etot).
  destruct (finish_writer_ok (output_level job) total (jo_writable _ _ _ _ _ _ _ Hj) ents mes db sp f x Href Hwr)
    as (db' & x' & E & Hi & Hwr' & _ & _).
  { intros Hne. rewrite Ef. unfold close_layout. rewrite bool_decide_eq_false_2 by done.
    by rewrite list_lookup_middle. }
  unfold merge_round. rewrite Hv. erewrite dbm_bind_ok by exact E.
  eexists _, x'. split_and!; [reflexivity|done| |by rewrite <- Ef in Hwr'].
  destruct Hi as (_ & Hg & _). by eapply job_grows.
Qed.

(** ** Committing *)

Lemma last_key_elem es : es ≠ [] → ∃ e, e ∈ es ∧ last_key es = e_key e.
Proof using Type.
  intros Hne. unfold last_key. destruct (last es) as [e|] eqn:E; [|by apply last_None in E].
  exists e. split; [|done]. apply last_Some in E as [l ->]. apply elem_of_app. right. by left.
Qed.

Lemma built_meta ents fm bloom :
  file_built ents fm bloom → smallest_key fm = block_key (ents (fm_number fm)) ∧
    largest_key fm = last_key (ents (fm_number fm)).
Proof using Type. intros Hb. by rewrite (fb_meta _ _ _ Hb) at 1 3. Qed.

Lemma merged_replacement ents mes db snap job oldest l total x :
  db_rep ents mes db → job_ok ents db snap job oldest l total →
  written ents db (output_level job) total (total, []) x → v_outputs x ≠ [] →
  replacement ents snap (current_version_ db) job (v_outputs x) oldest l.
Proof.
  intros Hdb Hj [W1 W2 W3 W4 W5] Hne. pose proof Hj as [J1 J2 J3 J4 J5 J6 J7 J8 J9].
  destruct (rep_files _ _ _ Hdb ents (rep_agrees _ _ _ _ Hdb)) as [Hv _].
  assert (file_entries ents (v_outputs x) = mjoin total) as Ee.
  { cbn [fst] in W1. rewrite <- W1. unfold file_entries. clear. induction (v_outputs x) as [|fm fms IH]; [done|].
    by rewrite fmap_cons, mjoin_cons, <- IH. }
  assert (∀ fm, fm ∈ v_outputs x → ents (fm_number fm) ≠ [] ∧
    smallest_key fm = block_key (ents (fm_number fm)) ∧ largest_key fm = last_key (ents (fm_number fm))) as Hb.
  { rewrite Forall_forall in W2. intros fm Hfm. destruct (W2 fm Hfm) as (_ & bloom & Hb & _).
    split; [apply Hb|]. by eapply built_meta. }
  split; try done.
  - apply Forall_forall. intros fm Hfm. apply (fo_range (content_of ents)). by eapply file_ok_of.
  - by rewrite Ee, J7, mjoin_split_files.
  - destruct J3 as [news J3]. pose proof (vo_disjoint _ _ _ Hv) as Hd. rewrite J3 in Hd.
    cbn [drop] in Hd. by rewrite drop_0 in Hd.
  - apply Forall_forall. intros fm Hfm. destruct (file_ok_of _ _ _ fm Hv Hfm) as [Hh Hr].
    pose proof (th_nonempty _ _ _ Hh). destruct (ents (fm_number fm)) as [|e es]; [done|].
    apply Forall_cons in Hr as [[? ?] _]. by eapply key_le_trans.
  - rewrite fmap_app. unfold own_numbers in W4. cbn [snd] in W3.
    destruct (v_writer x) as [[num w]|]; [by destruct W3|]. by rewrite app_nil_r in W4.
  - cbn [fst] in W1. unfold files_separate in J9. rewrite <- W1 in J9. clear -J9 Hb.
    induction (v_outputs x) as [|fm fms IH]; [constructor|]. rewrite fmap_cons in J9.
    apply StronglySorted_inv in J9 as [Hs Hf]. constructor.
    { apply IH; [done|]. intros fm' Hfm'. apply Hb. by right. }
    rewrite Forall_fmap, Forall_forall in Hf. apply Forall_forall. intros fm' Hfm'.
    destruct (Hb fm) as (_ & _ & ->); [by left|]. destruct (Hb fm') as (_ & -> & _); [by right|].
    by apply Hf.
  - apply Forall_forall. intros fm Hfm. destruct (Hb fm Hfm) as (Hne' & Es & El).
    rewrite Forall_forall in W2. destruct (W2 fm Hfm) as (_ & bloom & Hbu & _).
    split; [by eapply file_built_range|]. rewrite Es, El.
    destruct (block_key_elem _ Hne') as (e & He & <-). destruct (last_key_elem _ Hne') as (e' & He' & ->).
    exists e, e'. split_and!; [..|done|done]; apply file_entries_elem; eauto.
Qed.

Section Install.
Context (ents : Z → list Entry) (mes : list Entry) (db : DB) (sp : Spec) (snap : Version)
  (job : CompactionJob) (oldest : Z) (l : list Entry) (total : list (list Entry)) (x : CompactVars).
Hypotheses (Href : refines ents mes db sp) (Hj : job_ok ents db snap job oldest l total)
  (Hwr : written ents db (output_level job) total (total, []) x) (Hne : v_outputs x ≠ []).

Local Abbreviation new_ver := (commit (current_version_ db) job (v_outputs x)).

Lemma installed_replaced :
  replaced_version ents (current_version_ db) job (v_outputs x) oldest new_ver.
Proof. eapply commit_replaces, merged_replacement; [apply Href|done..]. Qed.

Lemma output_number fm : fm ∈ v_outputs x → fm_number fm < next_sst_number_ db.
Proof.
  intros Hfm. pose proof (wr_next _ _ _ _ _ _ Hwr) as Hn. unfold own_numbers in Hn.
  apply Forall_app in Hn as [Hn _]. rewrite Forall_fmap, Forall_forall in Hn. by apply Hn.
Qed.

Lemma output_is_built fm : fm ∈ v_outputs x → output_built ents db (output_level job) fm.
Proof. intros Hfm. pose proof (wr_built _ _ _ _ _ _ Hwr) as Hb. rewrite Forall_forall in Hb. auto. Qed.

Lemma installed_file_ok fm ents' :
  agrees (next_sst_number_ db) ents ents' → fm ∈ mjoin (files new_ver) →
  file_ok (content_of ents') ents' fm.
Proof.
  intros Ha Hfm. apply (rv_files _ _ _ _ _ _ installed_replaced) in Hfm as [[Hfm _]|Hfm].
  - eapply rep_file_ok; [apply Href|done|done].
  - destruct (output_is_built fm Hfm) as (_ & bloom & Hb & _). apply (file_built_ok _ _ bloom).
    apply (file_built_agrees (next_sst_number_ db) ents); [done| |done]. by apply output_number.
Qed.

Lemma installed_layers : layers_ok (next_seq_ db) (mes :: version_layers ents new_ver).
Proof.
  pose proof installed_replaced as Hr. pose proof (rep_layers _ _ _ (rf_rep _ _ _ _ Href)) as [[Hm Hl] Hu Hs].
  unfold db_layers in Hu, Hs. rewrite mjoin_cons in Hu, Hs.
  assert (∀ e, e ∈ mes ++ mjoin (version_layers ents new_ver) →
    e ∈ mes ++ mjoin (version_layers ents (current_version_ db))) as Hsub.
  { intros e. rewrite !elem_of_app. intros [?|He]; [by left|right]. by apply Hr. }
  split; rewrite ?mjoin_cons.
  - split; [|by apply Hr]. intros e e' He He'. apply Hm; [done|]. by apply Hr.
  - by eapply versions_unique_sub.
  - rewrite Forall_forall in Hs |- *. auto.
Qed.

Lemma inputs_below_max : reads_above oldest u64_max (file_entries ents (inputs job)).
Proof.
  right. eapply Forall_impl; [by eapply input_seqs; [apply Href|..]|]. simpl. intros e He.
  pose proof (rep_next _ _ _ (rf_rep _ _ _ _ Href)). unfold u64_max. lia.
Qed.

(** The contents of the tables stay the same, whatever the memtable holds. *)
Lemma installed_base k :
  reader_value (lookup_ref (mjoin (version_layers ents new_ver)) k u64_max) =
  reader_value (lookup_ref (mjoin (version_layers ents (current_version_ db))) k u64_max).
Proof.
  pose proof (rep_layers _ _ _ (rf_rep _ _ _ _ Href)) as [[_ Hl] Hu _].
  unfold db_layers in Hu. rewrite mjoin_cons in Hu.
  apply (rv_lookup _ _ _ _ _ _ installed_replaced []); [|eapply versions_unique_sub; [|exact Hu]; set_solver|].
  - split; [|done]. intros e e' He. by apply elem_of_nil in He.
  - apply inputs_below_max.
Qed.

Lemma install_refines mf dir :
  refines ents mes (set_dir dir (set_version new_ver (set_manifest mf db))) sp.
Proof.
  pose proof installed_replaced as Hr. pose proof (rf_rep _ _ _ _ Href) as Hdb.
  pose proof (rep_layers _ _ _ Hdb) as [Hl Hu Hs].
  split; cbn [live_snapshots_ next_seq_ set_dir set_version set_manifest].
  - split; try apply Hdb; cbn [current_version_ next_sst_number_ cache_ next_seq_ set_dir set_version set_manifest].
    + intros ents' Ha. split; [|by apply (rep_files _ _ _ Hdb)]. split; [apply Hr| |apply Hr].
      apply Forall_mjoin, Forall_forall. intros fm Hfm. by apply installed_file_ok.
    + apply Forall_forall. intros fm [[Hfm _]|Hfm]%(rv_files _ _ _ _ _ _ Hr).
      * pose proof (rep_entries _ _ _ Hdb) as He. rewrite Forall_forall in He. auto.
      * destruct (output_is_built fm Hfm) as (_ & bloom & Hb & _). apply Hb.
    + apply Hr.
    + apply Forall_forall. intros fm [[Hfm _]|Hfm]%(rv_files _ _ _ _ _ _ Hr).
      * pose proof (rep_numbers _ _ _ Hdb) as Hn. rewrite Forall_forall in Hn. auto.
      * by apply output_number.
    + apply installed_layers.
  - intros k. rewrite <- (rf_map _ _ _ _ Href). apply Hr; [done|done|apply inputs_below_max].
  - apply Href.
  - intros s m Hsm. destruct (rf_snaps _ _ _ _ Href s m Hsm) as [Hlt Hk]. split; [done|].
    intros k. rewrite <- Hk. apply Hr; [done|done|]. apply (jo_live _ _ _ _ _ _ _ Hj).
    rewrite (rf_live _ _ _ _ Href), elem_of_list_to_set_disj. apply list_elem_of_fmap. by exists (s, m).
Qed.

Lemma installed_shape : version_shape (current_version_ db) → version_shape new_ver.
Proof.
  intros [S1 S2 S3 S4 S5]. pose proof installed_replaced as Hr. split; try apply Hr.
  - intros lv fm Hfm. destruct (rv_level _ _ _ _ _ _ Hr lv) as [keep E]. rewrite E in Hfm.
    apply elem_of_app in Hfm as [[Hfm _]%elem_of_filterb|Hfm]; [by apply S2|].
    destruct (Nat.eqb_spec lv (output_level job)) as [->|]; [|by apply elem_of_nil in Hfm].
    by destruct (output_is_built fm Hfm) as [? _].
  - rewrite (rv_level0 _ _ _ _ _ _ Hr). revert S3. generalize (files_at (current_version_ db) 0). clear.
    induction l as [|fm fms IH]; intros Hs; [done|]. rewrite fmap_cons in Hs.
    apply StronglySorted_inv in Hs as [Hs Hf]. cbn [List.filter]. destruct (negb (is_input job fm)); [|auto].
    rewrite fmap_cons. constructor; [auto|]. rewrite Forall_fmap, Forall_forall in Hf |- *.
    intros y [Hy _]%elem_of_filterb. auto.
Qed.

(** What is unlinked is an input. *)
Lemma dead_is_input n : n ∈ dead_numbers snap job → n ∈ fm_number <$> inputs job.
Proof using Type.
  unfold dead_numbers. intros (fm & -> & [_ Hi]%elem_of_filterb)%list_elem_of_fmap.
  unfold is_input in Hi. by apply bool_decide_eq_true in Hi.
Qed.

Lemma output_not_dead fm : fm ∈ v_outputs x → fm_number fm ∉ dead_numbers snap job.
Proof.
  intros Hfm (a & E & Ha)%dead_is_input%list_elem_of_fmap. pose proof (wr_numbers _ _ _ _ _ _ Hwr) as Hn.
  apply NoDup_app in Hn as (_ & Hd & _). apply (Hd (fm_number fm)).
  - rewrite E. apply list_elem_of_fmap_2. by eapply input_current.
  - apply elem_of_app. left. by apply list_elem_of_fmap_2.
Qed.

Lemma unlink_lookup dead (dir : gmap Z File) n :
  n ∉ dead → unlink dead dir !! n = dir !! n.
Proof using Type.
  intros Hn. unfold unlink. destruct (dir !! n) as [f|] eqn:E.
  - by apply map_lookup_filter_Some_2.
  - apply map_lookup_filter_None_2. by left.
Qed.

(** A log that is replayed does not notice the new version. *)
Lemma installed_shrinks :
  shrinks (version_layers ents (current_version_ db)) (version_layers ents new_ver).
Proof.
  split.
  - by destruct installed_layers as [[_ Hl] _ _].
  - apply (rv_entries _ _ _ _ _ _ installed_replaced).
  - apply installed_base.
Qed.

Lemma install_durable j :
  durable j ents mes db → snapshot_ok (version_to_manifest new_ver) →
  durable j ents mes (set_dir (unlink (dead_numbers snap job) (db_dir db)) (set_version new_ver
    (set_manifest (append_snapshot (manifest_ db) (version_to_manifest new_ver)).1 db))).
Proof.
  intros [(rs & W1 & W2 & W3 & L & K & O) D2 D3 (ss & D4 & D4' & D4'') D5 D6 D7 D8] Hsnap.
  pose proof installed_shrinks as Hsh. rewrite append_snapshot_ok. cbn [fst].
  split; cbn [wal_ opts_ manifest_ current_version_ db_dir next_sst_number_ set_dir set_version set_manifest
    f_data f_synced]; try done.
  - exists rs. split_and!; [done..|by eapply log_shrink|done|]. intros Hs.
    eapply Forall_impl; [by apply O|]. intros o (E & rs' & tail & ? & ? & ? & Hr & ?).
    split; [done|]. exists rs', tail. split_and!; try done. by eapply recovers_shrink.
  - exists (ss ++ [version_to_manifest new_ver]). rewrite D4, encode_snapshots_app, last_snoc. split_and!.
    + unfold encode_snapshots at 3. simpl. by rewrite app_nil_r.
    + apply Forall_app. split; [done|]. by constructor.
    + done.
  - by apply installed_shape.
  - apply Forall_forall. intros fm [[Hfm Hi]|Hfm]%(rv_files _ _ _ _ _ _ installed_replaced).
    + rewrite Forall_forall in D7. destruct (D7 fm Hfm) as (bloom & Hb & Hd). exists bloom. split; [done|].
      rewrite unlink_lookup; [done|]. intros Hdead%dead_is_input. unfold is_input in Hi.
      by rewrite bool_decide_eq_true_2 in Hi.
    + destruct (output_is_built fm Hfm) as (_ & bloom & Hb & Hd). exists bloom. split; [done|].
      rewrite unlink_lookup; [done|]. by apply output_not_dead.
  - intros n [f [Hf _]%map_lookup_filter_Some]. apply D8. by exists f.
Qed.

End Install.

Lemma install_version_ok ents mes db sp snap job oldest l total x :
  refines ents mes db sp → job_ok ents db snap job oldest l total →
  written ents db (output_level job) total (total, []) x →
  ∃ db', install_version snap job (v_outputs x) db = (db', Ok tt) ∧ refines ents mes db' sp ∧
    next_sst_number_ db' = next_sst_number_ db ∧
    (∀ j, durable j ents mes db → manifest_fits db' → durable j ents mes db').
Proof.
  intros Href Hj Hwr. destruct (decide (v_outputs x = [])) as [E|Hne]; [rewrite E; by exists db|].
  unfold install_version. destruct (v_outputs x) as [|o outs] eqn:Eo; [done|]. rewrite <- Eo in *.
  erewrite dbm_bind_ok by reflexivity. erewrite dbm_bind_ok by apply append_manifest_ok.
  erewrite dbm_bind_ok by reflexivity. eexists. split_and!; [reflexivity|by eapply install_refines|done|].
  intros j Hdu Hfit. by apply (install_durable ents mes db sp snap job oldest l total x).
Qed.

Lemma commit_job_ok ents mes db sp snap job oldest l total x :
  refines ents mes db sp → job_ok ents db snap job oldest l total →
  written ents db (output_level job) total (total, []) x →
  ∃ db', commit_job snap job (v_outputs x) db = (db', Ok Waiting) ∧ refines ents mes db' sp ∧
    next_sst_number_ db' = next_sst_number_ db ∧
    (∀ j, durable j ents mes db → manifest_fits db' → durable j ents mes db').
Proof.
  intros Href Hj Hwr.
  destruct (install_version_ok ents mes db sp snap job oldest l total x Href Hj Hwr)
    as (db1 & E & Href1 & Hn & Hdu).
  unfold commit_job. erewrite dbm_bind_ok by exact E. erewrite dbm_bind_ok by reflexivity.
  eexists. split; [reflexivity|].
  destruct (set_compaction_invisible mes sp ents db1
    (compaction_pending_ db1 || needs_compaction (opts_ db1) (current_version_ db1)) false
    (force_compact_ db1) Href1) as (Href2 & _ & Hdu2). split_and!; auto.
Qed.

(** ** Any step of the worker *)

Lemma worker_step_ok ents mes db sp w :
  refines ents mes db sp → worker_ok ents db w → worker_safe db w →
  ∃ db' ents' w', worker_step w db = (db', Ok w') ∧ refines ents' mes db' sp ∧ worker_ok ents' db' w' ∧
    keeps_files ents db ents' db' ∧
    (∀ j, durable j ents mes db → manifest_fits db' → durable j ents' mes db').
Proof.
  intros Href Hw Hsafe. destruct w as [|snap job oldest|snap job oldest it x|snap job outs]; cbn [worker_step].
  - destruct (pick_job_ok ents mes db sp Href Hsafe) as (db' & w' & E & (? & ?%grows_keeps & ?) & ?).
    exists db', ents, w'. split_and!; auto.
  - inversion Hw as [|? ? ? l total Hj| |]; subst.
    destruct (open_merge_ok ents mes db sp snap job oldest l total Href Hj)
      as (db' & it & x & E & (? & ?%grows_keeps & ?) & Hm).
    eexists db', ents, _. split_and!; [exact E|done| |done|auto]. by eapply ok_merging.
  - inversion Hw as [| |? ? ? l total ? ? done rest Hm|]; subst. destruct rest as [|e rest].
    + destruct (merge_round_end ents mes db sp snap job oldest l total it x done Href Hm)
        as (db' & x' & E & (? & ?%grows_keeps & ?) & Hj & Hwr).
      eexists db', ents, _. split_and!; [exact E|done| |done|auto]. by eapply ok_merged.
    + destruct (merge_round_valid ents mes db sp snap job oldest l total it x done e rest Href Hsafe Hm)
        as (db' & ents' & it' & x' & E & (? & ?%grows_keeps & ?) & Hm').
      eexists db', ents', _. split_and!; [exact E|done| |done|auto]. by eapply ok_merging.
  - inversion Hw as [| | |? ? oldest l total x Hj Hwr]; subst.
    destruct (commit_job_ok ents mes db sp snap job oldest l total x Href Hj Hwr) as (db' & E & ? & En & ?).
    exists db', ents, Waiting. split_and!; auto; [constructor|]. split; [done|]. by rewrite En.
Qed.

End WorkerLemmas.
