(* ===== verification/Round.v ===== *)
(** Rounds of the compaction thread: from the wake-up of [DB::compaction_loop]
    to the release of the lock after the commit.

    A round ends after a number of steps that is known beforehand.  What it
    leaves decides whether the thread goes on at once, and so whether
    [DB::compact] ever returns. *)

From stdpp Require Import gmultiset.
From S2P Require Import Prelude Coding Wal Entry Manifest Memtable BlockCache SSTableWriter SSTable MergeIterator Version Compaction Levels Db Recovery Background Worker.
Local Open Scope Z_scope.

(** * Definitions *)

Fixpoint worker_steps `{Posix} `{PriorityQueue} (n : nat) (w : Worker) : dbm Worker :=
  match n with O => mret w | S n' => w' ← worker_step w; worker_steps n' w' end.

(** The number of steps of a round: the wake-up, the opening of the inputs,
    an entry at a time, the last file and the commit. *)
Definition round_steps `{Posix} (job : CompactionJob) : nat := length (job_entries job) + 4.

(** What the thread leaves alone while it merges; it takes at most [n] file
    numbers. *)
Record quiet (n : Z) (db db' : DB) : Prop := {
  q_version : current_version_ db' = current_version_ db;
  q_pending : compaction_pending_ db' = compaction_pending_ db;
  q_running : compaction_running_ db' = compaction_running_ db;
  q_force : force_compact_ db' = force_compact_ db;
  q_opts : opts_ db' = opts_ db;
  q_live : live_snapshots_ db' = live_snapshots_ db;
  q_next : next_sst_number_ db' ≤ next_sst_number_ db + n;
}.

Definition leaves {A} (n : Z) (m : dbm A) : Prop := ∀ db, quiet n db (m db).1.

(** One version of each key. *)
Definition key_sorted (es : list Entry) : Prop :=
  StronglySorted (λ a b, key_lt (e_key a) (e_key b)) es.

(** All table files are on level 1. *)
Definition compacted (outs : list FileMeta) : Version :=
  mkVersion ([] :: sort_files outs :: replicate 5 []).

(** A forced compaction that will be asked for again as soon as it is done: what
    survives of the table files takes more than one file and more entries than
    level 1 should have. *)
Definition overfull `{Posix} (db : DB) : Prop :=
  let job := force_job (current_version_ db) in
  let total := job_files (opts_ db) u64_max job in
  force_compact_ db = true ∧ live_snapshots_ db = ∅ ∧ 1 ≤ compaction_trigger (opts_ db) ∧
  Forall (λ fm, smallest_key fm ≠ []) (files_at (current_version_ db) 0) ∧
  sst_fits (job_entries job) ∧ (2 ≤ length (mjoin (files (current_version_ db))))%nat ∧
  (2 ≤ length total)%nat ∧
  0 ≤ l1_max_bytes (opts_ db) < u64 (64 * Z.of_nat (length (mjoin total))).

(** * Lemmas *)

(** ** Jobs without live snapshots *)

Lemma kept_distinct oldest bot st l :
  sorted_entries l → Forall (λ e, e_seq e ≤ oldest) l → key_sorted (kept oldest bot st l).
Proof.
  intros Hs. revert st. induction Hs as [|e l Hs IH Hx]; intros st Hold; [constructor|].
  apply Forall_cons in Hold as [He Hold]. cbn [kept].
  destruct (keep_step oldest bot st e) as [st' keep] eqn:E. cbn [fst snd].
  destruct keep; cbn [app]; [|by apply IH].
  assert (st' = (e_key e, true)) as ->.
  { revert E. unfold keep_step. rewrite (proj2 (Z.ltb_ge _ _)) by done.
    destruct (bytes_eqb (e_key e) st.1) eqn:Ek; key_hyps; cbn [negb].
    - destruct st.2; cbn [negb]; [done|]. intros [= <- _]. by rewrite Ek.
    - by intros [= <- _]. }
  constructor; [by apply IH|]. apply Forall_forall. intros a Ha. rewrite Forall_forall in Hx, Hold.
  assert (e_key a ≠ e_key e) as Hne.
  { apply (kept_after_anchor oldest bot (e_key e) l); [done|intros; by apply ent_le_key, Hx|auto|done]. }
  apply kept_elem in Ha. destruct (proj1 (key_le_lteq _ _) (ent_le_key _ _ (Hx a Ha))); [done|congruence].
Qed.

(** A compaction of everything leaves no tombstone. *)
Lemma kept_live oldest st l :
  Forall (λ e, e_seq e ≤ oldest) l → Forall (λ e, e_tombstone e = false) (kept oldest true st l).
Proof.
  intros Hold. revert st. induction Hold as [|e l He _ IH]; intros st; [constructor|]. cbn [kept].
  apply Forall_app. split; [|apply IH]. unfold keep_step. rewrite (proj2 (Z.ltb_ge _ _)) by done.
  destruct (e_tombstone e) eqn:Et; repeat case_match; by repeat constructor.
Qed.

Lemma kept_id oldest bot st l :
  key_sorted l → Forall (λ e, e_seq e ≤ oldest) l → Forall (λ e, e_tombstone e = false) l →
  st.2 = false ∨ Forall (λ e, st.1 ≠ e_key e) l → kept oldest bot st l = l.
Proof.
  intros Hs. revert st. induction Hs as [|e l Hs IH Hx]; intros st Hold Ht Hst; [done|].
  apply Forall_cons in Hold as [He Hold], Ht as [Ht Hts]. cbn [kept].
  assert (keep_step oldest bot st e = ((e_key e, true), true)) as ->.
  { unfold keep_step. rewrite (proj2 (Z.ltb_ge _ _)) by done. rewrite Ht.
    destruct (bytes_eqb (e_key e) st.1) eqn:Ek; key_hyps; cbn [negb]; [|done].
    destruct Hst as [->|[? _]%Forall_cons]; [by rewrite Ek|congruence]. }
  cbn [fst snd app]. f_equal. apply IH; [done|done|]. right. eapply Forall_impl; [exact Hx|].
  intros a Ha. by apply key_lt_ne.
Qed.

Lemma key_sorted_nodup l : key_sorted l → NoDup (e_key <$> l).
Proof.
  induction 1 as [|e l _ IH Hx]; [constructor|]. rewrite fmap_cons. constructor; [|done].
  intros (a & Ek & Ha)%list_elem_of_fmap. rewrite Forall_forall in Hx. specialize (Hx a Ha).
  rewrite Ek in Hx. by apply key_lt_irrefl in Hx.
Qed.

Lemma key_sorted_files total :
  key_sorted (mjoin total) → Forall (.≠ []) total →
  files_separate total ∧ Forall (λ es, keys_separate (layout es)) total.
Proof.
  intros Hs Hne. split.
  - induction total as [|es total IH]; [constructor|]. apply Forall_cons in Hne as [He Hne].
    rewrite mjoin_cons in Hs. unfold key_sorted in Hs.
    constructor; [apply IH; [by eapply StronglySorted_app_1_r|done]|].
    apply Forall_forall. intros es' Hes'. rewrite Forall_forall in Hne.
    destruct (last_key_elem es He) as (a & Ha & ->).
    destruct (block_key_elem es' (Hne es' Hes')) as (b & Hb & <-).
    apply (StronglySorted_app_1_elem_of _ _ _ _ _ Hs Ha). apply list_elem_of_join. by exists es'.
  - apply Forall_forall. intros es (a & b & ->)%list_elem_of_split.
    apply keys_separate_distinct. rewrite mjoin_layout.
    apply key_sorted_nodup in Hs. rewrite join_app, mjoin_cons, !fmap_app in Hs.
    by apply NoDup_app in Hs as (_ & _ & (? & _ & _)%NoDup_app).
Qed.

Lemma split_safe target oldest bot l :
  sorted_entries l → Forall (λ e, e_seq e ≤ oldest) l →
  let total := split_files target (kept oldest bot ([], false) l) in
  files_separate total ∧ Forall (λ es, keys_separate (layout es)) total.
Proof.
  intros Hs Hold total. apply key_sorted_files; [|apply split_files_nonempty].
  unfold total. rewrite mjoin_split_files. by apply kept_distinct.
Qed.

(** ** The version after a forced compaction *)

Lemma forced_commit v outs :
  length (files v) = kMaxLevels → (2 ≤ length (mjoin (files v)))%nat → outs ≠ [] →
  commit v (force_job v) outs = compacted outs.
Proof.
  intros Hl H2 Hne. unfold force_job. rewrite (proj2 (Nat.leb_le _ _)) by done.
  set (job := mkJob 1 (mjoin (files v)) true). unfold commit.
  assert (List.filter (λ fm, negb (is_input job fm)) <$> files v = replicate kMaxLevels []) as ->.
  { rewrite <- Hl. assert (∀ fm, fm ∈ mjoin (files v) → is_input job fm = true) as Hin.
    { intros fm Hfm. unfold is_input. apply bool_decide_eq_true_2. by apply list_elem_of_fmap_2. }
    revert Hin. generalize (is_input job) as P. intros P. clear. induction (files v) as [|fms fs IH]; [done|].
    intros Hin. rewrite fmap_cons, IH by (intros fm Hfm; apply Hin; rewrite mjoin_cons; apply elem_of_app; by right).
    cbn [length replicate]. f_equal. assert (∀ fm, fm ∈ fms → P fm = true) as Hf.
    { intros fm Hfm. apply Hin. rewrite mjoin_cons. apply elem_of_app. by left. }
    clear -Hf. induction fms as [|fm fms IH]; [done|]. cbn [List.filter]. rewrite Hf by (by left).
    apply IH. intros y Hy. apply Hf. by right. }
  by destruct outs.
Qed.

Lemma compacted_files outs : mjoin (files (compacted outs)) = sort_files outs.
Proof. unfold compacted. simpl. by rewrite !app_nil_r. Qed.

Lemma compacted_done outs : compact_done (compacted outs) = true.
Proof.
  unfold compact_done. apply orb_true_intro. right. unfold files_at. simpl.
  by destruct (sort_files outs).
Qed.

Lemma level_sum ents fms n :
  Forall (λ fm, footer_entry_count (footer_ (fm_table fm)) = Z.of_nat (length (ents (fm_number fm)))) fms →
  fold_left (λ total fm, u64 (total + u64 (footer_entry_count (footer_ (fm_table fm)) * 64))) fms (u64 n) =
    u64 (n + 64 * Z.of_nat (length (file_entries ents fms))).
Proof.
  intros Hf. revert n. induction Hf as [|fm fms E _ IH]; intros n; cbn [fold_left].
  - f_equal. simpl. lia.
  - rewrite E. replace (u64 (u64 n + u64 (Z.of_nat (length (ents (fm_number fm))) * 64)))
      with (u64 (n + 64 * Z.of_nat (length (ents (fm_number fm))))).
    2:{ unfold u64. rewrite <- Zplus_mod. f_equal. lia. }
    rewrite IH, file_entries_cons, length_app. f_equal. lia.
Qed.

(** Only level 1 can ask for another compaction. *)
Lemma needs_compacted ents o outs :
  Forall (λ fm, footer_entry_count (footer_ (fm_table fm)) = Z.of_nat (length (ents (fm_number fm)))) outs →
  1 ≤ compaction_trigger o → 0 ≤ l1_max_bytes o →
  needs_compaction o (compacted outs) =
    (l1_max_bytes o <? u64 (64 * Z.of_nat (length (file_entries ents outs)))).
Proof.
  intros Hf Ht Hm. unfold needs_compaction. rewrite (proj2 (Z.leb_gt _ _)) by (simpl; lia).
  assert (level_bytes (compacted outs) 1 = u64 (64 * Z.of_nat (length (file_entries ents outs)))) as El.
  { unfold level_bytes. change (files_at (compacted outs) 1) with (sort_files outs).
    rewrite (level_sum ents _ 0) by (by rewrite sort_files_perm).
    by rewrite (file_entries_perm _ _ _ (sort_files_perm outs)). }
  cbn [orb kMaxLevels Nat.sub seq existsb]. rewrite El. unfold max_level_bytes. cbn [Nat.eqb Nat.sub Nat.iter].
  assert (∀ z, (u64 z <? 0) = false) as Hz
    by (intros z; apply Z.ltb_ge; unfold u64; pose proof (Z.mod_pos_bound z (2 ^ 64)); lia).
  change (level_bytes (compacted outs) 2) with 0. change (level_bytes (compacted outs) 3) with 0.
  change (level_bytes (compacted outs) 4) with 0. change (level_bytes (compacted outs) 5) with 0.
  unfold Nat.iter. cbn [nat_rect]. rewrite !Hz. by rewrite !orb_false_r.
Qed.

Lemma built_count `{PosixOk} ents outs :
  Forall (λ fm, ∃ bloom, file_built ents fm bloom) outs →
  Forall (λ fm, footer_entry_count (footer_ (fm_table fm)) = Z.of_nat (length (ents (fm_number fm)))) outs.
Proof.
  intros Hb. eapply Forall_impl; [exact Hb|]. intros fm [bloom Hfb].
  apply (th_count (content_of ents)). by apply (file_built_ok _ _ bloom).
Qed.

(** ** What a merge leaves alone *)

Lemma quiet_refl n db : 0 ≤ n → quiet n db db.
Proof. intros Hn. split; [done..|lia]. Qed.

Lemma quiet_trans a b db1 db2 db3 : quiet a db1 db2 → quiet b db2 db3 → quiet (a + b) db1 db3.
Proof. intros [] []. split; [congruence..|lia]. Qed.

Lemma quiet_le a b db db' : quiet a db db' → a ≤ b → quiet b db db'.
Proof. intros [] ?. split; [done..|lia]. Qed.

Lemma leaves_bind {A B} a b (m : dbm A) (f : A → dbm B) :
  leaves a m → 0 ≤ b → (∀ x, leaves b (f x)) → leaves (a + b) (x ← m; f x).
Proof.
  intros Hm Hb Hf db. specialize (Hm db). unfold mbind, dbm_bind.
  destruct (m db) as [db' [x| |]]; cbn [fst] in *; [|apply (quiet_le a); [done|lia]..].
  eapply quiet_trans; [done|apply Hf].
Qed.

Lemma leaves_bind_0 {A B} n (m : dbm A) (f : A → dbm B) :
  leaves 0 m → 0 ≤ n → (∀ x, leaves n (f x)) → leaves n (x ← m; f x).
Proof. apply (leaves_bind 0 n). Qed.

Lemma leaves_ret {A} n (x : A) : 0 ≤ n → leaves n (mret x).
Proof. intros Hn db. by apply quiet_refl. Qed.

Lemma leaves_liftr {A} (r : result A) : leaves 0 (liftr r).
Proof. intros db. by apply quiet_refl. Qed.

Lemma leaves_gets {A} (f : DB → A) : leaves 0 (gets f).
Proof. intros db. by apply quiet_refl. Qed.

Lemma leaves_with_cache {A} (m : cached A) : leaves 0 (with_cache m).
Proof. intros db. split; simpl; lia || done. Qed.

Lemma leaves_set_dir dir : leaves 0 (modify (set_dir dir)).
Proof. intros db. split; simpl; lia || done. Qed.

Lemma leaves_alloc : leaves 1 alloc_sst_number.
Proof. intros db. unfold alloc_sst_number. case_match; split; simpl; lia || done. Qed.

Create HintDb quiet.
#[export] Hint Resolve leaves_ret leaves_liftr leaves_gets leaves_with_cache leaves_set_dir leaves_alloc : quiet.

Ltac leave :=
  repeat first
    [ solve [auto with quiet lia]
    | apply leaves_bind_0; [solve [auto with quiet]|lia|intros ?]
    | case_match ].

Lemma leaves_finish `{Posix} level x : leaves 0 (finish_writer level x).
Proof. unfold finish_writer. leave. Qed.
#[export] Hint Resolve leaves_finish : quiet.

Lemma leaves_start x : leaves 1 (start_writer x).
Proof.
  unfold start_writer. leave. apply (leaves_bind 1 0); [apply leaves_alloc|done|]. intros num. leave.
Qed.

Lemma leaves_step `{Posix} oldest job x e : leaves 1 (compact_step oldest job x e).
Proof.
  unfold compact_step, write_kept. leave. apply (leaves_bind 1 0); [apply leaves_start|done|].
  intros x'. leave.
Qed.

Lemma leaves_round `{Posix} `{PriorityQueue} snap job oldest it x :
  leaves 1 (merge_round snap job oldest it x).
Proof.
  unfold merge_round. case_match; [|leave]. apply (leaves_bind 1 0); [apply leaves_step|done|].
  intros x'. leave.
Qed.

Lemma leaves_open `{Posix} `{PriorityQueue} snap job oldest : leaves 0 (open_merge snap job oldest).
Proof. unfold open_merge. leave. Qed.

Lemma leaves_at {A} n (m : dbm A) db db' r : leaves n m → m db = (db', r) → quiet n db db'.
Proof. intros Hm E. specialize (Hm db). by rewrite E in Hm. Qed.

(** What a commit changes. *)
Lemma commit_job_state `{PosixOk} snap job outs db :
  ∃ db', commit_job snap job outs db = (db', Ok Waiting) ∧
    current_version_ db' = commit (current_version_ db) job outs ∧
    compaction_pending_ db' =
      compaction_pending_ db || needs_compaction (opts_ db) (commit (current_version_ db) job outs) ∧
    compaction_running_ db' = false ∧ force_compact_ db' = force_compact_ db ∧
    opts_ db' = opts_ db ∧ next_sst_number_ db' = next_sst_number_ db ∧
    live_snapshots_ db' = live_snapshots_ db.
Proof.
  unfold commit_job, install_version. destruct outs as [|o outs].
  - erewrite dbm_bind_ok by reflexivity. by eexists.
  - erewrite dbm_bind_ok.
    2:{ erewrite dbm_bind_ok by reflexivity. erewrite dbm_bind_ok by apply append_manifest_ok.
        erewrite dbm_bind_ok by reflexivity. reflexivity. }
    erewrite dbm_bind_ok by reflexivity. by eexists.
Qed.

(** ** A round *)

Section RoundLemmas.
#[local] Set Default Proof Using "All".
Context `{PosixOk} `{PriorityQueueOk}.

Lemma worker_steps_app n m w db db' w' :
  worker_steps n w db = (db', Ok w') → worker_steps (n + m) w db = worker_steps m w' db'.
Proof using Type.
  revert w db. induction n as [|n IH]; intros w db; cbn [worker_steps Nat.add].
  - intros [= -> ->]. done.
  - unfold mbind, dbm_bind. destruct (worker_step w db) as [db1 [w1| |]]; [|done..]. apply IH.
Qed.

Lemma worker_steps_one w db db' w' :
  worker_step w db = (db', Ok w') → worker_steps 1 w db = (db', Ok w').
Proof using Type. intros E. cbn [worker_steps]. by erewrite dbm_bind_ok by exact E. Qed.

(** The merge loop ends: each pass looks at one entry. *)
Lemma merge_rounds_ok mes sp snap job oldest l total rest ents db it x done :
  refines ents mes db sp → merging ents db snap job oldest l total it x done rest →
  next_sst_number_ db + Z.of_nat (length rest) < 2 ^ 31 →
  ∃ db' ents' x', worker_steps (S (length rest)) (Merging snap job oldest it x) db =
      (db', Ok (Merged snap job (v_outputs x'))) ∧
    invisible mes sp ents db ents' db' ∧ quiet (Z.of_nat (length rest) + 1) db db' ∧
    job_ok ents' db' snap job oldest l total ∧
    written ents' db' (output_level job) total (total, []) x' ∧
    ∀ j, (j ≤ S (length rest))%nat → ∃ dbj wj n,
      worker_steps j (Merging snap job oldest it x) db = (dbj, Ok wj) ∧ quiet n db dbj.
Proof.
  revert ents db it x done. induction rest as [|e rest IH]; intros ents db it x done Href Hm Hn.
  - destruct (merge_round_end ents mes db sp snap job oldest l total it x done Href Hm)
      as (db' & x' & E & Hi & Hj & Hwr).
    pose proof (leaves_at 1 _ _ _ _ (leaves_round _ _ _ _ _) E) as Hq.
    exists db', ents, x'. split_and!; [|done|done|done|done|].
    + by apply worker_steps_one.
    + intros [|[|j]] Hj'; [eexists _, _, 0; split; [reflexivity|by apply quiet_refl]| |simpl in Hj'; lia].
      eexists _, _, 1. split; [by apply worker_steps_one|done].
  - cbn [length] in Hn.
    destruct (merge_round_valid ents mes db sp snap job oldest l total it x done e rest Href) as
      (db1 & ents1 & it1 & x1 & E & Hi & Hm1); [lia|done|].
    pose proof (leaves_at 1 _ _ _ _ (leaves_round _ _ _ _ _) E) as Hq.
    destruct (IH ents1 db1 it1 x1 (done ++ [e])) as (db' & ents' & x' & E' & Hi' & Hq' & Hj & Hwr & Hall);
      [apply Hi|done|pose proof (q_next _ _ _ Hq); lia|].
    exists db', ents', x'. split_and!; [|by eapply invisible_trans| |done|done|].
    + cbn [worker_steps length worker_step]. erewrite dbm_bind_ok by exact E. exact E'.
    + eapply quiet_le; [by eapply quiet_trans|]. simpl. lia.
    + intros [|j] Hj'; [eexists _, _, 0; split; [reflexivity|by apply quiet_refl]|].
      destruct (Hall j) as (dbj & wj & n & Ej & Hqj); [simpl in Hj'; lia|].
      eexists dbj, wj, (1 + n). split; [|by eapply quiet_trans].
      cbn [worker_steps worker_step]. erewrite dbm_bind_ok by exact E. exact Ej.
Qed.

(** A round of a job that has inputs. *)
Lemma round_ok ents mes db sp :
  let job := pick_compaction (opts_ db) (force_compact_ db) (current_version_ db) in
  let oldest := oldest_live_snapshot db in
  refines ents mes db sp → inputs job ≠ [] → job_safe (opts_ db) oldest (current_version_ db) job →
  next_sst_number_ db + Z.of_nat (length (job_entries job)) < 2 ^ 31 →
  ∃ db' ents' outs, worker_steps (round_steps job) Waiting db = (db', Ok Waiting) ∧
    refines ents' mes db' sp ∧
    current_version_ db' = commit (current_version_ db) job outs ∧
    compaction_pending_ db' = needs_compaction (opts_ db) (current_version_ db') ∧
    compaction_running_ db' = false ∧ force_compact_ db' = force_compact_ db ∧
    opts_ db' = opts_ db ∧ live_snapshots_ db' = live_snapshots_ db ∧
    next_sst_number_ db' ≤ next_sst_number_ db + Z.of_nat (length (job_entries job)) + 1 ∧
    ((λ fm, ents' (fm_number fm)) <$> outs) = job_files (opts_ db) oldest job ∧
    Forall (λ fm, ∃ bloom, file_built ents' fm bloom) outs ∧
    ∀ j, (0 < j < round_steps job)%nat → ∃ dbj wj,
      worker_steps j Waiting db = (dbj, Ok wj) ∧ compaction_running_ dbj = true.
Proof.
  intros job oldest Href Hin Hsafe Hn. pose proof (rf_rep _ _ _ _ Href) as Hdb.
  destruct (picked_job_ok ents mes db Hdb Hin Hsafe) as [Hj Eent]. fold job oldest in Hj, Eent.
  set (l := merge_sort ent_le (job_entries job)) in *. set (total := job_files (opts_ db) oldest job) in *.
  assert (length l = length (job_entries job)) as El by (unfold l; by rewrite merge_sort_Permutation).
  set (db1 := set_compaction false true (force_compact_ db) db).
  pose proof (set_compaction_invisible mes sp ents db false true (force_compact_ db) Href) as Hi1. fold db1 in Hi1.
  destruct (open_merge_ok ents mes db1 sp (current_version_ db) job oldest l total (proj1 Hi1))
    as (db2 & it & x & E2 & Hi2 & Hm); [by destruct Hj|].
  pose proof (leaves_at 0 _ _ _ _ (leaves_open _ _ _) E2) as Hq2.
  destruct (merge_rounds_ok mes sp (current_version_ db) job oldest l total l ents db2 it x [])
    as (db3 & ents3 & x3 & E3 & Hi3 & Hq3 & Hj3 & Hwr3 & Hall);
    [apply Hi2|done|pose proof (q_next _ _ _ Hq2) as Hq; simpl in Hq; lia|].
  destruct (commit_job_ok ents3 mes db3 sp (current_version_ db) job oldest l total x3) as (db4 & E4 & Href4 & _);
    [apply Hi3|done|done|].
  destruct (commit_job_state (current_version_ db) job (v_outputs x3) db3)
    as (db4' & E4' & Ev & Ep & Er & Ef & Eo & Enx & Elv).
  rewrite E4 in E4'. injection E4' as <-.
  pose proof (quiet_trans _ _ _ _ _ Hq2 Hq3) as [Qv Qp Qr Qf Qo Ql Qn]. cbn in Qv, Qp, Qr, Qf, Qo, Ql, Qn.
  assert (worker_steps 1 Waiting db = (db1, Ok (Picked (current_version_ db) job oldest))) as E1.
  { apply worker_steps_one. cbn [worker_step]. by rewrite pick_job_eq, bool_decide_eq_false_2 by done. }
  exists db4, ents3, (v_outputs x3). split_and!.
  - unfold round_steps. rewrite <- El.
    replace (length l + 4)%nat with (1 + (1 + (S (length l) + 1)))%nat by lia.
    erewrite worker_steps_app by exact E1. erewrite worker_steps_app by (apply worker_steps_one; exact E2).
    erewrite worker_steps_app by exact E3. by apply worker_steps_one.
  - done.
  - by rewrite Ev, Qv.
  - by rewrite Ep, Ev, Qp, Qv, Qo.
  - done.
  - by rewrite Ef.
  - by rewrite Eo.
  - by rewrite Elv.
  - lia.
  - apply (wr_outputs _ _ _ _ _ _ Hwr3).
  - eapply Forall_impl; [apply (wr_built _ _ _ _ _ _ Hwr3)|]. intros fm (_ & bloom & Hb & _). by exists bloom.
  - intros [|[|j]] Hjj; [lia|by eexists _, _|].
    destruct (Hall j) as (dbj & wj & n & Ej & Hqj); [unfold round_steps in Hjj; lia|].
    exists dbj, wj. replace (S (S j)) with (1 + (1 + j))%nat by lia.
    erewrite worker_steps_app by exact E1.
    erewrite worker_steps_app by (apply worker_steps_one; exact E2). split; [exact Ej|].
    by rewrite (q_running _ _ _ Hqj), (q_running _ _ _ Hq2).
Qed.

(** ** Forced compactions *)

(** Without live snapshots the outputs of a job never share a key. *)
Lemma snapshot_free_safe ents mes db :
  let job := pick_compaction (opts_ db) (force_compact_ db) (current_version_ db) in
  db_rep ents mes db → live_snapshots_ db = ∅ → inputs job ≠ [] → (1 ≤ output_level job)%nat →
  Forall (λ fm, smallest_key fm ≠ []) (files_at (current_version_ db) 0) → sst_fits (job_entries job) →
  job_safe (opts_ db) (oldest_live_snapshot db) (current_version_ db) job ∧
  oldest_live_snapshot db = u64_max.
Proof.
  intros job Hdb Hlive Hin Hout Hne Hfit.
  assert (oldest_live_snapshot db = u64_max) as Hold
    by (unfold oldest_live_snapshot; by rewrite Hlive, gmultiset_elements_empty).
  split; [|done]. rewrite Hold.
  pose proof (pick_closed _ _ _ (rep_pickable _ _ _ Hdb Hne) Hin Hout) as Hclosed. fold job in Hclosed.
  assert (job_entries job = file_entries ents (inputs job)) as Eent.
  { apply (job_entries_holds (content_of ents)), Forall_forall. intros fm Hfm.
    apply (rep_file_ok _ _ _ _ _ Hdb (rep_agrees _ _ _ _ Hdb)). by apply Hclosed. }
  destruct (split_safe (target_file_size (opts_ db)) u64_max (is_bottommost job)
    (merge_sort ent_le (job_entries job))) as [? ?]; [apply (StronglySorted_merge_sort ent_le)| |by split_and!].
  rewrite merge_sort_Permutation, Eent. eapply Forall_impl; [by eapply file_seqs; [|apply Hclosed]|].
  simpl. intros e He. pose proof (rep_next _ _ _ Hdb). unfold u64_max. lia.
Qed.

Lemma outs_entries (ents : Z → list Entry) outs total :
  ((λ fm, ents (fm_number fm)) <$> outs) = total → file_entries ents outs = mjoin total.
Proof using Type.
  intros <-. induction outs as [|fm outs IH]; [done|]. by rewrite file_entries_cons, fmap_cons, mjoin_cons, IH.
Qed.

Lemma forced_round ents mes db sp :
  let job := force_job (current_version_ db) in
  let total := job_files (opts_ db) (oldest_live_snapshot db) job in
  refines ents mes db sp → force_compact_ db = true →
  (2 ≤ length (mjoin (files (current_version_ db))))%nat →
  job_safe (opts_ db) (oldest_live_snapshot db) (current_version_ db) job →
  next_sst_number_ db + Z.of_nat (length (job_entries job)) < 2 ^ 31 →
  total ≠ [] → 1 ≤ compaction_trigger (opts_ db) → 0 ≤ l1_max_bytes (opts_ db) →
  ∃ db' ents' outs, worker_steps (round_steps job) Waiting db = (db', Ok Waiting) ∧
    refines ents' mes db' sp ∧ current_version_ db' = compacted outs ∧
    ((λ fm, ents' (fm_number fm)) <$> outs) = total ∧
    Forall (λ fm, ∃ bloom, file_built ents' fm bloom) outs ∧
    compaction_pending_ db' = (l1_max_bytes (opts_ db) <? u64 (64 * Z.of_nat (length (mjoin total)))) ∧
    compaction_running_ db' = false ∧ force_compact_ db' = true ∧ opts_ db' = opts_ db ∧
    live_snapshots_ db' = live_snapshots_ db ∧
    next_sst_number_ db' ≤ next_sst_number_ db + Z.of_nat (length (job_entries job)) + 1 ∧
    ∀ j, (0 < j < round_steps job)%nat → ∃ dbj wj,
      worker_steps j Waiting db = (dbj, Ok wj) ∧ compaction_running_ dbj = true.
Proof.
  intros job total Href Hforce Htwo Hsafe Hn Htot Htr Hm. pose proof (rf_rep _ _ _ _ Href) as Hdb.
  assert (pick_compaction (opts_ db) (force_compact_ db) (current_version_ db) = job) as Ej
    by (by rewrite Hforce).
  assert (inputs job ≠ []) as Hin.
  { unfold job, force_job. destruct (mjoin (files (current_version_ db))) as [|fm [|]]; simpl in *; [lia|lia|done]. }
  destruct (round_ok ents mes db sp Href) as (db' & ents' & outs & E & Href' & Ev & Ep & Er & Ef & Eo & El & En & Eouts
    & Hbuilt & Hall); rewrite ?Ej in *; [done..|].
  destruct (rep_files _ _ _ Hdb ents (rep_agrees _ _ _ _ Hdb)) as [[Hlen _ _] _].
  assert (outs ≠ []) as Hne by (intros ->; apply Htot; unfold total; by rewrite <- Eouts).
  pose proof (forced_commit _ outs Hlen Htwo Hne) as Ec. fold job in Ec. rewrite Ec in Ev.
  exists db', ents', outs. split_and!; try done; [|congruence].
  rewrite Ep, Ev, (needs_compacted ents') by (by try apply built_count).
  by rewrite (outs_entries ents' outs total).
Qed.

(** A forced compaction of what a forced compaction left does nothing more. *)
Lemma compacted_again ents outs target l :
  let total := split_files target (kept u64_max true ([], false) l) in
  sorted_entries l → Forall (λ e, e_seq e ≤ u64_max) l → (2 ≤ length total)%nat →
  ((λ fm, ents (fm_number fm)) <$> outs) = total →
  Forall (λ fm, ∃ bloom, file_built ents fm bloom) outs →
  let job := force_job (compacted outs) in
  job = mkJob 1 (sort_files outs) true ∧ job_entries job ≡ₚ mjoin total ∧
  split_files target (kept u64_max true ([], false) (merge_sort ent_le (job_entries job))) = total.
Proof.
  intros total Hs Hold Htwo Eouts Hb job.
  assert (length (sort_files outs) = length total) as Elen
    by (rewrite sort_files_perm, <- Eouts; by rewrite length_fmap).
  assert (job = mkJob 1 (sort_files outs) true) as Ejob.
  { unfold job, force_job. rewrite compacted_files, (proj2 (Nat.leb_le _ _)) by lia. done. }
  assert (job_entries job ≡ₚ mjoin total) as Hp.
  { rewrite (job_entries_holds (content_of ents) ents).
    - rewrite Ejob. cbn [inputs]. rewrite (file_entries_perm _ _ _ (sort_files_perm outs)).
      by rewrite (outs_entries ents outs total).
    - rewrite Ejob. cbn [inputs]. rewrite sort_files_perm. eapply Forall_impl; [exact Hb|].
      intros fm [bloom Hfb]. by apply (file_built_ok _ _ bloom). }
  split_and!; [done|done|]. unfold total in Hp. rewrite mjoin_split_files in Hp.
  set (r := kept u64_max true ([], false) l) in *.
  assert (Forall (λ e, e_seq e ≤ u64_max) r) as Hr.
  { rewrite Forall_forall in Hold |- *. intros e He%kept_elem. auto. }
  pose proof (kept_distinct u64_max true ([], false) l Hs Hold) as Hd. fold r in Hd.
  assert (merge_sort ent_le (job_entries job) = r) as ->.
  { symmetry. apply sorted_unique.
    - intros a b Ha Hb' Hk _. apply key_sorted_nodup in Hd. by eapply NoDup_fmap_elem.
    - by apply kept_sorted.
    - apply (StronglySorted_merge_sort ent_le).
    - by rewrite merge_sort_Permutation. }
  rewrite kept_id; [done|done|done|by apply kept_live|by left].
Qed.

(** The next round finds what this one left. *)
Lemma overfull_round ents mes db sp :
  let entries db := length (job_entries (force_job (current_version_ db))) in
  refines ents mes db sp → overfull db → next_sst_number_ db + Z.of_nat (entries db) < 2 ^ 31 →
  ∃ db' ents', worker_steps (round_steps (force_job (current_version_ db))) Waiting db = (db', Ok Waiting) ∧
    refines ents' mes db' sp ∧ overfull db' ∧ compaction_pending_ db' = true ∧
    next_sst_number_ db' ≤ next_sst_number_ db + Z.of_nat (entries db) + 1 ∧
    (entries db' ≤ entries db)%nat ∧
    ∀ j, (0 < j < round_steps (force_job (current_version_ db)))%nat → ∃ dbj wj,
      worker_steps j Waiting db = (dbj, Ok wj) ∧ compaction_running_ dbj = true.
Proof.
  intros entries Href (Hforce & Hlive & Htr & Hne & Hfit & Htwo & Ht2 & Hm) Hn.
  pose proof (rf_rep _ _ _ _ Href) as Hdb. set (job := force_job (current_version_ db)) in *.
  assert (job = mkJob 1 (mjoin (files (current_version_ db))) true) as Ejob
    by (unfold job, force_job; by rewrite (proj2 (Nat.leb_le _ _)) by done).
  assert (inputs job ≠ []) as Hin
    by (rewrite Ejob; cbn [inputs]; by destruct (mjoin (files (current_version_ db))); simpl in Htwo; [lia|]).
  destruct (snapshot_free_safe ents mes db Hdb Hlive) as [Hsafe Hold]; rewrite ?Hforce; cbn [pick_compaction];
    fold job; [done|by rewrite Ejob|done|done|].
  rewrite Hforce in Hsafe. cbn [pick_compaction] in Hsafe. fold job in Hsafe.
  destruct (picked_job_ok ents mes db Hdb) as [Hj _]; rewrite ?Hforce; [done|done|].
  rewrite Hforce, Hold in Hj. cbn [pick_compaction] in Hj. fold job in Hj.
  set (total := job_files (opts_ db) u64_max job) in *. set (l := merge_sort ent_le (job_entries job)) in *.
  destruct (forced_round ents mes db sp Href Hforce Htwo Hsafe Hn) as
    (db' & ents' & outs & E & Href' & Ev & Eouts & Hb & Ep & Er & Ef & Eo & El & En & Hall);
    rewrite ?Hold; fold job total; [by destruct total; simpl in Ht2; [lia|]|done|lia|].
  fold job in E, Eouts, Ep, En, Hall. rewrite Hold in Eouts, Ep. fold total in Eouts, Ep.
  rewrite (proj2 (Z.ltb_lt _ _)) in Ep by apply Hm.
  assert (Forall (λ e, e_seq e ≤ u64_max) l) as Hmax.
  { rewrite (jo_perm _ _ _ _ _ _ _ Hj).
    eapply Forall_impl; [by eapply input_seqs|]. simpl. intros e He. pose proof (rep_next _ _ _ Hdb).
    unfold u64_max. lia. }
  assert (total = split_files (target_file_size (opts_ db)) (kept u64_max true ([], false) l)) as Etot.
  { unfold total, job_files. by replace (is_bottommost job) with true by (by rewrite Ejob). }
  destruct (compacted_again ents' outs (target_file_size (opts_ db)) l) as (Ejob' & Hp & Etot');
    rewrite <- ?Etot; [apply Hj|done|done|done|done|]. rewrite <- Etot in Hp, Etot'.
  assert (mjoin total `sublist_of` l) as Hsub by (rewrite Etot, mjoin_split_files; apply kept_sublist).
  exists db', ents'. split_and!; try done.
  - unfold overfull. rewrite Ef, El, Eo, Ev. split_and!; try done.
    + unfold sst_fits in *. rewrite (encode_block_perm _ _ Hp).
      pose proof (encode_block_sublist _ _ Hsub). unfold l in *.
      rewrite (encode_block_perm _ _ (merge_sort_Permutation ent_le _)) in *. lia.
    + rewrite compacted_files, sort_files_perm. rewrite <- Eouts in Ht2. by rewrite length_fmap in Ht2.
    + unfold job_files. rewrite Ejob' at 1. cbn [is_bottommost]. by rewrite Etot'.
    + apply Hm.
    + unfold job_files. rewrite Ejob' at 1. cbn [is_bottommost]. rewrite Etot'. apply Hm.
  - unfold entries. rewrite Ev, Hp. apply sublist_length in Hsub. fold job. unfold l in Hsub.
    by rewrite merge_sort_Permutation in Hsub.
Qed.

Lemma overfull_spins mes sp n ents db :
  let entries := length (job_entries (force_job (current_version_ db))) in
  refines ents mes db sp → overfull db → compaction_pending_ db = true →
  next_sst_number_ db + Z.of_nat n * (Z.of_nat entries + 1) < 2 ^ 31 →
  ∃ k, (n ≤ k)%nat ∧ ∀ j, (j ≤ k)%nat →
    ∃ dbj wj, worker_steps j Waiting db = (dbj, Ok wj) ∧ compact_woken dbj = false.
Proof.
  revert ents db. induction n as [|n IH]; intros ents db entries Href Hov Hpend Hn.
  - exists 0%nat. split; [done|]. intros j Hj. assert (j = 0)%nat as -> by lia.
    exists db, Waiting. split; [done|]. unfold compact_woken. by rewrite Hpend.
  - destruct (overfull_round ents mes db sp Href Hov) as (db' & ents' & E & Href' & Hov' & Hp' & Hn' & He & Hall);
      [unfold entries in *; nia|].
    destruct (IH ents' db' Href' Hov' Hp') as (k & Hk & Hstep); [unfold entries in *; nia|].
    set (N := round_steps (force_job (current_version_ db))) in *.
    exists (N + k)%nat. split; [unfold N, round_steps; lia|]. intros j Hj.
    destruct (decide (j < N)%nat) as [Hlt|Hge].
    + destruct (decide (j = 0)%nat) as [->|Hz].
      * exists db, Waiting. split; [done|]. unfold compact_woken. by rewrite Hpend.
      * destruct (Hall j) as (dbj & wj & Ej & Hr); [lia|]. exists dbj, wj. split; [done|].
        unfold compact_woken. by rewrite Hr, andb_false_r.
    + destruct (Hstep (j - N)%nat) as (dbj & wj & Ej & Hw); [lia|]. exists dbj, wj. split; [|done].
      replace j with (N + (j - N))%nat by lia. by erewrite worker_steps_app by exact E.
Qed.

End RoundLemmas.

(** Asking for a compaction of everything. *)
Lemma compact_ask db :
  compact_done (current_version_ db) = false →
  (_ ← compact_begin; compact_poll) db =
    (set_compaction (compaction_pending_ db || negb (compaction_running_ db)) (compaction_running_ db) true db,
     Ok false).
Proof.
  intros Hd. erewrite dbm_bind_ok by reflexivity. unfold compact_poll.
  erewrite dbm_bind_ok by reflexivity. cbn [current_version_ set_compaction]. by rewrite Hd.
Qed.

Lemma compact_done_files v : compact_done v = false → (2 ≤ length (mjoin (files v)))%nat ∨ (kMaxLevels < length (files v))%nat.
Proof.
  unfold compact_done. intros [Hc _]%orb_false_elim. apply Z.leb_gt in Hc. revert Hc.
  unfold total_file_count, files_at. destruct v as [fs]. cbn [files].
  do 8 (destruct fs as [|? fs]; [left; revert Hc; simpl; rewrite ?length_app; simpl; lia|]).
  right. simpl. unfold kMaxLevels. lia.
Qed.

#[export] Instance overfull_dec `{Posix} db : Decision (overfull db).
Proof. unfold overfull, sst_fits. apply _. Defined.

#[export] Instance job_safe_dec `{Posix} o oldest v job : Decision (job_safe o oldest v job).
Proof. unfold job_safe, files_separate, sst_fits. apply _. Defined.

(** * Properties *)

(** A round of the compaction thread ends, after a number of steps known
    when the job is picked, and readers do not notice it. *)
Theorem round_terminates `{PosixOk} `{PriorityQueueOk} (db : DB) (sp : Spec)
    (job : CompactionJob) (Href : refined db sp)
    (Hjob : job = pick_compaction (opts_ db) (force_compact_ db) (current_version_ db))
    (Hin : inputs job ≠ [])
    (Hsafe : job_safe (opts_ db) (oldest_live_snapshot db) (current_version_ db) job)
    (Hnum : next_sst_number_ db + Z.of_nat (length (job_entries job)) < 2 ^ 31) :
  ∃ db' outs, worker_steps (round_steps job) Waiting db = (db', Ok Waiting) ∧
    current_version_ db' = commit (current_version_ db) job outs ∧ refined db' sp.
Proof.
  subst job. destruct Href as (ents & mes & Href).
  destruct (round_ok ents mes db sp Href Hin Hsafe Hnum) as (db' & ents' & outs & E & Href' & Ev & _).
  exists db', outs. split_and!; [done|done|by exists ents', mes].
Qed.

(** C12. [compact] returns: when nothing else is going on and the survivors fit
    into level 1, its request is carried out in one round, the caller is woken
    and leaves the loop with every table file on level 1. *)
Theorem compact_returns `{PosixOk} `{PriorityQueueOk} (db : DB) (sp : Spec)
    (job : CompactionJob) (total : list (list Entry)) (Href : refined db sp)
    (Hjob : job = force_job (current_version_ db))
    (Htotal : total = job_files (opts_ db) (oldest_live_snapshot db) job)
    (Hsafe : job_safe (opts_ db) (oldest_live_snapshot db) (current_version_ db) job)
    (Hnum : next_sst_number_ db + Z.of_nat (length (job_entries job)) < 2 ^ 31)
    (Htodo : compact_done (current_version_ db) = false) (Htr : 1 ≤ compaction_trigger (opts_ db))
    (Hsome : total ≠ []) (Hfit : 64 * Z.of_nat (length (mjoin total)) ≤ l1_max_bytes (opts_ db) < 2 ^ 64) :
  ∃ db1 db2 db' outs, (_ ← compact_begin; compact_poll) db = (db1, Ok false) ∧
    worker_steps (round_steps job) Waiting db1 = (db2, Ok Waiting) ∧ compact_woken db2 = true ∧
    compact_poll db2 = (db', Ok true) ∧ current_version_ db' = compacted outs ∧
    force_compact_ db' = false ∧ refined db' sp.
Proof.
  subst job total. destruct Href as (ents & mes & Href). pose proof (rf_rep _ _ _ _ Href) as Hdb.
  destruct (rep_files _ _ _ Hdb ents (rep_agrees _ _ _ _ Hdb)) as [[Hlen _ _] _].
  pose proof (compact_ask db Htodo) as E1. eexists _. destruct (compact_done_files _ Htodo) as [Htwo|?]; [|lia].
  match type of E1 with _ = (?d, _) => set (db1 := d) in * end.
  destruct (forced_round ents mes db1 sp) as (db2 & ents2 & outs & E2 & Href2 & Ev & _ & _ & Ep & Er & _);
    [by apply (set_compaction_invisible mes sp ents db)|done..|change (opts_ db1) with (opts_ db); lia|].
  change (opts_ db1) with (opts_ db) in Ep.
  change (current_version_ db1) with (current_version_ db) in Ep.
  change (oldest_live_snapshot db1) with (oldest_live_snapshot db) in Ep.
  rewrite u64_small, (proj2 (Z.ltb_ge _ _)) in Ep by lia.
  eexists db2, _, outs. split_and!; [exact E1|exact E2|unfold compact_woken; by rewrite Ep, Er|..].
  - unfold compact_poll. erewrite dbm_bind_ok by reflexivity. rewrite Ev, compacted_done.
    erewrite dbm_bind_ok by reflexivity. reflexivity.
  - done.
  - done.
  - exists ents2, mes. by apply (set_compaction_invisible mes sp ents2 db2).
Qed.

(** [compact] does not return when everything that is left has been deleted.
    The round writes no file, so the commit changes nothing: the version still
    lists the inputs, and the loop asks for the same compaction again. *)
Theorem compact_tombstones_stuck `{PosixOk} `{PriorityQueueOk} (db : DB) (sp : Spec)
    (job : CompactionJob) (Href : refined db sp) (Hjob : job = force_job (current_version_ db))
    (Hforce : force_compact_ db = true) (Htodo : compact_done (current_version_ db) = false)
    (Hsafe : job_safe (opts_ db) (oldest_live_snapshot db) (current_version_ db) job)
    (Hnum : next_sst_number_ db + Z.of_nat (length (job_entries job)) < 2 ^ 31)
    (Hnone : job_files (opts_ db) (oldest_live_snapshot db) job = []) :
  ∃ db' db'', worker_steps (round_steps job) Waiting db = (db', Ok Waiting) ∧
    compact_poll db' = (db'', Ok false) ∧ current_version_ db'' = current_version_ db ∧
    force_compact_ db'' = true ∧ compaction_pending_ db'' = true ∧ refined db'' sp.
Proof.
  subst job. destruct Href as (ents & mes & Href). pose proof (rf_rep _ _ _ _ Href) as Hdb.
  destruct (rep_files _ _ _ Hdb ents (rep_agrees _ _ _ _ Hdb)) as [[Hlen _ _] _].
  destruct (compact_done_files _ Htodo) as [Htwo|?]; [|lia].
  assert (pick_compaction (opts_ db) (force_compact_ db) (current_version_ db) =
    force_job (current_version_ db)) as Ej by (by rewrite Hforce).
  destruct (round_ok ents mes db sp Href) as
    (db' & ents' & outs & E & Href' & Ev & _ & Er & Ef & _ & _ & _ & Eouts & _); rewrite ?Ej in *; [|done..|].
  { unfold force_job. by destruct (mjoin (files (current_version_ db))) as [|fm [|]]; simpl in Htwo; [lia|lia|]. }
  rewrite Hnone in Eouts. apply fmap_nil_inv in Eouts as ->. cbn [commit] in Ev.
  eexists db', _. split_and!; [done|unfold compact_poll; erewrite dbm_bind_ok by reflexivity;
    rewrite Ev, Htodo; erewrite dbm_bind_ok by reflexivity; reflexivity|..].
  - done.
  - cbn. congruence.
  - cbn. by rewrite Er, orb_true_r.
  - exists ents', mes. by apply (set_compaction_invisible mes sp ents' db').
Qed.

(** C38. [compact] does not return either when what survives is too big for level
    1 and takes more than one file: the thread, which still sees the force
    flag, asks itself for the same compaction at the end of every round, and
    the caller waits for a moment without a request.  This goes on until the
    file numbers overflow. *)
Theorem compact_spins `{PosixOk} `{PriorityQueueOk} (db : DB) (sp : Spec) (n entries : nat)
    (Href : refined db sp) (Hover : overfull db) (Hpend : compaction_pending_ db = true)
    (Hentries : entries = length (job_entries (force_job (current_version_ db))))
    (Hnum : next_sst_number_ db + Z.of_nat n * (Z.of_nat entries + 1) < 2 ^ 31) :
  ∃ k, (n ≤ k)%nat ∧ ∀ j, (j ≤ k)%nat →
    ∃ dbj wj, worker_steps j Waiting db = (dbj, Ok wj) ∧ compact_woken dbj = false.
Proof. subst entries. destruct Href as (ents & mes & Href). by eapply overfull_spins. Qed.

(** Without live snapshots a job never splits the versions of a key over two
    outputs or two blocks: what is left of the conditions of use is that the
    job is not the rewrite of a single file to level 0, that the ranges of
    level 0 are not empty strings, and that the inputs fit into a file. *)
Theorem snapshot_free_job `{PosixOk} (db : DB) (sp : Spec) (job : CompactionJob)
    (Href : refined db sp) (Hlive : live_snapshots_ db = ∅)
    (Hjob : job = pick_compaction (opts_ db) (force_compact_ db) (current_version_ db))
    (Hin : inputs job ≠ []) (Hout : (1 ≤ output_level job)%nat)
    (Hne : Forall (λ fm, smallest_key fm ≠ []) (files_at (current_version_ db) 0))
    (Hfit : sst_fits (job_entries job)) :
  worker_safe db Waiting.
Proof.
  subst job. destruct Href as (ents & mes & Href). intros _.
  by apply (snapshot_free_safe (H1 := first_pq) ents mes db (rf_rep _ _ _ _ Href)).
Qed.

(** ** Witnesses *)

(** A batch to a table file each. *)
Definition table_calls (batches : list (list WriteRequest)) : list call :=
  b ← batches; [CallWrite b []; CallFlush].

Definition ex_tables (o : Options) (batches : list (list WriteRequest)) : DB :=
  (run_calls (H := ex_posix) (H0 := first_pq) (table_calls batches) (DB_new o)).1.

Lemma ex_tables_refined o batches :
  0 ≤ block_cache_bytes o < 2 ^ 63 →
  bool_decide (calls_safe (H := ex_posix) (H0 := first_pq) (DB_new o) (table_calls batches)) = true →
  ∃ sp, refined (H := ex_posix) (ex_tables o batches) sp.
Proof.
  intros Ho Hs%bool_decide_eq_true.
  destruct (calls_refined (H := ex_posix) (H1 := first_pq) (DB_new o) (mkSpec ∅ []) (table_calls batches))
    as (db & rs & sp & E & _ & Href); [by apply DB_new_refined|done|].
  exists sp. unfold ex_tables. by rewrite E.
Qed.

Definition ex_two : list (list WriteRequest) :=
  [[put_request (bs "a") (bs "1")]; [put_request (bs "b") (bs "2"); del_request (bs "a")]].

Definition ex_gone : list (list WriteRequest) :=
  [[put_request (bs "a") (bs "1")]; [del_request (bs "a")]].

Definition ex_three : list (list WriteRequest) :=
  [[put_request (bs "a") (bs "1")]; [put_request (bs "b") (bs "2"); put_request (bs "c") (bs "3")]].

(** Level 1 is full with two entries, and a file is full with one. *)
Definition tight_options : Options := {|
  opt_sync := EveryWrite; flush_threshold_bytes := 4096; compaction_trigger := 4;
  block_cache_bytes := 1000; target_file_size := 10; l1_max_bytes := 128;
  level_size_multiplier := 10;
|}.

Lemma forced_pick pending running db :
  let db' := set_compaction pending running true db in
  force_job (current_version_ db) =
    pick_compaction (opts_ db') (force_compact_ db') (current_version_ db').
Proof. done. Qed.

Lemma forced_job_eq pending running force db :
  force_job (current_version_ db) = force_job (current_version_ (set_compaction pending running force db)).
Proof. done. Qed.

Lemma forced_flags pending running force db :
  let db' := set_compaction pending running force db in
  force_compact_ db' = force ∧ compaction_pending_ db' = pending.
Proof. done. Qed.

Lemma ex_two_steps :
  round_steps (H := ex_posix) (force_job (current_version_ (ex_tables torn_options ex_two))) = 7%nat.
Proof. by vm_compute. Qed.

Lemma round_terminates_witness :
  ∃ db', worker_steps (H := ex_posix) (H0 := first_pq) 7 Waiting
    (set_compaction true false true (ex_tables torn_options ex_two)) = (db', Ok Waiting).
Proof.
  destruct (ex_tables_refined torn_options ex_two) as (sp & ents & mes & Href); [done|by vm_compute|].
  destruct (round_terminates (H := ex_posix) (H1 := first_pq)
    (set_compaction true false true (ex_tables torn_options ex_two)) sp
    (force_job (current_version_ (ex_tables torn_options ex_two)))) as (db' & outs & E & _).
  - exists ents, mes. by apply (set_compaction_invisible (H := ex_posix) (H1 := first_pq) mes sp ents).
  - apply forced_pick.
  - by vm_compute.
  - apply (bool_decide_unpack _). vm_compute. exact I.
  - by vm_compute.
  - exists db'. rewrite ex_two_steps in E. exact E.
Defined.

Lemma compact_returns_witness :
  ∃ db1 db2 db' outs, (_ ← compact_begin; compact_poll) (ex_tables torn_options ex_two) = (db1, Ok false) ∧
    worker_steps (H := ex_posix) (H0 := first_pq) 7 Waiting db1 = (db2, Ok Waiting) ∧
    compact_woken db2 = true ∧ compact_poll db2 = (db', Ok true) ∧ current_version_ db' = compacted outs.
Proof.
  destruct (ex_tables_refined torn_options ex_two) as [sp Href]; [done|by vm_compute|].
  destruct (compact_returns (H := ex_posix) (H1 := first_pq) (ex_tables torn_options ex_two) sp
    (force_job (current_version_ (ex_tables torn_options ex_two))) _ Href eq_refl eq_refl)
    as (db1 & db2 & db' & outs & E1 & E2 & E3 & E4 & E5 & _).
  - apply (bool_decide_unpack _). vm_compute. exact I.
  - by vm_compute.
  - by vm_compute.
  - by vm_compute.
  - by vm_compute.
  - by vm_compute.
  - rewrite ex_two_steps in E2. exists db1, db2, db', outs. repeat split; assumption.
Defined.

Lemma ex_gone_steps :
  round_steps (H := ex_posix) (force_job (current_version_ (ex_tables torn_options ex_gone))) = 6%nat.
Proof. by vm_compute. Qed.

Lemma compact_tombstones_stuck_witness :
  ∃ db' db'', worker_steps (H := ex_posix) (H0 := first_pq) 6 Waiting
      (set_compaction true false true (ex_tables torn_options ex_gone)) = (db', Ok Waiting) ∧
    compact_poll db' = (db'', Ok false) ∧ compaction_pending_ db'' = true.
Proof.
  destruct (ex_tables_refined torn_options ex_gone) as (sp & ents & mes & Href); [done|by vm_compute|].
  destruct (compact_tombstones_stuck (H := ex_posix) (H1 := first_pq)
    (set_compaction true false true (ex_tables torn_options ex_gone)) sp
    (force_job (current_version_ (ex_tables torn_options ex_gone))))
    as (db' & db'' & E1 & E2 & _ & _ & E3 & _).
  - exists ents, mes. by apply (set_compaction_invisible (H := ex_posix) (H1 := first_pq) mes sp ents).
  - apply forced_job_eq.
  - apply forced_flags.
  - by vm_compute.
  - apply (bool_decide_unpack _). vm_compute. exact I.
  - by vm_compute.
  - by vm_compute.
  - rewrite ex_gone_steps in E1. exists db', db''. repeat split; assumption.
Defined.

Lemma compact_spins_witness :
  ∃ k, (1000 ≤ k)%nat ∧ ∀ j, (j ≤ k)%nat → ∃ dbj wj,
    worker_steps (H := ex_posix) (H0 := first_pq) j Waiting
      (set_compaction true false true (ex_tables tight_options ex_three)) = (dbj, Ok wj) ∧
    compact_woken dbj = false.
Proof.
  destruct (ex_tables_refined tight_options ex_three) as (sp & ents & mes & Href); [done|by vm_compute|].
  apply (compact_spins (H := ex_posix) (H1 := first_pq)
    (set_compaction true false true (ex_tables tight_options ex_three)) sp _ 3).
  - exists ents, mes. by apply (set_compaction_invisible (H := ex_posix) (H1 := first_pq) mes sp ents).
  - apply (bool_decide_unpack _). vm_compute. exact I.
  - apply forced_flags.
  - by vm_compute.
  - by vm_compute.
Defined.

Lemma snapshot_free_job_witness :
  worker_safe (H := ex_posix) (set_compaction true false true (ex_tables torn_options ex_two)) Waiting.
Proof.
  destruct (ex_tables_refined torn_options ex_two) as (sp & ents & mes & Href); [done|by vm_compute|].
  apply (snapshot_free_job (H := ex_posix)
    (set_compaction true false true (ex_tables torn_options ex_two)) sp
    (force_job (current_version_ (ex_tables torn_options ex_two)))).
  - exists ents, mes. by apply (set_compaction_invisible (H := ex_posix) (H1 := first_pq) mes sp ents).
  - by vm_compute.
  - apply forced_pick.
  - by vm_compute.
  - vm_compute. lia.
  - apply (bool_decide_unpack _). vm_compute. exact I.
  - by vm_compute.
Defined.
