(* ===== verification/Store.v ===== *)
(** The store as a whole: clients, the compaction thread and crashes.

    A schedule interleaves calls of clients with steps of the compaction thread
    of Background.v and with the polls of [DB::compact].  The contract is that
    of Db.v: clients cannot tell that there is a compaction thread. *)

From stdpp Require Import gmultiset.
From S2P Require Import Prelude Coding Wal Entry Manifest Memtable BlockCache SSTableWriter SSTable MergeIterator Version Compaction Levels Db Recovery Background Worker Round.
Local Open Scope Z_scope.

(** * Definitions *)

(** ** Schedules *)

Inductive action : Type :=
| Client (c : call)
| Background
| CompactBegin
| CompactPoll.

(** What an action returns to a client. *)
Inductive outcome : Type :=
| Returned (r : response)
| Polled (finished : bool)
| Silent.

Definition system : Type := DB * Worker.

Section StoreOps.
Context `{Posix} `{PriorityQueue}.

(** A thread that waits for its condition makes no step. *)
Definition run_action (a : action) (s : system) : system * result outcome :=
  match a with
  | Client c =>
      let r := run_call c s.1 in
      ((r.1, s.2), (res ← r.2; Ok (Returned res)))
  | Background =>
      if worker_ready s.1 s.2 then
        match worker_step s.2 s.1 with
        | (db', Ok w') => ((db', w'), Ok Silent)
        | (db', Throw msg) => ((db', s.2), Throw msg)
        | (db', Undefined) => ((db', s.2), Undefined)
        end
      else (s, Ok Silent)
  | CompactBegin => let r := compact_begin s.1 in ((r.1, s.2), (_ ← r.2; Ok Silent))
  | CompactPoll => let r := compact_poll s.1 in ((r.1, s.2), (b ← r.2; Ok (Polled b)))
  end.

Fixpoint run_schedule (acts : list action) (s : system) : system * result (list outcome) :=
  match acts with
  | [] => (s, Ok [])
  | a :: acts' =>
      match run_action a s with
      | (s', Ok o) =>
          let r := run_schedule acts' s' in (r.1, (os ← r.2; Ok (o :: os)))
      | (s', Throw msg) => (s', Throw msg)
      | (s', Undefined) => (s', Undefined)
      end
  end.

(** ** The conditions of use *)

Definition action_safe (a : action) (s : system) : Prop :=
  match a with
  | Client c => call_safe s.1 c
  | Background => worker_ready s.1 s.2 = true → worker_safe s.1 s.2
  | _ => True
  end.

Fixpoint schedule_safe (acts : list action) (s : system) : Prop :=
  match acts with
  | [] => True
  | a :: acts' => action_safe a s ∧ schedule_safe acts' (run_action a s).1
  end.

(** ** The contract *)

(** Only the actions of clients show; the thread and the polls do nothing. *)
Inductive spec_action (sp : Spec) : action → outcome → Spec → Prop :=
| spec_client c r sp' : spec_step sp c r sp' → spec_action sp (Client c) (Returned r) sp'
| spec_background : spec_action sp Background Silent sp
| spec_compact_begin : spec_action sp CompactBegin Silent sp
| spec_compact_poll b : spec_action sp CompactPoll (Polled b) sp.

Inductive spec_schedule : Spec → list action → list outcome → Spec → Prop :=
| spec_schedule_nil sp : spec_schedule sp [] [] sp
| spec_schedule_cons sp a o sp' acts os sp'' :
    spec_action sp a o sp' → spec_schedule sp' acts os sp'' →
    spec_schedule sp (a :: acts) (o :: os) sp''.

(** The store implements the contract, whatever the thread is doing. *)
Definition store_refined (s : system) (sp : Spec) : Prop :=
  ∃ ents mes, refines ents mes s.1 sp ∧ worker_ok ents s.1 s.2.

(** What the parts of a database take for granted of one another.  The numbers
    of the files are distinct and below the counter, snapshots are sequence
    numbers that have been given out, the memtable is sorted.  There are
    contents of the files such that every table is the image of its contents
    and lies within its key range, the files of a level above 0 are disjoint
    and ascending, the cache holds blocks of these files within its capacity,
    and each layer of a read has newer versions of a key than the next, all of
    them distinct and numbered below the counter. *)
Record consistent (db : DB) : Prop := {
  co_numbers : Forall (λ fm, fm_number fm < next_sst_number_ db) (mjoin (files (current_version_ db)));
  co_once : NoDup (fm_number <$> mjoin (files (current_version_ db)));
  co_snapshots s : s ∈ live_snapshots_ db → 0 ≤ s < next_seq_ db;
  co_memtable : sorted_entries (mem_entries (memtable_ db));
  co_contents : ∃ ents, version_ok (content_of ents) ents (current_version_ db) ∧
    cache_ok (content_of ents) (cache_ db) ∧
    layers_ok (next_seq_ db) (mem_entries (memtable_ db) :: version_layers ents (current_version_ db));
}.

(** ** Lives of a store *)

(** The writes of an action. *)
Definition action_writes (a : action) : list WriteRequest :=
  match a with Client c => call_writes c | _ => [] end.

(** The action is safe and the manifest it leaves can be read back. *)
Definition action_durable (a : action) (s : system) : Prop :=
  action_safe a s ∧ manifest_fits (run_action a s).1.1.

Fixpoint schedule_durable (acts : list action) (s : system) : Prop :=
  match acts with
  | [] => True
  | a :: acts' => action_durable a s ∧ schedule_durable acts' (run_action a s).1
  end.

(** The number of records in the log. *)
Definition log_records (db : DB) : nat := length (replay (Some (f_data (wal_file (wal_ db))))).

(** Whether all writes are on the medium after an action: a write with a sync
    puts everything before it there too, one without a sync is not there. *)
Definition settles (a : action) (s : system) (settled : bool) : bool :=
  if decide (action_writes a = []) then settled else bool_decide (opt_sync (opts_ s.1) = EveryWrite).

(** Whether the writes are on the medium after a schedule. *)
Fixpoint settles_all (acts : list action) (s : system) (settled : bool) : bool :=
  match acts with
  | [] => settled
  | a :: acts' => settles_all acts' (run_action a s).1 (settles a s settled)
  end.

(** A store that has seen any number of actions, crashes and reopenings, with
    any options, the writes it has acknowledged and kept, and whether these are
    all on the medium.  A crash can come between any two actions, among them
    the steps of the compaction thread, which starts afresh; it takes away the
    writes at the end of the log that do not come back.  Truncations of the log
    may be undone when all writes are on the medium; otherwise they must have
    reached it.  The end of a process without a crash takes away nothing, and
    brings nothing to the medium. *)
Inductive lives : system → list WriteRequest → bool → Prop :=
| lives_new o coins db :
    0 ≤ block_cache_bytes o < 2 ^ 63 → db_open (mkDisk None None ∅) o coins = Ok db →
    lives (db, Waiting) [] true
| lives_action s hist settled a s' out :
    lives s hist settled → action_durable a s → run_action a s = (s', Ok out) →
    lives s' (hist ++ action_writes a) (settles a s settled)
| lives_crash s hist settled d o coins db' :
    lives s hist settled → crash_disk s.1 d → settled = true ∨ truncations_kept s.1 d →
    log_fits s.1 → 0 ≤ block_cache_bytes o < 2 ^ 63 → db_open d o coins = Ok db' →
    lives (db', Waiting) (take (length hist - lost s.1 d) hist) true
| lives_close s hist settled o coins db' :
    lives s hist settled → log_fits s.1 →
    0 ≤ block_cache_bytes o < 2 ^ 63 → db_open (disk_of s.1) o coins = Ok db' →
    lives (db', Waiting) hist settled.

(** ** The end of a process *)

(** The entries that the job of the thread can have left to merge. *)
Definition worker_entries (w : Worker) : nat :=
  match w with
  | Picked _ job _ | Merging _ job _ _ _ => length (job_entries job)
  | _ => 0
  end.

(** The thread when [stop_] is set: it ends its round and takes no other job. *)
Fixpoint finish_round (fuel : nat) (s : system) : system * result unit :=
  match s.2, fuel with
  | Waiting, _ => (s, Ok tt)
  | _, O => (s, Undefined)
  | _, S fuel' =>
      match run_action Background s with
      | (s', Ok _) => finish_round fuel' s'
      | (s', Throw msg) => (s', Throw msg)
      | (s', Undefined) => (s', Undefined)
      end
  end.

(** [~DB]: a round opens the merge, looks at each entry and at the end of the
    inputs, and commits. *)
Definition db_close (s : system) : system * result unit := finish_round (worker_entries s.2 + 3) s.

(** The steps of the round are within the conditions of use. *)
Fixpoint round_durable (fuel : nat) (s : system) : Prop :=
  match s.2, fuel with
  | Waiting, _ | _, O => True
  | _, S fuel' => action_durable Background s ∧ round_durable fuel' (run_action Background s).1
  end.

Definition close_durable (s : system) : Prop :=
  round_durable (worker_entries s.2 + 3) s ∧ log_fits (db_close s).1.1.

(** What a directory holds: nothing, or what a life has left there. *)
Definition stored_on (d : Disk) (m : gmap bytes bytes) : Prop :=
  d = mkDisk None None ∅ ∧ m = ∅ ∨
  ∃ s hist settled, lives s hist settled ∧ m = fold_left spec_write hist ∅ ∧ d = disk_of s.1 ∧ log_fits s.1.

End StoreOps.

(** * Lemmas *)

Section StoreLemmas.
#[local] Set Default Proof Using "All".
Context `{PosixOk} `{PriorityQueueOk}.

(** The flags of the compaction show to nobody. *)
Lemma flags_ok ents mes db sp w pending running force :
  refines ents mes db sp → worker_ok ents db w →
  let db' := set_compaction pending running force db in
  refines ents mes db' sp ∧ worker_ok ents db' w ∧
  (∀ j, durable j ents mes db → durable j ents mes db').
Proof.
  intros Href Hw db'. destruct (set_compaction_invisible mes sp ents db pending running force Href)
    as (Href' & Hg & Hdu). split_and!; [done| |done].
  apply (worker_evolves ents mes db sp ents mes db' sp); [done| |done|done]. by split.
Qed.

Lemma is_client a : (∃ c, a = Client c) ∨ (∀ c, a ≠ Client c).
Proof using Type. destruct a as [c| | |]; [left; by exists c|by right..]. Qed.

(** The steps that are not calls of clients. *)
Lemma internal_ok ents mes s sp a :
  refines ents mes s.1 sp → worker_ok ents s.1 s.2 → action_safe a s →
  (∀ c, a ≠ Client c) →
  ∃ s' o ents', run_action a s = (s', Ok o) ∧ spec_action sp a o sp ∧
    refines ents' mes s'.1 sp ∧ worker_ok ents' s'.1 s'.2 ∧ keeps_files ents s.1 ents' s'.1 ∧
    (∀ j, durable j ents mes s.1 → manifest_fits s'.1 → durable j ents' mes s'.1).
Proof.
  destruct s as [db w]. cbn [fst snd]. intros Href Hw Hsafe Hint.
  assert (∀ pending running force o, spec_action sp a o sp →
    run_action a (db, w) = ((set_compaction pending running force db, w), Ok o) →
    ∃ s' o ents', run_action a (db, w) = (s', Ok o) ∧ spec_action sp a o sp ∧
      refines ents' mes s'.1 sp ∧ worker_ok ents' s'.1 s'.2 ∧ keeps_files ents db ents' s'.1 ∧
      (∀ j, durable j ents mes db → manifest_fits s'.1 → durable j ents' mes s'.1)) as Hflags.
  { intros p r f o Hsp E. destruct (flags_ok ents mes db sp w p r f Href Hw) as (? & ? & ?).
    eexists _, o, ents. split_and!; [exact E|done..| |auto]. by split. }
  destruct a as [c| | |]; [by destruct (Hint c)|..]; cbn [run_action fst snd] in *.
  - destruct (worker_ready db w) eqn:Hr.
    + destruct (worker_step_ok ents mes db sp w Href Hw (Hsafe Hr))
        as (db' & ents' & w' & E & Href' & Hw' & Hk & Hdu).
      rewrite E. exists (db', w'), Silent, ents'. by split_and!; [|constructor|..].
    + exists (db, w), Silent, ents. split_and!; [done|constructor|done|done|by split|done].
  - by eapply Hflags; [constructor|].
  - unfold compact_poll in *. erewrite dbm_bind_ok in * by reflexivity.
    destruct (compact_done (current_version_ db)); by eapply Hflags; [constructor|].
Qed.

(** Every action returns and follows the contract. *)
Lemma action_ok ents mes s sp a :
  refines ents mes s.1 sp → worker_ok ents s.1 s.2 → action_safe a s →
  ∃ s' o sp' ents' mes', run_action a s = (s', Ok o) ∧ spec_action sp a o sp' ∧
    refines ents' mes' s'.1 sp' ∧ worker_ok ents' s'.1 s'.2 ∧ keeps_files ents s.1 ents' s'.1.
Proof.
  intros Href Hw Hsafe. destruct (is_client a) as [[c ->]|Hn].
  - destruct s as [db w]. cbn [run_action fst snd] in *.
    destruct (call_refines ents mes db sp c Href Hsafe)
      as (db' & r & sp' & ents' & mes' & E & Hs & Href' & Hev).
    rewrite E. exists (db', w), (Returned r), sp', ents', mes'.
    split_and!; [done|by constructor|done| |apply grows_keeps, Hev].
    by apply (worker_evolves ents mes db sp ents' mes' db' sp').
  - destruct (internal_ok ents mes s sp a Href Hw Hsafe) as (s' & o & ents' & E & Hs & Href' & Hw' & Hk & _);
      [done|].
    by exists s', o, sp, ents', mes.
Qed.

(** And the disk keeps up with it. *)
Lemma action_durably j ents mes s sp a :
  refines ents mes s.1 sp → worker_ok ents s.1 s.2 → durable j ents mes s.1 → action_durable a s →
  ∃ s' o sp' j' ents' mes', run_action a s = (s', Ok o) ∧ spec_action sp a o sp' ∧
    j_next j (action_writes a) j' ∧
    refines ents' mes' s'.1 sp' ∧ worker_ok ents' s'.1 s'.2 ∧ durable j' ents' mes' s'.1 ∧
    keeps_files ents s.1 ents' s'.1.
Proof.
  intros Href Hw Hdu [Hsafe Hfit]. destruct (is_client a) as [[c ->]|Hn].
  - destruct s as [db w]. cbn [run_action fst snd] in *.
    destruct (call_durably j ents mes db sp c Href Hdu)
      as (db' & r & sp' & E & Hs & j' & ents' & mes' & Hj & Href' & Hdu' & Hev); [by split|].
    rewrite E. exists (db', w), (Returned r), sp', j', ents', mes'.
    split_and!; [done|by constructor|done|done| |done|apply grows_keeps, Hev].
    by apply (worker_evolves ents mes db sp ents' mes' db' sp').
  - destruct (internal_ok ents mes s sp a Href Hw Hsafe) as (s' & o & ents' & E & Hs & Href' & Hw' & Hk & Hdu');
      [done|].
    rewrite E in Hfit. exists s', o, sp, j, ents', mes. split_and!; auto.
    left. destruct a as [c| | |]; [by destruct (Hn c)|..]; by rewrite j_commit_nil.
Qed.

Lemma store_step s sp a :
  store_refined s sp → action_safe a s →
  ∃ s' o sp', run_action a s = (s', Ok o) ∧ spec_action sp a o sp' ∧ store_refined s' sp'.
Proof.
  intros (ents & mes & Href & Hw) Hsafe.
  destruct (action_ok ents mes s sp a Href Hw Hsafe) as (s' & o & sp' & ents' & mes' & E & Hs & ? & ? & _).
  exists s', o, sp'. split_and!; [done..|]. by exists ents', mes'.
Qed.

Lemma schedule_ok s sp acts :
  store_refined s sp → schedule_safe acts s →
  ∃ s' os sp', run_schedule acts s = (s', Ok os) ∧ spec_schedule sp acts os sp' ∧ store_refined s' sp'.
Proof.
  revert s sp. induction acts as [|a acts IH]; intros s sp Href Hsafe.
  - exists s, [], sp. by split_and!; [|constructor|].
  - destruct Hsafe as [Ha Hsafe]. destruct (store_step s sp a Href Ha) as (s1 & o & sp1 & E & Hs & Href1).
    cbn [run_schedule]. rewrite E in Hsafe |- *.
    destruct (IH s1 sp1 Href1 Hsafe) as (s' & os & sp' & E' & Hs' & Href').
    rewrite E'. exists s', (o :: os), sp'. by split_and!; [|econstructor|].
Qed.

Lemma refines_consistent ents mes db sp : refines ents mes db sp → consistent db.
Proof.
  intros Href. pose proof (rf_rep _ _ _ _ Href) as Hdb.
  destruct (rep_files _ _ _ Hdb ents (rep_agrees _ _ _ _ Hdb)) as [Hv Hc].
  split; rewrite ?(mem_entries_represents _ mes) by apply Hdb; try apply Hdb.
  - intros s Hs. rewrite (rf_live _ _ _ _ Href), elem_of_list_to_set_disj in Hs.
    apply list_elem_of_fmap in Hs as ([s' m] & -> & Hm). apply (rf_snaps _ _ _ _ Href _ _ Hm).
  - eapply represents_sorted, Hdb.
  - exists ents. split_and!; [done..|apply Hdb].
Qed.

Lemma store_new o :
  0 ≤ block_cache_bytes o < 2 ^ 63 → store_refined (DB_new o, Waiting) (mkSpec ∅ []).
Proof. intros Ho. exists (λ _, []), []. split; [by apply DB_new_refines|constructor]. Qed.

(** [hist] is what the tables and the log hold. *)
Definition journal_of (hist : list WriteRequest) (j : Journal) : Prop :=
  ∃ pre, hist = pre ++ j_reqs j ∧ fold_left spec_write pre ∅ = j_base j.

Lemma journal_map hist j : journal_of hist j → j_map j = fold_left spec_write hist ∅.
Proof using Type. intros (pre & -> & E). unfold j_map. by rewrite fold_left_app, E. Qed.

Lemma journal_next hist j batch j' :
  journal_of hist j → j_next j batch j' → journal_of (hist ++ batch) j'.
Proof using Type.
  intros Hj Hn. assert (journal_of (hist ++ batch) (j_commit j batch)) as Hc.
  { destruct Hj as (pre & -> & E). exists pre. split; [|done]. cbn [j_reqs j_commit].
    by rewrite (assoc_L (++)). }
  destruct Hn as [->| ->]; [done|]. exists (hist ++ batch). cbn [j_reqs j_base j_flush].
  split; [by rewrite app_nil_r|]. symmetry. by apply journal_map.
Qed.

Lemma journal_recovered hist j o settled n :
  journal_of hist j → (n ≤ length (j_reqs j))%nat →
  journal_of (take (length hist - n) hist) (j_recovered j o settled (length (j_reqs j) - n)).
Proof using Type.
  intros (pre & -> & E) Hn. exists pre. split; [|done]. cbn [j_reqs j_recovered].
  rewrite length_app, take_app. f_equal; [apply take_ge; lia|]. f_equal. lia.
Qed.

Lemma journal_same hist j j' : journal_of hist j → j_same j j' → journal_of hist j'.
Proof using Type.
  intros Hj [[Eb Er]|[Eb Er]].
  - destruct Hj as (pre & -> & E). exists pre. by rewrite Eb, Er.
  - exists hist. rewrite Eb, Er, app_nil_r. split; [done|]. symmetry. by apply journal_map.
Qed.

(** A life up to now. *)
Record alive (s : system) (hist : list WriteRequest) (j : Journal) (ents : Z → list Entry)
    (mes : list Entry) (sp : Spec) : Prop := {
  al_refines : refines ents mes s.1 sp;
  al_worker : worker_ok ents s.1 s.2;
  al_durable : durable j ents mes s.1;
  al_journal : journal_of hist j;
}.

Lemma alive_recovers s hist j ents mes sp d o coins :
  alive s hist j ents mes sp → remains s.1 d → log_left s.1 d →
  j_settled j = true ∨ truncations_kept s.1 d →
  log_fits s.1 → 0 ≤ block_cache_bytes o < 2 ^ 63 →
  (lost s.1 d ≤ length (j_reqs j))%nat ∧ (j_settled j = true → lost s.1 d = 0%nat) ∧
  ∃ db' j' mes' sp', db_open d o coins = Ok db' ∧ j_settled j' = true ∧
    alive (db', Waiting) (take (length hist - lost s.1 d) hist) j' ents mes' sp'.
Proof.
  intros [Href Hw Hdu Hj] Hc Hleft Hs Hsz Ho. pose proof (rf_rep _ _ _ _ Href) as Hdb.
  assert (j_settled j = true ∨ j_settled j ≠ true ∧ truncations_kept s.1 d) as [Hset|[Hset Hkept]]
    by (destruct Hs; destruct (j_settled j); auto).
  - destruct (recover_settled j ents mes s.1 d o coins Hdb Hdu Hset Hc Hleft Hsz Ho)
      as (-> & j' & db' & mes' & Hsame & Hs' & _ & E & Href' & Hdu').
    split_and!; [lia|done|]. eexists db', j', mes', _. split; [done|]. split; [done|].
    rewrite Nat.sub_0_r, firstn_all. split; [done|constructor|done|]. by eapply journal_same.
  - destruct (recover_part j ents mes s.1 d o coins Hdb Hdu Hc Hkept Hsz Ho)
      as (Hn & _ & db' & mes' & E & Href' & Hdu').
    split_and!; [done|by intros|]. eexists db', (j_recovered j o true _), mes', _. split; [done|]. split; [done|].
    split; [done|constructor|done|]. by apply journal_recovered.
Qed.

(** The process ends without a crash. *)
Lemma alive_closes s hist j ents mes sp o coins :
  alive s hist j ents mes sp → log_fits s.1 → 0 ≤ block_cache_bytes o < 2 ^ 63 →
  ∃ db' j' mes' sp', db_open (disk_of s.1) o coins = Ok db' ∧ j_settled j' = j_settled j ∧
    alive (db', Waiting) hist j' ents mes' sp'.
Proof.
  intros [Href Hw Hdu Hj] Hsz Ho.
  destruct (recover_close j ents mes s.1 o coins (rf_rep _ _ _ _ Href) Hdu Hsz Ho)
    as (db' & mes' & E & Href' & Hdu').
  eexists db', (mkJournal _ _ _ _ _), mes', _. split; [done|]. split; [reflexivity|].
  split; [done|constructor|done|]. eapply journal_same; [done|]. by left.
Qed.

(** A life goes on with any action within the conditions of use. *)
Lemma alive_action s hist j ents mes sp a :
  alive s hist j ents mes sp → action_durable a s →
  ∃ s' o sp' j' ents' mes', run_action a s = (s', Ok o) ∧ spec_action sp a o sp' ∧
    j_settled j' = settles a s (j_settled j) ∧
    alive s' (hist ++ action_writes a) j' ents' mes' sp' ∧ keeps_files ents s.1 ents' s'.1.
Proof.
  intros [Href Hw Hdu Hj] Ha. destruct (action_durably j ents mes s sp a Href Hw Hdu Ha)
    as (s1 & o1 & sp1 & j1 & ents1 & mes1 & E1 & Hsp & Hj1 & Href1 & Hw1 & Hdu1 & Hk).
  exists s1, o1, sp1, j1, ents1, mes1. split_and!; [done..| | |done].
  - unfold settles. rewrite (proj2 (du_mode _ _ _ _ Hdu)). by destruct Hj1 as [->| ->].
  - split; [done..|]. by eapply journal_next.
Qed.

(** Rule induction: the store implements the history, in memory and on disk. *)
Lemma lives_alive s hist settled :
  lives s hist settled → ∃ j ents mes sp, j_settled j = settled ∧ alive s hist j ents mes sp.
Proof.
  induction 1 as [o coins db Ho E|s hist settled a s' out _ (j & ents & mes & sp & Hs & Hal) Ha E
    |s hist settled d o coins db' _ (j & ents & mes & sp & Hs & Hal) Hcr Hk Hsz Ho E
    |s hist settled o coins db' _ (j & ents & mes & sp & Hs & Hal) Hsz Ho E].
  - rewrite open_empty in E. injection E as <-. eexists _, (λ _, []), [], (mkSpec ∅ []).
    split; [|split; [by apply DB_new_refines|constructor|apply DB_new_durable|by exists []]]. done.
  - destruct (alive_action s hist j ents mes sp a Hal Ha)
      as (s1 & o1 & sp1 & j1 & ents1 & mes1 & E1 & _ & Hs1 & Hal1 & _).
    rewrite E in E1. injection E1 as <- <-. subst settled. eauto 10.
  - destruct (alive_recovers s hist j ents mes sp d o coins Hal) as (_ & _ & db1 & j1 & mes1 & sp1 & E1 & Hs1 & Hal1);
      [by eapply crash_leaves; [apply Hal|]|apply Hcr|by subst settled|done|done|].
    rewrite E in E1. injection E1 as <-. eauto 10.
  - destruct (alive_closes s hist j ents mes sp o coins Hal) as (db1 & j1 & mes1 & sp1 & E1 & Hs1 & Hal1);
      [done|done|].
    rewrite E in E1. injection E1 as <-. subst settled. eauto 10.
Qed.

Lemma alive_get s hist j ents mes sp k :
  alive s hist j ents mes sp →
  ∃ db', get k s.1 = (db', Ok (fold_left spec_write hist ∅ !! k)).
Proof.
  intros [Href _ Hdu Hj]. rewrite <- (journal_map hist j Hj), <- (refines_journal j ents mes s.1 sp Href Hdu).
  destruct (get_impl_spec ents mes s.1 k u64_max) as (c & E & _); [apply Href|].
  eexists. unfold get. rewrite E. by rewrite (rf_map _ _ _ _ Href).
Qed.

Lemma lives_schedule s hist settled acts :
  lives s hist settled → schedule_durable acts s →
  lives (run_schedule acts s).1 (hist ++ (acts ≫= action_writes)) (settles_all acts s settled).
Proof.
  revert s hist settled. induction acts as [|a acts IH]; intros s hist settled Hl Hd; [by rewrite app_nil_r|].
  destruct Hd as [Ha Hd]. cbn [run_schedule settles_all]. rewrite bind_cons, (assoc_L (++)).
  destruct (lives_alive s hist settled Hl) as (j & ents & mes & sp & _ & Hal).
  destruct (alive_action s hist j ents mes sp a Hal Ha) as (s1 & o & sp1 & j1 & ents1 & mes1 & E & _).
  rewrite E in Hd |- *. specialize (IH s1 (hist ++ action_writes a) (settles a s settled)).
  destruct (run_schedule acts s1) as [s2 r].
  simpl in *. destruct r; simpl; apply IH; try done; by eapply lives_action.
Qed.

(** ** The compaction thread between the calls *)

(** A step of the thread. *)
Lemma lives_background s hist settled :
  lives s hist settled → action_durable Background s →
  ∃ s' o, run_action Background s = (s', Ok o) ∧ lives s' hist settled.
Proof.
  intros Hl Ha. destruct (lives_alive s hist settled Hl) as (j & ents & mes & sp & _ & Hal).
  destruct (alive_action s hist j ents mes sp _ Hal Ha) as (s' & o & _ & _ & _ & _ & E & _).
  exists s', o. split; [done|]. rewrite <- (app_nil_r hist).
  exact (lives_action s hist settled Background s' o Hl Ha E).
Qed.

Lemma lives_steps n s hist settled :
  lives s hist settled → schedule_durable (replicate n Background) s →
  ∃ s' os, run_schedule (replicate n Background) s = (s', Ok os) ∧ lives s' hist settled.
Proof.
  revert s. induction n as [|n IH]; intros s Hl Hd; [by exists s, []|]. destruct Hd as [Ha Hd].
  destruct (lives_background s hist settled Hl Ha) as (s1 & o & E & Hl1).
  cbn [replicate run_schedule] in *. rewrite E in Hd |- *. destruct (IH s1 Hl1 Hd) as (s' & os & E' & Hl').
  exists s', (o :: os). by rewrite E'.
Qed.

(** A call. *)
Lemma lives_client s hist settled c :
  lives s hist settled → action_durable (Client c) s →
  ∃ db' r sp sp' settled', run_call c s.1 = (db', Ok r) ∧ lives (db', s.2) (hist ++ call_writes c) settled' ∧
    sp_map sp = fold_left spec_write hist ∅ ∧ spec_step sp c r sp'.
Proof.
  intros Hl Ha. destruct (lives_alive s hist settled Hl) as (j & ents & mes & sp & _ & Hal).
  destruct (alive_action s hist j ents mes sp _ Hal Ha) as (s' & o & sp' & _ & _ & _ & E & Hs & _).
  pose proof (lives_action s hist settled _ s' o Hl Ha E) as Hl'. cbn [run_action] in E.
  destruct (run_call c s.1) as [db' [r| |]]; [|done..]. injection E as <- <-. inversion Hs; subst.
  eexists db', r, sp, sp', _. split_and!; [done|exact Hl'| |done].
  rewrite (refines_journal j ents mes s.1 sp); [|apply Hal..]. by apply journal_map, (al_journal _ _ _ _ _ _ Hal).
Qed.

(** A call after any number of steps of the thread. *)
Lemma lives_call s hist settled n c :
  lives s hist settled → schedule_durable (replicate n Background ++ [Client c]) s →
  ∃ s' os r sp sp' settled', run_schedule (replicate n Background ++ [Client c]) s = (s', Ok (os ++ [Returned r])) ∧
    lives s' (hist ++ call_writes c) settled' ∧ sp_map sp = fold_left spec_write hist ∅ ∧ spec_step sp c r sp'.
Proof.
  revert s. induction n as [|n IH]; intros s Hl [Ha Hd].
  - destruct (lives_client s hist settled c Hl Ha) as (db' & r & sp & sp' & settled' & E & Hl' & Hm & Hs).
    exists (db', s.2), [], r, sp, sp', settled'. cbn [replicate app run_schedule run_action]. by rewrite E.
  - destruct (lives_background s hist settled Hl Ha) as (s1 & o & E & Hl1).
    cbn [replicate app run_schedule] in *. rewrite E in Hd |- *.
    destruct (IH s1 Hl1 Hd) as (s' & os & r & sp & sp' & settled' & E' & Hl' & Hm & Hs).
    exists s', (o :: os), r, sp, sp', settled'. rewrite E'. by split_and!.
Qed.

(** ** The end of the thread *)

Lemma job_length ents mes db snap job oldest l total :
  db_rep ents mes db → job_ok ents db snap job oldest l total → length l = length (job_entries job).
Proof.
  intros Hdb Hj. destruct (inputs_ok _ _ _ _ _ _ _ _ _ Hdb Hj (rep_agrees _ _ _ _ Hdb)) as (Hf & _).
  by rewrite (job_entries_holds _ _ _ Hf), (jo_perm _ _ _ _ _ _ _ Hj).
Qed.

(** A step of a thread that is in a round. *)
Lemma finish_step fuel db w db' w' :
  worker_step w db = (db', Ok w') → w ≠ Waiting →
  finish_round (S fuel) (db, w) = finish_round fuel (db', w') ∧
  (round_durable (S fuel) (db, w) → action_durable Background (db, w) ∧ round_durable fuel (db', w')).
Proof using Type.
  intros E Hw. cbn [finish_round round_durable run_action fst snd worker_ready].
  destruct w; [done|..]; cbn [worker_ready]; by rewrite E.
Qed.

Lemma finish_merged fuel sp ents mes db snap job oldest l total x :
  refines ents mes db sp → job_ok ents db snap job oldest l total →
  written ents db (output_level job) total (total, []) x →
  ∃ db', finish_round (S fuel) (db, Merged snap job (v_outputs x)) = ((db', Waiting), Ok tt).
Proof.
  intros Href Hj Hwr. destruct (commit_job_ok ents mes db sp _ _ _ _ _ _ Href Hj Hwr) as (db' & E & _).
  exists db'. rewrite (proj1 (finish_step fuel db (Merged snap job (v_outputs x)) _ _ E ltac:(done))). by destruct fuel.
Qed.

Lemma finish_merging fuel sp snap job oldest l total rest ents mes db it x done :
  refines ents mes db sp → merging ents db snap job oldest l total it x done rest →
  round_durable fuel (db, Merging snap job oldest it x) → (length rest + 2 ≤ fuel)%nat →
  ∃ db', finish_round fuel (db, Merging snap job oldest it x) = ((db', Waiting), Ok tt).
Proof.
  revert fuel ents db it x done. induction rest as [|e rest IH]; intros fuel ents db it x done Href Hm Hr Hf;
    (destruct fuel as [|fuel]; [simpl in Hf; lia|]).
  - destruct (merge_round_end ents mes db sp _ _ _ _ _ _ _ _ Href Hm) as (db' & x' & E & Hi & Hj & Hwr).
    rewrite (proj1 (finish_step fuel db (Merging snap job oldest it x) _ _ E ltac:(done))). destruct fuel as [|fuel]; [simpl in Hf; lia|].
    eapply finish_merged; [apply Hi|exact Hj|exact Hwr].
  - pose proof (proj1 Hr) as [Hsafe _]. specialize (Hsafe eq_refl).
    destruct (merge_round_valid ents mes db sp _ _ _ _ _ _ _ _ _ _ Href Hsafe Hm)
      as (db' & ents' & it' & x' & E & Hi & Hm').
    destruct (finish_step fuel db (Merging snap job oldest it x) _ _ E ltac:(done)) as [-> Hr'].
    eapply IH; [apply Hi|exact Hm'|by apply Hr'|simpl in Hf; lia].
Qed.

(** The thread ends its round. *)
Lemma finish_any sp ents mes s :
  refines ents mes s.1 sp → worker_ok ents s.1 s.2 → round_durable (worker_entries s.2 + 3) s →
  ∃ db', db_close s = ((db', Waiting), Ok tt).
Proof.
  destruct s as [db w]. cbn [fst snd]. unfold db_close. cbn [snd]. intros Href Hw Hr.
  pose proof (rf_rep _ _ _ _ Href) as Hdb.
  destruct Hw as [|snap job oldest l total Hj|snap job oldest l total it x done rest Hm|snap job oldest l total x Hj Hwr];
    cbn [worker_entries] in *.
  - by exists db.
  - destruct (open_merge_ok ents mes db sp _ _ _ _ _ Href Hj) as (db' & it & x & E & Hi & Hm).
    rewrite <- (job_length _ _ _ _ _ _ _ _ Hdb Hj), (Nat.add_comm _ 3) in *. cbn [Nat.add] in *.
    destruct (finish_step (S (S (length l))) db (Picked snap job oldest) _ _ E ltac:(done)) as [-> Hr'].
    eapply finish_merging; [apply Hi|exact Hm|by apply Hr'|lia].
  - eapply finish_merging; [exact Href|exact Hm|done|].
    rewrite <- (job_length _ _ _ _ _ _ _ _ Hdb (mg_job _ _ _ _ _ _ _ _ _ _ _ Hm)).
    rewrite (mg_entries _ _ _ _ _ _ _ _ _ _ _ Hm), length_app. lia.
  - by eapply finish_merged.
Qed.

Lemma lives_finish fuel s hist settled s' :
  lives s hist settled → round_durable fuel s → finish_round fuel s = (s', Ok tt) → lives s' hist settled.
Proof.
  revert s. induction fuel as [|fuel IH]; intros s Hl Hr E.
  { cbn [finish_round] in E. destruct s.2; by simplify_eq. }
  assert (s.2 = Waiting ∨ s.2 ≠ Waiting) as [Ew|Ew] by (destruct s.2; auto).
  { cbn [finish_round] in E. rewrite Ew in E. by simplify_eq. }
  assert (action_durable Background s ∧ round_durable fuel (run_action Background s).1) as [Ha Hr']
    by (cbn [round_durable] in Hr; by destruct s.2).
  destruct (lives_background s hist settled Hl Ha) as (s1 & o & E1 & Hl1). rewrite E1 in Hr'.
  apply (IH s1 Hl1 Hr'). cbn [finish_round] in E. rewrite E1 in E. by destruct s.2.
Qed.

(** The database is closed: the directory holds what the store held. *)
Lemma lives_closed s hist settled :
  lives s hist settled → close_durable s →
  ∃ s', db_close s = (s', Ok tt) ∧ stored_on (disk_of s'.1) (fold_left spec_write hist ∅).
Proof.
  intros Hl [Hr Hf]. destruct (lives_alive s hist settled Hl) as (j & ents & mes & sp & _ & Hal).
  destruct (finish_any sp ents mes s) as [db' E]; [apply Hal..|done|].
  exists (db', Waiting). split; [done|]. rewrite E in Hf. right. eexists _, hist, settled.
  split_and!; [by eapply lives_finish|done|done|done].
Qed.

(** And opening it gives this to a new life. *)
Lemma stored_opens d m o coins :
  stored_on d m → 0 ≤ block_cache_bytes o < 2 ^ 63 →
  ∃ db hist settled, db_open d o coins = Ok db ∧ lives (db, Waiting) hist settled ∧
    m = fold_left spec_write hist ∅.
Proof.
  intros [[-> ->]|(s & hist & settled & Hl & -> & -> & Hf)] Ho.
  - eexists _, [], true. split_and!; [apply open_empty| |done]. by apply (lives_new o coins); [|apply open_empty].
  - destruct (lives_alive s hist settled Hl) as (j & ents & mes & sp & _ & Hal).
    destruct (alive_closes s hist j ents mes sp o coins Hal Hf Ho) as (db & _ & _ & _ & E & _).
    exists db, hist, settled. split_and!; [done| |done]. by eapply lives_close.
Qed.

End StoreLemmas.

#[export] Instance worker_safe_dec `{Posix} db w : Decision (worker_safe db w).
Proof. destruct w; unfold worker_safe, job_safe, files_separate, sst_fits; apply _. Defined.

#[export] Instance action_safe_dec `{Posix} a s : Decision (action_safe a s).
Proof. destruct a; unfold action_safe; apply _. Defined.

#[export] Instance schedule_safe_dec `{Posix} `{PriorityQueue} acts s : Decision (schedule_safe acts s).
Proof. revert s. induction acts as [|a acts IH]; intros s; simpl; apply _. Defined.

#[export] Instance schedule_durable_dec `{Posix} `{PriorityQueue} acts s :
  Decision (schedule_durable acts s).
Proof. revert s. induction acts as [|a acts IH]; intros s; simpl; unfold action_durable; apply _. Defined.

#[export] Instance round_durable_dec `{Posix} `{PriorityQueue} fuel s : Decision (round_durable fuel s).
Proof.
  revert s. induction fuel as [|fuel IH]; intros s; cbn [round_durable]; [destruct s.2; apply _|].
  unfold action_durable. destruct s.2; apply _.
Defined.

#[export] Instance close_durable_dec `{Posix} `{PriorityQueue} s : Decision (close_durable s).
Proof. unfold close_durable. apply _. Defined.

(** * Properties *)

(** C2. Simulation, with the compaction thread at any point of its work: every
    action of a schedule within the conditions of use returns, answers as the
    contract does, and leads to a store that implements the contract.  Steps
    of the thread and of [compact] change nothing that a client can see. *)
Theorem concurrent_simulation `{PosixOk} `{PriorityQueueOk} (s : system) (sp : Spec) (a : action)
    (Href : store_refined s sp) (Hsafe : action_safe a s) :
  ∃ s' o sp', run_action a s = (s', Ok o) ∧ spec_action sp a o sp' ∧ store_refined s' sp'.
Proof. by apply store_step. Qed.

(** Any interleaving of client calls with the steps of the compaction
    thread, started on a fresh database, gives the responses of the contract
    started from the empty map. *)
Theorem concurrent_trace `{PosixOk} `{PriorityQueueOk} (o : Options) (acts : list action)
    (Ho : 0 ≤ block_cache_bytes o < 2 ^ 63) (Hsafe : schedule_safe acts (DB_new o, Waiting)) :
  ∃ s os sp, run_schedule acts (DB_new o, Waiting) = (s, Ok os) ∧
    spec_schedule (mkSpec ∅ []) acts os sp ∧ store_refined s sp.
Proof. by apply schedule_ok; [apply store_new|]. Qed.

(** C33. Whatever clients and the compaction thread do within the conditions of
    use, the parts of the database fit together: levels, tables, cache, memtable,
    snapshots and counters. *)
Theorem store_consistent `{PosixOk} `{PriorityQueueOk} (o : Options) (acts : list action)
    (Ho : 0 ≤ block_cache_bytes o < 2 ^ 63) (Hsafe : schedule_safe acts (DB_new o, Waiting)) :
  consistent (run_schedule acts (DB_new o, Waiting)).1.1.
Proof.
  destruct (schedule_ok _ _ acts (store_new o Ho) Hsafe) as (s & os & sp & E & _ & ents & mes & Href & _).
  rewrite E. by eapply refines_consistent.
Qed.

(** C3. The store keeps its history, across any number of calls, steps of the
    compaction thread, ends of the process, and crashes between two of these,
    with reopenings in either sync mode: a [get] returns the value of the last
    write of the key that was acknowledged and not lost in a crash, and nothing
    if that was a deletion or there was none.  System calls succeed, and a
    truncation of the log is undone by a crash only while every write is on the
    medium. *)
Theorem store_across_crashes `{PosixOk} `{PriorityQueueOk} (s : system) (hist : list WriteRequest)
    (settled : bool) (k : bytes) (Hl : lives s hist settled) :
  ∃ db', get k s.1 = (db', Ok (fold_left spec_write hist ∅ !! k)).
Proof.
  destruct (lives_alive s hist settled Hl) as (j & ents & mes & sp & _ & Hal). by eapply alive_get.
Qed.

(** What a crash can take away. The store opens again, and what it holds is
    what it held after the first [n] of its writes: at most the writes in the
    log are lost, always the latest ones, and none when all were on the medium. *)
Theorem crash_keeps_prefix `{PosixOk} `{PriorityQueueOk} (s : system) (hist : list WriteRequest)
    (settled : bool) (d : Disk) (o : Options) (coins : list (list bool)) (Hl : lives s hist settled)
    (Hcrash : crash_disk s.1 d) (Hkept : settled = true ∨ truncations_kept s.1 d)
    (Hsize : log_fits s.1) (Ho : 0 ≤ block_cache_bytes o < 2 ^ 63) :
  ∃ n db', db_open d o coins = Ok db' ∧ (length hist - log_records s.1 ≤ n ≤ length hist)%nat ∧
    (settled = true → n = length hist) ∧
    ∀ k, ∃ db'', get k db' = (db'', Ok (fold_left spec_write (take n hist) ∅ !! k)).
Proof.
  destruct (lives_alive s hist settled Hl) as (j & ents & mes & sp & <- & Hal).
  destruct (alive_recovers s hist j ents mes sp d o coins Hal
    (crash_leaves _ _ _ _ _ (al_durable _ _ _ _ _ _ Hal) Hcrash) (crash_wal _ _ Hcrash) Hkept Hsize Ho)
    as (_ & Hnone & db' & j' & mes' & sp' & E & _ & Hal').
  exists (length hist - lost s.1 d)%nat, db'. split_and!; [done|unfold lost, log_records; lia|lia| |].
  - intros Hm. rewrite (Hnone Hm). lia.
  - intros k. by eapply (alive_get (db', Waiting)).
Qed.

(** ** Known defects *)

Definition do_put (k v : string) : action := Client (CallWrite [put_request (bs k) (bs v)] []).
Definition do_get (k : string) : action := Client (CallGet (bs k)).
Definition do_flush : action := Client CallFlush.

(** A schedule on a fresh store. *)
Definition ex_schedule (o : Options) (acts : list action) : system * result (list outcome) :=
  run_schedule (H := ex_posix) (H0 := first_pq) acts (DB_new o, Waiting).

(** What the clients were told, without the silent steps. *)
Definition replies (os : list outcome) : list outcome :=
  List.filter (λ o, match o with Returned (Value _) | Polled _ => true | _ => false end) os.

(** Level 1 is full with one entry. *)
Definition single_options : Options := {|
  opt_sync := EveryWrite; flush_threshold_bytes := 4096; compaction_trigger := 4;
  block_cache_bytes := 1000; target_file_size := 2000; l1_max_bytes := 64;
  level_size_multiplier := 10;
|}.

(** Two table files are compacted into one, which is picked again while
    [compact] waits; a flush comes before the second commit. *)
Definition single_schedule : list action :=
  [do_put "a" "1"; do_flush; do_put "b" "2"; do_flush; CompactBegin; CompactPoll] ++
  replicate 7 Background ++ [do_put "a" "9"; do_flush; do_get "a"] ++
  replicate 5 Background ++ [do_get "a"].

(** A forced compaction of a single file goes back to level 0, behind the
    files that were flushed while it ran: a write that had been acknowledged
    and read is hidden by the value it had replaced. *)
Theorem forced_single_file_hides_write :
  (os ← (ex_schedule single_options single_schedule).2; Ok (replies os)) =
  Ok [Polled false; Returned (Value (Some (bs "9"))); Returned (Value (Some (bs "1")))].
Proof. by vm_compute. Qed.

(** Two entries fill a file. *)
Definition small_files : Options := {|
  opt_sync := EveryWrite; flush_threshold_bytes := 4096; compaction_trigger := 4;
  block_cache_bytes := 1000; target_file_size := 38; l1_max_bytes := 8000;
  level_size_multiplier := 10;
|}.

Definition split_schedule : list action :=
  [do_put "b" "2"; do_flush; Client CallSnapshot; do_put "a" "1"; do_put "b" "3"; do_flush;
   do_get "b"; CompactBegin; CompactPoll] ++ replicate 7 Background ++ [do_get "b"].

(** An output file can be closed between two versions of one key. With a
    live snapshot both versions survive, the newer one ends the first file and
    the older one starts the second; a read then finds the second file and
    returns the overwritten value. *)
Theorem compaction_splits_versions :
  (os ← (ex_schedule small_files split_schedule).2; Ok (replies os)) =
  Ok [Returned (Value (Some (bs "3"))); Polled false; Returned (Value (Some (bs "2")))].
Proof. by vm_compute. Qed.

(** ** Witnesses *)

(** Level 0 is compacted with two files. *)
Definition busy_options : Options := {|
  opt_sync := EveryWrite; flush_threshold_bytes := 4096; compaction_trigger := 2;
  block_cache_bytes := 1000; target_file_size := 2000; l1_max_bytes := 8000;
  level_size_multiplier := 10;
|}.

(** Writes, a snapshot and a flush in the middle of a compaction. *)
Definition busy_schedule : list action :=
  [do_put "a" "1"; do_flush; do_put "b" "2"; do_flush; Background; Background;
   Client CallSnapshot; do_put "a" "3"; Background; do_flush; Background; do_get "a";
   Background; Background; do_get "a"; Client (CallGetAt (bs "a") 2); do_get "b"].

Lemma busy_options_ok : 0 ≤ block_cache_bytes busy_options < 2 ^ 63.
Proof. simpl. lia. Qed.

Lemma busy_safe :
  schedule_safe (H := ex_posix) (H0 := first_pq) busy_schedule (DB_new busy_options, Waiting).
Proof. apply (bool_decide_unpack _). vm_compute. exact I. Qed.

Lemma concurrent_trace_witness :
  ∃ s os sp, ex_schedule busy_options busy_schedule = (s, Ok os) ∧
    spec_schedule (mkSpec ∅ []) busy_schedule os sp ∧
    replies os = [Returned (Value (Some (bs "3"))); Returned (Value (Some (bs "3")));
      Returned (Value (Some (bs "1"))); Returned (Value (Some (bs "2")))].
Proof.
  destruct (concurrent_trace (H := ex_posix) (H1 := first_pq) busy_options busy_schedule
    busy_options_ok busy_safe) as (s & os & sp & E & Hs & _).
  exists s, os, sp. split_and!; [exact E|exact Hs|].
  assert (os = match (ex_schedule busy_options busy_schedule).2 with Ok os' => os' | _ => [] end) as ->
    by (unfold ex_schedule; rewrite E; reflexivity).
  vm_compute. reflexivity.
Defined.

Lemma store_consistent_witness :
  consistent (H := ex_posix) (ex_schedule busy_options busy_schedule).1.1.
Proof.
  exact (store_consistent (H := ex_posix) (H1 := first_pq) busy_options busy_schedule busy_options_ok busy_safe).
Defined.

(** The store with a compaction under way, a live snapshot and a write made
    since the compaction started. *)
Definition ex_middle : system := (ex_schedule busy_options (take 8 busy_schedule)).1.

Lemma ex_middle_refined : ∃ sp, store_refined (H := ex_posix) (H0 := first_pq) ex_middle sp.
Proof.
  destruct (schedule_ok (H := ex_posix) (H1 := first_pq) (DB_new busy_options, Waiting) (mkSpec ∅ [])
    (take 8 busy_schedule)) as (s & os & sp & E & _ & Hr).
  - apply store_new, busy_options_ok.
  - apply (bool_decide_unpack _). vm_compute. exact I.
  - exists sp. unfold ex_middle, ex_schedule. rewrite E. exact Hr.
Qed.

Lemma ex_middle_safe : action_safe (H := ex_posix) Background ex_middle.
Proof.
  apply (bool_decide_eq_true_1 (action_safe (H := ex_posix) Background ex_middle)).
  vm_compute. reflexivity.
Qed.

Lemma concurrent_simulation_witness :
  ∃ sp s' o sp', run_action (H := ex_posix) (H0 := first_pq) Background ex_middle = (s', Ok o) ∧
    spec_action sp Background o sp' ∧ store_refined (H := ex_posix) (H0 := first_pq) s' sp'.
Proof.
  destruct ex_middle_refined as [sp Hr]. exists sp.
  exact (concurrent_simulation (H := ex_posix) (H1 := first_pq) ex_middle sp Background Hr ex_middle_safe).
Defined.

(** A store that does not sync its log.  The first two writes are in a table,
    the next two in the log; a crash leaves part of the last record. *)
Definition lazy_options : Options := {|
  opt_sync := Batched; flush_threshold_bytes := 4096; compaction_trigger := 2;
  block_cache_bytes := 1000; target_file_size := 2000; l1_max_bytes := 8000;
  level_size_multiplier := 10;
|}.

Definition lazy_schedule : list action :=
  [do_put "a" "1"; do_put "b" "2"; do_flush; do_put "a" "3"; do_put "b" "4"].

Definition ex_lazy : system := (ex_schedule lazy_options lazy_schedule).1.

Definition ex_lazy_disk : Disk := cut_log 30 ex_lazy.1.

Lemma ex_lazy_lives :
  lives (H := ex_posix) (H0 := first_pq) ex_lazy (lazy_schedule ≫= action_writes)
    (settles_all (H := ex_posix) (H0 := first_pq) lazy_schedule (DB_new lazy_options, Waiting) true).
Proof.
  apply (lives_schedule (H := ex_posix) (H1 := first_pq) (DB_new lazy_options, Waiting) []).
  - apply (lives_new lazy_options []); [simpl; lia|apply open_empty].
  - apply (bool_decide_unpack _). vm_compute. exact I.
Qed.

Lemma ex_lazy_crash : crash_disk ex_lazy.1 ex_lazy_disk.
Proof.
  apply cut_log_crash; [vm_compute; lia..|]. apply (bool_decide_unpack _). vm_compute. exact I.
Qed.

Lemma ex_lazy_kept : truncations_kept ex_lazy.1 ex_lazy_disk.
Proof. apply cut_log_kept. vm_compute. lia. Qed.

Lemma ex_lazy_size : log_fits ex_lazy.1.
Proof. apply (bool_decide_unpack _). vm_compute. exact I. Qed.

Lemma ex_lazy_log : log_records (H := ex_posix) ex_lazy.1 = 2%nat.
Proof. vm_compute. reflexivity. Qed.

Lemma crash_keeps_prefix_witness :
  ∃ n db', db_open (H := ex_posix) ex_lazy_disk torn_options [] = Ok db' ∧ (2 ≤ n)%nat ∧
    ∃ db'', get (H := ex_posix) (bs "a") db' =
      (db'', Ok (fold_left spec_write (take n (lazy_schedule ≫= action_writes)) ∅ !! bs "a")).
Proof.
  destruct (crash_keeps_prefix (H := ex_posix) (H1 := first_pq) ex_lazy _ _ ex_lazy_disk torn_options []
    ex_lazy_lives ex_lazy_crash (or_intror ex_lazy_kept) ex_lazy_size) as (n & db' & E & Hn & _ & Hg).
  - simpl. lia.
  - exists n, db'. split; [exact E|]. split; [|apply Hg]. rewrite ex_lazy_log in Hn. simpl in Hn. lia.
Defined.

Definition ex_lazy_hist : list WriteRequest :=
  take (length (lazy_schedule ≫= action_writes) - lost (H := ex_posix) ex_lazy.1 ex_lazy_disk)
    (lazy_schedule ≫= action_writes).

Lemma ex_lazy_contents :
  fold_left spec_write ex_lazy_hist ∅ !! bs "a" = Some (bs "3") ∧
  fold_left spec_write ex_lazy_hist ∅ !! bs "b" = Some (bs "2").
Proof. vm_compute. by split. Qed.

Lemma ex_lazy_opens :
  ∃ db, db_open (H := ex_posix) ex_lazy_disk torn_options [] = Ok db.
Proof.
  assert (match db_open (H := ex_posix) ex_lazy_disk torn_options [] with
    | Ok _ => True | _ => False end) as Ho by (vm_compute; exact I).
  destruct (db_open _ _ _) as [db| |]; [by exists db|done..].
Qed.

(** The last write is lost, the one before it is not. *)
Lemma store_across_crashes_witness :
  ∃ db da db', db_open (H := ex_posix) ex_lazy_disk torn_options [] = Ok db ∧
    get (H := ex_posix) (bs "a") db = (da, Ok (Some (bs "3"))) ∧
    get (H := ex_posix) (bs "b") db = (db', Ok (Some (bs "2"))).
Proof.
  destruct ex_lazy_opens as [db E]. exists db.
  assert (lives (H := ex_posix) (H0 := first_pq) (db, Waiting) ex_lazy_hist true) as Hl.
  { apply (lives_crash ex_lazy _ _ ex_lazy_disk torn_options [] db ex_lazy_lives ex_lazy_crash
      (or_intror ex_lazy_kept) ex_lazy_size); [simpl; lia|exact E]. }
  destruct (store_across_crashes (H := ex_posix) (H1 := first_pq) _ _ _ (bs "a") Hl) as [da Ha].
  destruct (store_across_crashes (H := ex_posix) (H1 := first_pq) _ _ _ (bs "b") Hl) as [db' Hb].
  rewrite (proj1 ex_lazy_contents) in Ha. rewrite (proj2 ex_lazy_contents) in Hb.
  exists da, db'. split; [exact E|]. split; [exact Ha|exact Hb].
Defined.
