(* ===== verification/Readers.v ===== *)
(** Readers beside writers: [DB::get_impl] and [DB::scan_impl] of src/src/db.cpp
    as threads, and the end of table files (src/src/sstable.cpp).

    A reader holds [mu_] only while it looks into the memtable and takes the
    current version.  It then works through the tables of that version with no
    lock, while writes, flushes and commits of the compaction thread go on; a
    reader makes one step at a time, and actions of others may come between any
    two steps.  A file that a commit has replaced is unlinked when the last
    version that holds its table is gone.  The contract is that of Store.v with
    reads that take effect at their locked section. *)

From stdpp Require Import gmultiset.
From S2P Require Import Prelude Coding Wal Entry Manifest Memtable BlockCache SSTableWriter SSTable MergeIterator Version Compaction Levels Db Recovery Background Worker Round Store.
Local Open Scope Z_scope.

(** * Definitions *)

(** ** A reader *)

(** The calls of [get] and [scan], with the sequence number of the snapshot if
    there is one. *)
Inductive read_query : Type :=
| QueryGet (key : bytes) (snap : option Z)
| QueryScan (start stop : bytes) (snap : option Z).

Definition query_call (q : read_query) : call :=
  match q with
  | QueryGet key None => CallGet key
  | QueryGet key (Some s) => CallGetAt key s
  | QueryScan start stop None => CallScan start stop
  | QueryScan start stop (Some s) => CallScanAt start stop s
  end.

(** [UINT64_MAX] without a snapshot. *)
Definition snap_seq (snap : option Z) : Z := default u64_max snap.

(** Where a reader stands behind its locked section; every state has the
    version [ver].  [GetTables]: the files of level 0 and the levels that are
    still to be asked.  [ScanSeek]: the sources that have been opened and the
    files to come.  [ScanEmit]: the iterator and what [emit] was called with. *)
Inductive Reader : Type :=
| Answered (ver : Version) (r : response)
| GetTables (ver : Version) (key : bytes) (s : Z) (l0 : list FileMeta) (levels : list (list FileMeta))
| ScanSeek (ver : Version) (start stop : bytes) (s : Z) (fuel : nat) (sources : list AnySource)
    (todo : list FileMeta)
| ScanEmit (ver : Version) (stop : bytes) (fuel : nat) (iter : MergeIterator AnySource)
    (out : list (bytes * bytes)).

Definition reader_version (rd : Reader) : Version :=
  match rd with
  | Answered ver _ | GetTables ver _ _ _ _ | ScanSeek ver _ _ _ _ _ _ | ScanEmit ver _ _ _ _ => ver
  end.

Definition version_numbers (v : Version) : list Z := fm_number <$> mjoin (files v).

Section ReaderOps.
Context `{Posix} `{PriorityQueue}.

(** The sections under [mu_]. *)
Definition get_begin (key : bytes) (s : Z) : dbm Reader :=
  m ← gets memtable_;
  status ← liftr (lookup m key s);
  ver ← gets current_version_;
  mret match status with
       | Found v => Answered ver (Value (Some v))
       | Deleted => Answered ver (Value None)
       | NotFound => GetTables ver key s (rev (files_at ver 0)) (drop 1 (files ver))
       end.

Definition scan_begin (start stop : bytes) (s : Z) : dbm Reader :=
  ver ← gets current_version_;
  m ← gets memtable_;
  mt_snapshot ← liftr (raw_range m start stop);
  let todo := scan_files ver start stop in
  mret (ScanSeek ver start stop s (scan_fuel mt_snapshot todo)
          [FromSnapshot (snapshot_source mt_snapshot)] todo).

Definition read_begin (q : read_query) : dbm Reader :=
  match q with
  | QueryGet key snap => get_begin key (snap_seq snap)
  | QueryScan start stop snap => scan_begin start stop (snap_seq snap)
  end.

(** One table of level 0, newest first, or one level behind it. *)
Definition get_tables (ver : Version) (key : bytes) (s : Z) (l0 : list FileMeta)
    (levels : list (list FileMeta)) : cached (Reader + response) :=
  match l0, levels with
  | fm :: l0', _ =>
      r ← get_file fm key s;
      mret match r with
           | NotFound => inl (GetTables ver key s l0' levels)
           | _ => inr (Value (reader_value r))
           end
  | [], fms :: levels' =>
      r ← get_level fms key s;
      mret match r with
           | NotFound => inl (GetTables ver key s [] levels')
           | _ => inr (Value (reader_value r))
           end
  | [], [] => mret (inr (Value None))
  end.

(** One source, or behind all of them the constructor of the iterator. *)
Definition scan_seek (ver : Version) (start stop : bytes) (s : Z) (fuel : nat) (sources : list AnySource)
    (todo : list FileMeta) : cached (Reader + response) :=
  match todo with
  | fm :: todo' =>
      src ← sstable_source_seek (fm_table fm) start;
      mret (inl (ScanSeek ver start stop s fuel (sources ++ [FromSSTable src]) todo'))
  | [] =>
      iter ← merge_new fuel sources false s false;
      mret (inl (ScanEmit ver stop fuel iter []))
  end.

(** One round of the loop that calls [emit]. *)
Definition scan_emit (ver : Version) (stop : bytes) (fuel : nat) (iter : MergeIterator AnySource)
    (out : list (bytes * bytes)) : cached (Reader + response) :=
  match fuel with
  | O => lift Undefined
  | S fuel' =>
      if mi_valid iter && bytes_leb (e_key (mi_current iter)) stop then
        iter' ← advance fuel iter;
        mret (inl (ScanEmit ver stop fuel' iter'
                     (out ++ [(e_key (mi_current iter), e_value (mi_current iter))])))
      else mret (inr (Pairs out))
  end.

Definition reader_step (rd : Reader) : cached (Reader + response) :=
  match rd with
  | Answered _ r => mret (inr r)
  | GetTables ver key s l0 levels => get_tables ver key s l0 levels
  | ScanSeek ver start stop s fuel sources todo => scan_seek ver start stop s fuel sources todo
  | ScanEmit ver stop fuel iter out => scan_emit ver stop fuel iter out
  end.

End ReaderOps.

(** How many steps a reader has left at most. *)
Definition reader_steps (rd : Reader) : nat :=
  match rd with
  | Answered _ _ => 1
  | GetTables _ _ _ l0 levels => S (length l0 + length levels)
  | ScanSeek _ _ _ _ fuel _ todo => S (length todo + fuel)
  | ScanEmit _ _ fuel _ _ => fuel
  end.

(** ** The store and its readers *)

(** [db_dir] of the database has the table files that no commit has replaced;
    [sh_doomed] has those with [unlink_on_destroy_] whose tables are still
    held. *)
Record Shared := mkShared {
  sh_store : system;
  sh_readers : gmap nat Reader;
  sh_doomed : gmap Z File;
}.

(** The table files in the directory. *)
Definition table_files (sh : Shared) : gmap Z File := sh_doomed sh ∪ db_dir (sh_store sh).1.

Definition held_numbers (readers : gmap nat Reader) : list Z :=
  map_to_list readers ≫= λ p, version_numbers (reader_version p.2).

(** [~SSTable] of the tables that nobody holds any more. *)
Definition still_held (readers : gmap nat Reader) (doomed : gmap Z File) : gmap Z File :=
  filter (λ p, p.1 ∈ held_numbers readers) doomed.

Inductive shared_action : Type :=
| Act (a : action)
| ReadBegin (i : nat) (q : read_query)
| ReadStep (i : nat).

Section SharedOps.
Context `{Posix} `{PriorityQueue}.

(** An action of Store.v; the files it takes out of the directory of the
    database stay as long as a reader holds their tables. *)
Definition run_act (a : action) (sh : Shared) : Shared * result outcome :=
  let r := run_action a (sh_store sh) in
  (mkShared r.1 (sh_readers sh)
     (still_held (sh_readers sh) (sh_doomed sh ∪ (db_dir (sh_store sh).1 ∖ db_dir r.1.1))), r.2).

(** Thread [i] starts to read, unless it is at it. *)
Definition run_begin (i : nat) (q : read_query) (sh : Shared) : Shared * result outcome :=
  match sh_readers sh !! i with
  | Some _ => (sh, Ok Silent)
  | None =>
      match read_begin q (sh_store sh).1 with
      | (db', Ok rd) =>
          (mkShared (db', (sh_store sh).2) (<[i := rd]> (sh_readers sh)) (sh_doomed sh), Ok Silent)
      | (db', Throw msg) => (mkShared (db', (sh_store sh).2) (sh_readers sh) (sh_doomed sh), Throw msg)
      | (db', Undefined) => (mkShared (db', (sh_store sh).2) (sh_readers sh) (sh_doomed sh), Undefined)
      end
  end.

(** Thread [i] goes on; when it returns, it gives up its version. *)
Definition run_step (i : nat) (sh : Shared) : Shared * result outcome :=
  match sh_readers sh !! i with
  | None => (sh, Ok Silent)
  | Some rd =>
      let r := with_cache (reader_step rd) (sh_store sh).1 in
      let s' := (r.1, (sh_store sh).2) in
      match r.2 with
      | Ok (inl rd') => (mkShared s' (<[i := rd']> (sh_readers sh)) (sh_doomed sh), Ok Silent)
      | Ok (inr res) =>
          let readers := delete i (sh_readers sh) in
          (mkShared s' readers (still_held readers (sh_doomed sh)), Ok (Returned res))
      | Throw msg => (mkShared s' (sh_readers sh) (sh_doomed sh), Throw msg)
      | Undefined => (mkShared s' (sh_readers sh) (sh_doomed sh), Undefined)
      end
  end.

Definition run_shared (a : shared_action) : Shared → Shared * result outcome :=
  match a with Act a => run_act a | ReadBegin i q => run_begin i q | ReadStep i => run_step i end.

Fixpoint run_reads (acts : list shared_action) (sh : Shared) : Shared * result (list outcome) :=
  match acts with
  | [] => (sh, Ok [])
  | a :: acts' =>
      match run_shared a sh with
      | (sh', Ok o) => let r := run_reads acts' sh' in (r.1, (os ← r.2; Ok (o :: os)))
      | (sh', Throw msg) => (sh', Throw msg)
      | (sh', Undefined) => (sh', Undefined)
      end
  end.

(** The conditions of use; a snapshot is live when the read starts. *)
Definition shared_safe (a : shared_action) (sh : Shared) : Prop :=
  match a with
  | Act a => action_durable a (sh_store sh)
  | ReadBegin _ q => call_safe (sh_store sh).1 (query_call q)
  | ReadStep _ => True
  end.

Fixpoint all_safe (acts : list shared_action) (sh : Shared) : Prop :=
  match acts with
  | [] => True
  | a :: acts' => shared_safe a sh ∧ all_safe acts' (run_shared a sh).1
  end.

(** What a crash can leave, the files of replaced tables included. *)
Record crash_shared (sh : Shared) (d : Disk) : Prop := {
  cs_wal : log_left (sh_store sh).1 d;
  cs_manifest : ∃ f, manifest_on d = Some f ∧ crash_left (manifest_ (sh_store sh).1) f;
  cs_ssts n : option_relation crash_left (λ _, False) (λ _, False) (table_files sh !! n) (ssts_on d !! n);
}.

(** Whether the writes are on the medium after a schedule. *)
Definition settles_one (a : shared_action) (sh : Shared) (settled : bool) : bool :=
  match a with Act a => settles a (sh_store sh) settled | _ => settled end.

Fixpoint settles_shared (acts : list shared_action) (sh : Shared) (settled : bool) : bool :=
  match acts with
  | [] => settled
  | a :: acts' => settles_shared acts' (run_shared a sh).1 (settles_one a sh settled)
  end.

End SharedOps.

Definition shared_new (o : Options) : Shared := mkShared (DB_new o, Waiting) ∅ ∅.

(** The writes of the clients, in order. *)
Definition shared_writes (a : shared_action) : list WriteRequest :=
  match a with Act a => action_writes a | _ => [] end.

(** How often thread [i] makes a step. *)
Definition is_step (i : nat) (a : shared_action) : Prop :=
  match a with ReadStep i' => i' = i | _ => False end.

#[export] Instance is_step_dec i a : Decision (is_step i a).
Proof. destruct a; simpl; apply _. Defined.

Definition own_steps (i : nat) (acts : list shared_action) : nat := length (filter (is_step i) acts).

(** ** The contract *)

(** A read is one step of the contract at its start; the answer is handed out
    later. *)
Abbreviation Pending := (gmap nat response).

Inductive spec_shared (sp : Spec) (p : Pending) : shared_action → outcome → Spec → Pending → Prop :=
| spec_act a o sp' : spec_action sp a o sp' → spec_shared sp p (Act a) o sp' p
| spec_begin i q r :
    p !! i = None → spec_step sp (query_call q) r sp →
    spec_shared sp p (ReadBegin i q) Silent sp (<[i := r]> p)
| spec_busy i q : is_Some (p !! i) → spec_shared sp p (ReadBegin i q) Silent sp p
| spec_working i : spec_shared sp p (ReadStep i) Silent sp p
| spec_return i r : p !! i = Some r → spec_shared sp p (ReadStep i) (Returned r) sp (delete i p).

Inductive spec_all : Spec → Pending → list shared_action → list outcome → Spec → Pending → Prop :=
| spec_all_nil sp p : spec_all sp p [] [] sp p
| spec_all_cons sp p a o sp1 p1 acts os sp2 p2 :
    spec_shared sp p a o sp1 p1 → spec_all sp1 p1 acts os sp2 p2 →
    spec_all sp p (a :: acts) (o :: os) sp2 p2.

(** * Lemmas *)

(** ** A reader on its own *)

Section ReaderLemmas.
#[local] Set Default Proof Using "All".
Context `{PosixOk} `{PriorityQueueOk}.

(** The reader returns [res] after at most [n] steps, whatever the cache holds
    at each of them. *)
Fixpoint answers (content : CacheKey → bytes) (n : nat) (rd : Reader) (res : response) : Prop :=
  match n with
  | O => False
  | S n' => ∃ out, runs content (reader_step rd) (Ok out) ∧
      match out with inl rd' => answers content n' rd' res | inr r => r = res end
  end.

Lemma answers_det content content' n rd res res' :
  answers content n rd res → answers content' n rd res' → res = res'.
Proof using Type.
  revert rd. induction n as [|n IH]; intros rd; [done|].
  intros (out & Hr & Ho) (out' & Hr' & Ho').
  pose proof (runs_det _ _ _ _ _ Hr Hr') as [= <-]. destruct out; [by eapply IH|congruence].
Qed.

Lemma answers_return content n ver r : answers content (S n) (Answered ver r) r.
Proof using Type. exists (inr r). split; [apply runs_ret|done]. Qed.

(** Every step brings the reader closer to its end. *)
Lemma reader_step_decreases rd c c' rd' :
  reader_step rd c = (c', Ok (inl rd')) →
  (reader_steps rd' < reader_steps rd)%nat ∧ reader_version rd' = reader_version rd.
Proof using Type.
  unfold reader_step, get_tables, scan_seek, scan_emit, mbind, cached_bind, mret, cached_ret, lift. intros E.
  repeat (case_match; simplify_eq/=); simpl; split; try done; lia.
Qed.

(** *** Point reads *)

Section Get.
Context (content : CacheKey → bytes) (ents : Z → list Entry).

(** A layer that has the answer ends the read. *)
Lemma answers_layer n rd rd' ls l k s r :
  runs content (reader_step rd)
    (Ok match lookup_ref l k s with NotFound => inl rd' | r => inr (Value (reader_value r)) end) →
  (first_answer (l :: ls) k s = r) →
  (lookup_ref l k s = NotFound → answers content n rd' (Value (reader_value (first_answer ls k s)))) →
  answers content (S n) rd (Value (reader_value r)).
Proof using Type.
  intros Hr <- Hrest. eexists. split; [exact Hr|]. cbn [first_answer].
  destruct (lookup_ref l k s); [by apply Hrest|done..].
Qed.

Lemma levels_answer ver k s levels :
  Forall (Forall (file_ok content ents)) levels → Forall level_ok levels →
  answers content (S (length levels)) (GetTables ver k s [] levels)
    (Value (reader_value (first_answer (file_entries ents <$> levels) k s))).
Proof using Type.
  intros Hok. induction Hok as [|fms levels Hf _ IH]; intros Hl.
  { eexists. split; [apply runs_ret|done]. }
  apply Forall_cons in Hl as [Hl Hls].
  eapply (answers_layer _ _ (GetTables ver k s [] levels)); [|done|intros _; by apply IH].
  cbn [reader_step get_tables scan_seek scan_emit]. eapply runs_bind; [by apply (get_level_runs content ents)|].
  destruct (lookup_ref _ k s); apply runs_ret.
Qed.

Lemma tables_answer ver k s l0 levels :
  Forall (file_ok content ents) l0 →
  Forall (Forall (file_ok content ents)) levels → Forall level_ok levels →
  answers content (S (length l0 + length levels)) (GetTables ver k s l0 levels)
    (Value (reader_value (first_answer
      (((λ fm, ents (fm_number fm)) <$> l0) ++ (file_entries ents <$> levels)) k s))).
Proof using Type.
  intros Hf Hok Hl. induction Hf as [|fm l0 Hfm _ IH]; [by apply levels_answer|].
  eapply (answers_layer _ _ (GetTables ver k s l0 levels)); [|done|intros _; exact IH].
  cbn [reader_step get_tables scan_seek scan_emit]. eapply runs_bind; [by apply (get_file_runs content ents)|].
  destruct (lookup_ref _ k s); apply runs_ret.
Qed.

End Get.

Lemma begin_get ents mes db k snap :
  db_rep ents mes db →
  ∃ rd, read_begin (QueryGet k snap) db = (db, Ok rd) ∧ reader_version rd = current_version_ db ∧
    ∀ ents', agrees (next_sst_number_ db) ents ents' →
      answers (content_of ents') (reader_steps rd) rd
        (Value (reader_value (lookup_ref (db_entries ents mes db) k (snap_seq snap)))).
Proof using Type.
  intros Hdb. set (s := snap_seq snap). set (v := current_version_ db).
  exists match lookup_ref mes k s with
    | NotFound => GetTables v k s (rev (files_at v 0)) (drop 1 (files v))
    | r => Answered v (Value (reader_value r)) end.
  split_and!.
  - unfold read_begin, get_begin, scan_begin, gets, liftr, mbind, dbm_bind.
    rewrite (lookup_represents _ _ k (snap_seq snap) (rep_mem _ _ _ Hdb)).
    unfold mret, dbm_ret. fold s v. by destruct (lookup_ref mes k s).
  - by destruct (lookup_ref mes k s).
  - intros ents' Ha. unfold db_entries. rewrite <- first_answer_correct by apply Hdb.
    cbn [db_layers first_answer]. fold v.
    destruct (lookup_ref mes k s); [|apply answers_return..].
    destruct (rep_files _ _ _ Hdb ents' Ha) as [Hv _].
    pose proof (version_layers_agrees _ _ _ _ Ha (rep_numbers _ _ _ Hdb)) as El. fold v in El, Hv.
    rewrite <- El. apply tables_answer; [by apply Forall_rev, files_at_ok|apply Forall_drop, Hv|apply Hv].
Qed.

(** *** Scans *)

Section Scan.
Context (content : CacheKey → bytes) (ents : Z → list Entry).

Definition pairs_of (es : list Entry) : list (bytes * bytes) := (λ e, (e_key e, e_value e)) <$> es.

Lemma pairs_snoc out e es :
  out ++ pairs_of (e :: es) = (out ++ [(e_key e, e_value e)]) ++ pairs_of es.
Proof using Type. by rewrite <- (assoc_L (++)). Qed.

Lemma emit_answer ver stop fuel it out l :
  pops content (heap_ it) l → sorted_entries l → (length l < fuel)%nat → mi_valid it = true →
  answers content (S fuel) (ScanEmit ver stop (S fuel) it out)
    (Pairs (out ++ pairs_of (take_while (λ e, bytes_leb (e_key e) stop)
      (mi_current it :: MergeIterator.outputs it l)))).
Proof.
  revert it out l. induction fuel as [|fuel IH]; intros it out l Hp Hs Hf Hv; [lia|].
  destruct (advance_runs content it l (S (S fuel)) Hp Hs) as (h' & l' & Hp' & Hs' & Hadv); [lia|].
  cbn [take_while]. destruct (bytes_leb (e_key (mi_current it)) stop) eqn:Hgo.
  - destruct (MergeIterator.outputs it l) as [|e rest].
    + eexists. split.
      { cbn [reader_step get_tables scan_seek scan_emit]. rewrite Hv, Hgo. eapply runs_bind; [exact Hadv|apply runs_ret]. }
      cbn beta iota. eexists. split; [apply runs_ret|done].
    + destruct Hadv as (Hadv & -> & Hlen). eexists. split.
      { cbn [reader_step get_tables scan_seek scan_emit]. rewrite Hv, Hgo. eapply runs_bind; [exact Hadv|apply runs_ret]. }
      cbn beta iota. rewrite pairs_snoc.
      apply (IH (with_heap it h' e true) _ l'); [done|done|lia|done].
  - eexists. split; [cbn [reader_step get_tables scan_seek scan_emit]; rewrite Hv, Hgo; apply runs_ret|]. simpl. by rewrite app_nil_r.
Qed.

Lemma merge_answer ver start stop s fuel sources ess :
  Forall2 (yields content) sources ess → Forall sorted_entries ess → (length (mjoin ess) < fuel)%nat →
  ∃ l, sorted_entries l ∧ l ≡ₚ mjoin ess ∧
    answers content (S fuel) (ScanSeek ver start stop s fuel sources [])
      (Pairs (pairs_of (take_while (λ e, bytes_leb (e_key e) stop) (merge_view false s None l)))).
Proof.
  intros Hy Hs Hf. destruct (filter_sources content sources ess Hy) as (ess' & Hy' & Hne & Hj & Hin).
  destruct (pops_exist content _ _ ess' eq_refl Hy' Hne) as (l & Hp & Hsl & Hpl).
  { apply Forall_forall. intros es He. rewrite Forall_forall in Hs. auto. }
  exists l. rewrite Hj in Hpl. split_and!; [done|done|].
  assert (length l < fuel)%nat as Hlen by (by rewrite Hpl). destruct fuel as [|fuel]; [lia|].
  set (it0 := mkMerge (List.filter src_valid sources) no_entry false s false false).
  destruct (advance_runs content it0 l (S fuel)) as (h' & l' & Hp' & Hs' & Hadv); [done|done|lia|].
  assert (MergeIterator.outputs it0 l = merge_view false s None l) as <- by done.
  destruct (MergeIterator.outputs it0 l) as [|e rest].
  - eexists. split; [eapply runs_bind; [exact Hadv|apply runs_ret]|].
    eexists. split; [apply runs_ret|done].
  - destruct Hadv as (Hadv & -> & Hlt).
    eexists. split; [eapply runs_bind; [exact Hadv|apply runs_ret]|].
    apply (emit_answer ver stop fuel (with_heap it0 h' e true) [] l'); [done|done|lia|done].
Qed.

Lemma seek_answer ver start stop s fuel sources ess todo :
  Forall (file_ok content ents) todo →
  Forall2 (yields content) sources ess → Forall sorted_entries ess →
  let all := ess ++ ((λ fm, skip_below start (ents (fm_number fm))) <$> todo) in
  (length (mjoin all) < fuel)%nat →
  ∃ l, sorted_entries l ∧ l ≡ₚ mjoin all ∧
    answers content (S (length todo + fuel)) (ScanSeek ver start stop s fuel sources todo)
      (Pairs (pairs_of (take_while (λ e, bytes_leb (e_key e) stop) (merge_view false s None l)))).
Proof.
  intros Hf. revert sources ess. induction Hf as [|fm todo [Hh _] _ IH]; intros sources ess Hy Hs all Hlen.
  { unfold all in *. rewrite fmap_nil, app_nil_r in *. by apply merge_answer. }
  destruct (th_seek _ _ _ Hh start) as (src & Hr & Hsy).
  destruct (IH (sources ++ [FromSSTable src]) (ess ++ [skip_below start (ents (fm_number fm))]))
    as (l & Hsl & Hpl & Han).
  - apply Forall2_app; [done|]. constructor; [by apply any_sstable_yields|constructor].
  - apply Forall_app. split; [done|]. constructor; [|constructor]. by eapply skip_below_sorted, Hh.
  - by rewrite <- (assoc_L (++)).
  - rewrite <- (assoc_L (++)) in Hpl. exists l. split_and!; [done|done|].
    eexists. split; [eapply runs_bind; [exact Hr|apply runs_ret]|exact Han].
Qed.

End Scan.

Lemma begin_scan ents mes db start stop snap :
  db_rep ents mes db →
  ∃ rd l, read_begin (QueryScan start stop snap) db = (db, Ok rd) ∧
    reader_version rd = current_version_ db ∧
    (∀ ents', agrees (next_sst_number_ db) ents ents' →
      answers (content_of ents') (reader_steps rd) rd (Pairs l)) ∧
    StronglySorted key_lt l.*1 ∧
    ∀ k v, (k, v) ∈ l ↔ key_le start k ∧ key_le k stop ∧
      reader_value (lookup_ref (db_entries ents mes db) k (snap_seq snap)) = Some v.
Proof.
  intros Hdb. set (s := snap_seq snap). set (v := current_version_ db).
  set (mt := List.filter (in_range start stop) mes). set (todo := scan_files v start stop).
  set (rd := ScanSeek v start stop s (scan_fuel mt todo) [FromSnapshot (snapshot_source mt)] todo).
  assert (∀ ents', agrees (next_sst_number_ db) ents ents' → ∃ out,
    answers (content_of ents') (reader_steps rd) rd (Pairs (pairs_of out)) ∧
    shows_range (db_entries ents mes db) start stop s out) as Hall.
  { intros ents' Ha. destruct (rep_files _ _ _ Hdb ents' Ha) as [Hv _]. fold v in Hv.
    pose proof (version_layers_agrees _ _ _ _ Ha (rep_numbers _ _ _ Hdb)) as El. fold v in El.
    assert (sorted_entries mes) as Hsm by (apply represents_sorted with (m := memtable_ db), Hdb).
    destruct (seek_answer (content_of ents') ents' v start stop s (scan_fuel mt todo)
      [FromSnapshot (snapshot_source mt)] [mt] todo) as (l & Hsl & Hpl & Han).
    - by apply scan_files_ok.
    - constructor; [|constructor]. by apply any_snapshot_yields, (snapshot_source_yields _ mt 0).
    - constructor; [by apply sorted_filter|constructor].
    - by apply (scan_fuel_enough ents' mt v start stop).
    - eexists. split; [exact Han|].
      pose proof (scan_view (content_of ents') ents' mes v start stop s l Hv) as Hsv.
      unfold version_entries in Hsv. rewrite El in Hsv. apply Hsv; [|done|done].
      apply (lo_unique _ _ (rep_layers _ _ _ Hdb)). }
  destruct (Hall ents (rep_agrees _ _ _ _ Hdb)) as (out & Han & Hout).
  exists rd, (pairs_of out). split_and!.
  - unfold read_begin, get_begin, scan_begin, gets, liftr, mbind, dbm_bind.
    rewrite (raw_range_represents _ _ start stop (rep_mem _ _ _ Hdb)); [done|].
    apply Forall_forall. intros e He. pose proof (rep_mem_ok _ _ _ Hdb) as Hm.
    rewrite Forall_forall in Hm. destruct (Hm e He) as [? _]. unfold u64_max. lia.
  - done.
  - intros ents' Ha. destruct (Hall ents' Ha) as (out' & Han' & _).
    by rewrite (answers_det _ _ _ _ _ _ Han Han').
  - apply (shows_range_pairs _ start stop s out Hout).
  - apply (shows_range_pairs _ start stop s out Hout).
Qed.

(** *** The locked section *)

(** What a query sees, and that the contract allows it. *)
Lemma query_view ents mes db sp snap :
  refines ents mes db sp → (∀ s, snap = Some s → s ∈ live_snapshots_ db) →
  ∃ m, (∀ k, reader_value (lookup_ref (db_entries ents mes db) k (snap_seq snap)) = m !! k) ∧
    (∀ k, spec_step sp (query_call (QueryGet k snap)) (Value (m !! k)) sp) ∧
    ∀ start stop l, is_range m start stop l →
      spec_step sp (query_call (QueryScan start stop snap)) (Pairs l) sp.
Proof.
  intros Href Hsnap. destruct snap as [s|].
  - destruct (snap_of_live _ _ _ _ _ Href (Hsnap s eq_refl)) as [m Hm]. exists m. split_and!.
    + apply (rf_snaps _ _ _ _ Href s m Hm).
    + intros k. by constructor.
    + intros start stop l Hl. by apply (spec_step_scan_at _ _ _ _ m).
  - exists (sp_map sp). split_and!; [apply (rf_map _ _ _ _ Href)|constructor|by constructor].
Qed.

(** The answer of a read is fixed in its locked section. *)
Lemma begin_ok ents mes db sp q :
  refines ents mes db sp → call_safe db (query_call q) →
  ∃ rd r, read_begin q db = (db, Ok rd) ∧ spec_step sp (query_call q) r sp ∧
    reader_version rd = current_version_ db ∧
    ∀ ents', agrees (next_sst_number_ db) ents ents' →
      answers (content_of ents') (reader_steps rd) rd r.
Proof.
  intros Href Hsafe. destruct q as [k snap|start stop snap].
  - destruct (query_view ents mes db sp snap Href) as (m & Hm & Hg & _); [intros s ->; exact Hsafe|].
    destruct (begin_get ents mes db k snap) as (rd & E & Hv & Han); [apply Href|].
    rewrite Hm in Han. eauto 10.
  - destruct (query_view ents mes db sp snap Href) as (m & Hm & _ & Hsc); [intros s ->; exact Hsafe|].
    destruct (begin_scan ents mes db start stop snap) as (rd & l & E & Hv & Han & Hs & Hl); [apply Href|].
    exists rd, (Pairs l). split_and!; [done| |done|done]. apply Hsc. split; [done|].
    intros k v. by rewrite Hl, Hm.
Qed.

End ReaderLemmas.

(** ** What an action does to the directory *)

(** The table file the compaction thread is writing. *)
Definition writing (w : Worker) : option Z :=
  match w with Merging _ _ _ _ x => fst <$> v_writer x | _ => None end.

(** The code leaves file [n] alone or unlinks it; [Q] holds of what it
    returns. *)
Definition framed {A} (n : Z) (m : dbm A) (Q : A → Prop) : Prop :=
  ∀ db, n < next_sst_number_ db → let r := m db in
    next_sst_number_ db ≤ next_sst_number_ r.1 ∧
    (db_dir r.1 !! n = db_dir db !! n ∨ db_dir r.1 !! n = None) ∧
    ∀ a, r.2 = Ok a → Q a.

Section Framed.
Context (n : Z).

Lemma framed_bind {A B} (m : dbm A) (f : A → dbm B) Q R :
  framed n m Q → (∀ a, Q a → framed n (f a) R) → framed n (m ≫= f) R.
Proof.
  intros Hm Hf db Hn. unfold mbind, dbm_bind. specialize (Hm db Hn). destruct (m db) as [db1 r1].
  cbn [fst snd] in Hm. destruct Hm as (Hn1 & Hd1 & HQ). destruct r1 as [a| |]; [|by split_and!..].
  specialize (Hf a (HQ a eq_refl) db1 ltac:(lia)) as (Hn2 & Hd2 & HR).
  split_and!; [lia| |done]. destruct Hd2 as [->| ->]; [done|by right].
Qed.

(** Code that only looks at the directory and at the counter of the files. *)
Lemma framed_same {A} (m : dbm A) (Q : A → Prop) :
  (∀ db, next_sst_number_ (m db).1 = next_sst_number_ db ∧ db_dir (m db).1 = db_dir db ∧
    ∀ a, (m db).2 = Ok a → Q a) →
  framed n m Q.
Proof. intros Hm db Hn r. destruct (Hm db) as (E1 & E2 & E3). subst r. rewrite E1, E2. split_and!; [lia|by left|done]. Qed.

Lemma framed_true {A} (m : dbm A) (Q : A → Prop) :
  framed n m (λ _, True) → (∀ a, Q a) → framed n m Q.
Proof. intros Hm HQ db Hn. destruct (Hm db Hn) as (? & ? & _). by split_and!. Qed.

Lemma framed_ret {A} (a : A) (Q : A → Prop) : Q a → framed n (mret a) Q.
Proof. intros Ha. apply framed_same. intros db. split_and!; [done..|]. by intros b [= <-]. Qed.

Lemma framed_liftr {A} (r : result A) : framed n (liftr r) (λ a, r = Ok a).
Proof. by apply framed_same. Qed.

Lemma framed_gets {A} (f : DB → A) : framed n (gets f) (λ _, True).
Proof. by apply framed_same. Qed.

Lemma framed_modify (f : DB → DB) :
  (∀ db, next_sst_number_ (f db) = next_sst_number_ db ∧ db_dir (f db) = db_dir db) →
  framed n (modify f) (λ _, True).
Proof. intros Hf. apply framed_same. intros db. by split_and!; [apply Hf|apply Hf|]. Qed.

Lemma framed_with_cache {A} (m : cached A) : framed n (with_cache m) (λ _, True).
Proof. by apply framed_same. Qed.

Lemma framed_alloc : framed n alloc_sst_number (λ num, num ≠ n).
Proof.
  intros db Hn. unfold alloc_sst_number. case_match; cbn [fst snd next_sst_number_ set_next_sst db_dir];
    (split_and!; [lia|by left|]); [|done]. intros a [= <-]. lia.
Qed.

(** A new file is put in place. *)
Lemma framed_install `{Posix} {A} num f (k : dbm A) Q :
  num ≠ n → framed n k Q →
  framed n (dir ← gets db_dir; dir' ← liftr (install dir num f); _ ← modify (set_dir dir'); k) Q.
Proof.
  intros Hnum Hk db Hn. unfold mbind, dbm_bind, gets, liftr, modify.
  destruct (install (db_dir db) num f) as [dir'| |] eqn:E; [|split_and!; [done|by left|done]..].
  assert (dir' !! n = db_dir db !! n) as Ed.
  { unfold install in E. repeat (case_match; simplify_eq/=); by rewrite lookup_insert_ne. }
  rewrite <- Ed. by apply (Hk (set_dir dir' db)).
Qed.

End Framed.

(** Walks through code whose parts leave the file alone. *)
Ltac framing :=
  repeat match goal with
    | |- framed _ (_ ← gets db_dir; _ ← liftr (install _ _ _); _ ← modify (set_dir _); _) _ =>
        apply framed_install; [done|]
    | |- framed _ (mret _) _ => apply framed_ret
    | |- framed _ (gets _) _ => eapply framed_true; [apply framed_gets|]
    | |- framed _ (liftr _) _ => eapply framed_true; [apply framed_same; done|]
    | |- framed _ (with_cache _) _ => eapply framed_true; [apply framed_with_cache|]
    | |- framed _ (modify _) _ =>
        eapply framed_true; [apply framed_modify; intros ?; repeat case_match; done|]
    | |- framed _ (_ ≫= _) _ => eapply framed_bind; [solve [eauto with framed]|intros ??]
    | |- framed _ (if ?b then _ else _) _ => destruct b
    | |- framed _ (match ?x with _ => _ end) _ => destruct x
    | _ => first [done | solve [eauto with framed]]
    end.

Create HintDb framed.
#[local] Hint Resolve framed_gets framed_liftr framed_with_cache framed_alloc : framed.
#[local] Hint Extern 1 (framed _ (modify _) _) =>
  apply framed_modify; intros ?; repeat case_match; done : framed.

Section FramedOps.
#[local] Set Default Proof Using "Type".
Context `{Posix} `{PriorityQueue} (n : Z).
Abbreviation ok m := (framed n m (λ _, True)).

Lemma framed_append_wal rs : ok (append_wal rs).
Proof. apply framed_same. intros db. unfold append_wal. by destruct (wal_null db). Qed.

Lemma framed_append_manifest es : ok (append_manifest es).
Proof. by apply framed_same. Qed.

Lemma framed_reset_wal : ok reset_wal.
Proof. apply framed_same. intros db. unfold reset_wal. by destruct (sys_resize _). Qed.

Lemma framed_take_numbers batch : ok (take_numbers batch).
Proof. by apply framed_same. Qed.
#[local] Hint Resolve framed_append_wal framed_append_manifest framed_reset_wal framed_take_numbers : framed.

Lemma framed_commit rs coins : ok (commit_records rs coins).
Proof. unfold commit_records. framing. Qed.

Lemma framed_level0 num : num ≠ n → ok (write_level0 num).
Proof. intros Hn. unfold write_level0. framing. Qed.

Lemma framed_trigger : ok trigger_compaction.
Proof. unfold trigger_compaction. framing. Qed.
#[local] Hint Resolve framed_commit framed_level0 framed_trigger : framed.

Lemma framed_flush : ok flush.
Proof. unfold flush. framing. Qed.
#[local] Hint Resolve framed_flush : framed.

Lemma framed_maybe_flush : ok maybe_flush.
Proof. unfold maybe_flush. framing. Qed.
#[local] Hint Resolve framed_maybe_flush : framed.

Lemma framed_write_batch batch coins : ok (write_batch batch coins).
Proof. unfold write_batch. framing. Qed.

Lemma framed_get k s : ok (get_impl k s).
Proof. unfold get_impl. framing. Qed.

Lemma framed_scan start stop s : ok (scan_impl start stop s).
Proof. unfold scan_impl. framing. Qed.

Lemma framed_get_snapshot : ok get_snapshot.
Proof. by apply framed_same. Qed.

Lemma framed_release_snapshot s : ok (release_snapshot s).
Proof. apply framed_same. intros db. unfold release_snapshot. by case_bool_decide. Qed.
#[local] Hint Resolve framed_write_batch framed_get framed_scan framed_get_snapshot
  framed_release_snapshot : framed.

Lemma framed_call c : ok (run_call c).
Proof. destruct c; unfold run_call, get, scan; framing. Qed.

(** The thread is writing another file. *)
Definition spares (x : CompactVars) : Prop := fst <$> v_writer x ≠ Some n.

Lemma framed_finish_writer level x : spares x → framed n (finish_writer level x) spares.
Proof.
  unfold finish_writer, spares. intros Hx. destruct (v_writer x) as [[num w]|] eqn:E; [|by apply framed_ret; rewrite E].
  assert (num ≠ n) by (intros ->; by apply Hx). eapply framed_bind; [apply framed_liftr|intros f _].
  framing.
Qed.

Lemma framed_start_writer x : spares x → framed n (start_writer x) spares.
Proof.
  unfold start_writer, spares. intros Hx. destruct (v_writer x) eqn:E; [by apply framed_ret; rewrite E|].
  eapply framed_bind; [apply framed_alloc|]. intros num Hnum. apply framed_ret. simpl. congruence.
Qed.

Lemma framed_compact_step oldest job x e : spares x → framed n (compact_step oldest job x e) spares.
Proof.
  intros Hx. unfold compact_step, write_kept. destruct (keep_step _ _ _ _) as [st []]; cbn [fst snd];
    [|by apply framed_ret]. eapply framed_bind; [by apply framed_start_writer|]. intros x1 Hx1.
  unfold spares in Hx1. destruct (v_writer x1) as [[num w]|]; [|by apply framed_same].
  eapply framed_bind; [apply framed_liftr|intros w' _]. eapply framed_bind; [apply framed_gets|intros o _].
  destruct (_ <=? _); [by apply framed_finish_writer|by apply framed_ret].
Qed.

Lemma framed_pick : framed n pick_job (λ w, writing w ≠ Some n).
Proof. unfold pick_job. framing. Qed.

Lemma framed_open snap job oldest : framed n (open_merge snap job oldest) (λ w, writing w ≠ Some n).
Proof. unfold open_merge. framing. Qed.

Lemma framed_round snap job oldest it x :
  spares x → framed n (merge_round snap job oldest it x) (λ w, writing w ≠ Some n).
Proof.
  intros Hx. unfold merge_round. destruct (mi_valid it).
  - eapply framed_bind; [by apply framed_compact_step|]. intros x' Hx'.
    eapply framed_bind; [apply framed_with_cache|]. intros it' _. by apply framed_ret.
  - eapply framed_bind; [by apply framed_finish_writer|]. intros x' _. by apply framed_ret.
Qed.

Lemma framed_unlink dead : ok (modify (λ db, set_dir (unlink dead (db_dir db)) db)).
Proof.
  intros db Hn. cbn. split_and!; [lia| |done]. unfold unlink.
  destruct (filter _ (db_dir db) !! n) as [f|] eqn:E; [left|by right].
  by apply map_lookup_filter_Some in E as [-> _].
Qed.
#[local] Hint Resolve framed_append_manifest framed_unlink : framed.

Lemma framed_commit_job snap job outs : framed n (commit_job snap job outs) (λ w, writing w ≠ Some n).
Proof.
  unfold commit_job. eapply (framed_bind _ _ _ (λ _, True)).
  - unfold install_version. destruct outs; [by apply framed_ret|]. framing.
  - intros _ _. framing.
Qed.

Lemma framed_worker w :
  writing w ≠ Some n → framed n (worker_step w) (λ w', writing w' ≠ Some n).
Proof.
  intros Hw. destruct w; [apply framed_pick|apply framed_open|by apply framed_round|apply framed_commit_job].
Qed.

(** An action leaves the files below the counter alone or unlinks them. *)
Lemma action_framed a s s' o :
  run_action a s = (s', Ok o) → n < next_sst_number_ s.1 → writing s.2 ≠ Some n →
  (db_dir s'.1 !! n = db_dir s.1 !! n ∨ db_dir s'.1 !! n = None) ∧ writing s'.2 ≠ Some n.
Proof.
  destruct s as [db w]. cbn [fst snd]. intros E Hn Hw.
  assert (∀ A (m : dbm A), ok m → db_dir (m db).1 !! n = db_dir db !! n ∨ db_dir (m db).1 !! n = None)
    as Hok by (intros A m Hm; apply (Hm db Hn)).
  destruct a as [c| | |]; cbn [run_action fst snd] in E.
  - injection E as <- _. split; [apply Hok, framed_call|done].
  - destruct (worker_ready db w); [|by simplify_eq; split; [left|]].
    destruct (framed_worker w Hw db Hn) as (_ & Hd & HQ).
    destruct (worker_step w db) as [db' [w'| |]]; simplify_eq. split; [done|]. by apply HQ.
  - injection E as <- _. split; [by left|done].
  - injection E as <- _. split; [|done]. apply Hok. unfold compact_poll. framing.
Qed.

End FramedOps.

(** ** The invariant *)

(** A table that a reader holds still has its file. *)
Definition file_in_place `{Posix} (sh : Shared) (fm : FileMeta) : Prop :=
  ∃ f, table_files sh !! fm_number fm = Some f ∧
    sst_open (fm_number fm) (f_data f) = Ok (fm_table fm).

Record holds_file `{Posix} (sh : Shared) (fm : FileMeta) : Prop := {
  hf_number : fm_number fm < next_sst_number_ (sh_store sh).1;
  hf_writing : writing (sh_store sh).2 ≠ Some (fm_number fm);
  hf_file : file_in_place sh fm;
}.

(** A reader that will return [r]; it needs the files below [n0] only. *)
Record reading `{Posix} `{PriorityQueue} (ents : Z → list Entry) (sh : Shared) (rd : Reader)
    (r : response) : Prop := {
  rg_answers : ∃ n0 n, n0 ≤ next_sst_number_ (sh_store sh).1 ∧
    ∀ ents', agrees n0 ents ents' → answers (content_of ents') n rd r;
  rg_files : Forall (holds_file sh) (mjoin (files (reader_version rd)));
}.

Record shared_alive `{Posix} `{PriorityQueue} (sh : Shared) (hist : list WriteRequest) (sp : Spec)
    (p : Pending) (j : Journal) (ents : Z → list Entry) (mes : list Entry) : Prop := {
  sa_alive : alive (sh_store sh) hist j ents mes sp;
  sa_readers : map_Forall2 (λ _, reading ents sh) (sh_readers sh) p;
  sa_doomed : map_Forall (λ n _, n < next_sst_number_ (sh_store sh).1 ∧ n ∈ held_numbers (sh_readers sh))
    (sh_doomed sh);
  sa_disjoint : sh_doomed sh ##ₘ db_dir (sh_store sh).1;
}.

Definition shared_ok `{Posix} `{PriorityQueue} (sh : Shared) (hist : list WriteRequest) (settled : bool) (sp : Spec)
    (p : Pending) : Prop := ∃ j ents mes, j_settled j = settled ∧ shared_alive sh hist sp p j ents mes.

Lemma readers_lookup {A B} (R : nat → A → B → Prop) (m : gmap nat A) (p : gmap nat B) i x :
  map_Forall2 R m p → m !! i = Some x → ∃ y, p !! i = Some y ∧ R i x y.
Proof. intros Hm Hi. specialize (Hm i). rewrite Hi in Hm. inversion Hm; subst. eauto. Qed.

Lemma readers_None {A B} (R : nat → A → B → Prop) (m : gmap nat A) (p : gmap nat B) i :
  map_Forall2 R m p → m !! i = None → p !! i = None.
Proof. intros Hm Hi. specialize (Hm i). rewrite Hi in Hm. by inversion Hm. Qed.

Lemma readers_impl {A B} (R R' : nat → A → B → Prop) (m : gmap nat A) (p : gmap nat B) :
  map_Forall2 R m p → (∀ i x y, m !! i = Some x → R i x y → R' i x y) → map_Forall2 R' m p.
Proof.
  intros Hm Himp i. specialize (Hm i). specialize (Himp i).
  destruct Hm; constructor. by apply Himp.
Qed.

Lemma elem_of_held readers n :
  n ∈ held_numbers readers ↔ ∃ i rd, readers !! i = Some rd ∧ n ∈ version_numbers (reader_version rd).
Proof.
  unfold held_numbers. rewrite list_elem_of_bind. split.
  - intros ([i rd] & Hn & Hi%elem_of_map_to_list). eauto.
  - intros (i & rd & Hi & Hn). exists (i, rd). split; [done|]. by apply elem_of_map_to_list.
Qed.

Lemma held_file readers i rd fm :
  readers !! i = Some rd → fm ∈ mjoin (files (reader_version rd)) →
  fm_number fm ∈ held_numbers readers.
Proof. intros Hi Hfm. apply elem_of_held. exists i, rd. split; [done|]. by apply list_elem_of_fmap_2. Qed.

Lemma still_held_lookup readers doomed n f :
  n ∈ held_numbers readers → doomed !! n = Some f → still_held readers doomed !! n = Some f.
Proof. intros Hn Hd. by apply map_lookup_filter_Some_2. Qed.

Lemma still_held_None readers doomed n : doomed !! n = None → still_held readers doomed !! n = None.
Proof. intros Hd. apply map_lookup_filter_None_2. by left. Qed.

Section SharedLemmas.
#[local] Set Default Proof Using "All".
Context `{PosixOk} `{PriorityQueueOk}.

(** Code that reads through the cache leaves a life as it is. *)
Lemma alive_cached {A} s hist j ents mes sp (m : cached A) a :
  alive s hist j ents mes sp →
  (∀ ents', agrees (next_sst_number_ s.1) ents ents' → runs (content_of ents') m (Ok a)) →
  ∃ c, with_cache m s.1 = (set_cache c s.1, Ok a) ∧ alive (set_cache c s.1, s.2) hist j ents mes sp.
Proof.
  intros [Href Hw Hdu Hj] Hm.
  destruct (with_cache_ok ents mes s.1 sp m (λ _ a', a' = a) Href) as (c & a' & E & Hi & Ha).
  { intros ents' Hag. exists a. auto. }
  rewrite (Ha ents (rep_agrees _ _ _ _ (rf_rep _ _ _ _ Href))) in E. exists c. split; [done|].
  destruct Hi as (Href' & Hg & Hdu'). split; [done| |by apply Hdu'|done].
  apply (worker_evolves ents mes s.1 sp ents mes (set_cache c s.1) sp); [done| |done|done]. by split.
Qed.

(** The tables of the current version have their files. *)
Lemma current_held sh hist j ents mes sp :
  alive (sh_store sh) hist j ents mes sp → sh_doomed sh ##ₘ db_dir (sh_store sh).1 →
  Forall (holds_file sh) (mjoin (files (current_version_ (sh_store sh).1))).
Proof.
  intros [Href Hw Hdu _] Hdis. pose proof (du_files _ _ _ _ Hdu) as Hf.
  pose proof (rep_numbers _ _ _ (rf_rep _ _ _ _ Href)) as Hn. rewrite Forall_forall in Hf, Hn |- *.
  intros fm Hfm. destruct (Hf fm Hfm) as (bloom & Hb & Hd). split; [by apply Hn| |].
  - destruct Hw as [| |snap job oldest l total it x seen rest [_ _ _ Hwr _]|]; [done|done| |done].
    pose proof (wr_numbers _ _ _ _ _ _ Hwr) as Hnd. apply NoDup_app in Hnd as (_ & Hnd & _).
    simpl. intros E. apply (Hnd (fm_number fm)); [by apply list_elem_of_fmap_2|].
    unfold own_numbers. apply elem_of_app. right. destruct (v_writer x) as [[num w]|]; simplify_eq/=. by left.
  - eexists. split; [by apply lookup_union_Some_r|]. cbn [f_data table_file].
    rewrite sst_open_image; [|apply Hb..]. f_equal. by rewrite (fb_meta _ _ _ Hb).
Qed.

(** *** Actions of the store *)

Lemma reading_keeps ents sh ents' sh' rd r :
  reading ents sh rd r → keeps_files ents (sh_store sh).1 ents' (sh_store sh').1 →
  Forall (holds_file sh') (mjoin (files (reader_version rd))) → reading ents' sh' rd r.
Proof.
  intros [(n0 & n & Hn0 & Han) _] [Hk Hn] Hf. split; [|done]. exists n0, n. split; [lia|].
  intros ents'' [Hfit Ha]. apply Han. split; [done|]. intros i Hi. rewrite Ha by done. apply Hk. lia.
Qed.

(** A file that is held stays: in the directory of the database, or as one of
    those that wait for the end of their tables. *)
Lemma act_holds a sh s' o fm :
  run_action a (sh_store sh) = (s', Ok o) →
  next_sst_number_ (sh_store sh).1 ≤ next_sst_number_ s'.1 →
  fm_number fm ∈ held_numbers (sh_readers sh) → holds_file sh fm →
  holds_file (run_act a sh).1 fm.
Proof.
  intros E Hn Hheld [Hnum Hwr (f & Hf & Ho)]. unfold run_act. rewrite E.
  destruct (action_framed (fm_number fm) a (sh_store sh) s' o E Hnum Hwr) as [Hd Hwr'].
  split; cbn [sh_store sh_doomed sh_readers fst]; [lia|done|]. exists f. split; [|done].
  unfold table_files in *. cbn [sh_store sh_doomed fst]. apply lookup_union_Some_raw in Hf.
  apply lookup_union_Some_raw. destruct Hf as [Hf|[Hnone Hf]].
  - left. apply still_held_lookup; [done|]. by apply lookup_union_Some_l.
  - destruct Hd as [Hd|Hd].
    + right. rewrite Hd, Hf. split; [|done]. apply still_held_None.
      apply lookup_union_None_2; [done|]. apply lookup_difference_None. right. by rewrite Hd, Hf.
    + left. apply still_held_lookup; [done|]. rewrite lookup_union_r by done.
      by apply lookup_difference_Some.
Qed.

Lemma act_ok sh hist sp p j ents mes a :
  shared_alive sh hist sp p j ents mes → action_durable a (sh_store sh) →
  ∃ sh' o sp' j' ents' mes', run_act a sh = (sh', Ok o) ∧ spec_action sp a o sp' ∧
    j_settled j' = settles a (sh_store sh) (j_settled j) ∧
    shared_alive sh' (hist ++ action_writes a) sp' p j' ents' mes'.
Proof.
  intros [Hal Hrd Hdm Hdis] Ha.
  destruct (alive_action _ _ _ _ _ _ a Hal Ha) 
    as (s' & o & sp' & j' & ents' & mes' & E & Hs & Hset & Hal' & Hk).
  pose proof (proj2 Hk) as Hnext.
  assert (∀ i rd r, sh_readers sh !! i = Some rd → reading ents sh rd r →
    Forall (holds_file (run_act a sh).1) (mjoin (files (reader_version rd)))) as Hheld.
  { intros i rd r Hi [_ Hf]. rewrite Forall_forall in Hf |- *. intros fm Hfm.
    eapply act_holds; [exact E|done| |auto]. by eapply held_file. }
  exists (run_act a sh).1, o, sp', j', ents', mes'. unfold run_act in *. rewrite E in *. cbn [fst snd] in *.
  split_and!; [done|done|done|]. split; cbn [sh_store sh_readers sh_doomed]; [done| | |].
  - eapply readers_impl; [exact Hrd|]. intros i rd r Hi Hr.
    apply (reading_keeps ents sh); [exact Hr|done|]. exact (Hheld i rd r Hi Hr).
  - intros n f [Hn Hh]%map_lookup_filter_Some. split; [|done]. apply lookup_union_Some_raw in Hn as [Hn|[_ Hn]].
    + destruct (Hdm n f Hn). lia.
    + apply lookup_difference_Some in Hn as [Hn _].
      pose proof (du_dir _ _ _ _ (al_durable _ _ _ _ _ _ Hal) n ltac:(by exists f)). lia.
  - apply map_disjoint_spec. intros n f f' [Hn Hh]%map_lookup_filter_Some Hd'.
    apply lookup_union_Some_raw in Hn as [Hn|[_ [_ Hn]%lookup_difference_Some]]; [|congruence].
    apply elem_of_held in Hh as (i & rd & Hi & (fm & En & Hfm)%list_elem_of_fmap).
    cbn [fst] in En. subst n.
    destruct (readers_lookup _ _ _ _ _ Hrd Hi) as (r & _ & [_ Hf]). rewrite Forall_forall in Hf.
    destruct (Hf fm Hfm) as [Hnum Hwr _].
    destruct (action_framed (fm_number fm) a (sh_store sh) s' o E Hnum Hwr) as [[Hd|Hd] _]; [|congruence].
    rewrite Hd in Hd'. by eapply map_disjoint_spec.
Qed.

(** *** Steps of readers *)

(** Holding a file does not depend on the other readers nor on the cache. *)
Lemma holds_same sh sh' fm :
  holds_file sh fm → table_files sh' !! fm_number fm = table_files sh !! fm_number fm →
  next_sst_number_ (sh_store sh').1 = next_sst_number_ (sh_store sh).1 →
  (sh_store sh').2 = (sh_store sh).2 → holds_file sh' fm.
Proof using Type.
  intros [Hn Hw (f & Hf & Ho)] Et En Ew. split; rewrite ?En, ?Ew; [done|done|].
  exists f. by rewrite Et.
Qed.

Lemma reading_same ents sh sh' rd r :
  reading ents sh rd r →
  (∀ fm, fm ∈ mjoin (files (reader_version rd)) →
    table_files sh' !! fm_number fm = table_files sh !! fm_number fm) →
  next_sst_number_ (sh_store sh').1 = next_sst_number_ (sh_store sh).1 →
  (sh_store sh').2 = (sh_store sh).2 → reading ents sh' rd r.
Proof.
  intros [(n0 & n & Hn0 & Han) Hf] Et En Ew. split; [exists n0, n; by rewrite En|].
  rewrite Forall_forall in Hf |- *. intros fm Hfm. apply (holds_same sh); auto.
Qed.

Lemma doomed_held readers readers' n :
  n ∈ held_numbers readers →
  (∀ i rd, readers !! i = Some rd →
    ∃ rd', readers' !! i = Some rd' ∧ reader_version rd' = reader_version rd) →
  n ∈ held_numbers readers'.
Proof using Type.
  intros (i & rd & Hi & Hn)%elem_of_held Hr. apply elem_of_held.
  destruct (Hr i rd Hi) as (rd' & Hi' & Ev). exists i, rd'. by rewrite Ev.
Qed.

Lemma run_begin_ok sh hist sp p j ents mes i q :
  shared_alive sh hist sp p j ents mes → call_safe (sh_store sh).1 (query_call q) →
  ∃ sh' p', run_begin i q sh = (sh', Ok Silent) ∧ spec_shared sp p (ReadBegin i q) Silent sp p' ∧
    shared_alive sh' hist sp p' j ents mes.
Proof.
  intros Hsa Hsafe. pose proof (sa_readers _ _ _ _ _ _ _ Hsa) as Hrd0. unfold run_begin.
  destruct (sh_readers sh !! i) as [rd|] eqn:Ei.
  { destruct (readers_lookup _ _ _ _ _ Hrd0 Ei) as (r & Hp & _).
    exists sh, p. split_and!; [done|apply spec_busy; by exists r|done]. }
  pose proof (readers_None _ _ _ _ Hrd0 Ei) as Hp. clear Hrd0. destruct Hsa as [Hal Hrd Hdm Hdis].
  destruct (begin_ok ents mes _ sp q (al_refines _ _ _ _ _ _ Hal) Hsafe) as (rd & r & E & Hs & Ev & Han).
  rewrite E. eexists _, (<[i := r]> p). split_and!; [done|by apply spec_begin|].
  assert (((sh_store sh).1, (sh_store sh).2) = sh_store sh) as Est by (by destruct (sh_store sh)).
  rewrite Est. split; cbn [sh_store sh_readers sh_doomed]; [done| | |done].
  - apply map_Forall2_insert_2.
    + split.
      * exists (next_sst_number_ (sh_store sh).1), (reader_steps rd). split; [done|exact Han].
      * rewrite Ev. eapply Forall_impl; [by eapply current_held|]. intros fm Hfm. by apply (holds_same sh).
    + eapply readers_impl; [exact Hrd|]. intros i' rd' r' _ Hr. by apply (reading_same ents sh).
  - eapply map_Forall_impl; [exact Hdm|]. intros n f [Hn Hh]. split; [done|].
    eapply doomed_held; [exact Hh|]. intros i' rd' Hi'. exists rd'. split; [|done].
    rewrite lookup_insert_ne; [done|]. congruence.
Qed.

Lemma run_step_ok sh hist sp p j ents mes i :
  shared_alive sh hist sp p j ents mes →
  ∃ sh' o p', run_step i sh = (sh', Ok o) ∧ spec_shared sp p (ReadStep i) o sp p' ∧
    shared_alive sh' hist sp p' j ents mes.
Proof.
  intros Hsa. unfold run_step. destruct (sh_readers sh !! i) as [rd|] eqn:Ei.
  2:{ exists sh, Silent, p. split_and!; [done|apply spec_working|done]. }
  destruct Hsa as [Hal Hrd Hdm Hdis].
  destruct (readers_lookup _ _ _ _ _ Hrd Ei) as (r & Hp & [(n0 & n & Hn0 & Han) Hf]).
  pose proof (rep_agrees ents mes (sh_store sh).1 n0 (rf_rep _ _ _ _ (al_refines _ _ _ _ _ _ Hal))) as Hag0.
  destruct n as [|n]; [destruct (Han ents Hag0)|].
  destruct (Han ents Hag0) as (out & Hr & Hout).
  assert (∀ ents', agrees n0 ents ents' → runs (content_of ents') (reader_step rd) (Ok out)) as Hall.
  { intros ents' Ha. destruct (Han ents' Ha) as (out' & Hr' & _).
    by rewrite (runs_det _ _ _ _ _ Hr Hr'). }
  destruct (alive_cached (sh_store sh) hist j ents mes sp (reader_step rd) out Hal) as (c & E & Hal').
  { intros ents' [Hfit Ha]. apply Hall. split; [done|]. intros k Hk. apply Ha. lia. }
  rewrite E. cbn [fst snd]. destruct out as [rd'|res].
  - assert (reader_version rd' = reader_version rd) as Ev.
    { destruct (Hr None I) as [Er _]. destruct (reader_step rd None) as [c' ?] eqn:Es.
      cbn [snd] in Er. subst. by eapply reader_step_decreases. }
    eexists _, Silent, p. split_and!; [done|apply spec_working|].
    split; cbn [sh_store sh_readers sh_doomed]; [done| | |done].
    + rewrite <- (insert_id p i r Hp). apply map_Forall2_insert_2.
      * split; [|rewrite Ev; eapply Forall_impl; [exact Hf|]; intros fm Hfm; by apply (holds_same sh)].
        exists n0, n. split; [done|]. intros ents' Ha. destruct (Han ents' Ha) as (out' & Hr' & Hout').
        pose proof (runs_det _ _ _ _ _ Hr Hr') as [= <-]. exact Hout'.
      * eapply readers_impl; [exact Hrd|]. intros i' rd2 r' _ Hrd2. by apply (reading_same ents sh).
    + eapply map_Forall_impl; [exact Hdm|]. intros k f [Hk Hh]. split; [done|].
      eapply doomed_held; [exact Hh|]. intros i' rd2 Hi'. destruct (decide (i' = i)) as [->|Hne].
      * exists rd'. rewrite lookup_insert_eq. split; [done|]. congruence.
      * exists rd2. by rewrite lookup_insert_ne.
  - subst res. set (readers := delete i (sh_readers sh)).
    eexists _, (Returned r), (delete i p). split_and!; [done|by apply spec_return|].
    split; cbn [sh_store sh_readers sh_doomed]; [done| | |].
    + eapply readers_impl; [by apply map_Forall2_delete|]. intros i' rd2 r' Hi' Hrd2.
      apply (reading_same ents sh); [done| |done|done]. intros fm Hfm.
      unfold table_files. cbn [sh_store sh_doomed fst]. rewrite !lookup_union. f_equal.
      destruct (sh_doomed sh !! fm_number fm) as [f|] eqn:Ed; [|by apply still_held_None].
      apply still_held_lookup; [|done]. by eapply held_file.
    + intros k f [Hk Hh]%map_lookup_filter_Some. destruct (Hdm k f Hk). by split.
    + eapply map_disjoint_weaken_l; [exact Hdis|]. apply map_filter_subseteq.
Qed.

(** Every action of a store with readers returns and follows the contract. *)
Lemma shared_step sh hist b sp p a :
  shared_ok sh hist b sp p → shared_safe a sh →
  ∃ sh' o sp' p', run_shared a sh = (sh', Ok o) ∧ spec_shared sp p a o sp' p' ∧
    shared_ok sh' (hist ++ shared_writes a) (settles_one a sh b) sp' p'.
Proof.
  intros (j & ents & mes & Hset & Hsa) Hsafe. destruct a as [a|i q|i]; cbn [run_shared shared_writes].
  - destruct (act_ok sh hist sp p j ents mes a Hsa Hsafe) 
      as (sh' & o & sp' & j' & ents' & mes' & E & Hs & Hset' & Hsa').
    exists sh', o, sp', p. split_and!; [done|by constructor|]. exists j', ents', mes'. by subst b.
  - destruct (run_begin_ok sh hist sp p j ents mes i q Hsa Hsafe) as (sh' & p' & E & Hs & Hsa').
    exists sh', Silent, sp, p'. rewrite app_nil_r. split_and!; [done|done|]. by exists j, ents, mes.
  - destruct (run_step_ok sh hist sp p j ents mes i Hsa) as (sh' & o & p' & E & Hs & Hsa').
    exists sh', o, sp, p'. rewrite app_nil_r. split_and!; [done|done|]. by exists j, ents, mes.
Qed.

Lemma shared_run sh hist b sp p acts :
  shared_ok sh hist b sp p → all_safe acts sh →
  ∃ sh' os sp' p', run_reads acts sh = (sh', Ok os) ∧ spec_all sp p acts os sp' p' ∧
    shared_ok sh' (hist ++ (acts ≫= shared_writes)) (settles_shared acts sh b) sp' p'.
Proof.
  revert sh hist b sp p. induction acts as [|a acts IH]; intros sh hist b sp p Hok Hsafe.
  { exists sh, [], sp, p. rewrite app_nil_r. by split_and!; [|constructor|]. }
  destruct Hsafe as [Ha Hsafe]. destruct (shared_step sh hist b sp p a Hok Ha) as (sh1 & o & sp1 & p1 & E & Hs & Hok1).
  cbn [run_reads settles_shared]. rewrite E in Hsafe |- *.
  destruct (IH sh1 _ _ sp1 p1 Hok1 Hsafe) as (sh' & os & sp' & p' & E' & Hs' & Hok').
  rewrite E'. exists sh', (o :: os), sp', p'. rewrite bind_cons, (assoc_L (++)).
  by split_and!; [|econstructor|].
Qed.

Lemma shared_new_ok o : 0 ≤ block_cache_bytes o < 2 ^ 63 → shared_ok (shared_new o) [] true (mkSpec ∅ []) ∅.
Proof.
  intros Ho. eexists (mkJournal (opt_sync o) true 0 ∅ []), (λ _, []), []. split; [done|].
  split; cbn [sh_store sh_readers sh_doomed shared_new].
  - split; [by apply DB_new_refines|constructor|apply DB_new_durable|]. by exists [].
  - apply map_Forall2_empty.
  - apply map_Forall_empty.
  - apply map_disjoint_empty_l.
Qed.

(** *** Progress *)

Lemma answers_steps content n rd r : answers content n rd r → (0 < reader_steps rd)%nat.
Proof using Type.
  destruct n as [|n]; [done|]. intros (out & Hr & _).
  destruct rd as [| | |ver stop [|fuel] iter out']; simpl; try lia. by destruct (Hr None I).
Qed.

Lemma is_step_spec i a : is_step i a ↔ a = ReadStep i.
Proof using Type. destruct a; simpl; naive_solver. Qed.

Lemma other_keeps a i sh rd :
  a ≠ ReadStep i → sh_readers sh !! i = Some rd → sh_readers (run_shared a sh).1 !! i = Some rd.
Proof using Type.
  intros Ha Hi. destruct a as [a|i' q|i']; cbn [run_shared]; [done|unfold run_begin|unfold run_step].
  - destruct (sh_readers sh !! i') eqn:Ei; [done|].
    destruct (read_begin q (sh_store sh).1) as [db' [rd'| |]]; cbn [fst sh_readers]; [|done..].
    rewrite lookup_insert_ne; [done|]. congruence.
  - assert (i' ≠ i) by congruence. destruct (sh_readers sh !! i'); [|done].
    destruct (with_cache _ _) as [db' [[rd'|res]| |]]; cbn [fst snd sh_readers]; [| |done..].
    + by rewrite lookup_insert_ne.
    + by rewrite lookup_delete_ne.
Qed.

Lemma other_pending sp p a o sp' p' i r :
  spec_shared sp p a o sp' p' → a ≠ ReadStep i → p !! i = Some r → p' !! i = Some r.
Proof using Type.
  intros Hs Ha Hi. destruct Hs as [| |i' q| |i' r']; try done.
  - rewrite lookup_insert_ne; [done|]. congruence.
  - rewrite lookup_delete_ne; [done|]. congruence.
Qed.

Lemma step_progress i sh sh' o rd :
  run_step i sh = (sh', Ok o) → sh_readers sh !! i = Some rd →
  (∃ res, o = Returned res) ∨
  o = Silent ∧ ∃ rd', sh_readers sh' !! i = Some rd' ∧ (reader_steps rd' < reader_steps rd)%nat.
Proof using Type.
  unfold run_step. intros E Hi. rewrite Hi in E. unfold with_cache in E.
  destruct (reader_step rd (cache_ (sh_store sh).1)) as [c [[rd'|res]| |]] eqn:Es; simplify_eq/=.
  - right. split; [done|]. exists rd'. rewrite lookup_insert_eq. split; [done|].
    by eapply reader_step_decreases.
  - left. by eexists.
Qed.

(** A reader that gets its steps returns what is pending for it, whatever the
    others do meanwhile. *)
Lemma reader_returns acts sh hist b sp p i rd r :
  shared_ok sh hist b sp p → all_safe acts sh →
  sh_readers sh !! i = Some rd → p !! i = Some r →
  (reader_steps rd ≤ own_steps i acts)%nat →
  ∃ os n, (run_reads acts sh).2 = Ok os ∧
    acts !! n = Some (ReadStep i) ∧ os !! n = Some (Returned r) ∧
    ∀ m, (m < n)%nat → acts !! m = Some (ReadStep i) → os !! m = Some Silent.
Proof.
  revert sh hist b sp p rd. induction acts as [|a acts IH]; intros sh hist b sp p rd Hok Hsafe Hi Hp Hn.
  { destruct Hok as (j & ents & mes & _ & [Hal Hrd _ _]).
    destruct (readers_lookup _ _ _ _ _ Hrd Hi) as (r' & _ & [(n0 & k & _ & Han) _]).
    specialize (Han ents (rep_agrees ents mes _ n0 (rf_rep _ _ _ _ (al_refines _ _ _ _ _ _ Hal)))).
    apply answers_steps in Han. unfold own_steps in Hn. simpl in Hn. lia. }
  destruct Hsafe as [Ha Hsafe].
  destruct (shared_step sh hist b sp p a Hok Ha) as (sh1 & o & sp1 & p1 & E & Hs & Hok1).
  cbn [run_reads]. rewrite E in Hsafe |- *. cbn [fst] in Hsafe.
  unfold own_steps in Hn. rewrite filter_cons in Hn.
  assert (∀ rd1, sh_readers sh1 !! i = Some rd1 → p1 !! i = Some r →
    (reader_steps rd1 ≤ own_steps i acts)%nat → (a = ReadStep i → o = Silent) →
    ∃ os n, (os' ← (run_reads acts sh1).2; Ok (o :: os')) = Ok os ∧ (a :: acts) !! n = Some (ReadStep i) ∧
      os !! n = Some (Returned r) ∧
      ∀ m, (m < n)%nat → (a :: acts) !! m = Some (ReadStep i) → os !! m = Some Silent) as Hgo.
  { intros rd1 Hi1 Hp1 Hn1 Ho.
    destruct (IH sh1 _ _ sp1 p1 rd1 Hok1 Hsafe Hi1 Hp1 Hn1) as (os & n & Er & Hst & Hret & Hbefore).
    exists (o :: os), (S n). rewrite Er. split_and!; [done..|]. intros [|m] Hm; simpl.
    - intros [= ->]. by rewrite Ho.
    - apply Hbefore. lia. }
  destruct (decide (is_step i a)) as [->%is_step_spec|Hne].
  - cbn [run_shared] in E. simpl in Hn.
    destruct (step_progress i sh sh1 o rd E Hi) as [[res ->]|(-> & rd1 & Hi1 & Hlt)].
    + inversion Hs as [| | | |? ? Hres]; subst.
      destruct (shared_run sh1 _ _ sp1 _ acts Hok1 Hsafe) as (sh2 & os & _ & _ & Er & _).
      rewrite Er. exists (Returned res :: os), O. cbn [snd mbind result_bind].
      split_and!; [done|done| |intros m Hm; lia]. simpl. congruence.
    + apply (Hgo rd1); [done| |unfold own_steps; lia|done].
      inversion Hs; subst; done.
  - rewrite is_step_spec in Hne. apply (Hgo rd); [|by eapply other_pending| |done].
    + replace sh1 with (run_shared a sh).1 by (by rewrite E). by apply other_keeps.
    + done.
Qed.

(** *** The directory *)

Lemma shared_files sh hist b sp p :
  shared_ok sh hist b sp p →
  map_Forall (λ _ rd, Forall (file_in_place sh) (mjoin (files (reader_version rd)))) (sh_readers sh) ∧
  ∀ n, is_Some (table_files sh !! n) →
    is_Some (db_dir (sh_store sh).1 !! n) ∨ n ∈ held_numbers (sh_readers sh).
Proof.
  intros (j & ents & mes & _ & [Hal Hrd Hdm Hdis]). split.
  - intros i rd Hi. destruct (readers_lookup _ _ _ _ _ Hrd Hi) as (r & _ & [_ Hf]).
    eapply Forall_impl; [exact Hf|]. by intros fm [].
  - intros n [f [Hf|[_ Hf]]%lookup_union_Some_raw]; [|left; by exists f]. right. apply (Hdm n f Hf).
Qed.

(** The files that wait for a reader do not disturb recovery. *)
Lemma crash_remains sh hist sp p j ents mes d :
  shared_alive sh hist sp p j ents mes → crash_shared sh d → remains (sh_store sh).1 d.
Proof.
  intros [Hal _ Hdm Hdis] [_ (m & Hmf & Hcm) Hct].
  pose proof (al_durable _ _ _ _ _ _ Hal) as Hdu. split.
  - apply crash_full in Hcm as ->; [done|apply Hdu].
  - intros n f Hf. apply (crash_table (table_files sh)); [apply Hct|].
    unfold table_files. by apply lookup_union_Some_r.
  - intros n [b Hb]. specialize (Hct n). rewrite Hb in Hct.
    destruct (table_files sh !! n) as [f|] eqn:Ef; [|done].
    apply lookup_union_Some_raw in Ef as [Hf|[_ Hf]]; [apply (Hdm n f Hf)|].
    apply (du_dir _ _ _ _ Hdu). by exists f.
Qed.

(** A crash in a life with readers. *)
Lemma shared_crash sh hist b sp p d o coins :
  shared_ok sh hist b sp p → crash_shared sh d → b = true ∨ truncations_kept (sh_store sh).1 d →
  log_fits (sh_store sh).1 → 0 ≤ block_cache_bytes o < 2 ^ 63 →
  ∃ n db', db_open d o coins = Ok db' ∧
    (length hist - log_records (sh_store sh).1 ≤ n ≤ length hist)%nat ∧
    (b = true → n = length hist) ∧
    ∀ k, ∃ db'', get k db' = (db'', Ok (fold_left spec_write (take n hist) ∅ !! k)).
Proof.
  intros (j & ents & mes & <- & Hsa) Hcr Hk Hsz Ho. pose proof (sa_alive _ _ _ _ _ _ _ Hsa) as Hal.
  destruct (alive_recovers _ hist j ents mes sp d o coins Hal)
    as (_ & Hnone & db' & j' & mes' & sp' & E & _ & Hal');
    [by eapply crash_remains|apply Hcr|done|done|done|].
  exists (length hist - lost (sh_store sh).1 d)%nat, db'.
  split_and!; [done|unfold lost, log_records; lia|lia| |].
  - intros Hm. rewrite (Hnone Hm). lia.
  - intros k. by eapply (alive_get (db', Waiting)).
Qed.

Lemma readers_dom sh hist b sp p : shared_ok sh hist b sp p → dom (sh_readers sh) = dom p.
Proof.
  intros (j & ents & mes & _ & [_ Hrd _ _]). apply set_eq. intros i. rewrite !elem_of_dom.
  specialize (Hrd i). split; intros [x Hx]; rewrite Hx in Hrd; inversion Hrd; eauto.
Qed.

Lemma all_safe_app acts acts' sh :
  all_safe (acts ++ acts') sh → all_safe acts sh ∧
    (∀ sh' os, run_reads acts sh = (sh', Ok os) → all_safe acts' sh').
Proof using Type.
  revert sh. induction acts as [|a acts IH]; intros sh; simpl.
  - intros Hs. split; [done|]. by intros sh' os [= <- _].
  - intros [Ha Hs]. destruct (IH _ Hs) as [Hs1 Hs2]. split; [done|]. intros sh' os E.
    destruct (run_shared a sh) as [sh1 [o| |]]; simplify_eq.
    destruct (run_reads acts sh1) as [sh2 [os2| |]] eqn:E2; simplify_eq. by eapply Hs2.
Qed.

Lemma begin_returns sh hist b sp p i q more :
  shared_ok sh hist b sp p → all_safe (ReadBegin i q :: more) sh → sh_readers sh !! i = None →
  (match (read_begin q (sh_store sh).1).2 with Ok rd => reader_steps rd | _ => 0 end ≤ own_steps i more)%nat →
  ∃ r os n, spec_step sp (query_call q) r sp ∧ (run_reads (ReadBegin i q :: more) sh).2 = Ok (Silent :: os) ∧
    more !! n = Some (ReadStep i) ∧ os !! n = Some (Returned r) ∧
    ∀ m, (m < n)%nat → more !! m = Some (ReadStep i) → os !! m = Some Silent.
Proof.
  intros Hok [Hq Hsafe] Hi Hn.
  destruct (shared_step sh hist b sp p _ Hok Hq) as (sh1 & o & sp1 & p1 & E & Hs & Hok1).
  assert (p !! i = None) as Hp.
  { destruct Hok as (j & ents & mes & _ & [_ Hrd _ _]). by eapply readers_None. }
  inversion Hs as [|i' q' r Hnone Hstep|i' q' [x Hx]| |]; subst; [|congruence]. cbn [run_reads].
  rewrite E in Hsafe |- *. cbn [run_shared] in E. unfold run_begin in E. rewrite Hi in E.
  destruct (read_begin q (sh_store sh).1) as [db' [rd| |]]; simplify_eq. cbn [fst snd] in *.
  destruct (reader_returns more _ _ _ _ _ i rd r Hok1 Hsafe) as (os & n & Er & Hrest).
  - cbn [sh_readers]. by rewrite lookup_insert_eq.
  - by rewrite lookup_insert_eq.
  - done.
  - destruct Hrest as (Hst & Hret & Hbefore). exists r, os, n. rewrite Er. by split_and!.
Qed.

Lemma lives_shared s hist b : lives s hist b → ∃ sp, shared_ok (mkShared s ∅ ∅) hist b sp ∅.
Proof.
  intros (j & ents & mes & sp & Hs & Hal)%lives_alive. exists sp, j, ents, mes. split; [done|].
  split; cbn [sh_store sh_readers sh_doomed];
    [done|apply map_Forall2_empty|apply map_Forall_empty|apply map_disjoint_empty_l].
Qed.

End SharedLemmas.

#[export] Instance shared_safe_dec `{Posix} `{PriorityQueue} a sh : Decision (shared_safe a sh).
Proof. destruct a; unfold shared_safe, action_durable; apply _. Defined.

#[export] Instance all_safe_dec `{Posix} `{PriorityQueue} acts sh : Decision (all_safe acts sh).
Proof. revert sh. induction acts as [|a acts IH]; intros sh; simpl; apply _. Defined.

(** * Properties *)

(** The state behind a schedule. *)
Definition after `{Posix} `{PriorityQueue} (acts : list shared_action) (sh : Shared) : Shared :=
  (run_reads acts sh).1.

(** How many steps a read that starts now can take. *)
Definition read_bound `{Posix} `{PriorityQueue} (q : read_query) (db : DB) : nat :=
  match (read_begin q db).2 with Ok rd => reader_steps rd | _ => 0 end.

(** C7. Readers in the middle of their work cannot tell that writes, flushes
    and commits of the compaction thread go on, and nobody can tell that there
    are readers: any interleaving of single steps of readers with client calls
    and steps of the thread, on a fresh store, returns and gives the responses
    of the contract in which every read takes effect at its locked section. *)
Theorem concurrent_reads_trace `{PosixOk} `{PriorityQueueOk} (o : Options) (acts : list shared_action)
    (Ho : 0 ≤ block_cache_bytes o < 2 ^ 63) (Hsafe : all_safe acts (shared_new o)) :
  ∃ sh os sp p, run_reads acts (shared_new o) = (sh, Ok os) ∧
    spec_all (mkSpec ∅ []) ∅ acts os sp p ∧ dom (sh_readers sh) = dom p.
Proof.
  destruct (shared_run _ _ _ _ _ acts (shared_new_ok o Ho) Hsafe) as (sh & os & sp & p & E & Hs & Hok).
  exists sh, os, sp, p. split_and!; [done|done|]. by eapply readers_dom.
Qed.

(** C4. Reads are wait-free and linearizable: a reader that starts at some
    point of a schedule returns after at most [read_bound] steps of its own,
    whatever other threads do between them, with an answer of the contract in
    the state of its locked section; until then it returns nothing. *)
Theorem reads_linearizable `{PosixOk} `{PriorityQueueOk} (o : Options) (acts more : list shared_action)
    (i : nat) (q : read_query) (Ho : 0 ≤ block_cache_bytes o < 2 ^ 63)
    (Hsafe : all_safe (acts ++ ReadBegin i q :: more) (shared_new o))
    (Hidle : sh_readers (after acts (shared_new o)) !! i = None)
    (Hsteps : (read_bound q (sh_store (after acts (shared_new o))).1 ≤ own_steps i more)%nat) :
  ∃ os sp p r os' n,
    (run_reads acts (shared_new o)).2 = Ok os ∧ spec_all (mkSpec ∅ []) ∅ acts os sp p ∧
    spec_step sp (query_call q) r sp ∧
    (run_reads (ReadBegin i q :: more) (after acts (shared_new o))).2 = Ok (Silent :: os') ∧
    more !! n = Some (ReadStep i) ∧ os' !! n = Some (Returned r) ∧
    ∀ m, (m < n)%nat → more !! m = Some (ReadStep i) → os' !! m = Some Silent.
Proof.
  apply all_safe_app in Hsafe as [Hs1 Hs2].
  destruct (shared_run _ _ _ _ _ acts (shared_new_ok o Ho) Hs1) as (sh & os & sp & p & E & Hs & Hok).
  specialize (Hs2 sh os E). unfold after in *. rewrite E in *. cbn [fst snd] in *.
  destruct (begin_returns sh _ _ sp p i q more Hok Hs2 Hidle Hsteps) as (r & os' & n & Hr & Hn).
  by exists os, sp, p, r, os', n.
Qed.

(** C9. A table file lives as long as somebody can read it: while a reader
    holds a version, the file of each of its tables is in the directory, with
    the bytes the table was opened from, even when a compaction has replaced
    it; and a file that the database no longer has is there only because a
    reader holds its table. *)
Theorem held_files_stay `{PosixOk} `{PriorityQueueOk} (o : Options) (acts : list shared_action)
    (Ho : 0 ≤ block_cache_bytes o < 2 ^ 63) (Hsafe : all_safe acts (shared_new o)) :
  let sh := after acts (shared_new o) in
  map_Forall (λ _ rd, Forall (file_in_place sh) (mjoin (files (reader_version rd)))) (sh_readers sh) ∧
  ∀ n, is_Some (table_files sh !! n) →
    is_Some (db_dir (sh_store sh).1 !! n) ∨ n ∈ held_numbers (sh_readers sh).
Proof.
  destruct (shared_run _ _ _ _ _ acts (shared_new_ok o Ho) Hsafe) as (sh & os & sp & p & E & _ & Hok).
  unfold after. rewrite E. by eapply shared_files.
Qed.

(** C8. A crash while readers are at work, between any two steps.  The store
    opens again, with the files of replaced tables still there or not, and holds
    what it held after the first [n] of its writes: at most the writes in the log
    are lost, and none when all writes were on the medium, as they are after a
    write in [EveryWrite].  A truncation of the log may be undone in that case;
    otherwise it must have reached the medium. *)
Theorem crash_with_readers `{PosixOk} `{PriorityQueueOk} (s : system) (hist : list WriteRequest)
    (settled : bool) (acts : list shared_action) (d : Disk) (o : Options) (coins : list (list bool))
    (Hl : lives s hist settled) (Hsafe : all_safe acts (mkShared s ∅ ∅))
    (Hcrash : crash_shared (after acts (mkShared s ∅ ∅)) d)
    (Hkept : settles_shared acts (mkShared s ∅ ∅) settled = true ∨
      truncations_kept (sh_store (after acts (mkShared s ∅ ∅))).1 d)
    (Hsize : log_fits (sh_store (after acts (mkShared s ∅ ∅))).1)
    (Ho : 0 ≤ block_cache_bytes o < 2 ^ 63) :
  let db := (sh_store (after acts (mkShared s ∅ ∅))).1 in
  let writes := hist ++ (acts ≫= shared_writes) in
  ∃ n db', db_open d o coins = Ok db' ∧ (length writes - log_records db ≤ n ≤ length writes)%nat ∧
    (settles_shared acts (mkShared s ∅ ∅) settled = true → n = length writes) ∧
    ∀ k, ∃ db'', get k db' = (db'', Ok (fold_left spec_write (take n writes) ∅ !! k)).
Proof.
  destruct (lives_shared s hist settled Hl) as [sp0 Hok0].
  destruct (shared_run _ _ _ _ _ acts Hok0 Hsafe) as (sh & os & sp & p & E & _ & Hok).
  unfold after in *. rewrite E in *. cbn [fst] in *. by eapply shared_crash.
Qed.

(** ** Witnesses *)

Definition ex_reads (acts : list shared_action) : Shared * result (list outcome) :=
  run_reads (H := ex_posix) (H0 := first_pq) acts (shared_new busy_options).

(** Two tables and a memtable. *)
Definition ex_before : list shared_action :=
  Act <$> [do_put "a" "1"; do_flush; do_put "b" "2"; do_flush; do_put "c" "3"].

Definition ex_scan : read_query := QueryScan (bs "a") (bs "z") None.

(** While the scan is at work, both tables are compacted and unlinked, keys
    that it has not reached are overwritten, and the memtable is flushed. *)
Definition ex_during : list shared_action :=
  [ReadBegin 1 (QueryGet (bs "b") None); Act (do_put "b" "9"); ReadStep 0; ReadStep 1] ++
  replicate 6 (Act Background) ++ [Act (do_put "c" "8"); Act do_flush].

Definition ex_more : list shared_action := ex_during ++ replicate 9 (ReadStep 0).

Definition ex_under_scan : list shared_action := ex_before ++ ReadBegin 0 ex_scan :: ex_during.

Lemma ex_more_safe :
  all_safe (H := ex_posix) (H0 := first_pq) (ex_before ++ ReadBegin 0 ex_scan :: ex_more)
    (shared_new busy_options).
Proof. apply (bool_decide_unpack _). vm_compute. exact I. Qed.

Lemma ex_under_scan_safe :
  all_safe (H := ex_posix) (H0 := first_pq) ex_under_scan (shared_new busy_options).
Proof. apply (bool_decide_unpack _). vm_compute. exact I. Qed.

(** The answers of readers, by position. *)
Definition answers_of (os : list outcome) : list response :=
  omap (λ o, match o with Returned (Value v) => Some (Value v) | Returned (Pairs l) => Some (Pairs l)
                     | _ => None end) os.

Lemma concurrent_reads_trace_witness :
  ∃ sh os sp p, ex_reads (ex_before ++ ReadBegin 0 ex_scan :: ex_more) = (sh, Ok os) ∧
    spec_all (mkSpec ∅ []) ∅ (ex_before ++ ReadBegin 0 ex_scan :: ex_more) os sp p ∧
    answers_of os = [Value (Some (bs "2"));
      Pairs [(bs "a", bs "1"); (bs "b", bs "2"); (bs "c", bs "3")]].
Proof.
  destruct (concurrent_reads_trace (H := ex_posix) (H1 := first_pq) busy_options
    (ex_before ++ ReadBegin 0 ex_scan :: ex_more) busy_options_ok ex_more_safe) as (sh & os & sp & p & E & Hs & _).
  exists sh, os, sp, p. split_and!; [exact E|exact Hs|].
  assert (os = match (ex_reads (ex_before ++ ReadBegin 0 ex_scan :: ex_more)).2 with Ok os' => os' | _ => [] end)
    as -> by (unfold ex_reads; rewrite E; reflexivity).
  vm_compute. reflexivity.
Defined.

Lemma reads_linearizable_witness :
  ∃ os sp p r (os' : list outcome) n, spec_all (mkSpec ∅ []) ∅ ex_before os sp p ∧
    spec_step sp (query_call ex_scan) r sp ∧
    (run_reads (H := ex_posix) (H0 := first_pq) (ReadBegin 0 ex_scan :: ex_more)
      (after (H := ex_posix) (H0 := first_pq) ex_before (shared_new busy_options))).2 =
      Ok (Silent :: os') ∧
    ex_more !! n = Some (ReadStep 0) ∧ os' !! n = Some (Returned r).
Proof.
  destruct (reads_linearizable (H := ex_posix) (H1 := first_pq) busy_options ex_before ex_more 0 ex_scan
    busy_options_ok ex_more_safe) as (os & sp & p & r & os' & n & E & Hs & Hr & E' & Hn & Ho & _).
  - vm_compute. reflexivity.
  - apply (bool_decide_unpack _). vm_compute. exact I.
  - exists os, sp, p, r, os', n. split_and!; [exact Hs|exact Hr|exact E'|exact Hn|exact Ho].
Defined.

(** Both tables that the scan reads have been replaced. *)
Definition ex_held : Shared :=
  after (H := ex_posix) (H0 := first_pq) ex_under_scan (shared_new busy_options).

Lemma held_files_stay_witness :
  elements (dom (sh_doomed ex_held)) = [2; 1] ∧ (db_dir (sh_store ex_held).1 !! 1) = None ∧
  map_Forall (λ _ rd, Forall (file_in_place (H := ex_posix) ex_held) (mjoin (files (reader_version rd))))
    (sh_readers ex_held).
Proof.
  split; [vm_compute; reflexivity|]. split; [vm_compute; reflexivity|].
  exact (proj1 (held_files_stay (H := ex_posix) (H1 := first_pq) busy_options ex_under_scan busy_options_ok
    ex_under_scan_safe)).
Defined.

(** A crash that undoes the last truncation of the log and loses nothing else. *)
Definition undone_disk (sh : Shared) : Disk :=
  mkDisk (on_disk ∘ fst <$> head (f_older (wal_file (wal_ (sh_store sh).1))))
    (Some (on_disk (f_data (manifest_ (sh_store sh).1)))) ((λ f, on_disk (f_data f)) <$> table_files sh).

Lemma undone_disk_crash sh w :
  head (f_older (wal_file (wal_ (sh_store sh).1))) = Some (w, length w) →
  (f_synced (manifest_ (sh_store sh).1) ≤ length (f_data (manifest_ (sh_store sh).1)))%nat →
  map_Forall (λ _ f, f_synced f ≤ length (f_data f))%nat (table_files sh) →
  crash_shared sh (undone_disk sh).
Proof.
  intros Hw Hm Hd. split.
  - exists (on_disk w). unfold undone_disk. cbn [wal_on]. rewrite Hw. split; [done|]. exists w.
    split; [done|]. right. destruct (f_older _) as [|o os]; [done|]. left. simpl in Hw. by simplify_eq.
  - eexists. split; [done|]. eexists. split; [done|]. by left.
  - intros n. cbn [undone_disk ssts_on]. rewrite lookup_fmap.
    destruct (table_files sh !! n) as [f|] eqn:E; simpl; [|done].
    eexists. split; [done|]. left. split; [done|]. by apply (Hd n).
Qed.

Lemma ex_new_lives : lives (H := ex_posix) (H0 := first_pq) (DB_new busy_options, Waiting) [] true.
Proof. apply (lives_new busy_options []); [apply busy_options_ok|apply open_empty]. Qed.

Lemma new_shared o : mkShared (DB_new o, Waiting) ∅ ∅ = shared_new o.
Proof. reflexivity. Qed.

Lemma ex_held_eq :
  ex_held = after (H := ex_posix) (H0 := first_pq) ex_under_scan (shared_new busy_options).
Proof. reflexivity. Qed.

(** The log before the last flush. *)
Definition ex_held_log : bytes :=
  default [] (fst <$> head (f_older (wal_file (wal_ (sh_store ex_held).1)))).

Lemma ex_held_crash : crash_shared ex_held (undone_disk ex_held).
Proof.
  apply (undone_disk_crash ex_held ex_held_log); [by vm_compute|vm_compute; lia|].
  apply (bool_decide_unpack _). vm_compute. exact I.
Qed.

Lemma ex_held_settled :
  settles_shared (H := ex_posix) (H0 := first_pq) ex_under_scan (shared_new busy_options) true = true.
Proof. vm_compute. reflexivity. Qed.

Lemma ex_held_size : log_fits (sh_store ex_held).1.
Proof. apply (bool_decide_unpack _). vm_compute. exact I. Qed.

Lemma crash_with_readers_witness :
  ∃ db', db_open (H := ex_posix) (undone_disk ex_held) torn_options [] = Ok db' ∧
    ∃ db'', get (H := ex_posix) (bs "b") db' =
      (db'', Ok (fold_left spec_write (take 5 (ex_under_scan ≫= shared_writes)) ∅ !! bs "b")).
Proof.
  destruct (crash_with_readers (H := ex_posix) (H1 := first_pq) (DB_new busy_options, Waiting) [] true
    ex_under_scan (undone_disk ex_held) torn_options [] ex_new_lives) as (n & db' & E & _ & Hn & Hg).
  - rewrite new_shared. exact ex_under_scan_safe.
  - rewrite new_shared, <- ex_held_eq. exact ex_held_crash.
  - left. rewrite new_shared. exact ex_held_settled.
  - rewrite new_shared, <- ex_held_eq. exact ex_held_size.
  - simpl. lia.
  - exists db'. split; [exact E|]. rewrite new_shared in Hn. specialize (Hn ex_held_settled).
    assert (n = 5%nat) as -> by exact Hn. apply Hg.
Defined.
