(* ===== verification/Monitor.v ===== *)
(** The monitor of the database: the mutex [mu_] with the condition variable
    [cv_] of src/src/db.cpp, on which the compaction thread and the callers of
    [DB::compact] sleep, and the destructor, which stops the thread.

    Store.v lets the thread make a step when its condition holds.  Here the
    sleepers are part of the state: a thread sleeps until it is notified (or
    wakes up by itself, which the standard allows), [notify_one] wakes any one
    of the sleepers, and each stretch of code under the lock is a step.  The
    steps are those of Background.v and Db.v with the notifications of the code. *)

From S2P Require Import Prelude Coding Entry Memtable BlockCache SSTableWriter SSTable MergeIterator Version Compaction Levels Db Recovery Background Worker Round Store.
Local Open Scope Z_scope.

(** * Definitions *)

(** A thread is asleep on the condition variable, or it has or wants the lock,
    or it has left its function. *)
Inductive sleep := Asleep | Awake | Gone.

#[export] Instance sleep_eq_dec : EqDecision sleep.
Proof. solve_decision. Defined.

(** [mo_callers] are the calls of [compact] that have not returned. *)
Record Monitor := mkMonitor {
  mo_sys : system;
  mo_thread : sleep;
  mo_callers : gmap nat sleep;
  mo_stop : bool;
}.

Definition set_sys (s : system) (m : Monitor) : Monitor :=
  mkMonitor s (mo_thread m) (mo_callers m) (mo_stop m).
Definition set_thread (t : sleep) (m : Monitor) : Monitor :=
  mkMonitor (mo_sys m) t (mo_callers m) (mo_stop m).
Definition set_caller (i : nat) (t : sleep) (m : Monitor) : Monitor :=
  mkMonitor (mo_sys m) (mo_thread m) (<[i := t]> (mo_callers m)) (mo_stop m).
Definition drop_caller (i : nat) (m : Monitor) : Monitor :=
  mkMonitor (mo_sys m) (mo_thread m) (delete i (mo_callers m)) (mo_stop m).

Definition wake (t : sleep) : sleep := match t with Asleep => Awake | _ => t end.

(** [cv_.notify_one()]: some sleeper, if there is one. *)
Inductive notify_one (m : Monitor) : Monitor → Prop :=
| notify_nobody :
    mo_thread m ≠ Asleep → (∀ i, mo_callers m !! i ≠ Some Asleep) → notify_one m m
| notify_thread : mo_thread m = Asleep → notify_one m (set_thread Awake m)
| notify_caller i : mo_callers m !! i = Some Asleep → notify_one m (set_caller i Awake m).

(** [cv_.notify_all()] *)
Definition notify_all (m : Monitor) : Monitor :=
  mkMonitor (mo_sys m) (wake (mo_thread m)) (wake <$> mo_callers m) (mo_stop m).

(** [flush] and [compact] notify when they set [compaction_pending_]. *)
Definition notified (db : DB) (m m' : Monitor) : Prop :=
  if negb (compaction_pending_ db) && compaction_pending_ (mo_sys m).1 then notify_one m m' else m' = m.

Section MonitorOps.
Context `{Posix} `{PriorityQueue}.

(** A step of the compaction thread at work.  Back at the beginning of its loop
    it has notified everybody. *)
Definition thread_work (m : Monitor) : Monitor * result unit :=
  match worker_step (mo_sys m).2 (mo_sys m).1 with
  | (db', Ok w') =>
      let m' := set_sys (db', w') m in
      (match w' with Waiting => notify_all m' | _ => m' end, Ok tt)
  | (db', Throw msg) => (set_sys (db', (mo_sys m).2) m, Throw msg)
  | (db', Undefined) => (set_sys (db', (mo_sys m).2) m, Undefined)
  end.

(** The thread, from where it takes the lock or goes on merging to where it
    sleeps, releases the lock or has merged an entry. *)
Definition thread_step (m : Monitor) : Monitor * result unit :=
  match (mo_sys m).2 with
  | Waiting =>
      if mo_stop m then (set_thread Gone m, Ok tt)
      else if compaction_pending_ (mo_sys m).1 then thread_work m
      else (set_thread Asleep m, Ok tt)
  | _ => thread_work m
  end.

(** The loop of [compact], from its test to its end or to [cv_.wait]. *)
Inductive compact_loop (i : nat) (m : Monitor) : Monitor → Prop :=
| compact_leaves db' :
    compact_poll (mo_sys m).1 = (db', Ok true) →
    compact_loop i m (drop_caller i (set_sys (db', (mo_sys m).2) m))
| compact_waits db' m' :
    compact_poll (mo_sys m).1 = (db', Ok false) →
    notified (mo_sys m).1 (set_sys (db', (mo_sys m).2) m) m' →
    compact_loop i m (set_caller i (if compact_woken db' then Awake else Asleep) m').

Inductive monitor_step (m : Monitor) : Monitor → Prop :=
(** a call of a client, whether it throws or not *)
| step_call c db' r m' :
    mo_stop m = false → run_call c (mo_sys m).1 = (db', r) →
    notified (mo_sys m).1 (set_sys (db', (mo_sys m).2) m) m' → monitor_step m m'
(** a new call of [compact] *)
| step_compact i m' :
    mo_stop m = false → mo_callers m !! i = None →
    compact_loop i (set_caller i Awake (set_sys ((compact_begin (mo_sys m).1).1, (mo_sys m).2) m)) m' →
    monitor_step m m'
(** a caller of [compact] that has woken up tests its condition *)
| step_caller i m' :
    mo_callers m !! i = Some Awake → compact_woken (mo_sys m).1 = true → compact_loop i m m' →
    monitor_step m m'
| step_caller_sleeps i :
    mo_callers m !! i = Some Awake → compact_woken (mo_sys m).1 = false →
    monitor_step m (set_caller i Asleep m)
| step_thread m' :
    mo_thread m = Awake → thread_step m = (m', Ok tt) → monitor_step m m'
(** waking up without a notification *)
| step_thread_wakes : mo_thread m = Asleep → monitor_step m (set_thread Awake m)
| step_caller_wakes i : mo_callers m !! i = Some Asleep → monitor_step m (set_caller i Awake m)
(** [~DB], up to [join]: nobody uses the database any more *)
| step_stop m' :
    mo_stop m = false → mo_callers m = ∅ →
    notify_one (mkMonitor (mo_sys m) (mo_thread m) (mo_callers m) true) m' → monitor_step m m'.

(** A database that has been opened, its thread just started. *)
Definition monitor_start (db : DB) : Monitor := mkMonitor (db, Waiting) Awake ∅ false.

Inductive reachable : Monitor → Prop :=
| reach_start db : compaction_running_ db = false → reachable (monitor_start db)
| reach_step m m' : reachable m → monitor_step m m' → reachable m'.

(** [compaction_thread_.join()]: steps of the thread alone. *)
Fixpoint thread_run (n : nat) (m : Monitor) : Monitor * result unit :=
  match n with
  | O => (m, Ok tt)
  | S n' => match thread_step m with (m', Ok _) => thread_run n' m' | r => r end
  end.

(** ** The invariant *)

Record monitor_ok (m : Monitor) : Prop := {
  mk_asleep : mo_thread m = Asleep → compaction_pending_ (mo_sys m).1 = false ∧ mo_stop m = false;
  mk_idle : mo_thread m ≠ Awake → (mo_sys m).2 = Waiting;
  mk_gone : mo_thread m = Gone → mo_stop m = true;
  mk_running : compaction_running_ (mo_sys m).1 = true ↔ (mo_sys m).2 ≠ Waiting;
  mk_callers i : mo_callers m !! i = Some Asleep → compact_woken (mo_sys m).1 = false;
  mk_stop : mo_stop m = true → mo_callers m = ∅;
}.

End MonitorOps.

(** * Lemmas *)

(** ** What the calls do to the flags *)

(** [compaction_pending_] can be set, when the thread is not at work. *)
Definition flags_ok (db db' : DB) : Prop :=
  compaction_running_ db' = compaction_running_ db ∧
  (compaction_pending_ db' = compaction_pending_ db ∨
   compaction_pending_ db' = true ∧ compaction_running_ db = false).

Definition keeps_flags {A} (m : dbm A) : Prop := ∀ db,
  compaction_running_ (m db).1 = compaction_running_ db ∧
  compaction_pending_ (m db).1 = compaction_pending_ db.

Lemma keeps_bind {A B} (m : dbm A) (f : A → dbm B) :
  keeps_flags m → (∀ a, keeps_flags (f a)) → keeps_flags (x ← m; f x).
Proof.
  intros Hm Hf db. destruct (Hm db) as [R P]. unfold mbind, dbm_bind.
  destruct (m db) as [db' [a| |]]; [|done..]. simpl in R, P. rewrite <- R, <- P. apply Hf.
Qed.

Create HintDb flags.

Ltac keeps := repeat first [ solve [auto with flags] | apply keeps_bind; [|intros ?] | case_match ].

Lemma keeps_ret {A} (a : A) : keeps_flags (mret a).
Proof. done. Qed.
Lemma keeps_liftr {A} (r : result A) : keeps_flags (liftr r).
Proof. done. Qed.
Lemma keeps_gets {A} (f : DB → A) : keeps_flags (gets f).
Proof. done. Qed.
Lemma keeps_with_cache {A} (m : cached A) : keeps_flags (with_cache m).
Proof. done. Qed.
Lemma keeps_set_dir d : keeps_flags (modify (set_dir d)).
Proof. done. Qed.
Lemma keeps_set_version v : keeps_flags (modify (set_version v)).
Proof. done. Qed.
Lemma keeps_set_memtable m : keeps_flags (modify (set_memtable m)).
Proof. done. Qed.
Lemma keeps_alloc : keeps_flags alloc_sst_number.
Proof. intros db. unfold alloc_sst_number. by case_match. Qed.
Lemma keeps_take_numbers batch : keeps_flags (take_numbers batch).
Proof. done. Qed.
Lemma keeps_append_wal `{Posix} rs : keeps_flags (append_wal rs).
Proof. intros db. unfold append_wal. by destruct (wal_null db). Qed.
Lemma keeps_append_manifest `{Posix} es : keeps_flags (append_manifest es).
Proof. done. Qed.
Lemma keeps_reset_wal `{Posix} : keeps_flags reset_wal.
Proof. intros db. unfold reset_wal. by destruct (sys_resize _). Qed.
#[export] Hint Resolve keeps_ret keeps_liftr keeps_gets keeps_with_cache keeps_set_dir keeps_set_version
  keeps_set_memtable keeps_alloc keeps_take_numbers keeps_append_wal keeps_append_manifest keeps_reset_wal : flags.

Lemma keeps_commit_records `{Posix} rs coins : keeps_flags (commit_records rs coins).
Proof. unfold commit_records. keeps. Qed.
Lemma keeps_write_level0 `{Posix} num : keeps_flags (write_level0 num).
Proof. unfold write_level0. keeps. Qed.
#[export] Hint Resolve keeps_commit_records keeps_write_level0 : flags.

(** What runs last may set the flag. *)
Definition may_set {A} (m : dbm A) : Prop := ∀ db, flags_ok db (m db).1.

Lemma may_set_bind {A B} (m : dbm A) (f : A → dbm B) :
  keeps_flags m → (∀ a, may_set (f a)) → may_set (x ← m; f x).
Proof.
  intros Hm Hf db. destruct (Hm db) as [R P]. unfold mbind, dbm_bind, flags_ok.
  destruct (m db) as [db' [a| |]]; simpl in R, P; [|rewrite <- R; auto..]. rewrite <- R, <- P. apply Hf.
Qed.

Lemma keeps_may_set {A} (m : dbm A) : keeps_flags m → may_set m.
Proof. intros Hm db. destruct (Hm db). split; [done|by left]. Qed.

Lemma trigger_may_set : may_set trigger_compaction.
Proof.
  intros db. unfold trigger_compaction, modify, flags_ok. simpl.
  destruct (_ && _ && _) eqn:E; simpl; [|auto]. apply andb_prop in E as [E1 E2].
  apply negb_true_iff in E2. auto.
Qed.

Lemma may_set_then {A B} (m : dbm A) (f : A → dbm B) :
  may_set m → (∀ a, keeps_flags (f a)) → may_set (x ← m; f x).
Proof.
  intros Hm Hf db. specialize (Hm db). unfold mbind, dbm_bind.
  destruct (m db) as [db' [a| |]]; [|done..]. destruct (Hf a db') as [R P]. unfold flags_ok in *.
  simpl in Hm. by rewrite R, P.
Qed.

Lemma flush_may_set `{Posix} : may_set flush.
Proof.
  unfold flush. apply may_set_bind; [keeps|intros mt]. case_match; [apply keeps_may_set; keeps|].
  repeat (apply may_set_bind; [keeps|intros ?]). apply trigger_may_set.
Qed.

Lemma run_call_flags `{Posix} `{PriorityQueue} c db db' r : run_call c db = (db', r) → flags_ok db db'.
Proof.
  intros E. assert (may_set (run_call c)) as Hm; [|specialize (Hm db); by rewrite E in Hm].
  destruct c; cbn [run_call]; try (apply keeps_may_set; unfold get, scan, get_impl, scan_impl; by keeps).
  - apply may_set_then; [|intros; keeps]. unfold write_batch, maybe_flush.
    repeat (apply may_set_bind; [keeps|intros ?]). case_match; [apply flush_may_set|apply keeps_may_set; keeps].
  - apply may_set_then; [apply flush_may_set|intros; keeps].
  - apply keeps_may_set. intros d. unfold release_snapshot, mbind, dbm_bind. by case_bool_decide.
Qed.

(** A thread that merges does not come back to the beginning of its loop. *)
Lemma dbm_bind_inv {A B} (m : dbm A) (f : A → dbm B) db db' b :
  (x ← m; f x) db = (db', Ok b) → ∃ db1 a, m db = (db1, Ok a) ∧ f a db1 = (db', Ok b).
Proof.
  unfold mbind, dbm_bind. destruct (m db) as [db1 [a| |]]; [|done..]. intros E. by exists db1, a.
Qed.

Lemma open_merge_busy `{Posix} `{PriorityQueue} snap job oldest db db' :
  open_merge snap job oldest db = (db', Ok Waiting) → False.
Proof. intros (? & ? & _ & (? & ? & _ & [=])%dbm_bind_inv)%dbm_bind_inv. Qed.

Lemma merge_round_busy `{Posix} `{PriorityQueue} snap job oldest it x db db' :
  merge_round snap job oldest it x db = (db', Ok Waiting) → False.
Proof.
  unfold merge_round. case_match.
  - intros (? & ? & _ & (? & ? & _ & [=])%dbm_bind_inv)%dbm_bind_inv.
  - intros (? & ? & _ & [=])%dbm_bind_inv.
Qed.

(** What a step of the thread does to the flags. *)
Lemma worker_step_flags `{PosixOk} `{PriorityQueue} w db db' w' :
  worker_step w db = (db', Ok w') →
  (w' = Waiting ∧ compaction_running_ db' = false) ∨
  (w = Waiting ∧ w' ≠ Waiting ∧ compaction_running_ db' = true ∧ compaction_pending_ db' = false) ∨
  (w ≠ Waiting ∧ w' ≠ Waiting ∧ compaction_running_ db' = compaction_running_ db ∧
   compaction_pending_ db' = compaction_pending_ db).
Proof.
  destruct w as [|snap job oldest|snap job oldest it x|snap job outs]; cbn [worker_step]; intros E.
  - rewrite pick_job_eq in E. case_bool_decide; simplify_eq; [by left|]. right; left. by split_and!.
  - pose proof (leaves_at 0 _ _ _ _ (leaves_open _ _ _) E) as Hq. right; right.
    split; [done|]. split; [|split; apply Hq]. intros ->. by apply open_merge_busy in E.
  - pose proof (leaves_at 1 _ _ _ _ (leaves_round _ _ _ _ _) E) as Hq. right; right.
    split; [done|]. split; [|split; apply Hq]. intros ->. by apply merge_round_busy in E.
  - destruct (commit_job_state snap job outs db) as (db1 & E1 & _ & _ & R & _). left.
    rewrite E1 in E. by simplify_eq.
Qed.

(** ** No step breaks the invariant *)

(** All of it but the sleep of the thread. *)
Record monitor_weak (m : Monitor) : Prop := {
  mw_idle : mo_thread m ≠ Awake → (mo_sys m).2 = Waiting;
  mw_gone : mo_thread m = Gone → mo_stop m = true;
  mw_running : compaction_running_ (mo_sys m).1 = true ↔ (mo_sys m).2 ≠ Waiting;
  mw_callers i : mo_callers m !! i = Some Asleep → compact_woken (mo_sys m).1 = false;
  mw_stop : mo_stop m = true → mo_callers m = ∅;
}.

Lemma ok_weak m : monitor_ok m → monitor_weak m.
Proof. intros []. by split. Qed.

Lemma weak_ok m :
  monitor_weak m → (mo_thread m = Asleep → compaction_pending_ (mo_sys m).1 = false ∧ mo_stop m = false) →
  monitor_ok m.
Proof. intros []. by split. Qed.

Lemma woken_false db :
  compact_woken db = false ↔ compaction_pending_ db = true ∨ compaction_running_ db = true.
Proof.
  unfold compact_woken. destruct (compaction_pending_ db), (compaction_running_ db); simpl; naive_solver.
Qed.

(** A notification reaches the thread when it is the only one asleep. *)
Lemma notify_one_ok m m' :
  monitor_weak m → (mo_thread m = Asleep → ∀ i, mo_callers m !! i ≠ Some Asleep) →
  notify_one m m' → monitor_ok m' ∧ mo_sys m' = mo_sys m ∧ mo_stop m' = mo_stop m.
Proof.
  intros [Hi Hg Hr Hc Hs] Halone Hn. destruct Hn as [Ht Hcs|Ht|i Hci]; (split; [|done]).
  - split; by try done.
  - by split.
  - split; simpl; try done.
    + intros Ht. by destruct (Halone Ht i).
    + intros j. rewrite lookup_insert_Some. intros [[_ [=]]|[_ Hj]]. by apply (Hc j).
    + intros E. by rewrite (Hs E) in Hci.
Qed.

(** A change of the flags by a client, with its notification. *)
Lemma notified_ok m db' m' :
  monitor_ok m → mo_stop m = false → flags_ok (mo_sys m).1 db' →
  notified (mo_sys m).1 (set_sys (db', (mo_sys m).2) m) m' →
  monitor_ok m' ∧ mo_sys m' = (db', (mo_sys m).2) ∧ mo_stop m' = false.
Proof.
  intros Hok Hstop [Hrun Hpend] Hn. destruct (ok_weak _ Hok) as [Hi Hg Hr Hc Hs].
  assert (monitor_weak (set_sys (db', (mo_sys m).2) m)) as Hw.
  { split; simpl; try done; [by rewrite Hrun|]. intros i Hci. specialize (Hc i Hci).
    rewrite woken_false in *. rewrite Hrun. destruct Hc; [left|by right].
    destruct Hpend as [->|[-> _]]; done. }
  unfold notified in Hn. simpl in Hn.
  destruct (compaction_pending_ (mo_sys m).1) eqn:Ep, (compaction_pending_ db') eqn:Ep'; simpl in Hn;
    try (subst m'; split; [apply weak_ok; [done|]; simpl; rewrite Ep'; intros Ht;
      destruct (mk_asleep _ Hok Ht); split; congruence|done]).
  destruct Hpend as [[=]|[_ Hidle]]. rewrite <- Hstop.
  apply (notify_one_ok (set_sys (db', (mo_sys m).2) m)); [done| |done]. simpl. intros _ i Hci.
  specialize (Hc i Hci). rewrite woken_false in Hc. destruct Hc; congruence.
Qed.

Lemma compact_poll_eq db :
  compact_poll db =
    if compact_done (current_version_ db)
    then (set_compaction (compaction_pending_ db) (compaction_running_ db) false db, Ok true)
    else (set_compaction (compaction_pending_ db || negb (compaction_running_ db)) (compaction_running_ db)
      (force_compact_ db) db, Ok false).
Proof. unfold compact_poll. erewrite dbm_bind_ok by reflexivity. by destruct (compact_done _). Qed.

Lemma compact_loop_ok i m m' :
  monitor_ok m → mo_stop m = false → mo_callers m !! i = Some Awake → compact_loop i m m' → monitor_ok m'.
Proof.
  intros Hok Hstop Hi Hl. destruct Hl as [db' E|db' m' E Hn]; rewrite compact_poll_eq in E; case_match; simplify_eq.
  - destruct Hok as [H1 H2 H3 H4 H5 H6]. split; simpl; try done.
    + intros j Hj. apply lookup_delete_Some in Hj as [_ Hj]. by apply (H5 j).
    + congruence.
  - set (db' := set_compaction _ _ _ _) in *.
    destruct (notified_ok m db' m' Hok Hstop) as (Hok' & Es & Est); [|done|].
    { split; [done|]. simpl. destruct (compaction_running_ (mo_sys m).1); simpl; [left; by rewrite orb_false_r|].
      right. by rewrite orb_true_r. }
    destruct Hok' as [H1 H2 H3 H4 H5 H6]. split; simpl; try done; [|congruence].
    intros j. rewrite lookup_insert_Some, Es. intros [[_ E]|[_ Hj]]; simpl.
    + by destruct (compact_woken db').
    + by rewrite <- (f_equal fst Es : (mo_sys m').1 = db'), (H5 j).
Qed.

Section Invariant.
#[local] Set Default Proof Using "All".
Context `{PosixOk} `{PriorityQueueOk}.

Lemma thread_work_keeps m m' :
  monitor_ok m → mo_thread m = Awake → thread_work m = (m', Ok tt) → monitor_ok m'.
Proof.
  intros [K1 K2 K3 K4 K5 K6] Ht E. destruct m as [[db w] t cs stop]. simpl in *. subst t.
  unfold thread_work in E. cbn [mo_sys fst snd] in E.
  destruct (worker_step w db) as [db' [w'| |]] eqn:Ew; [|done..]. injection E as <-.
  destruct (worker_step_flags _ _ _ _ Ew) as [[-> R]|[(-> & Hw & R & P)|(Hw & Hw' & R & P)]].
  - split; simpl; try done; [by rewrite R| |].
    + intros i. rewrite lookup_fmap. by destruct (cs !! i) as [[]|].
    + intros E. by rewrite (K6 E).
  - destruct w'; [done|..]; (split; simpl; try done); intros i Hi; apply woken_false; by right.
  - destruct w'; [done|..]; (split; simpl; try done; [by rewrite R; split; [done|intros _; apply K4]|..]);
      intros i Hi; specialize (K5 i Hi); rewrite woken_false in *; by rewrite R, P.
Qed.

Lemma thread_step_keeps m m' :
  monitor_ok m → mo_thread m = Awake → thread_step m = (m', Ok tt) → monitor_ok m'.
Proof.
  intros Hok Ht E. unfold thread_step in E.
  destruct (mo_sys m).2 as [|snap job oldest|snap job oldest it x|snap job outs] eqn:Ew;
    [|by eapply thread_work_keeps..].
  destruct (mo_stop m) eqn:Es; [|destruct (compaction_pending_ (mo_sys m).1) eqn:Ep; [by eapply thread_work_keeps|]];
    injection E as <-; destruct Hok; by split.
Qed.

Lemma monitor_step_ok m m' : monitor_ok m → monitor_step m m' → monitor_ok m'.
Proof.
  intros Hok Hs. destruct Hs as [c db' r m' Hstop E Hn|i m' Hstop Hnew Hl|i m' Hi Hw Hl|i Hi Hw|m' Ht E|Ht|i Hi|m' Hstop Hcs Hn].
  - apply (notified_ok m db' m' Hok Hstop); [|done]. by eapply run_call_flags.
  - eapply compact_loop_ok; [| | |exact Hl]; [|done|apply lookup_insert_eq].
    destruct Hok as [H1' H2' H3' H4' H5' H6']. split; simpl; try done; [|congruence].
    intros j. rewrite lookup_insert_Some. intros [[_ [=]]|[_ Hj]]. by apply (H5' j).
  - assert (mo_stop m = false) as Hstop.
    { destruct (mo_stop m) eqn:E; [|done]. by rewrite (mk_stop _ Hok E) in Hi. }
    by eapply compact_loop_ok.
  - destruct Hok as [H1' H2' H3' H4' H5' H6']. split; simpl; try done.
    intros E. by rewrite (H6' E) in Hi.
  - by eapply thread_step_keeps.
  - destruct Hok. by split.
  - destruct Hok as [H1' H2' H3' H4' H5' H6']. split; simpl; try done.
    + intros j. rewrite lookup_insert_Some. intros [[_ [=]]|[_ Hj]]. by apply (H5' j).
    + intros E. by rewrite (H6' E) in Hi.
  - destruct (ok_weak _ Hok) as [Hi Hg Hr Hc Hs].
    apply (notify_one_ok (mkMonitor (mo_sys m) (mo_thread m) (mo_callers m) true)) in Hn; [apply Hn| |].
    + split; simpl; try done. 
    + simpl. intros _ i. by rewrite Hcs.
Qed.

Lemma reachable_ok m : reachable m → monitor_ok m.
Proof.
  induction 1 as [db Hr|m m' _ IH Hs]; [|by eapply monitor_step_ok].
  split; simpl; try done; by rewrite Hr.
Qed.

(** ** The end of the thread *)

(** After [stop_] is set: nobody waits. *)
Definition stopping (db : DB) (w : Worker) : Monitor := mkMonitor (db, w) Awake ∅ true.

(** The thread comes to its end, and the contents are still those of [sp]. *)
Definition joins (sp : Spec) (m : Monitor) : Prop :=
  ∃ n m', thread_run n m = (m', Ok tt) ∧ mo_thread m' = Gone ∧ store_refined (mo_sys m') sp.

Lemma joins_step sp m m1 : thread_step m = (m1, Ok tt) → joins sp m1 → joins sp m.
Proof using Type. intros E (n & m' & En & Hm). exists (S n), m'. cbn [thread_run]. by rewrite E. Qed.

Lemma joins_waiting sp ents mes db : refines ents mes db sp → joins sp (stopping db Waiting).
Proof using Type.
  intros Href. eapply joins_step; [reflexivity|]. eexists 0%nat, _. split_and!; [reflexivity|done|].
  exists ents, mes. split; [done|constructor].
Qed.

(** A step of a thread that is at work. *)
Lemma working_step w db db' w' :
  w ≠ Waiting → worker_step w db = (db', Ok w') → thread_step (stopping db w) = (stopping db' w', Ok tt).
Proof using Type.
  intros Hw E. unfold thread_step, thread_work. cbn [mo_sys stopping fst snd]. rewrite E.
  destruct w; [done|..]; destruct w'; try done; unfold notify_all, stopping; simpl; by rewrite fmap_empty.
Qed.

Lemma joins_merged sp ents mes db snap job oldest l total x :
  refines ents mes db sp → job_ok ents db snap job oldest l total →
  written ents db (output_level job) total (total, []) x →
  joins sp (stopping db (Merged snap job (v_outputs x))).
Proof.
  intros Href Hj Hwr. destruct (commit_job_ok ents mes db sp _ _ _ _ _ _ Href Hj Hwr) as (db' & E & Href' & _).
  eapply joins_step; [by eapply working_step|]. by eapply joins_waiting.
Qed.

Lemma joins_merging sp snap job oldest l total rest ents mes db it x done :
  refines ents mes db sp → merging ents db snap job oldest l total it x done rest →
  next_sst_number_ db + Z.of_nat (length rest) < 2 ^ 31 → joins sp (stopping db (Merging snap job oldest it x)).
Proof.
  revert ents db it x done. induction rest as [|e rest IH]; intros ents db it x done Href Hm Hn.
  - destruct (merge_round_end ents mes db sp _ _ _ _ _ _ _ _ Href Hm) as (db' & x' & E & Hi & Hj & Hwr).
    eapply joins_step; [by eapply working_step|]. eapply joins_merged; [apply Hi|exact Hj|exact Hwr].
  - cbn [length] in Hn.
    destruct (merge_round_valid ents mes db sp _ _ _ _ _ _ _ _ _ _ Href ltac:(lia) Hm)
      as (db' & ents' & it' & x' & E & Hi & Hm').
    pose proof (leaves_at 1 _ _ _ _ (leaves_round _ _ _ _ _) E) as Hq.
    eapply joins_step; [by eapply working_step|]. eapply IH; [apply Hi|exact Hm'|].
    pose proof (q_next _ _ _ Hq). lia.
Qed.

Lemma joins_any sp ents mes db w :
  refines ents mes db sp → worker_ok ents db w →
  next_sst_number_ db + Z.of_nat (worker_entries w) < 2 ^ 31 → joins sp (stopping db w).
Proof.
  intros Href Hw Hn. pose proof (rf_rep _ _ _ _ Href) as Hdb.
  destruct Hw as [|snap job oldest l total Hj|snap job oldest l total it x done rest Hm|snap job oldest l total x Hj Hwr].
  - by eapply joins_waiting.
  - destruct (open_merge_ok ents mes db sp _ _ _ _ _ Href Hj) as (db' & it & x & E & Hi & Hm).
    pose proof (leaves_at 0 _ _ _ _ (leaves_open _ _ _) E) as Hq.
    eapply joins_step; [by eapply working_step|]. eapply joins_merging; [apply Hi|exact Hm|].
    rewrite (job_length _ _ _ _ _ _ _ _ Hdb Hj). pose proof (q_next _ _ _ Hq). cbn [worker_entries] in Hn. lia.
  - eapply joins_merging; [exact Href|exact Hm|]. cbn [worker_entries] in Hn.
    rewrite <- (job_length _ _ _ _ _ _ _ _ Hdb (mg_job _ _ _ _ _ _ _ _ _ _ _ Hm)) in Hn.
    rewrite (mg_entries _ _ _ _ _ _ _ _ _ _ _ Hm), length_app in Hn. lia.
  - by eapply joins_merged.
Qed.

(** ** The monitor and the schedules of Store.v *)

(** A step changes the store as actions of Store.v do. *)
Lemma monitor_step_actions m m' :
  monitor_step m m' →
  ∃ acts, mo_sys m' = fold_left (λ s a, (run_action a s).1) acts (mo_sys m).
Proof using Type.
  assert (∀ m m', notify_one m m' → mo_sys m' = mo_sys m) as Hone by (by destruct 1).
  assert (∀ db m m', notified db m m' → mo_sys m' = mo_sys m) as Hnot.
  { intros db m1 m2. unfold notified. case_match; [apply Hone|by intros ->]. }
  assert (∀ i m m', compact_loop i m m' → mo_sys m' = (run_action CompactPoll (mo_sys m)).1) as Hloop.
  { intros i m1 m2 [db' E|db' m3 E Hn]; simpl; rewrite E; [done|]. by rewrite (Hnot _ _ _ Hn). }
  destruct 1 as [c db' r m' _ E Hn|i m' _ _ Hl|i m' _ _ Hl|i _ _|m' _ E|_|i _|m' _ _ Hn].
  - exists [Client c]. rewrite (Hnot _ _ _ Hn). simpl. by rewrite E.
  - exists [CompactBegin; CompactPoll]. by rewrite (Hloop _ _ _ Hl).
  - exists [CompactPoll]. by rewrite (Hloop _ _ _ Hl).
  - by exists [].
  - destruct m as [[db w] t cs stop]. unfold thread_step, thread_work in E. cbn [mo_sys mo_stop fst snd] in E.
    destruct (worker_step w db) as [db' [w'| |]] eqn:Ew.
    + destruct w; [destruct stop; [|destruct (compaction_pending_ db) eqn:Ep]|..]; simplify_eq; try by exists [].
      all: exists [Background]; cbn [fold_left run_action mo_sys fst snd]; unfold worker_ready; rewrite ?Ep, Ew;
        by destruct w'.
    + destruct w; [destruct stop; [|destruct (compaction_pending_ db)]|..]; simplify_eq; by exists [].
    + destruct w; [destruct stop; [|destruct (compaction_pending_ db)]|..]; simplify_eq; by exists [].
  - by exists [].
  - by exists [].
  - exists []. by rewrite (Hone _ _ Hn).
Qed.

(** No caller of [compact], and not stopped. *)
Definition calm (m : Monitor) : Prop := reachable m ∧ mo_callers m = ∅ ∧ mo_stop m = false.

Lemma notified_calm db m : mo_callers m = ∅ → ∃ t, notified db m (set_thread t m).
Proof using Type.
  intros Hc. unfold notified. destruct (_ && _); [|exists (mo_thread m); by destruct m].
  destruct (decide (mo_thread m = Asleep)) as [Ht|Ht]; [exists Awake; by apply notify_thread|].
  exists (mo_thread m). replace (set_thread (mo_thread m) m) with m by (by destruct m).
  apply notify_nobody; [done|]. intros i. by rewrite Hc.
Qed.

Lemma thread_work_calm m db' w' :
  calm m → mo_thread m = Awake → worker_ready (mo_sys m).1 (mo_sys m).2 = true →
  worker_step (mo_sys m).2 (mo_sys m).1 = (db', Ok w') → ∃ m', calm m' ∧ mo_sys m' = (db', w').
Proof using Type.
  intros (Hr & Hc & Hs) Ht Hready E.
  exists (match w' with Waiting => notify_all (set_sys (db', w') m) | _ => set_sys (db', w') m end).
  split; [|by destruct w']. split; [|destruct w'; simpl; rewrite Hc, ?fmap_empty; by split].
  eapply reach_step; [exact Hr|]. apply step_thread; [done|]. unfold thread_step, thread_work. rewrite E, Hs.
  destruct (mo_sys m).2; simpl in Hready; by rewrite ?Hready.
Qed.

(** Every schedule of calls and steps of the thread can happen. *)
Lemma action_monitored m a s' o :
  calm m → match a with Client _ | Background => True | _ => False end →
  run_action a (mo_sys m) = (s', Ok o) → ∃ m', calm m' ∧ mo_sys m' = s'.
Proof.
  intros (Hr & Hc & Hs) Ha E. destruct a as [c| | |]; try done; cbn [run_action] in E.
  - destruct (run_call c (mo_sys m).1) as [db' r] eqn:Ec. simpl in E. injection E as <- _.
    destruct (notified_calm (mo_sys m).1 (set_sys (db', (mo_sys m).2) m) Hc) as [t Hn].
    exists (set_thread t (set_sys (db', (mo_sys m).2) m)). split; [|done]. split; [|done].
    eapply reach_step; [exact Hr|]. by eapply step_call.
  - destruct (worker_ready (mo_sys m).1 (mo_sys m).2) eqn:Ew; [|injection E as <- _; by exists m].
    destruct (worker_step (mo_sys m).2 (mo_sys m).1) as [db' [w'| |]] eqn:Est; [|done..]. injection E as <- _.
    destruct (mo_thread m) eqn:Et.
    + apply (thread_work_calm (set_thread Awake m)); try done. split; [|done].
      eapply reach_step; [exact Hr|]. by apply step_thread_wakes.
    + by apply (thread_work_calm m).
    + pose proof (mk_gone _ (reachable_ok m Hr) Et). congruence.
Qed.

Lemma schedule_monitored acts m s' os :
  calm m → Forall (λ a, match a with Client _ | Background => True | _ => False end) acts →
  run_schedule acts (mo_sys m) = (s', Ok os) → ∃ m', calm m' ∧ mo_sys m' = s'.
Proof.
  intros Hm Hacts. revert m os Hm. induction Hacts as [|a acts Ha _ IH]; intros m os Hm E.
  - injection E as <- _. by exists m.
  - cbn [run_schedule] in E. destruct (run_action a (mo_sys m)) as [s1 [o| |]] eqn:E1; [|done..].
    destruct (action_monitored m a s1 o Hm Ha E1) as (m1 & Hm1 & <-).
    destruct (run_schedule acts (mo_sys m1)) as [s2 [os2| |]] eqn:E2; [|done..]. injection E as <- _.
    by eapply IH.
Qed.

End Invariant.

(** * Theorems *)

(** C13.  No wake-up is lost, although the thread and the callers of [compact]
    sleep on one condition variable and requests notify only one of them: in
    every state that can be reached, with threads woken for no reason in
    between, a thread that has been asked for a compaction or to stop is not
    asleep, and as long as a caller of [compact] sleeps the thread is awake and
    can make a step. *)
Theorem no_lost_wakeup `{PosixOk} `{PriorityQueueOk} (m : Monitor) :
  reachable m →
  (compaction_pending_ (mo_sys m).1 = true ∨ mo_stop m = true → mo_thread m ≠ Asleep) ∧
  (∀ i, mo_callers m !! i = Some Asleep →
    mo_thread m = Awake ∧ worker_ready (mo_sys m).1 (mo_sys m).2 = true).
Proof.
  intros Hr. destruct (reachable_ok m Hr) as [K1 K2 K3 K4 K5 K6]. split.
  - intros Hp Ht. destruct (K1 Ht) as [E1 E2]. destruct Hp; congruence.
  - intros i Hi. specialize (K5 i Hi). apply woken_false in K5.
    assert (mo_stop m = false) as Hstop.
    { destruct (mo_stop m) eqn:E; [|done]. by rewrite (K6 eq_refl) in Hi. }
    assert (mo_thread m = Awake) as Ht.
    { destruct (mo_thread m) eqn:Et; [|done|].
      - destruct (K1 eq_refl) as [E1 _]. destruct K5 as [?|R]; [congruence|]. apply K4 in R.
        by destruct R; apply K2.
      - by rewrite K3 in Hstop. }
    split; [done|]. unfold worker_ready. destruct (mo_sys m).2; try done. destruct K5 as [->|R]; [done|].
    by apply K4 in R.
Qed.

(** C14.  The destructor returns: wherever the thread is when [stop_] is set,
    asleep or at work on a job, it ends its round, leaves its loop without
    taking another job, and can be joined; readers could not tell the
    difference. *)
Theorem destructor_joins `{PosixOk} `{PriorityQueueOk} (m : Monitor) (sp : Spec) :
  reachable m → mo_stop m = true → store_refined (mo_sys m) sp →
  next_sst_number_ (mo_sys m).1 + Z.of_nat (worker_entries (mo_sys m).2) < 2 ^ 31 →
  ∃ n m', thread_run n m = (m', Ok tt) ∧ mo_thread m' = Gone ∧ store_refined (mo_sys m') sp.
Proof.
  intros Hr Hstop (ents & mes & Href & Hw) Hn. destruct (reachable_ok m Hr) as [K1 K2 K3 K4 K5 K6].
  destruct m as [[db w] t cs stop]. cbn [mo_sys mo_thread mo_callers mo_stop fst snd] in *.
  subst stop. rewrite (K6 eq_refl) in *. destruct t.
  - by destruct (K1 eq_refl).
  - by apply (joins_any sp ents mes db w).
  - exists 0%nat. eexists. split_and!; [reflexivity|done|]. by exists ents, mes.
Qed.

(** * Examples *)

Lemma start_calm `{Posix} `{PriorityQueue} db : compaction_running_ db = false → calm (monitor_start db).
Proof. intros Hr. split; [by apply reach_start|done]. Qed.

Lemma two_files_pending :
  let db := ex_tables torn_options ex_two in
  compact_done (current_version_ db) = false ∧ compaction_running_ db = false ∧ compaction_pending_ db = false.
Proof. by vm_compute. Qed.

(** A caller of [compact] whose request has woken the thread. *)
Definition ex_waiting (db : DB) : Monitor :=
  mkMonitor (set_compaction true false true db, Waiting) Awake {[0%nat := Asleep]} false.

Lemma ex_waiting_reachable `{Posix} `{PriorityQueue} db :
  compact_done (current_version_ db) = false → compaction_running_ db = false →
  compaction_pending_ db = false → reachable (ex_waiting db).
Proof.
  intros Hd Hr Hp. set (m := mkMonitor (db, Waiting) Asleep ∅ false).
  assert (reachable m) as Hm.
  { eapply reach_step; [by apply (reach_start db)|]. apply step_thread; [done|].
    unfold thread_step. simpl. by rewrite Hp. }
  eapply reach_step; [exact Hm|]. apply (step_compact m 0); [done|done|].
  set (m1 := set_caller _ _ _).
  assert (ex_waiting db = set_caller 0 (if compact_woken (set_compaction true false true db) then Awake else Asleep)
    (set_thread Awake (set_sys (set_compaction true false true db, Waiting) m1))) as ->.
  { unfold ex_waiting, set_caller, set_thread, set_sys. simpl. by f_equal. }
  apply (compact_waits 0 m1 (set_compaction true false true db)).
  - rewrite compact_poll_eq. simpl. rewrite Hd, Hp, Hr. done.
  - unfold notified. simpl. rewrite Hp. simpl. by apply notify_thread.
Qed.

Lemma no_lost_wakeup_witness :
  mo_thread (ex_waiting (ex_tables torn_options ex_two)) = Awake ∧
  worker_ready (mo_sys (ex_waiting (ex_tables torn_options ex_two))).1 Waiting = true.
Proof.
  destruct two_files_pending as (Hd & Hr & Hp).
  exact (proj2 (no_lost_wakeup (H := ex_posix) (H1 := first_pq) _
    (ex_waiting_reachable (H := ex_posix) (H0 := first_pq) _ Hd Hr Hp)) 0%nat eq_refl).
Defined.

Lemma notified_stop m :
  mo_callers m = ∅ →
  ∃ m', notify_one (mkMonitor (mo_sys m) (mo_thread m) (mo_callers m) true) m' ∧ mo_sys m' = mo_sys m ∧
    mo_stop m' = true.
Proof.
  intros Hc. destruct (decide (mo_thread m = Asleep)) as [Ht|Ht].
  - eexists. split; [by apply notify_thread|done].
  - eexists. split; [apply notify_nobody; [done|]|done]. simpl. intros i. by rewrite Hc.
Qed.

Lemma ex_middle_monitored :
  ∃ m, calm (H := ex_posix) (H1 := first_pq) m ∧ mo_sys m = ex_middle.
Proof.
  assert (match (ex_schedule busy_options (take 8 busy_schedule)).2 with Ok _ => true | _ => false end = true)
    as Hok by (by vm_compute).
  destruct (ex_schedule busy_options (take 8 busy_schedule)) as [s [os| |]] eqn:E; [|done..].
  destruct (schedule_monitored (H := ex_posix) (H1 := first_pq) (take 8 busy_schedule)
    (monitor_start (DB_new busy_options)) s os) as (m & Hm & Es).
  - by apply start_calm.
  - repeat constructor.
  - exact E.
  - exists m. split; [exact Hm|]. unfold ex_middle. by rewrite E.
Qed.

Lemma ex_middle_room :
  next_sst_number_ ex_middle.1 + Z.of_nat (worker_entries (H := ex_posix) ex_middle.2) < 2 ^ 31.
Proof. by vm_compute. Qed.

(** The destructor in the middle of a compaction. *)
Lemma destructor_joins_witness :
  ∃ m sp n m', mo_sys m = ex_middle ∧ mo_stop m = true ∧
    thread_run (H := ex_posix) (H0 := first_pq) n m = (m', Ok tt) ∧ mo_thread m' = Gone ∧
    store_refined (H := ex_posix) (H0 := first_pq) (mo_sys m') sp.
Proof.
  destruct ex_middle_monitored as (m & (Hr & Hc & Hs) & Em). destruct ex_middle_refined as [sp Hsp].
  destruct (notified_stop m Hc) as (m1 & Hn & Es & Est).
  destruct (destructor_joins (H := ex_posix) (H1 := first_pq) m1 sp) as (n & m' & En & Hg & Href).
  - eapply reach_step; [exact Hr|]. by apply (step_stop m m1).
  - exact Est.
  - rewrite Es, Em. exact Hsp.
  - rewrite Es, Em. exact ex_middle_room.
  - exists m1, sp, n, m'. rewrite Es. repeat split; assumption.
Defined.
