(* ===== verification/Crash.v ===== *)
(** Crashes and failures in the middle of a write or a flush.

    The operations run on an arbitrary operating system, on which any call may
    write part of its bytes, fail or never return; only [fdatasync] is trusted.
    What has been done up to the failure is what a crash at that point finds.
    The recovery that follows runs on a system that works. *)

From stdpp Require Import gmultiset.
From S2P Require Import Prelude Coding Wal Entry Manifest Memtable BlockCache SSTableWriter SSTable MergeIterator Version Compaction Db Recovery.
Local Open Scope Z_scope.

(** * Definitions *)

(** A system whose syncs reach the medium. *)
Definition syncs (sys : Posix) : Prop := ∀ file, @sys_sync sys file = true.

(** * Lemmas *)

(** ** What a failing system leaves *)

(** [r'] ends as [r] does, if [r] succeeds. *)
Definition implies_ok {A} (r r' : result A) : Prop := ∀ a, r = Ok a → r' = Ok a.

Lemma implies_ok_refl {A} (r : result A) : implies_ok r r.
Proof. by intros a. Qed.

Lemma implies_ok_bind {A B} (m m' : result A) (f f' : A → result B) :
  implies_ok m m' → (∀ a, implies_ok (f a) (f' a)) → implies_ok (m ≫= f) (m' ≫= f').
Proof.
  intros Hm Hf b E. destruct m as [a| |] eqn:Em; simpl in E; [|done|done].
  rewrite (Hm a eq_refl). simpl. by apply Hf.
Qed.

(** A write that returns has written everything. *)
Lemma write_fully_done (sys : Posix) f buf f' :
  @write_fully sys f buf = (f', IoDone) →
  f' = {| f_data := f_data f ++ buf; f_synced := f_synced f; f_older := f_older f |}.
Proof.
  intros E. destruct (@write_fully_prefix sys f buf) as (p & _ & Hd & Hok). rewrite E in Hd, Hok.
  cbn [fst snd] in Hd, Hok. rewrite (proj1 Hok eq_refl) in Hd. unfold write_fully in E.
  injection E as <- _. cbn [f_data] in Hd. by rewrite Hd.
Qed.

Section Writer.
#[local] Set Default Proof Using "All".
Context (sys : Posix) {good : Posix} {Hgood : @PosixOk good} (Hsync : syncs sys).

Lemma writer_write_fail w buf :
  implies_ok (@writer_write sys w buf) (@writer_write good w buf).
Proof.
  intros w'. unfold writer_write. rewrite (write_fully_ok (H := good)). cbn [fst snd].
  destruct (@write_fully sys (w_file w) buf) as [f st] eqn:E. cbn [fst snd] in *.
  destruct st; try done. intros [= <-]. by apply write_fully_done in E as ->.
Qed.

(** So is a batch that was appended to the log. *)
Lemma append_batch_fail w rs :
  (@append_batch sys w rs).2 = IoDone → @append_batch sys w rs = @append_batch good w rs.
Proof.
  destruct rs as [|r rs]; [done|]. unfold append_batch, wal_write.
  rewrite (write_fully_ok (H := good)). cbn [fst snd].
  destruct (@write_fully sys (wal_file w) _) as [f st] eqn:E. cbn [fst snd].
  destruct st; try done. apply write_fully_done in E as ->. intros _.
  destruct (mode_ w); [|done]. unfold durable_sync. by rewrite Hsync, (sys_sync_ok (PosixOk := Hgood)).
Qed.

Lemma flush_block_fail w : implies_ok (@flush_block sys w) (@flush_block good w).
Proof.
  unfold flush_block. case_bool_decide; [apply implies_ok_refl|].
  apply implies_ok_bind; [apply writer_write_fail|]. intros w1.
  apply implies_ok_bind; [apply writer_write_fail|]. intros w2. apply implies_ok_refl.
Qed.

Lemma add_entries_fail w es : implies_ok (@add_entries sys w es) (@add_entries good w es).
Proof.
  revert w. induction es as [|e es IH]; intros w; [apply implies_ok_refl|]. cbn [add_entries].
  apply implies_ok_bind; [|done]. unfold writer_add.
  apply implies_ok_bind; [|intros; apply implies_ok_refl].
  case_match; [apply flush_block_fail|apply implies_ok_refl].
Qed.

Lemma write_index_fail w index n : implies_ok (@write_index sys w index n) (@write_index good w index n).
Proof.
  revert w n. induction index as [|ie index IH]; intros w n; [apply implies_ok_refl|].
  cbn [write_index].
  do 3 (apply implies_ok_bind; [apply writer_write_fail|intros]). apply IH.
Qed.

(** A table file a failing system has finished is the right one. *)
Lemma finish_fail w : implies_ok (@finish sys w) (@finish good w).
Proof.
  unfold finish. apply implies_ok_bind; [apply flush_block_fail|]. intros w1.
  apply implies_ok_bind; [apply write_index_fail|]. intros wi.
  apply implies_ok_bind; [apply implies_ok_refl|]. intros bloom.
  do 2 (apply implies_ok_bind; [apply writer_write_fail|intros]).
  unfold durable_sync at 1. rewrite Hsync, (durable_sync_ok (H := good)). apply implies_ok_refl.
Qed.

End Writer.

(** ** A crash in a write *)

(** The files after the section of the leader under [mu_], however it ends. *)
Lemma commit_leaves_files (sys : Posix) batch coins db :
  wal_null db = false →
  let db' := ((rs ← take_numbers batch; @commit_records sys rs coins) db).1 in
  let rs := (assign_seqs (next_seq_ db) batch).1 in
  wal_ db' = (@append_batch sys (wal_ db) rs).1 ∧ manifest_ db' = manifest_ db ∧
  current_version_ db' = current_version_ db ∧ db_dir db' = db_dir db.
Proof.
  intros Hw. erewrite dbm_bind_ok by reflexivity. unfold commit_records, append_wal, mbind, dbm_bind.
  cbn [wal_null set_next_seq]. rewrite Hw. cbn [wal_].
  destruct (io_result _); [|done|done]. unfold gets, liftr. by destruct (apply_records _ _ _).
Qed.

(** The log after a crash holds the old records and the first of the new, or it
    is as it was before a truncation. *)
Lemma crash_append (sys : Posix) `{PosixOk} w old rs after :
  f_data (wal_file w) = encode_records old →
  f_synced (wal_file w) = length (f_data (wal_file w)) → Forall record_ok (old ++ rs) →
  crash_file (wal_file (@append_batch sys w rs).1) after →
  (∃ n tail, after = encode_records (old ++ take n rs) ++ tail ∧ replay_one tail = None ∧
    (length after ≤ length (encode_records (old ++ rs)))%nat) ∨
  Exists (λ o, crash_part o.1 o.2 after) (f_older (wal_file w)).
Proof.
  intros Hw Hs Hok Hc. destruct (@append_batch_prefix sys w rs) as (p & Hpre & Hd & _ & Hsy & Hold).
  destruct Hc as [[Hp Hl]|Hx].
  2:{ destruct Hold as [E|E]; rewrite E in Hx; [by right|by inversion Hx]. }
  left. rewrite Hd, Hw in Hp. specialize (Hsy ltac:(lia)).
  assert (length (encode_records old) ≤ length after)%nat as Hlen by (rewrite Hs, Hw in Hsy; lia).
  destruct (prefix_app_cut after (encode_records old) p Hp Hlen) as (q & -> & Hq).
  assert (q `prefix_of` encode_records rs) as Hq' by (by etrans).
  destruct (prefix_of_log rs q Hq') as (n & tail & -> & Hn & Ht). exists n, tail.
  apply Forall_app in Hok as [_ Hok]. split_and!.
  - by rewrite encode_records_app, <- (assoc_L (++)).
  - destruct (rs !! n) as [r|] eqn:E; [|subst tail; apply replay_one_nil].
    destruct Ht as [Ht1 Ht2]. apply (replay_one_torn r); [|done|done]. by eapply Forall_lookup_1.
  - apply prefix_length in Hq'. rewrite encode_records_app. rewrite !length_app in *. lia.
Qed.

Section Crash.
#[local] Set Default Proof Using "All".
Context (sys : Posix) {good : Posix} {Hgood : @PosixOk good}.

(** Opening a disk whose log recovers [mp]. *)
Lemma open_recovers ents v rs d o coins mp :
  disk_state (H := good) ents v rs d → recovers (version_layers ents v) rs mp →
  0 ≤ block_cache_bytes o < 2 ^ 63 →
  ∃ db', @db_open good d o coins = Ok db' ∧ refined (H := good) db' (mkSpec mp []).
Proof.
  intros Hd (next & Hn & Hl & Hk) Ho.
  destruct (open_refines (H := good) ents v rs d o coins next mp) as (db' & E & Href & _); [done..|].
  exists db'. split; [done|]. by exists ents, (insert_records rs []).
Qed.

(** The files of a database whose log may have changed. *)
Lemma same_tables_disk j ents mes db db' d f rs tail :
  db_rep (H := good) ents mes db → durable (H := good) j ents mes db → crash_disk db' d →
  manifest_ db' = manifest_ db → db_dir db' = db_dir db →
  wal_on d = Some f → f_data f = encode_records rs ++ tail → @replay_one good tail = None →
  Forall record_ok rs → blen (f_data f) < 2 ^ 63 → disk_state (H := good) ents (current_version_ db) rs d.
Proof.
  intros Hdb Hdu [_ (m & Hm & Hcm) Hct] Em Ed Hw Ef Ht Hok Hsize. rewrite Em in Hcm. rewrite Ed in Hct.
  apply (remains_disk (H := good) j ents mes db d f rs tail); try done. split.
  - apply crash_full in Hcm as ->; [done|apply Hdu].
  - intros n f'. apply crash_table, Hct.
  - intros n Hn. apply (du_dir _ _ _ _ Hdu). specialize (Hct n).
    destruct (db_dir db !! n) as [f'|]; [by exists f'|]. by destruct (ssts_on d !! n); [|destruct Hn].
Qed.

(** The log has room for the batch. *)
Definition batch_fits (db : DB) (batch : list WriteRequest) : Prop :=
  log_fits db ∧ blen (f_data (wal_file (wal_ db)) ++ encode_records (assign_seqs (next_seq_ db) batch).1) < 2 ^ 63.

Lemma commit_crash db sp batch coins d o coins' :
  durably_refined (H := good) db sp → Forall request_ok batch →
  next_seq_ db + Z.of_nat (length batch) < 2 ^ 64 → batch_fits db batch →
  0 ≤ block_cache_bytes o < 2 ^ 63 →
  crash_disk ((rs ← take_numbers batch; @commit_records sys rs coins) db).1 d →
  ∃ n db', @db_open good d o coins' = Ok db' ∧
    refined (H := good) db' (mkSpec (fold_left spec_write (take n batch) (sp_map sp)) []).
Proof.
  intros (j & ents & mes & Hj & Href & Hdu) Hb Hn [Hfits Hsize] Ho Hc. pose proof (rf_rep _ _ _ _ Href) as Hdb.
  destruct (commit_leaves_files sys batch coins db) as (Ew & Em & Ev & Ed); [apply Hdb|].
  destruct (crash_wal _ _ Hc) as (f & Hw & w & -> & Hcw). rewrite Ew in Hcw.
  set (rs := (assign_seqs (next_seq_ db) batch).1) in *.
  destruct (du_wal _ _ _ _ Hdu) as (old & Eold & Hold & Emes & Hlog & _ & Holder).
  pose proof (rep_next _ _ _ Hdb). rewrite (refines_journal (H := good) j ents mes db sp Href Hdu).
  pose proof (rep_layers _ _ _ Hdb) as Hl. pose proof (rep_mem_ok _ _ _ Hdb) as Hm. unfold db_layers in Hl.
  rewrite Emes in Hl, Hm.
  destruct (assign_seqs_layers batch (next_seq_ db) (insert_records old [])
    (version_layers ents (current_version_ db))) as (_ & _ & Hrs & _); [done|lia|lia|done|done|].
  destruct (crash_append sys (wal_ db) old rs w Eold) as [(n & tail & -> & Ht & Hlen)|Hx];
    [by apply (du_wal_synced _ _ _ _ Hdu)|by apply Forall_app|done| |].
  - exists n. apply (open_recovers ents (current_version_ db) (old ++ take n rs) d o coins');
      [|unfold rs; rewrite <- assign_seqs_take; apply recovers_batch|done].
    + eapply same_tables_disk; [done|done|exact Hc|done|done|exact Hw|reflexivity|done| |].
      * apply Forall_app. split; [done|]. by apply Forall_take.
      * rewrite Eold, <- encode_records_app in Hsize. unfold blen in *. cbn [f_data on_disk] in *. lia.
    + by apply Forall_take.
    + done.
    + done.
    + lia.
    + rewrite length_take. lia.
    + by apply log_recovers_all.
  - exists 0%nat. specialize (Holder Hj). rewrite Forall_forall in Holder.
    apply Exists_exists in Hx as ([b n] & Hin & Hp & Hlb). cbn [fst snd] in *.
    destruct (Holder _ Hin) as (En & rs' & tail & Eb & Ht & Hok' & Hrec & _). cbn [fst snd] in En, Eb.
    apply prefix_full in Hp as ->; [|lia]. eapply open_recovers; [|exact Hrec|done].
    eapply same_tables_disk; [done|done|exact Hc|done|done|exact Hw|exact Eb|done|done|].
    apply Forall_cons in Hfits as [_ Hfits]. rewrite Forall_forall in Hfits. by apply (Hfits _ Hin).
Qed.

(** ** A crash in a flush *)

Lemma dbm_bind_eq {A B} (m : dbm A) (f : A → dbm B) db :
  (m ≫= f) db =
    match m db with
    | (db', Ok a) => f a db'
    | (db', Throw msg) => (db', Throw msg)
    | (db', Undefined) => (db', Undefined)
    end.
Proof using Type. done. Qed.

Lemma liftr_bind {A B} (r : result A) (f : A → dbm B) db :
  (liftr r ≫= f) db =
    match r with Ok a => f a db | Throw msg => (db, Throw msg) | Undefined => (db, Undefined) end.
Proof using Type. done. Qed.

(** The manifest of a version only depends on the manifest entries. *)
Lemma push_level0_manifest v fm fm' :
  meta_entry fm = meta_entry fm' →
  version_to_manifest (push_level0 v fm) = version_to_manifest (push_level0 v fm').
Proof using Type.
  intros E. unfold version_to_manifest, push_level0, files_at. cbn [files].
  destruct (files v) as [|l0 ls]; [done|]. simpl. f_equal.
  rewrite !fmap_app. f_equal. cbn [fmap list_fmap]. by injection E as -> -> -> ->.
Qed.

Context (Hsync : syncs sys).

Lemma write_level0_files num mes bloom db :
  represents (memtable_ db) mes → Forall sst_entry_ok mes → sst_fits mes →
  (w ← @add_entries good SSTableWriter_new mes; @finish good w) = Ok (table_file mes bloom) →
  let r := @write_level0 sys num db in
  (r.1 = db ∧ ∀ fm, r.2 ≠ Ok fm) ∨
  r.1 = set_dir (<[num := table_file mes bloom]> (db_dir db)) db ∧
  ∀ fm, r.2 = Ok fm → meta_entry fm = meta_entry (flushed_meta num mes bloom).
Proof.
  intros Hm Hok Hfit Hfin r. subst r. unfold write_level0.
  erewrite dbm_bind_ok by reflexivity.
  rewrite liftr_bind, (raw_entries_represents _ _ Hm).
  destruct (add_entries_ok (H := good) mes Hok Hfit) as (w & Ha & Hsk & Hlk).
  rewrite liftr_bind. destruct (@add_entries sys SSTableWriter_new mes) as [w'| |] eqn:Ew; [|by left..].
  apply (add_entries_fail sys Hsync) in Ew. rewrite Ew in Hfin, Ha. injection Ha as ->.
  cbn [mbind result_bind] in Hfin. rewrite liftr_bind.
  destruct (@finish sys w) as [f| |] eqn:Ef; [|by left..].
  apply (finish_fail sys Hsync) in Ef. rewrite Ef in Hfin. injection Hfin as ->.
  erewrite dbm_bind_ok by reflexivity. rewrite liftr_bind. unfold install.
  destruct (@sys_rename sys _); [right|by left]. erewrite dbm_bind_ok by reflexivity.
  rewrite liftr_bind. cbn [f_data table_file].
  destruct (@sst_open sys num _) as [t| |]; cbn [fst snd mret dbm_ret]; (split; [done|]); [|done..].
  intros fm [= <-]. unfold meta_entry, flushed_meta. cbn. by rewrite Hsk, Hlk.
Qed.

(** The files a flush leaves, however it ends. *)
Inductive flush_files (mes : list Entry) (bloom : Bloom.Bloom) (db db' : DB) : Prop :=
| flush_before :
    wal_file (wal_ db') = wal_file (wal_ db) → manifest_ db' = manifest_ db →
    db_dir db' = db_dir db ∨
      db_dir db' = <[next_sst_number_ db := table_file mes bloom]> (db_dir db) →
    flush_files mes bloom db db'
| flush_after p :
    let snap := version_to_manifest (push_level0 (current_version_ db)
      (flushed_meta (next_sst_number_ db) mes bloom)) in
    db_dir db' = <[next_sst_number_ db := table_file mes bloom]> (db_dir db) →
    f_data (manifest_ db') = f_data (manifest_ db) ++ p → p `prefix_of` encode_snapshot snap →
    (f_synced (manifest_ db) ≤ f_synced (manifest_ db'))%nat → f_older (manifest_ db') = [] →
    wal_file (wal_ db') = wal_file (wal_ db) ∨
      wal_file (wal_ db') = truncate (wal_file (wal_ db)) 0 ∧ p = encode_snapshot snap ∧
      f_synced (manifest_ db') = length (f_data (manifest_ db')) →
    flush_files mes bloom db db'.

Lemma append_snapshot_fail f entries :
  (f_synced f ≤ length (f_data f))%nat → f_older f = [] →
  let r := @append_snapshot sys f entries in
  ∃ p, p `prefix_of` encode_snapshot entries ∧ f_data r.1 = f_data f ++ p ∧
    (f_synced f ≤ f_synced r.1)%nat ∧ f_older r.1 = [] ∧
    (io_result r.2 = Ok tt → p = encode_snapshot entries ∧ f_synced r.1 = length (f_data r.1)).
Proof.
  intros Hs Ho r. subst r. unfold append_snapshot.
  destruct (@write_fully_prefix sys f (encode_snapshot entries)) as (p & Hp & Hd & Hok).
  exists p. split; [done|].
  assert (f_synced (@write_fully sys f (encode_snapshot entries)).1 = f_synced f) as Hsy by done.
  assert (f_older (@write_fully sys f (encode_snapshot entries)).1 = []) as Hso by exact Ho.
  destruct (@write_fully sys f (encode_snapshot entries)) as [f' st]. cbn [fst snd] in *.
  destruct st; cbn [fst snd].
  - unfold durable_sync. rewrite Hsync. cbn [f_data f_synced]. rewrite Hd, length_app.
    split_and!; [done|lia|done|]. intros _. split; [by apply Hok|done].
  - split_and!; [done|lia|done|done].
  - split_and!; [done|lia|done|done].
  - split_and!; [done|lia|done|done].
Qed.

Lemma flush_files_ok mes bloom db :
  represents (memtable_ db) mes → Forall sst_entry_ok mes → sst_fits mes →
  (w ← @add_entries good SSTableWriter_new mes; @finish good w) = Ok (table_file mes bloom) →
  (f_synced (manifest_ db) ≤ length (f_data (manifest_ db)))%nat → f_older (manifest_ db) = [] →
  flush_files mes bloom db (@flush sys db).1.
Proof.
  intros Hm Hok Hfit Hfin Hs Hso. unfold flush. erewrite dbm_bind_ok by reflexivity.
  destruct (_ =? 0); [by apply flush_before; auto|].
  rewrite dbm_bind_eq. unfold alloc_sst_number. destruct (_ <? _); [|by apply flush_before; auto].
  set (num := next_sst_number_ db) in *. set (db1 := set_next_sst (num + 1) db).
  rewrite dbm_bind_eq.
  destruct (write_level0_files num mes bloom db1 Hm Hok Hfit Hfin) as [[E Hne]|[E Hfm]];
    destruct (@write_level0 sys num db1) as [db2 r]; cbn [fst snd] in *; subst db2.
  { destruct r as [fm| |]; [by destruct (Hne fm)|by apply flush_before; auto..]. }
  destruct r as [fm| |]; [|by apply flush_before; auto..]. specialize (Hfm fm eq_refl).
  erewrite dbm_bind_ok by reflexivity. cbn [current_version_ set_dir db1 set_next_sst].
  rewrite (push_level0_manifest _ fm (flushed_meta num mes bloom)) by done.
  set (snap := version_to_manifest _). rewrite dbm_bind_eq. unfold append_manifest.
  cbn [manifest_ set_dir set_next_sst db1].
  destruct (append_snapshot_fail (manifest_ db) snap Hs Hso) as (p & Hp & Hd & Hsy & Hol & Hio).
  destruct (@append_snapshot sys (manifest_ db) snap) as [mf st]. cbn [fst snd] in *.
  destruct (io_result st) as [[]| |]; [|by apply (flush_after _ _ _ _ p); auto..].
  specialize (Hio eq_refl) as [-> Hsy']. erewrite dbm_bind_ok by reflexivity. rewrite dbm_bind_eq.
  unfold reset_wal. cbn [wal_ set_version set_manifest set_dir set_next_sst db1].
  destruct (@sys_resize sys _); [|by apply (flush_after _ _ _ _ (encode_snapshot snap)); auto].
  erewrite dbm_bind_ok by reflexivity. unfold trigger_compaction, modify. cbn [fst].
  case_match; apply (flush_after _ _ _ _ (encode_snapshot snap)); auto.
Qed.

(** The manifest after the crash: the old snapshots, and the new one in whole
    or in part. *)
Lemma crash_manifest_cases f f' ss snap p m :
  f_data f = encode_snapshots ss → f_synced f = length (f_data f) →
  f_data f' = f_data f ++ p → p `prefix_of` encode_snapshot snap →
  (f_synced f ≤ f_synced f')%nat → f_older f' = [] → snapshot_ok snap → crash_file f' m →
  (∃ tail, m = encode_snapshots ss ++ tail ∧ @load_one good tail = None ∧
    (length m < length (encode_snapshots ss ++ encode_snapshot snap))%nat) ∨
  m = encode_snapshots (ss ++ [snap]).
Proof.
  intros Hf Hs Hd Hp Hsy Ho Hok [[Hm Hl]|Hx]; [|rewrite Ho in Hx; by inversion Hx].
  rewrite Hd, Hf in Hm. rewrite Hs, Hf in Hsy.
  destruct (prefix_app_cut m (encode_snapshots ss) p Hm ltac:(lia)) as (q & -> & Hq).
  assert (q `prefix_of` encode_snapshot snap) as Hq' by (by etrans).
  destruct (Nat.lt_ge_cases (length q) (length (encode_snapshot snap))) as [Hlt|Hge].
  - left. exists q. split_and!; [done|by apply (load_one_torn snap)|]. rewrite !length_app. lia.
  - right. rewrite (prefix_full q (encode_snapshot snap)) by done.
    rewrite encode_snapshots_app. unfold encode_snapshots at 3. simpl. by rewrite app_nil_r.
Qed.

(** What the crash has left in [d]: the manifest [ss] and the tables of [dir]. *)
Record tables_left (ss : list (list ManifestEntry)) (tail : bytes) (dir : gmap Z File) (d : Disk) : Prop := {
  tl_manifest : ∃ f, manifest_on d = Some f ∧ f_data f = encode_snapshots ss ++ tail;
  tl_snapshots : Forall snapshot_ok ss;
  tl_tail : @load_one good tail = None;
  tl_tables n f : dir !! n = Some f → synced f → ssts_on d !! n = Some f;
  tl_numbers n : is_Some (ssts_on d !! n) → n + 1 < 2 ^ 31;
}.

(** And the log [rs]. *)
Record log_read (rs : list WalRecord) (d : Disk) : Prop := {
  lr_wal : ∃ f tail, wal_on d = Some f ∧ f_data f = encode_records rs ++ tail ∧ @replay_one good tail = None;
  lr_records : Forall record_ok rs;
  lr_size : blen (encode_records rs) < 2 ^ 63;
}.

(** The version without the new file. *)
Lemma old_disk_state j ents mes db rs ss tail d :
  db_rep (H := good) ents mes db → durable (H := good) j ents mes db → log_read rs d →
  tables_left ss tail (db_dir db) d → default [] (last ss) = version_to_manifest (current_version_ db) →
  disk_state (H := good) ents (current_version_ db) rs d.
Proof.
  intros Hdb Hdu [] [(f & Em & Ef) Hss Ht Hdir Hnums] Hl.
  split; try apply Hdu; try apply Hdb; try done.
  - by exists f, ss, tail.
  - eapply Forall_impl; [apply (du_files _ _ _ _ Hdu)|]. simpl. intros fm (bloom & Hb & Hd).
    exists bloom. split; [done|]. by apply Hdir.
Qed.

(** The version with it; the log may still be there. *)
Lemma new_disk_state j ents mes db bloom rs ss d :
  db_rep (H := good) ents mes db → durable (H := good) j ents mes db → flushable mes → mes ≠ [] →
  filter_for mes bloom →
  let num := next_sst_number_ db in
  let ents' := λ i, if i =? num then mes else ents i in
  let ver := push_level0 (current_version_ db) (flushed_meta num mes bloom) in
  snapshot_ok (version_to_manifest ver) → log_read rs d →
  tables_left (ss ++ [version_to_manifest ver]) [] (<[num := table_file mes bloom]> (db_dir db)) d →
  disk_state (H := good) ents' ver rs d.
Proof.
  intros Hdb Hdu Hf Hne Hb num ents' ver Hsnap [] [(f & Em & Ef) Hss Ht Hdir Hnums].
  pose proof (flush_durable (H := good) j ents mes db bloom Hdb Hdu Hf Hne Hb Hsnap) as Hdu'.
  destruct (flushed_db_fields mes bloom db) as ((_ & _ & Ev & _) & _ & _ & _ & Ed).
  fold num in Ev, Ed. fold ver in Ev. fold num in Hdu'. fold ents' in Hdu'.
  pose proof (du_shape _ _ _ _ Hdu') as Hshape. pose proof (du_files _ _ _ _ Hdu') as Hfiles.
  rewrite Ev in Hshape, Hfiles. rewrite Ed in Hfiles. split; try done.
  - exists f, (ss ++ [version_to_manifest ver]), []. by rewrite last_snoc.
  - eapply Forall_impl; [exact Hfiles|]. simpl. intros fm (bl & Hbl & Hd). exists bl. split; [done|].
    by apply Hdir.
  - intros i. unfold ents'. case_match; [apply Hf|apply Hdb].
Qed.

Lemma new_layers ents mes db bloom :
  db_rep (H := good) ents mes db → sst_fits mes →
  let num := next_sst_number_ db in
  let ents' := λ i, if i =? num then mes else ents i in
  version_layers ents' (push_level0 (current_version_ db) (flushed_meta num mes bloom)) =
    mes :: version_layers ents (current_version_ db).
Proof.
  intros Hdb Hfit num ents'.
  destruct (rep_files _ _ _ Hdb ents (rep_agrees _ _ _ _ Hdb)) as [[Hlen _ _] _].
  rewrite push_level0_layers by done. cbn [fm_number flushed_meta]. f_equal.
  - unfold ents'. by rewrite Z.eqb_refl.
  - apply (version_layers_agrees num); [|apply Hdb]. split.
    + intros i. unfold ents'. case_match; [done|apply Hdb].
    + intros i Hi. unfold ents'. by rewrite (proj2 (Z.eqb_neq _ _)) by lia.
Qed.

(** What [open] needs to find the contents [mp] in [d]. *)
Definition recoverable (mp : gmap bytes bytes) (d : Disk) : Prop :=
  ∃ ents ver rs, disk_state (H := good) ents ver rs d ∧ recovers (version_layers ents ver) rs mp.

(** The new snapshot is in force: the new version, and the log or nothing. *)
Lemma recover_new j ents mes db bloom rs rs' ss d :
  db_rep (H := good) ents mes db → durable (H := good) j ents mes db → flushable mes → mes ≠ [] →
  filter_for mes bloom → mes = insert_records rs [] →
  let num := next_sst_number_ db in
  let ver := push_level0 (current_version_ db) (flushed_meta num mes bloom) in
  snapshot_ok (version_to_manifest ver) → log_read rs' d → rs' = rs ∨ rs' = [] →
  tables_left (ss ++ [version_to_manifest ver]) [] (<[num := table_file mes bloom]> (db_dir db)) d →
  recoverable (j_map j) d.
Proof.
  intros Hdb Hdu Hf Hne Hb Emes num ver Hsnap Hlog Hcase Htl.
  exists (λ i, if i =? num then mes else ents i), ver, rs'.
  split; [by apply (new_disk_state j ents mes db bloom rs' ss)|].
  assert (version_layers (λ i, if i =? num then mes else ents i) ver =
    mes :: version_layers ents (current_version_ db)) as -> by apply (new_layers ents mes db bloom Hdb (proj1 Hf)).
  pose proof (rep_layers _ _ _ Hdb) as Hlay. pose proof (rep_next _ _ _ Hdb).
  pose proof (durable_map (H := good) j ents mes db Hdu) as Hmap.
  exists (next_seq_ db). split; [lia|]. destruct Hcase as [-> | ->].
  - rewrite <- Emes. destruct (layers_repeat _ _ _ Hlay) as [? Hrep]. split; [done|].
    intros k. rewrite Hrep. apply Hmap.
  - split; [by apply layers_nil|exact Hmap].
Qed.

Lemma flush_snapshot_ok ents mes db bloom :
  db_rep (H := good) ents mes db → flushable mes → mes ≠ [] →
  approx_bytes (memtable_ db) ≠ 0 → next_sst_number_ db + 1 < 2 ^ 31 →
  manifest_fits (@flush good db).1 →
  snapshot_ok (version_to_manifest (push_level0 (current_version_ db)
    (flushed_meta (next_sst_number_ db) mes bloom))).
Proof.
  intros Hdb Hf Hne Happ Hnum Hfit.
  destruct (flush_spec (H := good) mes db) as (bloom' & _ & Ef);
    [apply Hdb|done|apply Hdb|apply Hf|done|done|].
  assert ((@flush good db).1 = flushed_db mes bloom' db) as E1 by (rewrite Ef; reflexivity).
  unfold manifest_fits in Hfit. rewrite E1, flushed_version in Hfit.
  by rewrite (push_level0_manifest _ _ (flushed_meta (next_sst_number_ db) mes bloom')).
Qed.

(** The log of a settled database reads the same whatever is left of it. *)
Lemma settled_log j ents mes db :
  durable (H := good) j ents mes db → j_settled j = true → mes ≠ [] → log_fits db →
  ∃ rs, mes = insert_records rs [] ∧ recovers (version_layers ents (current_version_ db)) rs (j_map j) ∧
    ∀ w d, wal_on d = Some (on_disk w) → crash_file (wal_file (wal_ db)) w → log_read rs d.
Proof.
  intros Hdu Hj Hne Hfits. destruct (du_wal _ _ _ _ Hdu) as (rs & Ew & Hok & Emes & Hlog & _ & Hold).
  exists rs. split_and!; [done|by apply log_recovers_all|]. intros w d Hd Hc.
  specialize (Hold Hj). apply (du_wal_synced _ _ _ _ Hdu) in Hj. rewrite Forall_forall in Hold.
  apply Forall_cons in Hfits as [Hfit Hfits]. rewrite Forall_forall in Hfits. cbn [fst] in Hfit.
  assert (∃ tail, w = encode_records rs ++ tail ∧ @replay_one good tail = None ∧ blen w < 2 ^ 63)
    as (tail & -> & Ht & Hsize).
  { destruct Hc as [[Hp Hl]|([b n] & Hin & Hp & Hl)%Exists_exists]; cbn [fst snd] in *.
    - apply prefix_full in Hp as ->; [|lia]. exists []. rewrite app_nil_r. split_and!; [done| |done].
      apply (replay_one_nil (H := good)).
    - destruct (Hold _ Hin) as (En & rs' & tail & Eb & Ht & _ & _ & [->| ->]); [by subst mes|].
      cbn [fst snd] in En, Eb. apply prefix_full in Hp as ->; [|lia]. exists tail.
      split_and!; [done|done|]. by apply (Hfits _ Hin). }
  split; [by eexists _, tail|done|]. rewrite blen_app in Hsize. pose proof (blen_nonneg tail). lia.
Qed.

(** What the disk holds after a flush that may have failed: the contents of
    the database before it. *)
Lemma flush_disk j ents mes db d :
  db_rep (H := good) ents mes db → durable (H := good) j ents mes db → j_settled j = true →
  flushable mes → mes ≠ [] → approx_bytes (memtable_ db) ≠ 0 → next_sst_number_ db + 1 < 2 ^ 31 →
  manifest_fits (@flush good db).1 → log_fits db →
  crash_disk (@flush sys db).1 d → recoverable (j_map j) d.
Proof.
  intros Hdb Hdu Hj Hf Hne Happ Hnum Hfit Hsize Hc.
  destruct (finish_image (H := good) mes (rep_mem_ok _ _ _ Hdb) (proj1 Hf))
    as (bloom & _ & Hwf & Hbits & Hin & Hfin).
  pose proof (flush_snapshot_ok ents mes db bloom Hdb Hf Hne Happ Hnum Hfit) as Hsnap.
  destruct (du_manifest _ _ _ _ Hdu) as (ss & Em & Hss & Hl).
  destruct (du_manifest_synced _ _ _ _ Hdu) as [Hms Hmo].
  destruct (settled_log j ents mes db Hdu Hj Hne Hsize) as (rs & Emes & Hrec & Hlog).
  pose proof (flush_files_ok mes bloom db (rep_mem _ _ _ Hdb) (rep_mem_ok _ _ _ Hdb) (proj1 Hf) Hfin
    ltac:(lia) Hmo) as Hff.
  destruct Hc as [(fw & Hw & w & -> & Hcw) (fm & Hm & m & -> & Hcm) Hct]. set (db' := (@flush sys db).1) in *.
  assert (db_dir db' = db_dir db ∨ db_dir db' = <[next_sst_number_ db := table_file mes bloom]> (db_dir db))
    as Hdir by (destruct Hff; auto).
  assert (∀ n, is_Some (ssts_on d !! n) → n + 1 < 2 ^ 31) as Hnums.
  { apply (crash_numbers _ _ (next_sst_number_ db + 1) Hct); [|done]. intros n.
    destruct Hdir as [-> | ->]; rewrite ?lookup_insert_is_Some'.
    - intros Hn%(du_dir _ _ _ _ Hdu). lia.
    - intros [<-|Hn%(du_dir _ _ _ _ Hdu)]; lia. }
  assert (∀ n f, db_dir db' !! n = Some f → synced f → ssts_on d !! n = Some f) as Hdisk
    by (intros n f; by apply (crash_table (db_dir db') (ssts_on d))).
  assert (∀ n f, db_dir db !! n = Some f → synced f → ssts_on d !! n = Some f) as Hold.
  { intros n f Hd. apply Hdisk. destruct Hdir as [-> | ->]; [done|].
    pose proof (du_dir _ _ _ _ Hdu n ltac:(by exists f)). by rewrite lookup_insert_ne by lia. }
  destruct Hff as [E1 E2 _|p snap E1 E2 E3 E4 E4' E5].
  - exists ents, (current_version_ db), rs. split; [|done]. rewrite E1 in Hcw. rewrite E2 in Hcm.
    apply crash_synced in Hcm as ->; [|done].
    apply (old_disk_state j ents mes db rs ss []); [done|done|by eapply Hlog| |done].
    split; [|done|apply (load_one_nil (H := good))|done|done].
    eexists. split; [exact Hm|]. cbn [f_data on_disk]. by rewrite app_nil_r.
  - destruct (crash_manifest_cases (manifest_ db) (manifest_ db') ss snap p m)
      as [(tail & -> & Ht & Hlt)| ->]; try done.
    + exists ents, (current_version_ db), rs. split; [|done]. destruct E5 as [E5|(_ & -> & Hsy)].
      * rewrite E5 in Hcw. apply (old_disk_state j ents mes db rs ss tail); [done|done|by eapply Hlog| |done].
        split; [|done|done|done|done]. by eexists.
      * apply crash_synced in Hcm; [|done]. rewrite Hcm, E2, Em in Hlt. lia.
    + assert (∃ rs', log_read rs' d ∧ (rs' = rs ∨ rs' = [])) as (rs' & Hread & Hcase).
      { destruct E5 as [E5|(E5 & _)]; rewrite E5 in Hcw; [exists rs; split; [by eapply Hlog|by left]|].
        destruct Hcw as [[Hp _]|Hx].
        - exists []. split; [|by right]. cbn [truncate f_data take app replicate Nat.sub] in Hp.
          apply prefix_nil_inv in Hp as ->. split; [|done|done]. eexists _, []. split; [exact Hw|].
          split; [done|apply (replay_one_nil (H := good))].
        - exists rs. split; [|by left]. apply (Hlog w d Hw). cbn [truncate f_older] in Hx.
          apply Exists_cons in Hx as [Hx|Hx]; [by left|by right]. }
      apply (recover_new j ents mes db bloom rs rs' ss); try done. split; try done.
      * eexists. split; [exact Hm|]. cbn [f_data on_disk]. by rewrite app_nil_r.
      * apply Forall_app. split; [done|]. by constructor.
      * apply (load_one_nil (H := good)).
      * by rewrite <- E1.
Qed.

Lemma flush_crash db sp d o coins :
  durably_refined (H := good) db sp → flush_ready db → manifest_fits (@flush good db).1 →
  log_fits db → 0 ≤ block_cache_bytes o < 2 ^ 63 → crash_disk (@flush sys db).1 d →
  ∃ db', @db_open good d o coins = Ok db' ∧ refined (H := good) db' (mkSpec (sp_map sp) []).
Proof.
  intros Href Hready Hfit Hsize Ho Hc.
  destruct (decide (approx_bytes (memtable_ db) = 0)) as [E|E].
  { assert ((@flush sys db).1 = db) as Eid.
    { unfold flush. erewrite dbm_bind_ok by reflexivity. by rewrite E. }
    rewrite Eid in Hc. destruct (recover_durably (H := good) db sp d o coins Href Hc Hsize Ho)
      as (db' & Eo & j & ents & mes & _ & Href' & _).
    exists db'. split; [done|]. by exists ents, mes. }
  destruct Href as (j & ents & mes & Hj & Href & Hdu). pose proof (rf_rep _ _ _ _ Href) as Hdb.
  destruct (Hready E) as [Hf Hn]. rewrite (mem_entries_represents _ mes) in Hf by apply Hdb.
  assert (mes ≠ []) as Hne by (intros Hnil; apply E; by apply Hdb).
  destruct (flush_disk j ents mes db d) as (ents' & ver & rs & Hd & Hr); try done.
  rewrite (refines_journal (H := good) j ents mes db sp Href Hdu). by eapply open_recovers.
Qed.

(** ** A crash in a write and the flush behind it *)

(** The section under [mu_] that returns is that of a good system. *)
Lemma commit_fail batch coins db :
  (∃ msg, ((rs ← take_numbers batch; @commit_records sys rs coins) db).2 = Throw msg) ∨
  ((rs ← take_numbers batch; @commit_records sys rs coins) db).2 = Undefined ∨
  ((rs ← take_numbers batch; @commit_records sys rs coins) db) =
    ((rs ← take_numbers batch; @commit_records good rs coins) db).
Proof.
  rewrite !dbm_bind_eq. unfold take_numbers. unfold commit_records, append_wal.
  rewrite !dbm_bind_eq. cbn [wal_null set_next_seq wal_].
  destruct (wal_null db); [by right; left|].
  set (rs := (assign_seqs (next_seq_ db) batch).1).
  pose proof (append_batch_fail sys Hsync (wal_ db) rs) as Hf.
  destruct (@append_batch sys (wal_ db) rs) as [w st]. cbn [fst snd] in *. destruct st; cbn [io_result].
  - rewrite <- Hf by done. cbn [fst snd io_result]. by right; right.
  - left. by eexists.
  - by right; left.
  - by right; left.
Qed.

Lemma write_crash db sp batch coins d o coins' :
  durably_refined (H := good) db sp → opt_sync (opts_ db) = EveryWrite →
  call_safe (H := good) db (CallWrite batch coins) → manifest_fits (@write_batch good batch coins db).1 →
  batch_fits db batch → 0 ≤ block_cache_bytes o < 2 ^ 63 →
  crash_disk (@write_batch sys batch coins db).1 d →
  ∃ n db', @db_open good d o coins' = Ok db' ∧
    refined (H := good) db' (mkSpec (fold_left spec_write (take n batch) (sp_map sp)) []).
Proof.
  intros Href Hmode (Hb & Hn & Hready) Hfit Hsize Ho Hc.
  assert (∀ P, @write_batch P batch coins db =
    (_ ← (rs ← take_numbers batch; @commit_records P rs coins); @maybe_flush P) db) as Ew.
  { intros P. unfold write_batch. rewrite !dbm_bind_eq.
    destruct (take_numbers batch db) as [db1 [rs| |]]; try done. }
  rewrite Ew, dbm_bind_eq in Hc.
  destruct (commit_fail batch coins db) as [[msg E]|[E|E]].
  - apply (commit_crash db sp batch coins d o coins' Href Hb Hn Hsize Ho).
    by destruct ((take_numbers batch ≫= λ rs, @commit_records sys rs coins) db) as [db1 r]; simpl in E; subst r.
  - apply (commit_crash db sp batch coins d o coins' Href Hb Hn Hsize Ho).
    by destruct ((take_numbers batch ≫= λ rs, @commit_records sys rs coins) db) as [db1 r]; simpl in E; subst r.
  - rewrite E in Hc. destruct Href as (j & ents & mes & Hj & Href & Hdu).
    destruct (commit_batch_spec (H := good) ents mes db batch coins) as (m' & Hm' & Hsame & Ec);
      [apply Href|done|done|].
    rewrite Ew, dbm_bind_eq, Ec in Hfit. rewrite Ec in Hc, Hready. cbn [fst] in Hready.
    pose proof (commit_refines (H := good) ents mes db sp batch m' (@append_batch good (wal_ db)
      (assign_seqs (next_seq_ db) batch).1).1 Href Hb Hn Hm' Hsame) as Href1.
    pose proof (commit_durable (H := good) j ents mes db batch m' (rf_rep _ _ _ _ Href) Hdu Hb Hn) as Hdu1.
    set (db1 := set_memtable m' _) in *. set (sp1 := mkSpec (fold_left spec_write batch (sp_map sp)) (sp_snaps sp)) in *.
    exists (length batch). rewrite firstn_all.
    assert (durably_refined (H := good) db1 sp1) as Hd1.
    { eexists _, ents, _. split_and!; [|exact Href1|exact Hdu1].
      apply (j_next_settled j batch); [by left|done|]. by rewrite <- (proj2 (du_mode _ _ _ _ Hdu)). }
    assert (log_fits db1) as Hfits1.
    { destruct Hsize as [Hfits Hroom]. unfold log_fits, db1. cbn [wal_ set_memtable set_wal].
      destruct (append_batch_ok (H := good) (wal_ db) (assign_seqs (next_seq_ db) batch).1) as (_ & -> & _).
      constructor; [done|]. apply Forall_cons in Hfits as [_ Hfits].
      destruct (@append_batch_prefix good (wal_ db) (assign_seqs (next_seq_ db) batch).1)
        as (_ & _ & _ & _ & _ & [->| ->]); [done|constructor]. }
    unfold maybe_flush in Hc, Hfit. rewrite !dbm_bind_eq in Hc, Hfit. unfold gets in Hc, Hfit.
    rewrite !dbm_bind_eq in Hc, Hfit.
    destruct (Z.leb_spec (flush_threshold_bytes (opts_ db1)) (approx_bytes (memtable_ db1))) as [Hle|_].
    + by apply (flush_crash db1 sp1); auto.
    + destruct (recover_durably (H := good) db1 sp1 d o coins' Hd1 Hc Hfits1 Ho)
        as (db' & Eo & j' & ents' & mes' & _ & Href' & _).
      exists db'. split; [done|]. by exists ents', mes'.
Qed.

End Crash.

(** * Properties *)

(** C6. A crash or an error anywhere in a group commit in [EveryWrite], the flush
    that may end it included. The contents before the batch were on the medium;
    whatever the system did with the bytes of the log, the table and the
    manifest, as long as the syncs it reports are real, opening what is left
    gives these contents together with a prefix of the batch: no request is
    applied in part, none is reordered, and nothing older is lost. *)
Theorem crash_in_write (sys : Posix) `{PosixOk} (db : DB) (sp : Spec) (batch : list WriteRequest)
    (coins : list (list bool)) (d : Disk) (o : Options) (coins' : list (list bool)) (Hsync : syncs sys)
    (Href : durably_refined db sp) (Hmode : opt_sync (opts_ db) = EveryWrite)
    (Hsafe : call_safe db (CallWrite batch coins)) (Hfit : manifest_fits (write_batch batch coins db).1)
    (Hsize : batch_fits db batch) (Ho : 0 ≤ block_cache_bytes o < 2 ^ 63)
    (Hcrash : crash_disk (@write_batch sys batch coins db).1 d) :
  ∃ n db', db_open d o coins' = Ok db' ∧
    refined db' (mkSpec (fold_left spec_write (take n batch) (sp_map sp)) []).
Proof. by apply (write_crash sys Hsync db sp batch coins). Qed.

(** C5. A crash or an error at any point of a flush loses nothing when the
    contents were on the medium before it and the syncs the system reports are
    real: while the table is written, between its installation and the manifest,
    in the middle of the manifest, before the log is emptied, or after, whether
    the truncation of the log reaches the medium or not. [open] succeeds on what
    is left and gives the contents before the flush. *)
Theorem crash_in_flush (sys : Posix) `{PosixOk} (db : DB) (sp : Spec) (d : Disk) (o : Options)
    (coins : list (list bool)) (Hsync : syncs sys)
    (Href : durably_refined db sp) (Hready : flush_ready db)
    (Hfit : manifest_fits (flush db).1) (Hsize : log_fits db)
    (Ho : 0 ≤ block_cache_bytes o < 2 ^ 63) (Hcrash : crash_disk (@flush sys db).1 d) :
  ∃ db', db_open d o coins = Ok db' ∧ refined db' (mkSpec (sp_map sp) []).
Proof. by apply (flush_crash sys Hsync db sp). Qed.

(** ** Witnesses *)

Definition ex_batch : list WriteRequest :=
  [put_request (bs "a") (bs "1"); del_request (bs "b"); put_request (bs "a") (bs "2")].

(** The disk fills up 5 bytes into the write that starts at [n]. *)
Lemma full_disk_syncs n : syncs (full_disk n).
Proof. done. Qed.

(** Every write is flushed. *)
Definition eager_options : Options := {|
  opt_sync := EveryWrite; flush_threshold_bytes := 1; compaction_trigger := 4;
  block_cache_bytes := 1000; target_file_size := 2000; l1_max_bytes := 8000;
  level_size_multiplier := 10;
|}.

(** The batch is in the log, and its flush finds the disk full in the middle of
    the table. *)
Definition ex_torn_write : DB :=
  (write_batch (H := full_disk 65) ex_batch [] (DB_new eager_options)).1.

Lemma ex_torn_write_eq : ex_torn_write = (@write_batch (full_disk 65) ex_batch [] (DB_new eager_options)).1.
Proof. reflexivity. Qed.

Lemma torn_new_durable o :
  0 ≤ block_cache_bytes o < 2 ^ 63 → durably_refined (H := ex_posix) (DB_new o) (mkSpec ∅ []).
Proof. apply DB_new_durably. Qed.

Lemma crash_in_write_witness :
  ∃ n db', db_open (H := ex_posix) (all_written ex_torn_write) torn_options [] = Ok db' ∧
    refined (H := ex_posix) db' (mkSpec (fold_left spec_write (take n ex_batch) ∅) []).
Proof.
  apply (crash_in_write (H := ex_posix) (full_disk 65) (DB_new eager_options) (mkSpec ∅ []) ex_batch []
    (all_written ex_torn_write) torn_options []).
  - apply full_disk_syncs.
  - apply torn_new_durable. simpl. lia.
  - reflexivity.
  - apply (bool_decide_unpack _). vm_compute. exact I.
  - apply (bool_decide_unpack _). vm_compute. exact I.
  - split; apply (bool_decide_unpack _); vm_compute; exact I.
  - simpl. lia.
  - rewrite <- ex_torn_write_eq. apply all_written_crash; [vm_compute; lia..|].
    apply (bool_decide_unpack _). vm_compute. exact I.
Defined.

Definition ex_write : call := CallWrite ex_batch [[true]; []; []].

(** The store with the batch in its memtable, and its flush on a disk that
    fills up in the middle of the manifest. *)
Definition ex_written : DB := (run_call (H := ex_posix) (H0 := first_pq) ex_write (DB_new torn_options)).1.
Definition ex_torn_flush : DB := (@flush (full_disk 0) ex_written).1.

Lemma ex_written_durable : ∃ sp, durably_refined (H := ex_posix) ex_written sp.
Proof.
  destruct (torn_new_durable torn_options ltac:(simpl; lia)) as (j & ents & mes & Hj & Href & Hdu).
  destruct (call_durably (H := ex_posix) (H1 := first_pq) j ents mes (DB_new torn_options) (mkSpec ∅ []) ex_write
    Href Hdu) as (db' & r & sp' & E & _ & j' & ents' & mes' & Hj' & Href' & Hdu' & _).
  - split; apply (bool_decide_unpack _); vm_compute; exact I.
  - exists sp'. unfold ex_written. rewrite E. exists j', ents', mes'. split; [|split; [exact Href'|exact Hdu']].
    apply (j_next_settled _ _ _ Hj' Hj). by rewrite <- (proj2 (du_mode _ _ _ _ Hdu)).
Qed.

Lemma crash_in_flush_witness :
  ∃ db' m, db_open (H := ex_posix) (all_written ex_torn_flush) torn_options [] = Ok db' ∧
    refined (H := ex_posix) db' (mkSpec m []).
Proof.
  destruct ex_written_durable as [sp Href].
  destruct (crash_in_flush (H := ex_posix) (full_disk 0) ex_written sp (all_written ex_torn_flush)
    torn_options []) as (db' & E & Hr).
  - apply full_disk_syncs.
  - exact Href.
  - apply (bool_decide_unpack _). vm_compute. exact I.
  - apply (bool_decide_unpack _). vm_compute. exact I.
  - apply (bool_decide_unpack _). vm_compute. exact I.
  - simpl. lia.
  - apply all_written_crash; [vm_compute; lia..|]. apply (bool_decide_unpack _). vm_compute. exact I.
  - exists db', (sp_map sp). split; [exact E|exact Hr].
Defined.
