(* ===== verification/GroupCommit.v ===== *)
(** Group commit: [DB::write] of src/src/db.cpp as a protocol of threads.

    The callers of [put] and [del] queue up; the one at the front becomes the
    leader, takes numbers for everybody who is in the queue, commits the batch
    under [mu_], flushes if need be, and releases the others.  Each writer is
    a state machine; its steps are the stretches of code between two points
    where other threads may run.  Readers, flushes and the compaction thread
    of Store.v run between any two steps.

    The contract is that every write takes effect at once, at a point between
    its call and its return, and in the order of the queue. *)

From stdpp Require Import gmultiset.
From S2P Require Import Prelude Coding Wal Entry Manifest Memtable BlockCache SSTableWriter SSTable MergeIterator Version Compaction Levels Db Recovery Background Worker Round Store.
Local Open Scope Z_scope.

(** * Definitions *)

(** ** Writers *)

(** Where a thread stands in [write]: waiting, with its [done] flag; leading,
    with the batch and its records; behind the commit; behind the flush;
    returned; ended by an exception. *)
Inductive Writer : Type :=
| Queued (finished : bool)
| Leading (batch : list nat) (recs : list WalRecord)
| Applied (batch : list nat)
| Flushed (batch : list nat)
| Left
| Failed.

(** The database with its compaction thread, the queue, and the requests and
    writers by the address of their [req], a variable of [write]: a call can get
    the address of one that has ended. *)
Record Group := mkGroup {
  g_sys : system;
  write_queue_ : list nat;
  g_reqs : gmap nat WriteRequest;
  g_writers : gmap nat Writer;
}.

(** The requests behind the pointers of a batch. *)
Definition requests (g : Group) (ids : list nat) : list WriteRequest :=
  omap (λ i, g_reqs g !! i) ids.

Definition set_writer (i : nat) (w : Writer) (g : Group) : Group :=
  mkGroup (g_sys g) (write_queue_ g) (g_reqs g) (<[i := w]> (g_writers g)).

Definition set_db (db : DB) (g : Group) : Group :=
  mkGroup (db, (g_sys g).2) (write_queue_ g) (g_reqs g) (g_writers g).

(** The call with this request has returned or thrown, or there was none. *)
Definition ended (w : option Writer) : bool :=
  match w with None | Some Left | Some Failed => true | _ => false end.

(** [write_queue_.push_back(&req)] *)
Definition enqueue (i : nat) (r : WriteRequest) (g : Group) : Group :=
  mkGroup (g_sys g) (write_queue_ g ++ [i]) (<[i := r]> (g_reqs g)) (<[i := Queued false]> (g_writers g)).

(** [r->done = true] for a batch. *)
Definition mark_done (batch : list nat) (ws : gmap nat Writer) : gmap nat Writer :=
  foldr (λ i ws, <[i := Queued true]> ws) ws batch.

(** The leader leaves the queue with its batch. *)
Definition finish_batch (i : nat) (batch : list nat) (g : Group) : Group :=
  mkGroup (g_sys g) (drop (length batch) (write_queue_ g)) (g_reqs g)
    (<[i := Left]> (mark_done batch (g_writers g))).

Definition new_group (db : DB) : Group := mkGroup (db, Waiting) [] ∅ ∅.

Section GroupOps.
Context `{Posix} `{PriorityQueue}.

(** A stretch of the leader that works on the database; an exception leaves
    [write] and the queue as they are. *)
Definition lead_on {A} (i : nat) (m : dbm A) (next : A → Writer) (g : Group) : Group * result bool :=
  match m (g_sys g).1 with
  | (db', Ok a) => (set_writer i (next a) (set_db db' g), Ok false)
  | (db', Throw msg) => (set_writer i Failed (set_db db' g), Throw msg)
  | (db', Undefined) => (set_db db' g, Undefined)
  end.

(** The next stretch of a writer; [true] when its call returns.  A writer that
    waits for its condition does not move. *)
Definition step_writer (i : nat) (coins : list (list bool)) (g : Group) : Group * result bool :=
  match g_writers g !! i with
  | Some (Queued true) => (set_writer i Left g, Ok true)
  | Some (Queued false) =>
      if bool_decide (head (write_queue_ g) = Some i)
      then let batch := write_queue_ g in
           lead_on i (take_numbers (requests g batch)) (Leading batch) g
      else (g, Ok false)
  | Some (Leading batch recs) => lead_on i (commit_records recs coins) (λ _, Applied batch) g
  | Some (Applied batch) => lead_on i maybe_flush (λ _, Flushed batch) g
  | Some (Flushed batch) => (finish_batch i batch g, Ok true)
  | _ => (g, Ok false)
  end.

(** ** Interleavings *)

Inductive gaction : Type :=
| Enqueue (i : nat) (r : WriteRequest)
| Step (i : nat) (coins : list (list bool))
| Other (a : action).

Inductive reply : Type :=
| Quiet
| Return (i : nat)
| Outcome (o : outcome).

(** The request of a new call is not that of a call under way. *)
Definition run_gaction (a : gaction) (g : Group) : Group * result reply :=
  match a with
  | Enqueue i r =>
      (if ended (g_writers g !! i) then enqueue i r g else g, Ok Quiet)
  | Step i coins =>
      let r := step_writer i coins g in (r.1, (b ← r.2; Ok (if (b : bool) then Return i else Quiet)))
  | Other a =>
      let r := run_action a (g_sys g) in
      (mkGroup r.1 (write_queue_ g) (g_reqs g) (g_writers g), (o ← r.2; Ok (Outcome o)))
  end.

Fixpoint run_group (acts : list gaction) (g : Group) : Group * result (list reply) :=
  match acts with
  | [] => (g, Ok [])
  | a :: acts' =>
      match run_gaction a g with
      | (g', Ok o) => let r := run_group acts' g' in (r.1, (os ← r.2; Ok (o :: os)))
      | (g', Throw msg) => (g', Throw msg)
      | (g', Undefined) => (g', Undefined)
      end
  end.

(** A step of writer [i] would do something. *)
Definition can_step (g : Group) (i : nat) : bool :=
  match g_writers g !! i with
  | Some (Queued false) => bool_decide (head (write_queue_ g) = Some i)
  | Some Left | Some Failed | None => false
  | _ => true
  end.

(** ** The conditions of use *)

Definition leading (w : Writer) : bool := match w with Leading _ _ => true | _ => false end.

(** Nobody has taken numbers without having committed. *)
Definition numbers_settled (g : Group) : Prop :=
  map_Forall (λ _ w, leading w = false) (g_writers g).

Definition gaction_safe (a : gaction) (g : Group) : Prop :=
  match a with
  | Enqueue i r => ended (g_writers g !! i) = true ∧ request_ok r
  | Step i coins =>
      let db := (g_sys g).1 in
      match g_writers g !! i with
      | Some (Queued false) =>
          next_seq_ db + Z.of_nat (length (write_queue_ g)) < 2 ^ 64
      | Some (Applied _) =>
          flush_threshold_bytes (opts_ db) ≤ approx_bytes (memtable_ db) → flush_ready db
      | _ => True
      end
  | Other (Client (CallWrite _ _)) => False
  | Other (Client CallSnapshot) => numbers_settled g
  | Other a => action_safe a (g_sys g)
  end.

Fixpoint group_safe (acts : list gaction) (g : Group) : Prop :=
  match acts with
  | [] => True
  | a :: acts' => gaction_safe a g ∧ group_safe acts' (run_gaction a g).1
  end.

End GroupOps.

(** ** The contract *)

(** The contents, the writes that have not taken effect, in order, and those
    that have but whose calls have not returned. *)
Record GSpec := mkGSpec {
  gs_spec : Spec;
  gs_waiting : list (nat * WriteRequest);
  gs_applied : gset nat;
}.

Definition spec_batch (b : list (nat * WriteRequest)) (sp : Spec) : Spec :=
  mkSpec (fold_left spec_write b.*2 (sp_map sp)) (sp_snaps sp).

Inductive gspec_step (gs : GSpec) : gaction → reply → GSpec → Prop :=
| gspec_call i r :
    gspec_step gs (Enqueue i r) Quiet
      (mkGSpec (gs_spec gs) (gs_waiting gs ++ [(i, r)]) (gs_applied gs))
| gspec_silent i coins : gspec_step gs (Step i coins) Quiet gs
| gspec_apply i coins b rest :
    gs_waiting gs = b ++ rest →
    gspec_step gs (Step i coins) Quiet
      (mkGSpec (spec_batch b (gs_spec gs)) rest (gs_applied gs ∪ list_to_set b.*1))
| gspec_return i coins :
    i ∈ gs_applied gs →
    gspec_step gs (Step i coins) (Return i)
      (mkGSpec (gs_spec gs) (gs_waiting gs) (gs_applied gs ∖ {[i]}))
| gspec_other a o sp' :
    spec_action (gs_spec gs) a o sp' →
    gspec_step gs (Other a) (Outcome o) (mkGSpec sp' (gs_waiting gs) (gs_applied gs)).

Inductive gspec_run : GSpec → list gaction → list reply → GSpec → Prop :=
| gspec_run_nil gs : gspec_run gs [] [] gs
| gspec_run_cons gs a o gs' acts os gs'' :
    gspec_step gs a o gs' → gspec_run gs' acts os gs'' → gspec_run gs (a :: acts) (o :: os) gs''.

(** ** The invariant *)

(** The state of the writer at the front of the queue. *)
Definition front (g : Group) : option Writer := i ← head (write_queue_ g); g_writers g !! i.

(** How many of the queue have taken effect. *)
Definition taken (g : Group) : nat :=
  match front g with Some (Applied b) | Some (Flushed b) => length b | _ => 0 end.

(** Only the front of the queue leads, with a batch from the front. *)
Record queue_ok (g : Group) : Prop := {
  qo_nodup : NoDup (write_queue_ g);
  qo_front i : head (write_queue_ g) = Some i →
    match g_writers g !! i with
    | Some (Queued false) => True
    | Some (Leading b _) | Some (Applied b) | Some (Flushed b) => b ≠ [] ∧ b `prefix_of` write_queue_ g
    | _ => False
    end;
  qo_rest i : i ∈ tail (write_queue_ g) → g_writers g !! i = Some (Queued false);
  qo_out i w : g_writers g !! i = Some w → i ∉ write_queue_ g → w = Queued true ∨ w = Left;
  qo_reqs i : i ∈ write_queue_ g → ∃ r, g_reqs g !! i = Some r ∧ request_ok r;
}.

Definition item (g : Group) (i : nat) : option (nat * WriteRequest) := pair i <$> g_reqs g !! i.

(** The numbers of a leader are those that follow everything in the database. *)
Definition store_ok `{Posix} `{PriorityQueue} (g : Group) (sp : Spec) : Prop :=
  match front g with
  | Some (Leading b recs) => ∃ base,
      let batch := requests g b in
      recs = (assign_seqs base batch).1 ∧
      next_seq_ (g_sys g).1 = base + Z.of_nat (length batch) ∧
      base + Z.of_nat (length batch) < 2 ^ 64 ∧
      store_refined (set_next_seq base (g_sys g).1, (g_sys g).2) sp
  | _ => store_refined (g_sys g) sp
  end.

Record group_ok `{Posix} `{PriorityQueue} (g : Group) (gs : GSpec) : Prop := {
  go_queue : queue_ok g;
  go_waiting : gs_waiting gs = omap (item g) (drop (taken g) (write_queue_ g));
  go_applied i : i ∈ gs_applied gs ↔
    i ∈ take (taken g) (write_queue_ g) ∨ g_writers g !! i = Some (Queued true);
  go_store : store_ok g (gs_spec gs);
}.

(** * Lemmas *)

(** ** Operations that do not see the counter of the numbers *)

Definition blind {A} (m : dbm A) : Prop :=
  ∀ n db, m (set_next_seq n db) = (set_next_seq n (m db).1, (m db).2).

Lemma blind_ret {A} (x : A) : blind (mret x).
Proof. done. Qed.

Lemma blind_liftr {A} (r : result A) : blind (liftr r).
Proof. done. Qed.

Lemma blind_with_cache {A} (m : cached A) : blind (with_cache m).
Proof. done. Qed.

Lemma blind_bind {A B} (m : dbm A) (f : A → dbm B) :
  blind m → (∀ x, blind (f x)) → blind (x ← m; f x).
Proof.
  intros Hm Hf n db. unfold mbind, dbm_bind. rewrite Hm.
  destruct (m db) as [db' [x| |]]; cbn [fst snd]; [apply Hf|done|done].
Qed.

Lemma blind_gets {A} (f : DB → A) : (∀ n db, f (set_next_seq n db) = f db) → blind (gets f).
Proof. intros Hf n db. unfold gets. cbn [fst snd]. by rewrite Hf. Qed.

Lemma blind_modify (f : DB → DB) :
  (∀ n db, f (set_next_seq n db) = set_next_seq n (f db)) → blind (modify f).
Proof. intros Hf n db. unfold modify. cbn [fst snd]. by rewrite Hf. Qed.

Lemma blind_alloc : blind alloc_sst_number.
Proof. intros n db. unfold alloc_sst_number. cbn. by case_match. Qed.

Lemma blind_append_manifest `{Posix} entries : blind (append_manifest entries).
Proof. done. Qed.

Lemma blind_reset_wal `{Posix} : blind reset_wal.
Proof. intros n db. unfold reset_wal. cbn. by case_match. Qed.

Lemma blind_trigger : blind trigger_compaction.
Proof. apply blind_modify. intros n db. cbn. by case_match. Qed.

Lemma blind_release s : blind (release_snapshot s).
Proof. intros n db. unfold release_snapshot. cbn. by case_match. Qed.

Create HintDb blind.
#[export] Hint Resolve blind_ret blind_liftr blind_with_cache blind_alloc blind_append_manifest
  blind_reset_wal blind_trigger blind_release : blind.

Ltac blinded :=
  repeat first
    [ solve [auto with blind]
    | apply blind_gets; done | apply blind_modify; done
    | apply blind_bind; [|intros ?]
    | case_match | progress cbn zeta ].

Lemma blind_flush `{Posix} : blind flush.
Proof. unfold flush, write_level0. blinded. Qed.

Lemma blind_finish_writer `{Posix} level x : blind (finish_writer level x).
Proof. unfold finish_writer. blinded. Qed.
#[export] Hint Resolve blind_flush blind_finish_writer : blind.

Lemma blind_compact_step `{Posix} oldest job x e : blind (compact_step oldest job x e).
Proof. unfold compact_step, write_kept, start_writer. blinded. Qed.
#[export] Hint Resolve blind_compact_step : blind.

Lemma blind_worker_step `{Posix} `{PriorityQueue} w : blind (worker_step w).
Proof.
  destruct w; cbn [worker_step]; unfold pick_job, open_merge, merge_round, commit_job, install_version;
    blinded.
Qed.

Lemma blind_call `{Posix} `{PriorityQueue} c :
  match c with CallWrite _ _ | CallSnapshot => False | _ => True end → blind (run_call c).
Proof.
  intros Hc. destruct c; [done|..|done|]; unfold run_call, get, get_impl, scan, scan_impl; blinded.
Qed.

(** While numbers are taken and not committed, the rest of the system works as
    if they had not been taken. *)
Lemma blind_action `{Posix} `{PriorityQueue} a n db w :
  match a with Client (CallWrite _ _) | Client CallSnapshot => False | _ => True end →
  run_action a (set_next_seq n db, w) =
    let r := run_action a (db, w) in ((set_next_seq n r.1.1, r.1.2), r.2).
Proof.
  intros Ha. destruct a as [c| | |]; cbn [run_action fst snd].
  - rewrite (blind_call c Ha n db). done.
  - change (worker_ready (set_next_seq n db) w) with (worker_ready db w). case_match; [|done].
    rewrite (blind_worker_step w n db). by destruct (worker_step w db) as [db' [w'| |]].
  - done.
  - assert (blind compact_poll) as Hb by (unfold compact_poll; blinded). by rewrite Hb.
Qed.

(** ** The queue *)

Lemma requests_items g ids : (omap (item g) ids).*2 = requests g ids.
Proof.
  unfold requests, item. induction ids as [|i ids IH]; [done|]. simpl.
  destruct (g_reqs g !! i); simpl; [f_equal|]; apply IH.
Qed.

Lemma items_ids g ids : (∀ i, i ∈ ids → is_Some (g_reqs g !! i)) → (omap (item g) ids).*1 = ids.
Proof.
  unfold item. induction ids as [|i ids IH]; intros Hr; [done|]. simpl.
  destruct (Hr i ltac:(by left)) as [r ->]. simpl. f_equal. apply IH. intros j Hj. apply Hr. by right.
Qed.

Lemma requests_length g ids : (∀ i, i ∈ ids → is_Some (g_reqs g !! i)) → length (requests g ids) = length ids.
Proof. intros Hr. rewrite <- requests_items, length_fmap. rewrite <- (items_ids g ids Hr) at 2. by rewrite length_fmap. Qed.

Lemma omap_ext_elem {A B} (f f' : A → option B) (l : list A) :
  (∀ x, x ∈ l → f x = f' x) → omap f l = omap f' l.
Proof.
  induction l as [|x l IH]; intros Hf; [done|]. simpl. rewrite Hf by (by left).
  assert (omap f l = omap f' l) as E by (apply IH; intros y Hy; apply Hf; by right).
  destruct (f' x); [f_equal|]; exact E.
Qed.

Lemma mark_done_in batch ws i : i ∈ batch → mark_done batch ws !! i = Some (Queued true).
Proof.
  induction batch as [|j batch IH]; [intros Hi; by apply elem_of_nil in Hi|]. intros Hi. simpl.
  destruct (decide (i = j)) as [->|Hne]; [apply lookup_insert_eq|]. rewrite lookup_insert_ne by done.
  apply IH. by apply elem_of_cons in Hi as [?|?].
Qed.

Lemma mark_done_out batch ws i : i ∉ batch → mark_done batch ws !! i = ws !! i.
Proof.
  induction batch as [|j batch IH]; [done|]. intros [Hne Hi]%not_elem_of_cons. simpl.
  rewrite lookup_insert_ne by done. auto.
Qed.

Lemma head_tail_elem {A} (l : list A) x : x ∈ l → head l = Some x ∨ x ∈ tail l.
Proof. destruct l as [|y l]; [intros Hx; by apply elem_of_nil in Hx|]. intros [->|?]%elem_of_cons; [by left|by right]. Qed.

Lemma tail_elem {A} (l : list A) x : x ∈ tail l → x ∈ l.
Proof. destruct l; [done|]. intros ?. by right. Qed.

Lemma drop_elem {A} (l : list A) n x : x ∈ drop n l → x ∈ l.
Proof. intros Hx. rewrite <- (take_drop n l). apply elem_of_app. by right. Qed.

Section QueueLemmas.
Context (g : Group) (Hq : queue_ok g).

(** A writer in the queue is waiting, or it is in front and leads. *)
Lemma queue_writer i : i ∈ write_queue_ g → is_Some (g_writers g !! i).
Proof using Hq.
  intros [Hh|Ht]%head_tail_elem; [|by rewrite (qo_rest g Hq i Ht)].
  pose proof (qo_front g Hq i Hh) as Hf. by destruct (g_writers g !! i).
Qed.

Lemma ended_out i : ended (g_writers g !! i) = true → i ∉ write_queue_ g.
Proof using Hq.
  intros He [Hh|Ht]%head_tail_elem; [|by rewrite (qo_rest g Hq i Ht) in He].
  pose proof (qo_front g Hq i Hh) as Hf. by destruct (g_writers g !! i) as [[]|].
Qed.

Lemma leader_front i w :
  g_writers g !! i = Some w → match w with Leading _ _ | Applied _ | Flushed _ => True | _ => False end →
  head (write_queue_ g) = Some i ∧ front g = Some w.
Proof using Hq.
  intros Hw Hl. destruct (decide (i ∈ write_queue_ g)) as [Hin|Hout].
  - apply head_tail_elem in Hin as [Hh|Ht].
    + split; [done|]. unfold front. by rewrite Hh.
    + rewrite (qo_rest g Hq i Ht) in Hw. by injection Hw as <-.
  - by destruct (qo_out g Hq i w Hw Hout) as [->| ->].
Qed.

Lemma front_prefix w :
  front g = Some w →
  match w with
  | Leading b _ | Applied b | Flushed b => b ≠ [] ∧ b `prefix_of` write_queue_ g
  | _ => True
  end.
Proof using Hq.
  unfold front. destruct (head (write_queue_ g)) as [i|] eqn:E; [|done]. cbn. intros Hw.
  pose proof (qo_front g Hq i E) as Hf. rewrite Hw in Hf. by destruct w.
Qed.

Lemma taken_le : (taken g ≤ length (write_queue_ g))%nat.
Proof using Hq.
  unfold taken, front. destruct (head (write_queue_ g)) as [i|] eqn:E; simpl; [|lia].
  pose proof (qo_front g Hq i E) as Hf. destruct (g_writers g !! i) as [[]|]; try lia;
    destruct Hf as [_ Hf%prefix_length]; done.
Qed.

Lemma queue_reqs i : i ∈ write_queue_ g → is_Some (g_reqs g !! i).
Proof using Hq. intros Hi. destruct (qo_reqs g Hq i Hi) as (r & -> & _). by exists r. Qed.

Lemma batch_requests_ok b : b `prefix_of` write_queue_ g → Forall request_ok (requests g b).
Proof using Hq.
  intros Hp. apply Forall_forall. intros r (i & Hi & Hr)%list_elem_of_omap.
  destruct (qo_reqs g Hq i) as (r' & E & Hok); [by eapply elem_of_prefix|]. congruence.
Qed.

End QueueLemmas.

(** The writer in front changes its state. *)
Lemma front_changes g i w' sys :
  queue_ok g → head (write_queue_ g) = Some i →
  match w' with
  | Leading b _ | Applied b | Flushed b => b ≠ [] ∧ b `prefix_of` write_queue_ g
  | _ => False
  end →
  let g' := mkGroup sys (write_queue_ g) (g_reqs g) (<[i := w']> (g_writers g)) in
  queue_ok g' ∧ front g' = Some w' ∧
  ∀ j, g_writers g' !! j = Some (Queued true) ↔ g_writers g !! j = Some (Queued true).
Proof.
  intros [Q1 Q2 Q3 Q4 Q5] Hh Hw' g'. pose proof (Q2 i Hh) as Hi. split_and!; [split|..]; unfold g'; cbn.
  - done.
  - intros j Hj. assert (j = i) as -> by congruence. rewrite lookup_insert_eq. by destruct w'.
  - intros j Hj. rewrite lookup_insert_ne; [auto|]. intros <-. revert Q1 Hh Hj.
    destruct (write_queue_ g) as [|x q]; [done|]. simpl. intros [Hx _]%NoDup_cons [= ->]. done.
  - intros j w Hw Hj. rewrite lookup_insert_ne in Hw; [by eapply Q4|]. intros <-. by apply Hj, head_Some_elem_of.
  - done.
  - unfold front. cbn. rewrite Hh. cbn. by rewrite lookup_insert_eq.
  - intros j. destruct (decide (i = j)) as [<-|]; [|by rewrite lookup_insert_ne].
    rewrite lookup_insert_eq. split; [intros [= ->]; done|]. intros E. by rewrite E in Hi.
Qed.

Section StepLemmas.
#[local] Set Default Proof Using "All".
Context `{PosixOk} `{PriorityQueueOk}.

Lemma enqueue_ok g gs i r :
  group_ok g gs → ended (g_writers g !! i) = true → request_ok r →
  group_ok (enqueue i r g) (mkGSpec (gs_spec gs) (gs_waiting gs ++ [(i, r)]) (gs_applied gs)).
Proof.
  intros [Hq Hw Ha Hs] Hnew Hr. pose proof Hq as [Q1 Q2 Q3 Q4 Q5].
  assert (i ∉ write_queue_ g) as Hout.
  { by apply ended_out. }
  assert (∀ j, j ∈ write_queue_ g → g_reqs (enqueue i r g) !! j = g_reqs g !! j ∧
    g_writers (enqueue i r g) !! j = g_writers g !! j) as Hold.
  { intros j Hj. unfold enqueue. cbn. rewrite !lookup_insert_ne by (by intros <-). done. }
  assert (front (enqueue i r g) = if decide (write_queue_ g = []) then Some (Queued false) else front g) as Hf.
  { unfold front, enqueue. cbn. destruct (write_queue_ g) as [|j q] eqn:Eq; cbn.
    - by rewrite lookup_insert_eq.
    - rewrite lookup_insert_ne; [done|]. intros ->. apply Hout. by left. }
  assert (taken (enqueue i r g) = taken g) as Ht.
  { unfold taken. rewrite Hf. case_decide as E; [|done]. unfold front. by rewrite E. }
  assert (∀ ids : list nat, (∀ j, j ∈ ids → j ∈ write_queue_ g) → omap (item (enqueue i r g)) ids = omap (item g) ids) as Hitems.
  { intros ids Hids. apply omap_ext_elem. intros j Hj. unfold item. by destruct (Hold j (Hids j Hj)) as [-> _]. }
  pose proof (taken_le g Hq) as Hle. split.
  - split; cbn.
    + apply NoDup_app. split_and!; [done| |apply NoDup_singleton]. by intros j Hj ->%list_elem_of_singleton.
    + intros j Hj. destruct (write_queue_ g) as [|x q] eqn:Eq; cbn in Hj.
      * injection Hj as <-. by rewrite lookup_insert_eq.
      * injection Hj as <-. rewrite lookup_insert_ne by (intros ->; apply Hout; by left).
        specialize (Q2 x eq_refl). destruct (g_writers g !! x) as [[[]| | | | |]|]; try done;
          (destruct Q2 as [? Hp]; split; [done|]; by apply prefix_app_r).
    + intros j Hj. destruct (write_queue_ g) as [|x q] eqn:Eq; [by apply elem_of_nil in Hj|]. cbn in Hj.
      apply elem_of_app in Hj as [Hj| ->%list_elem_of_singleton]; [|by rewrite lookup_insert_eq].
      rewrite lookup_insert_ne; [by apply Q3|]. intros <-. apply Hout. by right.
    + intros j w Hj [Hj1 Hj2%not_elem_of_cons]%not_elem_of_app. destruct Hj2 as [Hne _].
      rewrite lookup_insert_ne in Hj by done. by eapply Q4.
    + intros j [Hj| ->%list_elem_of_singleton]%elem_of_app; [|rewrite lookup_insert_eq; by exists r].
      rewrite lookup_insert_ne by (by intros <-). auto.
  - cbn [gs_waiting]. rewrite Ht. cbn [write_queue_ enqueue]. rewrite drop_app_le by done.
    rewrite omap_app, Hitems by (intros j Hj; by eapply drop_elem).
    rewrite Hw. f_equal. unfold item, enqueue. cbn. by rewrite lookup_insert_eq.
  - intros j. cbn [gs_applied]. rewrite Ht, Ha. cbn [write_queue_ enqueue g_writers].
    rewrite take_app_le by done. destruct (decide (i = j)) as [<-|]; [|by rewrite lookup_insert_ne].
    rewrite lookup_insert_eq. split; [|intros [Hi|?]; [by left|done]].
    intros [Hi|Hi]; [by left|]. by rewrite Hi in Hnew.
  - cbn [gs_spec]. unfold store_ok in *. rewrite Hf. case_decide as E; [unfold front in Hs; by rewrite E in Hs|].
    change (g_sys (enqueue i r g)) with (g_sys g).
    destruct (front g) as [[| b recs| | | |]|] eqn:Ef; try done.
    assert (requests (enqueue i r g) b = requests g b) as ->; [|done].
    apply omap_ext_elem. intros j Hj. apply Hold.
    by eapply elem_of_prefix; [|apply (front_prefix g Hq _ Ef)].
Qed.

Lemma seq_eta db : set_next_seq (next_seq_ db) db = db.
Proof using Type. by destruct db. Qed.

Lemma waiting_head g gs i :
  group_ok g gs → g_writers g !! i = Some (Queued false) → head (write_queue_ g) = Some i →
  taken g = 0%nat ∧ store_refined (g_sys g) (gs_spec gs).
Proof.
  intros [_ _ _ Hs] Hw Hh. assert (front g = Some (Queued false)) as Ef by (unfold front; rewrite Hh; done).
  unfold taken, store_ok in *. by rewrite Ef in *.
Qed.

(** The front of the queue takes the lead. *)
Lemma lead_ok g gs i coins :
  group_ok g gs → g_writers g !! i = Some (Queued false) → head (write_queue_ g) = Some i →
  next_seq_ (g_sys g).1 + Z.of_nat (length (write_queue_ g)) < 2 ^ 64 →
  ∃ g', step_writer i coins g = (g', Ok false) ∧ group_ok g' gs.
Proof.
  intros Hg Hw Hh Hn. destruct (waiting_head g gs i Hg Hw Hh) as [Et Hs].
  pose proof (go_queue _ _ Hg) as Hq. set (q := write_queue_ g) in *.
  unfold step_writer. rewrite Hw, bool_decide_eq_true_2 by done. fold q.
  unfold lead_on, take_numbers. cbn [fst snd].
  set (batch := requests g q). set (rs := assign_seqs (next_seq_ (g_sys g).1) batch).
  eexists. split; [reflexivity|].
  assert (length batch = length q) as El by (apply requests_length; intros j Hj; by apply (queue_reqs g Hq)).
  destruct (front_changes g i (Leading q rs.1) (set_next_seq rs.2 (g_sys g).1, (g_sys g).2) Hq Hh)
    as (Hq' & Hf' & Hd); [split; [|done]; intros E; unfold q in *; by rewrite E in Hh|].
  set (g' := mkGroup _ _ _ _) in *.
  change (set_writer i (Leading q rs.1) (set_db (set_next_seq rs.2 (g_sys g).1) g)) with g'.
  assert (taken g' = 0%nat) as Et' by (unfold taken; by rewrite Hf').
  destruct Hg as [_ Hwt Ha _]. split; [done| | |].
  - rewrite Et'. rewrite Et in Hwt. done.
  - intros j. rewrite Et', Hd, Ha, Et. done.
  - unfold store_ok. rewrite Hf'. exists (next_seq_ (g_sys g).1). change (requests g' q) with batch.
    rewrite El. split_and!; [done| |done|].
    + destruct Hs as (ents & mes & Href & _). pose proof (rep_next _ _ _ (rf_rep _ _ _ _ Href)) as Hnx.
      cbn. unfold rs. rewrite assign_seqs_next by lia. lia.
    + cbn. destruct (g_sys g) as [db w]. cbn in *. change (set_next_seq (next_seq_ db) (set_next_seq rs.2 db))
        with (set_next_seq (next_seq_ db) db). by rewrite seq_eta.
Qed.

Lemma commit_evolves ents mes db m w n :
  db_rep ents mes db → next_seq_ db ≤ n →
  evolves ents db ents (set_memtable m (set_wal w false (set_next_seq n db))).
Proof.
  intros Hdb Hn. destruct (evolves_refl ents mes db Hdb) as [[E1 E2 E3 E4 E5 E6] E7].
  split; [split; try done; intros s Hs; by left|done].
Qed.

(** The batch is committed: this is where its writes take effect. *)
Lemma commit_ok g gs i coins b recs :
  group_ok g gs → g_writers g !! i = Some (Leading b recs) →
  ∃ g' gs', step_writer i coins g = (g', Ok false) ∧ gspec_step gs (Step i coins) Quiet gs' ∧ group_ok g' gs'.
Proof.
  intros [Hq Hwt Ha Hs] Hw. destruct (leader_front g Hq i _ Hw I) as [Hh Hf].
  destruct (front_prefix g Hq _ Hf) as [Hne [rest Hp]]. unfold store_ok in Hs. rewrite Hf in Hs.
  destruct Hs as (base & Erecs & En & Hlt & ents & mes & Href & Hwk). cbn [fst snd] in *.
  set (batch := requests g b) in *. set (db := (g_sys g).1) in *. set (db0 := set_next_seq base db) in *.
  assert (Forall request_ok batch) as Hb by (apply (batch_requests_ok g Hq); by exists rest).
  destruct (commit_batch_spec ents mes db0 batch coins) as (m' & Hm' & Hsame & E); [apply Href|done|done|].
  pose proof (commit_refines ents mes db0 (gs_spec gs) batch m' (append_batch (wal_ db0)
    (assign_seqs (next_seq_ db0) batch).1).1 Href Hb Hlt Hm' Hsame) as Href'.
  erewrite dbm_bind_ok in E by reflexivity. cbn [next_seq_ set_next_seq db0] in E. rewrite <- Erecs in E.
  pose proof (rep_next _ _ _ (rf_rep _ _ _ _ Href)) as Hnx. cbn [next_seq_ set_next_seq db0] in Hnx.
  rewrite assign_seqs_next in E by lia.
  assert (set_next_seq (base + Z.of_nat (length batch)) db0 = db) as Eeta.
  { rewrite <- En. change (set_next_seq (next_seq_ db) db = db). apply seq_eta. }
  change (next_seq_ db0) with base in Href', Hm'. rewrite <- Erecs in Href', Hm'.
  pose proof (commit_evolves ents mes db0 m' (append_batch (wal_ db0) recs).1
    (base + Z.of_nat (length batch)) (rf_rep _ _ _ _ Href)) as Hev. cbn [next_seq_ set_next_seq db0] in Hev.
  rewrite Eeta in E, Href', Hev.
  unfold step_writer. rewrite Hw. unfold lead_on. fold db. rewrite E.
  match type of E with _ = (?d, _) => set (db' := d) in * end.
  destruct (front_changes g i (Applied b) (db', (g_sys g).2) Hq Hh) as (Hq' & Hf' & Hd);
    [split; [done|by exists rest]|]. set (g' := mkGroup _ _ _ _) in *.
  assert (taken g = 0%nat) as Et by (unfold taken; by rewrite Hf).
  assert (taken g' = length b) as Et' by (unfold taken; by rewrite Hf').
  rewrite Et, drop_0 in Hwt. rewrite Et in Ha.
  eexists g', _. split_and!; [reflexivity|apply (gspec_apply _ _ _ (omap (item g) b) (omap (item g) rest))|].
  { rewrite Hwt, Hp. apply omap_app. }
  assert (∀ j, j ∈ b → is_Some (g_reqs g !! j)) as Hreq.
  { intros j Hj. apply (queue_reqs g Hq). rewrite Hp. apply elem_of_app. by left. }
  split; cbn [gs_waiting gs_applied gs_spec].
  - done.
  - rewrite Et'. cbn [write_queue_ g']. rewrite Hp, drop_app_length. done.
  - intros j. rewrite Et', Hd. cbn [write_queue_ g']. rewrite Hp, take_app_length.
    rewrite items_ids by done. rewrite elem_of_union, elem_of_list_to_set, Ha. cbn. set_solver.
  - unfold store_ok. rewrite Hf'. unfold spec_batch. rewrite requests_items. fold batch.
    exists ents, (insert_records recs mes). split; [exact Href'|].
    apply (worker_evolves ents mes db0 (gs_spec gs) ents (insert_records recs mes) db'
      (mkSpec (fold_left spec_write batch (sp_map (gs_spec gs))) (sp_snaps (gs_spec gs)))); try done.
    apply Hev. lia.
Qed.

Lemma flush_ok g gs i coins b :
  group_ok g gs → g_writers g !! i = Some (Applied b) →
  (let db := (g_sys g).1 in
   flush_threshold_bytes (opts_ db) ≤ approx_bytes (memtable_ db) → flush_ready db) →
  ∃ g', step_writer i coins g = (g', Ok false) ∧ group_ok g' gs.
Proof.
  intros [Hq Hwt Ha Hs] Hw Hready. destruct (leader_front g Hq i _ Hw I) as [Hh Hf].
  pose proof (front_prefix g Hq _ Hf) as Hb. unfold store_ok in Hs. rewrite Hf in Hs.
  destruct Hs as (ents & mes & Href & Hwk).
  destruct (maybe_flush_evolves ents mes (g_sys g).1 _ Href Hready) as (db' & ents' & mes' & E & Href' & Hev).
  unfold step_writer. rewrite Hw. unfold lead_on. rewrite E. eexists. split; [reflexivity|].
  destruct (front_changes g i (Flushed b) (db', (g_sys g).2) Hq Hh Hb) as (Hq' & Hf' & Hd).
  set (g' := mkGroup _ _ _ _) in *. change (set_writer i (Flushed b) (set_db db' g)) with g'.
  assert (taken g = length b) as Et by (unfold taken; by rewrite Hf).
  assert (taken g' = length b) as Et' by (unfold taken; by rewrite Hf'). rewrite Et in Hwt, Ha. split.
  - done.
  - by rewrite Et'.
  - intros j. by rewrite Et', Hd.
  - unfold store_ok. rewrite Hf'. exists ents', mes'. split; [done|].
    by apply (worker_evolves ents mes (g_sys g).1 (gs_spec gs) ents' mes' db' (gs_spec gs)).
Qed.

(** The batch leaves the queue. *)
Lemma finish_queue g i b :
  queue_ok g → head (write_queue_ g) = Some i → b ≠ [] → b `prefix_of` write_queue_ g →
  let g' := finish_batch i b g in
  queue_ok g' ∧ taken g' = 0%nat ∧ (front g' = None ∨ front g' = Some (Queued false)) ∧
  ∀ j, g_writers g' !! j = Some (Queued true) ↔
    j ≠ i ∧ (j ∈ b ∨ g_writers g !! j = Some (Queued true)).
Proof using Type.
  intros Hq Hh Hne [rest Hp] g'. pose proof Hq as [Q1 Q2 Q3 Q4 Q5]. destruct b as [|x b]; [done|].
  assert (x = i) as -> by (rewrite Hp in Hh; by injection Hh). rewrite Hp in Q1.
  assert (∀ j, j ∈ rest → j ≠ i ∧ j ∉ i :: b) as Hrest.
  { intros j Hj. apply NoDup_app in Q1 as (_ & Hd & _). assert (j ∉ i :: b) as Hn by (intros Hc; by apply (Hd j)).
    split; [intros ->; apply Hn; by left|done]. }
  assert (∀ j, g_writers g' !! j = if decide (j = i) then Some Left else
    if decide (j ∈ i :: b) then Some (Queued true) else g_writers g !! j) as Hws.
  { intros j. unfold g', finish_batch. cbn [g_writers]. destruct (decide (j = i)) as [->|]; [apply lookup_insert_eq|].
    rewrite lookup_insert_ne by done. case_decide; [by apply mark_done_in|by apply mark_done_out]. }
  assert (write_queue_ g' = rest) as Eq by (unfold g', finish_batch; cbn [write_queue_]; by rewrite Hp, drop_app_length).
  assert (∀ j, j ∈ rest → g_writers g' !! j = Some (Queued false)) as Hwait.
  { intros j Hj. rewrite Hws. destruct (Hrest j Hj) as [? Hn]. rewrite !decide_False by done. apply Q3. rewrite Hp.
    cbn. apply elem_of_app. by right. }
  assert (front g' = None ∨ front g' = Some (Queued false)) as Hf.
  { unfold front. rewrite Eq. destruct rest as [|j rest]; [by left|]. right. cbn. apply Hwait. by left. }
  split_and!; [split|..]; rewrite ?Eq.
  - by apply NoDup_app in Q1 as (_ & _ & ?).
  - intros j Hj. by rewrite Hwait by (by apply head_Some_elem_of).
  - intros j Hj. apply Hwait. by apply tail_elem.
  - intros j w. rewrite Hws. case_decide as E1; [intros [= <-]; by right|].
    case_decide as E2; [intros [= <-]; by left|]. intros Hw Hj. apply (Q4 j w Hw). rewrite Hp. intros Hc.
    by apply elem_of_app in Hc as [?|?].
  - intros j Hj. apply Q5. rewrite Hp. apply elem_of_app. by right.
  - unfold taken. by destruct Hf as [-> | ->].
  - done.
  - intros j. rewrite Hws. case_decide as E1; [naive_solver|]. case_decide as E2; naive_solver.
Qed.

Lemma finish_ok g gs i coins b :
  group_ok g gs → g_writers g !! i = Some (Flushed b) →
  ∃ g' gs', step_writer i coins g = (g', Ok true) ∧ gspec_step gs (Step i coins) (Return i) gs' ∧
    group_ok g' gs'.
Proof.
  intros [Hq Hwt Ha Hs] Hw. destruct (leader_front g Hq i _ Hw I) as [Hh Hf].
  destruct (front_prefix g Hq _ Hf) as [Hne Hp]. pose proof Hp as [rest Er].
  destruct (finish_queue g i b Hq Hh Hne Hp) as (Hq' & Et' & Hf' & Hd).
  assert (taken g = length b) as Et by (unfold taken; by rewrite Hf). rewrite Et in Hwt, Ha.
  rewrite Er, take_app_length in Ha. rewrite Er, drop_app_length in Hwt.
  assert (i ∈ b) as Hi by (rewrite Er in Hh; destruct b; [done|]; injection Hh as ->; by left).
  unfold step_writer. rewrite Hw. eexists _, _. split_and!; [reflexivity|apply gspec_return|].
  { apply Ha. by left. }
  split; cbn [gs_waiting gs_applied gs_spec].
  - done.
  - rewrite Et'. unfold finish_batch. cbn [write_queue_]. by rewrite Er, drop_app_length, drop_0.
  - intros j. rewrite Et', Hd, elem_of_difference, Ha, elem_of_singleton. cbn. set_solver.
  - unfold store_ok in *. rewrite Hf in Hs. by destruct Hf' as [-> | ->].
Qed.

Lemma return_ok g gs i coins :
  group_ok g gs → g_writers g !! i = Some (Queued true) →
  ∃ g' gs', step_writer i coins g = (g', Ok true) ∧ gspec_step gs (Step i coins) (Return i) gs' ∧
    group_ok g' gs'.
Proof.
  intros [Hq Hwt Ha Hs] Hw. pose proof Hq as [Q1 Q2 Q3 Q4 Q5].
  assert (i ∉ write_queue_ g) as Hout.
  { intros [Hh|Ht]%head_tail_elem; [specialize (Q2 i Hh)|specialize (Q3 i Ht)]; by rewrite Hw in *. }
  set (g' := set_writer i Left g).
  assert (∀ j, j ∈ write_queue_ g → g_writers g' !! j = g_writers g !! j) as Hold
    by (intros j Hj; apply lookup_insert_ne; by intros <-).
  assert (front g' = front g) as Ef.
  { unfold front. change (write_queue_ g') with (write_queue_ g).
    destruct (head (write_queue_ g)) as [j|] eqn:E; [|done]. cbn. by apply Hold, head_Some_elem_of. }
  assert (taken g' = taken g) as Et by (unfold taken; by rewrite Ef).
  unfold step_writer. rewrite Hw. eexists g', _. split_and!; [reflexivity|apply gspec_return; apply Ha; by right|].
  split; cbn [gs_waiting gs_applied gs_spec]; rewrite ?Et.
  - split; change (write_queue_ g') with (write_queue_ g); try done.
    + intros j Hj. rewrite Hold by (by apply head_Some_elem_of). by apply Q2.
    + intros j Hj. rewrite Hold by (by apply tail_elem). by apply Q3.
    + intros j w. unfold g', set_writer. cbn. destruct (decide (i = j)) as [<-|Hj];
        [rewrite lookup_insert_eq; intros [= <-]; by right|]. rewrite lookup_insert_ne by done. apply Q4.
  - done.
  - intros j. rewrite elem_of_difference, Ha, elem_of_singleton. change (write_queue_ g') with (write_queue_ g).
    unfold g', set_writer. cbn [g_writers]. destruct (decide (i = j)) as [<-|Hj].
    + rewrite lookup_insert_eq. split; [naive_solver|]. intros [Hc|?]; [|done]. exfalso. apply Hout.
      rewrite <- (take_drop (taken g) (write_queue_ g)). apply elem_of_app. by left.
    + rewrite lookup_insert_ne by done. naive_solver.
  - unfold store_ok in *. by rewrite Ef.
Qed.

(** Everything that is not a write. *)
Lemma other_ok g gs a :
  group_ok g gs → gaction_safe (Other a) g →
  ∃ g' o gs', run_gaction (Other a) g = (g', Ok o) ∧ gspec_step gs (Other a) o gs' ∧ group_ok g' gs'.
Proof.
  intros [Hq Hwt Ha Hs] Hsafe.
  assert (action_safe a (g_sys g)) as Hact by (by destruct a as [[]| | |]).
  assert (∀ s' o sp', run_action a (g_sys g) = (s', Ok o) → spec_action (gs_spec gs) a o sp' →
    store_ok (mkGroup s' (write_queue_ g) (g_reqs g) (g_writers g)) sp' →
    ∃ g' o gs', run_gaction (Other a) g = (g', Ok o) ∧ gspec_step gs (Other a) o gs' ∧ group_ok g' gs') as Hdone.
  { intros s' o sp' E Hsp Hs'. cbn [run_gaction]. rewrite E. eexists _, _, _.
    split_and!; [reflexivity|by apply gspec_other|]. destruct Hq. by split. }
  unfold store_ok in Hs. destruct (front g) as [w|] eqn:Ef.
  2:{ destruct (store_step _ _ a Hs Hact) as (s' & o & sp' & E & Hsp & Hs').
      apply (Hdone s' o sp' E Hsp). unfold store_ok. change (front (mkGroup s' _ _ _)) with (front g). by rewrite Ef. }
  destruct (leading w) eqn:El.
  2:{ assert (store_refined (g_sys g) (gs_spec gs)) as Hr by (by destruct w).
      destruct (store_step _ _ a Hr Hact) as (s' & o & sp' & E & Hsp & Hs').
      apply (Hdone s' o sp' E Hsp). unfold store_ok. change (front (mkGroup s' _ _ _)) with (front g).
      rewrite Ef. by destruct w. }
  destruct w as [|b recs| | | |]; try done. destruct Hs as (base & Erecs & En & Hlt & Hs).
  destruct (g_sys g) as [db wk] eqn:Esys. cbn [fst snd] in *.
  assert (match a with Client (CallWrite _ _) | Client CallSnapshot => False | _ => True end) as Hkind.
  { destruct a as [[]| | |]; try done. cbn in Hsafe. unfold front in Ef.
    destruct (head (write_queue_ g)) as [i|]; [|done]. cbn in Ef. by specialize (Hsafe i _ Ef). }
  destruct (store_step _ _ a Hs) as (s' & o & sp' & E & Hsp & Hs'); [by destruct a as [[]| | |]|].
  pose proof (blind_action a (next_seq_ db) db wk Hkind) as Eown. rewrite seq_eta in Eown.
  rewrite (blind_action a base db wk Hkind) in E. cbn zeta in E, Eown.
  destruct (run_action a (db, wk)) as [[db1 wk1] r1] eqn:E1. cbn [fst snd] in *. injection E as <- ->.
  injection Eown as Edb. apply (Hdone (db1, wk1) o sp' eq_refl Hsp).
  unfold store_ok. change (front (mkGroup (db1, wk1) _ _ _)) with (front g). rewrite Ef. exists base.
  change (requests (mkGroup (db1, wk1) _ _ _) b) with (requests g b). cbn [g_sys fst snd].
  split_and!; [done| |done|done]. rewrite <- En, Edb. done.
Qed.

Lemma gaction_ok g gs a :
  group_ok g gs → gaction_safe a g →
  ∃ g' o gs', run_gaction a g = (g', Ok o) ∧ gspec_step gs a o gs' ∧ group_ok g' gs'.
Proof.
  intros Hg Hsafe. destruct a as [i r|i coins|a]; [| |by apply other_ok].
  { destruct Hsafe as [Hnew Hr]. cbn [run_gaction]. rewrite Hnew. eexists _, _, _.
    split_and!; [reflexivity|constructor|by apply enqueue_ok]. }
  assert (∀ g' b gs', step_writer i coins g = (g', Ok b) → gspec_step gs (Step i coins)
    (if b : bool then Return i else Quiet) gs' → group_ok g' gs' →
    ∃ g' o gs', run_gaction (Step i coins) g = (g', Ok o) ∧ gspec_step gs (Step i coins) o gs' ∧
      group_ok g' gs') as Hdone.
  { intros g' b gs' E Hsp Hok. cbn [run_gaction]. rewrite E. by eexists _, _, _. }
  cbn in Hsafe. destruct (g_writers g !! i) as [[[]|b recs|b|b| |]|] eqn:Hw.
  - destruct (return_ok g gs i coins Hg Hw) as (g' & gs' & E & Hsp & Hok). by apply (Hdone g' true gs').
  - destruct (decide (head (write_queue_ g) = Some i)) as [Hh|Hh].
    + destruct (lead_ok g gs i coins Hg Hw Hh Hsafe) as (g' & E & Hok).
      apply (Hdone g' false gs); [done|constructor|done].
    + apply (Hdone g false gs); [|constructor|done]. unfold step_writer. by rewrite Hw, bool_decide_eq_false_2.
  - destruct (commit_ok g gs i coins b recs Hg Hw) as (g' & gs' & E & Hsp & Hok). by apply (Hdone g' false gs').
  - destruct (flush_ok g gs i coins b Hg Hw Hsafe) as (g' & E & Hok).
    apply (Hdone g' false gs); [done|constructor|done].
  - destruct (finish_ok g gs i coins b Hg Hw) as (g' & gs' & E & Hsp & Hok). by apply (Hdone g' true gs').
  - apply (Hdone g false gs); [|constructor|done]. unfold step_writer. by rewrite Hw.
  - apply (Hdone g false gs); [|constructor|done]. unfold step_writer. by rewrite Hw.
  - apply (Hdone g false gs); [|constructor|done]. unfold step_writer. by rewrite Hw.
Qed.

Lemma new_group_ok o :
  0 ≤ block_cache_bytes o < 2 ^ 63 → group_ok (new_group (DB_new o)) (mkGSpec (mkSpec ∅ []) [] ∅).
Proof.
  intros Ho. split; cbn.
  - split; cbn; try done; [by apply NoDup_nil|intros i Hi; by apply elem_of_nil in Hi..].
  - done.
  - intros i. rewrite lookup_empty. set_solver.
  - by apply store_new.
Qed.

Lemma group_run_ok g gs acts :
  group_ok g gs → group_safe acts g →
  ∃ g' os gs', run_group acts g = (g', Ok os) ∧ gspec_run gs acts os gs' ∧ group_ok g' gs'.
Proof.
  revert g gs. induction acts as [|a acts IH]; intros g gs Hg Hsafe.
  - exists g, [], gs. by split_and!; [|constructor|].
  - destruct Hsafe as [Ha Hsafe]. destruct (gaction_ok g gs a Hg Ha) as (g1 & o & gs1 & E & Hs & Hg1).
    cbn [run_group]. rewrite E in Hsafe |- *. destruct (IH g1 gs1 Hg1 Hsafe) as (g' & os & gs' & E' & Hs' & Hg').
    rewrite E'. exists g', (o :: os), gs'. by split_and!; [|econstructor|].
Qed.

End StepLemmas.

(** ** After an exception *)

(** The writer in front has left [write] without leaving the queue. *)
Record stuck (i : nat) (released : nat → Prop) (g : Group) : Prop := {
  st_front : head (write_queue_ g) = Some i;
  st_failed : g_writers g !! i = Some Failed;
  st_others j w : g_writers g !! j = Some w →
    match w with
    | Queued true => released j
    | Queued false | Left | Failed => True
    | _ => False
    end;
}.

(** No new request has the address [i]. *)
Definition not_reused (i : nat) (a : gaction) : Prop :=
  match a with Enqueue j _ => j ≠ i | _ => True end.

Lemma stuck_step `{Posix} `{PriorityQueue} i released a g g' o :
  stuck i released g → not_reused i a → run_gaction a g = (g', Ok o) →
  stuck i released g' ∧ ∀ j, o = Return j → released j.
Proof.
  intros Hst Hi E. pose proof Hst as [S1 S2 S3]. destruct a as [j r|j coins|a].
  - cbn in E. injection E as <- <-. split; [|done]. destruct (ended _); [|done].
    split; cbn.
    + by destruct (write_queue_ g).
    + by rewrite lookup_insert_ne.
    + intros k w. destruct (decide (j = k)) as [<-|]; [rewrite lookup_insert_eq; by intros [= <-]|].
      rewrite lookup_insert_ne by done. apply S3.
  - cbn in E. unfold step_writer in E. destruct (g_writers g !! j) as [w|] eqn:Ej; [|by injection E as <- <-].
    pose proof (S3 j w Ej) as Hw. destruct w as [[]| | | | |]; try done.
    + injection E as <- <-. split; [|intros k [= <-]; done]. split; cbn; [done| |].
      * rewrite lookup_insert_ne; [done|]. intros ->. congruence.
      * intros k w. destruct (decide (j = k)) as [<-|]; [rewrite lookup_insert_eq; by intros [= <-]|].
        rewrite lookup_insert_ne by done. apply S3.
    + rewrite bool_decide_eq_false_2 in E by congruence. by injection E as <- <-.
    + by injection E as <- <-.
    + by injection E as <- <-.
  - cbn in E. destruct (run_action a (g_sys g)) as [s' [o'| |]]; [|done..]. injection E as <- <-.
    split; [by split|done].
Qed.

Lemma stuck_run `{Posix} `{PriorityQueue} i released acts g g' os :
  stuck i released g → Forall (not_reused i) acts → run_group acts g = (g', Ok os) →
  stuck i released g' ∧ ∀ j, Return j ∈ os → released j.
Proof.
  intros Hst Hacts. revert g os Hst. induction Hacts as [|a acts Ha Hacts IH]; intros g os Hst E.
  - injection E as <- <-. split; [done|]. intros j Hj. by apply elem_of_nil in Hj.
  - cbn [run_group] in E. destruct (run_gaction a g) as [g1 [o| |]] eqn:E1; [|done..].
    destruct (stuck_step i released a g g1 o Hst Ha E1) as [Hst1 Ho].
    destruct (run_group acts g1) as [g2 [os2| |]] eqn:E2; [|done..]. injection E as <- <-.
    destruct (IH g1 os2 Hst1 E2) as [Hst2 Hos]. split; [done|].
    intros j [Hj|Hj]%elem_of_cons; [by apply Ho|by apply Hos].
Qed.

(** An exception in the commit or in the flush. *)
Lemma fail_stuck `{Posix} `{PriorityQueue} g g1 i coins msg :
  queue_ok g → step_writer i coins g = (g1, Throw msg) →
  stuck i (λ j, g_writers g !! j = Some (Queued true)) g1.
Proof.
  intros Hq Hfail.
  assert (∃ db', g1 = set_writer i Failed (set_db db' g) ∧ head (write_queue_ g) = Some i) as (db' & -> & Hh).
  { unfold step_writer in Hfail. destruct (g_writers g !! i) as [[[]|b recs|b|b| |]|] eqn:Hi; try done.
    - case_bool_decide; [|done]. unfold lead_on, take_numbers in Hfail. by destruct (assign_seqs _ _).
    - unfold lead_on in Hfail. destruct (commit_records recs coins (g_sys g).1) as [db' [|m|]]; try done.
      injection Hfail as <- <-. exists db'. split; [done|]. by apply (leader_front g Hq i _ Hi).
    - unfold lead_on in Hfail. destruct (maybe_flush (g_sys g).1) as [db' [|m|]]; try done.
      injection Hfail as <- <-. exists db'. split; [done|]. by apply (leader_front g Hq i _ Hi). }
  split; cbn; [done|apply lookup_insert_eq|]. intros k w.
  destruct (decide (i = k)) as [<-|Hk]; [rewrite lookup_insert_eq; by intros [= <-]|].
  rewrite lookup_insert_ne by done. intros Hw. destruct (decide (k ∈ write_queue_ g)) as [Hin|Hout].
  - apply head_tail_elem in Hin as [?|Ht]; [congruence|]. rewrite (qo_rest g Hq k Ht) in Hw. by injection Hw as <-.
  - by destruct (qo_out g Hq k w Hw Hout) as [-> | ->].
Qed.



(** ** A snapshot while numbers are taken *)

Section LateSnapshot.
#[local] Set Default Proof Using "All".
Context `{PosixOk} `{PriorityQueueOk}.

Lemma blind_get k s : blind (get_impl k s).
Proof using Type. unfold get_impl. blinded. Qed.

(** A read at or above all numbers, whatever snapshots there are. *)
Lemma read_current ents mes db sp S k s :
  refines ents mes db sp → next_seq_ db - 1 ≤ s ≤ u64_max →
  ∃ c, get_impl k s (set_snapshots S db) = (set_cache c (set_snapshots S db), Ok (sp_map sp !! k)).
Proof.
  intros Href Hs. pose proof (rf_rep _ _ _ _ Href) as Hdb.
  destruct (get_impl_spec ents mes (set_snapshots S db) k s) as (c & E & _); [by apply set_snapshots_rep|].
  exists c. rewrite E. change (db_entries ents mes (set_snapshots S db)) with (db_entries ents mes db).
  rewrite lookup_current, (rf_map _ _ _ _ Href); [done| |lia].
  eapply Forall_impl; [apply (lo_seqs _ _ (rep_layers _ _ _ Hdb))|]. simpl. lia.
Qed.

(** The database of a leader: the numbers of its batch are taken. *)
Lemma leading_store g gs i b recs :
  group_ok g gs → g_writers g !! i = Some (Leading b recs) →
  let batch := requests g b in
  ∃ base ents mes, recs = (assign_seqs base batch).1 ∧ Forall request_ok batch ∧ (0 < length batch)%nat ∧
    base + Z.of_nat (length batch) < 2 ^ 64 ∧ next_seq_ (g_sys g).1 = base + Z.of_nat (length batch) ∧
    refines ents mes (set_next_seq base (g_sys g).1) (gs_spec gs).
Proof.
  intros [Hq _ _ Hs] Hi batch. destruct (leader_front g Hq i _ Hi I) as [Hh Hf].
  destruct (front_prefix g Hq _ Hf) as [Hne Hp]. unfold store_ok in Hs. rewrite Hf in Hs.
  destruct Hs as (base & Erecs & En & Hlt & ents & mes & Href & _).
  exists base, ents, mes. split_and!; try done; [by apply (batch_requests_ok g Hq)|].
  unfold batch. rewrite requests_length; [by destruct b; [|simpl; lia]|].
  intros j Hj. apply (queue_reqs g Hq). by eapply elem_of_prefix.
Qed.

End LateSnapshot.

(** * Properties *)

(** C1. Group commit. Whatever the threads do between two steps of a writer,
    each write takes effect at once, when the leader of its batch commits; that
    is after its call and before its return, and the writes of a batch, like
    the batches, follow each other in the order of the queue. Reads, flushes
    and the compaction thread meanwhile see the contents before or after the
    whole batch. *)
Theorem group_commit_simulation `{PosixOk} `{PriorityQueueOk} (g : Group) (gs : GSpec) (a : gaction)
    (Hg : group_ok g gs) (Hsafe : gaction_safe a g) :
  ∃ g' o gs', run_gaction a g = (g', Ok o) ∧ gspec_step gs a o gs' ∧ group_ok g' gs'.
Proof. by apply gaction_ok. Qed.

(** Every interleaving of writers, readers, flushes and compaction steps on a
    fresh store is one of the contract. *)
Theorem group_commit_trace `{PosixOk} `{PriorityQueueOk} (o : Options) (acts : list gaction)
    (Ho : 0 ≤ block_cache_bytes o < 2 ^ 63) (Hsafe : group_safe acts (new_group (DB_new o))) :
  ∃ g os gs, run_group acts (new_group (DB_new o)) = (g, Ok os) ∧
    gspec_run (mkGSpec (mkSpec ∅ []) [] ∅) acts os gs ∧ group_ok g gs.
Proof. apply group_run_ok; [by apply new_group_ok|done]. Qed.

(** Writers do not deadlock: as long as a call has not returned, some writer
    can go on. *)
Theorem group_commit_progress `{Posix} `{PriorityQueue} (g : Group) (gs : GSpec) (i : nat) (w : Writer)
    (Hg : group_ok g gs) (Hi : g_writers g !! i = Some w) (Hw : w ≠ Left) :
  ∃ j, can_step g j = true.
Proof.
  pose proof (go_queue _ _ Hg) as Hq. destruct (decide (i ∈ write_queue_ g)) as [Hin|Hout].
  - destruct (head (write_queue_ g)) as [j|] eqn:Eh; [|by destruct (write_queue_ g); [apply elem_of_nil in Hin|]].
    exists j. pose proof (qo_front g Hq j Eh) as Hf. unfold can_step.
    destruct (g_writers g !! j) as [[[]| | | | |]|]; try done. by apply bool_decide_eq_true_2.
  - exists i. unfold can_step. rewrite Hi. by destruct (qo_out g Hq i w Hi Hout) as [-> | ->].
Qed.

(** C37. An exception in the commit or in the flush of a batch blocks the
    writers. The leader leaves [write] without taking its batch off the queue,
    whose front now points to a request that is gone: of the calls that were in
    the queue, and of all that come later, none returns, as long as no later
    request gets the address of that one. *)
Theorem failed_commit_blocks_writers `{Posix} `{PriorityQueue} (g g1 g' : Group) (i : nat)
    (coins : list (list bool)) (msg : string) (acts : list gaction) (os : list reply)
    (Hq : queue_ok g) (Hfail : step_writer i coins g = (g1, Throw msg))
    (Haddr : Forall (not_reused i) acts) (Hrun : run_group acts g1 = (g', Ok os)) (j : nat) :
  Return j ∈ os → g_writers g !! j = Some (Queued true).
Proof.
  pose proof (fail_stuck g g1 i coins msg Hq Hfail) as Hst.
  by apply (stuck_run i _ acts g1 g' os Hst Haddr Hrun).
Qed.


(** C40. A snapshot that is taken after a leader has numbered its batch and before
    it has committed it does not stay fixed: it reads as the contents before the
    batch until the commit, and as those with the whole batch after it. *)
Theorem snapshot_sees_later_write `{PosixOk} `{PriorityQueueOk} (g : Group) (gs : GSpec) (i : nat)
    (b : list nat) (recs : list WalRecord) (coins : list (list bool)) (k : bytes) (Hg : group_ok g gs)
    (Hi : g_writers g !! i = Some (Leading b recs)) :
  let m := sp_map (gs_spec gs) in
  ∃ s g1 g2 db1 db2,
    run_gaction (Other (Client CallSnapshot)) g = (g1, Ok (Outcome (Returned (Handle s)))) ∧
    run_call (CallGetAt k s) (g_sys g1).1 = (db1, Ok (Value (m !! k))) ∧
    run_gaction (Step i coins) g1 = (g2, Ok Quiet) ∧
    run_call (CallGetAt k s) (g_sys g2).1 = (db2, Ok (Value (fold_left spec_write (requests g b) m !! k))).
Proof.
  intros m. destruct (leading_store g gs i b recs Hg Hi) as (base & ents & mes & Erecs & Hb & Hpos & Hlt & Edb & Href).
  set (batch := requests g b) in *. set (db0 := set_next_seq base (g_sys g).1) in *.
  set (n := base + Z.of_nat (length batch)) in *. set (S := {[+ n - 1 +]} ⊎ live_snapshots_ db0).
  pose proof (rep_next _ _ _ (rf_rep _ _ _ _ Href)) as Hbase. change (next_seq_ db0) with base in Hbase.
  destruct (read_current ents mes db0 (gs_spec gs) S k (n - 1) Href) as [c1 E1];
    [unfold db0, n, u64_max; cbn; lia|].
  destruct (commit_batch_spec ents mes (set_snapshots S db0) batch coins) as (m' & Hm' & Hsame & E2);
    [by apply set_snapshots_rep, Href|done|done|].
  pose proof (commit_refines ents mes db0 (gs_spec gs) batch m' (append_batch (wal_ db0) recs).1 Href Hb Hlt
    Hm' Hsame) as Href'. change (next_seq_ db0) with base in Href'.
  destruct (read_current _ _ _ _ S k (n - 1) Href') as [c2 E3]; [unfold n, u64_max; cbn; lia|].
  erewrite dbm_bind_ok in E2 by reflexivity. cbn [next_seq_ set_next_seq set_snapshots db0] in E2.
  rewrite assign_seqs_next, <- Erecs in E2 by lia. fold n in E2.
  assert (get_snapshot (g_sys g).1 = (set_snapshots S (g_sys g).1, Ok (n - 1))) as Esnap.
  { unfold get_snapshot. by rewrite Edb, u64_small by (unfold n; lia). }
  assert (set_snapshots S (g_sys g).1 = set_next_seq n (set_snapshots S db0)) as Eeta.
  { change (set_snapshots S (g_sys g).1 = set_snapshots S (set_next_seq n (g_sys g).1)).
    by rewrite <- Edb, seq_eta. }
  exists (n - 1), (set_db (set_snapshots S (g_sys g).1) g). eexists _, _, _. split_and!.
  - cbn [run_gaction run_action run_call]. by erewrite dbm_bind_ok by exact Esnap.
  - cbn [run_call g_sys set_db fst]. rewrite Eeta. erewrite dbm_bind_ok; [reflexivity|].
    by rewrite (blind_get k (n - 1)), E1.
  - cbn [run_gaction]. unfold step_writer. cbn [g_writers set_db]. rewrite Hi. unfold lead_on.
    cbn [g_sys set_db fst]. by rewrite Eeta, E2.
  - cbn [run_call g_sys set_db set_writer fst]. erewrite dbm_bind_ok; [reflexivity|]. exact E3.
Qed.

Definition ex_put (i : nat) (k v : string) : gaction := Enqueue i (put_request (bs k) (bs v)).
Definition ex_step (i : nat) : gaction := Step i [].
Definition ex_other (c : call) : gaction := Other (Client c).

Definition ex_group (o : Options) (acts : list gaction) : Group * result (list reply) :=
  run_group (H := ex_posix) (H0 := first_pq) acts (new_group (DB_new o)).

(** ** Witnesses *)

#[export] Instance gaction_safe_dec `{Posix} `{PriorityQueue} a g : Decision (gaction_safe a g).
Proof.
  destruct a as [i r|i coins|a]; cbn.
  - apply _.
  - destruct (g_writers g !! i) as [[[]| | | | |]|]; apply _.
  - destruct a as [[]| | |]; cbn; unfold numbers_settled; apply _.
Defined.

#[export] Instance group_safe_dec `{Posix} `{PriorityQueue} acts g : Decision (group_safe acts g).
Proof. revert g. induction acts as [|a acts IH]; intros g; cbn; apply _. Defined.

(** Two calls in one batch; a third comes while the first is leading. *)
Definition group_schedule : list gaction :=
  [ex_put 0 "a" "1"; ex_put 1 "b" "2"; ex_step 1; ex_step 0; ex_put 2 "a" "3";
   ex_other (CallGet (bs "a")); ex_step 0; ex_other (CallGet (bs "a")); ex_step 0; ex_step 0;
   ex_step 2; ex_step 1; ex_other CallFlush; ex_step 2; ex_step 2; ex_step 2; ex_other (CallGet (bs "a"))].

Lemma group_schedule_safe :
  group_safe (H := ex_posix) (H0 := first_pq) group_schedule (new_group (DB_new torn_options)).
Proof. apply (bool_decide_unpack _). vm_compute. exact I. Qed.

Lemma torn_options_ok : 0 ≤ block_cache_bytes torn_options < 2 ^ 63.
Proof. simpl. lia. Qed.

Lemma group_commit_trace_witness :
  ∃ g os gs, ex_group torn_options group_schedule = (g, Ok os) ∧
    gspec_run (mkGSpec (mkSpec ∅ []) [] ∅) group_schedule os gs ∧
    os = [Quiet; Quiet; Quiet; Quiet; Quiet; Outcome (Returned (Value None)); Quiet;
      Outcome (Returned (Value (Some (bs "1")))); Quiet; Return 0; Quiet; Return 1;
      Outcome (Returned Done); Quiet; Quiet; Return 2; Outcome (Returned (Value (Some (bs "3"))))].
Proof.
  destruct (group_commit_trace (H := ex_posix) (H1 := first_pq) torn_options group_schedule
    torn_options_ok group_schedule_safe) as (g & os & gs & E & Hs & _).
  exists g, os, gs. split_and!; [exact E|exact Hs|].
  assert (os = match (ex_group torn_options group_schedule).2 with Ok os' => os' | _ => [] end) as ->
    by (unfold ex_group; rewrite E; reflexivity).
  vm_compute. reflexivity.
Defined.

(** Two calls are in the queue and the first has taken the lead. *)
Definition ex_leading : Group :=
  (ex_group torn_options [ex_put 0 "a" "1"; ex_put 1 "b" "2"; ex_step 0]).1.

Lemma ex_leading_ok : ∃ gs, group_ok (H := ex_posix) (H0 := first_pq) ex_leading gs.
Proof.
  destruct (group_run_ok (H := ex_posix) (H1 := first_pq) (new_group (DB_new torn_options))
    (mkGSpec (mkSpec ∅ []) [] ∅) [ex_put 0 "a" "1"; ex_put 1 "b" "2"; ex_step 0])
    as (g & os & gs & E & _ & Hg); [apply new_group_ok, torn_options_ok| |].
  - apply (bool_decide_unpack _). vm_compute. exact I.
  - exists gs. unfold ex_leading, ex_group. by rewrite E.
Qed.

(** The leader commits both. *)
Lemma group_commit_simulation_witness :
  ∃ gs g' gs', run_gaction (H := ex_posix) (H0 := first_pq) (ex_step 0) ex_leading = (g', Ok Quiet) ∧
    gspec_step gs (ex_step 0) Quiet gs' ∧ group_ok (H := ex_posix) (H0 := first_pq) g' gs'.
Proof.
  destruct ex_leading_ok as [gs Hg]. exists gs.
  destruct (group_commit_simulation (H := ex_posix) (H1 := first_pq) ex_leading gs (ex_step 0) Hg)
    as (g' & o & gs' & E & Hs & Hg').
  - apply (bool_decide_unpack _). vm_compute. exact I.
  - assert (o = Quiet) as ->.
    { assert ((run_gaction (H := ex_posix) (H0 := first_pq) (ex_step 0) ex_leading).2 = Ok Quiet) as E'
        by (vm_compute; reflexivity). rewrite E in E'. simpl in E'. congruence. }
    exists g', gs'. split; [exact E|]. split; [exact Hs|exact Hg'].
Defined.

Lemma group_commit_progress_witness : ∃ j, can_step ex_leading j = true.
Proof.
  destruct ex_leading_ok as [gs Hg].
  apply (group_commit_progress (H := ex_posix) (H0 := first_pq) ex_leading gs 1 (Queued false) Hg).
  - vm_compute. reflexivity.
  - discriminate.
Defined.

Lemma ex_leading_writer : ∃ b recs, g_writers ex_leading !! 0%nat = Some (Leading b recs).
Proof.
  assert (match g_writers ex_leading !! 0%nat with Some (Leading _ _) => True | _ => False end) as Hw
    by (vm_compute; exact I).
  destruct (g_writers ex_leading !! 0%nat) as [[|b recs| | | |]|]; try done. by exists b, recs.
Qed.

Lemma snapshot_sees_later_write_witness :
  ∃ s g1, run_gaction (H := ex_posix) (H0 := first_pq) (ex_other CallSnapshot) ex_leading =
    (g1, Ok (Outcome (Returned (Handle s)))).
Proof.
  destruct ex_leading_ok as [gs Hg], ex_leading_writer as (b & recs & Hi).
  destruct (snapshot_sees_later_write (H := ex_posix) (H1 := first_pq) ex_leading gs 0%nat b recs [] (bs "a") Hg Hi)
    as (s & g1 & _ & _ & _ & E & _).
  exists s, g1. exact E.
Defined.

(** The disk is full when the leader commits. *)
Definition ex_failed : Group := (step_writer (H := full_disk 0) 0 [] ex_leading).1.

Definition ex_after_failure : list gaction :=
  [ex_step 0; ex_step 1; ex_put 2 "c" "3"; ex_step 2; ex_step 1].

Lemma ex_failed_eq :
  step_writer (H := full_disk 0) 0 [] ex_leading = (ex_failed, Throw "write failed: No space left on device").
Proof.
  transitivity (ex_failed, (step_writer (H := full_disk 0) 0 [] ex_leading).2); [apply surjective_pairing|].
  apply (f_equal (pair ex_failed)). vm_compute. reflexivity.
Qed.

Lemma failed_commit_blocks_writers_witness :
  Return 1 ∉ match (run_group (H := full_disk 0) (H0 := first_pq) ex_after_failure ex_failed).2 with
    | Ok os => os | _ => [] end.
Proof.
  destruct ex_leading_ok as [gs Hg].
  destruct (run_group (H := full_disk 0) (H0 := first_pq) ex_after_failure ex_failed) as [g' r] eqn:E.
  assert (r = Ok [Quiet; Quiet; Quiet; Quiet; Quiet]) as ->
    by (change r with ((g', r).2); rewrite <- E; vm_compute; reflexivity).
  cbn [snd]. intros Hc.
  assert (g_writers ex_leading !! 1%nat = Some (Queued true)) as Hw.
  { apply (failed_commit_blocks_writers (H := full_disk 0) (H0 := first_pq) ex_leading ex_failed g' 0%nat []
      "write failed: No space left on device" ex_after_failure [Quiet; Quiet; Quiet; Quiet; Quiet]
      (go_queue (H := ex_posix) (H0 := first_pq) ex_leading gs Hg) ex_failed_eq); [|exact E|exact Hc].
    repeat constructor; discriminate. }
  vm_compute in Hw. discriminate Hw.
Defined.




