(* ===== verification/WriteQueue.v ===== *)
(** The condition variable of the queue of writers: [write_cv_] of [DB::write]
    in src/src/db.cpp.

    GroupCommit.v lets a writer go on when its condition holds.  Here the
    sleepers are part of the state: a writer that finds its condition false
    sleeps until a leader has called [notify_all] (or it wakes up by itself,
    which the standard allows).  Nobody sleeps through the end of its wait, and
    without new calls every write returns. *)

From stdpp Require Import gmultiset.
From S2P Require Import Prelude Coding Wal Entry Manifest Memtable BlockCache SSTableWriter SSTable MergeIterator Version Compaction Levels Db Recovery Background Worker Round Store GroupCommit.
Local Open Scope Z_scope.

(** * Definitions *)

Record Queue := mkQueue {
  qu_group : Group;
  qu_asleep : gset nat;
}.

Inductive queue_action : Type :=
| Run (a : gaction)
| WakeUp (i : nat).

(** [!(req.done || write_queue_.front() == &req)] for a writer in [wait]. *)
Definition must_wait (g : Group) (i : nat) : bool :=
  match g_writers g !! i with
  | Some (Queued false) => negb (bool_decide (head (write_queue_ g) = Some i))
  | _ => false
  end.

(** The next stretch of the writer ends with [notify_all]. *)
Definition finishing (g : Group) (i : nat) : bool :=
  match g_writers g !! i with Some (Flushed _) => true | _ => false end.

Section QueueOps.
Context `{Posix} `{PriorityQueue}.

(** [push_back] and the first test of the condition. *)
Definition queue_call (i : nat) (r : WriteRequest) (q : Queue) : Queue * result reply :=
  if ended (g_writers (qu_group q) !! i) then
    let g := enqueue i r (qu_group q) in
    (mkQueue g (if must_wait g i then {[i]} ∪ qu_asleep q else qu_asleep q), Ok Quiet)
  else (q, Ok Quiet).

(** A writer that is awake tests its condition, or goes on with its work. *)
Definition queue_step (i : nat) (coins : list (list bool)) (q : Queue) : Queue * result reply :=
  let g := qu_group q in
  if bool_decide (i ∈ qu_asleep q) then (q, Ok Quiet)
  else if must_wait g i then (mkQueue g ({[i]} ∪ qu_asleep q), Ok Quiet)
  else let r := run_gaction (Step i coins) g in
       (mkQueue r.1 (if finishing g i then ∅ else qu_asleep q), r.2).

Definition run_queue (a : queue_action) (q : Queue) : Queue * result reply :=
  match a with
  | Run (Enqueue i r) => queue_call i r q
  | Run (Step i coins) => queue_step i coins q
  | Run (Other a) =>
      let r := run_gaction (Other a) (qu_group q) in (mkQueue r.1 (qu_asleep q), r.2)
  | WakeUp i => (mkQueue (qu_group q) (qu_asleep q ∖ {[i]}), Ok Quiet)
  end.

Fixpoint run_queued (acts : list queue_action) (q : Queue) : Queue * result (list reply) :=
  match acts with
  | [] => (q, Ok [])
  | a :: acts' =>
      match run_queue a q with
      | (q', Ok o) => let r := run_queued acts' q' in (r.1, (os ← r.2; Ok (o :: os)))
      | (q', Throw msg) => (q', Throw msg)
      | (q', Undefined) => (q', Undefined)
      end
  end.

Definition queue_safe (a : queue_action) (q : Queue) : Prop :=
  match a with Run a => gaction_safe a (qu_group q) | WakeUp _ => True end.

Fixpoint queued_safe (acts : list queue_action) (q : Queue) : Prop :=
  match acts with
  | [] => True
  | a :: acts' => queue_safe a q ∧ queued_safe acts' (run_queue a q).1
  end.

End QueueOps.

Definition new_queue (db : DB) : Queue := mkQueue (new_group db) ∅.

(** A writer that is awake and has not returned: its next step does something. *)
Definition busy (q : Queue) (i : nat) : bool :=
  negb (bool_decide (i ∈ qu_asleep q)) &&
  match g_writers (qu_group q) !! i with
  | Some Left | Some Failed | None => false
  | _ => true
  end.

(** How often a busy writer makes a step. *)
Fixpoint moves `{Posix} `{PriorityQueue} (acts : list queue_action) (q : Queue) : nat :=
  match acts with
  | [] => 0
  | a :: acts' =>
      (match a with Run (Step i _) => if busy q i then 1 else 0 | _ => 0 end +
       moves acts' (run_queue a q).1)%nat
  end.

(** ** How much is left to do *)

(** Awake and waiting, or just released. *)
Definition lingers (q : Queue) (i : nat) : bool :=
  negb (bool_decide (i ∈ qu_asleep q)) &&
  match g_writers (qu_group q) !! i with Some (Queued _) => true | _ => false end.

Definition stage (g : Group) : nat :=
  match front g with
  | Some (Queued _) => 4
  | Some (Leading _ _) => 3
  | Some (Applied _) => 2
  | Some (Flushed _) => 1
  | _ => 0
  end.

Definition callers (g : Group) : list nat := elements (dom (g_writers g)).

(** A leader that has finished has shortened the queue and wakes all the
    others. *)
Definition queue_work (q : Queue) : nat :=
  length (write_queue_ (qu_group q)) * (length (callers (qu_group q)) + 5) +
  (stage (qu_group q) + length (List.filter (lingers q) (callers (qu_group q)))).

Definition no_call (a : queue_action) : bool :=
  match a with Run (Enqueue _ _) => false | _ => true end.

(** How often a writer wakes up without a notification. *)
Definition wake_ups (acts : list queue_action) : nat :=
  length (List.filter (λ a, match a with WakeUp _ => true | _ => false end) acts).

(** * Lemmas *)

(** The sleepers wait for something that has not happened. *)
Definition sleepers_wait (q : Queue) : Prop := ∀ i, i ∈ qu_asleep q → must_wait (qu_group q) i = true.

Record queue_inv `{Posix} `{PriorityQueue} (q : Queue) (gs : GSpec) : Prop := {
  qi_group : group_ok (qu_group q) gs;
  qi_sleepers : sleepers_wait q;
}.

Lemma must_wait_spec g i :
  must_wait g i = true ↔ g_writers g !! i = Some (Queued false) ∧ head (write_queue_ g) ≠ Some i.
Proof.
  unfold must_wait. destruct (g_writers g !! i) as [[[]| | | | |]|]; try naive_solver.
  rewrite negb_true_iff, bool_decide_eq_false. naive_solver.
Qed.

Section QueueLemmas.
#[local] Set Default Proof Using "Type".
Context `{Posix} `{PriorityQueue}.

Lemma lead_on_frame {A} i (m : dbm A) next g :
  let g' := (lead_on i m next g).1 in
  write_queue_ g' = write_queue_ g ∧ ∀ j, j ≠ i → g_writers g' !! j = g_writers g !! j.
Proof.
  unfold lead_on. destruct (m (g_sys g).1) as [db' [a| |]]; (split; [done|]); intros j Hj;
    cbn [fst g_writers set_writer set_db]; by rewrite ?lookup_insert_ne.
Qed.

(** Until the end of its batch a writer changes nothing but itself. *)
Lemma step_frame i coins g :
  finishing g i = false →
  let g' := (step_writer i coins g).1 in
  write_queue_ g' = write_queue_ g ∧ ∀ j, j ≠ i → g_writers g' !! j = g_writers g !! j.
Proof.
  unfold finishing, step_writer. intros Hf.
  destruct (g_writers g !! i) as [[[]| | | | |]|]; try done; try apply lead_on_frame.
  - split; [done|]. intros j Hj. cbn [fst g_writers set_writer]. by rewrite lookup_insert_ne.
  - case_bool_decide; [apply lead_on_frame|done].
Qed.

Lemma must_wait_frame g g' i :
  write_queue_ g' = write_queue_ g → g_writers g' !! i = g_writers g !! i →
  must_wait g' i = must_wait g i.
Proof. intros Eq Ew. unfold must_wait. by rewrite Eq, Ew. Qed.

Lemma sleepers_step i coins q :
  sleepers_wait q → sleepers_wait (queue_step i coins q).1.
Proof.
  intros Hs. unfold queue_step. case_bool_decide as Hi; [done|].
  destruct (must_wait (qu_group q) i) eqn:Hw.
  - intros j. cbn [fst qu_asleep qu_group]. rewrite elem_of_union, elem_of_singleton. intros [->|Hj]; [done|auto].
  - cbn [fst]. destruct (finishing (qu_group q) i) eqn:Hf; intros j Hj; cbn [qu_asleep qu_group run_gaction fst] in *.
    + by apply elem_of_empty in Hj.
    + destruct (step_frame i coins (qu_group q) Hf) as [Eq Ew].
      rewrite (must_wait_frame (qu_group q)); [auto|done|]. apply Ew. by intros ->.
Qed.

Lemma sleepers_call i r q gs :
  group_ok (qu_group q) gs → sleepers_wait q → ended (g_writers (qu_group q) !! i) = true →
  sleepers_wait (queue_call i r q).1.
Proof.
  intros Hg Hs Hnew. unfold queue_call. rewrite Hnew. cbn [fst].
  assert (∀ j, j ∈ qu_asleep q → must_wait (enqueue i r (qu_group q)) j = true) as Hold.
  { intros j Hj. apply Hs, must_wait_spec in Hj as [Hw Hh]. apply must_wait_spec.
    cbn [enqueue g_writers write_queue_]. split; [rewrite lookup_insert_ne; [done|]; intros ->; by rewrite Hw in Hnew|].
    destruct (write_queue_ (qu_group q)) as [|k l] eqn:Eq; [|done].
    destruct (qo_out _ (go_queue _ _ Hg) j _ Hw); rewrite ?Eq; [apply not_elem_of_nil|done|done]. }
  destruct (must_wait _ i) eqn:Hm; intros j; cbn [qu_asleep qu_group]; [|by apply Hold].
  rewrite elem_of_union, elem_of_singleton. intros [->|Hj]; [done|auto].
Qed.

(** ** Every step of a busy writer is progress *)

Lemma filterb_le {A} (f f' : A → bool) l :
  (∀ x, x ∈ l → f' x = true → f x = true) → (length (List.filter f' l) ≤ length (List.filter f l))%nat.
Proof.
  induction l as [|x l IH]; intros Hf; [done|]. cbn [List.filter].
  pose proof (Hf x ltac:(by left)) as Hx. specialize (IH (λ y Hy, Hf y (list_elem_of_further _ _ _ Hy))).
  destruct (f' x); [rewrite Hx by done; simpl; lia|]. destruct (f x); simpl; lia.
Qed.

Lemma filterb_lt {A} (f f' : A → bool) l x :
  (∀ x, x ∈ l → f' x = true → f x = true) → x ∈ l → f x = true → f' x = false →
  (length (List.filter f' l) < length (List.filter f l))%nat.
Proof.
  intros Hf Hin Hx Hx'. apply list_elem_of_split in Hin as (l1 & l2 & ->). rewrite !List.filter_app, !length_app.
  cbn [List.filter]. rewrite Hx, Hx'. simpl.
  assert (length (List.filter f' l1) ≤ length (List.filter f l1))%nat
    by (apply filterb_le; intros y Hy; apply Hf, elem_of_app; by left).
  assert (length (List.filter f' l2) ≤ length (List.filter f l2))%nat
    by (apply filterb_le; intros y Hy; apply Hf, elem_of_app; right; by right). lia.
Qed.

Lemma callers_insert sys queue reqs i w ws :
  is_Some (ws !! i) → callers (mkGroup sys queue reqs (<[i := w]> ws)) = elements (dom ws).
Proof. intros Hi. unfold callers. cbn [g_writers]. by rewrite dom_insert_lookup_L. Qed.

Lemma mark_done_dom b ws : (∀ i, i ∈ b → is_Some (ws !! i)) → dom (mark_done b ws) = dom ws.
Proof.
  induction b as [|i b IH]; intros Hb; [done|]. cbn [mark_done foldr]. fold (mark_done b ws).
  assert (dom (mark_done b ws) = dom ws) as E by (apply IH; intros j Hj; apply Hb; by right).
  rewrite dom_insert_lookup_L; [done|]. apply elem_of_dom. rewrite E. apply elem_of_dom, Hb. by left.
Qed.

Lemma elem_of_callers g i : i ∈ callers g ↔ is_Some (g_writers g !! i).
Proof. unfold callers. rewrite elem_of_elements. apply elem_of_dom. Qed.

(** The writer leaves the group of those that linger. *)
Lemma lingers_one q q' i :
  (∀ j, j ≠ i → lingers q' j = lingers q j) → lingers q i = true → lingers q' i = false →
  is_Some (g_writers (qu_group q) !! i) → callers (qu_group q') = callers (qu_group q) →
  (length (List.filter (lingers q') (callers (qu_group q'))) <
   length (List.filter (lingers q) (callers (qu_group q))))%nat.
Proof.
  intros Hj Hi Hi' Hin ->. apply (filterb_lt _ _ _ i); [|by apply elem_of_callers|done|done].
  intros x _ Hx. destruct (decide (x = i)) as [->|Hne]; [congruence|]. by rewrite <- Hj.
Qed.

(** A leader that has come one step further. *)
Lemma lead_work {A} q i (m : dbm A) next g' b w :
  lead_on i m next (qu_group q) = (g', Ok b) → g_writers (qu_group q) !! i = Some w →
  head (write_queue_ (qu_group q)) = Some i → (∀ a, stage (set_writer i (next a) (qu_group q)) < stage (qu_group q))%nat →
  (∀ a q0, lingers (mkQueue (set_writer i (next a) q0) (qu_asleep q)) i = false) →
  (queue_work (mkQueue g' (qu_asleep q)) < queue_work q)%nat.
Proof.
  intros E Hw Hh Hstage Hnl. unfold lead_on in E. destruct (m (g_sys (qu_group q)).1) as [db' [a| |]]; simplify_eq.
  unfold queue_work. cbn [qu_group qu_asleep]. set (g' := set_writer i (next a) (set_db db' (qu_group q))).
  assert (callers g' = callers (qu_group q)) as Ec by (apply callers_insert; by exists w).
  assert (stage g' = stage (set_writer i (next a) (qu_group q))) as Es.
  { unfold stage, front. by cbn [g' set_writer set_db write_queue_ g_writers]. }
  assert (length (List.filter (lingers (mkQueue g' (qu_asleep q))) (callers g')) ≤
    length (List.filter (lingers q) (callers (qu_group q))))%nat as Hl.
  { rewrite Ec. apply filterb_le. intros x _ Hx. destruct (decide (x = i)) as [->|Hne].
    - unfold g' in Hx. by rewrite Hnl in Hx.
    - unfold lingers in *. cbn [qu_group qu_asleep g' set_writer set_db g_writers] in Hx.
      by rewrite lookup_insert_ne in Hx. }
  specialize (Hstage a). rewrite <- Es in Hstage. rewrite Ec in *.
  cbn [write_queue_ g' set_writer set_db] in *. lia.
Qed.

Lemma stage_set g i w :
  head (write_queue_ g) = Some i → front (set_writer i w g) = Some w.
Proof. intros Hh. unfold front. cbn [set_writer write_queue_ g_writers]. rewrite Hh. cbn. by rewrite lookup_insert_eq. Qed.

Lemma stage_le g : (stage g ≤ 4)%nat.
Proof. unfold stage. destruct (front g) as [[]|]; lia. Qed.

(** The end of a batch. *)
Lemma finish_work q i b :
  queue_ok (qu_group q) → g_writers (qu_group q) !! i = Some (Flushed b) →
  (queue_work (mkQueue (finish_batch i b (qu_group q)) ∅) < queue_work q)%nat.
Proof.
  intros Hq Hw. destruct (leader_front _ Hq i _ Hw I) as [Hh Hfr].
  destruct (front_prefix _ Hq _ Hfr) as [Hne Hp]. unfold queue_work. cbn [qu_group qu_asleep].
  set (g' := finish_batch i b (qu_group q)).
  assert (callers g' = callers (qu_group q)) as Ec.
  { assert (dom (mark_done b (g_writers (qu_group q))) = dom (g_writers (qu_group q))) as Ed.
    { apply mark_done_dom. intros j Hj. apply (queue_writer _ Hq). by eapply elem_of_prefix. }
    unfold g', finish_batch. rewrite callers_insert; [by rewrite Ed|].
    apply elem_of_dom. rewrite Ed. apply elem_of_dom. by eexists. }
  pose proof (stage_le g') as Hs. pose proof (filter_length_le (lingers (mkQueue g' ∅)) (callers g')) as Hl.
  assert (stage (qu_group q) = 1%nat) as Hs1 by (unfold stage; by rewrite Hfr).
  assert (length (write_queue_ g') + length b = length (write_queue_ (qu_group q)))%nat as El.
  { cbn [g' finish_batch write_queue_]. rewrite length_drop. apply prefix_length in Hp. lia. }
  assert (0 < length b)%nat by (destruct b; [done|simpl; lia]).
  rewrite Ec in *. rewrite Hs1. nia.
Qed.

Lemma lingers_set i w g asleep :
  match w with Queued _ => False | _ => True end → lingers (mkQueue (set_writer i w g) asleep) i = false.
Proof.
  intros Hw. unfold lingers. cbn [qu_group set_writer g_writers]. rewrite lookup_insert_eq.
  destruct w; [done|apply andb_false_r..].
Qed.

(** A writer goes back to sleep. *)
Lemma sleep_work q i :
  i ∉ qu_asleep q → must_wait (qu_group q) i = true →
  (queue_work (mkQueue (qu_group q) ({[i]} ∪ qu_asleep q)) < queue_work q)%nat.
Proof.
  intros Hi [Hw _]%must_wait_spec. unfold queue_work. cbn [qu_group].
  apply Nat.add_lt_mono_l, Nat.add_lt_mono_l.
  apply (lingers_one q (mkQueue (qu_group q) ({[i]} ∪ qu_asleep q)) i); [| | |by eexists|done].
  - intros j Hj. unfold lingers. cbn [qu_group qu_asleep]. f_equal. f_equal. apply bool_decide_ext. set_solver.
  - unfold lingers. by rewrite Hw, bool_decide_eq_false_2.
  - unfold lingers. cbn [qu_group qu_asleep]. by rewrite bool_decide_eq_true_2 by set_solver.
Qed.

(** A writer that has been released returns. *)
Lemma leave_work q i :
  queue_ok (qu_group q) → i ∉ qu_asleep q → g_writers (qu_group q) !! i = Some (Queued true) →
  (queue_work (mkQueue (set_writer i Left (qu_group q)) (qu_asleep q)) < queue_work q)%nat.
Proof.
  intros Hq Hi Hw. unfold queue_work. cbn [qu_group]. set (g' := set_writer i Left (qu_group q)).
  assert (callers g' = callers (qu_group q)) as Ec by (apply callers_insert; by eexists).
  assert (stage g' = stage (qu_group q)) as ->.
  { unfold stage, front. cbn [g' set_writer write_queue_ g_writers].
    destruct (head (write_queue_ (qu_group q))) as [k|] eqn:Hh; [|done]. cbn.
    rewrite lookup_insert_ne; [done|]. intros ->. pose proof (qo_front _ Hq k Hh) as Hf. by rewrite Hw in Hf. }
  rewrite Ec. apply Nat.add_lt_mono_l, Nat.add_lt_mono_l.
  pose proof (lingers_one q (mkQueue g' (qu_asleep q)) i) as Hl. cbn [qu_group] in Hl. rewrite Ec in Hl.
  apply Hl; [|by unfold lingers; rewrite Hw, bool_decide_eq_false_2|by apply lingers_set|by eexists|done].
  intros j Hj. unfold lingers. cbn [qu_group qu_asleep g' set_writer g_writers]. by rewrite lookup_insert_ne.
Qed.

(** Waking up for nothing costs one more step. *)
Lemma wake_work q i :
  (queue_work (mkQueue (qu_group q) (qu_asleep q ∖ {[i]})) ≤ queue_work q + 1)%nat.
Proof.
  unfold queue_work. cbn [qu_group]. set (q' := mkQueue _ _).
  assert (length (List.filter (lingers q') (callers (qu_group q))) ≤
    length (List.filter (lingers q) (callers (qu_group q))) + 1)%nat; [|lia].
  assert (NoDup (callers (qu_group q))) as Hnd by (unfold callers; apply NoDup_elements). revert Hnd.
  generalize (callers (qu_group q)). intros l. induction l as [|j l IH]; [simpl; lia|].
  intros [Hj Hnd]%NoDup_cons. specialize (IH Hnd). cbn [List.filter].
  destruct (decide (j = i)) as [->|Hne].
  - assert (length (List.filter (lingers q') l) ≤ length (List.filter (lingers q) l))%nat as Hl.
    { apply filterb_le. intros x Hx. assert (x ≠ i) by (by intros ->).
      unfold lingers, q'. cbn [qu_group qu_asleep]. rewrite (bool_decide_ext _ (x ∈ qu_asleep q)) by set_solver. done. }
    destruct (lingers q' i), (lingers q i); simpl; lia.
  - assert (lingers q' j = lingers q j) as ->.
    { unfold lingers, q'. cbn [qu_group qu_asleep]. by rewrite (bool_decide_ext _ (j ∈ qu_asleep q)) by set_solver. }
    destruct (lingers q j); simpl; lia.
Qed.

(** The steps of a writer that does not wait. *)
Lemma step_work q i coins g' b :
  queue_ok (qu_group q) → busy q i = true → must_wait (qu_group q) i = false →
  step_writer i coins (qu_group q) = (g', Ok b) →
  (queue_work (mkQueue g' (if finishing (qu_group q) i then ∅ else qu_asleep q)) < queue_work q)%nat.
Proof.
  intros Hq [Hawake%negb_true_iff Hb]%andb_true_iff Hm Es. apply bool_decide_eq_false in Hawake.
  unfold step_writer in Es. unfold finishing, must_wait in *.
  destruct (g_writers (qu_group q) !! i) as [[[]|b' recs|b'|b'| |]|] eqn:Hi; try done.
  - injection Es as <- _. by apply leave_work.
  - apply negb_false_iff in Hm. rewrite Hm in Es. apply bool_decide_eq_true in Hm.
    eapply lead_work; [exact Es|exact Hi|done| |by intros; apply lingers_set].
    intros a. unfold stage. rewrite stage_set by done. unfold front. rewrite Hm. cbn. rewrite Hi. lia.
  - destruct (leader_front _ Hq i _ Hi I) as [Hh Hfr].
    eapply lead_work; [exact Es|exact Hi|done| |by intros; apply lingers_set].
    intros a. unfold stage. rewrite stage_set, Hfr by done. lia.
  - destruct (leader_front _ Hq i _ Hi I) as [Hh Hfr].
    eapply lead_work; [exact Es|exact Hi|done| |by intros; apply lingers_set].
    intros a. unfold stage. rewrite stage_set, Hfr by done. lia.
  - injection Es as <- _. by apply finish_work.
Qed.

Lemma queue_step_work q i coins q' o :
  queue_ok (qu_group q) → busy q i = true → queue_step i coins q = (q', Ok o) →
  (queue_work q' < queue_work q)%nat.
Proof.
  intros Hq Hb E. pose proof Hb as [Hawake%negb_true_iff _]%andb_true_iff. unfold queue_step in E.
  rewrite Hawake in E. apply bool_decide_eq_false in Hawake.
  destruct (must_wait (qu_group q) i) eqn:Hm; [injection E as <- _; by apply sleep_work|].
  cbn [run_gaction] in E. destruct (step_writer i coins (qu_group q)) as [g1 [b| |]] eqn:Es; simplify_eq/=.
  by eapply step_work.
Qed.

(** A step of a writer that is not busy does nothing. *)
Lemma idle_step q i coins : busy q i = false → (queue_step i coins q).1 = q.
Proof.
  intros [Ha%negb_false_iff|Hw]%andb_false_iff; unfold queue_step.
  { by rewrite Ha. }
  case_bool_decide; [done|]. unfold must_wait, finishing, run_gaction, step_writer.
  destruct q as [g S]. cbn [qu_group qu_asleep] in *. by destruct (g_writers g !! i) as [[]|].
Qed.

(** Somebody who is awake can go on. *)
Lemma someone_busy q gs :
  queue_inv q gs → (∀ i, busy q i = false) →
  map_Forall (λ _ w, w = Left) (g_writers (qu_group q)).
Proof.
  intros [Hg Hs] Hidle i w Hw. pose proof (go_queue _ _ Hg) as Hq.
  destruct (decide (i ∈ write_queue_ (qu_group q))) as [Hin|Hout].
  - destruct (head (write_queue_ (qu_group q))) as [k|] eqn:Hh; [|by destruct (write_queue_ (qu_group q)); [apply elem_of_nil in Hin|]].
    pose proof (qo_front _ Hq k Hh) as Hf. specialize (Hidle k). unfold busy in Hidle.
    rewrite bool_decide_eq_false_2 in Hidle.
    + by destruct (g_writers (qu_group q) !! k) as [[[]| | | | |]|].
    + intros [_ Hne]%Hs%must_wait_spec. done.
  - destruct (qo_out _ Hq i w Hw Hout) as [->| ->]; [|done]. specialize (Hidle i). unfold busy in Hidle.
    rewrite Hw, bool_decide_eq_false_2 in Hidle; [done|]. intros [Hq' _]%Hs%must_wait_spec. congruence.
Qed.

End QueueLemmas.

Section QueueRuns.
#[local] Set Default Proof Using "All".
Context `{PosixOk} `{PriorityQueueOk}.

(** The queue with its sleepers follows the contract of the group. *)
Lemma queue_ok_step q gs a :
  queue_inv q gs → queue_safe a q →
  ∃ q' o gs', run_queue a q = (q', Ok o) ∧ queue_inv q' gs' ∧
    match a with Run a => gspec_step gs a o gs' | WakeUp _ => o = Quiet ∧ gs' = gs end.
Proof.
  intros [Hg Hs] Hsafe. destruct a as [[i r|i coins|a]|i]; cbn [run_queue queue_safe] in *.
  - destruct (gaction_ok _ gs _ Hg Hsafe) as (g' & o & gs' & E & Hsp & Hg').
    destruct Hsafe as [Hnew _]. pose proof (sleepers_call i r q gs Hg Hs Hnew) as Hs'.
    unfold queue_call in *. cbn [run_gaction] in E. rewrite Hnew in E, Hs' |- *. injection E as <- <-.
    eexists _, Quiet, gs'. split_and!; [done| |done]. by split.
  - pose proof (sleepers_step i coins q Hs) as Hs'. unfold queue_step in *. case_bool_decide as Hi.
    { exists q, Quiet, gs. split_and!; [done|by split|constructor]. }
    destruct (must_wait (qu_group q) i).
    { eexists _, Quiet, gs. split_and!; [done|by split|constructor]. }
    destruct (gaction_ok _ gs _ Hg Hsafe) as (g' & o & gs' & E & Hsp & Hg'). rewrite E in Hs' |- *.
    eexists _, o, gs'. split_and!; [done| |done]. by split.
  - destruct (gaction_ok _ gs _ Hg Hsafe) as (g' & o & gs' & E & Hsp & Hg'). rewrite E.
    eexists _, o, gs'. split_and!; [done| |done]. split; [done|]. intros j Hj.
    cbn [run_gaction] in E. injection E as <- _. cbn [qu_asleep qu_group] in *.
    rewrite (must_wait_frame (qu_group q)); [by apply Hs|done|done].
  - eexists _, Quiet, gs. split_and!; [done| |done|done]. split; [done|].
    intros j Hj%elem_of_difference. apply Hs, Hj.
Qed.

Lemma new_queue_inv o :
  0 ≤ block_cache_bytes o < 2 ^ 63 → queue_inv (new_queue (DB_new o)) (mkGSpec (mkSpec ∅ []) [] ∅).
Proof. intros Ho. split; [by apply new_group_ok|]. intros i Hi. by apply elem_of_empty in Hi. Qed.

Lemma queue_run acts q gs :
  queue_inv q gs → queued_safe acts q →
  ∃ q' os gs', run_queued acts q = (q', Ok os) ∧ queue_inv q' gs'.
Proof.
  revert q gs. induction acts as [|a acts IH]; intros q gs Hi Hsafe; [by exists q, [], gs|].
  destruct Hsafe as [Ha Hsafe]. destruct (queue_ok_step q gs a Hi Ha) as (q1 & o & gs1 & E & Hi1 & _).
  cbn [run_queued]. rewrite E in Hsafe |- *. destruct (IH q1 gs1 Hi1 Hsafe) as (q' & os & gs' & E' & Hi').
  rewrite E'. by exists q', (o :: os), gs'.
Qed.

(** The steps of busy writers use up the work. *)
Lemma queue_bound acts q gs :
  queue_inv q gs → queued_safe acts q → Forall (λ a, no_call a = true) acts →
  (moves acts q + queue_work (run_queued acts q).1 ≤ queue_work q + wake_ups acts)%nat.
Proof.
  revert q gs. induction acts as [|a acts IH]; intros q gs Hi Hsafe Hno; [simpl; lia|].
  destruct Hsafe as [Ha Hsafe]. apply Forall_cons in Hno as [Hn Hno].
  destruct (queue_ok_step q gs a Hi Ha) as (q1 & o & gs1 & E & Hi1 & _). cbn [moves run_queued].
  rewrite E in Hsafe |- *. cbn [fst] in *. specialize (IH q1 gs1 Hi1 Hsafe Hno).
  unfold wake_ups in *. cbn [List.filter].
  destruct a as [[i r|i coins|a]|i]; try done; cbn [run_queue] in E.
  - destruct (busy q i) eqn:Hb.
    + pose proof (queue_step_work q i coins q1 o (go_queue _ _ (qi_group _ _ Hi)) Hb E). lia.
    + pose proof (idle_step q i coins Hb) as Hid. rewrite E in Hid. cbn [fst] in Hid. subst q1. lia.
  - injection E as <- _. exact IH.
  - injection E as <- _. pose proof (wake_work q i). simpl. lia.
Qed.

Lemma queued_safe_app acts acts' q :
  queued_safe (acts ++ acts') q → queued_safe acts q ∧
    ∀ q' os, run_queued acts q = (q', Ok os) → queued_safe acts' q'.
Proof using Type.
  revert q. induction acts as [|a acts IH]; intros q; simpl.
  - intros Hs. split; [done|]. by intros q' os [= <- _].
  - intros [Ha Hs]. destruct (IH _ Hs) as [Hs1 Hs2]. split; [done|]. intros q' os E.
    destruct (run_queue a q) as [q1 [o| |]]; simplify_eq.
    destruct (run_queued acts q1) as [q2 [os2| |]] eqn:E2; simplify_eq. by eapply Hs2.
Qed.

End QueueRuns.

#[export] Instance queue_safe_dec `{Posix} `{PriorityQueue} a q : Decision (queue_safe a q).
Proof. destruct a; unfold queue_safe; apply _. Defined.

#[export] Instance queued_safe_dec `{Posix} `{PriorityQueue} acts q : Decision (queued_safe acts q).
Proof. revert q. induction acts as [|a acts IH]; intros q; simpl; apply _. Defined.

(** * Properties *)

(** No writer sleeps through the end of its wait: whatever has been called and
    whoever has made a step, a writer is asleep only while its request is not
    done and another one is at the front of the queue. *)
Theorem no_sleeping_leader `{PosixOk} `{PriorityQueueOk} (o : Options) (acts : list queue_action) (i : nat)
    (Ho : 0 ≤ block_cache_bytes o < 2 ^ 63) (Hsafe : queued_safe acts (new_queue (DB_new o))) :
  let q := (run_queued acts (new_queue (DB_new o))).1 in
  i ∈ qu_asleep q →
  g_writers (qu_group q) !! i = Some (Queued false) ∧ head (write_queue_ (qu_group q)) ≠ Some i.
Proof.
  destruct (queue_run acts _ _ (new_queue_inv o Ho) Hsafe) as (q & os & gs & E & [_ Hs]).
  rewrite E. intros q0 Hi. by apply must_wait_spec, Hs.
Qed.

(** C10. Every write returns. From any reachable state, when no more calls come,
    the writers together make at most [queue_work] steps, and one more for each
    time a writer wakes up without a notification, in whatever order and
    whatever the compaction thread and other clients do between them; and when
    no writer that is awake can go on, all of them have returned: none is left
    asleep. *)
Theorem writes_return `{PosixOk} `{PriorityQueueOk} (o : Options) (acts more : list queue_action)
    (Ho : 0 ≤ block_cache_bytes o < 2 ^ 63)
    (Hsafe : queued_safe (acts ++ more) (new_queue (DB_new o)))
    (Hno : Forall (λ a, no_call a = true) more) :
  let q := (run_queued acts (new_queue (DB_new o))).1 in
  let q' := (run_queued more q).1 in
  (moves more q ≤ queue_work q + wake_ups more)%nat ∧
  ((∀ i, busy q' i = false) → map_Forall (λ _ w, w = Left) (g_writers (qu_group q'))).
Proof.
  apply queued_safe_app in Hsafe as [Hs1 Hs2].
  destruct (queue_run acts _ _ (new_queue_inv o Ho) Hs1) as (q & os & gs & E & Hi).
  specialize (Hs2 q os E). rewrite E. cbn [fst]. split.
  - pose proof (queue_bound more q gs Hi Hs2 Hno). lia.
  - destruct (queue_run more q gs Hi Hs2) as (q' & os' & gs' & E' & Hi'). rewrite E'. by eapply someone_busy.
Qed.

(** ** Witnesses *)

Definition ex_queue (acts : list queue_action) : Queue :=
  (run_queued (H := ex_posix) (H0 := first_pq) acts (new_queue (DB_new torn_options))).1.

Definition steps_of (i n : nat) : list queue_action := replicate n (Run (Step i [])).

(** The first call leads alone; two more sleep in the queue meanwhile. *)
Definition sleepy : list queue_action :=
  [Run (ex_put 0 "a" "1"); Run (Step 0 []); Run (ex_put 1 "b" "2"); Run (ex_put 2 "a" "3")].

(** All three return; the second wakes up by itself while the first is leading,
    and the last one twice, once for nothing. *)
Definition rest_of_it : list queue_action :=
  steps_of 0 1 ++ WakeUp 1 :: steps_of 1 1 ++ steps_of 0 2 ++ steps_of 2 1 ++ steps_of 1 4 ++ steps_of 2 1.

Lemma sleepy_safe :
  queued_safe (H := ex_posix) (H0 := first_pq) (sleepy ++ rest_of_it) (new_queue (DB_new torn_options)).
Proof. apply (bool_decide_unpack _). vm_compute. exact I. Qed.

Lemma no_sleeping_leader_witness :
  2%nat ∈ qu_asleep (ex_queue sleepy) ∧ head (write_queue_ (qu_group (ex_queue sleepy))) ≠ Some 2%nat.
Proof.
  assert (2%nat ∈ qu_asleep (ex_queue sleepy)) as Hi by (apply (bool_decide_unpack _); vm_compute; exact I).
  split; [exact Hi|]. refine (proj2 (no_sleeping_leader (H := ex_posix) (H1 := first_pq) torn_options sleepy 2
    torn_options_ok _ Hi)). apply (bool_decide_unpack _). vm_compute. exact I.
Defined.

Lemma writes_return_witness :
  moves (H := ex_posix) (H0 := first_pq) rest_of_it (ex_queue sleepy) = 10%nat ∧
  queue_work (ex_queue sleepy) = 27%nat ∧
  (moves (H := ex_posix) (H0 := first_pq) rest_of_it (ex_queue sleepy) ≤ queue_work (ex_queue sleepy) + 1)%nat.
Proof.
  split; [vm_compute; reflexivity|]. split; [vm_compute; reflexivity|].
  refine (proj1 (writes_return (H := ex_posix) (H1 := first_pq) torn_options sleepy rest_of_it
    torn_options_ok sleepy_safe _)).
  apply (bool_decide_unpack _). vm_compute. exact I.
Defined.
