(* ===== verification/Cli.v ===== *)
(** The command line: src/cmd/keystone/main.cpp.

    A program that reads commands from its input, a line each, runs them on a
    database and prints the answers.  Input and output are byte strings.  The
    compaction thread of the database works between the commands. *)

From stdpp Require Import gmultiset pretty.
From S2P Require Import Prelude Text Coding Wal Entry Manifest Memtable BlockCache SSTableWriter SSTable MergeIterator Version Compaction Levels Db Recovery Background Worker Round Store.
Local Open Scope Z_scope.

(** * Definitions *)

(** ** Input *)

(** The lines [std::getline] returns. *)
Definition getlines (input : bytes) : list bytes := pieces x0a%byte input.

(** The words that [iss >> word] returns one after the other. *)
Fixpoint words_from (cur : bytes) (line : bytes) : list bytes :=
  match line with
  | [] => if bool_decide (cur = []) then [] else [cur]
  | b :: line' =>
      if is_space b
      then (if bool_decide (cur = []) then [] else [cur]) ++ words_from [] line'
      else words_from (cur ++ [b]) line'
  end.

Definition words (line : bytes) : list bytes := words_from [] line.

(** ** Output *)

Definition newline : bytes := [x0a%byte].

Definition println (s : bytes) : bytes := s ++ newline.

Definition help_text : bytes :=
  println (bs "put <key> <value>  — store a key-value pair") ++
  println (bs "get <key>          — retrieve a value") ++
  println (bs "del <key>          — delete a key") ++
  println (bs "scan <start> <end> — range scan [start, end]") ++
  println (bs "flush              — flush memtable to SSTable") ++
  println (bs "exit / quit        — shut down").

Definition show_value (v : option bytes) : bytes :=
  println (match v with Some v => v | None => bs "(nil)" end).

(** The pairs as they are emitted, and [count]. *)
Definition show_pairs (l : list (bytes * bytes)) : bytes :=
  mjoin ((λ p, println (p.1 ++ bs " = " ++ p.2)) <$> l) ++
  println (bs "(" ++ bs (pretty (length l)) ++ bs " results)").

Definition unknown_command (cmd : bytes) : bytes :=
  println (bs "ERR: unknown command '" ++ cmd ++ bs "'. Type 'help'.").

(** ** Commands *)

(** What a line asks for: nothing, the end of the loop, only an answer, or a
    call and a way to print its result. *)
Inductive command : Type :=
| CmdSkip
| CmdExit
| CmdPrint (out : bytes)
| CmdPut (key value : bytes)
| CmdGet (key : bytes)
| CmdDel (key : bytes)
| CmdScan (k1 k2 : bytes)
| CmdFlush.

(** The chain of [if (cmd == ...)]; words behind those a command takes are not
    looked at. *)
Definition parse_words (ws : list bytes) : command :=
  match ws with
  | [] => CmdSkip
  | cmd :: args =>
      if bytes_eqb cmd (bs "put") then
        match args with
        | key :: value :: _ => CmdPut key value
        | _ => CmdPrint (println (bs "ERR: put <key> <value>"))
        end
      else if bytes_eqb cmd (bs "get") then
        match args with key :: _ => CmdGet key | _ => CmdPrint (println (bs "ERR: get <key>")) end
      else if bytes_eqb cmd (bs "del") then
        match args with key :: _ => CmdDel key | _ => CmdPrint (println (bs "ERR: del <key>")) end
      else if bytes_eqb cmd (bs "scan") then
        match args with
        | k1 :: k2 :: _ => CmdScan k1 k2
        | _ => CmdPrint (println (bs "ERR: scan <start> <end>"))
        end
      else if bytes_eqb cmd (bs "flush") then CmdFlush
      else if bytes_eqb cmd (bs "help") then CmdPrint help_text
      else if bytes_eqb cmd (bs "exit") || bytes_eqb cmd (bs "quit") then CmdExit
      else CmdPrint (unknown_command cmd)
  end.

Section CliOps.
Context `{Posix} `{PriorityQueue}.

(** [count] is an [int]. *)
Definition count_pairs (l : list (bytes * bytes)) : result (list (bytes * bytes)) :=
  if Z.of_nat (length l) <? 2 ^ 31 then Ok l else Undefined.

(** The body of the loop: [None] when it is left.  [coins] are the tosses of an
    insertion into the memtable. *)
Definition run_line (line : bytes) (coins : list bool) : dbm (option bytes) :=
  match parse_words (words line) with
  | CmdSkip => mret (Some [])
  | CmdExit => mret None
  | CmdPrint out => mret (Some out)
  | CmdPut key value =>
      _ ← write_batch [put_request key value] [coins]; mret (Some (println (bs "OK")))
  | CmdGet key => val ← get key; mret (Some (show_value val))
  | CmdDel key => _ ← write_batch [del_request key] [coins]; mret (Some (println (bs "OK")))
  | CmdScan k1 k2 => l ← scan k1 k2; l' ← liftr (count_pairs l); mret (Some (show_pairs l'))
  | CmdFlush => _ ← flush; mret (Some (println (bs "OK")))
  end.

(** What the thread and the coins do at a line: so many steps before its command. *)
Definition line_env (env : list (nat * list bool)) : nat * list bool := default (O, []) (head env).

Definition thread_steps (n : nat) (s : system) : system * result (list outcome) :=
  run_schedule (replicate n Background) s.

(** The loop; an exception ends the program, in the thread too. *)
Fixpoint repl (lines : list bytes) (env : list (nat * list bool)) (out : bytes) (s : system)
  : system * bytes * result unit :=
  match thread_steps (line_env env).1 s with
  | (s1, Ok _) =>
      match lines with
      | [] => (s1, out, Ok tt)
      | line :: lines' =>
          match run_line line (line_env env).2 s1.1 with
          | (db', Ok None) => ((db', s1.2), out, Ok tt)
          | (db', Ok (Some o)) => repl lines' (tail env) (out ++ o) (db', s1.2)
          | (db', Throw msg) => ((db', s1.2), out, Throw msg)
          | (db', Undefined) => ((db', s1.2), out, Undefined)
          end
      end
  | (s1, Throw msg) => (s1, out, Throw msg)
  | (s1, Undefined) => (s1, out, Undefined)
  end.

(** [main]: the exit status, with the output and the files at the end, after
    [~DB]. *)
Definition keystone_main (argv : list bytes) (d : Disk) (coins : list (list bool))
    (env : list (nat * list bool)) (input : bytes) : result (Z * bytes * Disk) :=
  if negb (length argv =? 2)%nat then Ok (1, [], d)
  else
    db ← db_open d default_options coins;
    match repl (getlines input) env [] (db, Waiting) with
    | (s, out, Ok _) => let r := db_close s in _ ← r.2; Ok (0, out, disk_of r.1.1)
    | (_, _, Throw msg) => Throw msg
    | (_, _, Undefined) => Undefined
    end.

(** ** The conditions of use *)

(** The call behind a command. *)
Definition command_call (c : command) (coins : list bool) : option call :=
  match c with
  | CmdPut key value => Some (CallWrite [put_request key value] [coins])
  | CmdGet key => Some (CallGet key)
  | CmdDel key => Some (CallWrite [del_request key] [coins])
  | CmdScan k1 k2 => Some (CallScan k1 k2)
  | CmdFlush => Some CallFlush
  | _ => None
  end.

Definition line_durable (line : bytes) (coins : list bool) (s : system) : Prop :=
  match command_call (parse_words (words line)) coins with
  | Some c =>
      action_durable (Client c) s ∧
      match c with
      | CallScan k1 k2 => match (scan k1 k2 s.1).2 with Ok l => Z.of_nat (length l) < 2 ^ 31 | _ => True end
      | _ => True
      end
  | None => True
  end.

(** The calls, the steps of the thread and the end. *)
Fixpoint session_durable (lines : list bytes) (env : list (nat * list bool)) (s : system) : Prop :=
  let s1 := (thread_steps (line_env env).1 s).1 in
  schedule_durable (replicate (line_env env).1 Background) s ∧
  match lines with
  | [] => close_durable s1
  | line :: lines' =>
      line_durable line (line_env env).2 s1 ∧
      let r := run_line line (line_env env).2 s1.1 in
      match r.2 with
      | Ok (Some _) => session_durable lines' (tail env) (r.1, s1.2)
      | _ => close_durable (r.1, s1.2)
      end
  end.

End CliOps.

(** ** The contract *)

(** What a line prints and does to the contents; [None] ends the session. *)
Inductive cli_spec (m : gmap bytes bytes) : command → option bytes → gmap bytes bytes → Prop :=
| cli_skip : cli_spec m CmdSkip (Some []) m
| cli_exit : cli_spec m CmdExit None m
| cli_print out : cli_spec m (CmdPrint out) (Some out) m
| cli_put k v : cli_spec m (CmdPut k v) (Some (println (bs "OK"))) (<[k := v]> m)
| cli_get k : cli_spec m (CmdGet k) (Some (show_value (m !! k))) m
| cli_del k : cli_spec m (CmdDel k) (Some (println (bs "OK"))) (delete k m)
| cli_scan k1 k2 l : is_range m k1 k2 l → cli_spec m (CmdScan k1 k2) (Some (show_pairs l)) m
| cli_flush : cli_spec m CmdFlush (Some (println (bs "OK"))) m.

Inductive cli_session : gmap bytes bytes → list bytes → bytes → gmap bytes bytes → Prop :=
| session_end m : cli_session m [] [] m
| session_exit m line lines :
    cli_spec m (parse_words (words line)) None m → cli_session m (line :: lines) [] m
| session_line m line lines o m1 out m2 :
    cli_spec m (parse_words (words line)) (Some o) m1 → cli_session m1 lines out m2 →
    cli_session m (line :: lines) (o ++ out) m2.

(** * Lemmas *)

(** A word can be read back. *)
Definition is_word (w : bytes) : Prop := w ≠ [] ∧ Forall (λ b, is_space b = false) w.

Lemma words_from_word cur w rest :
  Forall (λ b, is_space b = false) w → words_from cur (w ++ rest) = words_from (cur ++ w) rest.
Proof.
  intros Hw. revert cur. induction Hw as [|b w Hb _ IH]; intros cur; cbn [app words_from].
  - by rewrite app_nil_r.
  - rewrite Hb, IH. by rewrite <- (assoc_L (++)).
Qed.

Lemma words_spec w b rest : is_word w → is_space b = true → words (w ++ b :: rest) = w :: words rest.
Proof.
  intros [Hne Hw] Hb. unfold words. rewrite words_from_word by done. cbn [app words_from].
  by rewrite Hb, bool_decide_eq_false_2.
Qed.

Lemma words_last w : is_word w → words w = [w].
Proof.
  intros [Hne Hw]. unfold words. rewrite <- (app_nil_r w) at 1. rewrite words_from_word by done.
  cbn [app words_from]. by rewrite bool_decide_eq_false_2.
Qed.

(** The call of a line returns, and its result is printed. *)
Ltac call_line H hist :=
  let db' := fresh "db'" in let r := fresh "r" in let settled' := fresh "settled'" in
  let E := fresh "E" in let Hs := fresh "Hs" in let Hl := fresh "Hl" in let Hm := fresh "Hm" in
  destruct H as (db' & r & ? & ? & settled' & E & Hl & Hm & Hs); inversion Hs; subst; unfold run_call in E;
  unfold mbind, dbm_bind in *;
  match type of E with context [match ?m ?db with _ => _ end] =>
    destruct (m db) as [? [?| |]]; [|done..]; injection E; clear E; intros; subst
  end;
  eexists db', _, _, settled'; split_and!; [reflexivity| |exact Hl];
  rewrite ?fold_left_app, ?app_nil_r, <- Hm.

Section CliLemmas.
#[local] Set Default Proof Using "All".
Context `{PosixOk} `{PriorityQueueOk}.

(** A line with the call of its command. *)
Lemma run_line_ok s hist settled line coins :
  lives s hist settled → line_durable line coins s →
  ∃ db' o hist' settled', run_line line coins s.1 = (db', Ok o) ∧
    cli_spec (fold_left spec_write hist ∅) (parse_words (words line)) o (fold_left spec_write hist' ∅) ∧
    lives (db', s.2) hist' settled'.
Proof.
  intros Hl Hsafe. unfold run_line, line_durable in *.
  pose proof (λ c, lives_client s hist settled c Hl) as Hcall.
  assert (lives (s.1, s.2) hist settled) as Hl' by (by destruct s).
  destruct (parse_words (words line)) as [| |out|k v|k|k|k1 k2|]; cbn [command_call] in Hsafe.
  - exists s.1, (Some []), hist, settled. by split_and!; [|constructor|].
  - exists s.1, None, hist, settled. by split_and!; [|constructor|].
  - exists s.1, (Some out), hist, settled. by split_and!; [|constructor|].
  - call_line (Hcall _ (proj1 Hsafe)) hist. apply cli_put.
  - call_line (Hcall _ (proj1 Hsafe)) hist. apply cli_get.
  - call_line (Hcall _ (proj1 Hsafe)) hist. apply cli_del.
  - destruct (Hcall _ (proj1 Hsafe)) as (db' & r & sp & sp' & settled' & E & Hl1 & Hm & Hs). inversion Hs; subst.
    unfold run_call in E. unfold mbind, dbm_bind in *. destruct (scan k1 k2 s.1) as [db1 [l'| |]]; [|done..].
    injection E as -> ->. destruct Hsafe as [_ Hsafe]. cbn [snd] in Hsafe. unfold liftr, count_pairs.
    rewrite (proj2 (Z.ltb_lt _ _)) by done. eexists db', _, _, settled'.
    split_and!; [reflexivity| |exact Hl1]. cbn [call_writes]. rewrite app_nil_r, <- Hm. by apply cli_scan.
  - call_line (Hcall _ (proj1 Hsafe)) hist. apply cli_flush.
Qed.

Lemma repl_ok lines env out s hist settled :
  lives s hist settled → session_durable lines env s →
  ∃ s' o hist' settled', repl lines env out s = (s', out ++ o, Ok tt) ∧ close_durable s' ∧
    cli_session (fold_left spec_write hist ∅) lines o (fold_left spec_write hist' ∅) ∧ lives s' hist' settled'.
Proof.
  revert env out s hist settled. induction lines as [|line lines IH]; intros env out s hist settled Hl [Hd Hsafe];
    destruct (lives_steps _ s hist settled Hl Hd) as (s1 & os & E & Hl1); cbn [repl]; unfold thread_steps in *;
    rewrite E in Hsafe |- *; cbn [fst] in Hsafe.
  - exists s1, [], hist, settled. split_and!; [by rewrite app_nil_r|done|constructor|done].
  - destruct Hsafe as [Hline Hsafe].
    destruct (run_line_ok s1 hist settled line _ Hl1 Hline) as (db1 & o & hist1 & settled1 & E1 & Hs & Hl2).
    rewrite E1 in Hsafe |- *. cbn [fst snd] in Hsafe. destruct o as [o|].
    + destruct (IH (tail env) (out ++ o) (db1, s1.2) hist1 settled1 Hl2 Hsafe)
        as (s' & o' & hist' & settled' & E' & Hc & Hs' & Hl').
      exists s', (o ++ o'), hist', settled'. split_and!; [by rewrite E', (assoc_L (++))|done|by econstructor|done].
    + exists (db1, s1.2), [], hist1, settled1. split_and!; [by rewrite app_nil_r|done| |done].
      inversion Hs as [|Hc Em| | | | | |]. apply session_exit. rewrite <- Hc. constructor.
Qed.

End CliLemmas.

#[export] Instance line_durable_dec `{Posix} `{PriorityQueue} line coins s : Decision (line_durable line coins s).
Proof.
  unfold line_durable, action_durable. destruct (command_call _ _) as [c|]; [|apply _].
  destruct c; try apply _. destruct (scan _ _ s.1).2; apply _.
Defined.

#[export] Instance session_durable_dec `{Posix} `{PriorityQueue} lines env s :
  Decision (session_durable lines env s).
Proof.
  revert env s. induction lines as [|l lines IH]; intros env s; cbn [session_durable]; [apply _|].
  destruct (run_line _ _ _).2 as [[?|]| |]; apply _.
Defined.

(** * Properties *)

(** C34. A session of the command line on a fresh directory, or on one that an
    earlier session or program has left, with the compaction thread at work
    between the commands: the program exits with status 0, what it prints for
    each line is what the map of the commands so far says, the session ends with
    the input or at the first [exit], and the directory it leaves holds the map
    at the end.  The calls keep to the conditions of use of the store. *)
Theorem session_output `{PosixOk} `{PriorityQueueOk} (prog dir input : bytes) (d : Disk)
    (coins : list (list bool)) (env : list (nat * list bool)) (m : gmap bytes bytes) (Hd : stored_on d m)
    (Hsafe : ∀ db, db_open d default_options coins = Ok db → session_durable (getlines input) env (db, Waiting)) :
  ∃ out d' m', keystone_main [prog; dir] d coins env input = Ok (0, out, d') ∧
    cli_session m (getlines input) out m' ∧ stored_on d' m'.
Proof.
  destruct (stored_opens d m default_options coins Hd) as (db & hist & settled & E & Hl & ->); [simpl; lia|].
  destruct (repl_ok (getlines input) env [] _ _ _ Hl (Hsafe db E)) as (s & out & hist' & settled' & Er & Hc & Hs & Hl').
  destruct (lives_closed s hist' settled' Hl' Hc) as (s' & Ec & Hst).
  exists out, (disk_of s'.1), (fold_left spec_write hist' ∅). split_and!; [|done|done].
  unfold keystone_main. cbn [length Nat.eqb negb]. rewrite E. cbn [mbind result_bind]. by rewrite Er, Ec.
Qed.

(** A command line can be written down and read back: the words of a put are
    its key and value whatever white space stands between them, if they are
    not empty and contain none. *)
Theorem put_line_parsed (key value : bytes) (b1 b2 : byte) (Hk : is_word key) (Hv : is_word value)
    (Hb1 : is_space b1 = true) (Hb2 : is_space b2 = true) :
  parse_words (words (bs "put" ++ b1 :: key ++ b2 :: value)) = CmdPut key value.
Proof.
  rewrite words_spec by (done || by split; [|repeat constructor]).
  rewrite words_spec by done. by rewrite words_last.
Qed.

(** What follows the words a command takes is dropped without an error, so a
    value ends at its first white space. *)
Theorem put_value_cut (key value rest : bytes) (b : byte) (Hk : is_word key) (Hv : is_word value)
    (Hb : is_space b = true) :
  parse_words (words (bs "put " ++ key ++ bs " " ++ value ++ b :: rest)) = CmdPut key value.
Proof.
  change (bs "put " ++ key ++ bs " " ++ value ++ b :: rest)
    with (bs "put" ++ x20%byte :: key ++ x20%byte :: value ++ b :: rest).
  rewrite words_spec by (done || by split; [|repeat constructor]).
  rewrite words_spec by done. by rewrite words_spec.
Qed.

(** ** Witnesses *)

(** Four tables, which the thread starts to merge while the session goes on; the
    merge is under way at the end. *)
Definition ex_tables_input : bytes :=
  mjoin (println <$> [bs "put a 1"; bs "flush"; bs "put b 2"; bs "flush"; bs "put c 3"; bs "flush"; bs "put a 4";
    bs "flush"; bs "get a"; bs " del  b now"; bs "scan a z"; bs ""; bs "get"; bs "frob"; bs "quit"; bs "get a"]).

Definition ex_thread : list (nat * list bool) :=
  replicate 8 (0%nat, []) ++ [(2, []); (1, [true]); (2, [])]%nat.

Definition safe_check (d : Disk) (env : list (nat * list bool)) (input : bytes) : bool :=
  match db_open (H := ex_posix) d default_options [] with
  | Ok db => bool_decide (session_durable (H := ex_posix) (H0 := first_pq) (getlines input) env (db, Waiting))
  | _ => true
  end.

Lemma safe_checked d env input :
  safe_check d env input = true →
  ∀ db, db_open (H := ex_posix) d default_options [] = Ok db →
    session_durable (H := ex_posix) (H0 := first_pq) (getlines input) env (db, Waiting).
Proof. unfold safe_check. intros Hc db E. rewrite E in Hc. by apply bool_decide_eq_true in Hc. Qed.

Lemma session_output_witness :
  ∃ out d m, keystone_main (H := ex_posix) (H0 := first_pq) [bs "keystone"; bs "data"]
      (mkDisk None None ∅) [] ex_thread ex_tables_input = Ok (0, out, d) ∧
    cli_session ∅ (getlines ex_tables_input) out m ∧ stored_on (H := ex_posix) (H0 := first_pq) d m ∧
    out = mjoin (println <$> (replicate 8 (bs "OK") ++ [bs "4"; bs "OK"; bs "a = 4"; bs "c = 3"; bs "(2 results)";
      bs "ERR: get <key>"; bs "ERR: unknown command 'frob'. Type 'help'."])).
Proof.
  destruct (session_output (H := ex_posix) (H1 := first_pq) (bs "keystone") (bs "data") ex_tables_input
    (mkDisk None None ∅) [] ex_thread ∅) as (out & d & m & E & Hs & Hd).
  - left. by split.
  - apply safe_checked. vm_compute. reflexivity.
  - exists out, d, m. split_and!; [exact E|exact Hs|exact Hd|].
    assert (out = match keystone_main (H := ex_posix) (H0 := first_pq) [bs "keystone"; bs "data"]
      (mkDisk None None ∅) [] ex_thread ex_tables_input with Ok (_, o, _) => o | _ => [] end) as -> by (by rewrite E).
    vm_compute. reflexivity.
Defined.

Lemma ex_word : is_word (bs "key") ∧ is_word (bs "v").
Proof. split; (split; [done|repeat constructor]). Qed.

Lemma put_line_parsed_witness :
  parse_words (words (bs "put" ++ x09%byte :: bs "key" ++ x20%byte :: bs "v")) = CmdPut (bs "key") (bs "v").
Proof. by apply (put_line_parsed (bs "key") (bs "v") x09%byte x20%byte); try apply ex_word. Defined.

Lemma put_value_cut_witness :
  parse_words (words (bs "put " ++ bs "key" ++ bs " " ++ bs "v" ++ x20%byte :: bs "w")) =
  CmdPut (bs "key") (bs "v").
Proof. by apply (put_value_cut (bs "key") (bs "v") (bs "w") x20%byte); try apply ex_word. Defined.
