(* ===== verification/Torture.v ===== *)
(** The crash test: src/tools/torture.cpp.

    [torture write] puts numbered keys until it is killed; [torture verify]
    opens what is left and checks that it is a prefix of the numbered keys, each
    with its value.  The theorems say that the check passes on every state of
    the store that the other files allow, so a failure of the test would be a
    failure of the system under the store. *)

From stdpp Require Import gmultiset.
From S2P Require Import Prelude Text Coding Wal Entry Manifest Memtable BlockCache SSTableWriter SSTable MergeIterator Version Compaction Levels Db Recovery Crash.
Local Open Scope Z_scope.

(** * Definitions *)

(** ** Keys and values *)

(** [std::snprintf(key, sizeof(key), "key%08d", i)] *)
Definition key_of (i : Z) : bytes := bs "key" ++ padded 8 i.

(** [std::string("val:") + key] *)
Definition value_of (i : Z) : bytes := bs "val:" ++ key_of i.

(** The options of the writing phase. *)
Definition torture_options : Options := {|
  opt_sync := opt_sync default_options; flush_threshold_bytes := 64 * 1024;
  compaction_trigger := compaction_trigger default_options;
  block_cache_bytes := block_cache_bytes default_options;
  target_file_size := target_file_size default_options;
  l1_max_bytes := l1_max_bytes default_options;
  level_size_multiplier := level_size_multiplier default_options;
|}.

Section TortureOps.
Context `{Posix}.

(** [++i] on an [int]. *)
Definition next_int (i : Z) : dbm Z := liftr (if i + 1 <? 2 ^ 31 then Ok (i + 1) else Undefined).

(** ** Writing *)

(** The first key that is not there; [None] when the fuel runs out. *)
Fixpoint find_start (fuel : nat) (start : Z) : dbm (option Z) :=
  match fuel with
  | O => mret None
  | S fuel' =>
      val ← get (key_of start);
      match val with
      | None => mret (Some start)
      | Some _ => next ← next_int start; find_start fuel' next
      end
  end.

(** The first [count] rounds of the loop that has no end. *)
Fixpoint put_keys (count : nat) (i : Z) (coins : list (list bool)) : dbm Z :=
  match count with
  | O => mret i
  | S count' =>
      _ ← write_batch [put_request (key_of i) (value_of i)] [default [] (head coins)];
      next ← next_int i;
      put_keys count' next (tail coins)
  end.

Definition torture_write (fuel count : nat) (coins : list (list bool)) : dbm (option Z) :=
  start ← find_start fuel 0;
  match start with
  | None => mret None
  | Some i => last ← put_keys count i coins; mret (Some last)
  end.

(** ** Verifying *)

(** What the program prints, and its exit status. *)
Inductive verdict : Type :=
| Corruption (i : Z)
| Hole (i prefix_len : Z)
| Prefix (prefix_len : Z).

Definition exit_status (v : verdict) : Z := match v with Prefix _ => 0 | _ => 1 end.

Definition standard_output (v : verdict) : bytes :=
  match v with Prefix n => decimal n ++ [x0a%byte] | _ => [] end.

(** The length of the prefix, or the first key with a wrong value. *)
Fixpoint check_prefix (fuel : nat) (prefix_len : Z) : dbm (option (Z + verdict)) :=
  match fuel with
  | O => mret None
  | S fuel' =>
      val ← get (key_of prefix_len);
      match val with
      | None => mret (Some (inl prefix_len))
      | Some v =>
          if bytes_eqb v (value_of prefix_len)
          then next ← next_int prefix_len; check_prefix fuel' next
          else mret (Some (inr (Corruption prefix_len)))
      end
  end.

(** The loop over [i] from [prefix_len + 1]. *)
Fixpoint check_holes (count : nat) (i prefix_len : Z) : dbm verdict :=
  match count with
  | O => mret (Prefix prefix_len)
  | S count' =>
      val ← get (key_of i);
      match val with
      | Some _ => mret (Hole i prefix_len)
      | None => next ← next_int i; check_holes count' next prefix_len
      end
  end.

Definition torture_verify (fuel : nat) : dbm (option verdict) :=
  r ← check_prefix fuel 0;
  match r with
  | None => mret None
  | Some (inr v) => mret (Some v)
  | Some (inl prefix_len) =>
      first ← next_int prefix_len;
      v ← check_holes 999 first prefix_len;
      mret (Some v)
  end.

(** ** The program *)

(** [main]: the exit status and the standard output, [None] while it runs.
    [dir] names the directory that holds [d]; writing goes on for [count]
    rounds. *)
Definition torture_main (fuel count : nat) (argv : list bytes) (d : Disk) (coins : list (list bool))
  : result (option (Z * bytes)) :=
  match argv with
  | _ :: cmd :: dir :: _ =>
      if bytes_eqb cmd (bs "write") then
        db ← db_open d torture_options [];
        _ ← (torture_write fuel count coins db).2;
        Ok None
      else if bytes_eqb cmd (bs "verify") then
        db ← db_open d default_options [];
        r ← (torture_verify fuel db).2;
        Ok (v ← r; Some (exit_status v, standard_output v))
      else Ok (Some (1, []))
  | _ => Ok (Some (1, []))
  end.

End TortureOps.

(** ** What is to be found *)

(** The first [n] keys. *)
Fixpoint torture_map (n : nat) : gmap bytes bytes :=
  match n with
  | O => ∅
  | S n' => <[key_of (Z.of_nat n') := value_of (Z.of_nat n')]> (torture_map n')
  end.

(** * Lemmas *)

(** ** The keys *)

Lemma key_of_inj i j : 0 ≤ i < 2 ^ 31 → 0 ≤ j < 2 ^ 31 → key_of i = key_of j → i = j.
Proof. intros Hi Hj E%(inj (app (bs "key"))). by eapply padded_inj. Qed.

Lemma torture_map_lookup n i :
  Z.of_nat n < 2 ^ 31 → 0 ≤ i < 2 ^ 31 →
  torture_map n !! key_of i = if i <? Z.of_nat n then Some (value_of i) else None.
Proof.
  intros Hn Hi. induction n as [|n IH]; cbn [torture_map].
  { rewrite lookup_empty, (proj2 (Z.ltb_ge _ _)); [done|lia]. }
  destruct (decide (i = Z.of_nat n)) as [->|Hne].
  - rewrite lookup_insert_eq, (proj2 (Z.ltb_lt _ _)); [done|lia].
  - rewrite lookup_insert_ne.
    + rewrite IH by lia. destruct (Z.ltb_spec i (Z.of_nat n)), (Z.ltb_spec i (Z.of_nat (S n))); done || lia.
    + intros E. apply Hne. symmetry. apply key_of_inj; [lia|lia|done].
Qed.

Lemma torture_request_ok i : 0 ≤ i → request_ok (put_request (key_of i) (value_of i)).
Proof.
  assert (blen (padded 8 i) ≤ 10) as Hd by (pose proof (padded_length 8 i); unfold blen; lia).
  intros _. unfold request_ok, put_request, value_of, key_of. cbn [q_key q_value q_type].
  rewrite !blen_app. change (blen (bs "key")) with 3. change (blen (bs "val:")) with 4.
  unfold kMaxLen. split_and!; [lia|lia|by left].
Qed.

(** ** Running the phases *)

Section TortureLemmas.
#[local] Set Default Proof Using "All".
Context `{PosixOk} `{PriorityQueueOk}.

Lemma get_refined db sp k :
  refined db sp → ∃ db', get k db = (db', Ok (sp_map sp !! k)) ∧ refined db' sp.
Proof.
  intros Href. destruct (call_refined db sp (CallGet k) Href I) as (db' & r & sp' & E & Hs & Href').
  inversion Hs; subst. exists db'. split; [|done]. unfold run_call in E. unfold mbind, dbm_bind in E.
  destruct (get k db) as [db1 [v| |]]; [|done..]. by injection E as -> ->.
Qed.

Lemma next_int_ok i db : i + 1 < 2 ^ 31 → next_int i db = (db, Ok (i + 1)).
Proof using Type. intros Hi. unfold next_int, liftr. by rewrite (proj2 (Z.ltb_lt _ _)). Qed.

Lemma find_start_ok n fuel i db sp :
  refined db sp → sp_map sp = torture_map n → Z.of_nat n + 1 < 2 ^ 31 →
  0 ≤ i ≤ Z.of_nat n → (n - Z.to_nat i < fuel)%nat →
  ∃ db', find_start fuel i db = (db', Ok (Some (Z.of_nat n))) ∧ refined db' sp.
Proof.
  intros Href Em Hn. revert i db Href. induction fuel as [|fuel IH]; intros i db Href Hi Hf; [lia|].
  cbn [find_start]. destruct (get_refined db sp (key_of i) Href) as (db1 & E & Href1).
  erewrite dbm_bind_ok by exact E. rewrite Em, torture_map_lookup by lia.
  destruct (Z.ltb_spec i (Z.of_nat n)).
  - erewrite dbm_bind_ok by (apply next_int_ok; lia). apply IH; [done|lia|lia].
  - assert (i = Z.of_nat n) as -> by lia. by exists db1.
Qed.

Lemma check_prefix_ok n fuel i db sp :
  refined db sp → sp_map sp = torture_map n → Z.of_nat n + 1 < 2 ^ 31 →
  0 ≤ i ≤ Z.of_nat n → (n - Z.to_nat i < fuel)%nat →
  ∃ db', check_prefix fuel i db = (db', Ok (Some (inl (Z.of_nat n)))) ∧ refined db' sp.
Proof.
  intros Href Em Hn. revert i db Href. induction fuel as [|fuel IH]; intros i db Href Hi Hf; [lia|].
  cbn [check_prefix]. destruct (get_refined db sp (key_of i) Href) as (db1 & E & Href1).
  erewrite dbm_bind_ok by exact E. rewrite Em, torture_map_lookup by lia.
  destruct (Z.ltb_spec i (Z.of_nat n)).
  - rewrite bytes_eqb_refl. erewrite dbm_bind_ok by (apply next_int_ok; lia). apply IH; [done|lia|lia].
  - assert (i = Z.of_nat n) as -> by lia. by exists db1.
Qed.

Lemma check_holes_ok n count i db sp :
  refined db sp → sp_map sp = torture_map n → Z.of_nat n ≤ i → i + Z.of_nat count < 2 ^ 31 →
  ∃ db', check_holes count i (Z.of_nat n) db = (db', Ok (Prefix (Z.of_nat n))) ∧ refined db' sp.
Proof.
  intros Href Em. revert i db Href. induction count as [|count IH]; intros i db Href Hi Hc; [by exists db|].
  cbn [check_holes]. destruct (get_refined db sp (key_of i) Href) as (db1 & E & Href1).
  erewrite dbm_bind_ok by exact E. rewrite Em, torture_map_lookup, (proj2 (Z.ltb_ge _ _)) by lia. cbv iota.
  erewrite dbm_bind_ok by (apply next_int_ok; lia). apply IH; [done|lia|lia].
Qed.

Lemma verify_ok n fuel db sp :
  refined db sp → sp_map sp = torture_map n → Z.of_nat n + 1001 < 2 ^ 31 → (n < fuel)%nat →
  ∃ db', torture_verify fuel db = (db', Ok (Some (Prefix (Z.of_nat n)))).
Proof.
  intros Href Em Hn Hf. unfold torture_verify.
  destruct (check_prefix_ok n fuel 0 db sp Href Em) as (db1 & E1 & Href1); [lia|lia|lia|].
  erewrite dbm_bind_ok by exact E1. cbv beta iota. erewrite dbm_bind_ok by (apply next_int_ok; lia).
  destruct (check_holes_ok n 999 (Z.of_nat n + 1) db1 sp Href1 Em) as (db2 & E2 & _); [lia|lia|].
  erewrite dbm_bind_ok by exact E2. by exists db2.
Qed.

(** The puts of the writing phase, each within the conditions of use. *)
Fixpoint puts_safe (count : nat) (i : Z) (coins : list (list bool)) (db : DB) : Prop :=
  match count with
  | O => True
  | S count' =>
      let c := CallWrite [put_request (key_of i) (value_of i)] [default [] (head coins)] in
      call_safe db c ∧ puts_safe count' (i + 1) (tail coins) (run_call c db).1
  end.

Lemma put_keys_ok count n coins db sp :
  refined db sp → sp_map sp = torture_map n → puts_safe count (Z.of_nat n) coins db →
  Z.of_nat n + Z.of_nat count < 2 ^ 31 →
  ∃ db' sp', put_keys count (Z.of_nat n) coins db = (db', Ok (Z.of_nat (n + count))) ∧
    refined db' sp' ∧ sp_map sp' = torture_map (n + count).
Proof.
  revert n coins db sp. induction count as [|count IH]; intros n coins db sp Href Em Hsafe Hn.
  { exists db, sp. by rewrite Nat.add_0_r. }
  destruct Hsafe as [Hc Hsafe]. cbn [put_keys].
  destruct (call_refined db sp _ Href Hc) as (db1 & r & sp1 & E & Hs & Href1). rewrite E in Hsafe.
  inversion Hs; subst. unfold run_call in E. unfold mbind at 1, dbm_bind in E.
  destruct (write_batch _ _ db) as [db2 [[]| |]] eqn:Ew; [|done..]. injection E as ->.
  erewrite dbm_bind_ok by exact Ew. erewrite dbm_bind_ok by (apply next_int_ok; lia).
  replace (Z.of_nat n + 1) with (Z.of_nat (S n)) in * by lia. replace (n + S count)%nat with (S n + count)%nat by lia.
  eapply IH; [exact Href1| |exact Hsafe|lia]. cbn [sp_map fold_left]. rewrite Em. done.
Qed.

Lemma main_verifies n fuel count prog dir d coins db sp :
  db_open d default_options [] = Ok db → refined db sp → sp_map sp = torture_map n →
  Z.of_nat n + 1001 < 2 ^ 31 → (n < fuel)%nat →
  torture_main fuel count [prog; bs "verify"; dir] d coins = Ok (Some (0, decimal (Z.of_nat n) ++ [x0a%byte])).
Proof.
  intros E Href Em Hn Hf. destruct (verify_ok n fuel db sp Href Em) as [db' Ev]; [lia..|].
  unfold torture_main. change (bytes_eqb (bs "verify") (bs "write")) with false.
  change (bytes_eqb (bs "verify") (bs "verify")) with true. cbv iota. rewrite E.
  cbn [mbind result_bind]. by rewrite Ev.
Qed.

End TortureLemmas.

(** * Properties *)

(** The writing phase goes on where the keys in the store end: from a store
    with the first [n] keys it finds [n], and after [count] rounds of its loop
    the store has the first [n + count] keys and nothing else. *)
Theorem torture_write_extends `{PosixOk} `{PriorityQueueOk} (db : DB) (sp : Spec) (n count fuel : nat)
    (coins : list (list bool)) (Href : refined db sp) (Hmap : sp_map sp = torture_map n)
    (Hfuel : (n < fuel)%nat) (Hint : Z.of_nat n + Z.of_nat count + 1 < 2 ^ 31)
    (Hsafe : puts_safe count (Z.of_nat n) coins (find_start fuel 0 db).1) :
  ∃ db' sp', torture_write fuel count coins db = (db', Ok (Some (Z.of_nat (n + count)))) ∧
    refined db' sp' ∧ sp_map sp' = torture_map (n + count).
Proof.
  destruct (find_start_ok n fuel 0 db sp Href Hmap) as (db1 & E1 & Href1); [lia|lia|lia|].
  rewrite E1 in Hsafe. cbn [fst] in Hsafe.
  destruct (put_keys_ok count n coins db1 sp Href1 Hmap Hsafe) as (db2 & sp2 & E2 & Href2 & Hm2); [lia|].
  exists db2, sp2. split; [|done]. unfold torture_write. erewrite dbm_bind_ok by exact E1. cbv beta iota.
  by erewrite dbm_bind_ok by exact E2.
Qed.

(** C11. The crash test passes. The process, or the machine, goes down at any
    point of the put of key [n], in the commit or in the flush the small
    threshold of [torture] makes it run, with the first [n] keys on the medium;
    whatever the system did with the bytes of the log, the table and the
    manifest, as long as the syncs it reports are real, [torture verify] on what
    is left exits with 0 and prints [n] or [n + 1]: there is no corruption and no
    hole. *)
Theorem torture_verifies_after_crash (sys : Posix) `{PosixOk} `{PriorityQueueOk} (db : DB) (sp : Spec)
    (n fuel : nat) (batch : list WriteRequest) (coins : list (list bool)) (d : Disk) (Hsync : syncs sys)
    (Href : durably_refined db sp) (Hopts : opts_ db = torture_options) (Hmap : sp_map sp = torture_map n)
    (Hbatch : batch = [put_request (key_of (Z.of_nat n)) (value_of (Z.of_nat n))])
    (Hsafe : call_safe db (CallWrite batch coins)) (Hfit : manifest_fits (write_batch batch coins db).1)
    (Hsize : batch_fits db batch) (Hcrash : crash_disk (@write_batch sys batch coins db).1 d)
    (Hint : Z.of_nat n + 1002 < 2 ^ 31) (Hfuel : (S n < fuel)%nat) (prog dir : bytes) (count : nat) :
  ∃ k, torture_main fuel count [prog; bs "verify"; dir] d [] = Ok (Some (0, decimal (Z.of_nat k) ++ [x0a%byte])) ∧
    (k = n ∨ k = S n).
Proof.
  destruct (write_crash sys Hsync db sp batch coins d default_options []) as (m & db' & E & Href'); try done.
  - by rewrite Hopts.
  - rewrite Hbatch in Href'. destruct m as [|m].
    + exists n. split; [|by left]. eapply main_verifies; [exact E|exact Href'|exact Hmap|lia|lia].
    + exists (S n). split; [|by right]. eapply main_verifies; [exact E|exact Href'| |lia|lia].
      cbn [take fold_left sp_map]. by rewrite take_nil, Hmap.
Qed.

(** ** Witnesses *)

#[export] Instance puts_safe_dec `{Posix} `{PriorityQueue} count i coins db : Decision (puts_safe count i coins db).
Proof. revert i coins db. induction count as [|count IH]; intros i coins db; cbn; apply _. Defined.

Lemma torture_options_ok : 0 ≤ block_cache_bytes torture_options < 2 ^ 63.
Proof. simpl. lia. Qed.

Lemma torture_write_extends_witness :
  ∃ db', torture_write (H := ex_posix) 3 2 [] (DB_new torture_options) = (db', Ok (Some 2)).
Proof.
  destruct (torture_write_extends (H := ex_posix) (H1 := first_pq) (DB_new torture_options) (mkSpec ∅ []) 0 2 3 [])
    as (db' & sp' & E & _).
  - apply DB_new_refined, torture_options_ok.
  - reflexivity.
  - lia.
  - lia.
  - apply (bool_decide_unpack _). vm_compute. exact I.
  - exists db'. exact E.
Defined.

(** The first key is put, and the disk is full when the second one is. *)
Definition ex_put (i : Z) : list WriteRequest := [put_request (key_of i) (value_of i)].

Definition ex_running : DB := (write_batch (H := ex_posix) (ex_put 0) [] (DB_new torture_options)).1.

Definition ex_killed : DB := (@write_batch (full_disk 47) (ex_put 1) [] ex_running).1.

Lemma ex_running_durable : durably_refined (H := ex_posix) ex_running (mkSpec (torture_map 1) []).
Proof.
  destruct (write_durably_refined (H := ex_posix) (DB_new torture_options) (mkSpec ∅ []) (ex_put 0) [])
    as [_ Hd].
  - apply DB_new_durably, torture_options_ok.
  - reflexivity.
  - apply (bool_decide_unpack _). vm_compute. exact I.
  - apply (bool_decide_unpack _). vm_compute. exact I.
  - exact Hd.
Qed.

Lemma ex_running_options : opts_ ex_running = torture_options.
Proof. vm_compute. reflexivity. Qed.

Lemma ex_killed_crash : crash_disk ex_killed (all_written ex_killed).
Proof.
  apply all_written_crash; [vm_compute; lia..|]. apply (bool_decide_unpack _). vm_compute. exact I.
Qed.

Lemma torture_verifies_after_crash_witness :
  ∃ k, torture_main (H := ex_posix) 3 0 [bs "torture"; bs "verify"; bs "data"] (all_written ex_killed) [] =
    Ok (Some (0, decimal (Z.of_nat k) ++ [x0a%byte])) ∧ (k = 1 ∨ k = 2)%nat.
Proof.
  apply (torture_verifies_after_crash (H := ex_posix) (H1 := first_pq) (full_disk 47) ex_running
    (mkSpec (torture_map 1) []) 1 3 (ex_put 1) [] (all_written ex_killed)).
  - exact (full_disk_syncs 47).
  - exact ex_running_durable.
  - exact ex_running_options.
  - reflexivity.
  - reflexivity.
  - apply (bool_decide_unpack _). vm_compute. exact I.
  - apply (bool_decide_unpack _). vm_compute. exact I.
  - split; apply (bool_decide_unpack _); vm_compute; exact I.
  - exact ex_killed_crash.
  - reflexivity.
  - lia.
Defined.
