(* ===== verification/Engine.v ===== *)
(** The engines of the benchmark: [Engine], [KeystoneEngine] and [SqliteEngine]
    of src/bench/bench.cpp.

    [Engine] is the interface, with the constructor and the destructor the
    benchmark uses beside the virtual functions, and [EngineOk] is what the
    workloads rely on: the engine is a map that survives being closed and
    opened.  [KeystoneEngine] meets it by the theorems on the store, with the
    compaction thread at work between the calls.  SQLite is not part of the
    sources: its C interface is a class of operations, and its documented
    behaviour another class that the laws of [SqliteEngine] are derived from. *)

From stdpp Require Import gmultiset sorting.
From S2P Require Import Prelude Text Coding Wal Entry Manifest Memtable BlockCache SSTableWriter SSTable MergeIterator Version Compaction Levels Db Recovery Background Worker Round Store.
Local Open Scope Z_scope.

(** * Definitions *)

(** ** Computations on a state *)

Definition stm (S A : Type) : Type := S → S * result A.

#[export] Instance stm_ret S : MRet (stm S) := λ A a s, (s, Ok a).
#[export] Instance stm_bind S : MBind (stm S) := λ A B f m s,
  match m s with
  | (s', Ok a) => f a s'
  | (s', Throw msg) => (s', Throw msg)
  | (s', Undefined) => (s', Undefined)
  end.

Definition raise {S A} (r : result A) : stm S A := λ s, (s, r).

(** ** The interface *)

Class Engine := {
  engine : Type;
  (** what the directory of a closed engine holds *)
  engine_dir : Type;
  empty_dir : engine_dir;
  engine_open : engine_dir → bool → result engine;
  engine_close : engine → result engine_dir;
  engine_put : bytes → bytes → stm engine unit;
  engine_get : bytes → stm engine (option bytes);
  (** the pairs that are passed to the callback *)
  engine_scan : bytes → bytes → stm engine (list (bytes * bytes));
  engine_name : bytes;
}.

(** The operations as values. *)
Inductive engine_op : Type :=
| OpPut (key value : bytes)
| OpGet (key : bytes)
| OpScan (start stop : bytes)
| OpReopen (durable : bool).

(** What an engine promises.  [ready] are its conditions of use. *)
Class EngineOk `{Engine} := {
  holds : engine → gmap bytes bytes → Prop;
  stored : engine_dir → gmap bytes bytes → Prop;
  ready : engine → engine_op → Prop;
  empty_stored : stored empty_dir ∅;
  open_holds d m durable : stored d m → ∃ e, engine_open d durable = Ok e ∧ holds e m;
  close_stored e m durable : holds e m → ready e (OpReopen durable) →
    ∃ d, engine_close e = Ok d ∧ stored d m;
  put_holds e m k v : holds e m → ready e (OpPut k v) →
    ∃ e', engine_put k v e = (e', Ok tt) ∧ holds e' (<[k := v]> m);
  get_holds e m k : holds e m → ready e (OpGet k) →
    ∃ e', engine_get k e = (e', Ok (m !! k)) ∧ holds e' m;
  scan_holds e m start stop : holds e m → ready e (OpScan start stop) →
    ∃ e' l, engine_scan start stop e = (e', Ok l) ∧ is_range m start stop l ∧ holds e' m;
}.

(** *** Sequences of operations *)

Inductive answer : Type :=
| Written
| Found (r : option bytes)
| Scanned (l : list (bytes * bytes))
| Reopened.

Section Ops.
Context `{Engine}.

Definition engine_call (op : engine_op) : stm engine answer :=
  match op with
  | OpPut k v => _ ← engine_put k v; mret Written
  | OpGet k => r ← engine_get k; mret (Found r)
  | OpScan start stop => l ← engine_scan start stop; mret (Scanned l)
  | OpReopen durable => λ e,
      match (d ← engine_close e; engine_open d durable) with
      | Ok e' => (e', Ok Reopened)
      | Throw msg => (e, Throw msg)
      | Undefined => (e, Undefined)
      end
  end.

Fixpoint engine_calls (ops : list engine_op) : stm engine (list answer) :=
  match ops with
  | [] => mret []
  | op :: ops' => a ← engine_call op; l ← engine_calls ops'; mret (a :: l)
  end.

(** An engine on a new directory. *)
Definition engine_run (durable : bool) (ops : list engine_op) : result (list answer) :=
  e ← engine_open empty_dir durable; (engine_calls ops e).2.

End Ops.

(** The conditions of use hold at each of the operations. *)
Fixpoint ops_ready `{EngineOk} (ops : list engine_op) (e : engine) : Prop :=
  match ops with
  | [] => True
  | op :: ops' => ready e op ∧ ops_ready ops' (engine_call op e).1
  end.

Definition run_ready `{EngineOk} (durable : bool) (ops : list engine_op) : Prop :=
  ∀ e, engine_open empty_dir durable = Ok e → ops_ready ops e.

(** ** KeystoneDB *)

(** The store with its thread, and what the thread and the coins of the skip
    list do at each of the calls to come: so many steps before the call. *)
Record KeystoneEngine := mkKeystoneEngine {
  ke_db : system;
  ke_env : list (nat * list bool);
}.

Definition keystone_options (durable : bool) : Options := {|
  opt_sync := if durable then EveryWrite else Batched;
  flush_threshold_bytes := flush_threshold_bytes default_options;
  compaction_trigger := compaction_trigger default_options;
  block_cache_bytes := block_cache_bytes default_options;
  target_file_size := target_file_size default_options;
  l1_max_bytes := l1_max_bytes default_options;
  level_size_multiplier := level_size_multiplier default_options;
|}.

Section Keystone.
Context `{Posix} `{PriorityQueue}.

Definition keystone_open (d : Disk * list (nat * list bool)) (durable : bool) : result KeystoneEngine :=
  db ← db_open d.1 (keystone_options durable) [];
  Ok (mkKeystoneEngine (db, Waiting) d.2).

(** [~DB], which lets the thread end its round. *)
Definition keystone_close (e : KeystoneEngine) : result (Disk * list (nat * list bool)) :=
  let r := db_close (ke_db e) in
  _ ← r.2; Ok (disk_of r.1.1, ke_env e).

(** What happens up to the return of the next call. *)
Definition call_actions (e : KeystoneEngine) (c : list bool → call) : list action :=
  let env := default (O, []) (head (ke_env e)) in
  replicate env.1 Background ++ [Client (c env.2)].

Definition keystone_call (c : list bool → call) : stm KeystoneEngine response := λ e,
  let r := run_schedule (call_actions e c) (ke_db e) in
  (mkKeystoneEngine r.1 (tail (ke_env e)),
   os ← r.2; match last os with Some (Returned res) => Ok res | _ => Undefined end).

Definition put_call (k v : bytes) (coins : list bool) : call := CallWrite [put_request k v] [coins].

Definition keystone_put (k v : bytes) : stm KeystoneEngine unit :=
  _ ← keystone_call (put_call k v); mret tt.

Definition keystone_get (k : bytes) : stm KeystoneEngine (option bytes) :=
  r ← keystone_call (λ _, CallGet k);
  raise (match r with Value v => Ok v | _ => Undefined end).

Definition keystone_scan (start stop : bytes) : stm KeystoneEngine (list (bytes * bytes)) :=
  r ← keystone_call (λ _, CallScan start stop);
  raise (match r with Pairs l => Ok l | _ => Undefined end).

(** [env] is what the thread and the coins do during the whole run. *)
Definition keystone_engine (env : list (nat * list bool)) : Engine := {|
  engine := KeystoneEngine; engine_dir := Disk * list (nat * list bool);
  empty_dir := (mkDisk None None ∅, env);
  engine_open := keystone_open; engine_close := keystone_close;
  engine_put := keystone_put; engine_get := keystone_get; engine_scan := keystone_scan;
  engine_name := bs "KeystoneDB";
|}.

Definition keystone_ready (e : KeystoneEngine) (op : engine_op) : Prop :=
  match op with
  | OpPut k v => schedule_durable (call_actions e (put_call k v)) (ke_db e)
  | OpGet k => schedule_durable (call_actions e (λ _, CallGet k)) (ke_db e)
  | OpScan start stop => schedule_durable (call_actions e (λ _, CallScan start stop)) (ke_db e)
  | OpReopen _ => close_durable (ke_db e)
  end.

(** The contents after the writes of a life. *)
Definition keystone_holds (e : KeystoneEngine) (m : gmap bytes bytes) : Prop :=
  ∃ hist settled, lives (ke_db e) hist settled ∧ m = fold_left spec_write hist ∅.

Definition keystone_stored (d : Disk * list (nat * list bool)) (m : gmap bytes bytes) : Prop :=
  stored_on d.1 m.

End Keystone.

(** ** SQLite *)

Definition SQLITE_OK : Z := 0.
Definition SQLITE_ROW : Z := 100.
Definition SQLITE_DONE : Z := 101.

(** The functions of the C interface that the engine calls.  A connection
    comes with its prepared statements, which have numbers; a column is what
    [sqlite3_column_blob] and [sqlite3_column_bytes] describe together, and
    [sqlite_rows] is a bound on the rows a query of the file can have. *)
Class Sqlite := {
  sqlite3 : Type;
  sqlite_file : Type;
  no_file : sqlite_file;
  sqlite3_open : sqlite_file → sqlite3 * Z;
  sqlite3_close : sqlite3 → sqlite_file;
  sqlite3_exec : bytes → sqlite3 → sqlite3 * Z;
  sqlite3_prepare_v2 : bytes → sqlite3 → sqlite3 * (Z * nat);
  sqlite3_finalize : nat → sqlite3 → sqlite3;
  sqlite3_bind_blob : nat → Z → bytes → sqlite3 → sqlite3 * Z;
  sqlite3_step : nat → sqlite3 → sqlite3 * Z;
  sqlite3_reset : nat → sqlite3 → sqlite3 * Z;
  sqlite3_column : nat → Z → sqlite3 → bytes;
  sqlite_rows : sqlite3 → nat;
}.

Record SqliteEngine `{Sqlite} := mkSqliteEngine {
  conn : sqlite3;
  stmt_put : nat;
  stmt_get : nat;
  stmt_scan : nat;
}.

Definition sql_put : bytes := bs "INSERT OR REPLACE INTO kv(key,value) VALUES(?,?)".
Definition sql_get : bytes := bs "SELECT value FROM kv WHERE key=?".
Definition sql_scan : bytes := bs "SELECT key,value FROM kv WHERE key BETWEEN ? AND ? ORDER BY key".
Definition sql_create : bytes := bs "CREATE TABLE IF NOT EXISTS kv(key BLOB PRIMARY KEY, value BLOB)".
Definition sql_journal : bytes := bs "PRAGMA journal_mode=WAL".
Definition sql_synchronous (durable : bool) : bytes :=
  if durable then bs "PRAGMA synchronous=FULL" else bs "PRAGMA synchronous=NORMAL".

Section SqliteOps.
Context `{Sqlite}.

Definition with_conn (e : SqliteEngine) (c : sqlite3) : SqliteEngine :=
  mkSqliteEngine _ c (stmt_put e) (stmt_get e) (stmt_scan e).

(** A call whose result code is looked at, or not. *)
Definition on_conn {A} (f : sqlite3 → sqlite3 * A) : stm SqliteEngine A := λ e,
  let r := f (conn e) in (with_conn e r.1, Ok r.2).

(** [exec] and [prepare] end the program when they fail. *)
Definition sqlite_exec (sql : bytes) (c : sqlite3) : result sqlite3 :=
  let r := sqlite3_exec sql c in
  if r.2 =? SQLITE_OK then Ok r.1 else Throw "sqlite3_exec failed".

Definition sqlite_prepare (sql : bytes) (c : sqlite3) : result (sqlite3 * nat) :=
  let r := sqlite3_prepare_v2 sql c in
  if r.2.1 =? SQLITE_OK then Ok (r.1, r.2.2) else Throw "sqlite3_prepare failed".

Definition sqlite_open (f : sqlite_file) (durable : bool) : result SqliteEngine :=
  let r := sqlite3_open f in
  if negb (r.2 =? SQLITE_OK) then Throw "sqlite3_open failed" else
  c1 ← sqlite_exec sql_journal r.1;
  c2 ← sqlite_exec (sql_synchronous durable) c1;
  c3 ← sqlite_exec sql_create c2;
  p1 ← sqlite_prepare sql_put c3;
  p2 ← sqlite_prepare sql_get p1.1;
  p3 ← sqlite_prepare sql_scan p2.1;
  Ok (mkSqliteEngine _ p3.1 p1.2 p2.2 p3.2).

Definition sqlite_close (e : SqliteEngine) : result sqlite_file :=
  Ok (sqlite3_close (sqlite3_finalize (stmt_scan e)
    (sqlite3_finalize (stmt_get e) (sqlite3_finalize (stmt_put e) (conn e))))).

Definition sqlite_put (k v : bytes) : stm SqliteEngine unit := λ e,
  (_ ← on_conn (sqlite3_bind_blob (stmt_put e) 1 k);
   _ ← on_conn (sqlite3_bind_blob (stmt_put e) 2 v);
   _ ← on_conn (sqlite3_step (stmt_put e));
   _ ← on_conn (sqlite3_reset (stmt_put e));
   mret tt) e.

Definition sqlite_get (k : bytes) : stm SqliteEngine (option bytes) := λ e,
  (_ ← on_conn (sqlite3_bind_blob (stmt_get e) 1 k);
   rc ← on_conn (sqlite3_step (stmt_get e));
   result ← (if rc =? SQLITE_ROW
             then on_conn (λ c, (c, Some (sqlite3_column (stmt_get e) 0 c))) else mret None);
   _ ← on_conn (sqlite3_reset (stmt_get e));
   mret result) e.

(** The loop over the rows. *)
Fixpoint scan_loop (fuel : nat) (stmt : nat) : stm SqliteEngine (list (bytes * bytes)) :=
  match fuel with
  | O => raise Undefined
  | S fuel' =>
      rc ← on_conn (sqlite3_step stmt);
      if rc =? SQLITE_ROW then
        p ← on_conn (λ c, (c, (sqlite3_column stmt 0 c, sqlite3_column stmt 1 c)));
        l ← scan_loop fuel' stmt;
        mret (p :: l)
      else mret []
  end.

Definition sqlite_scan (start stop : bytes) : stm SqliteEngine (list (bytes * bytes)) := λ e,
  (_ ← on_conn (sqlite3_bind_blob (stmt_scan e) 1 start);
   _ ← on_conn (sqlite3_bind_blob (stmt_scan e) 2 stop);
   l ← scan_loop (S (sqlite_rows (conn e))) (stmt_scan e);
   _ ← on_conn (sqlite3_reset (stmt_scan e));
   mret l) e.

Definition sqlite_engine : Engine := {|
  engine := SqliteEngine; engine_dir := sqlite_file; empty_dir := no_file;
  engine_open := sqlite_open; engine_close := sqlite_close;
  engine_put := sqlite_put; engine_get := sqlite_get; engine_scan := sqlite_scan;
  engine_name := bs "SQLite";
|}.

End SqliteOps.

(** *** The documented behaviour *)

(** A statement has not been started since it was prepared or reset, stands at
    a row with others to come, or has returned [SQLITE_DONE]. *)
Inductive stmt_run :=
| Idle
| AtRow (row : list bytes) (rest : list (list bytes))
| AtEnd.

(** The text of a statement and the parameters that have been bound; the others
    are NULL. *)
Record sqlite_stmt := mkStmt {
  st_sql : bytes;
  st_binds : gmap Z bytes;
  st_run : stmt_run;
}.

(** The table [kv], if there is one, and the statements of the connection. *)
Record sqlite_view := mkView {
  v_table : option (gmap bytes bytes);
  v_stmts : gmap nat sqlite_stmt;
}.

(** [BETWEEN ? AND ? ORDER BY key]; blobs are compared as [memcmp] does. *)
Definition pair_le (p q : bytes * bytes) : Prop := key_le p.1 q.1.

#[export] Instance pair_le_dec p q : Decision (pair_le p q).
Proof. unfold pair_le. apply _. Defined.

Definition between (start stop : bytes) (p : bytes * bytes) : bool :=
  bytes_leb start p.1 && bytes_leb p.1 stop.

Definition range_rows (m : gmap bytes bytes) (start stop : bytes) : list (bytes * bytes) :=
  List.filter (between start stop) (merge_sort pair_le (map_to_list m)).

(** The same operations on a map. *)
Definition map_call (op : engine_op) (m : gmap bytes bytes) : gmap bytes bytes * answer :=
  match op with
  | OpPut k v => (<[k := v]> m, Written)
  | OpGet k => (m, Found (m !! k))
  | OpScan start stop => (m, Scanned (range_rows m start stop))
  | OpReopen _ => (m, Reopened)
  end.

Fixpoint map_calls (ops : list engine_op) (m : gmap bytes bytes) : list answer :=
  match ops with
  | [] => []
  | op :: ops' => (map_call op m).2 :: map_calls ops' (map_call op m).1
  end.

(** The rows of a query. *)
Definition query (sql : bytes) (binds : Z → bytes) (m : gmap bytes bytes) : list (list bytes) :=
  if bool_decide (sql = sql_get) then
    match m !! binds 1 with Some v => [[v]] | None => [] end
  else if bool_decide (sql = sql_scan) then
    (λ p, [p.1; p.2]) <$> range_rows m (binds 1) (binds 2)
  else [].

(** What a statement does to the table when it is started. *)
Definition effect (sql : bytes) (binds : Z → bytes) (m : gmap bytes bytes) : gmap bytes bytes :=
  if bool_decide (sql = sql_put) then <[binds 1 := binds 2]> m else m.

Definition set_stmt (stmt : nat) (st : sqlite_stmt) (w : sqlite_view) : sqlite_view :=
  mkView (v_table w) (<[stmt := st]> (v_stmts w)).

(** [sqlite3_step] of a statement that is not at its end: start it, or go to the
    next row. *)
Definition view_step (stmt : nat) (st : sqlite_stmt) (m : gmap bytes bytes) (w : sqlite_view)
  : sqlite_view * Z :=
  let binds i := default [] (st_binds st !! i) in
  let '(m', rows) :=
    match st_run st with
    | Idle => (effect (st_sql st) binds m, query (st_sql st) binds m)
    | AtRow _ rest => (m, rest)
    | AtEnd => (m, [])
    end in
  let go run := mkView (Some m') (<[stmt := mkStmt (st_sql st) (st_binds st) run]> (v_stmts w)) in
  match rows with
  | [] => (go AtEnd, SQLITE_DONE)
  | r :: rest => (go (AtRow r rest), SQLITE_ROW)
  end.

Definition view_bind (stmt : nat) (i : Z) (v : bytes) (st : sqlite_stmt) (w : sqlite_view) : sqlite_view :=
  set_stmt stmt (mkStmt (st_sql st) (<[i := v]> (st_binds st)) (st_run st)) w.

(** A reset keeps the parameters. *)
Definition view_reset (stmt : nat) (st : sqlite_stmt) (w : sqlite_view) : sqlite_view :=
  set_stmt stmt (mkStmt (st_sql st) (st_binds st) Idle) w.

Definition view_prepare (stmt : nat) (sql : bytes) (w : sqlite_view) : sqlite_view :=
  set_stmt stmt (mkStmt sql ∅ Idle) w.

Definition view_finalize (stmt : nat) (w : sqlite_view) : sqlite_view :=
  mkView (v_table w) (delete stmt (v_stmts w)).

Definition view_exec (sql : bytes) (w : sqlite_view) : sqlite_view :=
  if bool_decide (sql = sql_create) then mkView (Some (default ∅ (v_table w))) (v_stmts w) else w.

Definition is_setup (sql : bytes) : Prop :=
  sql = sql_journal ∨ (∃ durable, sql = sql_synchronous durable) ∨ sql = sql_create.

(** The parameters of a statement.  An empty [string_view] can come with a null
    pointer, which [sqlite3_bind_blob] takes for NULL: as a value it reads as
    the empty string, as a key it is not equal to anything.  Two blobs of this
    length make a row below the limit of 10^9 bytes. *)
Definition parameters (sql : bytes) : Z := if bool_decide (sql = sql_get) then 1 else 2.

Definition bindable (sql : bytes) (i : Z) (v : bytes) : Prop :=
  blen v < 2 ^ 28 ∧ (v ≠ [] ∨ sql = sql_put ∧ i = 2).

(** All parameters have been bound. *)
Definition all_bound (st : sqlite_stmt) : Prop :=
  ∀ i, 1 ≤ i ≤ parameters (st_sql st) → is_Some (st_binds st !! i).

(** No other statement is in the middle of its rows or waits for its reset. *)
Definition others_idle (stmt : nat) (w : sqlite_view) : Prop :=
  ∀ n st, n ≠ stmt → v_stmts w !! n = Some st → st_run st = Idle.

(** A library that works and a file that is in order: calls that are made the
    way the documentation asks for succeed and do what it says.  Nothing is
    said of the others.  Parameters can be set when the statement is idle; a
    statement is stepped when the table is there, its parameters are bound, it
    has not come to its end, and no other statement is running; the columns of
    a row can be read while the statement stands at it; a connection is closed
    when its statements have been finalized. *)
Class SqliteOk `{Sqlite} := {
  view : sqlite3 → sqlite_view;
  file_table : sqlite_file → option (gmap bytes bytes);
  no_file_table : file_table no_file = None;
  open_ok f : (sqlite3_open f).2 = SQLITE_OK ∧ view (sqlite3_open f).1 = mkView (file_table f) ∅;
  close_ok c : v_stmts (view c) = ∅ → file_table (sqlite3_close c) = v_table (view c);
  exec_ok sql c : is_setup sql → v_stmts (view c) = ∅ →
    (sqlite3_exec sql c).2 = SQLITE_OK ∧ view (sqlite3_exec sql c).1 = view_exec sql (view c);
  prepare_ok sql c : is_Some (v_table (view c)) → sql ∈ [sql_put; sql_get; sql_scan] →
    let r := sqlite3_prepare_v2 sql c in
    r.2.1 = SQLITE_OK ∧ v_stmts (view c) !! r.2.2 = None ∧ view r.1 = view_prepare r.2.2 sql (view c);
  finalize_ok stmt c : is_Some (v_stmts (view c) !! stmt) →
    view (sqlite3_finalize stmt c) = view_finalize stmt (view c);
  bind_ok stmt st i v c : v_stmts (view c) !! stmt = Some st → st_run st = Idle →
    1 ≤ i ≤ parameters (st_sql st) → bindable (st_sql st) i v →
    view (sqlite3_bind_blob stmt i v c).1 = view_bind stmt i v st (view c);
  step_ok stmt st m c : v_table (view c) = Some m → v_stmts (view c) !! stmt = Some st →
    st_run st ≠ AtEnd → all_bound st → others_idle stmt (view c) →
    view (sqlite3_step stmt c).1 = (view_step stmt st m (view c)).1 ∧
    (sqlite3_step stmt c).2 = (view_step stmt st m (view c)).2;
  reset_ok stmt st c : v_stmts (view c) !! stmt = Some st →
    view (sqlite3_reset stmt c).1 = view_reset stmt st (view c);
  column_ok stmt st i c r rest x : v_stmts (view c) !! stmt = Some st → st_run st = AtRow r rest →
    r !! Z.to_nat i = Some x → sqlite3_column stmt i c = x;
  rows_ok c m : v_table (view c) = Some m → (size m ≤ sqlite_rows c)%nat;
}.

(** A connection with its three statements, none of them running. *)
Record sqlite_holds `{SqliteOk} (e : SqliteEngine) (m : gmap bytes bytes) : Prop := {
  sh_table : v_table (view (conn e)) = Some m;
  sh_put : ∃ b, v_stmts (view (conn e)) !! stmt_put e = Some (mkStmt sql_put b Idle);
  sh_get : ∃ b, v_stmts (view (conn e)) !! stmt_get e = Some (mkStmt sql_get b Idle);
  sh_scan : ∃ b, v_stmts (view (conn e)) !! stmt_scan e = Some (mkStmt sql_scan b Idle);
  sh_all stmt : is_Some (v_stmts (view (conn e)) !! stmt) → stmt ∈ [stmt_put e; stmt_get e; stmt_scan e];
}.

(** The arguments can be parameters of the statements. *)
Definition sqlite_ready `{Sqlite} (e : SqliteEngine) (op : engine_op) : Prop :=
  match op with
  | OpPut k v => bindable sql_put 1 k ∧ bindable sql_put 2 v
  | OpGet k => bindable sql_get 1 k
  | OpScan start stop => bindable sql_scan 1 start ∧ bindable sql_scan 2 stop
  | OpReopen _ => True
  end.

(** * Lemmas *)

Lemma stm_bind_ok {S A B} (m : stm S A) (f : A → stm S B) s s' a :
  m s = (s', Ok a) → (m ≫= f) s = f a s'.
Proof. intros E. unfold mbind, stm_bind. by rewrite E. Qed.

Lemma stm_bind_inv {S A B} (m : stm S A) (f : A → stm S B) s s' b :
  (m ≫= f) s = (s', Ok b) → ∃ s1 a, m s = (s1, Ok a) ∧ f a s1 = (s', Ok b).
Proof.
  unfold mbind, stm_bind. destruct (m s) as [s1 [a| |]]; [|done..]. intros E. by exists s1, a.
Qed.

(** ** KeystoneDB *)

Section KeystoneLemmas.
#[local] Set Default Proof Using "All".
Context `{PosixOk} `{PriorityQueueOk}.

Lemma keystone_call_ok e hist settled c :
  lives (ke_db e) hist settled → schedule_durable (call_actions e c) (ke_db e) →
  ∃ e' r sp sp' coins settled', keystone_call c e = (e', Ok r) ∧
    lives (ke_db e') (hist ++ call_writes (c coins)) settled' ∧
    sp_map sp = fold_left spec_write hist ∅ ∧ spec_step sp (c coins) r sp'.
Proof.
  intros Hl Hd. unfold keystone_call, call_actions in *.
  destruct (lives_call _ hist settled _ _ Hl Hd) as (s' & os & r & sp & sp' & settled' & E & Hl' & Hm & Hs).
  eexists _, r, sp, sp', _, settled'. rewrite E. cbn [fst snd mbind result_bind]. rewrite last_snoc. by split_and!.
Qed.

Lemma keystone_opens d m durable :
  keystone_stored d m → ∃ e, keystone_open d durable = Ok e ∧ keystone_holds e m.
Proof.
  intros Hd. destruct (stored_opens d.1 m (keystone_options durable) [] Hd) as (db & hist & settled & E & Hl & ->);
    [simpl; lia|].
  unfold keystone_open. rewrite E. eexists. split; [reflexivity|]. by exists hist, settled.
Qed.

#[local] Program Instance keystone_engine_ok env : EngineOk (H := keystone_engine env) := {|
  holds := keystone_holds; stored := keystone_stored; ready := keystone_ready;
|}.
Next Obligation. by left. Qed.
Next Obligation. intros env d m durable. apply keystone_opens. Qed.
Next Obligation.
  intros env e m durable (hist & settled & Hl & ->) Hr. destruct (lives_closed _ hist settled Hl Hr) as (s' & E & Hd).
  simpl. unfold keystone_close. rewrite E. eexists. split; [reflexivity|done].
Qed.
Next Obligation.
  intros env e m k v (hist & settled & Hl & ->) Hr.
  destruct (keystone_call_ok e hist settled _ Hl Hr) as (e' & r & sp & sp' & coins & settled' & E & Hl' & _).
  exists e'. simpl. unfold keystone_put. erewrite stm_bind_ok by exact E. split; [done|].
  exists (hist ++ [put_request k v]), settled'. split; [done|]. by rewrite fold_left_app.
Qed.
Next Obligation.
  intros env e m k (hist & settled & Hl & ->) Hr.
  destruct (keystone_call_ok e hist settled _ Hl Hr) as (e' & r & sp & sp' & coins & settled' & E & Hl' & Hm & Hs).
  exists e'. simpl. unfold keystone_get. erewrite stm_bind_ok by exact E. rewrite app_nil_r in Hl'.
  inversion Hs; subst. rewrite Hm. split; [done|]. by exists hist, settled'.
Qed.
Next Obligation.
  intros env e m start stop (hist & settled & Hl & ->) Hr.
  destruct (keystone_call_ok e hist settled _ Hl Hr) as (e' & r & sp & sp' & coins & settled' & E & Hl' & Hm & Hs).
  inversion Hs as [| | | |? ? l Hrange| | | |]; subst. exists e', l. simpl. unfold keystone_scan.
  erewrite stm_bind_ok by exact E. rewrite app_nil_r in Hl'. rewrite <- Hm. split_and!; [done|done|].
  by exists hist, settled'.
Qed.

End KeystoneLemmas.

(** ** SQLite *)

#[export] Instance pair_le_total : Total pair_le.
Proof.
  intros p q. unfold pair_le. destruct (key_lt_trichotomy p.1 q.1) as [?|[E|?]].
  - left. by apply key_lt_le.
  - left. rewrite E. apply key_le_refl.
  - right. by apply key_lt_le.
Qed.

#[export] Instance pair_le_trans : Transitive pair_le.
Proof. intros p q r. unfold pair_le. apply key_le_trans. Qed.

Lemma sorted_keys_lt (l : list (bytes * bytes)) :
  StronglySorted pair_le l → NoDup l.*1 → StronglySorted key_lt l.*1.
Proof.
  induction 1 as [|p l Hs IH Hp]; [constructor|]. rewrite fmap_cons. intros [Hn Hnd]%NoDup_cons.
  constructor; [auto|]. rewrite Forall_fmap, Forall_forall in *. intros q Hq. simpl.
  specialize (Hp q Hq). unfold pair_le in Hp. apply key_le_lteq in Hp as [?|E]; [done|].
  destruct Hn. rewrite E. by apply list_elem_of_fmap_2.
Qed.

Lemma nodup_filter_keys (f : bytes * bytes → bool) l : NoDup l.*1 → NoDup (List.filter f l).*1.
Proof.
  induction l as [|p l IH]; simpl; [done|]. intros [Hn Hnd]%NoDup_cons. destruct (f p); [|auto].
  simpl. constructor; [|auto]. intros (q & E & [Hq _]%elem_of_filterb)%list_elem_of_fmap. apply Hn.
  rewrite E. by apply list_elem_of_fmap_2.
Qed.

Lemma range_rows_ok m start stop : is_range m start stop (range_rows m start stop).
Proof.
  unfold range_rows. split.
  - apply sorted_keys_lt; [apply sorted_filter, StronglySorted_merge_sort; apply _|].
    apply nodup_filter_keys. rewrite merge_sort_Permutation. apply NoDup_fst_map_to_list.
  - intros k v. rewrite elem_of_filterb, merge_sort_Permutation, elem_of_map_to_list.
    unfold between. rewrite andb_true_iff, !bytes_leb_le. simpl. tauto.
Qed.

Lemma range_rows_size m start stop : (length (range_rows m start stop) ≤ size m)%nat.
Proof.
  unfold range_rows. etrans; [apply List.filter_length_le|].
  by rewrite merge_sort_Permutation, length_map_to_list.
Qed.

Section SqliteLemmas.
#[local] Set Default Proof Using "All".
Context `{SqliteOk}.

Lemma on_conn_bind {A B} (f : sqlite3 → sqlite3 * A) (g : A → stm SqliteEngine B) e :
  (on_conn f ≫= g) e = g (f (conn e)).2 (with_conn e (f (conn e)).1).
Proof using Type. done. Qed.

(** *** One statement among idle ones *)

(** The statements are [stmts], with [stmt] as [st]. *)
Definition shows (c : sqlite3) (m : gmap bytes bytes) (stmts : gmap nat sqlite_stmt) (stmt : nat)
    (st : sqlite_stmt) : Prop :=
  view c = mkView (Some m) (<[stmt := st]> stmts).

Lemma shows_bind c m stmts stmt sql b i v :
  shows c m stmts stmt (mkStmt sql b Idle) → 1 ≤ i ≤ parameters sql → bindable sql i v →
  shows (sqlite3_bind_blob stmt i v c).1 m stmts stmt (mkStmt sql (<[i := v]> b) Idle).
Proof.
  intros V Hi Hv. unfold shows in *.
  rewrite (bind_ok stmt (mkStmt sql b Idle)); [|rewrite V; apply lookup_insert_eq|done..].
  unfold view_bind, set_stmt. rewrite V. cbn. by rewrite insert_insert_eq.
Qed.

Lemma shows_step c m stmts stmt st :
  shows c m stmts stmt st → st_run st ≠ AtEnd → all_bound st →
  map_Forall (λ _ st, st_run st = Idle) stmts →
  view (sqlite3_step stmt c).1 = (view_step stmt st m (mkView (Some m) stmts)).1 ∧
  (sqlite3_step stmt c).2 = (view_step stmt st m (mkView (Some m) stmts)).2.
Proof.
  intros V Hrun Hb Hidle. unfold shows in V.
  destruct (step_ok stmt st m c) as [-> ->]; [by rewrite V|rewrite V; apply lookup_insert_eq|done|done| |].
  - intros n st' Hn. rewrite V. cbn. rewrite lookup_insert_ne by done. apply Hidle.
  - unfold view_step. rewrite V. cbn [v_stmts]. destruct (st_run st) as [|r rest|]; [destruct (query _ _ _)|destruct rest|done];
      cbn [fst snd]; by rewrite insert_insert_eq.
Qed.

Lemma shows_reset c m stmts stmt st :
  shows c m stmts stmt st →
  shows (sqlite3_reset stmt c).1 m stmts stmt (mkStmt (st_sql st) (st_binds st) Idle).
Proof.
  intros V. unfold shows in *. rewrite (reset_ok stmt st); [|rewrite V; apply lookup_insert_eq].
  unfold view_reset, set_stmt. rewrite V. cbn. by rewrite insert_insert_eq.
Qed.

Lemma shows_column c m stmts stmt sql b r rest i x :
  shows c m stmts stmt (mkStmt sql b (AtRow r rest)) → r !! Z.to_nat i = Some x →
  sqlite3_column stmt i c = x.
Proof.
  intros V Hr. eapply column_ok; [rewrite V; apply lookup_insert_eq|reflexivity|done].
Qed.

(** All statements are idle. *)
Lemma holds_idle e m : sqlite_holds e m → map_Forall (λ _ st, st_run st = Idle) (v_stmts (view (conn e))).
Proof.
  intros [T [b1 P] [b2 G] [b3 S] A] n st E. specialize (A n ltac:(by eexists)).
  rewrite !elem_of_cons, elem_of_nil in A. destruct A as [->|[->|[->|[]]]]; simplify_eq; done.
Qed.

Lemma holds_shows e m stmt st :
  sqlite_holds e m → v_stmts (view (conn e)) !! stmt = Some st →
  shows (conn e) m (v_stmts (view (conn e))) stmt st.
Proof.
  intros [T _ _ _ _] E. unfold shows. rewrite insert_id by done. rewrite <- T. by destruct (view (conn e)).
Qed.

(** A statement has been used and reset. *)
Lemma holds_again e m m' c stmt sql b b' :
  sqlite_holds e m → v_stmts (view (conn e)) !! stmt = Some (mkStmt sql b Idle) →
  shows c m' (v_stmts (view (conn e))) stmt (mkStmt sql b' Idle) → sqlite_holds (with_conn e c) m'.
Proof.
  intros [T P G S A] E V. unfold shows in V.
  assert (∀ n sql', (∃ b, v_stmts (view (conn e)) !! n = Some (mkStmt sql' b Idle)) →
    ∃ b, v_stmts (view c) !! n = Some (mkStmt sql' b Idle)) as Hkeep.
  { intros n sql' [b'' En]. rewrite V. cbn [v_stmts]. destruct (decide (n = stmt)) as [->|Hne].
    - rewrite lookup_insert_eq. rewrite E in En. injection En as <- _. by eexists.
    - rewrite lookup_insert_ne by done. by eexists. }
  split; cbn [conn with_conn stmt_put stmt_get stmt_scan]; [by rewrite V|auto..|].
  intros n. rewrite V. cbn [v_stmts]. rewrite lookup_insert_is_Some'. intros [->|Hn]; [|auto].
  apply A. by eexists.
Qed.

Lemma bound_two sql b k v : parameters sql = 2 → all_bound (mkStmt sql (<[2 := v]> (<[1 := k]> b)) Idle).
Proof using Type.
  intros Hp i Hi. cbn [st_sql st_binds] in *. rewrite Hp in Hi. assert (i = 1 ∨ i = 2) as [->| ->] by lia.
  - rewrite lookup_insert_ne, lookup_insert_eq by done. by eexists.
  - rewrite lookup_insert_eq. by eexists.
Qed.

Lemma sqlite_put_ok e m k v :
  sqlite_holds e m → bindable sql_put 1 k → bindable sql_put 2 v →
  ∃ e', sqlite_put k v e = (e', Ok tt) ∧ sqlite_holds e' (<[k := v]> m).
Proof.
  intros Hh Hk Hv. destruct (sh_put _ _ Hh) as [b P]. pose proof (holds_shows _ _ _ _ Hh P) as V.
  apply (shows_bind _ _ _ _ _ _ 1 k) in V; [|done..]. apply (shows_bind _ _ _ _ _ _ 2 v) in V; [|done..].
  unfold sqlite_put. rewrite !on_conn_bind. cbn [conn with_conn fst].
  set (c2 := (sqlite3_bind_blob _ 2 v _).1) in *.
  destruct (shows_step _ _ _ _ _ V) as [V3 _]; [done|by apply bound_two|by eapply holds_idle|].
  eexists. split; [reflexivity|]. eapply (holds_again e m); [done|exact P|].
  eapply (shows_reset _ _ _ _ (mkStmt sql_put _ AtEnd)). unfold shows. rewrite V3. unfold view_step. cbn [st_run st_sql st_binds].
  change (query sql_put _ _) with (@nil (list bytes)). unfold effect.
  rewrite (bool_decide_eq_true_2 (sql_put = sql_put)) by done.
  by rewrite lookup_insert_ne, !lookup_insert_eq by done.
Qed.

Lemma sqlite_get_ok e m k :
  sqlite_holds e m → bindable sql_get 1 k →
  ∃ e', sqlite_get k e = (e', Ok (m !! k)) ∧ sqlite_holds e' m.
Proof.
  intros Hh Hk. destruct (sh_get _ _ Hh) as [b G]. pose proof (holds_shows _ _ _ _ Hh G) as V.
  apply (shows_bind _ _ _ _ _ _ 1 k) in V; [|done..].
  unfold sqlite_get. rewrite !on_conn_bind. cbn [conn with_conn fst snd].
  set (c1 := (sqlite3_bind_blob _ 1 k _).1) in *.
  assert (all_bound (mkStmt sql_get (<[1 := k]> b) Idle)) as Hb.
  { intros i Hi. assert (i = 1) as -> by (unfold parameters in Hi; simpl in Hi; lia). apply lookup_insert_is_Some; by left. }
  destruct (shows_step _ _ _ _ _ V) as [V2 R2]; [done|done|by eapply holds_idle|].
  unfold view_step in V2, R2. cbn [st_run st_sql st_binds] in V2, R2. unfold query in V2, R2.
  rewrite bool_decide_eq_true_2, lookup_insert_eq in V2, R2 by done. cbn [default from_option id] in V2, R2.
  change (effect sql_get _ m) with m in V2.
  destruct (m !! k) as [v|]; cbn [fst snd] in V2, R2; rewrite R2.
  - change (SQLITE_ROW =? SQLITE_ROW) with true. cbv iota. rewrite on_conn_bind. cbn [fst snd conn with_conn].
    rewrite (shows_column _ _ _ _ _ _ [v] [] 0 v V2) by done.
    eexists. split; [reflexivity|]. eapply (holds_again e m); [done|exact G|]. by apply (shows_reset _ _ _ _ _ V2).
  - change (SQLITE_DONE =? SQLITE_ROW) with false. cbv iota. eexists. split; [reflexivity|].
    eapply (holds_again e m); [done|exact G|]. by apply (shows_reset _ _ _ _ _ V2).
Qed.

(** The rows of a scan, from any of them on. *)
Lemma scan_loop_ok fuel stmt m stmts binds run l e :
  shows (conn e) m stmts stmt (mkStmt sql_scan binds run) →
  map_Forall (λ _ st, st_run st = Idle) stmts → all_bound (mkStmt sql_scan binds run) →
  run = Idle ∧ (λ p, [p.1; p.2]) <$> l = query sql_scan (λ i, default [] (binds !! i)) m ∨
    (∃ r, run = AtRow r ((λ p, [p.1; p.2]) <$> l)) →
  (length l < fuel)%nat →
  ∃ c', scan_loop fuel stmt e = (with_conn e c', Ok l) ∧ shows c' m stmts stmt (mkStmt sql_scan binds AtEnd).
Proof.
  revert e run l. induction fuel as [|fuel IH]; intros e run l V Hidle Hb Hr Hf; [lia|].
  destruct (shows_step _ _ _ _ _ V) as [V1 R1]; [|done|done|].
  { by destruct Hr as [[-> _]|[r ->]]. }
  set (c1 := (sqlite3_step stmt (conn e)).1) in *.
  assert (match l with
    | [] => shows c1 m stmts stmt (mkStmt sql_scan binds AtEnd) ∧ (sqlite3_step stmt (conn e)).2 = SQLITE_DONE
    | p :: l' => shows c1 m stmts stmt (mkStmt sql_scan binds (AtRow [p.1; p.2] ((λ p, [p.1; p.2]) <$> l'))) ∧
        (sqlite3_step stmt (conn e)).2 = SQLITE_ROW
    end) as Hstep.
  { unfold shows. rewrite V1, R1. unfold view_step. cbn [st_run st_sql st_binds].
    destruct Hr as [[-> E]|[r ->]]; [rewrite <- E|]; by destruct l. }
  clear V1 R1. cbn [scan_loop]. rewrite on_conn_bind. fold c1. destruct l as [|p l]; destruct Hstep as [V1 ->].
  - by exists c1.
  - rewrite Z.eqb_refl, on_conn_bind. cbn [fst snd conn with_conn].
    rewrite (shows_column _ _ _ _ _ _ _ _ 0 p.1 V1 eq_refl), (shows_column _ _ _ _ _ _ _ _ 1 p.2 V1 eq_refl).
    destruct (IH (with_conn e c1) (AtRow [p.1; p.2] ((λ p, [p.1; p.2]) <$> l)) l) as (c' & E & V').
    + exact V1.
    + done.
    + exact Hb.
    + right. by eexists.
    + cbn [length] in Hf. lia.
    + exists c'. split; [|done]. unfold with_conn at 1 in E. erewrite stm_bind_ok by exact E. by destruct p.
Qed.

Lemma sqlite_scan_ok e m start stop :
  sqlite_holds e m → bindable sql_scan 1 start → bindable sql_scan 2 stop →
  ∃ e' l, sqlite_scan start stop e = (e', Ok l) ∧ is_range m start stop l ∧ sqlite_holds e' m.
Proof.
  intros Hh Hs He. destruct (sh_scan _ _ Hh) as [b S]. pose proof (holds_shows _ _ _ _ Hh S) as V.
  apply (shows_bind _ _ _ _ _ _ 1 start) in V; [|done..]. apply (shows_bind _ _ _ _ _ _ 2 stop) in V; [|done..].
  unfold sqlite_scan. rewrite !on_conn_bind. cbn [conn with_conn fst].
  set (c1 := (sqlite3_bind_blob _ 1 start _).1) in *. set (c2 := (sqlite3_bind_blob _ 2 stop _).1) in *.
  destruct (scan_loop_ok (Datatypes.S (sqlite_rows (conn e))) (stmt_scan e) m (v_stmts (view (conn e))) _ Idle
    (range_rows m start stop) (with_conn (with_conn e c1) c2) V) as (c3 & E & V3).
  - by eapply holds_idle.
  - by apply bound_two.
  - left. split; [done|]. unfold query. rewrite bool_decide_eq_false_2, bool_decide_eq_true_2 by done.
    by rewrite lookup_insert_ne, !lookup_insert_eq by done.
  - pose proof (range_rows_size m start stop). pose proof (rows_ok (conn e) m (sh_table _ _ Hh)). lia.
  - erewrite stm_bind_ok by exact E. rewrite on_conn_bind. eexists _, _.
    split_and!; [reflexivity|apply range_rows_ok|].
    eapply (holds_again e m); [done|exact S|]. by apply (shows_reset _ _ _ _ _ V3).
Qed.

Lemma view_exec_pragma sql w : sql ≠ sql_create → view_exec sql w = w.
Proof using Type. intros Hs. unfold view_exec. by rewrite bool_decide_eq_false_2. Qed.

Lemma sqlite_exec_ok sql c :
  is_setup sql → v_stmts (view c) = ∅ →
  ∃ c', sqlite_exec sql c = Ok c' ∧ view c' = view_exec sql (view c).
Proof.
  intros Hs Hn. destruct (exec_ok sql c Hs Hn) as [R V]. unfold sqlite_exec. rewrite R. by eexists.
Qed.

Lemma sqlite_prepare_ok sql c :
  is_Some (v_table (view c)) → sql ∈ [sql_put; sql_get; sql_scan] →
  ∃ c' stmt, sqlite_prepare sql c = Ok (c', stmt) ∧ v_stmts (view c) !! stmt = None ∧
    view c' = view_prepare stmt sql (view c).
Proof.
  intros Ht Hs. destruct (prepare_ok sql c Ht Hs) as (R & N & V). unfold sqlite_prepare. rewrite R.
  by eexists _, _.
Qed.

Lemma sqlite_open_ok f durable :
  ∃ e, sqlite_open f durable = Ok e ∧ sqlite_holds e (default ∅ (file_table f)).
Proof.
  unfold sqlite_open. destruct (open_ok f) as [R V0]. rewrite R. cbn [negb Z.eqb].
  set (c0 := (sqlite3_open f).1) in *.
  destruct (sqlite_exec_ok sql_journal c0) as (c1 & -> & V1); [by left|by rewrite V0|].
  rewrite view_exec_pragma in V1 by done.
  destruct (sqlite_exec_ok (sql_synchronous durable) c1) as (c2 & E2 & V2);
    [right; left; by eexists|by rewrite V1, V0|].
  rewrite view_exec_pragma in V2 by (by destruct durable).
  destruct (sqlite_exec_ok sql_create c2) as (c3 & E3 & V3); [by do 2 right|by rewrite V2, V1, V0|].
  assert (view c3 = mkView (Some (default ∅ (file_table f))) ∅) as V3' by (by rewrite V3, V2, V1, V0).
  destruct (sqlite_prepare_ok sql_put c3) as (c4 & s1 & E4 & _ & V4); [by rewrite V3'; eexists|set_solver|].
  destruct (sqlite_prepare_ok sql_get c4) as (c5 & s2 & E5 & N5 & V5);
    [by rewrite V4, V3'; eexists|set_solver|].
  destruct (sqlite_prepare_ok sql_scan c5) as (c6 & s3 & E6 & N6 & V6);
    [by rewrite V5, V4, V3'; eexists|set_solver|].
  cbn [mbind result_bind]. rewrite E2. cbn [mbind result_bind]. rewrite E3. cbn [mbind result_bind].
  rewrite E4. cbn [mbind result_bind fst]. rewrite E5. cbn [mbind result_bind fst]. rewrite E6.
  eexists. split; [reflexivity|].
  rewrite V5, V4, V3' in N6. rewrite V4, V3' in N5. unfold view_prepare, set_stmt in *. cbn [v_stmts] in N5, N6.
  apply lookup_insert_None in N6 as [N6 N6']. apply lookup_insert_None in N6 as [_ N61], N5 as [_ N5].
  split; cbn [conn stmt_put stmt_get stmt_scan fst snd]; rewrite V6, V5, V4, V3'; cbn [v_table v_stmts].
  - done.
  - exists ∅. by rewrite !lookup_insert_ne, lookup_insert_eq by done.
  - exists ∅. by rewrite lookup_insert_ne, lookup_insert_eq by done.
  - exists ∅. apply lookup_insert_eq.
  - intros n. rewrite !lookup_insert_is_Some', lookup_empty, !elem_of_cons. intros [->|[->|[->|[? ?]]]]; auto; done.
Qed.

(** The three statements are finalized, so that the connection can be closed. *)
Lemma sqlite_close_ok e m : sqlite_holds e m → ∃ f, sqlite_close e = Ok f ∧ file_table f = Some m.
Proof.
  intros [T [b1 P] [b2 G] [b3 S] A]. unfold sqlite_close. eexists. split; [reflexivity|].
  assert (stmt_put e ≠ stmt_get e ∧ stmt_put e ≠ stmt_scan e ∧ stmt_get e ≠ stmt_scan e) as (N1 & N2 & N3)
    by (split_and!; intros E; rewrite E in *; simplify_eq).
  set (c1 := sqlite3_finalize (stmt_put e) _). assert (view c1 = view_finalize (stmt_put e) (view (conn e))) as V1
    by (apply finalize_ok; by eexists).
  set (c2 := sqlite3_finalize (stmt_get e) _). assert (view c2 = view_finalize (stmt_get e) (view c1)) as V2.
  { apply finalize_ok. rewrite V1. cbn [view_finalize v_stmts]. rewrite lookup_delete_ne by done. by eexists. }
  set (c3 := sqlite3_finalize (stmt_scan e) _). assert (view c3 = view_finalize (stmt_scan e) (view c2)) as V3.
  { apply finalize_ok. rewrite V2, V1. cbn [view_finalize v_stmts]. rewrite !lookup_delete_ne by done. by eexists. }
  rewrite close_ok; [by rewrite V3, V2, V1|]. rewrite V3, V2, V1. cbn [view_finalize v_stmts].
  apply map_eq. intros n. rewrite lookup_empty, !lookup_delete_None.
  destruct (v_stmts (view (conn e)) !! n) eqn:En; [|auto]. specialize (A n ltac:(by eexists)).
  rewrite !elem_of_cons, elem_of_nil in A. destruct A as [->|[->|[->|[]]]]; auto.
Qed.

Definition sqlite_stored (f : sqlite_file) (m : gmap bytes bytes) : Prop :=
  default ∅ (file_table f) = m.

#[local] Program Instance sqlite_engine_ok : EngineOk (H := sqlite_engine) := {|
  holds := sqlite_holds; stored := sqlite_stored; ready := sqlite_ready;
|}.
Next Obligation. unfold sqlite_stored. simpl. by rewrite no_file_table. Qed.
Next Obligation. intros f m durable <-. apply sqlite_open_ok. Qed.
Next Obligation.
  intros e m durable Hh _. destruct (sqlite_close_ok e m Hh) as (f & E & Hf). exists f. split; [done|].
  unfold sqlite_stored. by rewrite Hf.
Qed.
Next Obligation. intros e m k v Hh [Hk Hv]. by apply sqlite_put_ok. Qed.
Next Obligation. intros e m k Hh Hk. by apply sqlite_get_ok. Qed.
Next Obligation. intros e m start stop Hh [Hs He]. by apply sqlite_scan_ok. Qed.

End SqliteLemmas.

(** ** Any engine *)

Lemma sorted_keys_le (l : list (bytes * bytes)) :
  StronglySorted key_lt l.*1 → StronglySorted pair_le l.
Proof.
  induction l as [|p l IH]; [constructor|]. rewrite fmap_cons. intros [Hs Hp]%StronglySorted_inv.
  constructor; [auto|]. rewrite Forall_fmap in Hp. eapply Forall_impl; [exact Hp|].
  intros q Hq. by apply key_lt_le.
Qed.

Lemma sorted_keys_nodup ks : StronglySorted key_lt ks → NoDup ks.
Proof.
  induction 1 as [|k ks ? IH Hk]; constructor; [|done]. intros Hi.
  rewrite Forall_forall in Hk. by apply (key_lt_irrefl k), Hk.
Qed.

Lemma is_range_unique m start stop l l' :
  is_range m start stop l → is_range m start stop l' → l = l'.
Proof.
  intros [S1 E1] [S2 E2].
  apply (StronglySorted_unique_strong pair_le).
  - intros [k v] [k' v'] Hx Hy H1 H2. unfold pair_le in *. simpl in *.
    assert (k = k') as <- by (by apply key_le_antisym).
    apply E1 in Hx as (_ & _ & Hx). apply E2 in Hy as (_ & _ & Hy). congruence.
  - by apply sorted_keys_le.
  - by apply sorted_keys_le.
  - apply NoDup_Permutation; [by eapply NoDup_fmap_1, sorted_keys_nodup..|]. intros [k v]. by rewrite E1, E2.
Qed.

Section EngineLemmas.
#[local] Set Default Proof Using "All".
Context `{EngineOk}.

Lemma engine_call_ok op e m :
  holds e m → ready e op →
  ∃ e', engine_call op e = (e', Ok (map_call op m).2) ∧ holds e' (map_call op m).1.
Proof.
  intros Hh Hr. destruct op as [k v|k|start stop|durable]; cbn [map_call fst snd engine_call].
  - destruct (put_holds e m k v Hh Hr) as (e' & E & Hh'). exists e'. by rewrite (stm_bind_ok _ _ _ _ _ E).
  - destruct (get_holds e m k Hh Hr) as (e' & E & Hh'). exists e'. by rewrite (stm_bind_ok _ _ _ _ _ E).
  - destruct (scan_holds e m start stop Hh Hr) as (e' & l & E & Hl & Hh'). exists e'.
    rewrite (stm_bind_ok _ _ _ _ _ E). split; [|done].
    by rewrite (is_range_unique m start stop (range_rows m start stop) l (range_rows_ok _ _ _) Hl).
  - destruct (close_stored e m durable Hh Hr) as (d & Ed & Hd).
    destruct (open_holds d m durable Hd) as (e' & E & Hh'). exists e'. rewrite Ed. cbn [mbind result_bind].
    by rewrite E.
Qed.

Lemma engine_calls_ok ops e m :
  holds e m → ops_ready ops e → ∃ e', engine_calls ops e = (e', Ok (map_calls ops m)).
Proof.
  revert e m. induction ops as [|op ops IH]; intros e m Hh Hr; [by eexists|].
  destruct Hr as [Hr Hrs]. destruct (engine_call_ok op e m Hh Hr) as (e1 & E1 & Hh1).
  rewrite E1 in Hrs. destruct (IH e1 _ Hh1 Hrs) as (e2 & E2). exists e2.
  cbn [engine_calls map_calls]. rewrite (stm_bind_ok _ _ _ _ _ E1). by rewrite (stm_bind_ok _ _ _ _ _ E2).
Qed.

Lemma engine_run_ok durable ops :
  run_ready durable ops → engine_run durable ops = Ok (map_calls ops ∅).
Proof.
  intros Hr. destruct (open_holds empty_dir ∅ durable empty_stored) as (e & E & Hh).
  unfold engine_run. rewrite E. cbn [mbind result_bind].
  by destruct (engine_calls_ok ops e ∅ Hh (Hr e E)) as (e' & ->).
Qed.

End EngineLemmas.

(** * Theorems *)

(** C15.  The two engines that the benchmark compares answer a sequence of puts,
    gets, scans and reopenings in the same way, the way a map does, if no key
    and no bound of a scan is empty, keys and values are shorter than 2^28
    bytes, and the calls keep to the conditions of use of the database: the
    database whatever its compaction thread does between the calls and
    whichever way it syncs, and SQLite by its documented behaviour.  Both throw
    nothing. *)
Theorem engines_agree `{PosixOk} `{PriorityQueueOk} `{SqliteOk} env durable ops :
  run_ready (H0 := keystone_engine_ok env) durable ops →
  run_ready (H0 := sqlite_engine_ok) durable ops →
  engine_run (H := keystone_engine env) durable ops = Ok (map_calls ops ∅) ∧
  engine_run (H := sqlite_engine) durable ops = Ok (map_calls ops ∅).
Proof.
  intros Hk Hs. split.
  - by apply (engine_run_ok (H0 := keystone_engine_ok env)).
  - by apply (engine_run_ok (H0 := sqlite_engine_ok)).
Qed.

(** * Examples *)

(** A library that keeps its file in memory.  A statement that is stepped at its
    end is reset first. *)
Definition mem_step (stmt : nat) (w : sqlite_view) : sqlite_view * Z :=
  match v_stmts w !! stmt, v_table w with
  | Some st, Some m =>
      view_step stmt (match st_run st with AtEnd => mkStmt (st_sql st) (st_binds st) Idle | _ => st end) m w
  | _, _ => (w, 21)
  end.

Definition mem_sqlite : Sqlite := {|
  sqlite3 := sqlite_view; sqlite_file := option (gmap bytes bytes); no_file := None;
  sqlite3_open f := (mkView f ∅, SQLITE_OK);
  sqlite3_close w := v_table w;
  sqlite3_exec sql w := (view_exec sql w, SQLITE_OK);
  sqlite3_prepare_v2 sql w :=
    let stmt := fresh (dom (v_stmts w)) in (view_prepare stmt sql w, (SQLITE_OK, stmt));
  sqlite3_finalize stmt w := view_finalize stmt w;
  sqlite3_bind_blob stmt i v w :=
    match v_stmts w !! stmt with Some st => (view_bind stmt i v st w, SQLITE_OK) | None => (w, 21) end;
  sqlite3_step := mem_step;
  sqlite3_reset stmt w :=
    match v_stmts w !! stmt with Some st => (view_reset stmt st w, SQLITE_OK) | None => (w, 21) end;
  sqlite3_column stmt i w :=
    match st_run <$> v_stmts w !! stmt with
    | Some (AtRow r _) => default [] (r !! Z.to_nat i)
    | _ => []
    end;
  sqlite_rows w := size (default ∅ (v_table w));
|}.

#[local] Obligation Tactic := try done.

#[local] Program Instance mem_sqlite_ok : SqliteOk (H := mem_sqlite) := {|
  view := λ w : @sqlite3 mem_sqlite, w; file_table := λ f : @sqlite_file mem_sqlite, f;
|}.
Next Obligation.
  intros sql w _ _. simpl. split_and!; [done| |done]. apply not_elem_of_dom, is_fresh.
Qed.
Next Obligation. intros stmt st i v w E _ _ _. simpl. by rewrite E. Qed.
Next Obligation.
  intros stmt st m w T E Hr _ _. simpl. unfold mem_step. rewrite E, T. by destruct (st_run st) eqn:Er.
Qed.
Next Obligation. intros stmt st w E. simpl. by rewrite E. Qed.
Next Obligation. intros stmt st i w r rest x E Er Ex. simpl. rewrite E. simpl. by rewrite Er, Ex. Qed.
Next Obligation. intros w m E. simpl. by rewrite E. Qed.

#[export] Instance keystone_ready_dec `{Posix} `{PriorityQueue} e op : Decision (keystone_ready e op).
Proof. unfold keystone_ready. destruct op; apply _. Defined.

#[export] Instance sqlite_ready_dec `{Sqlite} e op : Decision (sqlite_ready e op).
Proof. unfold sqlite_ready, bindable. destruct op; apply _. Defined.

#[export] Instance ops_ready_dec `{EngineOk} `{∀ e op, Decision (ready e op)} ops e :
  Decision (ops_ready ops e).
Proof. revert e. induction ops; intros e; simpl; apply _. Defined.

Definition run_ready_check `{EngineOk} `{∀ e op, Decision (ready e op)} durable ops : bool :=
  match engine_open empty_dir durable with
  | Ok e => bool_decide (ops_ready ops e)
  | _ => true
  end.

Lemma run_ready_checked `{EngineOk} `{∀ e op, Decision (ready e op)} durable ops :
  run_ready_check durable ops = true → run_ready durable ops.
Proof.
  unfold run_ready_check. intros Hc e E. rewrite E in Hc. by apply bool_decide_eq_true in Hc.
Qed.

Definition ex_ops : list engine_op :=
  [OpPut (bs "k1") (bs "v1"); OpPut (bs "k2") (bs "v2"); OpReopen true; OpPut (bs "k1") (bs "v3");
   OpGet (bs "k1"); OpGet (bs "k3"); OpScan (bs "k0") (bs "k9")].

Definition ex_env : list (nat * list bool) := [(1, [true]); (0, []); (2, []); (1, [])]%nat.

Lemma engines_agree_witness :
  engine_run (H := keystone_engine (H := ex_posix) (H0 := first_pq) ex_env) false ex_ops =
    engine_run (H := sqlite_engine (H := mem_sqlite)) false ex_ops.
Proof.
  destruct (engines_agree (H := ex_posix) (H1 := first_pq) (H3 := mem_sqlite) ex_env false ex_ops)
    as [-> ->]; [..|reflexivity].
  - apply (run_ready_checked (H0 := keystone_engine_ok ex_env) (H1 := keystone_ready_dec)).
    vm_compute. reflexivity.
  - apply (run_ready_checked (H0 := sqlite_engine_ok) (H1 := sqlite_ready_dec)).
    vm_compute. reflexivity.
Defined.
