(* ===== verification/Stats.v ===== *)
(** The measurements of the benchmark, [Stats] and [compute_stats] of
    src/bench/bench.cpp, and how they are printed.

    A [double] is a number of [SpecFloat] with 53 bits of precision, so that
    sums and quotients are rounded as IEEE 754 says.  [std::nth_element] leaves
    open where it puts the other elements: it is a class, with what the
    standard says about its result. *)

From Stdlib Require Import SpecFloat.
From S2P Require Import Prelude Text.
Local Open Scope Z_scope.

(** * Definitions *)

(** ** Doubles *)

Definition double : Type := spec_float.

#[export] Instance double_eq_dec : EqDecision double.
Proof. solve_decision. Defined.

Definition dadd : double → double → double := SFadd 53 1024.
Definition ddiv : double → double → double := SFdiv 53 1024.
Definition dlt : double → double → bool := SFltb.

(** [static_cast<double>] of an integer. *)
Definition of_int (z : Z) : double := binary_normalize 53 1024 z 0 false.

Definition is_nan (d : double) : bool := match d with S754_nan => true | _ => false end.

(** The clock counts nanoseconds; [duration<double, std::micro>] and
    [duration<double>] divide by the ratio of the units. *)
Definition micros (t0 t1 : Z) : double := ddiv (of_int (t1 - t0)) (of_int 1000).

Definition seconds (t0 t1 : Z) : double := ddiv (of_int (t1 - t0)) (of_int 1000000000).

(** ** Statistics *)

Class NthElement := { nth_element : nat → list double → list double }.

(** The order is one where no element is a NaN. *)
Class NthElementOk `{NthElement} : Prop := {
  nth_element_perm n l : nth_element n l ≡ₚ l;
  nth_element_le n l i x y : Forall (λ d, is_nan d = false) l →
    nth_element n l !! n = Some x → nth_element n l !! i = Some y →
    ((i < n)%nat → dlt x y = false) ∧ ((n < i)%nat → dlt y x = false);
}.

Record Stats := mkStats { ops_per_sec : double; p50_us : double; p99_us : double }.

Definition no_stats : Stats := mkStats (of_int 0) (of_int 0) (of_int 0).

Definition p50_idx (n : nat) : nat := (n / 2)%nat.
Definition p99_idx (n : nat) : nat := Z.to_nat (Z.of_nat n * 99 / 100).

(** Both calls of [nth_element] work on the same vector. *)
Definition compute_stats `{NthElement} (latencies : list double) : Stats :=
  if bool_decide (latencies = []) then no_stats else
  let total := fold_left dadd latencies (of_int 0) in
  let n := length latencies in
  let ops := ddiv (of_int (Z.of_nat n)) (ddiv total (of_int 1000000)) in
  let l1 := nth_element (p50_idx n) latencies in
  let p50 := default (of_int 0) (l1 !! p50_idx n) in
  let l2 := nth_element (p99_idx n) l1 in
  let p99 := default (of_int 0) (l2 !! p99_idx n) in
  mkStats ops p50 p99.

(** ** Printing *)

(** The number times 10^d, rounded to the nearest integer, to the even one
    half way. *)
Definition scaled (d : Z) (m : positive) (e : Z) : Z :=
  let num := Zpos m * 10 ^ d * 2 ^ Z.max e 0 in
  let den := 2 ^ Z.max (- e) 0 in
  let q := num / den in
  match Z.compare (2 * (num mod den)) den with
  | Lt => q
  | Gt => q + 1
  | Eq => if Z.even q then q else q + 1
  end.

(** The largest double has 309 digits. *)
Definition digits (n : Z) : bytes := decimal_loop 320 n.

(** An integer divided by 10^d: the point, if there is one, and d digits. *)
Definition point_text (d : nat) (q : Z) : bytes :=
  let p := 10 ^ Z.of_nat d in
  digits (q / p) ++ if bool_decide (d = O) then [] else x2e%byte :: padded d (q mod p).

Definition sign_text (s : bool) : bytes := if s then [x2d%byte] else [].

(** The sign of the NaNs the machine makes. *)
Class NanSign := { nan_sign : bool }.

(** [%.<d>f] *)
Definition fixed `{NanSign} (d : nat) (x : double) : bytes :=
  match x with
  | S754_zero s => sign_text s ++ point_text d 0
  | S754_infinity s => sign_text s ++ bs "inf"
  | S754_nan => sign_text nan_sign ++ bs "nan"
  | S754_finite s m e => sign_text s ++ point_text d (scaled (Z.of_nat d) m e)
  end.

(** [%d] *)
Definition int_text (z : Z) : bytes := sign_text (z <? 0) ++ decimal (Z.abs z).

(** [%<w>...] and [%-<w>s] *)
Definition pad_left (w : nat) (s : bytes) : bytes := replicate (w - length s) x20%byte ++ s.
Definition pad_right (w : nat) (s : bytes) : bytes := s ++ replicate (w - length s) x20%byte.

(** * Lemmas *)

(** ** No result is a NaN *)

Lemma shr_1_nonneg r : 0 ≤ shr_m r → 0 ≤ shr_m (shr_1 r).
Proof. destruct r as [[|[p|p|]|p] rr s]; simpl; lia. Qed.

Lemma iter_pos_inv {A} (P : A → Prop) (f : A → A) n x :
  (∀ x, P x → P (f x)) → P x → P (SpecFloat.iter_pos f n x).
Proof. intros Hf. revert x. induction n; simpl; auto. Qed.

Lemma shr_fexp_nonneg prec emax m e l : 0 ≤ m → 0 ≤ shr_m (shr_fexp prec emax m e l).1.
Proof.
  intros Hm. unfold shr_fexp, shr.
  assert (0 ≤ shr_m (shr_record_of_loc m l)) by (by destruct l as [|[]]).
  destruct (_ - _); simpl; [done| |done]. apply (iter_pos_inv (λ r, 0 ≤ shr_m r)); [|done].
  apply shr_1_nonneg.
Qed.

Lemma round_nonneg m l : 0 ≤ m → 0 ≤ round_nearest_even m l.
Proof. intros Hm. destruct l as [|[]]; simpl; [| destruct (Z.even m)|..]; lia. Qed.

Lemma binary_round_aux_number s m e l :
  0 ≤ m → is_nan (binary_round_aux 53 1024 s m e l) = false.
Proof.
  intros Hm. unfold binary_round_aux. pose proof (shr_fexp_nonneg 53 1024 m e l Hm) as H1.
  destruct (shr_fexp 53 1024 m e l) as [r1 e1]. simpl in H1.
  pose proof (shr_fexp_nonneg 53 1024 (round_nearest_even (shr_m r1) (loc_of_shr_record r1)) e1 loc_Exact
    (round_nonneg _ _ H1)) as H2.
  destruct (shr_fexp _ _ _ e1 _) as [r2 e2]. simpl in H2.
  destruct (shr_m r2); [done| |lia]. by destruct (_ <=? _).
Qed.

Lemma of_int_number z : is_nan (of_int z) = false.
Proof.
  unfold of_int, binary_normalize, binary_round. destruct z as [|p|p]; [done|..];
    destruct (shl_align _ _ _); by apply binary_round_aux_number.
Qed.

Lemma div_core_nonneg m1 e1 m2 e2 :
  0 ≤ (SFdiv_core_binary 53 1024 (Zpos m1) e1 (Zpos m2) e2).1.1.
Proof.
  unfold SFdiv_core_binary. set (s := _ - _ - _).
  set (m' := match s with Z0 => _ | _ => _ end).
  assert (0 ≤ m') as Hm'.
  { subst m'. clearbody s. destruct s; [lia| |lia]. apply Z.shiftl_nonneg. lia. }
  pose proof (Z.div_pos m' (Zpos m2) Hm' ltac:(lia)) as Hq. unfold Z.div in Hq.
  by destruct (Z.div_eucl m' (Zpos m2)).
Qed.

Lemma ddiv_number a b :
  is_nan a = false → (∃ s m e, b = S754_finite s m e) → is_nan (ddiv a b) = false.
Proof.
  intros Ha (s & m & e & ->). unfold ddiv, SFdiv. destruct a as [sa|sa| |sa ma ea]; try done.
  pose proof (div_core_nonneg ma ea m e) as Hq.
  destruct (SFdiv_core_binary _ _ _ _ _ _) as [[q e'] l]. by apply binary_round_aux_number.
Qed.

Lemma micros_number t0 t1 : is_nan (micros t0 t1) = false.
Proof. apply ddiv_number; [apply of_int_number|]. vm_compute. by eexists _, _, _. Qed.

(** ** The order of the doubles *)

(** Class, exponent and mantissa, compared one after the other. *)
Definition rank (d : double) : Z * Z * Z :=
  match d with
  | S754_infinity true => (-2, 0, 0)
  | S754_finite true m e => (-1, - e, - Zpos m)
  | S754_zero _ => (0, 0, 0)
  | S754_finite false m e => (1, e, Zpos m)
  | S754_infinity false => (2, 0, 0)
  | S754_nan => (3, 0, 0)
  end.

Definition rank_lt (a b : Z * Z * Z) : Prop :=
  a.1.1 < b.1.1 ∨ a.1.1 = b.1.1 ∧ (a.1.2 < b.1.2 ∨ a.1.2 = b.1.2 ∧ a.2 < b.2).

Lemma dlt_rank a b :
  is_nan a = false → is_nan b = false → dlt a b = true ↔ rank_lt (rank a) (rank b).
Proof.
  unfold dlt, SFltb, SFcompare, rank, rank_lt. intros Ha Hb.
  destruct a as [sa|sa| |sa ma ea]; try done; destruct b as [sb|sb| |sb mb eb]; try done;
    try destruct sa; try destruct sb; simpl; try lia;
    change (Pos.compare_cont Eq ma mb) with (Pos.compare ma mb);
    destruct (Z.compare_spec ea eb); try lia; destruct (Pos.compare_spec ma mb); simpl; lia.
Qed.

(** [dlt] is a strict weak order. *)
Lemma dlt_irrefl a : dlt a a = false.
Proof.
  unfold dlt, SFltb, SFcompare. destruct a as [s|s| |s m e]; try done; destruct s; try done;
    rewrite Z.compare_refl; change (Pos.compare_cont Eq m m) with (Pos.compare m m);
    by rewrite Pos.compare_refl.
Qed.

Lemma dlt_weak a b c :
  is_nan a = false → is_nan b = false → is_nan c = false →
  dlt a b = true → dlt c b = false → dlt a c = true.
Proof.
  intros Ha Hb Hc. rewrite <- not_true_iff_false, !dlt_rank by done. unfold rank_lt. lia.
Qed.

(** ** Percentiles *)

(** How many elements are below, and above. *)
Definition below (x : double) (l : list double) : nat := length (List.filter (λ y, dlt y x) l).
Definition above (x : double) (l : list double) : nat := length (List.filter (λ y, dlt x y) l).

#[export] Instance filter_perm_proper {A} (f : A → bool) :
  Proper ((≡ₚ) ==> (≡ₚ)) (List.filter f).
Proof.
  induction 1 as [|x l l' _ IH|x y l|? ? ? _ IH1 _ IH2]; simpl; [done|..].
  - destruct (f x); [by apply Permutation_skip|done].
  - destruct (f x), (f y); try done. apply Permutation_swap.
  - by etrans.
Qed.

Section Percentiles.
#[local] Set Default Proof Using "All".
Context `{NthElementOk}.

(** What is put at the place is among the elements, with at most so many
    below it and above it. *)
Lemma nth_element_rank n l :
  Forall (λ d, is_nan d = false) l → (n < length l)%nat →
  ∃ x, nth_element n l !! n = Some x ∧ x ∈ l ∧ (below x l ≤ n)%nat ∧ (above x l ≤ length l - n - 1)%nat.
Proof.
  intros Hnan Hn. pose proof (nth_element_perm n l) as Hp.
  assert (length (nth_element n l) = length l) as Hlen by (by rewrite Hp).
  destruct (lookup_lt_is_Some_2 (nth_element n l) n) as [x Hx]; [lia|]. exists x.
  split_and!; [done|rewrite <- Hp; by eapply list_elem_of_lookup_2|..].
  - unfold below. rewrite <- Hp, <- (take_drop n (nth_element n l)), List.filter_app.
    rewrite (filter_none _ (drop n _)); [rewrite app_nil_r|].
    + etrans; [apply List.filter_length_le|]. rewrite length_take. lia.
    + intros y [i Hi]%list_elem_of_lookup. rewrite lookup_drop in Hi.
      destruct (decide (i = O)) as [->|]; [|apply (nth_element_le n l (n + i) x y Hnan Hx Hi); lia].
      rewrite Nat.add_0_r in Hi. simplify_eq. apply dlt_irrefl.
  - unfold above. rewrite <- Hlen, <- Hp at 1. rewrite <- (take_drop (S n) (nth_element n l)) at 1.
    rewrite List.filter_app.
    rewrite (filter_none _ (take (S n) _)).
    + etrans; [apply List.filter_length_le|]. rewrite length_drop. lia.
    + intros y [i [Hi Hlt]%lookup_take_Some]%list_elem_of_lookup.
      destruct (decide (i = n)) as [->|]; [simplify_eq; apply dlt_irrefl|].
      apply (nth_element_le n l i x y Hnan Hx Hi). lia.
Qed.

(** A value at a higher place is not lower. *)
Lemma ranks_ordered l x y n n' :
  Forall (λ d, is_nan d = false) l → x ∈ l → y ∈ l → (n ≤ n')%nat → (n' < length l)%nat →
  (below x l ≤ n)%nat → (above y l ≤ length l - n' - 1)%nat → dlt y x = false.
Proof.
  intros Hnan Hx Hy Hn Hn' Hb Ha. rewrite Forall_forall in Hnan. apply not_true_iff_false. intros Hlt.
  assert (∀ z, z ∈ l → dlt z x = true ∨ dlt y z = true) as Hz.
  { intros z Hz. destruct (dlt z x) eqn:E; [by left|right]. eapply dlt_weak; [..|done]; auto. }
  assert (length l ≤ below x l + above y l)%nat; [|lia]. unfold below, above. clear -Hz.
  induction l as [|z l IH]; [simpl; lia|]. simpl.
  specialize (IH (λ z' H', Hz z' (list_elem_of_further _ _ _ H'))).
  destruct (Hz z (list_elem_of_here _ _)) as [-> | ->]; simpl; repeat case_match; simpl; lia.
Qed.

#[local] Instance below_proper x : Proper ((≡ₚ) ==> (=)) (below x).
Proof. intros l l' E. unfold below. by rewrite E. Qed.

#[local] Instance above_proper x : Proper ((≡ₚ) ==> (=)) (above x).
Proof. intros l l' E. unfold above. by rewrite E. Qed.

Lemma p99_idx_bounds n :
  (0 < n)%nat → (p50_idx n ≤ p99_idx n)%nat ∧ (p99_idx n < n)%nat ∧
    (100 * p99_idx n ≤ 99 * n)%nat ∧ (99 * n < 100 * p99_idx n + 100)%nat.
Proof using Type.
  intros Hn. unfold p50_idx, p99_idx. pose proof (Nat.div_mod_eq n 2).
  pose proof (Z.div_mod (Z.of_nat n * 99) 100 ltac:(lia)).
  pose proof (Z.mod_pos_bound (Z.of_nat n * 99) 100 ltac:(lia)).
  assert (0 ≤ Z.of_nat n * 99 / 100) by (apply Z.div_pos; lia). lia.
Qed.

Lemma p50_idx_bounds n : (0 < n)%nat → (p50_idx n < n)%nat ∧ (2 * p50_idx n ≤ n)%nat ∧ (n < 2 * p50_idx n + 2)%nat.
Proof using Type.
  intros Hn. unfold p50_idx. pose proof (Nat.div_mod_eq n 2). pose proof (Nat.mod_upper_bound n 2). lia.
Qed.

Lemma compute_stats_ranks l :
  l ≠ [] → Forall (λ d, is_nan d = false) l →
  let s := compute_stats l in let n := length l in
  (p50_us s ∈ l ∧ (below (p50_us s) l ≤ p50_idx n)%nat ∧ (above (p50_us s) l ≤ n - p50_idx n - 1)%nat) ∧
  (p99_us s ∈ l ∧ (below (p99_us s) l ≤ p99_idx n)%nat ∧ (above (p99_us s) l ≤ n - p99_idx n - 1)%nat).
Proof.
  intros Hne Hnan. unfold compute_stats. rewrite bool_decide_eq_false_2 by done. cbn zeta.
  assert (0 < length l)%nat as Hn by (destruct l; [done|simpl; lia]).
  pose proof (p50_idx_bounds _ Hn) as (H50 & _). pose proof (p99_idx_bounds _ Hn) as (_ & H99 & _).
  destruct (nth_element_rank (p50_idx (length l)) l Hnan H50) as (x & Ex & Hx).
  pose proof (nth_element_perm (p50_idx (length l)) l) as Hp.
  set (l1 := nth_element (p50_idx (length l)) l) in *.
  assert (length l1 = length l) as Hlen by (by rewrite Hp).
  destruct (nth_element_rank (p99_idx (length l)) l1) as (y & Ey & Hy);
    [by rewrite Hp|by rewrite Hlen|].
  rewrite Hp in Hy. rewrite Ex, Ey. by split.
Qed.

End Percentiles.

(** ** Printed numbers have no separators *)

(** Neither a comma nor the end of a line. *)
Definition plain (s : bytes) : Prop := (x2c%byte ∉ s) ∧ (x0a%byte ∉ s).

#[export] Instance plain_dec s : Decision (plain s).
Proof. unfold plain. apply _. Defined.

Lemma plain_app s t : plain s → plain t → plain (s ++ t).
Proof. unfold plain. set_solver. Qed.

Lemma plain_digits s : Forall (λ b, is_digit b = true) s → plain s.
Proof. rewrite Forall_forall. intros Hd. by split; intros Hi; specialize (Hd _ Hi). Qed.

Lemma plain_sign b : plain (sign_text b).
Proof. destruct b; by apply (bool_decide_unpack _). Qed.

Lemma decimal_loop_digits fuel n : 0 ≤ n → Forall (λ b, is_digit b = true) (decimal_loop fuel n).
Proof.
  revert n. induction fuel as [|fuel IH]; intros n Hn; [constructor|]. apply Forall_app. split.
  - destruct (n <? 10); [constructor|]. apply IH, Z.div_pos; lia.
  - constructor; [|constructor]. apply is_digit_digit. pose proof (Z.mod_pos_bound n 10). lia.
Qed.

Lemma plain_point d q : 0 ≤ q → plain (point_text d q).
Proof.
  intros Hq. unfold point_text. assert (0 < 10 ^ Z.of_nat d) by lia.
  apply plain_app; [apply plain_digits, decimal_loop_digits, Z.div_pos; lia|].
  case_bool_decide; [by apply (bool_decide_unpack _)|].
  apply (plain_app [_]); [by apply (bool_decide_unpack _)|]. apply plain_digits, padded_digits.
  apply Z.mod_pos_bound. lia.
Qed.

Lemma scaled_nonneg d m e : 0 ≤ d → 0 ≤ scaled d m e.
Proof.
  intros Hd. unfold scaled. set (q := _ / _).
  assert (0 ≤ q); [|destruct (Z.compare _ _); try lia; destruct (Z.even q); lia].
  apply Z.div_pos; [|lia]. assert (0 < 10 ^ d) by lia. assert (0 < 2 ^ Z.max e 0) by lia. nia.
Qed.

Lemma plain_fixed `{NanSign} d x : plain (fixed d x).
Proof.
  destruct x; apply plain_app; try apply plain_sign; try by apply (bool_decide_unpack _).
  - by apply plain_point.
  - apply plain_point, scaled_nonneg. lia.
Qed.

Lemma plain_int z : plain (int_text z).
Proof. apply plain_app; [apply plain_sign|]. apply plain_digits, decimal_loop_digits. lia. Qed.

Lemma int_text_nonempty z : int_text z ≠ [].
Proof. unfold int_text. intros [_ E]%app_eq_nil. by apply (padded_nonempty 0 (Z.abs z)). Qed.

(** * Theorems *)

(** The latencies of the measured intervals. *)
Definition latencies_of (ts : list (Z * Z)) : list double := (λ t, micros t.1 t.2) <$> ts.

(** C32.  The percentiles are what their names say: each is one of the measured
    latencies; at most half of them are below the median and at most half
    above it, at most 99% are below [p99] and less than 1% above it; and the
    99th percentile is not below the median.  For any clock readings and any
    partition [nth_element] makes: no latency is a NaN. *)
Theorem percentiles_correct `{NthElementOk} ts :
  ts ≠ [] →
  let l := latencies_of ts in let s := compute_stats l in let n := length ts in
  (p50_us s ∈ l ∧ 2 * below (p50_us s) l ≤ n ∧ 2 * above (p50_us s) l ≤ n)%nat ∧
  (p99_us s ∈ l ∧ 100 * below (p99_us s) l ≤ 99 * n ∧ 100 * above (p99_us s) l < n)%nat ∧
  dlt (p99_us s) (p50_us s) = false.
Proof.
  intros Hne l s n.
  assert (length l = n) as Hl by (subst l n; unfold latencies_of; by rewrite length_fmap).
  assert (0 < n)%nat as Hn by (subst n; destruct ts; [done|simpl; lia]).
  assert (Forall (λ d, is_nan d = false) l) as Hnan.
  { subst l. unfold latencies_of. apply Forall_fmap, Forall_true. intros t. apply micros_number. }
  pose proof (p50_idx_bounds n Hn). pose proof (p99_idx_bounds n Hn).
  destruct (compute_stats_ranks l) as [(M1 & B1 & A1) (M2 & B2 & A2)];
    [intros E; rewrite E in Hl; simpl in Hl; lia|done|]. subst s. rewrite Hl in *.
  split_and!; try done; [lia..|].
  eapply (ranks_ordered l _ _ (p50_idx n) (p99_idx n)); rewrite ?Hl; try done; lia.
Qed.

(** * Examples *)

(** Sorting puts every element in its place. *)
Definition rank_ltb (a b : double) : bool := bool_decide (rank_lt (rank a) (rank b)).

Definition sort_nth : NthElement := {| nth_element _ l := fold_right (insertb rank_ltb) [] l |}.

#[export] Instance sort_nth_ok : NthElementOk (H := sort_nth).
Proof.
  assert (∀ l, StronglySorted (λ x y, ¬ rank_lt (rank y) (rank x)) (fold_right (insertb rank_ltb) [] l) ∧
    fold_right (insertb rank_ltb) [] l ≡ₚ l) as Hs.
  { apply sortb_spec; unfold rank_ltb.
    - intros x y E%bool_decide_eq_true. unfold rank_lt in *. lia.
    - by intros x y E%bool_decide_eq_false.
    - unfold rank_lt. intros. lia. }
  split; simpl; [intros n l; apply Hs|]. intros n l i x y Hnan Hx Hy. destruct (Hs l) as [Hsort Hp].
  rewrite <- Hp, Forall_forall in Hnan.
  assert (is_nan x = false ∧ is_nan y = false) as [Nx Ny] by (split; eapply Hnan, list_elem_of_lookup_2; done).
  split; intros Hi; apply not_true_iff_false; rewrite dlt_rank by done;
    [apply (sorted_lookup _ _ i n y x Hsort)|apply (sorted_lookup _ _ n i x y Hsort)]; done.
Qed.

Definition ex_times : list (Z * Z) := [(0, 1500); (2000, 2900); (3000, 4000000); (4000000, 4000700); (5, 5)].

Lemma percentiles_correct_witness :
  let s := compute_stats (H := sort_nth) (latencies_of ex_times) in
  fixed (H := {| nan_sign := true |}) 1 (p50_us s) = bs "0.9" ∧ dlt (p99_us s) (p50_us s) = false.
Proof.
  split; [vm_compute; reflexivity|]. apply (percentiles_correct (H := sort_nth) ex_times). done.
Defined.
