(* ===== verification/Random.v ===== *)
(** The random numbers of src/bench/bench.cpp: the generator [std::mt19937],
    which the standard defines bit by bit, and [std::uniform_int_distribution]
    and [std::shuffle], whose results it leaves to the implementation. *)

From S2P Require Import Prelude.
Local Open Scope Z_scope.

(** * Definitions *)

(** The last 624 words of the sequence, the oldest one first. *)
Definition mt19937 : Type := list Z.

Fixpoint seed_loop (k : nat) (i x : Z) : mt19937 :=
  match k with
  | O => []
  | S k' => x :: seed_loop k' (i + 1) (u32 (1812433253 * Z.lxor x (Z.shiftr x 30) + (i + 1)))
  end.

Definition mt_seed (seed : Z) : mt19937 := seed_loop 624 0 (u32 seed).

Definition mt_twist (x y : Z) : Z :=
  let z := Z.lor (Z.land x 0x80000000) (Z.land y 0x7fffffff) in
  Z.lxor (Z.shiftr z 1) (if Z.testbit z 0 then 0x9908b0df else 0).

Definition mt_temper (x : Z) : Z :=
  let x1 := Z.lxor x (Z.shiftr x 11) in
  let x2 := Z.lxor x1 (Z.land (u32 (Z.shiftl x1 7)) 0x9d2c5680) in
  let x3 := Z.lxor x2 (Z.land (u32 (Z.shiftl x2 15)) 0xefc60000) in
  Z.lxor x3 (Z.shiftr x3 18).

(** [operator()] *)
Definition mt_next (g : mt19937) : mt19937 * Z :=
  let x := Z.lxor (nth 397 g 0) (mt_twist (nth 0 g 0) (nth 1 g 0)) in
  (tail g ++ [x], mt_temper x).

(** [dist(rng)] for [std::uniform_int_distribution<int> dist(a, b)], and
    [std::shuffle]. *)
Class Random := {
  uniform_int : Z → Z → mt19937 → mt19937 * Z;
  shuffle : list Z → mt19937 → mt19937 * list Z;
}.

Class RandomOk `{Random} : Prop := {
  uniform_int_range a b g : a ≤ b → a ≤ (uniform_int a b g).2 ≤ b;
  shuffle_perm l g : (shuffle l g).2 ≡ₚ l;
}.

(** * Lemmas *)

(** The first numbers of a generator with the default seed. *)
Fixpoint mt_take (k : nat) (g : mt19937) : list Z :=
  match k with O => [] | S k' => let r := mt_next g in r.2 :: mt_take k' r.1 end.

Example mt19937_first :
  mt_take 5 (mt_seed 5489) = [3499211612; 581869302; 3890346734; 3586334585; 545404204].
Proof. vm_compute. reflexivity. Qed.

(** * Examples *)

Definition mod_random : Random := {|
  uniform_int a b g := let r := mt_next g in (r.1, a + r.2 mod (b - a + 1));
  shuffle l g := ((mt_next g).1, reverse l);
|}.

#[export] Instance mod_random_ok : RandomOk (H := mod_random).
Proof.
  split.
  - intros a b g Hab. cbn [uniform_int mod_random snd fst].
    pose proof (Z.mod_pos_bound (mt_next g).2 (b - a + 1) ltac:(lia)). lia.
  - intros l g. apply reverse_Permutation.
Qed.
