(* ===== verification/Bench.v ===== *)
(** The benchmark, src/bench/bench.cpp: the workloads and [main].

    A workload runs on any [Engine].  Its state is the engine, the generator it
    was given, the readings of the clock so far, and, for the statements about
    it, the calls it has made with their answers.  [run_conc_write] runs its
    threads in any order of their steps; the calls of the engine are atomic. *)

From Stdlib Require Import SpecFloat.
From stdpp Require Import sorting.
From S2P Require Import Prelude Text Coding MergeIterator SSTable Background Engine Stats Random.
Local Open Scope Z_scope.

(** * Definitions *)

(** ** Keys and integers *)

(** [snprintf] with "key%012d": the sign takes a place of the field. *)
Definition make_key (i : Z) : bytes :=
  bs "key" ++ if i <? 0 then x2d%byte :: padded 11 (- i) else padded 12 i.

(** The result of an operation on [int]s. *)
Definition int_op (z : Z) : result Z := if is_int z then Ok z else Undefined.

(** [std::vector]s cannot have the length a negative [int] is converted to. *)
Definition vector_length (n : Z) : result Z := if n <? 0 then Throw "vector" else Ok n.

(** ** The state of a workload *)

(** [std::chrono::steady_clock::now()], the n-th time. *)
Class Clock := { clock : nat → Z }.

Record Bench `{Engine} := mkBench {
  b_eng : engine;
  b_rng : mt19937;
  b_tick : nat;
  b_calls : list (engine_op * answer);
}.

Definition wrap {S A} (r : result A) : stm S A := raise r.

Section Workloads.
Context `{Engine} `{Clock} `{NthElement} `{Random}.

Definition now : stm Bench Z := λ b,
  (mkBench _ (b_eng b) (b_rng b) (S (b_tick b)) (b_calls b), Ok (clock (b_tick b))).

Definition call (op : engine_op) : stm Bench answer := λ b,
  let r := engine_call op (b_eng b) in
  (mkBench _ r.1 (b_rng b) (b_tick b)
     (b_calls b ++ match r.2 with Ok a => [(op, a)] | _ => [] end), r.2).

(** A call between two readings of the clock. *)
Definition timed (op : engine_op) : stm Bench double :=
  t0 ← now; _ ← call op; t1 ← now; mret (micros t0 t1).

(** [dist(rng)] *)
Definition draw (a b : Z) : stm Bench Z := λ st,
  let r := uniform_int a b (b_rng st) in
  (mkBench _ (b_eng st) r.1 (b_tick st) (b_calls st), Ok r.2).

(** The constructor of a distribution requires a ≤ b. *)
Definition uniform_int_distribution (a b : Z) : result (Z * Z) :=
  if a <=? b then Ok (a, b) else Undefined.

(** ** Workloads *)

Definition run_seq_write (n : Z) (value : bytes) : stm Bench Stats :=
  _ ← wrap (vector_length n);
  lat ← mapM (λ i, timed (OpPut (make_key i) value)) (seqZ 0 n);
  mret (compute_stats lat).

Definition shuffled (l : list Z) : stm Bench (list Z) := λ b,
  let r := shuffle l (b_rng b) in
  (mkBench _ (b_eng b) r.1 (b_tick b) (b_calls b), Ok r.2).

Definition run_rand_write (n : Z) (value : bytes) : stm Bench Stats :=
  _ ← wrap (vector_length n);
  order ← shuffled (seqZ 0 n);
  lat ← mapM (λ i, timed (OpPut (make_key i) value)) order;
  mret (compute_stats lat).

Definition load_sequential (n : Z) (value : bytes) : stm Bench unit :=
  _ ← mapM (λ i, call (OpPut (make_key i) value)) (seqZ 0 n);
  mret tt.

(** The loop of the two read workloads. *)
Definition read_loop (n a b : Z) : stm Bench (list double) :=
  mapM (λ _, k ← draw a b; timed (OpGet (make_key k))) (seqZ 0 n).

Definition run_rand_read_hit (n : Z) : stm Bench Stats :=
  hi ← wrap (int_op (n - 1));
  d ← wrap (uniform_int_distribution 0 hi);
  _ ← wrap (vector_length n);
  lat ← read_loop n d.1 d.2;
  mret (compute_stats lat).

Definition run_rand_read_miss (n : Z) : stm Bench Stats :=
  twice ← wrap (int_op (2 * n));
  hi ← wrap (int_op (twice - 1));
  d ← wrap (uniform_int_distribution n hi);
  _ ← wrap (vector_length n);
  lat ← read_loop n d.1 d.2;
  mret (compute_stats lat).

Definition one_scan (scan_len a b : Z) : stm Bench double :=
  start_idx ← draw a b;
  last ← wrap (last' ← int_op (start_idx + scan_len); int_op (last' - 1));
  timed (OpScan (make_key start_idx) (make_key last)).

Definition run_scan (n scan_len num_scans : Z) : stm Bench Stats :=
  m ← wrap (int_op (n - scan_len));
  let max_start := if m <? 0 then 0 else m in
  d ← wrap (uniform_int_distribution 0 max_start);
  _ ← wrap (vector_length num_scans);
  lat ← mapM (λ _, one_scan scan_len d.1 d.2) (seqZ 0 num_scans);
  mret (compute_stats lat).

(** *** Concurrent writers *)

(** Where a thread is in its loop, and what it has measured. *)
Inductive phase := Begin | Writing (t0 : Z) | Measuring (t0 : Z).

Record Thread := mkThread {
  th_i : Z;
  th_end : Z;
  th_phase : phase;
  th_lat : list double;
}.

Definition writer_step (value : bytes) (th : Thread) : stm Bench Thread :=
  match th_phase th with
  | Begin =>
      if th_i th <? th_end th
      then t0 ← now; mret (mkThread (th_i th) (th_end th) (Writing t0) (th_lat th))
      else mret th
  | Writing t0 =>
      _ ← call (OpPut (make_key (th_i th)) value);
      mret (mkThread (th_i th) (th_end th) (Measuring t0) (th_lat th))
  | Measuring t0 =>
      t1 ← now;
      mret (mkThread (th_i th + 1) (th_end th) Begin (th_lat th ++ [micros t0 t1]))
  end.

(** The threads in the order of the schedule. *)
Fixpoint run_threads (value : bytes) (sched : list nat) (ths : list Thread) : stm Bench (list Thread) :=
  match sched with
  | [] => mret ths
  | t :: sched' =>
      ths' ← match ths !! t with
             | Some th => th' ← writer_step value th; mret (<[t := th']> ths)
             | None => mret ths
             end;
      run_threads value sched' ths'
  end.

Definition start_thread (per_thread t : Z) : result Thread :=
  start ← int_op (t * per_thread);
  stop ← int_op (start + per_thread);
  Ok (mkThread start stop Begin []).

(** [sched] is the beginning of a schedule; [join] lets every thread come to
    its end. *)
Definition full_schedule (sched : list nat) (num_writers per_thread : Z) : list nat :=
  sched ++ (seq 0 (Z.to_nat num_writers) ≫= λ t, replicate (Z.to_nat (3 * per_thread)) t).

Definition run_conc_write (sched : list nat) (n : Z) (value : bytes) (num_writers : Z) : stm Bench Stats :=
  _ ← wrap (if num_writers =? 0 then Undefined else Ok tt);
  per_thread ← wrap (int_op (Z.quot n num_writers));
  _ ← wrap (vector_length num_writers);
  wall_t0 ← now;
  _ ← wrap (vector_length per_thread);
  ths ← wrap (mapM (start_thread per_thread) (seqZ 0 num_writers));
  ths' ← run_threads value (full_schedule sched num_writers per_thread) ths;
  wall_t1 ← now;
  _ ← wrap (vector_length n);
  let all_lats := ths' ≫= th_lat in
  let stats := compute_stats all_lats in
  mret (mkStats (ddiv (of_int (Z.of_nat (length all_lats))) (seconds wall_t0 wall_t1))
    (p50_us stats) (p99_us stats)).

End Workloads.

(** ** Arguments *)

Record Config := mkConfig {
  c_n : Z;
  c_value_bytes : Z;
  c_scan_len : Z;
  c_num_scans : Z;
  c_num_writers : Z;
  c_base_dir : bytes;
  c_sync_mode : bytes;
  c_workload_filter : bytes;
}.

Definition default_config : Config := mkConfig 200000 100 100 2000 1 [] (bs "durable") [].

(** One option with its value. *)
Definition set_option (c : Config) (arg value : bytes) : result (option Config) :=
  let 'mkConfig n v sl sc w d s f := c in
  if bool_decide (arg = bs "-n") then x ← atoi value; Ok (Some (mkConfig x v sl sc w d s f))
  else if bool_decide (arg = bs "-v") then x ← atoi value; Ok (Some (mkConfig n x sl sc w d s f))
  else if bool_decide (arg = bs "-scan-len") then x ← atoi value; Ok (Some (mkConfig n v x sc w d s f))
  else if bool_decide (arg = bs "-scans") then x ← atoi value; Ok (Some (mkConfig n v sl x w d s f))
  else if bool_decide (arg = bs "-writers") then x ← atoi value; Ok (Some (mkConfig n v sl sc x d s f))
  else if bool_decide (arg = bs "-dir") then Ok (Some (mkConfig n v sl sc w value s f))
  else if bool_decide (arg = bs "-sync") then Ok (Some (mkConfig n v sl sc w d value f))
  else if bool_decide (arg = bs "-workloads") then Ok (Some (mkConfig n v sl sc w d s value))
  else Ok None.

(** [None]: the usage is printed and [main] returns 1. *)
Fixpoint parse_args (argv : list bytes) (c : Config) : result (option Config) :=
  match argv with
  | [] => Ok (Some c)
  | [_] => Ok None
  | arg :: value :: argv' =>
      r ← set_option c arg value;
      match r with Some c' => parse_args argv' c' | None => Ok None end
  end.

Definition parse_workloads (arg : bytes) : gset bytes :=
  list_to_set (List.filter (λ t, negb (bool_decide (t = []))) (pieces x2c%byte arg)).

(** ** Main *)

Inductive Workload := SeqWrite | RandWrite | RandReadHit | RandReadMiss | ScanRange | ConcWrite.

#[export] Instance workload_eq_dec : EqDecision Workload.
Proof. solve_decision. Defined.

Definition wl_name (w : Workload) : bytes :=
  match w with
  | SeqWrite => bs "seq_write"
  | RandWrite => bs "rand_write"
  | RandReadHit => bs "rand_read_hit"
  | RandReadMiss => bs "rand_read_miss"
  | ScanRange => bs "scan"
  | ConcWrite => bs "conc_write"
  end.

Definition workloads : list Workload :=
  [SeqWrite; RandWrite; RandReadHit; RandReadMiss; ScanRange; ConcWrite].

Definition is_read_workload (w : Workload) : bool :=
  bool_decide (w ∈ [RandReadHit; RandReadMiss; ScanRange]).

(** ** The file system *)

(** What [std::filesystem] and [fopen] find: whether a directory could be
    emptied and made, or removed; [Some true] for a directory, [Some false] for
    anything else at the path; whether a file can be opened for appending, and
    what it holds. *)
Class Filesystem := {
  temp_directory_path : result bytes;
  fs_renew : bytes → bool;
  fs_remove_all : bytes → bool;
  fs_status : bytes → result (option bool);
  fs_append : bytes → bool;
  fs_text : bytes → bytes;
}.

(** Without the longest end that satisfies [f]. *)
Fixpoint drop_end (f : byte → bool) (s : bytes) : bytes :=
  match s with
  | [] => []
  | b :: s' =>
      match drop_end f s' with
      | [] => if f b then [] else [b]
      | r => b :: r
      end
  end.

Definition slash : byte := x2f%byte.
Definition is_slash (b : byte) : bool := bool_decide (b = slash).

(** [path::parent_path()]: the path without its last component; a root stays. *)
Definition parent_path (p : bytes) : bytes :=
  if forallb is_slash p then p else
  let dir := drop_end (λ b, negb (is_slash b)) p in
  match drop_end is_slash dir with
  | [] => if bool_decide (dir = []) then [] else [slash]
  | d => d
  end.

(** [path / name], for a relative [name]. *)
Definition path_join (p name : bytes) : bytes :=
  if bool_decide (p = []) || bool_decide (last p = Some slash) then p ++ name
  else p ++ [slash] ++ name.

(** Where the results go. *)
Definition results_path `{Filesystem} (argv0 : bytes) : result bytes :=
  let exe_path := parent_path argv0 in
  let src_bench := path_join (parent_path exe_path) (bs "bench") in
  st ← fs_status src_bench;
  Ok (if bool_decide (st = Some true) then path_join src_bench (bs "results.csv")
      else exe_path ++ bs "/results.csv").

(** The directory of [make_temp]. *)
Definition temp_dir `{Filesystem} (base_dir label : bytes) : result bytes :=
  if bool_decide (base_dir = []) then
    tmp ← temp_directory_path; Ok (tmp ++ bs "/ks_bench_" ++ label)
  else Ok (base_dir ++ bs "/" ++ label).

Inductive dir_event := Made (dir : bytes) | Removed (dir : bytes).

Record Row := mkRow { r_engine : bytes; r_workload : bytes; r_stats : Stats }.

(** The generator of the seeds, the clock, the calls that were made, and what
    was done to directories. *)
Record Env := mkEnv {
  rng_seed_gen : mt19937;
  env_tick : nat;
  env_calls : list (engine_op * answer);
  env_dirs : list dir_event;
}.

(** What is fixed during the run: the configuration, the value that is
    written, and how the threads of [run_conc_write] are scheduled. *)
Record Setup := mkSetup { su_config : Config; su_value : bytes; su_durable : bool; su_sched : list nat }.

(** The bytes of the value; the elements of the vector are set in order. *)
Fixpoint random_bytes (k : nat) (g : mt19937) : bytes :=
  match k with
  | O => []
  | S k' => let r := mt_next g in u8 (Z.land r.2 0xFF) :: random_bytes k' r.1
  end.

Section Main.
Context `{Clock} `{NthElement} `{Random}.

Definition seed_rng : stm Env mt19937 := λ v,
  let r := mt_next (rng_seed_gen v) in (mkEnv r.1 (env_tick v) (env_calls v) (env_dirs v), Ok (mt_seed r.2)).

(** Runs a workload on an engine: the engine stays with the caller. *)
Definition run_on `{Engine} {A} (e : engine) (g : mt19937) (f : stm Bench A) : stm Env (A * engine) := λ v,
  let r := f (mkBench _ e g (env_tick v) (env_calls v)) in
  (mkEnv (rng_seed_gen v) (b_tick r.1) (b_calls r.1) (env_dirs v), a ← r.2; Ok (a, b_eng r.1)).

Definition load_then_read `{Engine} (su : Setup) (g : mt19937) (measure : stm Bench Stats) : stm Env Stats :=
  loader ← raise (engine_open empty_dir false);
  l ← run_on loader g (load_sequential (c_n (su_config su)) (su_value su));
  eng ← raise (d ← engine_close l.2; engine_open d (su_durable su));
  r ← run_on eng g measure;
  mret r.1.

Definition measure `{Engine} (su : Setup) (w : Workload) : stm Bench Stats :=
  let c := su_config su in
  match w with
  | SeqWrite => run_seq_write (c_n c) (su_value su)
  | RandWrite => run_rand_write (c_n c) (su_value su)
  | RandReadHit => run_rand_read_hit (c_n c)
  | RandReadMiss => run_rand_read_miss (c_n c)
  | ScanRange => run_scan (c_n c) (c_scan_len c) (c_num_scans c)
  | ConcWrite => run_conc_write (su_sched su) (c_n c) (su_value su) (c_num_writers c)
  end.

(** One workload on one engine, in a new directory. *)
Definition run_workload `{Engine} (su : Setup) (w : Workload) : stm Env Row :=
  stats ←
    (if is_read_workload w then
       g ← seed_rng;
       load_then_read su g (measure su w)
     else
       eng ← raise (engine_open empty_dir (su_durable su));
       g ← (if bool_decide (w = RandWrite) then seed_rng else mret []);
       r ← run_on eng g (measure su w);
       mret r.1);
  mret (mkRow engine_name (wl_name w) stats).

(** Something happens to a directory, if the system lets it. *)
Definition dir_action (ok : bool) (ev : dir_event) : stm Env unit := λ v,
  if ok then (mkEnv (rng_seed_gen v) (env_tick v) (env_calls v) (env_dirs v ++ [ev]), Ok tt)
  else (v, Throw "filesystem error").

(** [remove_all] and [create_directories] *)
Definition make_temp `{Filesystem} (su : Setup) (label : bytes) : stm Env bytes :=
  dir ← raise (temp_dir (c_base_dir (su_config su)) label);
  _ ← dir_action (fs_renew dir) (Made dir);
  mret dir.

(** The block around a run of a workload. *)
Definition in_temp_dir `{Filesystem} (su : Setup) (label : bytes) (run : stm Env Row) : stm Env Row :=
  dir ← make_temp su label;
  row ← run;
  _ ← dir_action (fs_remove_all dir) (Removed dir);
  mret row.

Definition keystone_label (w : Workload) : bytes := bs "keystone_" ++ wl_name w.
Definition sqlite_label (w : Workload) : bytes := bs "sqlite_" ++ wl_name w.

Definition selected (filter : gset bytes) (w : Workload) : bool :=
  bool_decide (filter = ∅) || bool_decide (wl_name w ∈ filter).

(** The loop over the workloads, with the two engines of each. *)
Fixpoint run_all `{Filesystem} (keystone sqlite : Workload → Engine) (su : Setup) (filter : gset bytes)
    (ws : list Workload) : stm Env (list Row) :=
  match ws with
  | [] => mret []
  | w :: ws' =>
      if selected filter w then
        r1 ← in_temp_dir su (keystone_label w) (run_workload (H2 := keystone w) su w);
        r2 ← in_temp_dir su (sqlite_label w) (run_workload (H2 := sqlite w) su w);
        rs ← run_all keystone sqlite su filter ws';
        mret (r1 :: r2 :: rs)
      else run_all keystone sqlite su filter ws'
  end.

End Main.

(** [selected_workloads] *)
Definition filter_of (c : Config) : gset bytes :=
  if bool_decide (c_workload_filter c = []) then ∅ else parse_workloads (c_workload_filter c).

(** ** Output *)

Section Output.
Context `{NanSign}.

Definition newline : bytes := [x0a%byte].
Definition space : bytes := [x20%byte].
Definition comma : byte := x2c%byte.

(** The format of the table. *)
Definition table_line (a b c d e : bytes) : bytes :=
  pad_right 12 a ++ space ++ pad_right 16 b ++ space ++ pad_left 12 c ++ space ++
  pad_left 10 d ++ space ++ pad_left 10 e ++ newline.

Definition table_row (r : Row) : bytes :=
  table_line (r_engine r) (r_workload r)
    (fixed 0 (ops_per_sec (r_stats r))) (fixed 1 (p50_us (r_stats r))) (fixed 1 (p99_us (r_stats r))).

Definition print_table (rows : list Row) : bytes :=
  table_line (bs "Engine") (bs "Workload") (bs "ops/s") (bs "p50 us") (bs "p99 us") ++
  table_line (bs "------") (bs "--------") (bs "-----") (bs "------") (bs "------") ++
  (rows ≫= table_row).

(** Fields with commas between them. *)
Fixpoint comma_line (fields : list bytes) : bytes :=
  match fields with
  | [] => newline
  | [f] => f ++ newline
  | f :: fields' => f ++ [comma] ++ comma_line fields'
  end.

Definition csv_columns : list bytes :=
  [bs "engine"; bs "workload"; bs "sync"; bs "ops_per_s"; bs "p50_us"; bs "p99_us"; bs "n";
   bs "value_bytes"; bs "writers"].

Definition csv_fields (c : Config) (r : Row) : list bytes :=
  [r_engine r; r_workload r; c_sync_mode c; fixed 0 (ops_per_sec (r_stats r));
   fixed 1 (p50_us (r_stats r)); fixed 1 (p99_us (r_stats r));
   int_text (c_n c); int_text (c_value_bytes c); int_text (c_num_writers c)].

(** What is written to the file of results. *)
Definition csv_text (write_header : bool) (c : Config) (rows : list Row) : bytes :=
  (if write_header then comma_line csv_columns else []) ++
  (rows ≫= λ r, comma_line (csv_fields c r)).

Definition print_config (c : Config) : bytes :=
  bs "Config: n=" ++ int_text (c_n c) ++ bs " value_bytes=" ++ int_text (c_value_bytes c) ++
  bs " scan_len=" ++ int_text (c_scan_len c) ++ bs " scans=" ++ int_text (c_num_scans c) ++
  bs " writers=" ++ int_text (c_num_writers c) ++ bs " sync=" ++ c_sync_mode c ++ newline.

(** A [std::set] is in order. *)
Definition print_workloads (filter : gset bytes) : bytes :=
  if bool_decide (filter = ∅) then [] else
  bs "Workloads:" ++ (merge_sort key_le (elements filter) ≫= λ w, space ++ w) ++ newline.

(** The fields of [uname], when it succeeds. *)
Definition print_environment (uts : option (list bytes)) : bytes :=
  match uts with
  | Some fields => bs "Environment:" ++ (fields ≫= λ f, space ++ f) ++ newline
  | None => []
  end.

End Output.

Definition usage : bytes :=
  bs "Usage: bench [-n ops] [-v value_bytes] [-scan-len L] " ++
  bs "[-scans M] [-writers T] [-dir tmpdir] [-sync durable|batched] " ++
  bs "[-workloads name,name,...]" ++ newline.

(** The end of the process: its status, what it printed, and the file that it
    appended to, with its contents. *)
Record Outcome := mkOutcome {
  o_code : Z;
  o_stdout : bytes;
  o_stderr : bytes;
  o_csv : option (bytes * bytes);
}.

(** The results are appended to a file, if it can be opened. *)
Definition write_results `{NanSign} `{Filesystem} (argv0 out : bytes) (c : Config) (rows : list Row)
  : result Outcome :=
  csv_path ← results_path argv0;
  st ← fs_status csv_path;
  Ok (if fs_append csv_path
      then mkOutcome 0 (out ++ newline ++ bs "Results appended to " ++ csv_path ++ newline) []
             (Some (csv_path, fs_text csv_path ++ csv_text (bool_decide (st = None)) c rows))
      else mkOutcome 0 out (bs "Warning: could not open " ++ csv_path ++ bs " for writing" ++ newline) None).

(** [argv0] and the arguments behind it; [uts] is what [uname] found. *)
Definition bench_main `{NanSign} `{Clock} `{NthElement} `{Random} `{Filesystem}
    (keystone sqlite : Workload → Engine) (sched : list nat) (uts : option (list bytes)) (argv0 : bytes)
    (argv : list bytes) : result Outcome :=
  parsed ← parse_args argv default_config;
  match parsed with
  | None => Ok (mkOutcome 1 [] usage None)
  | Some c =>
      let durable := bool_decide (c_sync_mode c = bs "durable") in
      let filter := filter_of c in
      _ ← vector_length (c_value_bytes c);
      let value := random_bytes (Z.to_nat (c_value_bytes c)) (mt_seed 12345) in
      rows ← (run_all keystone sqlite (mkSetup c value durable sched) filter workloads
               (mkEnv (mt_seed 42) 0 [] [])).2;
      write_results argv0 (print_environment uts ++ print_config c ++ print_workloads filter ++ newline ++
                           print_table rows) c rows
  end.

(** * Lemmas *)

(** ** Keys *)

Lemma make_key_nonneg i : 0 ≤ i → make_key i = bs "key" ++ padded 12 i.
Proof. intros Hi. unfold make_key. by replace (i <? 0) with false by lia. Qed.

Lemma make_key_inj i j :
  0 ≤ i < 2 ^ 31 → 0 ≤ j < 2 ^ 31 → make_key i = make_key j → i = j.
Proof.
  intros Hi Hj. rewrite !make_key_nonneg by lia. intros E%(inj (bs "key" ++.)). by apply padded_inj in E.
Qed.

Lemma key_lt_app p s t : key_lt s t → key_lt (p ++ s) (p ++ t).
Proof. intros Hl. induction p as [|b p IH]; [done|]. unfold key_lt in *. simpl. by rewrite Z.compare_refl. Qed.

(** The keys are in the order of the numbers. *)
Lemma make_key_order i j : 0 ≤ i → i < j → j < 2 ^ 31 → key_lt (make_key i) (make_key j).
Proof.
  intros Hi Hij Hj. rewrite !make_key_nonneg by lia. apply key_lt_app. apply padded_order; lia.
Qed.

Lemma make_key_le i j :
  0 ≤ i < 2 ^ 31 → 0 ≤ j < 2 ^ 31 → key_le (make_key i) (make_key j) ↔ i ≤ j.
Proof.
  intros Hi Hj. rewrite key_le_lteq. split.
  - intros [Hlt|E]; [|apply make_key_inj in E; lia]. destruct (decide (i ≤ j)); [done|].
    destruct (key_lt_asym _ _ Hlt). apply make_key_order; lia.
  - intros Hij. destruct (decide (i = j)) as [->|]; [by right|left]. apply make_key_order; lia.
Qed.

(** ** What a workload does to the engine *)

(** The map after the operations. *)
Definition map_after (ops : list engine_op) (m : gmap bytes bytes) : gmap bytes bytes :=
  fold_left (λ m op, (map_call op m).1) ops m.

Lemma map_calls_app ops ops' m : map_calls (ops ++ ops') m = map_calls ops m ++ map_calls ops' (map_after ops m).
Proof. revert m. induction ops as [|op ops IH]; intros m; [done|]. simpl. by rewrite IH. Qed.

Lemma map_calls_length ops m : length (map_calls ops m) = length ops.
Proof. revert m. induction ops as [|op ops IH]; intros m; simpl; [done|by rewrite IH]. Qed.

(** The calls of a loop, with the generator going on at each iteration. *)
Fixpoint loop_ops (step : mt19937 → mt19937) (ops : mt19937 → Z → list engine_op) (l : list Z)
    (g : mt19937) : list engine_op :=
  match l with [] => [] | i :: l' => ops g i ++ loop_ops step ops l' (step g) end.

(** The calls of the workloads. *)
Definition put_ops (value : bytes) (l : list Z) : list engine_op :=
  (λ i, OpPut (make_key i) value) <$> l.

Definition read_ops `{Random} (n a b : Z) (g : mt19937) : list engine_op :=
  loop_ops (λ g, (uniform_int a b g).1) (λ g _, [OpGet (make_key (uniform_int a b g).2)]) (seqZ 0 n) g.

Definition scan_ops `{Random} (num_scans scan_len max_start : Z) (g : mt19937) : list engine_op :=
  loop_ops (λ g, (uniform_int 0 max_start g).1)
    (λ g _, let i := (uniform_int 0 max_start g).2 in
       [OpScan (make_key i) (make_key (i + scan_len - 1))]) (seqZ 0 num_scans) g.

Lemma loop_ops_puts value l g :
  loop_ops id (λ _ i, [OpPut (make_key i) value]) l g = put_ops value l.
Proof. induction l as [|i l IH]; [done|]. simpl. f_equal. apply IH. Qed.

Lemma fold_left_same {A B} (l : list B) (a : A) : fold_left (λ a _, id a) l a = a.
Proof. by induction l. Qed.

(** What a thread has still to do: its calls, the number of its steps, and the
    measurements it has when it is done. *)
Definition thread_ok (th : Thread) : Prop :=
  match th_phase th with Begin => th_i th ≤ th_end th | _ => th_i th < th_end th end.

Definition thread_ops (value : bytes) (th : Thread) : list engine_op :=
  match th_phase th with
  | Measuring _ => put_ops value (seqZ (th_i th + 1) (th_end th - th_i th - 1))
  | _ => put_ops value (seqZ (th_i th) (th_end th - th_i th))
  end.

Definition work (th : Thread) : nat :=
  (Z.to_nat (3 * (th_end th - th_i th)) -
   match th_phase th with Begin => 0 | Writing _ => 1 | Measuring _ => 2 end)%nat.

Definition final_count (th : Thread) : nat := length (th_lat th) + Z.to_nat (th_end th - th_i th).

(** How often the schedule runs a thread. *)
Definition steps (t : nat) (sched : list nat) : nat := length (List.filter (Nat.eqb t) sched).

Lemma insert_bind {A B} (f : A → list B) (l : list A) i x :
  l !! i = Some x → ∃ rest, l ≫= f ≡ₚ f x ++ rest ∧ ∀ y, <[i := y]> l ≫= f ≡ₚ f y ++ rest.
Proof.
  intros Hi. exists ((take i l ≫= f) ++ (drop (S i) l ≫= f)). split.
  - rewrite <- (take_drop_middle l i x Hi) at 1. rewrite bind_app. cbn. apply Permutation_app_swap_app.
  - intros y. rewrite insert_take_drop by (by eapply lookup_lt_Some). rewrite bind_app. cbn.
    apply Permutation_app_swap_app.
Qed.

Lemma int_op_ok z : - 2 ^ 31 ≤ z < 2 ^ 31 → int_op z = Ok z.
Proof.
  intros Hz. unfold int_op. replace (is_int z) with true; [done|]. unfold is_int.
  symmetry. apply andb_true_intro. split; lia.
Qed.

(** A thread with no steps left has made its calls and its measurements. *)
Lemma work_done value th :
  thread_ok th → work th = O → thread_ops value th = [] ∧ length (th_lat th) = final_count th.
Proof.
  destruct th as [i stop [|t0|t0] lat]; unfold thread_ok, work, thread_ops, final_count; simpl; intros Hok Hw; [|lia..].
  replace (stop - i) with 0 by lia. split; [done|]. simpl. lia.
Qed.

Lemma steps_app t s1 s2 : steps t (s1 ++ s2) = (steps t s1 + steps t s2)%nat.
Proof. unfold steps. by rewrite List.filter_app, length_app. Qed.

Lemma steps_replicate t k : steps t (replicate k t) = k.
Proof.
  unfold steps. rewrite filter_all, length_replicate; [done|]. intros u [-> _]%elem_of_replicate.
  apply Nat.eqb_refl.
Qed.

Lemma full_schedule_steps sched w per t :
  (t < Z.to_nat w)%nat → (Z.to_nat (3 * per) ≤ steps t (full_schedule sched w per))%nat.
Proof.
  intros Ht. unfold full_schedule. rewrite steps_app.
  assert (seq 0 (Z.to_nat w) = seq 0 t ++ t :: seq (S t) (Z.to_nat w - S t)) as ->.
  { replace (Z.to_nat w) with (t + (1 + (Z.to_nat w - S t)))%nat at 1 by lia. rewrite !seq_app. simpl. by rewrite Nat.add_1_r. }
  rewrite bind_app, steps_app. rewrite bind_cons, steps_app, steps_replicate. lia.
Qed.

(** The threads at the start. *)
Definition new_thread (per t : Z) : Thread := mkThread (t * per) (t * per + per) Begin [].

Lemma new_thread_counts per t :
  work (new_thread per t) = Z.to_nat (3 * per) ∧ final_count (new_thread per t) = Z.to_nat per.
Proof. unfold work, final_count. cbn. split; lia. Qed.

Lemma start_threads w per :
  0 ≤ per → w * per < 2 ^ 31 → mapM (start_thread per) (seqZ 0 w) = Ok (new_thread per <$> seqZ 0 w).
Proof.
  intros Hp Hb. assert (Forall (λ t, 0 ≤ t < w) (seqZ 0 w)) as Ht.
  { apply Forall_forall. intros t [? ?]%elem_of_seqZ. lia. }
  induction Ht as [|t l Ht _ IH]; [done|]. cbn [mapM fmap list_fmap].
  assert (start_thread per t = Ok (new_thread per t)) as ->; [|cbn [mbind result_bind]; by rewrite IH].
  unfold start_thread. rewrite int_op_ok by nia. cbn [mbind result_bind]. by rewrite int_op_ok by nia.
Qed.

Lemma new_threads_ops value w per :
  0 ≤ w → 0 ≤ per → ((new_thread per <$> seqZ 0 w) ≫= thread_ops value) = put_ops value (seqZ 0 (w * per)).
Proof.
  intros Hw Hp. revert w Hw. apply (natlike_ind _); [done|]. intros w Hw IH.
  rewrite <- Z.add_1_r, (seqZ_app 0 w 1), fmap_app, bind_app, IH by lia.
  rewrite Z.mul_add_distr_r, Z.mul_1_l, (seqZ_app 0 (w * per) per) by lia.
  unfold put_ops. rewrite fmap_app. f_equal. rewrite (seqZ_cons (0 + w)) by lia.
  change (seqZ _ (Z.pred 1)) with (@nil Z). cbn [fmap list_fmap]. rewrite bind_singleton.
  unfold thread_ops, put_ops. cbn [th_phase th_i th_end new_thread]. do 2 f_equal; lia.
Qed.

Lemma vector_length_ok n : 0 ≤ n → vector_length n = Ok n.
Proof. intros Hn. unfold vector_length. by replace (n <? 0) with false by lia. Qed.

Lemma distribution_ok a b : a ≤ b → uniform_int_distribution a b = Ok (a, b).
Proof. intros Hab. unfold uniform_int_distribution. by replace (a <=? b) with true by lia. Qed.

Lemma sorted_keys_seqZ i n : 0 ≤ i → i + n ≤ 2 ^ 31 → StronglySorted key_lt (make_key <$> seqZ i n).
Proof.
  intros Hi Hb. destruct (decide (0 ≤ n)) as [Hn|]; [|by rewrite seqZ_nil by lia; constructor].
  revert i Hi Hb. apply (natlike_ind (λ n, ∀ i, 0 ≤ i → i + n ≤ 2 ^ 31 → StronglySorted key_lt (make_key <$> seqZ i n)));
    [intros; constructor| |done].
  clear n Hn. intros n Hn IH i Hi Hb. rewrite seqZ_cons, Z.pred_succ by lia. constructor.
  - apply IH; lia.
  - apply Forall_fmap, Forall_forall. intros j Hj%elem_of_seqZ. apply make_key_order; lia.
Qed.

Section Performs.
#[local] Set Default Proof Using "All".
Context `{EngineOk} `{Clock} `{NthElementOk} `{RandomOk}.

(** From an engine that is ready for them, [f] makes the calls [ops], which
    are answered as a map does, and ends with a result that meets [Q]; the
    generator goes from [g] to [g']. *)
Definition performs {A} (g : mt19937) (f : stm Bench A) (ops : list engine_op) (g' : mt19937)
    (Q : A → Prop) : Prop :=
  ∀ b m, b_rng b = g → holds (b_eng b) m → ops_ready ops (b_eng b) →
  ∃ b' a, f b = (b', Ok a) ∧ b_rng b' = g' ∧ holds (b_eng b') (map_after ops m) ∧
    b_eng b' = (engine_calls ops (b_eng b)).1 ∧
    b_calls b' = b_calls b ++ zip ops (map_calls ops m) ∧ Q a.

Lemma engine_calls_cons op ops e e1 a :
  engine_call op e = (e1, Ok a) → (engine_calls (op :: ops) e).1 = (engine_calls ops e1).1.
Proof using Type.
  intros E. cbn [engine_calls]. rewrite (stm_bind_ok _ _ _ _ _ E).
  unfold mbind, stm_bind. by destruct (engine_calls ops e1) as [e2 []].
Qed.

(** Operations that have been made and operations to come. *)
Lemma ops_ready_app ops ops' e m :
  holds e m → ops_ready (ops ++ ops') e →
  ops_ready ops e ∧ ops_ready ops' (engine_calls ops e).1 ∧
    (engine_calls (ops ++ ops') e).1 = (engine_calls ops' (engine_calls ops e).1).1.
Proof.
  revert e m. induction ops as [|op ops IH]; intros e m Hh Hr; [done|]. destruct Hr as [Hr Hrs].
  destruct (engine_call_ok op e m Hh Hr) as (e1 & E & Hh1). cbn [app] in *.
  rewrite !(engine_calls_cons op _ e e1 _ E). cbn [ops_ready]. rewrite E in Hrs |- *. simpl in Hrs.
  destruct (IH e1 _ Hh1 Hrs) as (? & ? & ?). by split_and!.
Qed.

Lemma performs_ret {A} g (a : A) (Q : A → Prop) : Q a → performs g (mret a) [] g Q.
Proof using Type. intros HQ b m Hg Hh _. exists b, a. by rewrite app_nil_r. Qed.

Lemma performs_raise {A} g r (a : A) (Q : A → Prop) : r = Ok a → Q a → performs g (wrap r) [] g Q.
Proof using Type. intros -> HQ b m Hg Hh _. exists b, a. by rewrite app_nil_r. Qed.

Lemma performs_bind {A B} g g1 g2 (f : stm Bench A) (k : A → stm Bench B) ops1 ops2 P Q :
  performs g f ops1 g1 P → (∀ a, P a → performs g1 (k a) ops2 g2 Q) →
  performs g (f ≫= k) (ops1 ++ ops2) g2 Q.
Proof.
  intros Hf Hk b m Hg Hh Hr. destruct (ops_ready_app _ _ _ _ Hh Hr) as (Hr1 & Hr2 & Ee).
  destruct (Hf b m Hg Hh Hr1) as (b1 & a & E1 & Hg1 & Hh1 & Ee1 & Ec1 & HP). rewrite <- Ee1 in Hr2, Ee.
  destruct (Hk a HP b1 _ Hg1 Hh1 Hr2) as (b2 & a2 & E2 & Hg2 & Hh2 & Ee2 & Ec2 & HQ).
  exists b2, a2. rewrite (stm_bind_ok _ _ _ _ _ E1). split_and!; try done.
  - unfold map_after in *. by rewrite fold_left_app.
  - congruence.
  - rewrite Ec2, Ec1, map_calls_app, zip_with_app by (by rewrite map_calls_length). by rewrite app_assoc.
Qed.

(** No call on one of the sides. *)
Lemma performs_pure {A B} g (f : stm Bench A) (k : A → stm Bench B) ops g1 g2 P Q :
  performs g f [] g1 P → (∀ a, P a → performs g1 (k a) ops g2 Q) → performs g (f ≫= k) ops g2 Q.
Proof. apply (performs_bind g g1 g2 f k []). Qed.

Lemma performs_last {A B} g (f : stm Bench A) (k : A → stm Bench B) ops g1 g2 P Q :
  performs g f ops g1 P → (∀ a, P a → performs g1 (k a) [] g2 Q) → performs g (f ≫= k) ops g2 Q.
Proof. rewrite <- (app_nil_r ops) at 2. apply (performs_bind g g1 g2 f k ops []). Qed.

Lemma performs_now g : performs g now [] g (λ _, True).
Proof using Type.
  intros b m Hg Hh _. eexists _, _. split; [reflexivity|]. simpl. by rewrite app_nil_r.
Qed.

Lemma performs_call g op : performs g (call op) [op] g (λ _, True).
Proof.
  intros b m Hg Hh [Hr _]. destruct (engine_call_ok op (b_eng b) m Hh Hr) as (e' & E & Hh').
  unfold call. rewrite E. eexists _, _. split; [reflexivity|]. simpl.
  split_and!; try done. by rewrite (stm_bind_ok _ _ _ _ _ E).
Qed.

Lemma performs_timed g op : performs g (timed op) [op] g (λ d, ∃ t0 t1, d = micros t0 t1).
Proof.
  eapply performs_pure; [apply performs_now|]. intros t0 _. eapply performs_last; [apply performs_call|].
  intros _ _. eapply performs_pure; [apply performs_now|]. intros t1 _. apply performs_ret. by eexists _, _.
Qed.

Lemma performs_draw g a b : performs g (draw a b) [] (uniform_int a b g).1 (λ x, x = (uniform_int a b g).2).
Proof using Type.
  intros st m <- Hh _. eexists _, _. split; [reflexivity|]. simpl. by rewrite app_nil_r.
Qed.

Lemma performs_shuffled g l :
  performs g (shuffled l) [] (shuffle l g).1 (λ x, x = (shuffle l g).2).
Proof using Type.
  intros st m <- Hh _. eexists _, _. split; [reflexivity|]. simpl. by rewrite app_nil_r.
Qed.

(** A loop whose iterations each make the calls [ops g i], with the generator
    that the iterations before have left. *)
Lemma performs_loop {A} (f : Z → stm Bench A) (step : mt19937 → mt19937)
    (ops : mt19937 → Z → list engine_op) (P : Z → Prop) (Q : A → Prop) l g :
  (∀ g i, P i → performs g (f i) (ops g i) (step g) Q) → Forall P l →
  performs g (mapM f l) (loop_ops step ops l g) (fold_left (λ g _, step g) l g)
    (λ as_, length as_ = length l ∧ Forall Q as_).
Proof.
  intros Hf Hl. revert g. induction Hl as [|i l Hi _ IH]; intros g.
  { apply performs_ret. by split. }
  simpl. eapply performs_bind; [by apply Hf|]. intros a Ha. cbn beta.
  eapply performs_last; [apply IH|]. intros as_ [Hl HF]. apply performs_ret. simpl. split; [lia|by constructor].
Qed.

(** *** The workloads *)

(** A computation on integers that gives [v]. *)
Ltac passes v :=
  eapply performs_pure;
  [apply (performs_raise _ _ v (λ x, x = v));
    [first [apply int_op_ok | apply vector_length_ok | apply distribution_ok]; lia|done]
  |intros ? ->].

(** Statistics of so many measured intervals. *)
Definition stats_of (n : Z) (s : Stats) : Prop :=
  ∃ ts, Z.of_nat (length ts) = n ∧ s = compute_stats (latencies_of ts).

Lemma measured_latencies l :
  Forall (λ d, ∃ t0 t1, d = micros t0 t1) l → ∃ ts, l = latencies_of ts ∧ length ts = length l.
Proof using Type.
  induction 1 as [|d l (t0 & t1 & ->) _ (ts & -> & Hl)]; [by exists []|].
  exists ((t0, t1) :: ts). simpl. by rewrite Hl.
Qed.

Lemma measured_stats l i n :
  length l = length (seqZ i n) ∧ Forall (λ d, ∃ t0 t1, d = micros t0 t1) l → 0 ≤ n →
  stats_of n (compute_stats l).
Proof using Type.
  intros [Hl Hf] Hn. destruct (measured_latencies l Hf) as (ts & -> & Ets). exists ts.
  rewrite Ets, Hl, length_seqZ. split; [lia|done].
Qed.

Lemma performs_puts g value l :
  performs g (mapM (λ i, timed (OpPut (make_key i) value)) l) (put_ops value l) g
    (λ lat, length lat = length l ∧ Forall (λ d, ∃ t0 t1, d = micros t0 t1) lat).
Proof.
  pose proof (performs_loop (λ i, timed (OpPut (make_key i) value)) id
    (λ _ i, [OpPut (make_key i) value]) (λ _, True) (λ d, ∃ t0 t1, d = micros t0 t1) l g) as Hp.
  rewrite loop_ops_puts, fold_left_same in Hp. apply Hp; [|by apply Forall_true].
  intros. apply performs_timed.
Qed.

Lemma seq_write_performs g n value :
  0 ≤ n → performs g (run_seq_write n value) (put_ops value (seqZ 0 n)) g (stats_of n).
Proof.
  intros Hn. passes n. eapply performs_last; [apply performs_puts|]. intros lat Hl.
  apply performs_ret. by apply (measured_stats lat 0).
Qed.

Lemma rand_write_performs g n value :
  0 ≤ n →
  performs g (run_rand_write n value) (put_ops value (shuffle (seqZ 0 n) g).2) (shuffle (seqZ 0 n) g).1
    (stats_of n).
Proof.
  intros Hn. passes n. eapply performs_pure; [apply performs_shuffled|]. intros order ->.
  eapply performs_last; [apply performs_puts|]. intros lat [Hl Hf].
  apply performs_ret. eapply (measured_stats _ 0); [|done]. split; [|done]. rewrite Hl. 
  by rewrite (shuffle_perm (seqZ 0 n) g).
Qed.

Lemma load_performs g n value :
  performs g (load_sequential n value) (put_ops value (seqZ 0 n)) g (λ _, True).
Proof.
  eapply performs_last; [|intros; by apply performs_ret].
  pose proof (performs_loop (λ i, call (OpPut (make_key i) value)) id
    (λ _ i, [OpPut (make_key i) value]) (λ _, True) (λ _, True) (seqZ 0 n) g) as Hp.
  rewrite loop_ops_puts, fold_left_same in Hp. apply Hp; [|by apply Forall_true].
  intros. apply performs_call.
Qed.

Lemma read_loop_performs g n a b :
  performs g (read_loop n a b) (read_ops n a b g) (fold_left (λ g _, (uniform_int a b g).1) (seqZ 0 n) g)
    (λ lat, length lat = length (seqZ 0 n) ∧ Forall (λ d, ∃ t0 t1, d = micros t0 t1) lat).
Proof.
  apply (performs_loop _ _ _ (λ _, True)); [|by apply Forall_true]. intros g' i _.
  eapply performs_pure; [apply performs_draw|]. intros k ->. apply performs_timed.
Qed.

Lemma read_hit_performs g n :
  1 ≤ n < 2 ^ 31 → ∃ g', performs g (run_rand_read_hit n) (read_ops n 0 (n - 1) g) g' (stats_of n).
Proof.
  intros Hn. eexists. passes (n - 1). passes (0, n - 1). passes n. eapply performs_last; [apply read_loop_performs|]. intros lat Hl.
  apply performs_ret. eapply measured_stats; [exact Hl|lia].
Qed.

Lemma read_miss_performs g n :
  1 ≤ n < 2 ^ 30 → ∃ g', performs g (run_rand_read_miss n) (read_ops n n (2 * n - 1) g) g' (stats_of n).
Proof.
  intros Hn. eexists. passes (2 * n). passes (2 * n - 1). passes (n, 2 * n - 1). passes n. eapply performs_last; [apply read_loop_performs|]. intros lat Hl.
  apply performs_ret. eapply measured_stats; [exact Hl|lia].
Qed.

Lemma one_scan_performs g scan_len max_start :
  0 ≤ max_start → 1 ≤ scan_len → max_start + scan_len < 2 ^ 31 →
  performs g (one_scan scan_len 0 max_start)
    (let i := (uniform_int 0 max_start g).2 in [OpScan (make_key i) (make_key (i + scan_len - 1))])
    (uniform_int 0 max_start g).1 (λ d, ∃ t0 t1, d = micros t0 t1).
Proof.
  intros Hm Hs Hb. eapply performs_pure; [apply performs_draw|]. intros i ->. cbn zeta.
  pose proof (uniform_int_range 0 max_start g Hm). set (i := (uniform_int 0 max_start g).2) in *.
  eapply performs_pure; [apply (performs_raise _ _ (i + scan_len - 1) (λ x, x = i + scan_len - 1)); [|done]|].
  { rewrite int_op_ok by lia. cbn [mbind result_bind]. by rewrite int_op_ok by lia. }
  intros last ->. apply performs_timed.
Qed.

Lemma scan_performs g n scan_len num_scans :
  0 ≤ n < 2 ^ 31 → 1 ≤ scan_len < 2 ^ 31 → 0 ≤ num_scans →
  ∃ g', performs g (run_scan n scan_len num_scans) (scan_ops num_scans scan_len (Z.max 0 (n - scan_len)) g) g'
    (stats_of num_scans).
Proof.
  intros Hn Hl Hs. eexists. passes (n - scan_len).
  replace (if n - scan_len <? 0 then 0 else n - scan_len) with (Z.max 0 (n - scan_len))
    by (destruct (Z.ltb_spec (n - scan_len) 0); lia).
  passes (0, Z.max 0 (n - scan_len)). passes num_scans.
  eapply performs_last; [|intros lat Hlat; apply performs_ret; apply (measured_stats lat 0); [exact Hlat|lia]].
  apply (performs_loop _ _ _ (λ _, True)); [|by apply Forall_true]. intros g' i _.
  apply one_scan_performs; lia.
Qed.

(** *** Threads *)

Definition measured (l : list double) : Prop := Forall (λ d, ∃ t0 t1, d = micros t0 t1) l.

(** One step of a thread, where [rest] are the calls of the other threads. *)
Lemma writer_step_ok value th rest b m :
  thread_ok th → holds (b_eng b) m →
  (∀ ops, ops ≡ₚ thread_ops value th ++ rest → ops_ready ops (b_eng b)) →
  ∃ b' th' ops, writer_step value th b = (b', Ok th') ∧ ops ++ thread_ops value th' = thread_ops value th ∧
    holds (b_eng b') (map_after ops m) ∧ b_calls b' = b_calls b ++ zip ops (map_calls ops m) ∧
    (∀ ops', ops' ≡ₚ thread_ops value th' ++ rest → ops_ready ops' (b_eng b')) ∧
    thread_ok th' ∧ work th' = (work th - 1)%nat ∧ final_count th' = final_count th ∧
    (measured (th_lat th) → measured (th_lat th')).
Proof.
  intros Hok Hh Hr. destruct th as [i stop [|t0|t0] lat]; unfold thread_ok, writer_step in *;
    cbn [th_i th_end th_phase th_lat] in *.
  - destruct (Z.ltb_spec i stop).
    + eexists _, _, []. split; [reflexivity|]. cbn. rewrite app_nil_r. split_and!; try done; unfold work; simpl; lia.
    + eexists _, _, []. split; [reflexivity|]. cbn. rewrite app_nil_r. split_and!; try done. unfold work; simpl; lia.
  - assert (thread_ops value (mkThread i stop (Writing t0) lat) =
      OpPut (make_key i) value :: thread_ops value (mkThread i stop (Measuring t0) lat)) as Eops.
    { unfold thread_ops, put_ops. cbn. rewrite (seqZ_cons i) by lia. cbn. do 3 f_equal. }
    rewrite Eops in Hr. destruct (Hr _ (Permutation_refl _)) as [Hr1 _].
    destruct (engine_call_ok _ _ m Hh Hr1) as (e' & E & Hh').
    eexists _, _, [OpPut (make_key i) value]. split.
    { erewrite stm_bind_ok; [reflexivity|]. unfold call. rewrite E. reflexivity. }
    rewrite Eops. cbn in Hh'. split_and!; try done; [|unfold work; simpl; lia].
    intros ops' Hp. destruct (Hr (OpPut (make_key i) value :: ops')) as [_ Hr2]; [by rewrite Hp|]. by rewrite E in Hr2.
  - eexists _, _, []. split; [reflexivity|]. unfold thread_ops in *. cbn in *.
    replace (stop - (i + 1)) with (stop - i - 1) by lia. rewrite app_nil_r. split_and!; try done.
    + lia.
    + unfold work, final_count. cbn. lia.
    + unfold final_count. cbn. rewrite length_app. cbn. lia.
    + intros Hm. apply Forall_app. split; [done|]. constructor; [by eexists _, _|constructor].
Qed.

Definition progress (sched : list nat) (ths ths' : list Thread) : Prop :=
  length ths' = length ths ∧
  ∀ t th', ths' !! t = Some th' → ∃ th, ths !! t = Some th ∧ work th' = (work th - steps t sched)%nat ∧
    final_count th' = final_count th ∧ (measured (th_lat th) → measured (th_lat th')).

Lemma progress_refl ths : progress [] ths ths.
Proof using Type. split; [done|]. intros t th Ht. exists th. split_and!; try done. unfold steps; simpl; lia. Qed.

Lemma progress_step t sched ths ths1 ths2 :
  progress [t] ths ths1 → progress sched ths1 ths2 → progress (t :: sched) ths ths2.
Proof using Type.
  intros [L1 P1] [L2 P2]. split; [congruence|]. intros u th2 E2.
  destruct (P2 u th2 E2) as (th1 & E1 & W1 & F1 & M1). destruct (P1 u th1 E1) as (th & E & W & F & M).
  exists th. split_and!; [done| |congruence|auto]. rewrite W1, W. unfold steps. simpl.
  destruct (Nat.eqb u t); simpl; lia.
Qed.

(** A thread makes its step, the others stay where they are. *)
Lemma progress_one t ths th th' :
  ths !! t = Some th → work th' = (work th - 1)%nat → final_count th' = final_count th →
  (measured (th_lat th) → measured (th_lat th')) → progress [t] ths (<[t := th']> ths).
Proof using Type.
  intros E W F M. split; [apply length_insert|]. intros u th1 E1. unfold steps. simpl.
  destruct (decide (t = u)) as [->|Hne].
  - rewrite list_lookup_insert_eq in E1 by (by eapply lookup_lt_Some). simplify_eq. exists th.
    by rewrite Nat.eqb_refl.
  - rewrite list_lookup_insert_ne in E1 by done. exists th1.
    replace (Nat.eqb u t) with false by (symmetry; by apply Nat.eqb_neq). split_and!; try done. simpl. lia.
Qed.

Lemma progress_none t ths : ths !! t = None → progress [t] ths ths.
Proof using Type.
  intros E. split; [done|]. intros u th Eu. exists th. unfold steps. simpl.
  destruct (Nat.eqb_spec u t); [by simplify_eq|]. split_and!; try done. simpl. lia.
Qed.

Lemma run_threads_ok value sched ths b m :
  Forall thread_ok ths → holds (b_eng b) m →
  (∀ ops, ops ≡ₚ ths ≫= thread_ops value → ops_ready ops (b_eng b)) →
  ∃ b' ths' ops, run_threads value sched ths b = (b', Ok ths') ∧
    ops ++ (ths' ≫= thread_ops value) ≡ₚ ths ≫= thread_ops value ∧
    holds (b_eng b') (map_after ops m) ∧ b_calls b' = b_calls b ++ zip ops (map_calls ops m) ∧
    Forall thread_ok ths' ∧ progress sched ths ths'.
Proof.
  revert ths b m. induction sched as [|t sched IH]; intros ths b m Hok Hh Hr.
  { eexists _, ths, []. split; [reflexivity|]. rewrite app_nil_r. by split_and!; try apply progress_refl. }
  destruct (ths !! t) as [th|] eqn:Et.
  - destruct (insert_bind (thread_ops value) ths t th Et) as (rest & Eth & Eins).
    assert (thread_ok th) as Hth by (by eapply Forall_lookup_1).
    destruct (writer_step_ok value th rest b m Hth Hh) as (b1 & th' & ops1 & E1 & Eo & Hh1 & Ec1 & Hr1 & Hok' & W & F & M).
    { intros ops Hp. apply Hr. by rewrite Eth. }
    destruct (IH (<[t := th']> ths) b1 _ ltac:(by apply Forall_insert) Hh1) as (b2 & ths2 & ops2 & E2 & Ep2 & Hh2 & Ec2 & Hok2 & Pr).
    { intros ops Hp. apply Hr1. by rewrite Hp, Eins. }
    exists b2, ths2, (ops1 ++ ops2). split_and!.
    + cbn [run_threads]. rewrite Et. erewrite stm_bind_ok; [exact E2|]. by erewrite stm_bind_ok by exact E1.
    + by rewrite <- app_assoc, Ep2, Eins, app_assoc, Eo, Eth.
    + unfold map_after in *. by rewrite fold_left_app.
    + rewrite Ec2, Ec1, map_calls_app, zip_with_app by (by rewrite map_calls_length). by rewrite app_assoc.
    + done.
    + eapply progress_step; [|exact Pr]. by apply (progress_one t ths th).
  - destruct (IH ths b m Hok Hh Hr) as (b2 & ths2 & ops2 & E2 & Hrest). exists b2, ths2, ops2.
    cbn [run_threads]. rewrite Et. erewrite stm_bind_ok by reflexivity. destruct Hrest as (? & ? & ? & ? & Pr).
    split_and!; try done. eapply progress_step; [by apply progress_none|done].
Qed.

(** At the end of a full schedule every thread is done. *)
Lemma threads_done value sched w per ths' :
  0 ≤ w → 0 ≤ per → Forall thread_ok ths' →
  progress (full_schedule sched w per) (new_thread per <$> seqZ 0 w) ths' →
  (ths' ≫= thread_ops value) = [] ∧ measured (ths' ≫= th_lat) ∧
    Z.of_nat (length (ths' ≫= th_lat)) = w * per.
Proof using Type.
  intros Hw Hp Hok [Hlen Hpr]. rewrite length_fmap, length_seqZ in Hlen.
  assert (Forall (λ th, thread_ops value th = [] ∧ measured (th_lat th) ∧
    length (th_lat th) = Z.to_nat per) ths') as Hall.
  { apply Forall_lookup. intros t th' Ht. destruct (Hpr t th' Ht) as (th & E & W & F & M).
    apply list_lookup_fmap_Some in E as (i & -> & Ei). apply lookup_seqZ in Ei as [-> Hi].
    pose proof (full_schedule_steps sched w per t ltac:(lia)) as Hst.
    destruct (new_thread_counts per (0 + Z.of_nat t)) as [Ew Ef]. rewrite Ew in W. rewrite Ef in F.
    assert (work th' = O) as W0 by (rewrite W; lia).
    destruct (work_done value th' ltac:(by eapply Forall_lookup_1) W0) as [Eo El].
    split_and!; [done|apply M; constructor|]. rewrite El, F. lia. }
  clear -Hall Hlen Hw Hp. assert (w * per = Z.of_nat (length ths') * per) as -> by (rewrite Hlen; nia).
  clear Hlen Hw. induction Hall as [|th l (E1 & E2 & E3) _ (IH1 & IH2 & IH3)]; [split_and!; by try constructor|].
  rewrite !bind_cons, E1, IH1. split_and!; [done|by apply Forall_app|].
  rewrite length_app, E3. cbn [length]. lia.
Qed.

Lemma conc_write_ok sched n value w b m :
  0 ≤ n < 2 ^ 31 → 1 ≤ w < 2 ^ 31 → holds (b_eng b) m →
  (∀ ops, ops ≡ₚ put_ops value (seqZ 0 (w * (n / w))) → ops_ready ops (b_eng b)) →
  ∃ b' s s0 ops, run_conc_write sched n value w b = (b', Ok s) ∧
    ops ≡ₚ put_ops value (seqZ 0 (w * (n / w))) ∧ holds (b_eng b') (map_after ops m) ∧
    b_calls b' = b_calls b ++ zip ops (map_calls ops m) ∧
    stats_of (w * (n / w)) s0 ∧ p50_us s = p50_us s0 ∧ p99_us s = p99_us s0.
Proof.
  intros Hn Hw Hh Hr. set (per := n / w) in *.
  assert (0 ≤ per) as Hp by (apply Z.div_pos; lia).
  assert (w * per ≤ n) as Hb by (apply Z.mul_div_le; lia).
  set (b0 := mkBench _ (b_eng b) (b_rng b) (S (b_tick b)) (b_calls b)).
  destruct (run_threads_ok value (full_schedule sched w per) (new_thread per <$> seqZ 0 w) b0 m)
    as (b' & ths' & ops & E & Ep & Hh' & Ec & Hok & Pr); [|done| |].
  { apply Forall_fmap, Forall_true. intros t. unfold thread_ok. cbn. lia. }
  { intros ops Hops. apply Hr. by rewrite Hops, new_threads_ops by lia. }
  rewrite new_threads_ops in Ep by lia.
  destruct (threads_done value sched w per ths') as (E0 & Hm & Hlen); [lia|done|done|done|].
  rewrite E0, app_nil_r in Ep.
  eexists _, _, (compute_stats (ths' ≫= th_lat)), ops. split.
  { unfold run_conc_write. replace (w =? 0) with false by lia. erewrite stm_bind_ok by reflexivity.
    rewrite Z.quot_div_nonneg by lia. fold per. rewrite (int_op_ok per) by nia.
    erewrite stm_bind_ok by reflexivity. rewrite (vector_length_ok w), (vector_length_ok n) by lia.
    do 2 (erewrite stm_bind_ok by reflexivity). rewrite (vector_length_ok per) by lia.
    erewrite stm_bind_ok by reflexivity. rewrite start_threads by lia.
    erewrite stm_bind_ok by reflexivity. erewrite stm_bind_ok by exact E. reflexivity. }
  split_and!; try done. destruct (measured_latencies _ Hm) as (ts & Ets & Ht). exists ts.
  rewrite <- Ets, Ht. by split.
Qed.

End Performs.

(** ** What the engine answers *)

Lemma map_after_puts value l m k :
  map_after (put_ops value l) m !! k = if bool_decide (k ∈ make_key <$> l) then Some value else m !! k.
Proof.
  revert m. induction l as [|i l IH]; intros m; [done|]. cbn [put_ops fmap list_fmap map_after fold_left].
  fold (put_ops value l). change (fold_left _ (put_ops value l) ?x) with (map_after (put_ops value l) x).
  rewrite IH. cbn [map_call fst]. destruct (decide (k = make_key i)) as [->|Hne].
  - rewrite lookup_insert_eq, (bool_decide_eq_true_2 (_ ∈ _ :: _)) by (by left). by case_bool_decide.
  - rewrite lookup_insert_ne by done. apply (f_equal (λ b : bool, if b then _ else _)).
    apply bool_decide_ext. rewrite elem_of_cons. tauto.
Qed.

Lemma map_calls_puts value l m :
  zip (put_ops value l) (map_calls (put_ops value l) m) = (λ i, (OpPut (make_key i) value, Written)) <$> l.
Proof.
  revert m. induction l as [|i l IH]; intros m; [done|]. cbn. f_equal. apply IH.
Qed.

(** The map with the keys below [n]. *)
Definition loaded (n : Z) (value : bytes) : gmap bytes bytes := map_after (put_ops value (seqZ 0 n)) ∅.

Lemma loaded_lookup n value i :
  n ≤ 2 ^ 31 → 0 ≤ i < 2 ^ 31 → loaded n value !! make_key i = if i <? n then Some value else None.
Proof.
  intros Hn Hi. unfold loaded. rewrite map_after_puts, lookup_empty.
  apply (f_equal (λ b : bool, if b then _ else _)). apply eq_true_iff_eq.
  rewrite bool_decide_eq_true, Z.ltb_lt, list_elem_of_fmap. setoid_rewrite elem_of_seqZ. split.
  - intros (j & E & Hj). apply make_key_inj in E; lia.
  - intros Hlt. exists i. split; [done|lia].
Qed.

Lemma loaded_range n value i len :
  0 ≤ n < 2 ^ 31 → 0 ≤ i → 1 ≤ len → i + len ≤ 2 ^ 31 →
  range_rows (loaded n value) (make_key i) (make_key (i + len - 1)) =
    (λ j, (make_key j, value)) <$> seqZ i (Z.min len (n - i)).
Proof.
  intros Hn Hi Hl Hb. eapply is_range_unique; [apply range_rows_ok|]. split.
  - rewrite <- list_fmap_compose. unfold compose. cbn. apply sorted_keys_seqZ; lia.
  - intros k v. rewrite list_elem_of_fmap. setoid_rewrite elem_of_seqZ. unfold loaded.
    rewrite map_after_puts, lookup_empty. split.
    + intros (j & [= -> ->] & Hj). rewrite !make_key_le by lia. split; [lia|]. split; [lia|].
      rewrite bool_decide_eq_true_2; [done|]. apply list_elem_of_fmap_2, elem_of_seqZ. lia.
    + intros (Hlo & Hhi & Hm). case_bool_decide as Hin; [|done]. injection Hm as <-.
      apply list_elem_of_fmap in Hin as (j & -> & Hj%elem_of_seqZ). exists j.
      apply make_key_le in Hlo, Hhi; [|lia..]. split; [done|lia].
Qed.

(** Calls that leave the map as it is, each with an answer that is right. *)
Lemma loop_answers (step : mt19937 → mt19937) (op : mt19937 → engine_op) (P : engine_op * answer → Prop)
    l g m :
  (∀ g, map_call (op g) m = (m, (map_call (op g) m).2) ∧ P (op g, (map_call (op g) m).2)) →
  let ops := loop_ops step (λ g _, [op g]) l g in
  length ops = length l ∧ Forall P (zip ops (map_calls ops m)).
Proof.
  intros Hop. revert g. induction l as [|i l IH]; intros g; [by split; constructor|]. cbn.
  destruct (IH (step g)) as [Hl HF]. destruct (Hop g) as [-> HP]. cbn. split; [by rewrite Hl|].
  by constructor.
Qed.

(** ** Runs *)

(** The sizes a workload can be run with. *)
Definition good_config (c : Config) (w : Workload) : Prop :=
  match w with
  | SeqWrite | RandWrite => 0 ≤ c_n c < 2 ^ 31
  | RandReadHit => 1 ≤ c_n c < 2 ^ 31
  | RandReadMiss => 1 ≤ c_n c < 2 ^ 30
  | ScanRange => 0 ≤ c_n c < 2 ^ 31 ∧ 1 ≤ c_scan_len c < 2 ^ 31 ∧ 0 ≤ c_num_scans c < 2 ^ 31
  | ConcWrite => 0 ≤ c_n c < 2 ^ 31 ∧ 1 ≤ c_num_writers c < 2 ^ 31
  end.

(** How many calls are measured. *)
Definition call_count (c : Config) (w : Workload) : Z :=
  match w with
  | ScanRange => c_num_scans c
  | ConcWrite => c_num_writers c * (c_n c / c_num_writers c)
  | _ => c_n c
  end.

Lemma call_count_bound c w : is_read_workload w = false → good_config c w → 0 + call_count c w ≤ 2 ^ 31.
Proof.
  intros Hw Hc. destruct w; try done; unfold good_config, call_count in *; [lia..|].
  pose proof (Z.mul_div_le (c_n c) (c_num_writers c)). lia.
Qed.

(** The calls of a read workload after the loading. *)
Definition measured_ops `{Random} (c : Config) (w : Workload) (g : mt19937) : list engine_op :=
  match w with
  | RandReadHit => read_ops (c_n c) 0 (c_n c - 1) g
  | RandReadMiss => read_ops (c_n c) (c_n c) (2 * c_n c - 1) g
  | ScanRange => scan_ops (c_num_scans c) (c_scan_len c) (Z.max 0 (c_n c - c_scan_len c)) g
  | _ => []
  end.

(** What the answer has to be. *)
Definition right_answer (c : Config) (value : bytes) (w : Workload) (x : engine_op * answer) : Prop :=
  match w with
  | RandReadHit => ∃ k, x = (OpGet k, Found (Some value))
  | RandReadMiss => ∃ k, x = (OpGet k, Found None)
  | ScanRange => ∃ i, 0 ≤ i ∧ x = (OpScan (make_key i) (make_key (i + c_scan_len c - 1)),
      Scanned ((λ j, (make_key j, value)) <$> seqZ i (Z.min (c_scan_len c) (c_n c))))
  | _ => False
  end.

Lemma measured_answers `{RandomOk} c value w g :
  is_read_workload w = true → good_config c w →
  let ops := measured_ops c w g in
  Z.of_nat (length ops) = call_count c w ∧
  Forall (right_answer c value w) (zip ops (map_calls ops (loaded (c_n c) value))).
Proof.
  intros Hw Hc ops. destruct w; try done; unfold ops, good_config, measured_ops, call_count in *.
  - destruct (loop_answers (λ g, (uniform_int 0 (c_n c - 1) g).1)
      (λ g, OpGet (make_key (uniform_int 0 (c_n c - 1) g).2)) (right_answer c value RandReadHit)
      (seqZ 0 (c_n c)) g (loaded (c_n c) value)) as [Hl HF].
    + intros g'. split; [done|]. pose proof (uniform_int_range 0 (c_n c - 1) g' ltac:(lia)).
      eexists. cbn [map_call snd]. rewrite loaded_lookup by lia. by replace (_ <? _) with true by lia.
    + split; [|done]. unfold read_ops. rewrite Hl, length_seqZ. lia.
  - destruct (loop_answers (λ g, (uniform_int (c_n c) (2 * c_n c - 1) g).1)
      (λ g, OpGet (make_key (uniform_int (c_n c) (2 * c_n c - 1) g).2)) (right_answer c value RandReadMiss)
      (seqZ 0 (c_n c)) g (loaded (c_n c) value)) as [Hl HF].
    + intros g'. split; [done|]. pose proof (uniform_int_range (c_n c) (2 * c_n c - 1) g' ltac:(lia)).
      eexists. cbn [map_call snd]. rewrite loaded_lookup by lia. by replace (_ <? _) with false by lia.
    + split; [|done]. unfold read_ops. rewrite Hl, length_seqZ. lia.
  - destruct Hc as (Hn & Hlen & Hs). set (mx := Z.max 0 (c_n c - c_scan_len c)) in *.
    destruct (loop_answers (λ g, (uniform_int 0 mx g).1)
      (λ g, let i := (uniform_int 0 mx g).2 in OpScan (make_key i) (make_key (i + c_scan_len c - 1)))
      (right_answer c value ScanRange) (seqZ 0 (c_num_scans c)) g (loaded (c_n c) value)) as [Hl HF].
    + intros g'. split; [done|]. pose proof (uniform_int_range 0 mx g' ltac:(lia)).
      exists (uniform_int 0 mx g').2. split; [lia|]. cbn zeta. cbn [map_call snd]. f_equal. f_equal.
      rewrite loaded_range by lia. do 2 f_equal. lia.
    + split; [|exact HF]. etrans; [apply (f_equal Z.of_nat), Hl|]. rewrite length_seqZ. lia.
Qed.

Section Runs.
#[local] Set Default Proof Using "All".
Context `{EngineOk} `{Clock} `{NthElementOk} `{RandomOk}.

(** A workload that performs its calls, run by [main]. *)
Lemma run_on_performs {A} (e : engine) g (f : stm Bench A) ops g' Q v m :
  performs g f ops g' Q → holds e m → ops_ready ops e →
  ∃ v' a e', run_on e g f v = (v', Ok (a, e')) ∧ Q a ∧ rng_seed_gen v' = rng_seed_gen v ∧
    holds e' (map_after ops m) ∧ e' = (engine_calls ops e).1 ∧
    env_calls v' = env_calls v ++ zip ops (map_calls ops m).
Proof.
  intros Hf Hh Hr.
  destruct (Hf (mkBench _ e g (env_tick v) (env_calls v)) m eq_refl Hh Hr)
    as (b' & a & E & _ & Hh' & Ee & Ec & HQ).
  eexists _, a, (b_eng b'). unfold run_on. rewrite E. by split_and!.
Qed.

Lemma load_then_read_ok su g f ops g' Q v :
  performs g f ops g' Q →
  run_ready false (put_ops (su_value su) (seqZ 0 (c_n (su_config su))) ++ OpReopen (su_durable su) :: ops) →
  ∃ v' s, load_then_read su g f v = (v', Ok s) ∧ Q s ∧
    env_calls v' = env_calls v ++
      ((λ i, (OpPut (make_key i) (su_value su), Written)) <$> seqZ 0 (c_n (su_config su))) ++
      zip ops (map_calls ops (loaded (c_n (su_config su)) (su_value su))).
Proof.
  intros Hf Hr. set (n := c_n (su_config su)) in *. set (value := su_value su) in *.
  destruct (open_holds empty_dir ∅ false empty_stored) as (e & E & Hh). specialize (Hr e E).
  destruct (ops_ready_app _ _ _ _ Hh Hr) as (Hr1 & [Hr2 Hr3] & _).
  destruct (run_on_performs e g _ _ _ _ v ∅ (load_performs g n value) Hh Hr1)
    as (v1 & [] & e1 & E1 & _ & _ & Hh1 & Ee1 & Ec1).
  rewrite <- Ee1 in Hr2, Hr3.
  destruct (close_stored _ _ _ Hh1 Hr2) as (d & Ed & Hd).
  destruct (open_holds d _ (su_durable su) Hd) as (e2 & E2 & Hh2).
  cbn [engine_call] in Hr3. rewrite Ed in Hr3. cbn [mbind result_bind] in Hr3. rewrite E2 in Hr3.
  destruct (run_on_performs e2 g f ops g' Q v1 _ Hf Hh2 Hr3) as (v2 & s & e3 & E3 & HQ & _ & _ & _ & Ec2).
  exists v2, s. split_and!; [|done|].
  - unfold load_then_read. fold n value. rewrite E. erewrite stm_bind_ok by reflexivity.
    erewrite stm_bind_ok by exact E1. cbn [snd]. rewrite Ed.
    change (Ok d ≫= λ d, engine_open d (su_durable su)) with (engine_open d (su_durable su)). rewrite E2.
    erewrite stm_bind_ok by reflexivity. by erewrite stm_bind_ok by exact E3.
  - rewrite Ec2, Ec1, <- app_assoc. by rewrite map_calls_puts.
Qed.

(** The read workloads perform their calls. *)
Lemma measure_performs su w g :
  is_read_workload w = true → good_config (su_config su) w →
  ∃ g', performs g (measure su w) (measured_ops (su_config su) w g) g'
    (stats_of (call_count (su_config su) w)).
Proof.
  intros Hw Hc. destruct w; try done; unfold good_config, measure, measured_ops, call_count in *.
  - by apply read_hit_performs.
  - by apply read_miss_performs.
  - apply scan_performs; lia.
Qed.

(** The generator that a workload gets. *)
Definition workload_rng (v : Env) : mt19937 := mt_seed (mt_next (rng_seed_gen v)).2.

Lemma seed_rng_ok v : seed_rng v = ((seed_rng v).1, Ok (workload_rng v)).
Proof using Type. unfold seed_rng, workload_rng. cbn [fst]. reflexivity. Qed.

(** A write workload on an engine that has been opened. *)
Lemma write_measure_ok su w e m g v :
  is_read_workload w = false → good_config (su_config su) w → holds e m →
  (∀ ops, ops ≡ₚ put_ops (su_value su) (seqZ 0 (call_count (su_config su) w)) → ops_ready ops e) →
  ∃ v' s s0 e' ops, run_on e g (measure su w) v = (v', Ok (s, e')) ∧
    ops ≡ₚ put_ops (su_value su) (seqZ 0 (call_count (su_config su) w)) ∧
    env_calls v' = env_calls v ++ zip ops (map_calls ops m) ∧
    stats_of (call_count (su_config su) w) s0 ∧ p50_us s = p50_us s0 ∧ p99_us s = p99_us s0.
Proof.
  intros Hw Hc Hh Hr. destruct w; try done; unfold good_config, measure, call_count in *.
  - destruct (run_on_performs e g _ _ _ _ v m (seq_write_performs g _ _ (proj1 Hc)) Hh
      (Hr _ (Permutation_refl _))) as (v' & s & e' & E & Hs & _ & _ & _ & Ec).
    by eexists v', s, s, e', _.
  - assert (put_ops (su_value su) (shuffle (seqZ 0 (c_n (su_config su))) g).2 ≡ₚ
      put_ops (su_value su) (seqZ 0 (c_n (su_config su)))) as Hp.
    { unfold put_ops. by rewrite (shuffle_perm (seqZ 0 (c_n (su_config su))) g). }
    destruct (run_on_performs e g _ _ _ _ v m (rand_write_performs g _ _ (proj1 Hc)) Hh (Hr _ Hp))
      as (v' & s & e' & E & Hs & _ & _ & _ & Ec).
    by eexists v', s, s, e', _.
  - destruct (conc_write_ok (su_sched su) (c_n (su_config su)) (su_value su) (c_num_writers (su_config su))
      (mkBench _ e g (env_tick v) (env_calls v)) m) as (b' & s & s0 & ops & E & Hp & Hh' & Ec & ? & ? & ?); [lia..|done|done|].
    eexists _, s, s0, (b_eng b'), ops. unfold run_on. rewrite E. split; [reflexivity|]. by split_and!.
Qed.

End Runs.

(** ** Reading the results back *)

Lemma pieces_from_plain delim cur s : delim ∉ s → pieces_from delim cur s = pieces_from delim (cur ++ s) [].
Proof.
  revert cur. induction s as [|b s IH]; intros cur Hs; [by rewrite app_nil_r|].
  apply not_elem_of_cons in Hs as [Hb Hs]. cbn [pieces_from]. rewrite bool_decide_eq_false_2 by done.
  rewrite IH by done. by rewrite <- app_assoc.
Qed.

(** A piece that ends with the delimiter. *)
Lemma pieces_cons delim s rest :
  delim ∉ s → pieces delim (s ++ delim :: rest) = s :: pieces delim rest.
Proof.
  unfold pieces. assert (∀ cur, delim ∉ s → pieces_from delim cur (s ++ delim :: rest) =
    (cur ++ s) :: pieces_from delim [] rest) as Hp; [|by apply (Hp [])].
  induction s as [|b s IH]; intros cur Hs; cbn [app pieces_from].
  - by rewrite bool_decide_eq_true_2, app_nil_r.
  - apply not_elem_of_cons in Hs as [Hb Hs]. rewrite bool_decide_eq_false_2 by done.
    rewrite IH by done. by rewrite <- app_assoc.
Qed.

Lemma pieces_last delim s : delim ∉ s → s ≠ [] → pieces delim s = [s].
Proof.
  intros Hs Hne. unfold pieces. rewrite pieces_from_plain by done. cbn. by rewrite bool_decide_eq_false_2.
Qed.

(** A line without its end. *)
Fixpoint comma_fields (fields : list bytes) : bytes :=
  match fields with
  | [] => []
  | [f] => f
  | f :: fields' => f ++ comma :: comma_fields fields'
  end.

Lemma comma_line_fields fields : comma_line fields = comma_fields fields ++ newline.
Proof.
  induction fields as [|f [|f' fields] IH]; [done|done|]. cbn [comma_line comma_fields] in *.
  rewrite IH. by rewrite <- app_assoc.
Qed.

Lemma fields_read fields :
  Forall plain fields → last fields ≠ Some [] → pieces comma (comma_fields fields) = fields.
Proof.
  induction fields as [|f [|f' fields] IH]; intros Hp Hl; [done|..]; apply Forall_cons in Hp as [[Hf _] Hp].
  - cbn. apply pieces_last; [done|]. by intros ->.
  - cbn [comma_fields]. rewrite pieces_cons by done. f_equal. by apply IH.
Qed.

Lemma fields_no_newline fields : Forall plain fields → x0a%byte ∉ comma_fields fields.
Proof.
  induction fields as [|f [|f' fields] IH]; intros Hp; [by apply not_elem_of_nil|..];
    apply Forall_cons in Hp as [[_ Hf] Hp]; [done|].
  cbn [comma_fields] in *. rewrite not_elem_of_app, not_elem_of_cons. split_and!; [done|done|by apply IH].
Qed.

Lemma lines_read (ls : list (list bytes)) :
  Forall (Forall plain) ls → pieces x0a%byte (ls ≫= comma_line) = comma_fields <$> ls.
Proof.
  induction 1 as [|l ls Hl _ IH]; [done|]. rewrite bind_cons, comma_line_fields, <- app_assoc. cbn [app newline].
  rewrite pieces_cons by (by apply fields_no_newline). cbn. by rewrite IH.
Qed.

Lemma csv_fields_plain `{NanSign} c r :
  plain (c_sync_mode c) → plain (r_engine r) → plain (r_workload r) → Forall plain (csv_fields c r).
Proof.
  intros Hs He Hw. unfold csv_fields.
  repeat (constructor; [first [done|apply plain_fixed|apply plain_int]|]). constructor.
Qed.

(** The rows of the workloads that are selected. *)
Definition row_names (keystone sqlite : Workload → Engine) (w : Workload) : list (bytes * bytes) :=
  [(engine_name (Engine := keystone w), wl_name w); (engine_name (Engine := sqlite w), wl_name w)].

Lemma run_workload_names `{Clock} `{NthElement} `{Random} `{Engine} su w v v' r :
  run_workload su w v = (v', Ok r) → r_engine r = engine_name ∧ r_workload r = wl_name w.
Proof.
  unfold run_workload. intros (v1 & s & _ & [= _ <-])%stm_bind_inv. done.
Qed.

(** What the directories of the benchmark need of the system. *)
Class FilesystemOk `{Filesystem} : Prop := {
  fs_temp_ok : ∃ tmp, temp_directory_path = Ok tmp;
  fs_renew_ok dir : fs_renew dir = true;
  fs_remove_ok dir : fs_remove_all dir = true;
}.

Definition add_dir (ev : dir_event) (v : Env) : Env :=
  mkEnv (rng_seed_gen v) (env_tick v) (env_calls v) (env_dirs v ++ [ev]).

(** The path of a directory, when the system gives one. *)
Definition dir_path `{Filesystem} (su : Setup) (label : bytes) : bytes :=
  match temp_dir (c_base_dir (su_config su)) label with Ok dir => dir | _ => [] end.

Lemma temp_dir_ok `{FilesystemOk} su label :
  temp_dir (c_base_dir (su_config su)) label = Ok (dir_path su label).
Proof.
  unfold dir_path, temp_dir. case_bool_decide; [|done]. destruct fs_temp_ok as [tmp E]. by rewrite E.
Qed.

Lemma in_temp_dir_eq `{FilesystemOk} su label run v :
  in_temp_dir su label run v =
    match run (add_dir (Made (dir_path su label)) v) with
    | (v1, Ok row) => (add_dir (Removed (dir_path su label)) v1, Ok row)
    | (v1, Throw msg) => (v1, Throw msg)
    | (v1, Undefined) => (v1, Undefined)
    end.
Proof.
  unfold in_temp_dir, make_temp, dir_action, raise, mbind, stm_bind, mret, stm_ret.
  rewrite temp_dir_ok, fs_renew_ok. fold (add_dir (Made (dir_path su label)) v).
  destruct (run _) as [v1 [row| |]]; [|done..]. by rewrite fs_remove_ok.
Qed.

(** Both runs of a workload. *)
Lemma run_all_cons `{Clock} `{NthElement} `{Random} `{FilesystemOk} keystone sqlite su filter w ws v :
  selected filter w = true →
  match run_all keystone sqlite su filter (w :: ws) v with
  | (v', Ok rows) => ∃ r1 r2 rows' v1 v2,
      run_workload (H2 := keystone w) su w (add_dir (Made (dir_path su (keystone_label w))) v) = (v1, Ok r1) ∧
      run_workload (H2 := sqlite w) su w (add_dir (Made (dir_path su (sqlite_label w)))
        (add_dir (Removed (dir_path su (keystone_label w))) v1)) = (v2, Ok r2) ∧
      run_all keystone sqlite su filter ws (add_dir (Removed (dir_path su (sqlite_label w))) v2) = (v', Ok rows') ∧
      rows = r1 :: r2 :: rows'
  | _ => (∃ v1, (∀ row, (run_workload (H2 := keystone w) su w v1).2 ≠ Ok row) ∨
                (∀ row, (run_workload (H2 := sqlite w) su w v1).2 ≠ Ok row)) ∨
         ∃ v1, ∀ rows, (run_all keystone sqlite su filter ws v1).2 ≠ Ok rows
  end.
Proof.
  intros Hsel. cbn [run_all]. rewrite Hsel. unfold mbind, stm_bind. rewrite in_temp_dir_eq.
  destruct (run_workload (H2 := keystone w) su w _) as [v1 [r1| |]] eqn:E1;
    [|left; eexists; left; by erewrite E1..].
  rewrite in_temp_dir_eq. destruct (run_workload (H2 := sqlite w) su w _) as [v2 [r2| |]] eqn:E2;
    [|left; eexists; right; by erewrite E2..].
  destruct (run_all keystone sqlite su filter ws _) as [v3 [rows| |]] eqn:E3;
    [|right; eexists; by erewrite E3..].
  cbn. by eexists r1, r2, rows, v1, v2.
Qed.
Lemma rows_in_order `{Clock} `{NthElement} `{Random} `{FilesystemOk} keystone sqlite su filter ws v :
  match (run_all keystone sqlite su filter ws v).2 with
  | Ok rows => (λ r, (r_engine r, r_workload r)) <$> rows =
      List.filter (selected filter) ws ≫= row_names keystone sqlite
  | _ => ∃ w v1, w ∈ ws ∧ selected filter w = true ∧
      ((∀ row, (run_workload (H2 := keystone w) su w v1).2 ≠ Ok row) ∨
       (∀ row, (run_workload (H2 := sqlite w) su w v1).2 ≠ Ok row))
  end.
Proof.
  revert v. induction ws as [|w ws IH]; intros v; [done|]. cbn [List.filter].
  destruct (selected filter w) eqn:Hsel.
  2:{ cbn [run_all]. rewrite Hsel. specialize (IH v).
      destruct (run_all keystone sqlite su filter ws v).2 as [rows| |]; [done|..];
        destruct IH as (w' & v1 & Hw & Hf); exists w', v1; (split; [by right|done]). }
  pose proof (run_all_cons keystone sqlite su filter w ws v Hsel) as Hc.
  destruct (run_all keystone sqlite su filter (w :: ws) v) as [v' [rows| |]]; cbn [snd].
  { destruct Hc as (r1 & r2 & rows' & v1 & v2 & E1 & E2 & E3 & ->).
    specialize (IH (add_dir (Removed (dir_path su (sqlite_label w))) v2)). rewrite E3 in IH. cbn [snd] in IH.
    apply run_workload_names in E1 as [N1 W1], E2 as [N2 W2]. cbn. by rewrite N1, W1, N2, W2, IH. }
  all: destruct Hc as [[v1 Hf]|[v1 Hf]]; [exists w, v1; split; [by left|done]|];
    specialize (IH v1); destruct (run_all keystone sqlite su filter ws v1).2 as [rows| |];
    [by destruct (Hf rows)|..];
    destruct IH as (w' & v2 & Hw & Hf'); exists w', v2; (split; [by right|done]).
Qed.

Lemma seed_rng_dirs v : env_dirs (seed_rng v).1 = env_dirs v.
Proof. unfold seed_rng. cbn [fst env_dirs]. reflexivity. Qed.

(** A workload has no other directory than the one that is made for it. *)
Lemma run_workload_dirs `{Clock} `{NthElement} `{Random} `{Engine} su w v v' r :
  run_workload su w v = (v', Ok r) → env_dirs v' = env_dirs v.
Proof.
  assert (∀ A (e : engine) g (f : stm Bench A) v v' a, run_on e g f v = (v', Ok a) → env_dirs v' = env_dirs v)
    as Hrun by (intros A e g f v0 v0' a [= <- _]; done).
  assert (∀ v v' g, seed_rng v = (v', Ok g) → env_dirs v' = env_dirs v) as Hseed
    by (intros v0 v0' g Es; by rewrite <- (seed_rng_dirs v0), Es).
  assert (∀ A (x : result A) (v v' : Env) a, raise x v = (v', Ok a) → v' = v) as Hraise
    by (intros ? ? ? ? ? [= <- _]; done).
  unfold run_workload. intros (v1 & s & E & [= <- _])%stm_bind_inv.
  destruct (is_read_workload w).
  - apply stm_bind_inv in E as (v2 & g & E2%Hseed & E). rewrite <- E2. unfold load_then_read in E.
    apply stm_bind_inv in E as (v3 & e & ->%Hraise & E). apply stm_bind_inv in E as (v4 & l & E4%Hrun & E).
    apply stm_bind_inv in E as (v5 & e5 & ->%Hraise & E).
    apply stm_bind_inv in E as (v6 & x & E6%Hrun & [= <- _]). congruence.
  - apply stm_bind_inv in E as (v2 & e & ->%Hraise & E). apply stm_bind_inv in E as (v3 & g & E3 & E).
    apply stm_bind_inv in E as (v4 & x & E4%Hrun & [= <- _]). rewrite E4.
    case_bool_decide; [by eapply Hseed|]. by injection E3 as <-.
Qed.

(** The directories of a workload, one after the other. *)
Definition workload_dirs `{Filesystem} (su : Setup) (w : Workload) : list dir_event :=
  let k := dir_path su (keystone_label w) in
  let s := dir_path su (sqlite_label w) in [Made k; Removed k; Made s; Removed s].

Lemma dirs_in_order `{Clock} `{NthElement} `{Random} `{FilesystemOk} keystone sqlite su filter ws v v' rows :
  run_all keystone sqlite su filter ws v = (v', Ok rows) →
  env_dirs v' = env_dirs v ++ (List.filter (selected filter) ws ≫= workload_dirs su).
Proof.
  revert v rows. induction ws as [|w ws IH]; intros v rows.
  { intros [= <- _]. by rewrite app_nil_r. }
  cbn [List.filter]. destruct (selected filter w) eqn:Hsel.
  2:{ cbn [run_all]. rewrite Hsel. apply IH. }
  intros E. pose proof (run_all_cons keystone sqlite su filter w ws v Hsel) as Hc. rewrite E in Hc.
  destruct Hc as (r1 & r2 & rows' & v1 & v2 & E1%run_workload_dirs & E2%run_workload_dirs & E3%IH & _).
  cbn [env_dirs add_dir] in *. rewrite E3, E2, E1, bind_cons. by rewrite <- !(assoc_L (++)).
Qed.

Lemma csv_read_back `{NanSign} c rows :
  plain (c_sync_mode c) → Forall (λ r, plain (r_engine r) ∧ plain (r_workload r)) rows →
  pieces comma <$> pieces x0a%byte (csv_text true c rows) = csv_columns :: (csv_fields c <$> rows).
Proof.
  intros Hs Hr. unfold csv_text.
  assert (comma_line csv_columns ++ (rows ≫= λ r, comma_line (csv_fields c r)) =
    (csv_columns :: (csv_fields c <$> rows)) ≫= comma_line) as ->.
  { rewrite bind_cons. f_equal. clear. induction rows as [|r rows IH]; [done|].
    rewrite fmap_cons, !bind_cons. by rewrite IH. }
  assert (Forall (λ l, Forall plain l ∧ last l ≠ Some []) (csv_columns :: (csv_fields c <$> rows))) as Hp.
  { constructor; [by apply (bool_decide_unpack _); vm_compute|]. apply Forall_fmap.
    eapply Forall_impl; [exact Hr|]. intros r [He Hw]. split; [by apply csv_fields_plain|].
    cbn. intros [= E]. by apply (int_text_nonempty (c_num_writers c)). }
  rewrite lines_read by (eapply Forall_impl; [exact Hp|]; by intros l [? _]).
  rewrite <- list_fmap_compose. induction Hp as [|l ls [H1 H2] _ IH]; [done|].
  cbn [fmap list_fmap]. f_equal; [by apply fields_read|exact IH].
Qed.

(** The rows have plain names, when the engines have. *)
Lemma row_names_plain keystone sqlite ws :
  (∀ w, plain (engine_name (Engine := keystone w)) ∧ plain (engine_name (Engine := sqlite w))) →
  Forall (λ p : bytes * bytes, plain p.1 ∧ plain p.2) (ws ≫= row_names keystone sqlite).
Proof.
  intros Hn. induction ws as [|w ws IH]; [constructor|].
  assert (plain (wl_name w)) by (destruct w; by apply (bool_decide_unpack _); vm_compute).
  rewrite bind_cons. destruct (Hn w). constructor; [by split|]. constructor; [by split|done].
Qed.

Lemma rows_plain keystone sqlite ws (rows : list Row) :
  (λ r, (r_engine r, r_workload r)) <$> rows = ws ≫= row_names keystone sqlite →
  (∀ w, plain (engine_name (Engine := keystone w)) ∧ plain (engine_name (Engine := sqlite w))) →
  Forall (λ r, plain (r_engine r) ∧ plain (r_workload r)) rows.
Proof.
  intros E Hn. pose proof (row_names_plain keystone sqlite ws Hn) as Hp. rewrite <- E in Hp.
  by apply Forall_fmap in Hp.
Qed.

(** The first two fields of the rows. *)
Lemma rows_fields `{NanSign} keystone sqlite ws c (rows : list Row) :
  (λ r, (r_engine r, r_workload r)) <$> rows = ws ≫= row_names keystone sqlite →
  ((take 2 ∘ csv_fields c) <$> rows) = ws ≫= λ w,
    [[engine_name (Engine := keystone w); wl_name w]; [engine_name (Engine := sqlite w); wl_name w]].
Proof.
  intros E. transitivity ((λ p : bytes * bytes, [p.1; p.2]) <$> (ws ≫= row_names keystone sqlite)).
  - rewrite <- E, <- list_fmap_compose. done.
  - clear. induction ws as [|w ws IH]; [done|]. rewrite !bind_cons, fmap_app, IH. reflexivity.
Qed.

(** * Theorems *)

(** C17.  Each write workload calls [put] for every one of its keys exactly
    once, in whatever order, and no other operation: the sequential and the
    random one for the keys below n, the concurrent one, however its threads
    are interleaved, for those below writers * (n / writers).  It ends without
    an error, and its percentiles are those of one measurement for each call. *)
Theorem write_workloads_once `{EngineOk} `{Clock} `{NthElementOk} `{RandomOk} su w v :
  is_read_workload w = false → good_config (su_config su) w →
  (∀ ops, ops ≡ₚ put_ops (su_value su) (seqZ 0 (call_count (su_config su) w)) →
    run_ready (su_durable su) ops) →
  ∃ v' s s0 l, run_workload su w v = (v', Ok (mkRow engine_name (wl_name w) s)) ∧
    l ≡ₚ seqZ 0 (call_count (su_config su) w) ∧ NoDup (make_key <$> l) ∧
    env_calls v' = env_calls v ++ ((λ i, (OpPut (make_key i) (su_value su), Written)) <$> l) ∧
    stats_of (call_count (su_config su) w) s0 ∧ p50_us s = p50_us s0 ∧ p99_us s = p99_us s0.
Proof.
  intros Hw Hc Hr. destruct (open_holds empty_dir ∅ (su_durable su) empty_stored) as (e & E & Hh).
  set (v1 := (if bool_decide (w = RandWrite) then seed_rng else mret [] : stm Env mt19937) v).
  assert (∃ g, v1 = (v1.1, Ok g) ∧ env_calls v1.1 = env_calls v) as (g & E1 & Ec1)
    by (unfold v1; case_bool_decide; by eexists).
  destruct (write_measure_ok su w e ∅ g v1.1 Hw Hc Hh) as (v' & s & s0 & e' & ops & E2 & Hp & Ec & Hs).
  { intros ops Hp. by apply Hr. }
  apply Permutation_map_inv in Hp as (l & -> & Hl). change (map _ l) with (put_ops (su_value su) l) in Ec.
  exists v', s, s0, l. split_and!; [|done| |by rewrite Ec, Ec1, map_calls_puts|apply Hs..].
  - unfold run_workload. rewrite Hw. unfold mbind at 1, stm_bind at 1. rewrite E.
    erewrite stm_bind_ok by reflexivity. erewrite stm_bind_ok by exact E1. by erewrite stm_bind_ok by exact E2.
  - rewrite <- Hl. apply sorted_keys_nodup, sorted_keys_seqZ; [done|]. by apply call_count_bound in Hc.
Qed.

(** C16.  Each read workload loads the keys below n, with the engine in batched
    mode, closes and reopens it, and then gets the answers it is meant to
    measure: a random hit finds the value, a random miss finds nothing, and a
    scan passes exactly the [scan_len] keys from its start on (all n of them
    when there are fewer).  It makes as many calls as it was asked for and its
    statistics are those of their measurements. *)
Theorem read_workloads_answered `{EngineOk} `{Clock} `{NthElementOk} `{RandomOk} su w v :
  is_read_workload w = true → good_config (su_config su) w →
  run_ready false (put_ops (su_value su) (seqZ 0 (c_n (su_config su))) ++
    OpReopen (su_durable su) :: measured_ops (su_config su) w (workload_rng v)) →
  ∃ v' s reads, run_workload su w v = (v', Ok (mkRow engine_name (wl_name w) s)) ∧
    env_calls v' = env_calls v ++
      ((λ i, (OpPut (make_key i) (su_value su), Written)) <$> seqZ 0 (c_n (su_config su))) ++ reads ∧
    Z.of_nat (length reads) = call_count (su_config su) w ∧
    Forall (right_answer (su_config su) (su_value su) w) reads ∧
    stats_of (call_count (su_config su) w) s.
Proof.
  intros Hw Hc Hr. destruct (measure_performs su w (workload_rng v) Hw Hc) as (g' & Hm).
  set (v1 := (seed_rng v).1).
  destruct (load_then_read_ok su _ _ _ _ _ v1 Hm Hr) as (v' & s & E & Hs & Ec).
  destruct (measured_answers (su_config su) (su_value su) w (workload_rng v) Hw Hc) as [Hlen Hans].
  exists v', s. eexists. split_and!; [|exact Ec| |exact Hans|exact Hs].
  - unfold run_workload. rewrite Hw. unfold mbind at 1, stm_bind at 1.
    rewrite (stm_bind_ok seed_rng _ _ _ _ (seed_rng_ok v)). fold v1.
    by rewrite E.
  - by rewrite length_zip_with_l_eq by (by rewrite map_calls_length).
Qed.

(** The file of results that [main] starts can be read back, whatever the
    measurements are: split at the ends of the lines and at the commas it gives
    the nine names of the columns, then a row of nine fields for every workload
    that [-workloads] selects, in the fixed order of the workloads and one for
    each engine, the database first; names that are no workload are ignored.
    The text of [-sync] must have no comma and no end of line.  Otherwise the
    length of the value is negative or one of the runs has failed. *)
Theorem results_file `{NanSign} `{Clock} `{NthElement} `{Random} `{FilesystemOk} keystone sqlite sched uts
    argv0 path argv c :
  parse_args argv default_config = Ok (Some c) → plain (c_sync_mode c) →
  (∀ w, plain (engine_name (Engine := keystone w)) ∧ plain (engine_name (Engine := sqlite w))) →
  results_path argv0 = Ok path → fs_status path = Ok None → fs_append path = true → fs_text path = [] →
  match bench_main keystone sqlite sched uts argv0 argv with
  | Ok o => o_code o = 0 ∧ ∃ csv rows, o_csv o = Some (path, csv) ∧
      pieces comma <$> pieces x0a%byte csv = csv_columns :: rows ∧ Forall (λ r, length r = 9%nat) rows ∧
      (take 2 <$> rows) =
        List.filter (selected (filter_of c)) workloads ≫= λ w,
          [[engine_name (Engine := keystone w); wl_name w]; [engine_name (Engine := sqlite w); wl_name w]]
  | _ => c_value_bytes c < 0 ∨
      ∃ su w v, selected (filter_of c) w = true ∧
        ((∀ row, (run_workload (H2 := keystone w) su w v).2 ≠ Ok row) ∨
         (∀ row, (run_workload (H2 := sqlite w) su w v).2 ≠ Ok row))
  end.
Proof.
  intros Hparse Hs Hnames Hpath Hst Hopen Htext. unfold bench_main. rewrite Hparse. cbn [mbind result_bind].
  fold (filter_of c). unfold vector_length. destruct (Z.ltb_spec (c_value_bytes c) 0); [by left|].
  cbn [mbind result_bind]. set (su := mkSetup _ _ _ _). set (v0 := mkEnv _ _ _ _).
  pose proof (rows_in_order keystone sqlite su (filter_of c) workloads v0) as Hrows.
  destruct (run_all keystone sqlite su (filter_of c) workloads v0).2 as [rows| |]; cbn [mbind result_bind];
    [|destruct Hrows as (w & v & _ & Hf); right; by exists su, w, v..].
  unfold write_results. rewrite Hpath. cbn [mbind result_bind]. rewrite Hst. cbn [mbind result_bind].
  rewrite Hopen, Htext. split; [done|]. eexists _, (csv_fields c <$> rows). split; [reflexivity|].
  assert (Forall (λ r, plain (r_engine r) ∧ plain (r_workload r)) rows) as Hplain.
  { eapply (rows_plain keystone sqlite); [exact Hrows|exact Hnames]. }
  split; [by apply csv_read_back|]. split; [by apply Forall_fmap, Forall_true|].
  rewrite <- list_fmap_compose. by apply rows_fields.
Qed.

(** A run that ends without an error leaves no directory behind: each run of a
    workload on an engine has a directory of its own, which is emptied before
    and removed after it, and no other directory is touched. *)
Theorem directories_cleaned `{Clock} `{NthElement} `{Random} `{FilesystemOk} keystone sqlite su filter v' rows
    (Hrun : run_all keystone sqlite su filter workloads (mkEnv (mt_seed 42) 0 [] []) = (v', Ok rows)) :
  env_dirs v' = List.filter (selected filter) workloads ≫= workload_dirs su ∧
  NoDup (workloads ≫= λ w, [dir_path su (keystone_label w); dir_path su (sqlite_label w)]).
Proof.
  split; [by apply dirs_in_order in Hrun|].
  assert (∃ pre, ∀ label, dir_path su label = pre ++ label) as [pre Hpre].
  { unfold dir_path, temp_dir. case_bool_decide.
    - destruct fs_temp_ok as [tmp E]. rewrite E. exists (tmp ++ bs "/ks_bench_"). intros label.
      cbn [mbind result_bind]. by rewrite (assoc_L (++)).
    - eexists (_ ++ bs "/"). intros label. by rewrite (assoc_L (++)). }
  cbn [workloads mbind list_bind app]. rewrite !Hpre.
  assert (NoDup (workloads ≫= λ w, [keystone_label w; sqlite_label w])) as Hnd
    by (apply (bool_decide_unpack _); vm_compute; exact I).
  apply (NoDup_fmap_2 (pre ++.)) in Hnd. exact Hnd.
Qed.

(** Where the results go when the program is found through the search path:
    without a directory called bench they go to the root of the file system. *)
Theorem results_in_root `{Filesystem} :
  fs_status (bs "bench") = Ok None → results_path (bs "bench") = Ok (bs "/results.csv").
Proof.
  intros E. unfold results_path.
  assert (path_join (parent_path (parent_path (bs "bench"))) (bs "bench") = bs "bench") as ->
    by (vm_compute; reflexivity).
  rewrite E. vm_compute. reflexivity.
Qed.

(** Arguments that the program does not check: without operations the
    random reads ask for a number between 0 and -1, from 2^30 operations on
    the range of the missing keys is not within [int], and without writers
    there is a division by zero; all of this is undefined.  A negative number
    of operations ends the program with an exception. *)
Theorem unchecked_arguments `{Engine} `{Clock} `{NthElement} `{Random} su b :
  let c := su_config su in
  (c_n c = 0 → measure su RandReadHit b = (b, Undefined) ∧ measure su RandReadMiss b = (b, Undefined)) ∧
  (2 ^ 30 ≤ c_n c < 2 ^ 31 → measure su RandReadMiss b = (b, Undefined)) ∧
  (c_num_writers c = 0 → measure su ConcWrite b = (b, Undefined)) ∧
  (c_n c < 0 → ∃ msg, measure su SeqWrite b = (b, Throw msg) ∧ measure su RandWrite b = (b, Throw msg)).
Proof.
  unfold measure, run_rand_read_hit, run_rand_read_miss, run_conc_write, run_seq_write, run_rand_write.
  split_and!.
  - intros ->. by split.
  - intros Hn. unfold int_op, is_int. by replace (2 * _ <? 2 ^ 31) with false by lia; rewrite andb_false_r.
  - by intros ->.
  - intros Hn. unfold vector_length. replace (_ <? 0) with true by lia. by eexists.
Qed.

(** * Examples *)

Definition ex_clock : Clock := {| clock n := 1000 * Z.of_nat n |}.

Definition ex_setup (n writers : Z) : Setup :=
  mkSetup (mkConfig n 3 2 4 writers [] (bs "durable") []) (random_bytes 3 (mt_seed 12345)) true [1; 0; 1; 1; 0]%nat.

Definition ex_start : Env := mkEnv (mt_seed 42) 0 [] [].

(** What SQLite needs does not depend on its state. *)
Lemma sqlite_ops_ready `{SqliteOk} ops e :
  Forall (λ op, ∀ e, sqlite_ready e op) ops → ops_ready (H0 := sqlite_engine_ok) ops e.
Proof.
  intros Hops. revert e. induction Hops as [|op ops Hop _ IH]; intros e; [done|]. split; [apply Hop|apply IH].
Qed.

Lemma ex_puts_ready ops :
  ops ≡ₚ put_ops (su_value (ex_setup 5 2)) (seqZ 0 4) →
  run_ready (H0 := sqlite_engine_ok (H0 := mem_sqlite_ok)) true ops.
Proof.
  intros Hp e _. apply sqlite_ops_ready. rewrite Hp. apply Forall_forall.
  intros op Hop e'. apply list_elem_of_fmap in Hop as (i & -> & Hi%elem_of_seqZ).
  assert (Forall (λ i, bindable sql_put 1 (make_key i)) (seqZ 0 4)) as Hk.
  { apply (bool_decide_unpack _). vm_compute. exact I. }
  rewrite Forall_forall in Hk. split; [apply Hk, elem_of_seqZ; lia|].
  apply (bool_decide_unpack _). vm_compute. exact I.
Qed.

Lemma write_workloads_once_witness :
  ∃ v' s, run_workload (H := ex_clock) (H0 := sort_nth) (H1 := mod_random)
      (H2 := sqlite_engine (H := mem_sqlite)) (ex_setup 5 2) ConcWrite ex_start =
    (v', Ok (mkRow (bs "SQLite") (bs "conc_write") s)) ∧ length (env_calls v') = 4%nat.
Proof.
  destruct (write_workloads_once (H0 := sqlite_engine_ok (H0 := mem_sqlite_ok)) (H1 := ex_clock)
    (H2 := sort_nth) (H4 := mod_random) (ex_setup 5 2) ConcWrite ex_start)
    as (v' & s & s0 & l & E & Hl & _ & Ec & _).
  - reflexivity.
  - split; vm_compute; by split.
  - exact ex_puts_ready.
  - exists v', s. split; [exact E|]. rewrite Ec, length_app, length_fmap, Hl. reflexivity.
Defined.

Lemma read_workloads_answered_witness :
  ∃ v' s reads, run_workload (H := ex_clock) (H0 := sort_nth) (H1 := mod_random)
      (H2 := keystone_engine (H := ex_posix) (H0 := first_pq) ex_env) (ex_setup 3 1) ScanRange ex_start =
    (v', Ok (mkRow (bs "KeystoneDB") (bs "scan") s)) ∧ length reads = 4%nat ∧
    Forall (right_answer (su_config (ex_setup 3 1)) (su_value (ex_setup 3 1)) ScanRange) reads.
Proof.
  destruct (read_workloads_answered (H0 := keystone_engine_ok (H := ex_posix) (H1 := first_pq) ex_env)
    (H1 := ex_clock) (H2 := sort_nth) (H4 := mod_random) (ex_setup 3 1) ScanRange ex_start)
    as (v' & s & reads & E & _ & Hlen & Hans & _).
  - reflexivity.
  - repeat split; vm_compute; done.
  - apply (run_ready_checked (H0 := keystone_engine_ok ex_env) (H1 := keystone_ready_dec)).
    vm_compute. reflexivity.
  - exists v', s, reads. split; [exact E|]. split; [|exact Hans]. change (call_count _ _) with 4 in Hlen. lia.
Defined.

Definition ex_argv : list bytes :=
  [bs "-n"; bs "2"; bs "-v"; bs "3"; bs "-writers"; bs "2"; bs "-sync"; bs "batched"; bs "-workloads";
   bs "conc_write,,other,seq_write"].

Definition ex_config : Config :=
  mkConfig 2 3 100 2000 2 [] (bs "batched") (bs "conc_write,,other,seq_write").

(** A file system with the sources beside the directory of the program. *)
Definition ex_fs : Filesystem := {|
  temp_directory_path := Ok (bs "/tmp"); fs_renew _ := true; fs_remove_all _ := true;
  fs_status p := Ok (if bool_decide (p = bs "ks/bench") then Some true else None);
  fs_append _ := true; fs_text _ := [];
|}.

#[local] Instance ex_fs_ok : @FilesystemOk ex_fs.
Proof. split; [by exists (bs "/tmp")|done|done]. Qed.

Definition ex_main `{NanSign} `{Clock} `{NthElement} `{Random} : result Outcome :=
  bench_main (H3 := ex_fs) (λ _, keystone_engine (H := ex_posix) (H0 := first_pq) ex_env)
    (λ _, sqlite_engine (H := mem_sqlite)) [1; 0; 1]%nat None (bs "ks/build/bench") ex_argv.

Definition ex_csv : bytes :=
  match ex_main (H := {| nan_sign := true |}) (H0 := ex_clock) (H1 := sort_nth) (H2 := mod_random) with
  | Ok o => default [] (snd <$> o_csv o) | _ => []
  end.

Lemma ex_main_ok :
  ∃ o, ex_main (H := {| nan_sign := true |}) (H0 := ex_clock) (H1 := sort_nth) (H2 := mod_random) = Ok o ∧
    o_csv o = Some (bs "ks/bench/results.csv", ex_csv).
Proof.
  assert (match ex_main (H := {| nan_sign := true |}) (H0 := ex_clock) (H1 := sort_nth) (H2 := mod_random)
    with Ok o => o_csv o = Some (bs "ks/bench/results.csv", ex_csv) | _ => False end) as Hm by (vm_compute; reflexivity).
  destruct ex_main as [o| |]; [|done..]. by exists o.
Qed.

Lemma results_file_witness :
  ∃ rows, pieces comma <$> pieces x0a%byte ex_csv = csv_columns :: rows ∧
    (take 2 <$> rows) = [[bs "KeystoneDB"; bs "seq_write"]; [bs "SQLite"; bs "seq_write"];
      [bs "KeystoneDB"; bs "conc_write"]; [bs "SQLite"; bs "conc_write"]].
Proof.
  destruct ex_main_ok as (o & Eo & Ec). unfold ex_main in Eo.
  pose proof (results_file (H := {| nan_sign := true |}) (H0 := ex_clock) (H1 := sort_nth) (H2 := mod_random)
    (H3 := ex_fs) (λ _, keystone_engine (H := ex_posix) (H0 := first_pq) ex_env) (λ _, sqlite_engine (H := mem_sqlite))
    [1; 0; 1]%nat None (bs "ks/build/bench") (bs "ks/bench/results.csv") ex_argv ex_config) as Hr. rewrite Eo in Hr.
  destruct Hr as (_ & csv & rows & E & Hp & _ & Ht).
  - vm_compute. reflexivity.
  - apply (bool_decide_unpack _). vm_compute. exact I.
  - intros w. split; apply (bool_decide_unpack _); vm_compute; exact I.
  - vm_compute. reflexivity.
  - vm_compute. reflexivity.
  - reflexivity.
  - reflexivity.
  - exists rows. rewrite E in Ec. apply (inj Some) in Ec. assert (csv = ex_csv) as -> by congruence. split; [exact Hp|]. rewrite Ht. vm_compute. reflexivity.
Defined.

Lemma unchecked_arguments_witness :
  let b := mkBench (sqlite_engine (H := mem_sqlite))
    (mkSqliteEngine mem_sqlite (mkView None ∅) 0 1 2) [] 0 [] in
  (measure (H := ex_clock) (H0 := sort_nth) (H1 := mod_random) (ex_setup 0 0) RandReadHit b).2 = Undefined ∧
  (measure (H := ex_clock) (H0 := sort_nth) (H1 := mod_random) (ex_setup 0 0) ConcWrite b).2 = Undefined.
Proof.
  intros b. destruct (unchecked_arguments (H := sqlite_engine (H := mem_sqlite)) (H0 := ex_clock)
    (H1 := sort_nth) (H2 := mod_random) (ex_setup 0 0) b) as (H1 & _ & H2 & _).
  destruct (H1 eq_refl) as [-> _]. rewrite (H2 eq_refl). by split.
Defined.
